(* ===== verification/_CoqProject ===== *)
-Q . S2P
Prelude.v
GoStd.v
Json.v
Revision.v
KeyIndex.v
KeyHistory.v
BTree.v
TreeIndex.v
Hashing.v
XXHash.v
HashingManager.v
Latency.v
Config.v
ConfigFile.v
ConfigRead.v
Tracer.v
Mux.v
Gateway.v
Database.v
ChainNode.v
Runtime.v
Chain.v
Piping.v
Handler.v
VersionedMap.v
Service.v
Startup.v
Validation.v
Concurrent.v
ConcurrentInv.v
Linearizable.v
Updates.v
Progress.v
Serial.v
