(* ===== verification/Prelude.v ===== *)
(** * The regionless key-value store

    A verification of the Go code of the regionless storage service (src/cmd/http,
    src/pkg with its generated gateway, src/validation): an HTTP service that keeps every version of every key in an
    in-memory index, places each version on stores of several availability zones, and
    replicates it synchronously within the region and asynchronously beyond it.

    ** The program and its parts

    A request (src/cmd/http/main.go) draws a revision from a global counter
    (src/pkg/revision), maps its bucket to a list of stores (src/pkg/partition/consistent:
    rendezvous or ring hashing, by zone), writes the value under the revision on those
    stores (src/pkg/piping, over src/pkg/consistent/chain and src/pkg/database) and records
    the revision in the index (src/pkg/index).  A read looks the latest revision of the key
    up in the index and asks the first, nearest store of its list.  At start-up the stores
    of the configuration are sorted into zones and remote stores by measured latency
    (src/pkg/config, src/pkg/network/latency).  A client (src/validation) writes and reads
    a key through the service and logs what it saw for a linearizability checker.  Beside
    the service, src/pkg/server holds a generated HTTP gateway to gRPC services of the same
    data, which registers its handlers with the multiplexer of the gateway runtime.

    ** The files

    - [Prelude]: outcomes of Go calls ([Ret], [Fail], [Panic]), the state monad, machine
      integers, byte strings and their order, sorting as a class, shared list lemmas, the
      hint database [rkv].
    - [GoStd]: the part of the Go standard library the code uses: strings.Split and Join,
      strconv.ParseInt and Atoi with their errors, fmt of lists and maps, byte encodings.
    - [Json]: encoding/json on maps of strings: the scanner as a state machine, the decoder
      on its opcodes, the encoder, and their round trip; [Json] is the decoder as a class.
    - [Revision]: src/pkg/index/revision.go and src/pkg/revision/revision.go.
    - [KeyIndex], [KeyHistory]: src/pkg/index/key_index.go; the operations with their
      invariant [ki_ok], then the history of a key as an event log and what get and since
      return of it, for every reachable key index ([ki_reach]).
    - [BTree]: the ordered tree of github.com/google/btree as a class with laws, and an
      instance.
    - [TreeIndex]: src/pkg/index/index.go over the tree class; the reachable indexes are
      those of [index_step].
    - [Hashing]: src/pkg/partition/consistent/rendezvous.go and ring.go, both instances of
      [ConsistentHashing] with the laws [HashingLaws], over any 64-bit hash ([Hasher]).
    - [XXHash]: the hash the partitioners are run with, the vendored xxHash, evaluated on
      reference digests.
    - [HashingManager]: src/pkg/partition/consistent/hashing.go, against [HashingLaws].
    - [Latency]: src/pkg/network/latency, from the events of a dial to the average.
    - [Config]: the classification of stores in src/pkg/config/config.go; [ConfigFile]: how
      it reads its file -- the parts of path and encoding/json it uses, the decoder driven
      by the scanner of [Json], and the config.json of the repository; [ConfigRead]: what it
      makes of a configuration that was written as JSON.
    - [Tracer]: src/pkg/tracer/tracer.go, with the arithmetic of its float64.
    - [Mux]: the path patterns and the multiplexer of the vendored gateway runtime: a small
      stack machine, its checker and the dispatch of a request.  [Gateway]: the handlers,
      patterns and registrations of src/pkg/server/http.pb.gw.go and keyvalue.pb.gw.go over
      it; the gRPC services, marshalers and contexts are parameters.
    - [Database]: src/pkg/database.  The package variables and the objects behind pointers
      are one state, [dbworld]; the redis client is the class [Redigo] with the laws
      [RedigoLaws].  [StoreLaws] is the promise of a backend; memory and redis keep it.
    - [ChainNode], [Chain]: src/pkg/consistent/chain and src/pkg/consistent/level.go.
    - [Runtime]: the goroutines of the chain and of the pipings.  A goroutine is the rest
      of its work, [go_step] runs it to its next access of a store, a schedule is a list of
      the positions run, and [wait] is the wait group: it runs under an arbitrary schedule.
    - [Piping]: src/pkg/piping.  [PipingLaws] is the promise of a piping to the handler;
      the synchronous/asynchronous piping over any [StoreLaws] and the chain over memory
      keep it.
    - [Handler]: src/cmd/http/main.go.
    - [VersionedMap]: the specification of the service: a log of changes for every key, the
      calls on it ([a_step]) and what they answer.
    - [Service]: the handler refines it.  [meaning] reads a request as a call, or as none
      when it is malformed: then the answer is an error and no key changes.
      [Startup]: [main] on the shipped configuration.
    - [Validation]: src/validation/consistency_log.go, run against the handler through the
      query strings and JSON bodies it sends; clock, random numbers and schedules are an
      oracle.
    - [Concurrent]: requests that run at the same time.  A request is a program counter
      ([pc]) that a turn moves over its next access of shared state ([run_pc]): the two
      accesses of the counter, the index under its lock -- the comparison and the put of an
      update apart, under the read lock --, the start of goroutines, the wait for them, the
      reads of stores, one after the other for a read of the history; [execute] runs a list of
      arrivals and turns.  [exclusive] executions are those in which nobody reads the index of
      a key while an update of the key compares and puts.  [ConcurrentInv]: the invariant
      [cinv] of every execution; [Linearizable], [Progress]: its consequences.  [Updates]:
      conditional writes, in exclusive executions and, in smaller steps, when they overlap.
      [Serial]: the handler of [Handler], request after request, is one of these executions.

    ** What the theorems show

    - The service: every sequence of requests is answered as a map from keys to their
      changes answers it, from [main] on and under every interleaving of the goroutines:
      reads of the latest value and of the history, writes, compare-and-set, deletions, and
      requests that are malformed ([Service]).  The validation client
      ends, and its log is a legal history of a register ([Validation]).  With the shipped
      configuration file, the real hash and a network on which one dial of ten may fail the
      same holds from [main] on ([Startup]).
    - Concurrent requests, over redis and in exclusive executions: nothing panics and the
      index is well-formed with every finished write in it; as long as no two writes drew the
      same revision the operations on a key that is not deleted are linearizable, with
      conditional writes as writes, and a read of the history returns all that was
      acknowledged when it arrived and nothing that was not written ([Linearizable]); of the
      updates that assume the same revision one is saved ([Updates]).  In all executions: a
      read returns a value written under the revision it found ([Linearizable]); every
      request is answered after at most six rounds of turns -- a read of the history after
      one and two for each write and deletion -- and two for each conditional write, which
      can keep it from the lock ([Progress]).  Requests one after the other are answered as
      the map from keys to their changes answers them ([Serial]).
    - The index: get, since and RangeSince return exactly what the history of the keys
      says, for histories with out-of-order puts too; nothing panics; writes append one
      event; a conditional update succeeds once ([KeyHistory], [TreeIndex]).
    - Replication: a write is on every synchronous store when it returns and on every
      asynchronous one when the background has settled; deletes likewise; the chain and its
      concurrent variant agree ([Chain], [Piping]).
    - Placement: one store in each of the configured number of zones, nearest first;
      rendezvous hashing moves keys only to a new node; too few stores is an error
      ([Hashing], [HashingManager]).
    - Backends: put/get round trips through any handle, bounded retries ([Database]).
    - Encodings and measurements: revision bytes and their order, averages and their
      bounds, independence of the order of probes ([Revision], [Latency], [Config]); the
      rate of the trace sampler up to rounding ([Tracer]).
    - Configuration: a configuration that was written as JSON is read back as it was, and a
      JSON object is accepted exactly when it has the type of the configuration
      ([ConfigRead]); what is read has fields in their range ([ConfigFile]).
    - The gateway: a pattern that is accepted runs on every path without going out of
      bounds and every request is answered ([Mux]); with the services registered in any
      order the endpoints are found by path and method, and call their method of the client,
      or of the server in process, once with the message of the body; a watch sends its
      messages in order, up to one whose sending fails, and closes its stream once
      ([Gateway]).
    - Where the code does not do what it means to, a theorem or an example exhibits it: the
      revision counter can give one revision to two writes, after which a read returns the
      value of another key, two overlapping updates of one revision both succeed and one of
      them may not even be in the index, an update overlooks a write that drew its revision
      earlier, errors of stores are dropped, a delete may overtake its put, a write with too
      few stores is stored nowhere, a since-query fails after a delete, and others.

    ** Bounds and fuel

    Almost all recursion is structural: Go loops over slices are recursions on lists, the retry
    loop of the redis pool on the retries left, a schedule on its list.  [wait] appends to
    the schedule it is given as many steps per awaited goroutine as it has accesses left
    ([finish], [go_size]), which is enough for it to end ([wait_inv]).  The loop of the
    validation client, which the clock ends, has fuel, and its theorem gives the fuel that
    is enough; unquoting a JSON string and the loops of xxHash have the length of their
    input as fuel, of which every turn takes at least one byte.  An execution of concurrent
    requests is any list of arrivals and turns, of fewer turns than the counter can
    number ([few]).  64-bit values are
    integers with their wrap-around written out ([int64], [uint64]); theorems about the
    service assume the revision counter stays below 2^63, the point where the code's
    conversion of the counter to int64 would go negative.

    ** Not modelled

    Flags, logging, tracing spans and the OpenTelemetry SDK (no effect on results), sockets
    and HTTP framing (a request is its method, path, parsed query and body; a dial is the
    events and times it gives), the generated protobuf and gRPC code behind the gateway
    (its messages are records), the String methods of the key index (debug output), and the
    vendored libraries other than xxHash and the gateway's multiplexer, which are classes
    with their documented laws or parameters.  In the concurrent model requests are
    well-formed, and that a waiting writer keeps new readers from the lock of the index is
    left out; the order of a linearization leaves reads of the history aside, which have a
    theorem of their own.  Memory accesses are sequentially consistent, and data races have
    no further semantics.  That matters in two places.  The put of an update is one step of
    [run_pc], though the code makes it under the lock for reading: that is exact when the
    execution is [exclusive] ([update_alone]), the theorems on concurrent requests that rest
    on it assume so, and [update_lost] is what happens otherwise.  The maps of the stores in
    memory are not protected at all, so that concurrent requests can make Go's runtime abort
    or two stores of one name: the same theorems leave these stores out ([T ≠ Memory]).

    ** Conventions

    A Go function that returns an error or may panic is a function into [outcome]; one that
    also changes state is in the monad [M].  An error is its message.  A nil slice and an
    empty one are the same list.  Names follow the source; a method [T.m] is [T_m]. *)
From Stdlib Require Import Ascii.
From stdpp Require Import base gmap sets list strings pretty sorting.

#[global] Set Default Goal Selector "!".

(** * Outcomes of a Go call

    A Go function that returns [(T, error)] and may panic is modelled by a
    function into [outcome T].  An [error] is its message, the only thing the
    program ever observes of one (through [Error()] and the [%v] verb). *)

Declare Scope rkv_scope.
Delimit Scope rkv_scope with rkv.

Abbreviation error := string (only parsing).

Inductive outcome (A : Type) : Type :=
  | Ret (a : A)
  | Fail (e : error)
  | Panic (why : string).
Arguments Ret {A} a.
Arguments Fail {A} e.
Arguments Panic {A} why.

#[global] Instance outcome_eq_dec {A} `{EqDecision A} : EqDecision (outcome A).
Proof. solve_decision. Defined.

Definition obind {A B} (m : outcome A) (k : A → outcome B) : outcome B :=
  match m with
  | Ret a => k a
  | Fail e => Fail e
  | Panic w => Panic w
  end.

Notation "'let!' x := m 'in' k" := (obind m (λ x, k))
  (at level 10, x pattern, k at level 200) : rkv_scope.

(** No run-time panic: the call returned a value or an error. *)
Definition no_panic {A} (m : outcome A) : Prop :=
  match m with Panic _ => False | _ => True end.

(** ** Stateful calls: a state, then the outcome and the new state.  The state
    reached before an error or a panic is kept, as in Go. *)

Definition M (S A : Type) : Type := S → outcome A * S.

Definition gret {S A} (a : A) : M S A := λ s, (Ret a, s).
Definition gfail {S A} (e : error) : M S A := λ s, (Fail e, s).
Definition gpanic {S A} (w : string) : M S A := λ s, (Panic w, s).
Definition glift {S A} (o : outcome A) : M S A := λ s, (o, s).
Definition gbind {S A B} (m : M S A) (k : A → M S B) : M S B := λ s,
  match m s with
  | (Ret a, s') => k a s'
  | (Fail e, s') => (Fail e, s')
  | (Panic w, s') => (Panic w, s')
  end.

Notation "'do!' x <- m ; k" := (gbind m (λ x, k))
  (at level 10, x pattern, m at level 100, k at level 200) : rkv_scope.

(** [try m] hands the error of [m] to the caller as a value, the Go idiom
    [v, err := m(...)]; a panic still unwinds. *)
Definition try {S A} (m : M S A) : M S (A + error) := λ s,
  match m s with
  | (Ret a, s') => (Ret (inl a), s')
  | (Fail e, s') => (Ret (inr e), s')
  | (Panic w, s') => (Panic w, s')
  end.

Open Scope rkv_scope.

(** * Machine integers *)

Definition uint64 (z : Z) : Z := z `mod` 2^64.
Definition int64 (z : Z) : Z := (z + 2^63) `mod` 2^64 - 2^63.

Definition is_uint64 (z : Z) : Prop := (0 ≤ z < 2^64)%Z.
Definition is_int64 (z : Z) : Prop := (- 2^63 ≤ z < 2^63)%Z.

#[global] Instance is_uint64_dec z : Decision (is_uint64 z).
Proof. unfold is_uint64. apply _. Defined.
#[global] Instance is_int64_dec z : Decision (is_int64 z).
Proof. unfold is_int64. apply _. Defined.

(** [lia] with the powers of two that bound the machine integers evaluated. *)
Ltac word_lia :=
  unfold is_uint64, is_int64, uint64, int64 in *;
  change (2^64)%Z with 18446744073709551616%Z in *;
  change (2^63)%Z with 9223372036854775808%Z in *;
  change (2^32)%Z with 4294967296%Z in *;
  Z.div_mod_to_equations; lia.

Lemma uint64_range z : is_uint64 (uint64 z).
Proof. word_lia. Qed.
Lemma int64_range z : is_int64 (int64 z).
Proof. word_lia. Qed.
Lemma uint64_id z : is_uint64 z → uint64 z = z.
Proof. intros. word_lia. Qed.
Lemma int64_id z : is_int64 z → int64 z = z.
Proof. intros. word_lia. Qed.
Lemma int64_uint64 z : is_int64 z → int64 (uint64 z) = z.
Proof. intros. word_lia. Qed.
Lemma uint64_int64 z : is_uint64 z → uint64 (int64 z) = z.
Proof. intros. word_lia. Qed.

Create HintDb rkv.
Create Rewrite HintDb rkv.
#[export] Hint Resolve uint64_range int64_range : rkv.
#[export] Hint Rewrite uint64_id int64_id int64_uint64 uint64_int64
  using (solve [eauto with rkv | word_lia]) : rkv.

(** * Byte strings

    A Go [string] or [[]byte] is a sequence of bytes, here a [string] of
    [ascii].  [bytes_Less] is [bytes.Compare(a, b) == -1]: lexicographic on the
    unsigned value of the bytes. *)

Fixpoint bytes_Less (a b : string) : bool :=
  match a, b with
  | _, EmptyString => false
  | EmptyString, String _ _ => true
  | String x a', String y b' =>
      if (N_of_ascii x <? N_of_ascii y)%N then true
      else if (N_of_ascii y <? N_of_ascii x)%N then false
      else bytes_Less a' b'
  end.

Definition str_lt (a b : string) : Prop := bytes_Less a b = true.

#[global] Instance str_lt_dec : RelDecision str_lt.
Proof. intros a b. unfold str_lt. apply _. Defined.

Lemma N_of_ascii_inj x y : N_of_ascii x = N_of_ascii y → x = y.
Proof. intros H. by rewrite <- (ascii_N_embedding x), H, ascii_N_embedding. Qed.

Lemma bytes_Less_irrefl a : bytes_Less a a = false.
Proof. induction a as [|x a IH]; [done|]. simpl. by rewrite N.ltb_irrefl. Qed.

Lemma bytes_Less_trans a b c :
  bytes_Less a b = true → bytes_Less b c = true → bytes_Less a c = true.
Proof.
  revert b c. induction a as [|x a IH]; intros [|y b] [|z c]; simpl; try done.
  destruct (N.ltb_spec (N_of_ascii x) (N_of_ascii y));
  destruct (N.ltb_spec (N_of_ascii y) (N_of_ascii x));
  destruct (N.ltb_spec (N_of_ascii y) (N_of_ascii z));
  destruct (N.ltb_spec (N_of_ascii z) (N_of_ascii y));
  destruct (N.ltb_spec (N_of_ascii x) (N_of_ascii z));
  destruct (N.ltb_spec (N_of_ascii z) (N_of_ascii x)); try done; try lia.
  apply IH.
Qed.

Lemma bytes_Less_total a b :
  bytes_Less a b = false → bytes_Less b a = false → a = b.
Proof.
  revert b. induction a as [|x a IH]; intros [|y b]; simpl; try done.
  destruct (N.ltb_spec (N_of_ascii x) (N_of_ascii y)); [done|].
  destruct (N.ltb_spec (N_of_ascii y) (N_of_ascii x)); [done|].
  intros. f_equal; [apply N_of_ascii_inj; lia | auto].
Qed.

#[global] Instance str_lt_strict : StrictOrder str_lt.
Proof.
  split.
  - intros a. unfold complement, str_lt. by rewrite bytes_Less_irrefl.
  - intros a b c. apply bytes_Less_trans.
Qed.

#[global] Instance str_lt_trichotomy : Trichotomy str_lt.
Proof.
  intros a b. unfold str_lt.
  destruct (bytes_Less a b) eqn:Hab; [by left|].
  destruct (bytes_Less b a) eqn:Hba; [by right; right|].
  right; left. by apply bytes_Less_total.
Qed.

(** * Sorting

    [sort.Sort] and [sort.Slice] are not stable, and the algorithm behind them
    changes with the Go release: what the program may rely on is that the
    result is a permutation of the input and in order.  Every definition that
    sorts takes the sorter as an argument of this class, and every theorem
    holds for all sorters. *)

Record strict_weak {A} (less : A → A → bool) : Prop := {
  sw_irrefl x : less x x = false;
  sw_trans x y z : less x y = true → less y z = true → less x z = true;
  sw_incomp x y z : less x y = false → less y z = false → less x z = false;
}.

Definition not_after {A} (less : A → A → bool) (x y : A) : Prop := less y x = false.

Class GoSort := {
  sort_slice {A : Type} : (A → A → bool) → list A → list A;
  sort_slice_perm {A} (less : A → A → bool) l : sort_slice less l ≡ₚ l;
  sort_slice_sorted {A} (less : A → A → bool) l :
    strict_weak less →
    StronglySorted (not_after less) (sort_slice less l);
}.

(** A sorter to run the definitions with: merge sort. *)
#[global] Instance not_after_dec {A} (less : A → A → bool) :
  RelDecision (not_after less).
Proof. intros x y. unfold not_after. apply _. Defined.

Definition merge_by {A} (less : A → A → bool) : list A → list A :=
  merge_sort (not_after less).

Lemma merge_by_sorted {A} (less : A → A → bool) l :
  strict_weak less → StronglySorted (not_after less) (merge_by less l).
Proof.
  intros [Hi Ht Hn]. unfold merge_by. apply StronglySorted_merge_sort.
  - intros x y z Hxy Hyz. by apply (Hn z y x).
  - intros x y. destruct (less y x) eqn:H1; [|by left].
    right. destruct (less x y) eqn:H2; [|done].
    specialize (Ht _ _ _ H1 H2). by rewrite Hi in Ht.
Qed.

#[global] Instance merge_GoSort : GoSort := {|
  sort_slice _ less := merge_by less;
  sort_slice_perm _ less l := merge_sort_Permutation _ l;
  sort_slice_sorted _ less l := merge_by_sorted less l;
|}.

Lemma strict_weak_key {A} (f : A → Z) : strict_weak (λ x y, (f x <? f y)%Z).
Proof. split; intros; rewrite ?Z.ltb_ge, ?Z.ltb_lt in *; lia. Qed.
#[export] Hint Resolve strict_weak_key : rkv.

(** When incomparable elements are equal the result of sorting is unique: any
    sorted permutation is what every sorter returns. *)
Lemma sort_slice_unique `{!GoSort} {A} (less : A → A → bool) l l' :
  strict_weak less →
  (∀ x y, less x y = false → less y x = false → x = y) →
  l ≡ₚ l' → StronglySorted (not_after less) l' →
  sort_slice less l = l'.
Proof.
  intros Hw Htot Hp Hs.
  apply (StronglySorted_unique_strong (not_after less)); [|..|done|].
  - intros x1 x2 _ _ ??. by apply Htot.
  - by apply sort_slice_sorted.
  - by rewrite sort_slice_perm.
Qed.

Lemma sort_slice_sorted_id `{!GoSort} {A} (less : A → A → bool) l :
  strict_weak less →
  (∀ x y, less x y = false → less y x = false → x = y) →
  StronglySorted (not_after less) l →
  sort_slice less l = l.
Proof. intros. by apply sort_slice_unique. Qed.

(** * Lists *)

Lemma filter_none {A} (P : A → Prop) `{∀ x, Decision (P x)} l :
  (∀ i x, l !! i = Some x → ¬ P x) → filter P l = [].
Proof.
  induction l as [|x l IH]; intros HF; [done|].
  rewrite filter_cons_False by (by apply (HF 0%nat)).
  apply IH. intros i y. apply (HF (S i)).
Qed.

Lemma filter_all {A} (P : A → Prop) `{∀ x, Decision (P x)} l :
  Forall P l → filter P l = l.
Proof.
  induction 1 as [|x l Hx HF IH]; [done|]. by rewrite filter_cons_True, IH.
Qed.

Lemma StronglySorted_head {A} (R : A → A → Prop) x l y :
  StronglySorted R (x :: l) → y ∈ l → R x y.
Proof. intros [_ HF]%StronglySorted_inv. rewrite Forall_forall in HF. auto. Qed.

Lemma filter_fmap {A B} (f : A → B) (P : B → Prop) `{!∀ y, Decision (P y)} (l : list A) :
  filter P (f <$> l) = f <$> filter (λ x, P (f x)) l.
Proof. induction l as [|x l IH]; [done|]. rewrite fmap_cons, !filter_cons, IH. by case_decide. Qed.

Lemma Forall2_filter {A B} (R : A → B → Prop) (P : A → Prop) (Q : B → Prop)
    `{!∀ x, Decision (P x)} `{!∀ y, Decision (Q y)} (l : list A) (k : list B) :
  (∀ x y, R x y → P x ↔ Q y) → Forall2 R l k →
  Forall2 (λ x y, R x y ∧ Q y) (filter P l) (filter Q k).
Proof.
  intros HPQ HF. induction HF as [|x y l k Hxy _ IH]; [constructor|].
  specialize (HPQ x y Hxy). rewrite !filter_cons. repeat case_decide; tauto || by constructor.
Qed.

Lemma StronglySorted_lookup_lt {A} (R : A → A → Prop) l i j x y :
  StronglySorted R l → (i < j)%nat → l !! i = Some x → l !! j = Some y → R x y.
Proof.
  intros Hs. revert i j. induction Hs as [|z l _ IH HF]; intros i j Hij Hi Hj; [done|].
  destruct j as [|j]; [lia|]. destruct i as [|i]; simplify_eq/=.
  - rewrite Forall_forall in HF. by eapply HF, list_elem_of_lookup_2.
  - apply (IH i j); [lia|done..].
Qed.

Lemma StronglySorted_NoDup {A} (R : A → A → Prop) `{!Irreflexive R} l : StronglySorted R l → NoDup l.
Proof.
  induction 1 as [|x l Hl IH HF]; constructor; [|done].
  intros Hx. rewrite Forall_forall in HF. by apply (irreflexivity R x), HF.
Qed.

Lemma StronglySorted_impl {A} (R R' : A → A → Prop) l :
  (∀ x y, R x y → R' x y) → StronglySorted R l → StronglySorted R' l.
Proof.
  intros HR. induction 1 as [|x l _ IH HF]; constructor; [done|].
  eapply Forall_impl; [done|auto].
Qed.

Lemma StronglySorted_snoc {A} (R : A → A → Prop) l x :
  StronglySorted R l → Forall (λ y, R y x) l → StronglySorted R (l ++ [x]).
Proof.
  induction 1 as [|y l Hs IH HF]; simpl; intros HG; [by repeat constructor|].
  inv HG. constructor; [auto|]. apply Forall_app. auto.
Qed.

(** Inserting an element where everything before is below it and everything
    after is not keeps a list in order. *)
Lemma StronglySorted_insert {A} (R : A → A → Prop) l1 l2 x :
  StronglySorted R (l1 ++ l2) → Forall (λ y, R y x) l1 → Forall (R x) l2 →
  StronglySorted R (l1 ++ x :: l2).
Proof.
  induction l1 as [|y l1 IH]; simpl; intros Hs H1 H2; [by constructor|].
  apply StronglySorted_inv in Hs as [Hs HF]. inv H1.
  apply Forall_app in HF as [??]. constructor; [auto|].
  apply Forall_app. auto.
Qed.

Lemma Forall_last {A} (P : A → Prop) l x : Forall P l → last l = Some x → P x.
Proof. intros HF Hl. eapply Forall_forall; [done|]. by apply last_Some_elem_of. Qed.

Lemma StronglySorted_filter {A} (R : A → A → Prop) (P : A → Prop) `{∀ x, Decision (P x)} l :
  StronglySorted R l → StronglySorted R (filter P l).
Proof.
  induction 1 as [|x l Hs IH HF]; [constructor|]. rewrite filter_cons.
  case_decide; [|done]. constructor; [done|].
  rewrite Forall_forall in *. intros y [_ Hy]%list_elem_of_filter. auto.
Qed.

Lemma pair_snd {A B} (x : A * B) a : x.1 = a → x = (a, x.2).
Proof. destruct x. by intros <-. Qed.
