(* ===== verification/GoStd.v ===== *)
(** The parts of the Go standard library the program calls on strings, numbers
    and byte buffers: [strings.Split]/[Join], [strconv.ParseInt]/[Atoi], the
    [fmt] verbs [%d], [%s] and [%v] on the types the program prints, and
    [encoding/binary]'s fixed-width big- and little-endian encodings. *)
From Stdlib Require Import Ascii.
From stdpp Require Import base gmap sets list strings pretty sorting.
From S2P Require Import Prelude.

Open Scope Z_scope.

(** * strings *)

(** [strings.Split(s, sep)] for a one-byte separator. *)
Fixpoint Split (sep : ascii) (s : string) : list string :=
  match s with
  | EmptyString => [""%string]
  | String x s' =>
      if decide (x = sep) then ""%string :: Split sep s'
      else match Split sep s' with
           | h :: t => String x h :: t
           | [] => [String x ""]
           end
  end.

(** [strings.Join(l, sep)]. *)
Fixpoint Join (sep : string) (l : list string) : string :=
  match l with
  | [] => ""
  | [x] => x
  | x :: l' => x +:+ sep +:+ Join sep l'
  end.

Fixpoint str_elem (c : ascii) (s : string) : bool :=
  match s with
  | EmptyString => false
  | String x s' => bool_decide (x = c) || str_elem c s'
  end.

Lemma Split_not_nil sep s : Split sep s ≠ [].
Proof. destruct s as [|x s]; simpl; [done|]. case_decide; [done|]. by destruct (Split sep s). Qed.

Lemma Split_no_sep sep s : str_elem sep s = false → Split sep s = [s].
Proof.
  induction s as [|x s IH]; simpl; [done|].
  intros [Hx Hs]%orb_false_iff. apply bool_decide_eq_false in Hx.
  rewrite decide_False by done. by rewrite IH.
Qed.

Lemma Split_app_sep sep x s :
  str_elem sep x = false → Split sep (x +:+ String sep s) = x :: Split sep s.
Proof.
  induction x as [|c x IH]; simpl; [by rewrite decide_True|].
  intros [Hc Hx]%orb_false_iff. apply bool_decide_eq_false in Hc.
  rewrite decide_False by done. by rewrite IH.
Qed.

(** Joining a non-empty list of separator-free names and splitting it again
    gives the list back. *)
Lemma Split_Join sep l :
  l ≠ [] → Forall (λ x, str_elem sep x = false) l →
  Split sep (Join (String sep "") l) = l.
Proof.
  intros Hl HF. induction HF as [|x l Hx HF IH]; [done|].
  destruct l as [|y l]; [by apply Split_no_sep|].
  change (Join (String sep "") (x :: y :: l))
    with (x +:+ (String sep (Join (String sep "") (y :: l)))).
  rewrite Split_app_sep by done. by rewrite IH.
Qed.

(** No names at all join to the empty string, which splits to one empty name. *)
Lemma Split_Join_nil sep : Split sep (Join (String sep "") []) = [""%string].
Proof. done. Qed.

(** ** Concatenation *)

Lemma substring_0_app s t : String.substring 0 (String.length s) (s +:+ t) = s.
Proof. induction s as [|c s IH]; simpl; [by destruct t|by rewrite IH]. Qed.

Lemma substring_app_r s t n m :
  n = String.length s → String.substring n m (s +:+ t) = String.substring 0 m t.
Proof. intros ->. by induction s. Qed.

Lemma length_app_string s t :
  String.length (s +:+ t) = (String.length s + String.length t)%nat.
Proof. induction s; simpl; auto. Qed.

Lemma string_app_assoc (s t u : string) : s +:+ (t +:+ u) = (s +:+ t) +:+ u.
Proof.
  induction s as [|c s IH]; [done|].
  change (String c s +:+ ?x) with (String c (s +:+ x)). by rewrite IH.
Qed.

Lemma string_app_nil_r (s : string) : s +:+ "" = s.
Proof.
  induction s as [|c s IH]; [done|]. change (String c s +:+ "") with (String c (s +:+ "")).
  by rewrite IH.
Qed.

(** ** Separators of several bytes *)

(** [strings.Split(s, sep)] for a separator of any positive length; [skip] bytes of a
    separator just found are left to pass. *)
Fixpoint SplitOn_go (sep : string) (skip : nat) (s : string) : list string :=
  match s with
  | EmptyString => [""%string]
  | String c s' =>
      match skip with
      | S k => SplitOn_go sep k s'
      | O =>
          if String.prefix sep s then ""%string :: SplitOn_go sep (String.length sep - 1) s'
          else match SplitOn_go sep 0 s' with
               | h :: t => String c h :: t
               | [] => [String c ""]
               end
      end
  end.
Definition SplitOn (sep s : string) : list string := SplitOn_go sep 0 s.

Definition prepend (x : string) (l : list string) : list string :=
  match l with h :: t => (x +:+ h) :: t | [] => [x] end.

Lemma SplitOn_go_skip sep x s : SplitOn_go sep (String.length x) (x +:+ s) = SplitOn sep s.
Proof. by induction x. Qed.

Lemma SplitOn_go_not_nil sep k s : SplitOn_go sep k s ≠ [].
Proof.
  revert k. induction s as [|c s IH]; intros [|k]; simpl; [done..| |apply IH].
  case_match; [done|]. by destruct (SplitOn_go sep 0 s).
Qed.

Lemma prepend_nil sep s : prepend "" (SplitOn sep s) = SplitOn sep s.
Proof.
  pose proof (SplitOn_go_not_nil sep 0 s). unfold SplitOn in *. by destruct (SplitOn_go sep 0 s).
Qed.

Lemma SplitOn_cons sep c s :
  String.prefix sep (String c s) = false →
  SplitOn sep (String c s) = prepend (String c "") (SplitOn sep s).
Proof. intros H. unfold SplitOn. cbn [SplitOn_go]. by rewrite H. Qed.

Lemma prepend_app c x l : prepend (String c "") (prepend x l) = prepend (String c x) l.
Proof. by destruct l. Qed.

(** No separator begins in [x]. *)
Lemma SplitOn_no_head a sep x s :
  str_elem a x = false →
  SplitOn (String a sep) (x +:+ s) = prepend x (SplitOn (String a sep) s).
Proof.
  induction x as [|c x IH]; simpl.
  { intros _. by rewrite prepend_nil. }
  intros [Hc Hx]%orb_false_iff. apply bool_decide_eq_false in Hc.
  change (String c x +:+ s) with (String c (x +:+ s)). rewrite SplitOn_cons.
  - by rewrite IH, prepend_app.
  - simpl. destruct (ascii_dec a c); [congruence|done].
Qed.

(** The separator itself. *)
Lemma SplitOn_sep a sep s : SplitOn (String a sep) (String a sep +:+ s) = ""%string :: SplitOn (String a sep) s.
Proof.
  assert (∀ t, String.prefix t (t +:+ s) = true) as Hp.
  { induction t as [|c t IH]; [by destruct s|].
    change (String c t +:+ s) with (String c (t +:+ s)). simpl. by destruct (ascii_dec c c). }
  unfold SplitOn at 1. change (String a sep +:+ s) with (String a (sep +:+ s)). cbn [SplitOn_go].
  change (String a (sep +:+ s)) with (String a sep +:+ s). rewrite Hp.
  cbn [String.length]. rewrite Nat.sub_1_r. cbn [pred]. by rewrite SplitOn_go_skip.
Qed.

(** A separator that begins in [x] would have to lie within it when a byte follows that
    is not in the separator. *)
Lemma prefix_within sep x d s e :
  String.prefix sep (x +:+ String d s) = true → str_elem d sep = false →
  str_elem e sep = true → str_elem e x = true.
Proof.
  revert x. induction sep as [|a sep IH]; intros x; simpl; [done|].
  intros Hp [Hd Hds]%orb_false_iff He. apply bool_decide_eq_false in Hd.
  destruct x as [|c x].
  { simpl in Hp. destruct (ascii_dec a d) as [E|]; [by rewrite E in Hd|done]. }
  simpl in Hp. destruct (ascii_dec a c) as [->|]; [|done]. simpl.
  apply orb_true_iff in He as [He|He]; [by rewrite He|].
  rewrite (IH x Hp Hds He). apply orb_true_r.
Qed.

Lemma SplitOn_no_elem sep x d s e :
  str_elem e sep = true → str_elem e x = false → str_elem d sep = false →
  SplitOn sep (x +:+ String d s) = prepend x (SplitOn sep (String d s)).
Proof.
  intros He Hx Hd. induction x as [|c x IH].
  { by rewrite prepend_nil. }
  simpl in Hx. apply orb_false_iff in Hx as [Hc Hx].
  change (String c x +:+ ?t) with (String c (x +:+ t)). rewrite SplitOn_cons.
  - by rewrite IH, prepend_app.
  - apply not_true_is_false. intros Hp.
    apply (prefix_within sep (String c x) d s e) in Hp; [|done..].
    simpl in Hp. by rewrite Hc, Hx in Hp.
Qed.

(** * Hexadecimal digits, quoting *)

Definition hex_digit (n : N) : ascii :=
  ascii_of_N (if (n <? 10)%N then 48 + n else 87 + n)%N.

Definition quote_char (c : ascii) : string :=
  let n := N_of_ascii c in
  let esc (x : N) := String (ascii_of_N 92) (String (ascii_of_N x) "") in
  if (n =? 34)%N then esc 34%N else if (n =? 92)%N then esc 92%N
  else if (n =? 7)%N then esc 97%N else if (n =? 8)%N then esc 98%N
  else if (n =? 12)%N then esc 102%N else if (n =? 10)%N then esc 110%N
  else if (n =? 13)%N then esc 114%N else if (n =? 9)%N then esc 116%N
  else if (n =? 11)%N then esc 118%N
  else if ((n <? 32) || (126 <? n))%N
  then esc 120%N +:+ String (hex_digit (n / 16)) (String (hex_digit (n mod 16)) "")
  else String c "".

Fixpoint quote_body (s : string) : string :=
  match s with
  | EmptyString => ""
  | String c s' => quote_char c +:+ quote_body s'
  end.

(** [strconv.Quote] on ASCII text (a byte above 126 is shown escaped; Go shows a
    printable multi-byte rune as it is). *)
Definition Quote (s : string) : string :=
  let q := String (ascii_of_N 34) "" in q +:+ quote_body s +:+ q.

(** * strconv *)

Inductive num_err := ErrSyntax | ErrRange.

Definition digit_of (c : ascii) : option Z :=
  let n := Z.of_N (N_of_ascii c) in
  if (48 <=? n) && (n <=? 57) then Some (n - 48) else None.

(** The loop of [strconv.ParseUint] for base 10 and 64 bits: a bad byte is a
    syntax error, an accumulator that leaves [uint64] a range error, whichever
    comes first. *)
Fixpoint ParseUint_loop (s : string) (n : Z) : Z + num_err :=
  match s with
  | EmptyString => inl n
  | String c s' =>
      match digit_of c with
      | None => inr ErrSyntax
      | Some d =>
          let n1 := n * 10 + d in
          if 2^64 <=? n1 then inr ErrRange else ParseUint_loop s' n1
      end
  end.

Definition ParseUint (s : string) : Z + num_err :=
  match s with EmptyString => inr ErrSyntax | _ => ParseUint_loop s 0 end.

(** [strconv.ParseInt(s, 10, 64)]. *)
Definition ParseInt_core (s : string) : Z + num_err :=
  let '(neg, digits) :=
    match s with
    | String c s' =>
        if decide (c = "+"%char) then (false, s')
        else if decide (c = "-"%char) then (true, s') else (false, s)
    | EmptyString => (false, s)
    end in
  match ParseUint digits with
  | inr e => inr e
  | inl un =>
      if (negb neg && (2^63 <=? un)) || (neg && (2^63 <? un)) then inr ErrRange
      else inl (if neg then - un else un)
  end.

Definition num_error_message (fn num : string) (e : num_err) : string :=
  "strconv." +:+ fn +:+ ": parsing " +:+ Quote num +:+
  match e with
  | ErrSyntax => ": invalid syntax"
  | ErrRange => ": value out of range"
  end.

Definition ParseInt (s : string) : outcome Z :=
  match ParseInt_core s with
  | inl z => Ret z
  | inr e => Fail (num_error_message "ParseInt" s e)
  end.

(** [strconv.Atoi]: an [int] has 64 bits. *)
Definition Atoi (s : string) : outcome Z :=
  match ParseInt_core s with
  | inl z => Ret z
  | inr e => Fail (num_error_message "Atoi" s e)
  end.

Lemma digit_of_pretty_char n : (n < 10)%N → digit_of (pretty_N_char n) = Some (Z.of_N n).
Proof.
  intros H.
  assert (n = 0 ∨ n = 1 ∨ n = 2 ∨ n = 3 ∨ n = 4 ∨ n = 5 ∨ n = 6 ∨ n = 7 ∨ n = 8 ∨ n = 9)%N
    as Hn by lia.
  by repeat destruct Hn as [->|Hn]; [..|subst].
Qed.

Lemma ParseUint_loop_pretty x s :
  Z.of_N x < 2^64 →
  ParseUint_loop (pretty_N_go x s) 0 = ParseUint_loop s (Z.of_N x).
Proof.
  revert s. induction (N.lt_wf_0 x) as [x _ IH]; intros s Hx.
  destruct (decide (x = 0)%N) as [->|]; [by rewrite pretty_N_go_0|].
  rewrite pretty_N_go_step by lia. rewrite IH.
  2:{ apply N.div_lt; lia. }
  2:{ rewrite N2Z.inj_div. apply (Z.le_lt_trans _ (Z.of_N x)); [|done].
      apply Z.div_le_upper_bound; lia. }
  simpl. rewrite digit_of_pretty_char by (by apply N.mod_lt).
  replace (Z.of_N (x `div` 10) * 10 + Z.of_N (x `mod` 10)) with (Z.of_N x)
    by (pose proof (N.div_mod x 10); lia).
  by rewrite (proj2 (Z.leb_gt _ _)).
Qed.

Lemma ParseUint_pretty x : Z.of_N x < 2^64 → ParseUint (pretty x) = inl (Z.of_N x).
Proof.
  intros Hx. unfold pretty, pretty_N. case_decide as H0; [by subst|].
  unfold ParseUint.
  pose proof (ParseUint_loop_pretty x "" Hx) as Hl.
  destruct (pretty_N_go x "") eqn:E; [|done].
  simpl in Hl. injection Hl as Hl. destruct x; [done|]. lia.
Qed.

Lemma pretty_N_go_head x s :
  (0 < x)%N → ∃ c s', pretty_N_go x s = String c s' ∧ is_Some (digit_of c).
Proof.
  revert s. induction (N.lt_wf_0 x) as [x _ IH]; intros s Hx.
  rewrite pretty_N_go_step by lia.
  destruct (decide (x `div` 10 = 0)%N) as [E|].
  - rewrite E, pretty_N_go_0. do 2 eexists. split; [done|].
    rewrite digit_of_pretty_char by (by apply N.mod_lt). eauto.
  - apply IH; [apply N.div_lt; lia|by apply N.neq_0_lt_0].
Qed.

Lemma pretty_N_go_elem c x s :
  str_elem c (pretty_N_go x s) = true → is_Some (digit_of c) ∨ str_elem c s = true.
Proof.
  revert s. induction (N.lt_wf_0 x) as [x _ IH]; intros s.
  destruct (decide (x = 0)%N) as [->|]; [rewrite pretty_N_go_0; by right|].
  rewrite pretty_N_go_step by lia.
  intros [H|H]%IH; [by left| |apply N.div_lt; lia]. simpl in H.
  apply orb_true_iff in H as [H%bool_decide_eq_true|H]; [left|by right]. subst c.
  rewrite digit_of_pretty_char by (by apply N.mod_lt). eauto.
Qed.

(** What [%d] prints is made of digits and a sign. *)
Lemma pretty_Z_elem c (z : Z) :
  digit_of c = None → c ≠ ascii_of_N 45 → str_elem c (pretty z) = false.
Proof.
  intros Hc Hm.
  assert (∀ x : N, str_elem c (pretty x) = false) as HN.
  { intros x. apply not_true_is_false. unfold pretty, pretty_N. case_decide.
    - simpl. rewrite bool_decide_false; [done|]. by intros <-.
    - intros [[? Hd]|Hd]%pretty_N_go_elem; [congruence|done]. }
  destruct z as [|p|p]; [apply (HN 0%N)|apply (HN (Npos p))|].
  change (pretty (Zneg p)) with (String (ascii_of_N 45) (pretty (Npos p))). cbn [str_elem].
  rewrite HN, bool_decide_false; [done|]. congruence.
Qed.

(** Parsing what [%d] printed gives the number back. *)
Lemma ParseInt_core_pretty z : is_int64 z → ParseInt_core (pretty z) = inl z.
Proof.
  intros Hz. destruct z as [|p|p].
  - done.
  - change (pretty (Z.pos p)) with (pretty (N.pos p)).
    pose proof (ParseUint_pretty (N.pos p) ltac:(word_lia)) as HP.
    unfold pretty, pretty_N in HP |- *. case_decide; [done|].
    destruct (pretty_N_go_head (N.pos p) "" ltac:(lia)) as (c & s' & E & d & Hd).
    rewrite E in HP |- *. unfold ParseInt_core.
    rewrite !decide_False by (by intros ->). rewrite HP. simpl.
    rewrite (proj2 (Z.leb_gt _ _)) by word_lia. done.
  - change (pretty (Z.neg p)) with ("-" +:+ pretty (N.pos p)).
    pose proof (ParseUint_pretty (N.pos p) ltac:(word_lia)) as HP.
    change (ParseInt_core ("-" +:+ pretty (N.pos p))) with
      (match ParseUint (pretty (N.pos p)) with
       | inr e => inr e
       | inl un => if 2^63 <? un then inr ErrRange else inl (- un)
       end). rewrite HP. rewrite (proj2 (Z.ltb_ge _ _)) by word_lia. done.
Qed.

Lemma ParseInt_pretty z : is_int64 z → ParseInt (pretty z) = Ret z.
Proof. intros. unfold ParseInt. by rewrite ParseInt_core_pretty. Qed.
Lemma Atoi_pretty z : is_int64 z → Atoi (pretty z) = Ret z.
Proof. intros. unfold Atoi. by rewrite ParseInt_core_pretty. Qed.
#[export] Hint Rewrite ParseInt_pretty Atoi_pretty using (solve [word_lia]) : rkv.

Lemma ParseUint_loop_bound s n m : 0 ≤ n < 2^64 → ParseUint_loop s n = inl m → 0 ≤ m < 2^64.
Proof.
  revert n. induction s as [|c s IH]; simpl; intros n Hn; [by intros [= ->]|].
  destruct (digit_of c) as [d|] eqn:Hd; [|done].
  destruct (Z.leb_spec (2^64) (n * 10 + d)); [done|].
  apply IH. unfold digit_of in Hd. case_match eqn:E; [|done]. simplify_eq. lia.
Qed.

(** A successful parse is always a valid [int64]. *)
Lemma ParseInt_core_range s z : ParseInt_core s = inl z → is_int64 z.
Proof.
  unfold ParseInt_core. case_match eqn:E1. destruct (ParseUint _) as [un|] eqn:HU; [|done].
  assert (0 ≤ un).
  { unfold ParseUint in HU. case_match; [done|]. apply ParseUint_loop_bound in HU; lia. }
  destruct (_ || _) eqn:E2; [done|]. intros [= <-].
  apply orb_false_iff in E2 as [E3 E4].
  destruct b; simpl in *; rewrite ?Z.leb_gt, ?Z.ltb_ge in *; word_lia.
Qed.

(** * fmt on the printed types *)

(** [%v]/[%s] of a [[]string]. *)
Definition fmt_strings (l : list string) : string := "[" +:+ Join " " l +:+ "]".

(** [fmt.Sprint] of a map: keys in increasing byte order. *)
Definition fmt_map `{!GoSort} {V} (show : V → string) (m : gmap string V) : string :=
  let kvs := sort_slice (λ x y, bytes_Less x.1 y.1) (map_to_list m) in
  "map[" +:+ Join " " ((λ kv, kv.1 +:+ ":" +:+ show kv.2) <$> kvs) +:+ "]".

Definition newline : string := String (ascii_of_N 10) "".

(** * encoding/binary *)

Definition byte_of (z : Z) : ascii := ascii_of_N (Z.to_N (z `mod` 256)).
Definition byte_val (c : ascii) : Z := Z.of_N (N_of_ascii c).

(** [binary.LittleEndian.PutUint64] and [binary.BigEndian.PutUint64] as the
    bytes they store, for [n] bytes. *)
Fixpoint le_put (n : nat) (v : Z) : string :=
  match n with
  | O => ""
  | S n' => String (byte_of v) (le_put n' (Z.shiftr v 8))
  end.

Fixpoint be_put (n : nat) (v : Z) : string :=
  match n with
  | O => ""
  | S n' => String (byte_of (Z.shiftr v (8 * Z.of_nat n'))) (be_put n' v)
  end.

(** The corresponding reads. *)
Fixpoint le_get (s : string) : Z :=
  match s with
  | EmptyString => 0
  | String c s' => Z.lor (byte_val c) (Z.shiftl (le_get s') 8)
  end.

Fixpoint be_get_acc (acc : Z) (s : string) : Z :=
  match s with
  | EmptyString => acc
  | String c s' => be_get_acc (Z.lor (Z.shiftl acc 8) (byte_val c)) s'
  end.
Definition be_get (s : string) : Z := be_get_acc 0 s.

Lemma byte_val_range c : 0 ≤ byte_val c < 256.
Proof. unfold byte_val. pose proof (N_ascii_bounded c). lia. Qed.

Lemma byte_val_of z : byte_val (byte_of z) = z `mod` 256.
Proof.
  unfold byte_val, byte_of. pose proof (Z.mod_pos_bound z 256 eq_refl).
  rewrite N_ascii_embedding by lia. lia.
Qed.

Lemma byte_of_val c : byte_of (byte_val c) = c.
Proof.
  unfold byte_of. rewrite Z.mod_small by apply byte_val_range.
  unfold byte_val. by rewrite N2Z.id, ascii_N_embedding.
Qed.
#[export] Hint Rewrite byte_val_of byte_of_val : rkv.

(** A shifted accumulator and a byte do not overlap: [lor] is addition. *)
Lemma lor_shift_byte a b : 0 ≤ b < 256 → Z.lor (Z.shiftl a 8) b = a * 256 + b.
Proof.
  intros Hb. rewrite Z.shiftl_mul_pow2 by lia. change (2^8) with 256.
  assert (Z.land (a * 256) b = 0) as Hland.
  { apply Z.bits_inj'. intros i Hi. rewrite Z.land_spec, Z.bits_0. change 256 with (2^8).
    destruct (decide (i < 8)); [by rewrite (Z.mul_pow2_bits_low _ 8)|].
    apply andb_false_iff; right.
    destruct (decide (b = 0)) as [->|]; [by rewrite Z.bits_0|].
    apply Z.bits_above_log2; [lia|]. apply Z.log2_lt_pow2; [lia|].
    apply (Z.lt_le_trans _ (2^8)); [lia|apply Z.pow_le_mono_r; lia]. }
  by rewrite Z.add_nocarry_lxor, Z.lxor_lor.
Qed.

Lemma length_le_put n v : String.length (le_put n v) = n.
Proof. revert v. induction n; intros; simpl; auto. Qed.
Lemma length_be_put n v : String.length (be_put n v) = n.
Proof. induction n; simpl; auto. Qed.

Lemma le_get_put n v : le_get (le_put n v) = v `mod` 256 ^ Z.of_nat n.
Proof.
  revert v. induction n as [|n IH]; intros v; simpl.
  { by rewrite Z.mod_1_r. }
  rewrite Z.lor_comm, IH, byte_val_of, lor_shift_byte by (apply Z.mod_pos_bound; lia).
  rewrite Z.shiftr_div_pow2, Nat2Z.inj_succ, Z.pow_succ_r by lia. change (2^8) with 256.
  rewrite (Z.rem_mul_r v 256 (256 ^ Z.of_nat n)); [lia|lia|].
  apply Z.pow_pos_nonneg; lia.
Qed.

Lemma be_get_acc_put n v acc :
  be_get_acc acc (be_put n v) = acc * 256 ^ Z.of_nat n + v `mod` 256 ^ Z.of_nat n.
Proof.
  revert acc. induction n as [|n IH]; intros acc; simpl be_put; simpl be_get_acc.
  { rewrite Z.mod_1_r. lia. }
  assert (0 < 256 ^ Z.of_nat n) by (apply Z.pow_pos_nonneg; lia).
  rewrite IH, lor_shift_byte by apply byte_val_range.
  rewrite byte_val_of, Z.shiftr_div_pow2, Z.pow_mul_r by lia. change (2^8) with 256.
  rewrite Nat2Z.inj_succ, Z.pow_succ_r, (Z.mul_comm 256), (Z.rem_mul_r v) by lia.
  lia.
Qed.

Lemma be_get_put n v : be_get (be_put n v) = v `mod` 256 ^ Z.of_nat n.
Proof. unfold be_get. by rewrite be_get_acc_put. Qed.

Lemma le_put_inj n v w :
  0 ≤ v < 256 ^ Z.of_nat n → 0 ≤ w < 256 ^ Z.of_nat n → le_put n v = le_put n w → v = w.
Proof.
  intros Hv Hw H. apply (f_equal le_get) in H. rewrite !le_get_put in H.
  by rewrite !Z.mod_small in H.
Qed.

(** Big-endian encodings of the same width compare, byte by byte, like the
    numbers they encode. *)
Lemma bytes_Less_be_put n v w s t :
  0 ≤ v → 0 ≤ w →
  bytes_Less (be_put n v +:+ s) (be_put n w +:+ t) =
    if v `mod` 256 ^ Z.of_nat n <? w `mod` 256 ^ Z.of_nat n then true
    else if w `mod` 256 ^ Z.of_nat n <? v `mod` 256 ^ Z.of_nat n then false
    else bytes_Less s t.
Proof.
  intros Hv Hw. induction n as [|n IH]; [by rewrite !Z.mod_1_r|].
  change (be_put (S n) ?x) with
    (String (byte_of (Z.shiftr x (8 * Z.of_nat n))) (be_put n x)).
  change (String ?c ?a +:+ ?b) with (String c (a +:+ b)). simpl bytes_Less. rewrite IH.
  assert (0 < 256 ^ Z.of_nat n) by (apply Z.pow_pos_nonneg; lia).
  assert (∀ x, Z.of_N (N_of_ascii (byte_of (Z.shiftr x (8 * Z.of_nat n))))
               = (x `div` 256 ^ Z.of_nat n) `mod` 256) as Hb.
  { intros x. fold (byte_val (byte_of (Z.shiftr x (8 * Z.of_nat n)))).
    by rewrite byte_val_of, Z.shiftr_div_pow2, Z.pow_mul_r by lia. }
  pose proof (Hb v) as Hbv. pose proof (Hb w) as Hbw.
  rewrite Nat2Z.inj_succ, Z.pow_succ_r, (Z.mul_comm 256) by lia.
  rewrite !(Z.rem_mul_r _ (256 ^ Z.of_nat n) 256) by lia.
  pose proof (Z.mod_pos_bound v (256 ^ Z.of_nat n)).
  pose proof (Z.mod_pos_bound w (256 ^ Z.of_nat n)).
  set (P := 256 ^ Z.of_nat n) in *.
  set (dv := (v `div` P) `mod` 256) in *. set (dw := (w `div` P) `mod` 256) in *.
  set (rv := v `mod` P) in *. set (rw := w `mod` P) in *.
  destruct (N.ltb_spec (N_of_ascii (byte_of (v ≫ (8 * Z.of_nat n))))
                       (N_of_ascii (byte_of (w ≫ (8 * Z.of_nat n))))).
  { rewrite (proj2 (Z.ltb_lt (rv + P * dv) _)); [done|nia]. }
  destruct (N.ltb_spec (N_of_ascii (byte_of (w ≫ (8 * Z.of_nat n))))
                       (N_of_ascii (byte_of (v ≫ (8 * Z.of_nat n))))).
  { rewrite (proj2 (Z.ltb_ge (rv + P * dv) _)), (proj2 (Z.ltb_lt (rw + P * dw) _));
      [done|nia..]. }
  assert (dv = dw) as -> by lia.
  destruct (Z.ltb_spec rv rw); destruct (Z.ltb_spec rw rv);
  destruct (Z.ltb_spec (rv + P * dw) (rw + P * dw));
  destruct (Z.ltb_spec (rw + P * dw) (rv + P * dw)); done || lia.
Qed.
