(* ===== verification/Json.v ===== *)
(** [encoding/json] as the service and its validation client use it: [json.Unmarshal]
    into a [map[string]string] and [json.Marshal] of a map of strings (Go 1.16).

    [Json] is what the handler needs, a decoder; the theorems on the service hold for
    any.  [go_Json] is the decoder of the library: its scanner, a state machine over
    the bytes with a stack of open objects and arrays ([step]), gives each byte an
    [opcode]; the decoder ([member_step]) builds the map from the opcodes.  What
    [json_Marshal] prints of ASCII strings it decodes to the same map
    ([json_roundtrip]). *)
From Stdlib Require Import Ascii.
From stdpp Require Import base gmap list strings pretty.
From S2P Require Import Prelude GoStd.

Open Scope Z_scope.

(** [json.Unmarshal] into a [map[string]string]. *)
Class Json := { json_Unmarshal : string → outcome (gmap string string) }.

(** * Characters *)

Definition chr (n : Z) : ascii := byte_of n.
Definition between (a b : Z) (c : ascii) : bool := (a <=? byte_val c) && (byte_val c <=? b).
Definition isb (n : Z) (c : ascii) : bool := byte_val c =? n.

Definition isSpace (c : ascii) : bool := isb 32 c || isb 9 c || isb 13 c || isb 10 c.
Definition isDigit (c : ascii) : bool := between 48 57 c.
Definition isHex (c : ascii) : bool := isDigit c || between 97 102 c || between 65 70 c.

(** [quoteChar]: a byte as a quoted character literal; one above 127 is printed as the
    rune of that number. *)
Definition quoteChar (c : ascii) : string :=
  let n := byte_val c in
  let q := String (chr 39) "" in
  if n =? 39 then q +:+ String (chr 92) q +:+ q
  else if n =? 34 then q +:+ String c q
  else if n <? 127 then q +:+ quote_char c +:+ q
  else if n =? 127 then q +:+ String (chr 92) "x7f" +:+ q
  else if (n <=? 160) || (n =? 173) then
    q +:+ String (chr 92) ("u00" +:+ String (hex_digit (Z.to_N (n / 16)))
                                     (String (hex_digit (Z.to_N (n mod 16))) "")) +:+ q
  else q +:+ String (chr (192 + n / 64)) (String (chr (128 + n mod 64)) "") +:+ q.

(** * The scanner *)

Inductive opcode :=
  | scanContinue | scanBeginLiteral | scanBeginObject | scanObjectKey | scanObjectValue
  | scanEndObject | scanBeginArray | scanArrayValue | scanEndArray | scanSkipSpace | scanEnd.

Inductive frame := parseObjectKey | parseObjectValue | parseArrayValue.

Inductive state :=
  | stateBeginValueOrEmpty | stateBeginValue | stateBeginStringOrEmpty | stateBeginString
  | stateEndValue | stateEndTop
  | stateInString | stateInStringEsc | stateInStringEscU (digits : nat)
  | stateNeg | state1 | state0 | stateDot | stateDot0 | stateE | stateESign | stateE0
  | stateLit (name rest : string).

Record scanner := mkScanner { sc_step : state; parseState : list frame }.

Definition maxNestingDepth : Z := 10000.

Definition invalid (c : ascii) (context : string) : outcome (opcode * scanner) :=
  Fail ("invalid character " +:+ quoteChar c +:+ " " +:+ context).

Definition push (sc : state) (fs : list frame) (f : frame) (op : opcode) (c : ascii)
    : outcome (opcode * scanner) :=
  if Z.of_nat (length (f :: fs)) <=? maxNestingDepth then Ret (op, mkScanner sc (f :: fs))
  else invalid c "exceeded max depth".

Definition pop (fs : list frame) : scanner :=
  mkScanner (match fs with [] => stateEndTop | _ => stateEndValue end) fs.

Definition step_EndTop (fs : list frame) (c : ascii) : outcome (opcode * scanner) :=
  if isSpace c then Ret (scanEnd, mkScanner stateEndTop fs)
  else invalid c "after top-level value".

Definition step_EndValue (fs : list frame) (c : ascii) : outcome (opcode * scanner) :=
  match fs with
  | [] => step_EndTop [] c
  | f :: fs' =>
      if isSpace c then Ret (scanSkipSpace, mkScanner stateEndValue fs)
      else match f with
      | parseObjectKey =>
          if isb 58 c then Ret (scanObjectKey, mkScanner stateBeginValue (parseObjectValue :: fs'))
          else invalid c "after object key"
      | parseObjectValue =>
          if isb 44 c then Ret (scanObjectValue, mkScanner stateBeginString (parseObjectKey :: fs'))
          else if isb 125 c then Ret (scanEndObject, pop fs')
          else invalid c "after object key:value pair"
      | parseArrayValue =>
          if isb 44 c then Ret (scanArrayValue, mkScanner stateBeginValue fs)
          else if isb 93 c then Ret (scanEndArray, pop fs')
          else invalid c "after array element"
      end
  end.

Definition step_BeginValue (fs : list frame) (c : ascii) : outcome (opcode * scanner) :=
  let lit st := Ret (scanBeginLiteral, mkScanner st fs) in
  if isSpace c then Ret (scanSkipSpace, mkScanner stateBeginValue fs)
  else if isb 123 c then push stateBeginStringOrEmpty fs parseObjectKey scanBeginObject c
  else if isb 91 c then push stateBeginValueOrEmpty fs parseArrayValue scanBeginArray c
  else if isb 34 c then lit stateInString
  else if isb 45 c then lit stateNeg
  else if isb 48 c then lit state0
  else if isb 116 c then lit (stateLit "true" "rue")
  else if isb 102 c then lit (stateLit "false" "alse")
  else if isb 110 c then lit (stateLit "null" "ull")
  else if between 49 57 c then lit state1
  else invalid c "looking for beginning of value".

Definition step_BeginString (fs : list frame) (c : ascii) : outcome (opcode * scanner) :=
  if isSpace c then Ret (scanSkipSpace, mkScanner stateBeginString fs)
  else if isb 34 c then Ret (scanBeginLiteral, mkScanner stateInString fs)
  else invalid c "looking for beginning of object key string".

Definition step_0 (fs : list frame) (c : ascii) : outcome (opcode * scanner) :=
  if isb 46 c then Ret (scanContinue, mkScanner stateDot fs)
  else if isb 101 c || isb 69 c then Ret (scanContinue, mkScanner stateE fs)
  else step_EndValue fs c.

Definition step_ESign (fs : list frame) (c : ascii) : outcome (opcode * scanner) :=
  if isDigit c then Ret (scanContinue, mkScanner stateE0 fs)
  else invalid c "in exponent of numeric literal".

(** One byte. *)
Definition step (sc : scanner) (c : ascii) : outcome (opcode * scanner) :=
  let fs := parseState sc in
  let continue st := Ret (scanContinue, mkScanner st fs) in
  match sc_step sc with
  | stateBeginValueOrEmpty =>
      if isSpace c then Ret (scanSkipSpace, sc)
      else if isb 93 c then step_EndValue fs c else step_BeginValue fs c
  | stateBeginValue => step_BeginValue fs c
  | stateBeginStringOrEmpty =>
      if isSpace c then Ret (scanSkipSpace, sc)
      else if isb 125 c then
        step_EndValue (match fs with [] => [] | _ :: fs' => parseObjectValue :: fs' end) c
      else step_BeginString fs c
  | stateBeginString => step_BeginString fs c
  | stateEndValue => step_EndValue fs c
  | stateEndTop => step_EndTop fs c
  | stateInString =>
      if isb 34 c then continue stateEndValue
      else if isb 92 c then continue stateInStringEsc
      else if byte_val c <? 32 then invalid c "in string literal"
      else continue stateInString
  | stateInStringEsc =>
      if isb 98 c || isb 102 c || isb 110 c || isb 114 c || isb 116 c || isb 92 c || isb 47 c || isb 34 c
      then continue stateInString
      else if isb 117 c then continue (stateInStringEscU 0)
      else invalid c "in string escape code"
  | stateInStringEscU n =>
      if isHex c then
        continue (if (n =? 3)%nat then stateInString else stateInStringEscU (S n))
      else invalid c ("in " +:+ String (chr 92) "u hexadecimal character escape")
  | stateNeg =>
      if isb 48 c then continue state0 else if between 49 57 c then continue state1
      else invalid c "in numeric literal"
  | state1 => if isDigit c then continue state1 else step_0 fs c
  | state0 => step_0 fs c
  | stateDot =>
      if isDigit c then continue stateDot0
      else invalid c "after decimal point in numeric literal"
  | stateDot0 =>
      if isDigit c then continue stateDot0
      else if isb 101 c || isb 69 c then continue stateE else step_EndValue fs c
  | stateE => if isb 43 c || isb 45 c then continue stateESign else step_ESign fs c
  | stateESign => step_ESign fs c
  | stateE0 => if isDigit c then continue stateE0 else step_EndValue fs c
  | stateLit name rest =>
      match rest with
      | EmptyString => step_EndValue fs c
      | String x rest' =>
          if bool_decide (c = x) then
            continue (match rest' with EmptyString => stateEndValue | _ => stateLit name rest' end)
          else invalid c ("in literal " +:+ name +:+ " (expecting '" +:+ String x "')")
      end
  end.

Fixpoint scan (sc : scanner) (s : string) : outcome (list (opcode * ascii) * scanner) :=
  match s with
  | EmptyString => Ret ([], sc)
  | String c s' =>
      let! (op, sc') := step sc c in
      let! (ops, sc'') := scan sc' s' in
      Ret ((op, c) :: ops, sc'')
  end.

Definition is_top (sc : scanner) : bool :=
  match sc_step sc with stateEndTop => true | _ => false end.

(** [scanner.eof]: one more space must end the value. *)
Definition scan_eof (sc : scanner) : outcome unit :=
  if is_top sc then Ret tt
  else
    let! (_, sc') := step sc (chr 32) in
    if is_top sc' then Ret tt else Fail "unexpected end of JSON input".

(** [checkValid], with the opcodes of the bytes. *)
Definition checkValid (s : string) : outcome (list (opcode * ascii)) :=
  let! (ops, sc) := scan (mkScanner stateBeginValue []) s in
  let! _ := scan_eof sc in
  Ret ops.

(** * Unquoting *)

(** [utf8.EncodeRune]. *)
Definition EncodeRune (r : Z) : string :=
  let cont k := chr (128 + Z.shiftr r (6 * k) mod 64) in
  if r <? 128 then String (chr r) ""
  else if r <? 2048 then String (chr (192 + Z.shiftr r 6)) (String (cont 0) "")
  else if r <? 65536 then String (chr (224 + Z.shiftr r 12)) (String (cont 1) (String (cont 0) ""))
  else String (chr (240 + Z.shiftr r 18)) (String (cont 2) (String (cont 1) (String (cont 0) ""))).

Definition RuneError : Z := 65533.

Fixpoint all_cont (n : nat) (s : string) : bool :=
  match n, s with
  | O, _ => true
  | S n', String c s' => between 128 191 c && all_cont n' s'
  | S _, EmptyString => false
  end.

(** [utf8.DecodeRune] on a first byte of at least 128: how many bytes follow it in a
    valid encoding. *)
Definition rune_tail (c : ascii) (s : string) : option nat :=
  let tail lo hi n :=
    match s with
    | String d s' => if between lo hi d && all_cont n s' then Some (S n) else None
    | EmptyString => None
    end in
  if between 194 223 c then tail 128 191 0%nat
  else if isb 224 c then tail 160 191 1%nat
  else if isb 237 c then tail 128 159 1%nat
  else if between 225 239 c then tail 128 191 1%nat
  else if isb 240 c then tail 144 191 2%nat
  else if between 241 243 c then tail 128 191 2%nat
  else if isb 244 c then tail 128 143 2%nat
  else None.

Definition hex_val (c : ascii) : Z :=
  if isDigit c then byte_val c - 48 else if between 97 102 c then byte_val c - 87 else byte_val c - 55.

(** [getu4], after the backslash and the [u]. *)
Definition getu4 (s : string) : option (Z * string) :=
  match s with
  | String a (String b (String c (String d s'))) =>
      if isHex a && isHex b && isHex c && isHex d
      then Some (((hex_val a * 16 + hex_val b) * 16 + hex_val c) * 16 + hex_val d, s')
      else None
  | _ => None
  end.

Definition surrogate_pair (hi lo : Z) : option Z :=
  if (55296 <=? hi) && (hi <? 56320) && (56320 <=? lo) && (lo <? 57344)
  then Some (65536 + (hi - 55296) * 1024 + (lo - 56320)) else None.

(** The second half of a surrogate pair, when the text goes on with one. *)
Definition second_half (hi : Z) (s : string) : option (Z * string) :=
  match s with
  | String x (String y s') =>
      if isb 92 x && isb 117 y then
        match getu4 s' with
        | Some (lo, s'') => (λ r, (r, s'')) <$> surrogate_pair hi lo
        | None => None
        end
      else None
  | _ => None
  end.

(** What a backslash and [e] stand for. *)
Definition escaped (e : ascii) : ascii :=
  if isb 98 e then chr 8 else if isb 102 e then chr 12 else if isb 110 e then chr 10
  else if isb 114 e then chr 13 else if isb 116 e then chr 9 else e.

(** [unquote] on the text between the quotes; [fuel] is its length. *)
Fixpoint unquote (fuel : nat) (s : string) : string :=
  match fuel, s with
  | S fuel, String c s' =>
      if isb 92 c then
        match s' with
        | String e s'' =>
            if isb 117 e then
              match getu4 s'' with
              | Some (r, s3) =>
                  if (55296 <=? r) && (r <? 57344) then
                    match second_half r s3 with
                    | Some (r2, s4) => EncodeRune r2 +:+ unquote fuel s4
                    | None => EncodeRune RuneError +:+ unquote fuel s3
                    end
                  else EncodeRune r +:+ unquote fuel s3
              | None => ""
              end
            else String (escaped e) (unquote fuel s'')
        | EmptyString => ""
        end
      else if byte_val c <? 128 then String c (unquote fuel s')
      else match rune_tail c s' with
           | Some n => String c (String.substring 0 n s' +:+
                         unquote fuel (String.substring n (String.length s' - n) s'))
           | None => EncodeRune RuneError +:+ unquote fuel s'
           end
  | _, _ => ""
  end.

(** A string literal, quotes included. *)
Definition unquote_literal (lit : string) : string :=
  let inner := String.substring 1 (String.length lit - 2) lit in
  unquote (String.length inner) inner.

(** * The decoder *)

(** A member's value: a literal as written, or an array or object that is skipped. *)
Inductive jvalue := JLit (text : string) | JSkipped (kind : string).

Definition type_error (kind ty : string) : error :=
  "json: cannot unmarshal " +:+ kind +:+ " into Go value of type " +:+ ty.

(** The kind of a literal, from its first byte. *)
Definition literal_kind (c : ascii) : string :=
  if isb 34 c then "string" else if isb 116 c || isb 102 c then "bool"
  else if isb 110 c then "null" else "number".

(** A value stored in a string: [null] leaves it empty. *)
Definition store_value (v : jvalue) : string + error :=
  match v with
  | JSkipped kind => inr (type_error kind "string")
  | JLit text =>
      match text with
      | EmptyString => inl ""
      | String c _ =>
          let k := literal_kind c in
          if bool_decide (k = "string") then inl (unquote_literal text)
          else if bool_decide (k = "null") then inl ""
          else inr (type_error k "string")
      end
  end.

Record decoder := mkDecoder {
  d_nest : nat;
  d_key : string;
  d_cur : option jvalue;
  d_map : gmap string string;
  d_err : option error;
}.

(** The end of a member; the first type error is kept and the decoding goes on. *)
Definition end_member (d : decoder) : decoder :=
  match d_cur d with
  | None => d
  | Some v =>
      match store_value v with
      | inl s => mkDecoder 0 (d_key d) None (<[d_key d := s]> (d_map d)) (d_err d)
      | inr e => mkDecoder 0 (d_key d) None (<[d_key d := ""]> (d_map d))
                   (match d_err d with Some e' => Some e' | None => Some e end)
      end
  end.

(** One opcode inside the top-level object. *)
Definition member_step (d : decoder) (o : opcode * ascii) : decoder :=
  let nested n := mkDecoder n (d_key d) (d_cur d) (d_map d) (d_err d) in
  let current v := mkDecoder (d_nest d) (d_key d) (Some v) (d_map d) (d_err d) in
  match d_nest d with
  | O =>
      match o.1 with
      | scanBeginLiteral => current (JLit (String o.2 ""))
      | scanContinue =>
          match d_cur d with Some (JLit t) => current (JLit (t +:+ String o.2 "")) | _ => d end
      | scanBeginObject => mkDecoder 1 (d_key d) (Some (JSkipped "object")) (d_map d) (d_err d)
      | scanBeginArray => mkDecoder 1 (d_key d) (Some (JSkipped "array")) (d_map d) (d_err d)
      | scanObjectKey =>
          match d_cur d with
          | Some (JLit t) => mkDecoder 0 (unquote_literal t) None (d_map d) (d_err d)
          | _ => d
          end
      | scanObjectValue | scanEndObject => end_member d
      | _ => d
      end
  | S n =>
      match o.1 with
      | scanBeginObject | scanBeginArray => nested (S (S n))
      | scanEndObject | scanEndArray => nested n
      | _ => d
      end
  end.

(** The value of a valid text; blanks before it are skipped. *)
Fixpoint decode (ops : list (opcode * ascii)) : outcome (gmap string string) :=
  match ops with
  | [] => Ret ∅
  | (op, c) :: ops' =>
      match op with
      | scanBeginObject =>
          let d := foldl member_step (mkDecoder 0 "" None ∅ None) ops' in
          match d_err d with Some e => Fail e | None => Ret (d_map d) end
      | scanBeginArray => Fail (type_error "array" "map[string]string")
      | scanBeginLiteral =>
          if bool_decide (literal_kind c = "null") then Ret ∅
          else Fail (type_error (literal_kind c) "map[string]string")
      | _ => decode ops'
      end
  end.

#[global] Instance go_Json : Json :=
  {| json_Unmarshal s := let! ops := checkValid s in decode ops |}.

(** No text makes it panic. *)
Lemma step_no_panic sc c : no_panic (step sc c).
Proof.
  destruct sc as [st fs]. unfold step, step_BeginString, step_0, step_ESign, step_BeginValue, step_EndValue, step_EndTop,
    push, invalid.
  repeat case_match; done.
Qed.

Lemma scan_no_panic s sc : no_panic (scan sc s).
Proof.
  revert sc. induction s as [|c s IH]; intros sc; [done|]. simpl. pose proof (step_no_panic sc c) as Hs.
  destruct (step sc c) as [[op sc']| |]; [|done..]. simpl. specialize (IH sc').
  by destruct (scan sc' s) as [[ops sc'']| |].
Qed.

Lemma json_no_panic s : no_panic (json_Unmarshal s).
Proof.
  simpl. unfold checkValid. pose proof (scan_no_panic s (mkScanner stateBeginValue [])) as Hs.
  destruct (scan _ s) as [[ops sc]| |]; [|done..]. simpl. unfold scan_eof.
  assert (no_panic (decode ops)) as Hd.
  { clear. induction ops as [|[op c] ops IH]; [done|]. simpl. repeat case_match; done. }
  destruct (is_top sc); [done|]. pose proof (step_no_panic sc (chr 32)) as Hst.
  destruct (step sc (chr 32)) as [[? sc']| |]; [|done..]. simpl. by destruct (is_top sc').
Qed.

(** * Marshal *)

Definition hex2 (n : Z) : string :=
  String (hex_digit (Z.to_N (n / 16))) (String (hex_digit (Z.to_N (n mod 16))) "").

Definition bs (s : string) : string := String (chr 92) s.

(** A byte below 128 in a string literal. *)
Definition marshal_char (c : ascii) : string :=
  let n := byte_val c in
  if (n =? 34) || (n =? 92) then bs (String c "")
  else if n =? 10 then bs "n" else if n =? 13 then bs "r" else if n =? 9 then bs "t"
  else if (n <? 32) || (n =? 60) || (n =? 62) || (n =? 38) then bs ("u00" +:+ hex2 n)
  else String c "".

(** The text between the quotes: HTML characters are escaped, bytes that are not valid
    UTF-8 become the replacement character, U+2028 and U+2029 are escaped. *)
Fixpoint marshal_body (fuel : nat) (s : string) : string :=
  match fuel, s with
  | S fuel, String c s' =>
      if byte_val c <? 128 then marshal_char c +:+ marshal_body fuel s'
      else match rune_tail c s' with
           | None => bs "ufffd" +:+ marshal_body fuel s'
           | Some n =>
               let rune := String c (String.substring 0 n s') in
               let rest := String.substring n (String.length s' - n) s' in
               (if bool_decide (rune = EncodeRune 8232) then bs "u2028"
                else if bool_decide (rune = EncodeRune 8233) then bs "u2029" else rune)
               +:+ marshal_body fuel rest
           end
  | _, _ => ""
  end.

Definition marshal_string (s : string) : string :=
  let q := String (chr 34) "" in q +:+ marshal_body (String.length s) s +:+ q.

Definition marshal_member (kv : string * string) : string :=
  marshal_string kv.1 +:+ ":" +:+ marshal_string kv.2.

(** [json.Marshal] of a map of strings: the members in the order of their keys. *)
Definition json_Marshal `{!GoSort} (m : gmap string string) : string :=
  "{" +:+ Join "," (marshal_member <$> sort_slice (λ x y, bytes_Less x.1 y.1) (map_to_list m)) +:+ "}".

(** * The round trip *)

Definition is_ascii (s : string) : Prop := ∀ c, str_elem c s = true → byte_val c < 128.

Lemma is_ascii_cons c s : is_ascii (String c s) → byte_val c < 128 ∧ is_ascii s.
Proof.
  intros H. split.
  - apply H. simpl. by rewrite bool_decide_true.
  - intros d Hd. apply H. simpl. rewrite Hd. apply orb_true_r.
Qed.

Lemma is_ascii_String c s : byte_val c < 128 → is_ascii s → is_ascii (String c s).
Proof.
  intros Hc Hs d. simpl. intros [<-%bool_decide_eq_true|Hd]%orb_true_iff; [done|by apply Hs].
Qed.

Lemma is_ascii_pretty (z : Z) : is_ascii (pretty z).
Proof.
  intros c Hc. apply Z.nle_gt. intros Hge. apply not_false_iff_true in Hc. apply Hc.
  apply pretty_Z_elem; destruct c as [[] [] [] [] [] [] [] []]; first [done|by vm_compute in Hge].
Qed.

(** The opcodes of the inside of a literal. *)
Fixpoint conts (s : string) : list (opcode * ascii) :=
  match s with EmptyString => [] | String c s' => (scanContinue, c) :: conts s' end.

Definition quote1 : string := String (chr 34) "".
Definition lit_ops (s : string) : list (opcode * ascii) :=
  (scanBeginLiteral, chr 34) :: conts (marshal_body (String.length s) s +:+ quote1).

Lemma conts_app s t : conts (s +:+ t) = conts s ++ conts t.
Proof. induction s as [|c s IH]; simpl; [done|]. by rewrite IH. Qed.

Lemma scan_app sc s t :
  scan sc (s +:+ t) = let! (o1, sc1) := scan sc s in let! (o2, sc2) := scan sc1 t in
                      Ret (o1 ++ o2, sc2).
Proof.
  revert sc. induction s as [|c s IH]; intros sc; simpl.
  { change ("" +:+ t) with t. destruct (scan sc t) as [[] | |]; done. }
  destruct (step sc c) as [[op sc']| |]; simpl; [|done..]. rewrite IH.
  destruct (scan sc' s) as [[o1 sc1]| |]; simpl; [|done..].
  by destruct (scan sc1 t) as [[]| |].
Qed.

Lemma scan_char c fs :
  byte_val c < 128 →
  scan (mkScanner stateInString fs) (marshal_char c) =
    Ret (conts (marshal_char c), mkScanner stateInString fs).
Proof.
  intros Hc. destruct c as [[] [] [] [] [] [] [] []]; first [reflexivity|by vm_compute in Hc].
Qed.

Lemma unquote_char c f t :
  byte_val c < 128 → unquote (S f) (marshal_char c +:+ t) = String c (unquote f t).
Proof.
  intros Hc. destruct c as [[] [] [] [] [] [] [] []]; first [reflexivity|by vm_compute in Hc].
Qed.

Lemma marshal_body_cons c s :
  byte_val c < 128 →
  marshal_body (String.length (String c s)) (String c s) =
    marshal_char c +:+ marshal_body (String.length s) s.
Proof. intros Hc. simpl. by rewrite (proj2 (Z.ltb_lt _ _) Hc). Qed.

Lemma scan_body s fs :
  is_ascii s →
  scan (mkScanner stateInString fs) (marshal_body (String.length s) s) =
    Ret (conts (marshal_body (String.length s) s), mkScanner stateInString fs).
Proof.
  induction s as [|c s IH]; [done|]. intros [Hc Hs]%is_ascii_cons.
  rewrite marshal_body_cons, scan_app, scan_char by done. cbn [obind].
  rewrite IH by done. simpl. by rewrite conts_app.
Qed.

Lemma unquote_body f s :
  is_ascii s → (String.length s ≤ f)%nat → unquote f (marshal_body (String.length s) s) = s.
Proof.
  revert f. induction s as [|c s IH]; intros f Hs Hf; [by destruct f|].
  apply is_ascii_cons in Hs as [Hc Hs]. simpl in Hf. destruct f as [|f]; [lia|].
  rewrite marshal_body_cons, unquote_char, IH by (done || lia). done.
Qed.

Lemma length_marshal_char c : (1 ≤ String.length (marshal_char c))%nat.
Proof. destruct c as [[] [] [] [] [] [] [] []]; by vm_compute; lia. Qed.

Lemma length_marshal_body s :
  is_ascii s → (String.length s ≤ String.length (marshal_body (String.length s) s))%nat.
Proof.
  induction s as [|c s IH]; [done|]. intros [Hc Hs]%is_ascii_cons.
  rewrite marshal_body_cons by done. pose proof (length_marshal_char c). specialize (IH Hs).
  rewrite length_app_string. simpl in *. lia.
Qed.

Lemma unquote_marshal s : is_ascii s → unquote_literal (marshal_string s) = s.
Proof.
  intros Hs. unfold unquote_literal, marshal_string. fold quote1. cbv zeta.
  set (b := marshal_body _ s).
  assert (String.substring 1 (String.length (quote1 +:+ b +:+ quote1) - 2) (quote1 +:+ b +:+ quote1) = b)
    as ->.
  { rewrite !length_app_string. cbn [quote1 String.length].
    replace (1 + (String.length b + 1) - 2)%nat with (String.length b) by lia.
    apply substring_0_app. }
  apply unquote_body; [done|]. by apply length_marshal_body.
Qed.

(** States in which a string literal may begin. *)
Definition begins (st : state) : Prop :=
  st = stateBeginString ∨ st = stateBeginStringOrEmpty ∨ st = stateBeginValue.

Lemma scan_string st fs s :
  begins st → is_ascii s →
  scan (mkScanner st fs) (marshal_string s) = Ret (lit_ops s, mkScanner stateEndValue fs).
Proof.
  intros Hst Hs. unfold marshal_string. fold quote1. cbv zeta.
  assert (step (mkScanner st fs) (chr 34) = Ret (scanBeginLiteral, mkScanner stateInString fs)) as E
    by by destruct Hst as [->|[->| ->]].
  change (quote1 +:+ ?x) with (String (chr 34) x). cbn [scan]. rewrite E. cbn [obind].
  rewrite scan_app, scan_body by done. cbn [obind]. unfold lit_ops. rewrite conts_app. done.
Qed.

Definition member_ops (kv : string * string) : list (opcode * ascii) :=
  lit_ops kv.1 ++ (scanObjectKey, chr 58) :: lit_ops kv.2.

Lemma scan_member st fs kv :
  st = stateBeginString ∨ st = stateBeginStringOrEmpty → is_ascii kv.1 → is_ascii kv.2 →
  scan (mkScanner st (parseObjectKey :: fs)) (marshal_member kv) =
    Ret (member_ops kv, mkScanner stateEndValue (parseObjectValue :: fs)).
Proof.
  intros Hst H1 H2. unfold marshal_member.
  rewrite scan_app, scan_string by (unfold begins; tauto). cbn [obind].
  change (":" +:+ ?x) with (String (chr 58) x). cbn [scan].
  change (step _ (chr 58)) with (Ret (scanObjectKey, mkScanner stateBeginValue (parseObjectValue :: fs))).
  cbn [obind]. rewrite scan_string by (unfold begins; tauto). done.
Qed.

(** What follows the first member: the others, and the end of the object. *)
Fixpoint rest_ops (kvs : list (string * string)) : list (opcode * ascii) :=
  match kvs with
  | [] => [(scanEndObject, chr 125)]
  | kv :: kvs' => (scanObjectValue, chr 44) :: member_ops kv ++ rest_ops kvs'
  end.

Lemma scan_members st kv kvs :
  st = stateBeginString ∨ st = stateBeginStringOrEmpty →
  Forall (λ kv, is_ascii kv.1 ∧ is_ascii kv.2) (kv :: kvs) →
  scan (mkScanner st [parseObjectKey]) (Join "," (marshal_member <$> kv :: kvs) +:+ "}") =
    Ret (member_ops kv ++ rest_ops kvs, mkScanner stateEndTop []).
Proof.
  revert st kv. induction kvs as [|kv' kvs IH]; intros st kv Hst [[H1 H2] HF]%Forall_cons.
  - cbn [fmap list_fmap Join]. rewrite scan_app, scan_member by done. done.
  - change (Join "," (marshal_member <$> kv :: kv' :: kvs)) with
      (marshal_member kv +:+ "," +:+ Join "," (marshal_member <$> kv' :: kvs)).
    rewrite <- !string_app_assoc, scan_app, scan_member by done. cbn [obind].
    change ("," +:+ ?x) with (String (chr 44) x). cbn [scan].
    change (step _ (chr 44)) with (Ret (scanObjectValue, mkScanner stateBeginString [parseObjectKey])).
    cbn [obind]. rewrite IH by (done || by left). done.
Qed.

Lemma fold_conts d t s :
  d_nest d = 0%nat → d_cur d = Some (JLit t) →
  foldl member_step d (conts s) =
    mkDecoder 0 (d_key d) (Some (JLit (t +:+ s))) (d_map d) (d_err d).
Proof.
  revert d t. induction s as [|c s IH]; intros [n k cur m e] t; simpl; intros -> ->.
  - by rewrite string_app_nil_r.
  - erewrite IH by reflexivity. simpl. do 3 f_equal. by rewrite <- string_app_assoc.
Qed.

Lemma fold_lit d s :
  d_nest d = 0%nat →
  foldl member_step d (lit_ops s) =
    mkDecoder 0 (d_key d) (Some (JLit (marshal_string s))) (d_map d) (d_err d).
Proof.
  intros Hn. unfold lit_ops. cbn [foldl]. erewrite fold_conts.
  - unfold member_step. rewrite Hn. done.
  - unfold member_step. by rewrite Hn.
  - unfold member_step. by rewrite Hn.
Qed.

Lemma fold_member d kv :
  d_nest d = 0%nat → is_ascii kv.1 →
  foldl member_step d (member_ops kv) =
    mkDecoder 0 kv.1 (Some (JLit (marshal_string kv.2))) (d_map d) (d_err d).
Proof.
  intros Hn H1. unfold member_ops. rewrite foldl_app, fold_lit by done. cbn [foldl].
  unfold member_step at 2. cbn [d_nest fst d_cur]. rewrite unquote_marshal by done.
  by rewrite fold_lit.
Qed.

Lemma end_member_string k s m e :
  is_ascii s →
  end_member (mkDecoder 0 k (Some (JLit (marshal_string s))) m e) =
    mkDecoder 0 k None (<[k := s]> m) e.
Proof.
  intros Hs. unfold end_member. cbn [d_cur d_key d_map d_err].
  assert (store_value (JLit (marshal_string s)) = inl s) as ->; [|done].
  unfold store_value. rewrite <- (unquote_marshal s Hs) at 2. done.
Qed.

Definition insert_all (m : gmap string string) (kvs : list (string * string)) : gmap string string :=
  foldl (λ m kv, <[kv.1 := kv.2]> m) m kvs.

Lemma fold_rest kvs k s m :
  is_ascii s → Forall (λ kv, is_ascii kv.1 ∧ is_ascii kv.2) kvs →
  let d := foldl member_step (mkDecoder 0 k (Some (JLit (marshal_string s))) m None) (rest_ops kvs) in
  d_map d = insert_all (<[k := s]> m) kvs ∧ d_err d = None.
Proof.
  revert k s m. induction kvs as [|kv kvs IH]; intros k s m Hs HF.
  - cbn [rest_ops foldl]. unfold member_step. cbn [d_nest fst]. by rewrite end_member_string.
  - apply Forall_cons in HF as [[H1 H2] HF]. cbn [rest_ops foldl]. rewrite foldl_app.
    change (member_step (mkDecoder 0 ?k ?c ?m ?e) (scanObjectValue, _)) with
      (end_member (mkDecoder 0 k c m e)).
    rewrite end_member_string by done. rewrite fold_member by done. by apply IH.
Qed.

Lemma insert_all_reverse kvs : insert_all ∅ kvs = list_to_map (reverse kvs).
Proof.
  induction kvs as [|kv kvs IH] using rev_ind; [done|].
  unfold insert_all in *. rewrite foldl_app, reverse_snoc. simpl. by rewrite IH.
Qed.

Lemma insert_all_perm m kvs : kvs ≡ₚ map_to_list m → insert_all ∅ kvs = m.
Proof.
  intros Hp. rewrite insert_all_reverse. symmetry. apply list_to_map_flip.
  by rewrite reverse_Permutation.
Qed.

Definition map_ascii (m : gmap string string) : Prop :=
  ∀ k v, m !! k = Some v → is_ascii k ∧ is_ascii v.

(** Decoding what [json_Marshal] printed of a map of ASCII strings gives the map. *)
Lemma json_roundtrip `{!GoSort} m : map_ascii m → json_Unmarshal (json_Marshal m) = Ret m.
Proof.
  intros Hm. unfold json_Marshal.
  set (kvs := sort_slice _ (map_to_list m)).
  assert (kvs ≡ₚ map_to_list m) as Hp by apply sort_slice_perm.
  assert (Forall (λ kv, is_ascii kv.1 ∧ is_ascii kv.2) kvs) as HF.
  { rewrite Hp. apply Forall_forall. intros [k v] E%elem_of_map_to_list. by apply Hm. }
  cbn [json_Unmarshal go_Json]. unfold checkValid.
  change ("{" +:+ ?x) with (String (chr 123) x). cbn [scan].
  change (step _ (chr 123)) with (Ret (scanBeginObject, mkScanner stateBeginStringOrEmpty [parseObjectKey])).
  cbn [obind]. clearbody kvs. destruct kvs as [|kv kvs].
  { apply (insert_all_perm m) in Hp as <-. reflexivity. }
  rewrite scan_members by (done || by right). cbn [obind scan_eof is_top sc_step decode].
  apply Forall_cons in HF as [[H1 H2] HF]. rewrite foldl_app, fold_member by done.
  cbn [d_map d_err]. destruct (fold_rest kvs kv.1 kv.2 ∅ H2 HF) as [E ->].
  rewrite E. by rewrite <- (insert_all_perm m (kv :: kvs) Hp).
Qed.
