(* ===== verification/Revision.v ===== *)
(** Revisions and the revision counter: src/pkg/index/revision.go (the
    [Revision] type, its order, its 17-byte encoding) and
    src/pkg/revision/revision.go (the global counter, as a function and, for
    concurrent callers, as a step relation over its atomic steps). *)
From Stdlib Require Import Ascii.
From stdpp Require Import base gmap sets list strings pretty sorting relations.
From S2P Require Import Prelude GoStd.

Open Scope Z_scope.

(** * The Revision type *)

Record Revision := mkRevision {
  main : Z;                (* int64 *)
  sub : Z;                 (* int64 *)
  nodes : list string;
}.

(** The zero value [Revision{}]. *)
Definition Revision_zero : Revision := mkRevision 0 0 [].

#[global] Instance Revision_eq_dec : EqDecision Revision.
Proof. solve_decision. Defined.
#[global] Instance Revision_inhabited : Inhabited Revision := populate Revision_zero.

Definition NewRevision (main sub : Z) (nodes : list string) : Revision :=
  mkRevision main sub nodes.

Definition Revision_String (a : Revision) : string := pretty (main a).
Definition Revision_GetMain (a : Revision) : Z := main a.
Definition Revision_GetSub (a : Revision) : Z := sub a.
Definition Revision_GetNodes (a : Revision) : list string := nodes a.
Definition Revision_SetNodes (a : Revision) (ns : list string) : Revision :=
  mkRevision (main a) (sub a) ns.

Definition GreaterThan (a b : Revision) : bool :=
  if main b <? main a then true
  else if main a <? main b then false
  else sub b <? sub a.

(** The order [sort.Sort(Revisions(revs))] sorts by. *)
Definition Revisions_Less (x y : Revision) : bool := GreaterThan y x.

(** ** The order *)

Definition rev_lt (a b : Revision) : Prop := GreaterThan b a = true.
Definition rev_le (a b : Revision) : Prop := GreaterThan a b = false.

Lemma GreaterThan_spec a b :
  GreaterThan a b = true ↔ main b < main a ∨ (main a = main b ∧ sub b < sub a).
Proof.
  unfold GreaterThan. destruct (Z.ltb_spec (main b) (main a)); [split; lia|].
  destruct (Z.ltb_spec (main a) (main b)); [split; [done|lia]|].
  rewrite Z.ltb_lt. lia.
Qed.

Lemma GreaterThan_false a b :
  GreaterThan a b = false ↔ main a < main b ∨ (main a = main b ∧ sub a ≤ sub b).
Proof. rewrite <- not_true_iff_false, GreaterThan_spec. lia. Qed.

(** Turns every comparison of revisions in sight into linear arithmetic. *)
Ltac rev_lia :=
  unfold rev_lt, rev_le, Revisions_Less in *;
  repeat match goal with
  | H : GreaterThan _ _ = true |- _ => apply GreaterThan_spec in H
  | H : GreaterThan _ _ = false |- _ => apply GreaterThan_false in H
  | |- GreaterThan _ _ = true => apply GreaterThan_spec
  | |- GreaterThan _ _ = false => apply GreaterThan_false
  end; simpl in *; lia.

#[global] Instance rev_lt_dec : RelDecision rev_lt.
Proof. intros a b. unfold rev_lt. apply _. Defined.
#[global] Instance rev_le_dec : RelDecision rev_le.
Proof. intros a b. unfold rev_le. apply _. Defined.
#[global] Instance rev_lt_strict : StrictOrder rev_lt.
Proof. split; [intros a H|intros a b c ??]; rev_lia. Qed.
#[global] Instance rev_le_preorder : PreOrder rev_le.
Proof. split; [intros a|intros a b c ??]; rev_lia. Qed.

Lemma rev_lt_le a b : rev_lt a b → rev_le a b.
Proof. intros. rev_lia. Qed.
Lemma rev_le_main a b : rev_le a b → main a ≤ main b.
Proof. intros. rev_lia. Qed.
Lemma rev_nlt_le a b : ¬ rev_lt a b ↔ rev_le b a.
Proof. unfold rev_lt, rev_le. by rewrite not_true_iff_false. Qed.
Lemma rev_lt_le_trans a b c : rev_lt a b → rev_le b c → rev_lt a c.
Proof. intros. rev_lia. Qed.
Lemma rev_le_lt_trans a b c : rev_le a b → rev_lt b c → rev_lt a c.
Proof. intros. rev_lia. Qed.
#[export] Hint Resolve rev_lt_le rev_lt_le_trans rev_le_lt_trans : rkv.

Lemma Revisions_Less_weak : strict_weak Revisions_Less.
Proof. split; intros; rev_lia. Qed.
#[export] Hint Resolve Revisions_Less_weak : rkv.

(** Two revisions print alike exactly when they share [main]: the string that
    names a value in the backends forgets [sub] and [nodes]. *)
Lemma Revision_String_inj a b : Revision_String a = Revision_String b ↔ main a = main b.
Proof. unfold Revision_String. split; [apply (inj pretty)|by intros ->]. Qed.

(** * The binary form *)

Definition revBytesLen : nat := 8 + 1 + 8.

(** Writing into the caller's buffer [bytes]: [PutUint64] panics on a short
    buffer, and what lies beyond the 17 bytes stays. *)
Definition revToBytes (rev : Revision) (bytes : string) : outcome string :=
  if (String.length bytes <? 17)%nat then Panic "index out of range"
  else Ret (be_put 8 (uint64 (main rev)) +:+ "_" +:+ be_put 8 (uint64 (sub rev))
            +:+ String.substring 17 (String.length bytes - 17) bytes).

(** [bytes[0:8]] and [bytes[9:]], of which [Uint64] reads eight bytes. *)
Definition bytesToRev (bytes : string) : outcome Revision :=
  if (String.length bytes <? 17)%nat then Panic "slice bounds out of range"
  else Ret (mkRevision (int64 (be_get (String.substring 0 8 bytes)))
                       (int64 (be_get (String.substring 9 8 bytes))) []).

(** * The global counter *)

(** One call with no other caller in between: the counter after it, which is
    also the value returned. *)
Definition GetGlobalIncreasingRevision (global_increasing_revision : Z) : Z * Z :=
  let g := uint64 (global_increasing_revision + 1) in (g, g).

(** Concurrent callers: [atomic.AddUint64] and the plain read that follows it are
    two atomic steps, with the steps of the other callers in between. *)
Inductive caller := Calling | Added | Returned (v : Z).

Record counter_state := mkCounter {
  global_increasing_revision : Z;
  callers : list caller;
}.

Inductive counter_step : counter_state → counter_state → Prop :=
  | step_add g cs i :
      cs !! i = Some Calling →
      counter_step (mkCounter g cs) (mkCounter (uint64 (g + 1)) (<[i := Added]> cs))
  | step_read g cs i :
      cs !! i = Some Added →
      counter_step (mkCounter g cs) (mkCounter g (<[i := Returned g]> cs)).

(** * Properties *)

Lemma bytes_Less_cons c s t : bytes_Less (String c s) (String c t) = bytes_Less s t.
Proof. simpl. by rewrite N.ltb_irrefl. Qed.

(** The bytes a revision is written to, followed by anything. *)
Definition rev_bytes (rev : Revision) (rest : string) : string :=
  be_put 8 (uint64 (main rev)) +:+ "_" +:+ be_put 8 (uint64 (sub rev)) +:+ rest.

Lemma revToBytes_inv rev buf out :
  revToBytes rev buf = Ret out →
  out = rev_bytes rev (String.substring 17 (String.length buf - 17) buf).
Proof. unfold revToBytes. destruct (_ <? _)%nat; [done|]. intros [= <-]. reflexivity. Qed.

Lemma bytesToRev_rev_bytes rev rest :
  is_int64 (main rev) → is_int64 (sub rev) →
  bytesToRev (rev_bytes rev rest) = Ret (Revision_SetNodes rev []).
Proof.
  intros Hm Hs. unfold bytesToRev, rev_bytes.
  rewrite !length_app_string, !length_be_put.
  rewrite (proj2 (Nat.ltb_ge _ _)) by (simpl; lia).
  pose proof (substring_0_app (be_put 8 (uint64 (main rev)))
    ("_" +:+ be_put 8 (uint64 (sub rev)) +:+ rest)) as H1.
  rewrite length_be_put in H1. rewrite H1.
  rewrite string_app_assoc, (substring_app_r (be_put 8 (uint64 (main rev)) +:+ "_"))
    by (by rewrite length_app_string, length_be_put).
  pose proof (substring_0_app (be_put 8 (uint64 (sub rev))) rest) as H2.
  rewrite length_be_put in H2. rewrite H2, !be_get_put.
  change (256 ^ Z.of_nat 8) with (2^64).
  rewrite !Z.mod_small by apply uint64_range.
  by rewrite !int64_uint64.
Qed.

(** C27. Decoding the bytes a revision was encoded to gives the revision back,
    without its node list, for any buffer long enough to be written and any
    [int64] components; the buffer keeps its length and its tail. *)
Theorem rev_bytes_roundtrip rev buf :
  is_int64 (main rev) → is_int64 (sub rev) → (revBytesLen ≤ String.length buf)%nat →
  ∃ out, revToBytes rev buf = Ret out ∧ bytesToRev out = Ret (Revision_SetNodes rev []) ∧
         String.length out = String.length buf.
Proof.
  intros Hm Hs Hlen. unfold revBytesLen in Hlen. unfold revToBytes.
  rewrite (proj2 (Nat.ltb_ge _ _)) by lia.
  eexists. split; [done|]. split; [by apply bytesToRev_rev_bytes|].
  rewrite !length_app_string, !length_be_put.
  assert (∀ s n m, (n + m ≤ String.length s)%nat → String.length (String.substring n m s) = m)
    as Hsub.
  { clear. induction s as [|c s IH]; intros [|n] [|m]; simpl; intros; try lia.
    - by rewrite IH by lia.
    - by rewrite IH by lia.
    - by rewrite IH by lia. }
  rewrite Hsub by lia. simpl. lia.
Qed.

Lemma rev_bytes_roundtrip_witness :
  ∃ out, revToBytes (mkRevision 7 (-1) ["n1"]%string) "                 " = Ret out ∧
         bytesToRev out = Ret (mkRevision 7 (-1) []) ∧ String.length out = 17%nat.
Proof.
  apply (rev_bytes_roundtrip (mkRevision 7 (-1) ["n1"]%string) "                 ").
  - by apply (bool_decide_unpack _).
  - by apply (bool_decide_unpack _).
  - by apply (bool_decide_unpack _).
Defined.

(** On non-negative revisions the byte order of the encodings (the order a
    backend would sort them in) is the order of the revisions. *)
Theorem rev_bytes_order a b buf outa outb :
  0 ≤ main a → 0 ≤ sub a → 0 ≤ main b → 0 ≤ sub b →
  is_int64 (main a) → is_int64 (sub a) → is_int64 (main b) → is_int64 (sub b) →
  revToBytes a buf = Ret outa → revToBytes b buf = Ret outb →
  bytes_Less outa outb = GreaterThan b a.
Proof.
  intros ???????? ->%revToBytes_inv ->%revToBytes_inv. unfold rev_bytes.
  rewrite !uint64_id by word_lia.
  rewrite bytes_Less_be_put by done. change (256 ^ Z.of_nat 8) with (2^64).
  rewrite !Z.mod_small by word_lia. unfold GreaterThan.
  destruct (_ <? _); [done|]. destruct (_ <? _); [done|].
  change ("_" +:+ ?x) with (String "_"%char x).
  rewrite bytes_Less_cons, bytes_Less_be_put by done. change (256 ^ Z.of_nat 8) with (2^64).
  rewrite !Z.mod_small by word_lia.
  rewrite bytes_Less_irrefl. destruct (_ <? _); [done|]. by destruct (_ <? _).
Qed.

Lemma rev_bytes_order_witness :
  ∃ outa outb,
    revToBytes (mkRevision 255 3 []) "                 " = Ret outa ∧
    revToBytes (mkRevision 256 0 []) "                 " = Ret outb ∧
    bytes_Less outa outb = true.
Proof.
  do 2 eexists. split; [vm_compute; reflexivity|]. split; [vm_compute; reflexivity|].
  apply (rev_bytes_order (mkRevision 255 3 []) (mkRevision 256 0 []) "                 ");
    try (by apply (bool_decide_unpack _)); vm_compute; reflexivity.
Defined.

Lemma GetGlobalIncreasingRevision_lt c :
  is_uint64 c → c < 2^64 - 1 → GetGlobalIncreasingRevision c = (c + 1, c + 1).
Proof.
  intros. unfold GetGlobalIncreasingRevision. by rewrite uint64_id by word_lia.
Qed.

(** With callers that overlap, the counter is not a source of unique
    revisions: two concurrent calls can both return the same number, because the
    value returned is read after the atomic increment, not by it. *)
Theorem counter_race :
  rtc counter_step (mkCounter 0 [Calling; Calling]) (mkCounter 2 [Returned 2; Returned 2]).
Proof.
  eapply rtc_l; [by apply (step_add 0 _ 0)|]. simpl.
  eapply rtc_l; [by apply (step_add (uint64 1) _ 1)|]. simpl.
  eapply rtc_l; [by apply (step_read _ _ 0)|]. simpl.
  eapply rtc_l; [by apply (step_read _ _ 1)|]. simpl.
  replace (uint64 (uint64 1 + 1)) with 2 by (vm_compute; reflexivity). done.
Qed.

(** What overlap does keep: no caller returns a value above the counter, and
    no caller a value that was not reached after its own increment. *)
Definition returned_le (g : Z) (c : caller) : Prop :=
  match c with Returned v => v ≤ g | _ => True end.

Lemma counter_step_bounded s s' :
  counter_step s s' → 0 ≤ global_increasing_revision s < 2^64 - 1 →
  Forall (returned_le (global_increasing_revision s)) (callers s) →
  Forall (returned_le (global_increasing_revision s')) (callers s') ∧
  global_increasing_revision s ≤ global_increasing_revision s'.
Proof.
  intros Hstep Hg HF. inv Hstep; simpl in *.
  - rewrite uint64_id by word_lia. split; [|lia].
    apply Forall_insert; [|done]. eapply Forall_impl; [done|].
    intros [| |v]; simpl; auto with lia.
  - split; [|lia]. apply Forall_insert; [done|simpl; lia].
Qed.
