(* ===== verification/KeyIndex.v ===== *)
(** The revisions of one key: src/pkg/index/key_index.go.

    The first part is the data ([generation], [keyIndex]) and one definition per
    method, loops as recursion on the loop counter.  [keyIndex_put] reads the
    global revision counter when it opens a generation, so the counter is an
    argument and a result.  The second part characterises the downward loops and
    [put], and gives the invariant [ki_ok] every operation keeps.  What the
    generations mean, and the theorems about them, are in [KeyHistory]. *)
From Stdlib Require Import Ascii.
From stdpp Require Import base gmap sets list strings pretty sorting.
From S2P Require Import Prelude GoStd Revision.

Open Scope Z_scope.

Definition ErrRevisionNotFound : error := "mvcc: Revision not found".

(** * Data *)

Record generation := mkGeneration {
  ver : Z;                 (* int64 *)
  created : Revision;
  revs : list Revision;
}.

(** The zero value [generation{}]. *)
Definition generation_zero : generation := mkGeneration 0 Revision_zero [].

Record keyIndex := mkKeyIndex {
  key : string;
  modified : Revision;
  generations : list generation;
}.

#[global] Instance generation_eq_dec : EqDecision generation.
Proof. solve_decision. Defined.
#[global] Instance keyIndex_eq_dec : EqDecision keyIndex.
Proof. solve_decision. Defined.
#[global] Instance generation_inhabited : Inhabited generation := populate generation_zero.

(** [&keyIndex{key: key}]. *)
Definition newKeyIndex (key : string) : keyIndex := mkKeyIndex key Revision_zero [].

(** * Operations *)

Definition is_nil {A} (l : list A) : bool := match l with [] => true | _ => false end.

(** [g.isEmpty()] on a [*generation]: [nil] is empty too. *)
Definition generation_isEmpty (g : option generation) : bool :=
  match g with None => true | Some g => is_nil (revs g) end.

Definition keyIndex_isEmpty (ki : keyIndex) : bool :=
  match generations ki with [g] => generation_isEmpty (Some g) | _ => false end.

(** The loop of [put] for an old revision: [n] is the loop's [i + 1]; the result
    is the [i] at the break, [None] for [i < 0]. *)
Fixpoint put_locate (rev : Revision) (rs : list Revision) (n : nat) : option nat :=
  match n with
  | O => None
  | S i => match rs !! i with
           | Some r => if GreaterThan rev r then Some i else put_locate rev rs i
           | None => None
           end
  end.

Definition keyIndex_put (ki : keyIndex) (main sub : Z) (nodes : list string)
    (counter : Z) : keyIndex * Z :=
  let rev := mkRevision main sub nodes in
  let gens := if is_nil (generations ki) then [generation_zero] else generations ki in
  let g := default generation_zero (last gens) in
  let '(g_created, counter) :=
    if is_nil (revs g) then
      let '(v, counter) := GetGlobalIncreasingRevision counter in
      (mkRevision (int64 v) 0 [], counter)
    else (created g, counter) in
  let g_revs :=
    if negb (GreaterThan rev (modified ki)) then
      match put_locate rev (revs g) (length (revs g)) with
      | None => rev :: revs g
      | Some i => take (S i) (revs g) ++ (rev :: drop (S i) (revs g))
      end
    else revs g ++ [rev] in
  let '(g_ver, modified) :=
    if GreaterThan rev (modified ki) then (int64 (ver g + 1), rev)
    else (ver g, modified ki) in
  (mkKeyIndex (key ki) modified
     (<[pred (length gens) := mkGeneration g_ver g_created g_revs]> gens),
   counter).

Definition keyIndex_restore (ki : keyIndex) (created modified : Revision) (ver : Z)
    : outcome keyIndex :=
  if negb (is_nil (generations ki))
  then Panic "store.keyindex: cannot restore non-empty keyIndex"
  else Ret (mkKeyIndex (key ki) modified [mkGeneration ver created [modified]]).

Definition keyIndex_tombstone (ki : keyIndex) (main sub : Z) : M Z keyIndex := λ counter,
  if keyIndex_isEmpty ki then
    (Panic ("store.keyindex: unexpected tombstone on empty keyIndex " +:+ key ki), counter)
  else match last (generations ki) with
  | None => (Panic "index out of range", counter)
  | Some g =>
      if generation_isEmpty (Some g) then (Fail ErrRevisionNotFound, counter)
      else
        let '(ki', counter) := keyIndex_put ki main sub [] counter in
        (Ret (mkKeyIndex (key ki') (modified ki') (generations ki' ++ [generation_zero])),
         counter)
  end.

(** [g.walk(f)]: [n] is one more than the position inspected; [None] is [-1]. *)
Fixpoint walk_from (rs : list Revision) (f : Revision → bool) (n : nat) : option nat :=
  match n with
  | O => None
  | S i => match rs !! i with
           | Some r => if negb (f r) then Some i else walk_from rs f i
           | None => None
           end
  end.
Definition generation_walk (g : generation) (f : Revision → bool) : option nat :=
  walk_from (revs g) f (length (revs g)).

(** The loop of [findGeneration]: [n] is the loop's [cg + 1]. *)
Fixpoint findGeneration_loop (gens : list generation) (rev : Z) (n : nat)
    : option generation :=
  match n with
  | O => None
  | S cg =>
      match gens !! cg with
      | None => None
      | Some g =>
          match head (revs g), last (revs g) with
          | Some first, Some tomb =>
              if negb (Nat.eqb cg (pred (length gens))) && (main tomb <=? rev) then None
              else if main first <=? rev then Some g
              else findGeneration_loop gens rev cg
          | _, _ => findGeneration_loop gens rev cg
          end
      end
  end.
Definition keyIndex_findGeneration (ki : keyIndex) (rev : Z) : option generation :=
  findGeneration_loop (generations ki) rev (length (generations ki)).

(** [get]: the revision found, the revision the generation was created at and the
    version. *)
Definition keyIndex_get (ki : keyIndex) (atRev : Z) : outcome (Revision * Revision * Z) :=
  if keyIndex_isEmpty ki then
    Panic ("store.keyindex: unexpected get on empty keyIndex " +:+ key ki)
  else match keyIndex_findGeneration ki atRev with
  | None => Fail ErrRevisionNotFound
  | Some g =>
      if generation_isEmpty (Some g) then Fail ErrRevisionNotFound
      else match generation_walk g (λ rev, atRev <? main rev) with
      | Some n =>
          match revs g !! n with
          | Some r => Ret (r, created g, int64 (ver g - Z.of_nat (length (revs g) - n - 1)))
          | None => Panic "index out of range"
          end
      | None => Fail ErrRevisionNotFound
      end
  end.

(** [since]'s first loop: [for gi = len-1; gi > 0; gi--], down to the generation to
    start from. *)
Fixpoint since_start (gens : list generation) (since : Revision) (gi : nat) : nat :=
  match gi with
  | O => O
  | S gi' =>
      match gens !! gi with
      | Some g =>
          if generation_isEmpty (Some g) then since_start gens since gi'
          else if GreaterThan since (created g) then gi
          else since_start gens since gi'
      | None => gi
      end
  end.

(** The body of [since]'s inner loop, on the state [(revs, last)]; writing
    [revs[len(revs)-1]] of an empty slice panics. *)
Definition since_body (since : Revision) (st : list Revision * Z) (r : Revision)
    : outcome (list Revision * Z) :=
  let '(acc, lst) := st in
  if GreaterThan since r then Ret (acc, lst)
  else if main r =? lst then
    match acc with
    | [] => Panic "index out of range"
    | _ => Ret (<[pred (length acc) := r]> acc, lst)
    end
  else Ret (acc ++ [r], main r).

Fixpoint since_loop (since : Revision) (st : list Revision * Z) (rs : list Revision)
    : outcome (list Revision * Z) :=
  match rs with
  | [] => Ret st
  | r :: rs' => let! st' := since_body since st r in since_loop since st' rs'
  end.

Definition keyIndex_since (ki : keyIndex) (rev : Z) : outcome (list Revision) :=
  if keyIndex_isEmpty ki then
    Panic ("store.keyindex: unexpected get on empty keyIndex " +:+ key ki)
  else if is_nil (generations ki) then Panic "index out of range"
  else
    let since := mkRevision rev 0 [] in
    let gi := since_start (generations ki) since (pred (length (generations ki))) in
    let! st := since_loop since ([], 0) (drop gi (generations ki) ≫= revs) in
    Ret st.1.

Definition keyIndex_Less (a b : keyIndex) : bool := bytes_Less (key a) (key b).

Fixpoint forallb2 {A B} (f : A → B → bool) (l : list A) (k : list B) : bool :=
  match l, k with
  | x :: l', y :: k' => f x y && forallb2 f l' k'
  | _, _ => true
  end.

Definition generation_equal (a b : generation) : bool :=
  if negb (ver a =? ver b) then false
  else if negb (Nat.eqb (length (revs a)) (length (revs b))) then false
  else forallb2 (λ ar br, negb (negb (main ar =? main br) && negb (sub ar =? sub br)))
         (revs a) (revs b).

Definition keyIndex_equal (a b : keyIndex) : bool :=
  if negb (bool_decide (key a = key b)) then false
  else if negb (main (modified a) =? main (modified b)) then false
  else if negb (sub (modified a) =? sub (modified b)) then false
  else if negb (Nat.eqb (length (generations a)) (length (generations b))) then false
  else forallb2 generation_equal (generations a) (generations b).

Definition ErrRevAssumed : error := "the rev to assume is not the latest one".

Definition keyIndex_update (ki : keyIndex) (main' sub : Z) (nodes : list string)
    (revAssumed : Z) : M Z keyIndex := λ counter,
  let revLatest := main (modified ki) in
  if negb (revLatest =? revAssumed) then (Fail ErrRevAssumed, counter)
  else let '(ki', counter) := keyIndex_put ki main' sub nodes counter in (Ret ki', counter).

(** * The downward loops *)

Lemma put_locate_walk rev rs n :
  put_locate rev rs n = walk_from rs (λ r, negb (GreaterThan rev r)) n.
Proof.
  induction n as [|i IH]; simpl; [done|].
  destruct (rs !! i); [|done]. by rewrite negb_involutive, IH.
Qed.

Lemma walk_from_Some rs f n i :
  walk_from rs f n = Some i →
  (i < n)%nat ∧ (∃ r, rs !! i = Some r ∧ f r = false) ∧
  ∀ j r, (i < j < n)%nat → rs !! j = Some r → f r = true.
Proof.
  induction n as [|k IH]; simpl; [done|].
  destruct (rs !! k) as [r|] eqn:Hk; [|done].
  destruct (f r) eqn:Hf; simpl.
  - intros (Hi & Hr & Hj)%IH. split; [lia|]. split; [done|].
    intros j r' Hlt Hr'. destruct (decide (j = k)) as [->|]; [congruence|].
    eapply Hj; [|done]. lia.
  - intros [= <-]. split; [lia|]. split; [eauto|]. lia.
Qed.

Lemma walk_from_None rs f n :
  (n ≤ length rs)%nat → walk_from rs f n = None →
  ∀ j r, (j < n)%nat → rs !! j = Some r → f r = true.
Proof.
  induction n as [|k IH]; simpl; [lia|]. intros Hlen.
  destruct (lookup_lt_is_Some_2 rs k) as [r Hk]; [lia|]. rewrite Hk.
  destruct (f r) eqn:Hf; simpl; [|done]. intros Hn j r' Hj Hr'.
  destruct (decide (j = k)) as [->|]; [congruence|].
  eapply IH; [lia|done| |done]. lia.
Qed.

(** [walk] finds the last element on which [f] is false. *)
Lemma walk_last_filter g f (P : Revision → Prop) `{∀ x, Decision (P x)} :
  (∀ r, f r = false ↔ P r) →
  last (filter P (revs g)) = (generation_walk g f ≫= λ n, revs g !! n).
Proof.
  intros HfP. unfold generation_walk. set (rs := revs g).
  destruct (walk_from rs f (length rs)) as [i|] eqn:Hw; simpl.
  - apply walk_from_Some in Hw as (Hi & (r & Hr & Hf) & Hj). rewrite Hr.
    rewrite <- (take_drop_middle _ _ _ Hr), filter_app, filter_cons_True by (by apply HfP).
    assert (filter P (drop (S i) rs) = []) as ->.
    { apply filter_none. intros j x Hx. rewrite lookup_drop in Hx.
      rewrite <- HfP, (Hj (S i + j)%nat x); [done| |done].
      apply lookup_lt_Some in Hx. lia. }
    by rewrite last_snoc.
  - assert (filter P rs = []) as ->; [|done].
    apply filter_none. intros j x Hx.
    rewrite <- HfP, (walk_from_None _ _ _ (le_n _) Hw j x); [done| |done].
    by apply lookup_lt_Some in Hx.
Qed.

(** * What [put] does to the generations *)

Section put.
Context (ki : keyIndex) (m s : Z) (ns : list string) (c : Z).
Let rev := mkRevision m s ns.

(** The revisions of the current generation after the put. *)
Definition put_revs (md : Revision) (rs : list Revision) (rev : Revision) : list Revision :=
  if GreaterThan rev md then rs ++ [rev]
  else match put_locate rev rs (length rs) with
       | None => rev :: rs
       | Some i => take (S i) rs ++ rev :: drop (S i) rs
       end.

Definition put_gen (md : Revision) (g : generation) (rev : Revision) (c : Z) : generation :=
  mkGeneration (if GreaterThan rev md then int64 (ver g + 1) else ver g)
    (if is_nil (revs g) then mkRevision (int64 (GetGlobalIncreasingRevision c).1) 0 []
     else created g)
    (put_revs md (revs g) rev).

Definition put_counter (g : generation) (c : Z) : Z :=
  if is_nil (revs g) then (GetGlobalIncreasingRevision c).2 else c.

Definition put_modified (md rev : Revision) : Revision :=
  if GreaterThan rev md then rev else md.

Lemma keyIndex_put_gens gens gs g :
  gens = gs ++ [g] →
  (if is_nil (generations ki) then [generation_zero] else generations ki) = gens →
  keyIndex_put ki m s ns c =
    (mkKeyIndex (key ki) (put_modified (modified ki) rev)
       (gs ++ [put_gen (modified ki) g rev c]), put_counter g c).
Proof.
  intros -> Hg. unfold keyIndex_put. rewrite Hg, last_snoc. simpl. fold rev.
  assert (∀ x, <[pred (length (gs ++ [g])):=x]> (gs ++ [g]) = gs ++ [x]) as Hins.
  { intros x. rewrite length_app, Nat.add_1_r. simpl.
    rewrite insert_app_r_alt by lia. by rewrite Nat.sub_diag. }
  unfold put_gen, put_counter, put_modified, put_revs.
  destruct (is_nil (revs g)), (GreaterThan rev (modified ki)); by rewrite Hins.
Qed.

Lemma keyIndex_put_snoc gs g :
  generations ki = gs ++ [g] →
  keyIndex_put ki m s ns c =
    (mkKeyIndex (key ki) (put_modified (modified ki) rev)
       (gs ++ [put_gen (modified ki) g rev c]), put_counter g c).
Proof.
  intros Hg. eapply keyIndex_put_gens; [done|]. rewrite Hg. by destruct gs.
Qed.

Lemma keyIndex_put_fresh :
  generations ki = [] →
  keyIndex_put ki m s ns c =
    (mkKeyIndex (key ki) (put_modified (modified ki) rev)
       [put_gen (modified ki) generation_zero rev c], put_counter generation_zero c).
Proof. intros Hg. apply (keyIndex_put_gens [generation_zero] []); [done|]. by rewrite Hg. Qed.
End put.

(** An old revision goes after everything below it and before everything else; a
    new one goes last. *)
Lemma put_revs_split md rs rev :
  Forall (λ r, rev_le r md) rs → StronglySorted rev_le rs →
  ∃ l1 l2, rs = l1 ++ l2 ∧ put_revs md rs rev = l1 ++ rev :: l2 ∧
           Forall (λ r, rev_lt r rev) l1 ∧ Forall (rev_le rev) l2.
Proof.
  intros Hmd Hs. unfold put_revs. destruct (GreaterThan rev md) eqn:Hgt.
  { exists rs, []. rewrite app_nil_r. split_and!; [done..| |done].
    eapply Forall_impl; [done|]. simpl. eauto with rkv. }
  rewrite put_locate_walk.
  destruct (walk_from _ _ _) as [i|] eqn:Hw.
  - apply walk_from_Some in Hw as (Hi & (r & Hr & Hf) & Hj).
    apply negb_false_iff in Hf.
    exists (take (S i) rs), (drop (S i) rs). split_and!; [by rewrite take_drop|done| |].
    + rewrite (take_S_r _ _ _ Hr). apply Forall_app. split; [|by repeat constructor].
      rewrite <- (take_drop_middle _ _ _ Hr) in Hs. apply StronglySorted_app in Hs.
      apply Forall_forall. intros x Hx. apply (rev_le_lt_trans _ r); [|done].
      apply Hs; [done|]. by left.
    + apply Forall_lookup_2. intros j x Hx. rewrite lookup_drop in Hx.
      assert (negb (GreaterThan rev x) = true) as Hx'%negb_true_iff; [|done].
      apply (Hj (S i + j)%nat); [|done]. apply lookup_lt_Some in Hx. lia.
  - exists [], rs. split_and!; [done..|]. apply Forall_lookup_2. intros j x Hx.
    assert (negb (GreaterThan rev x) = true) as Hx'%negb_true_iff; [|done].
    eapply (walk_from_None _ _ _ (le_n _) Hw); [|done]. by eapply lookup_lt_Some.
Qed.

(** * The invariant *)

(** Every generation is in order, [modified] is above everything, and only the
    last generation may be empty (and not when it is the only one). *)
Definition gen_ok (md : Revision) (g : generation) : Prop :=
  StronglySorted rev_le (revs g) ∧ Forall (λ r, rev_le r md) (revs g).

Definition ki_ok (ki : keyIndex) : Prop :=
  ∃ gs g, generations ki = gs ++ [g] ∧
    Forall (λ g, revs g ≠ []) gs ∧ (gs = [] → revs g ≠ []) ∧
    Forall (gen_ok (modified ki)) (gs ++ [g]).

Lemma put_revs_not_nil md rs rev : put_revs md rs rev ≠ [].
Proof.
  unfold put_revs. destruct (GreaterThan rev md); [by destruct rs|].
  destruct (put_locate _ _ _); [|done]. by destruct (take _ _).
Qed.

Lemma put_modified_le md rev : rev_le md (put_modified md rev) ∧ rev_le rev (put_modified md rev).
Proof. unfold put_modified. destruct (GreaterThan rev md) eqn:E; split; rev_lia. Qed.

Lemma gen_ok_mono md md' g : rev_le md md' → gen_ok md g → gen_ok md' g.
Proof.
  intros Hle [Hs HF]. split; [done|]. eapply Forall_impl; [done|].
  intros r Hr. rev_lia.
Qed.

Lemma put_gen_ok md g rev c : gen_ok md g → gen_ok (put_modified md rev) (put_gen md g rev c).
Proof.
  intros [Hs HF]. destruct (put_modified_le md rev) as [Hmd Hrev].
  destruct (put_revs_split md (revs g) rev HF Hs) as (l1 & l2 & E & E' & H1 & H2).
  assert (Forall (λ r, rev_le r (put_modified md rev)) (revs g)) as HF'.
  { eapply Forall_impl; [done|]. intros r Hr. rev_lia. }
  unfold gen_ok. cbn [put_gen revs]. rewrite E'. rewrite E in Hs, HF'. split.
  - apply StronglySorted_insert; [done| |done].
    eapply Forall_impl; [done|]. simpl. eauto with rkv.
  - apply Forall_app in HF' as [??]. apply Forall_app. by repeat constructor.
Qed.

Lemma gen_ok_zero md : gen_ok md generation_zero.
Proof. split; constructor. Qed.

(** The first put into a new key index, and any later one. *)
Lemma keyIndex_put_ok ki m s ns c :
  generations ki = [] ∨ ki_ok ki → ki_ok (keyIndex_put ki m s ns c).1.
Proof.
  intros [Hnil|(gs & g & E & Hne & H1 & HF)].
  - rewrite keyIndex_put_fresh by done. exists [], (put_gen (modified ki) generation_zero (mkRevision m s ns) c).
    split_and!; [done|constructor|intros _; apply put_revs_not_nil|].
    apply Forall_singleton, put_gen_ok, gen_ok_zero.
  - rewrite (keyIndex_put_snoc _ _ _ _ _ gs g) by done.
    exists gs, (put_gen (modified ki) g (mkRevision m s ns) c).
    split_and!; [done|done|intros _; apply put_revs_not_nil|].
    apply Forall_app in HF as [HF Hg]. rewrite Forall_singleton in Hg. cbn [modified fst].
    apply Forall_app; split.
    + eapply Forall_impl; [done|]. intros g'. apply gen_ok_mono, put_modified_le.
    + apply Forall_singleton. by apply put_gen_ok.
Qed.

Lemma ki_ok_not_empty ki : ki_ok ki → keyIndex_isEmpty ki = false.
Proof.
  intros (gs & g & E & Hne & H1 & _). unfold keyIndex_isEmpty. rewrite E.
  destruct gs as [|g' [|]]; [|done..]. simpl.
  specialize (H1 eq_refl). by destruct (revs g).
Qed.

Lemma is_nil_false {A} (l : list A) : l ≠ [] → is_nil l = false.
Proof. by destruct l. Qed.

(** [tombstone] on an index that holds the invariant: not found when the key is
    already deleted, otherwise a put followed by a fresh empty generation. *)
Lemma keyIndex_tombstone_spec ki gs g m s c :
  ki_ok ki → generations ki = gs ++ [g] →
  keyIndex_tombstone ki m s c =
    if is_nil (revs g) then (Fail ErrRevisionNotFound, c)
    else (Ret (mkKeyIndex (key ki) (put_modified (modified ki) (mkRevision m s []))
                 (gs ++ [put_gen (modified ki) g (mkRevision m s []) c; generation_zero])), c).
Proof.
  intros Hok Hg. unfold keyIndex_tombstone.
  rewrite ki_ok_not_empty, Hg, last_snoc by done. simpl.
  destruct (is_nil (revs g)) eqn:En; [done|].
  rewrite (keyIndex_put_snoc _ _ _ _ _ gs g) by done. simpl.
  unfold put_counter. rewrite En. by rewrite <- (assoc_L (++)).
Qed.
