(* ===== verification/KeyHistory.v ===== *)
(** What the generations of a key index mean: the history of the key.

    [history] reads a key index as the list of puts and deletions that happened to
    the key; [get] and [since] are shown to answer from that list, [put] and
    [tombstone] to extend it, for every reachable key index ([ki_reach], rule
    induction over the operations).  With revisions that only grow, a key index
    refines an abstract log ([spec_step]); with revisions that arrive out of order,
    two theorems show what goes wrong. *)
From Stdlib Require Import Ascii.
From stdpp Require Import base gmap sets list strings pretty sorting.
From S2P Require Import Prelude GoStd Revision KeyIndex.

Open Scope Z_scope.

(** * The history of a key

    Abstractly a key is the list of what happened to it, in order: puts and
    deletions, each at a revision.  A read at revision [atRev] sees the last
    event at or before it. *)

Inductive event := EvPut (r : Revision) | EvTomb (r : Revision).

Definition ev_rev (e : event) : Revision := match e with EvPut r | EvTomb r => r end.

Definition ev_at (atRev : Z) (e : event) : Prop := main (ev_rev e) ≤ atRev.
#[global] Instance ev_at_dec atRev e : Decision (ev_at atRev e).
Proof. unfold ev_at. apply _. Defined.

Definition hist_get (h : list event) (atRev : Z) : option Revision :=
  match last (filter (ev_at atRev) h) with
  | Some (EvPut r) => Some r
  | _ => None
  end.

(** The events of a finished generation, whose last revision is its tombstone,
    and of the current one. *)
Definition closed_events (g : generation) : list event :=
  (EvPut <$> take (pred (length (revs g))) (revs g)) ++
  (EvTomb <$> drop (pred (length (revs g))) (revs g)).
Definition open_events (g : generation) : list event := EvPut <$> revs g.

Definition history (ki : keyIndex) : list event :=
  let gens := generations ki in
  (take (pred (length gens)) gens ≫= closed_events) ++
  from_option open_events [] (last gens).

Lemma history_snoc ki gs g :
  generations ki = gs ++ [g] → history ki = (gs ≫= closed_events) ++ open_events g.
Proof.
  intros E. unfold history. rewrite E, last_snoc, length_app, Nat.add_1_r. simpl.
  by rewrite take_app_length.
Qed.

Lemma history_mk k md gs g :
  history (mkKeyIndex k md (gs ++ [g])) = (gs ≫= closed_events) ++ open_events g.
Proof. by apply history_snoc. Qed.
Lemma history_mk1 k md g : history (mkKeyIndex k md [g]) = open_events g.
Proof. by apply (history_mk k md []). Qed.

Lemma hist_get_app h1 h2 atRev :
  hist_get (h1 ++ h2) atRev =
    if is_nil (filter (ev_at atRev) h2) then hist_get h1 atRev else hist_get h2 atRev.
Proof.
  unfold hist_get. rewrite filter_app, last_app.
  destruct (filter (ev_at atRev) h2) as [|e l] eqn:E; [done|].
  destruct (last_is_Some (e :: l)) as [_ [x ->]]; done.
Qed.

Lemma filter_fmap_put atRev (rs : list Revision) :
  filter (ev_at atRev) (EvPut <$> rs) = EvPut <$> filter (λ r, main r ≤ atRev) rs.
Proof.
  induction rs as [|r rs IH]; [done|]. rewrite fmap_cons.
  destruct (decide (main r ≤ atRev)).
  - rewrite filter_cons_True, (filter_cons_True (λ r, main r ≤ atRev)) by done. by rewrite IH.
  - rewrite filter_cons_False, (filter_cons_False (λ r, main r ≤ atRev)) by done. by rewrite IH.
Qed.

(** A generation whose first revision is after [atRev] is wholly after it. *)
Lemma gen_after md g r atRev :
  gen_ok md g → head (revs g) = Some r → atRev < main r →
  Forall (λ r, ¬ main r ≤ atRev) (revs g).
Proof.
  intros [Hs _] Hh Hlt. destruct (revs g) as [|r0 rs]; [done|]. simplify_eq/=.
  constructor; [lia|]. apply Forall_forall. intros x Hx.
  assert (rev_le r x) by (by eapply StronglySorted_head). rev_lia.
Qed.

Lemma closed_events_revs g : ev_rev <$> closed_events g = revs g.
Proof.
  unfold closed_events. rewrite fmap_app, <- !list_fmap_compose.
  rewrite !(list_fmap_ext _ id) by done. by rewrite !list_fmap_id, take_drop.
Qed.
Lemma open_events_revs g : ev_rev <$> open_events g = revs g.
Proof.
  unfold open_events. rewrite <- !list_fmap_compose.
  rewrite !(list_fmap_ext _ id) by done. by rewrite list_fmap_id.
Qed.

(** The revisions of the history are those of the generations, in order. *)
Lemma history_revs ki : ev_rev <$> history ki = generations ki ≫= revs.
Proof.
  destruct (generations ki) as [|g gs _] eqn:E using rev_ind.
  { unfold history. by rewrite E. }
  rewrite (history_snoc _ _ _ E), fmap_app, open_events_revs, bind_app. f_equal.
  - clear E. induction gs as [|g' gs IH]; [done|].
    by rewrite !bind_cons, fmap_app, closed_events_revs, IH.
  - simpl. by rewrite app_nil_r.
Qed.

Lemma events_after (evs : list event) atRev :
  Forall (λ r, ¬ main r ≤ atRev) (ev_rev <$> evs) → filter (ev_at atRev) evs = [].
Proof.
  rewrite Forall_fmap. intros HF. apply filter_none. intros i e He.
  by eapply (Forall_lookup_1 _ _ _ _ HF) in He.
Qed.

(** The part of [get] after [findGeneration]. *)
Definition gen_get (g : generation) (atRev : Z) : outcome (Revision * Revision * Z) :=
  match generation_walk g (λ rev, atRev <? main rev) with
  | Some n =>
      match revs g !! n with
      | Some r => Ret (r, created g, int64 (ver g - Z.of_nat (length (revs g) - n - 1)))
      | None => Panic "index out of range"
      end
  | None => Fail ErrRevisionNotFound
  end.

Lemma keyIndex_get_ok ki atRev :
  ki_ok ki →
  keyIndex_get ki atRev =
    from_option (λ g, gen_get g atRev) (Fail ErrRevisionNotFound)
      (keyIndex_findGeneration ki atRev).
Proof.
  intros Hok. unfold keyIndex_get. rewrite ki_ok_not_empty by done.
  destruct (keyIndex_findGeneration ki atRev) as [g|] eqn:E; [|done]. simpl.
  unfold gen_get, generation_walk. by destruct (revs g).
Qed.

(** What [get] answers for the revision [r] found: its place [n] in the
    generation [g] gives the creation revision and the version. *)
Definition get_answer (gens : list generation) (o : option Revision)
    (res : outcome (Revision * Revision * Z)) : Prop :=
  match o with
  | None => res = Fail ErrRevisionNotFound
  | Some r => ∃ g n, g ∈ gens ∧ revs g !! n = Some r ∧
      res = Ret (r, created g, int64 (ver g - Z.of_nat (length (revs g) - n - 1)))
  end.

Lemma gen_get_answer g gens atRev :
  g ∈ gens →
  get_answer gens (last (filter (λ r, main r ≤ atRev) (revs g))) (gen_get g atRev).
Proof.
  intros Hg. rewrite (walk_last_filter g (λ rev, atRev <? main rev))
    by (intros r; by rewrite Z.ltb_ge).
  unfold gen_get. destruct (generation_walk _ _) as [n|] eqn:Hw; [|done]. simpl.
  apply walk_from_Some in Hw as (_ & (r & Hr & _) & _). rewrite Hr. simpl. eauto 10.
Qed.

Lemma hist_get_open g atRev :
  hist_get (open_events g) atRev = last (filter (λ r, main r ≤ atRev) (revs g)).
Proof.
  unfold hist_get, open_events. rewrite filter_fmap_put, fmap_last.
  by destruct (last _).
Qed.

Lemma revs_closed g tomb :
  last (revs g) = Some tomb →
  ∃ rs, revs g = rs ++ [tomb] ∧ closed_events g = (EvPut <$> rs) ++ [EvTomb tomb].
Proof.
  intros [rs Hrs]%last_Some. exists rs. split; [done|].
  unfold closed_events. rewrite Hrs, length_app, Nat.add_1_r. simpl.
  by rewrite take_app_length, drop_app_length.
Qed.

Lemma hist_get_closed g tomb atRev :
  last (revs g) = Some tomb →
  hist_get (closed_events g) atRev =
    if main tomb <=? atRev then None else last (filter (λ r, main r ≤ atRev) (revs g)).
Proof.
  intros (rs & E & ->)%revs_closed. rewrite hist_get_app, E, filter_app.
  destruct (Z.leb_spec (main tomb) atRev).
  - unfold hist_get. rewrite filter_cons_True by done. done.
  - rewrite filter_cons_False by (unfold ev_at; simpl; lia).
    rewrite (filter_cons_False (λ r, main r ≤ atRev)) by lia. simpl.
    rewrite app_nil_r. unfold hist_get. rewrite filter_fmap_put, fmap_last.
    by destruct (last _).
Qed.

Lemma filter_open_first g r atRev :
  head (revs g) = Some r → main r ≤ atRev →
  is_nil (filter (ev_at atRev) (open_events g)) = false.
Proof.
  intros Hh Hr. unfold open_events. destruct (revs g) as [|r0 rs]; [done|].
  simplify_eq/=. by rewrite filter_cons_True.
Qed.

Lemma filter_closed_some g atRev r :
  (∃ i, revs g !! i = Some r) → main r ≤ atRev →
  is_nil (filter (ev_at atRev) (closed_events g)) = false.
Proof.
  intros [i Hi] Hr. apply is_nil_false. intros Hnil.
  rewrite <- (closed_events_revs g), list_lookup_fmap, fmap_Some in Hi.
  destruct Hi as (e & He & ->).
  by eapply (filter_nil_not_elem_of _ _ e Hnil Hr), list_elem_of_lookup_2.
Qed.

(** The loop over the finished generations. *)
Lemma findGeneration_closed md gs g atRev n :
  Forall (λ g, revs g ≠ []) gs → Forall (gen_ok md) gs → (n ≤ length gs)%nat →
  get_answer (gs ++ [g]) (hist_get (take n gs ≫= closed_events) atRev)
    (from_option (λ g, gen_get g atRev) (Fail ErrRevisionNotFound)
       (findGeneration_loop (gs ++ [g]) atRev n)).
Proof.
  intros Hne HF. induction n as [|n IH]; intros Hn; [done|].
  destruct (lookup_lt_is_Some_2 gs n) as [g' Hg']; [lia|].
  rewrite (take_S_r _ _ _ Hg'), bind_app, hist_get_app. simpl. rewrite app_nil_r.
  rewrite lookup_app_l, Hg' by lia.
  pose proof (Forall_lookup_1 _ _ _ _ HF Hg') as Hok.
  pose proof (Forall_lookup_1 _ _ _ _ Hne Hg') as Hnil. simpl in Hnil.
  destruct (head (revs g')) as [first|] eqn:Hh; [|by destruct (revs g')].
  destruct (last (revs g')) as [tomb|] eqn:Hl; [|by apply last_None in Hl].
  rewrite length_app, Nat.add_1_r. simpl.
  rewrite (proj2 (Nat.eqb_neq _ _)) by lia. simpl.
  pose proof (hist_get_closed g' tomb atRev Hl) as Hget.
  destruct (Z.leb_spec (main tomb) atRev) as [Ht|Ht].
  { rewrite (filter_closed_some _ _ tomb); [by rewrite Hget| |done].
    apply list_elem_of_lookup. by apply last_Some_elem_of. }
  destruct (Z.leb_spec (main first) atRev) as [Hf|Hf].
  - rewrite (filter_closed_some _ _ first); [|exists 0%nat; by destruct (revs g')|done].
    rewrite Hget. simpl. apply gen_get_answer.
    apply elem_of_app. left. by eapply list_elem_of_lookup_2.
  - rewrite events_after; [|rewrite closed_events_revs; by eapply gen_after].
    simpl. apply IH. lia.
Qed.

Lemma keyIndex_get_answer ki atRev :
  ki_ok ki →
  get_answer (generations ki) (hist_get (history ki) atRev) (keyIndex_get ki atRev).
Proof.
  intros Hok. rewrite keyIndex_get_ok by done.
  destruct Hok as (gs & g & E & Hne & H1 & HF). unfold keyIndex_findGeneration.
  rewrite (history_snoc _ _ _ E), E, length_app, Nat.add_1_r. simpl.
  rewrite lookup_app_r, Nat.sub_diag by lia. simpl.
  apply Forall_app in HF as [HF Hg]. rewrite Forall_singleton in Hg.
  rewrite hist_get_app, length_app, Nat.add_1_r. simpl. rewrite Nat.eqb_refl. simpl.
  pose proof (findGeneration_closed _ gs g atRev (length gs) Hne HF (le_n _)) as Hrest.
  rewrite take_ge in Hrest by lia.
  destruct (head (revs g)) as [first|] eqn:Hh.
  2:{ assert (revs g = []) as Hnil by (by destruct (revs g)).
      unfold open_events. by rewrite Hnil. }
  destruct (last (revs g)) as [tomb|] eqn:Hl.
  2:{ apply last_None in Hl. by rewrite Hl in Hh. }
  destruct (Z.leb_spec (main first) atRev) as [Hf|Hf].
  - rewrite (filter_open_first _ first) by done. rewrite hist_get_open.
    apply gen_get_answer. apply elem_of_app. right. by left.
  - rewrite events_after; [done|]. rewrite open_events_revs. by eapply gen_after.
Qed.

(** ** The operations on the history *)

(** In order: the revision is above everything already there. *)
Lemma keyIndex_put_history_new ki m s ns c :
  generations ki = [] ∨ ki_ok ki → GreaterThan (mkRevision m s ns) (modified ki) = true →
  history (keyIndex_put ki m s ns c).1 = history ki ++ [EvPut (mkRevision m s ns)].
Proof.
  intros Hok Hgt. destruct Hok as [Hnil|(gs & g & E & _)].
  - rewrite keyIndex_put_fresh by done. cbn [fst].
    rewrite history_mk1. unfold open_events, put_gen, put_revs. simpl.
    rewrite Hgt. unfold history. by rewrite Hnil.
  - rewrite (keyIndex_put_snoc _ _ _ _ _ gs g) by done. cbn [fst].
    rewrite (history_snoc _ _ _ E), history_mk.
    unfold open_events, put_gen, put_revs. cbn [revs]. rewrite Hgt.
    by rewrite fmap_app, (assoc_L (++)).
Qed.

(** Any revision: it enters the current generation at its place in the order. *)
Lemma keyIndex_put_history ki gs g m s ns c :
  ki_ok ki → generations ki = gs ++ [g] →
  ∃ l1 l2, revs g = l1 ++ l2 ∧
    Forall (λ r, rev_lt r (mkRevision m s ns)) l1 ∧ Forall (rev_le (mkRevision m s ns)) l2 ∧
    history (keyIndex_put ki m s ns c).1 =
      (gs ≫= closed_events) ++ (EvPut <$> l1) ++ EvPut (mkRevision m s ns) :: (EvPut <$> l2).
Proof.
  intros (gs' & g' & E' & _ & _ & HF) E. rewrite E' in E.
  apply app_inj_2 in E as [-> [= ->]]; [|done].
  apply Forall_app in HF as [_ Hg]. rewrite Forall_singleton in Hg. destruct Hg as [Hs HF].
  destruct (put_revs_split _ _ (mkRevision m s ns) HF Hs) as (l1 & l2 & El & Ep & H1 & H2).
  exists l1, l2. split_and!; [done..|].
  rewrite (keyIndex_put_snoc _ _ _ _ _ gs g) by done. cbn [fst].
  rewrite history_mk. unfold open_events, put_gen. cbn [revs].
  rewrite Ep, fmap_app. done.
Qed.

Lemma keyIndex_tombstone_ok ki m s c ki' c' :
  ki_ok ki → keyIndex_tombstone ki m s c = (Ret ki', c') → ki_ok ki'.
Proof.
  intros Hok. pose proof Hok as (gs & g & E & Hne & H1 & HF).
  rewrite (keyIndex_tombstone_spec _ gs g) by done.
  destruct (is_nil (revs g)) eqn:En; [done|]. intros [= <- <-].
  exists (gs ++ [put_gen (modified ki) g (mkRevision m s []) c]), generation_zero. split_and!.
  - by rewrite <- (assoc_L (++)).
  - apply Forall_app. split; [done|]. apply Forall_singleton, put_revs_not_nil.
  - by destruct gs.
  - pose proof (keyIndex_put_ok ki m s [] c (or_intror Hok)) as (gs' & g' & E' & _ & _ & HF').
    rewrite (keyIndex_put_snoc _ _ _ _ _ gs g) in E', HF' by done.
    cbn [fst generations modified] in *. rewrite <- E' in HF'.
    apply Forall_app. split; [done|]. apply Forall_singleton, gen_ok_zero.
Qed.

(** A deletion in order appends a deletion event. *)
Lemma keyIndex_tombstone_history_new ki m s c ki' c' :
  ki_ok ki → GreaterThan (mkRevision m s []) (modified ki) = true →
  keyIndex_tombstone ki m s c = (Ret ki', c') →
  history ki' = history ki ++ [EvTomb (mkRevision m s [])].
Proof.
  intros Hok Hgt. pose proof Hok as (gs & g & E & _).
  rewrite (keyIndex_tombstone_spec _ gs g) by done.
  destruct (is_nil (revs g)) eqn:En; [done|]. intros [= <- <-].
  rewrite (history_snoc _ _ _ E).
  rewrite (history_snoc _ (gs ++ [put_gen (modified ki) g (mkRevision m s []) c])
    generation_zero) by (by rewrite <- (assoc_L (++))).
  rewrite bind_app. cbn [open_events generation_zero revs fmap list_fmap]. rewrite app_nil_r.
  cbn [mbind list_bind]. rewrite app_nil_r, <- (assoc_L (++)). f_equal.
  unfold closed_events, open_events, put_gen, put_revs. cbn [revs]. rewrite Hgt.
  rewrite length_app, Nat.add_1_r. simpl.
  by rewrite take_app_length, drop_app_length.
Qed.

(** The read of the newest revision, as [treeIndex.Get] does it. *)
Lemma hist_get_snoc h e atRev :
  main (ev_rev e) ≤ atRev →
  hist_get (h ++ [e]) atRev = match e with EvPut r => Some r | EvTomb _ => None end.
Proof.
  intros. rewrite hist_get_app, filter_cons_True by done. simpl.
  unfold hist_get. rewrite filter_cons_True by done. by destruct e.
Qed.

Lemma keyIndex_put_modified ki m s ns c :
  modified (keyIndex_put ki m s ns c).1 = put_modified (modified ki) (mkRevision m s ns).
Proof.
  unfold keyIndex_put, put_modified.
  destruct (is_nil (revs _)), (GreaterThan _ _); reflexivity.
Qed.

Lemma keyIndex_put_key ki m s ns c : key (keyIndex_put ki m s ns c).1 = key ki.
Proof.
  unfold keyIndex_put. destruct (is_nil (revs _)), (GreaterThan _ _); reflexivity.
Qed.

(** * Ordered histories: versions *)

(** When no put was ever out of order the revisions of all generations form one
    increasing sequence and [ver] counts the revisions of the generation. *)
Definition ki_ordered (ki : keyIndex) : Prop :=
  StronglySorted rev_lt (generations ki ≫= revs) ∧
  Forall (λ g, ver g = Z.of_nat (length (revs g)) ∧ ver g < 2^63) (generations ki).

Lemma gens_below md gens :
  Forall (gen_ok md) gens → Forall (λ r, rev_le r md) (gens ≫= revs).
Proof.
  induction 1 as [|g gens [_ Hg] _ IH]; simpl; [constructor|]. by apply Forall_app.
Qed.

Lemma keyIndex_put_ordered ki m s ns c :
  generations ki = [] ∨ ki_ok ki → ki_ordered ki →
  GreaterThan (mkRevision m s ns) (modified ki) = true →
  Forall (λ g, ver g < 2^63 - 1) (generations ki) →
  ki_ordered (keyIndex_put ki m s ns c).1.
Proof.
  intros Hok [Hs Hv] Hgt Hlen. set (rev := mkRevision m s ns) in *.
  destruct Hok as [Hnil|(gs & g & E & _ & _ & HF)].
  - rewrite keyIndex_put_fresh by done. fold rev. split; cbn [fst generations].
    + unfold put_gen, put_revs. cbn. rewrite Hgt. simpl. repeat constructor.
    + apply Forall_singleton. unfold put_gen, put_revs. cbn. rewrite Hgt. done.
  - rewrite (keyIndex_put_snoc _ _ _ _ _ gs g) by done. fold rev.
    unfold ki_ordered. cbn [fst generations]. rewrite E in Hs, Hv, Hlen.
    apply gens_below in HF. rewrite bind_app in *. cbn [mbind list_bind] in *.
    rewrite app_nil_r in *. unfold put_gen, put_revs. cbn [revs]. rewrite Hgt. split.
    + rewrite (assoc_L (++)). apply StronglySorted_snoc; [done|].
      eapply Forall_impl; [done|]. simpl. eauto with rkv.
    + apply Forall_app in Hv as [Hv Hg]. apply Forall_app in Hlen as [_ Hlen].
      rewrite Forall_singleton in Hg, Hlen. apply Forall_app. split; [done|].
      apply Forall_singleton. cbn [ver revs]. rewrite length_app. simpl.
      rewrite int64_id by word_lia. lia.
Qed.

Lemma keyIndex_tombstone_ordered ki m s c ki' c' :
  ki_ok ki → ki_ordered ki → GreaterThan (mkRevision m s []) (modified ki) = true →
  Forall (λ g, ver g < 2^63 - 1) (generations ki) →
  keyIndex_tombstone ki m s c = (Ret ki', c') → ki_ordered ki'.
Proof.
  intros Hok Hord Hgt Hlen. pose proof Hok as (gs & g & E & _).
  pose proof (keyIndex_put_ordered ki m s [] c (or_intror Hok) Hord Hgt Hlen) as [Hs Hv].
  rewrite (keyIndex_put_snoc _ _ _ _ _ gs g) in Hs, Hv by done.
  cbn [fst generations] in Hs, Hv.
  rewrite (keyIndex_tombstone_spec _ gs g) by done.
  destruct (is_nil (revs g)); [done|]. intros [= <- <-].
  unfold ki_ordered. cbn [generations].
  change [put_gen (modified ki) g (mkRevision m s []) c; generation_zero] with
    ([put_gen (modified ki) g (mkRevision m s []) c] ++ [generation_zero]).
  rewrite (assoc_L (++)). split.
  - rewrite bind_app. cbn. by rewrite app_nil_r.
  - apply Forall_app. split; [done|]. by apply Forall_singleton.
Qed.

(** * Reachable key indexes *)

(** Every state a key index in the tree can be in: created by a first put or a
    restore, then any puts, deletions and updates, in any order of revisions. *)
Inductive ki_reach : keyIndex → Prop :=
  | reach_new k m s ns c : ki_reach (keyIndex_put (newKeyIndex k) m s ns c).1
  | reach_restore k cr md v ki :
      keyIndex_restore (newKeyIndex k) cr md v = Ret ki → ki_reach ki
  | reach_put ki m s ns c : ki_reach ki → ki_reach (keyIndex_put ki m s ns c).1
  | reach_tombstone ki m s c ki' c' :
      ki_reach ki → keyIndex_tombstone ki m s c = (Ret ki', c') → ki_reach ki'
  | reach_update ki m s ns a c ki' c' :
      ki_reach ki → keyIndex_update ki m s ns a c = (Ret ki', c') → ki_reach ki'.

Lemma keyIndex_update_put ki m s ns a c :
  keyIndex_update ki m s ns a c =
    if main (modified ki) =? a
    then (Ret (keyIndex_put ki m s ns c).1, (keyIndex_put ki m s ns c).2)
    else (Fail ErrRevAssumed, c).
Proof.
  unfold keyIndex_update. destruct (_ =? _); simpl; [|done].
  by destruct (keyIndex_put _ _ _ _ _).
Qed.

Lemma keyIndex_restore_ok k cr md v ki :
  keyIndex_restore (newKeyIndex k) cr md v = Ret ki → ki_ok ki.
Proof.
  intros [= <-]. exists [], (mkGeneration v cr [md]). split_and!; [done|constructor|done|].
  apply Forall_singleton. split; simpl; repeat constructor. reflexivity.
Qed.

Lemma ki_reach_ok ki : ki_reach ki → ki_ok ki.
Proof.
  induction 1 as [k m s ns c|k cr md v ki H|ki m s ns c _ IH|ki m s c ki' c' _ IH H
                 |ki m s ns a c ki' c' _ IH H].
  - apply keyIndex_put_ok. by left.
  - by eapply keyIndex_restore_ok.
  - apply keyIndex_put_ok. by right.
  - by eapply keyIndex_tombstone_ok.
  - rewrite keyIndex_update_put in H. destruct (_ =? _); [|done]. injection H as <- _.
    apply keyIndex_put_ok. by right.
Qed.
#[export] Hint Resolve ki_reach_ok : rkv.

(** A put adds its revision to the generation, and to those of the key. *)
Lemma put_gen_revs md g rev c : gen_ok md g → revs (put_gen md g rev c) ≡ₚ rev :: revs g.
Proof.
  intros [Hs HF]. destruct (put_revs_split md (revs g) rev HF Hs) as (l1 & l2 & E & E' & _).
  cbn [put_gen revs]. rewrite E', E. by rewrite Permutation_middle.
Qed.

Lemma put_all_revs ki m s ns c :
  generations ki = [] ∨ ki_ok ki →
  generations (keyIndex_put ki m s ns c).1 ≫= revs ≡ₚ
    mkRevision m s ns :: (generations ki ≫= revs).
Proof.
  intros [Hnil|(gs & g & E & _ & _ & HF)].
  - rewrite keyIndex_put_fresh, Hnil by done. cbn [fst generations mbind list_bind].
    rewrite app_nil_r. apply (put_gen_revs _ _ _ _ (gen_ok_zero _)).
  - rewrite (keyIndex_put_snoc _ _ _ _ _ gs g), E by done. cbn [fst generations].
    rewrite !bind_app. cbn [mbind list_bind]. rewrite !app_nil_r.
    apply Forall_app in HF as [_ Hg]. rewrite Forall_singleton in Hg.
    rewrite (put_gen_revs _ _ _ _ Hg). by rewrite Permutation_middle.
Qed.

(** The last modification is a revision of the key, once there is one. *)
Lemma reach_modified ki :
  ki_reach ki → modified ki = Revision_zero ∨ modified ki ∈ generations ki ≫= revs.
Proof.
  assert (∀ ki m s ns c, generations ki = [] ∨ ki_ok ki →
    modified ki = Revision_zero ∨ modified ki ∈ generations ki ≫= revs →
    let ki' := (keyIndex_put ki m s ns c).1 in
    modified ki' = Revision_zero ∨ modified ki' ∈ generations ki' ≫= revs) as Hput.
  { intros ki0 m s ns c Hok Hm. simpl. rewrite keyIndex_put_modified, put_all_revs by done.
    unfold put_modified. destruct (GreaterThan _ _); [right; by left|].
    destruct Hm; [by left|right; by right]. }
  induction 1 as [k m s ns c|k cr md v ki E|ki m s ns c Hr IH|ki m s c ki' c' Hr IH E|ki m s ns a c ki' c' Hr IH E].
  - apply Hput; by left.
  - injection E as <-. right. by left.
  - apply Hput; [right; by apply ki_reach_ok|done].
  - unfold keyIndex_tombstone in E. destruct (keyIndex_isEmpty ki); [done|].
    destruct (last (generations ki)) as [g|]; [|done]. destruct (generation_isEmpty _); [done|].
    pose proof (Hput ki m s [] c (or_intror (ki_reach_ok _ Hr)) IH) as Hp.
    destruct (keyIndex_put ki m s [] c) as [ki1 c1]. simplify_eq/=.
    rewrite bind_app. simpl. by rewrite !app_nil_r.
  - rewrite keyIndex_update_put in E. destruct (_ =? _); simplify_eq.
    apply Hput; [right; by apply ki_reach_ok|done].
Qed.

(** * [since] *)

(** Of neighbours with the same [main] only the last is kept. *)
Fixpoint collapse (rs : list Revision) : list Revision :=
  match rs with
  | [] => []
  | r :: rs' =>
      match rs' with
      | r' :: _ => if main r =? main r' then collapse rs' else r :: collapse rs'
      | [] => [r]
      end
  end.

Lemma collapse_cons_same r r' rs : main r = main r' → collapse (r :: r' :: rs) = collapse (r' :: rs).
Proof. intros E. simpl. by rewrite (proj2 (Z.eqb_eq _ _) E). Qed.
Lemma collapse_cons_ne r r' rs : main r ≠ main r' → collapse (r :: r' :: rs) = r :: collapse (r' :: rs).
Proof. intros E. simpl. by rewrite (proj2 (Z.eqb_neq _ _) E). Qed.

Lemma collapse_sublist rs : collapse rs `sublist_of` rs.
Proof.
  induction rs as [|r rs IH]; [done|]. simpl. destruct rs as [|r' rs]; [done|].
  destruct (_ =? _); by constructor.
Qed.

(** Every [main] stays. *)
Lemma collapse_main r rs : r ∈ rs → ∃ r', r' ∈ collapse rs ∧ main r' = main r.
Proof.
  revert r. induction rs as [|r0 [|r1 rs] IH]; intros r Hr.
  - by apply elem_of_nil in Hr.
  - apply list_elem_of_singleton in Hr as ->. exists r0. split; [by left|done].
  - destruct (Z.eq_dec (main r0) (main r1)) as [E|E].
    + rewrite collapse_cons_same by done. apply elem_of_cons in Hr as [->|Hr]; [|by apply IH].
      rewrite E. apply IH. by left.
    + rewrite collapse_cons_ne by done. apply elem_of_cons in Hr as [->|Hr].
      * exists r0. split; [by left|done].
      * destruct (IH r Hr) as (r' & ? & ?). exists r'. split; [by right|done].
Qed.

Lemma collapse_distinct rs : NoDup (main <$> rs) → collapse rs = rs.
Proof.
  induction rs as [|r [|r' rs] IH]; [done..|]. rewrite fmap_cons, NoDup_cons. intros [Hr Hrs].
  rewrite collapse_cons_ne; [by rewrite IH|]. intros E. apply Hr. rewrite E. by left.
Qed.

(** The revisions [since] looks for. *)
Definition at_or_after (since r : Revision) : Prop := GreaterThan since r = false.
#[global] Instance at_or_after_dec since r : Decision (at_or_after since r).
Proof. unfold at_or_after. apply _. Defined.

Lemma since_loop_collapse since acc x rs :
  ∃ lst, since_loop since (acc ++ [x], main x) rs =
    Ret (acc ++ collapse (x :: filter (at_or_after since) rs), lst).
Proof.
  revert acc x. induction rs as [|r rs IH]; intros acc x; [by eexists|]. cbn [since_loop].
  unfold since_body. destruct (GreaterThan since r) eqn:Hg; cbn [obind].
  { rewrite filter_cons_False by (unfold at_or_after; congruence). apply IH. }
  rewrite filter_cons_True by done.
  destruct (Z.eqb_spec (main r) (main x)) as [E|E].
  - rewrite collapse_cons_same by done.
    destruct (acc ++ [x]) as [|y l] eqn:Hacc; [by destruct acc|]. rewrite <- Hacc. cbn [obind].
    rewrite length_app, Nat.add_1_r. simpl pred.
    rewrite insert_app_r_alt, Nat.sub_diag by lia. simpl. rewrite <- E. apply IH.
  - cbn [obind]. rewrite collapse_cons_ne by done.
    destruct (IH (acc ++ [x]) r) as [lst H]. exists lst. by rewrite H, <- (assoc_L (++)).
Qed.

Lemma since_loop_start since rs :
  Forall (λ r, 0 < main r) rs →
  ∃ lst, since_loop since ([], 0) rs = Ret (collapse (filter (at_or_after since) rs), lst).
Proof.
  induction 1 as [|r rs Hr _ IH]; [by eexists|]. cbn [since_loop]. unfold since_body.
  destruct (GreaterThan since r) eqn:Hg; cbn [obind].
  { by rewrite filter_cons_False by (unfold at_or_after; congruence). }
  rewrite filter_cons_True by done. rewrite (proj2 (Z.eqb_neq _ _)) by lia. cbn [obind].
  apply (since_loop_collapse since [] r).
Qed.

(** What makes skipping the older generations right: a generation was created
    after every revision of the generations before it. *)
Definition created_after (gens : list generation) : Prop :=
  ∀ i j gi gj r, (i < j)%nat → gens !! i = Some gi → gens !! j = Some gj →
    revs gj ≠ [] → r ∈ revs gi → rev_le r (created gj).

Lemma since_start_skips gens since n :
  created_after gens → (n < length gens)%nat →
  ∀ i g r, (i < since_start gens since n)%nat → gens !! i = Some g → r ∈ revs g →
    GreaterThan since r = true.
Proof.
  intros Hca. induction n as [|n IH]; simpl; [lia|]. intros Hn i g r.
  destruct (lookup_lt_is_Some_2 gens (S n) Hn) as [g' Hg']. rewrite Hg'.
  destruct (is_nil (revs g')) eqn:En; [apply IH; lia|].
  destruct (GreaterThan since (created g')) eqn:Hgt; [|apply IH; lia].
  intros Hi Hg Hr. assert (rev_le r (created g')).
  { eapply (Hca i (S n)); [done..| |done]. by destruct (revs g'). }
  rev_lia.
Qed.

Lemma filter_drop_gens since gens n :
  (∀ i g r, (i < n)%nat → gens !! i = Some g → r ∈ revs g → GreaterThan since r = true) →
  filter (at_or_after since) (drop n gens ≫= revs) = filter (at_or_after since) (gens ≫= revs).
Proof.
  intros Hskip. rewrite <- (take_drop n gens) at 2. rewrite bind_app, filter_app.
  rewrite (filter_none _ (take n gens ≫= revs)); [done|].
  intros k r Hr. apply list_elem_of_lookup_2, list_elem_of_bind in Hr as (g & Hr & Hg).
  apply list_elem_of_lookup in Hg as [i Hi]. apply lookup_take_Some in Hi as [Hi Hlt].
  unfold at_or_after. by rewrite (Hskip i g r).
Qed.

(** The state [since] needs: what the sequence of operations through the tree
    keeps (see [ki_counted] below). *)
Lemma keyIndex_since_ok ki rev :
  ki_ok ki → created_after (generations ki) →
  Forall (λ r, 0 < main r) (generations ki ≫= revs) →
  keyIndex_since ki rev =
    Ret (collapse (filter (at_or_after (mkRevision rev 0 [])) (generations ki ≫= revs))).
Proof.
  intros Hok Hca Hpos. unfold keyIndex_since. rewrite ki_ok_not_empty by done.
  destruct Hok as (gs & g & E & _).
  rewrite is_nil_false by (rewrite E; by destruct gs).
  set (n := since_start _ _ _).
  assert (Forall (λ r, 0 < main r) (drop n (generations ki) ≫= revs)) as Hpos'.
  { rewrite <- (take_drop n (generations ki)), bind_app in Hpos.
    by apply Forall_app in Hpos as [_ ?]. }
  destruct (since_loop_start (mkRevision rev 0 []) _ Hpos') as [lst ->]. simpl.
  rewrite filter_drop_gens; [done|]. apply since_start_skips; [done|].
  rewrite E, length_app. simpl. lia.
Qed.

(** ** The counter keeps [created_after] *)

(** All revisions were drawn from the counter: positive and not above it. *)
Definition ki_counted (c : Z) (ki : keyIndex) : Prop :=
  Forall (λ r, 0 < main r ≤ c ∧ sub r = 0) (generations ki ≫= revs) ∧
  created_after (generations ki).

Lemma ki_counted_mono c c' ki : c ≤ c' → ki_counted c ki → ki_counted c' ki.
Proof.
  intros Hle [HF Hca]. split; [|done]. eapply Forall_impl; [done|]. simpl. lia.
Qed.

Lemma bind_revs_elem (gens : list generation) i g r :
  gens !! i = Some g → r ∈ revs g → r ∈ gens ≫= revs.
Proof. intros. apply list_elem_of_bind. eauto using list_elem_of_lookup_2. Qed.

Lemma put_revs_elem md rs rev r : r ∈ put_revs md rs rev → r = rev ∨ r ∈ rs.
Proof.
  unfold put_revs. destruct (GreaterThan rev md).
  { rewrite elem_of_app, list_elem_of_singleton. tauto. }
  destruct (put_locate _ _ _) as [i|]; [|by rewrite elem_of_cons].
  rewrite elem_of_app, elem_of_cons. intros [H|[H|H]]; [right|by left|right].
  - apply elem_of_take in H as (j & Hj & _). by eapply list_elem_of_lookup_2.
  - apply list_elem_of_lookup in H as [j Hj]. rewrite lookup_drop in Hj.
    by eapply list_elem_of_lookup_2.
Qed.

Lemma created_after_snoc gs g :
  created_after gs →
  (∀ r, revs g ≠ [] → r ∈ gs ≫= revs → rev_le r (created g)) →
  created_after (gs ++ [g]).
Proof.
  intros Hgs Hg i j gi gj r Hij Hi Hj Hne Hr.
  pose proof (lookup_lt_Some _ _ _ Hj) as Hlen. rewrite length_app in Hlen. simpl in Hlen.
  rewrite lookup_app_l in Hi by lia.
  destruct (decide (j < length gs)%nat).
  - rewrite lookup_app_l in Hj by lia. by apply (Hgs i j gi gj).
  - rewrite lookup_app_r in Hj by lia. replace (j - length gs)%nat with 0%nat in Hj by lia.
    simplify_eq/=. apply Hg; [done|]. by eapply bind_revs_elem.
Qed.

Lemma created_after_inv gs g :
  created_after (gs ++ [g]) →
  created_after gs ∧ (∀ r, revs g ≠ [] → r ∈ gs ≫= revs → rev_le r (created g)).
Proof.
  intros Hca. split.
  - intros i j gi gj r Hij Hi Hj Hne Hr.
    apply (Hca i j gi gj); auto using lookup_app_l_Some.
  - intros r Hne (g' & Hr & Hg')%list_elem_of_bind.
    apply list_elem_of_lookup in Hg' as [i Hi]. pose proof (lookup_lt_Some _ _ _ Hi).
    eapply (Hca i (length gs)); [done|by apply lookup_app_l_Some| |done..].
    by rewrite lookup_app_r, Nat.sub_diag by lia.
Qed.

Lemma put_gen_counted ki gs g m ns c :
  ki_counted c ki → generations ki = gs ++ [g] → 0 < m ≤ c → c < 2^63 - 1 →
  c ≤ put_counter g c ∧
  ki_counted (put_counter g c)
    (mkKeyIndex (key ki) (put_modified (modified ki) (mkRevision m 0 ns))
       (gs ++ [put_gen (modified ki) g (mkRevision m 0 ns) c])).
Proof.
  intros [HF Hca] E Hm Hc. rewrite E in HF, Hca.
  assert (c ≤ put_counter g c) as Hle.
  { unfold put_counter. destruct (is_nil _); [|lia].
    rewrite GetGlobalIncreasingRevision_lt by word_lia. simpl. lia. }
  split; [done|]. rewrite bind_app in HF. cbn [mbind list_bind] in HF.
  rewrite app_nil_r in HF. apply Forall_app in HF as [HF Hg].
  apply created_after_inv in Hca as [Hca Hcr]. unfold ki_counted. cbn [generations]. split.
  - rewrite bind_app. cbn [mbind list_bind]. rewrite app_nil_r.
    rewrite Forall_forall in HF, Hg. apply Forall_forall.
    intros r [Hr|[->|Hr]%put_revs_elem]%elem_of_app; simpl.
    + apply HF in Hr. lia.
    + lia.
    + apply Hg in Hr. lia.
  - apply created_after_snoc; [done|]. intros r _ Hr. cbn [put_gen created].
    destruct (is_nil (revs g)) eqn:En; [|apply Hcr; [by destruct (revs g)|done]].
    rewrite GetGlobalIncreasingRevision_lt by word_lia. simpl.
    rewrite int64_id by word_lia.
    rewrite Forall_forall in HF. apply HF in Hr. rev_lia.
Qed.

Lemma keyIndex_put_counted ki m ns c :
  generations ki = [] ∨ ki_ok ki → ki_counted c ki → 0 < m ≤ c → c < 2^63 - 1 →
  c ≤ (keyIndex_put ki m 0 ns c).2 ∧
  ki_counted (keyIndex_put ki m 0 ns c).2 (keyIndex_put ki m 0 ns c).1.
Proof.
  intros Hok Hcnt Hm Hc. destruct Hok as [Hnil|(gs & g & E & _)].
  - rewrite keyIndex_put_fresh by done.
    apply (put_gen_counted (mkKeyIndex (key ki) (modified ki) [generation_zero]) []);
      [|done..]. split; [constructor|].
    intros i j gi gj r Hij Hi Hj. destruct i, j; done || lia.
  - rewrite (keyIndex_put_snoc _ _ _ _ _ gs g) by done. by apply put_gen_counted.
Qed.

Lemma keyIndex_tombstone_counted ki m c ki' c' :
  ki_ok ki → ki_counted c ki → 0 < m ≤ c → c < 2^63 - 1 →
  keyIndex_tombstone ki m 0 c = (Ret ki', c') → c ≤ c' ∧ ki_counted c' ki'.
Proof.
  intros Hok Hcnt Hm Hc. pose proof Hok as (gs & g & E & _).
  rewrite (keyIndex_tombstone_spec _ gs g) by done.
  destruct (is_nil (revs g)) eqn:En; [done|]. intros [= <- <-]. split; [done|].
  destruct (put_gen_counted ki gs g m [] c Hcnt E Hm Hc) as [_ [HF Hca]].
  unfold put_counter in HF. rewrite En in HF. cbn [generations] in HF, Hca.
  unfold ki_counted. cbn [generations].
  change [put_gen (modified ki) g (mkRevision m 0 []) c; generation_zero] with
    ([put_gen (modified ki) g (mkRevision m 0 []) c] ++ [generation_zero]).
  rewrite (assoc_L (++)). split.
  - rewrite bind_app. cbn [mbind list_bind generation_zero revs app]. by rewrite app_nil_r.
  - by apply created_after_snoc.
Qed.

(** * The abstract key: a log of events *)

Inductive key_op := KPut (r : Revision) | KTomb (r : Revision).
Definition op_rev (o : key_op) : Revision := match o with KPut r | KTomb r => r end.

(** The specification: a put is always recorded, a deletion only when the last
    event is a put. *)
Definition spec_step (h : list event) (o : key_op) : list event :=
  match o with
  | KPut r => h ++ [EvPut r]
  | KTomb r => match last h with Some (EvPut _) => h ++ [EvTomb r] | _ => h end
  end.

(** The implementation, keeping the old index when [tombstone] fails. *)
Definition impl_step (st : keyIndex * Z) (o : key_op) : keyIndex * Z :=
  let '(ki, c) := st in
  match o with
  | KPut r => keyIndex_put ki (main r) (sub r) (nodes r) c
  | KTomb r => match keyIndex_tombstone ki (main r) (sub r) c with
               | (Ret ki', c') => (ki', c')
               | (_, c') => (ki, c')
               end
  end.

(** Revisions that only grow, from [md] on; a deletion carries no nodes. *)
Fixpoint in_order (md : Revision) (ops : list key_op) : Prop :=
  match ops with
  | [] => True
  | o :: ops' =>
      GreaterThan (op_rev o) md = true ∧
      match o with KTomb r => nodes r = [] | KPut _ => True end ∧ in_order (op_rev o) ops'
  end.

Lemma in_order_weaken md md' ops : rev_le md' md → in_order md ops → in_order md' ops.
Proof. destruct ops as [|o ops]; simpl; [done|]. intros Hle (Hgt & H). split; [rev_lia|done]. Qed.

(** A key is deleted exactly when its current generation is empty. *)
Lemma history_last ki gs g :
  ki_ok ki → generations ki = gs ++ [g] →
  match last (history ki) with Some (EvPut _) => revs g ≠ [] | _ => revs g = [] end.
Proof.
  intros (gs' & g' & E' & Hne & H1 & _) E. rewrite (history_snoc _ _ _ E), last_app.
  rewrite E' in E. apply app_inj_2 in E as [-> [= ->]]; [|done].
  unfold open_events. rewrite fmap_last.
  destruct (last (revs g)) as [r|] eqn:Hl; simpl; [intros Hnil; by rewrite Hnil in Hl|].
  apply last_None in Hl. destruct gs as [|gl gs _] using rev_ind; [by destruct (H1 eq_refl Hl)|].
  rewrite bind_app. cbn [mbind list_bind]. rewrite app_nil_r, last_app.
  apply Forall_app in Hne as [_ Hgl]. rewrite Forall_singleton in Hgl.
  destruct (last (revs gl)) as [t|] eqn:Ht; [|by apply last_None in Ht].
  apply revs_closed in Ht as (rs & _ & ->). by rewrite last_snoc.
Qed.

Lemma impl_step_spec ki c o :
  ki_ok ki → GreaterThan (op_rev o) (modified ki) = true →
  match o with KTomb r => nodes r = [] | KPut _ => True end →
  ki_ok (impl_step (ki, c) o).1 ∧
  history (impl_step (ki, c) o).1 = spec_step (history ki) o ∧
  rev_le (modified (impl_step (ki, c) o).1) (op_rev o).
Proof.
  intros Hok Hgt Hn. destruct o as [[m s ns]|[m s ns]]; simpl in *.
  - split_and!; [by apply keyIndex_put_ok; right| |].
    + apply keyIndex_put_history_new; [by right|done].
    + rewrite keyIndex_put_modified. unfold put_modified. rewrite Hgt. reflexivity.
  - subst ns. pose proof Hok as (gs & g & E & _).
    pose proof (history_last ki gs g Hok E) as Hlast.
    pose proof (keyIndex_tombstone_spec ki gs g m s c Hok E) as Hspec.
    destruct (is_nil (revs g)) eqn:En.
    + rewrite Hspec. simpl. split_and!; [done| |rev_lia].
      destruct (revs g); [|done]. by destruct (last (history ki)) as [[]|].
    + rewrite Hspec. cbn [fst]. split_and!.
      * by eapply keyIndex_tombstone_ok.
      * erewrite keyIndex_tombstone_history_new by done.
        destruct (revs g); [done|]. by destruct (last (history ki)) as [[]|].
      * cbn [modified]. unfold put_modified. rewrite Hgt. reflexivity.
Qed.

Lemma impl_run_spec ops ki c :
  ki_ok ki → in_order (modified ki) ops →
  ki_ok (foldl impl_step (ki, c) ops).1 ∧
  history (foldl impl_step (ki, c) ops).1 = foldl spec_step (history ki) ops.
Proof.
  revert ki c. induction ops as [|o ops IH]; intros ki c Hok; [done|].
  intros (Hgt & Hn & Hin). cbn [foldl].
  destruct (impl_step_spec ki c o Hok Hgt Hn) as (Hok' & Hh & Hle).
  destruct (impl_step (ki, c) o) as [ki' c']. cbn [fst] in *. rewrite <- Hh.
  apply IH; [done|]. by eapply in_order_weaken.
Qed.

Lemma impl_step_reach st o : ki_reach st.1 → ki_reach (impl_step st o).1.
Proof.
  destruct st as [ki c]. intros Hr. destruct o as [r|r]; simpl; [by apply reach_put|].
  destruct (keyIndex_tombstone _ _ _ _) as [[ki'| |] c'] eqn:E; [|done..].
  by eapply reach_tombstone.
Qed.

Lemma impl_run_reach ops st : ki_reach st.1 → ki_reach (foldl impl_step st ops).1.
Proof.
  revert st. induction ops as [|o ops IH]; intros st Hr; [done|].
  by apply IH, impl_step_reach.
Qed.

(** * Properties of a key index *)

(** C12. [get] reads the history: in every reachable key index -- created by a put or
    a restore, then any puts, deletions and updates, out of order ones included --
    and for every revision, [keyIndex_get] does not panic and answers with the last
    event of the key at or before that revision: for a put its revision, with its
    generation's creation revision and version number, and "not found" for a
    deletion or when there is no such event. *)
Theorem keyIndex_get_history ki atRev :
  ki_reach ki →
  get_answer (generations ki) (hist_get (history ki) atRev) (keyIndex_get ki atRev).
Proof. intros Hr. by apply keyIndex_get_answer, ki_reach_ok. Qed.

(** The key index of the example in the source's comment:
    put(1.0); put(2.0); tombstone(3.0); put(4.0); tombstone(5.0). *)
Definition foo_ops : list key_op :=
  [KPut (mkRevision 2 0 ["b"]%string); KTomb (mkRevision 3 0 []);
   KPut (mkRevision 4 0 ["c"]%string); KTomb (mkRevision 5 0 [])].
Definition foo_first : keyIndex * Z := keyIndex_put (newKeyIndex "foo") 1 0 ["a"%string] 9.
Definition foo : keyIndex := (foldl impl_step foo_first foo_ops).1.

Lemma foo_reach : ki_reach foo.
Proof. apply impl_run_reach. apply (reach_new "foo" 1 0 ["a"%string] 9). Qed.

Lemma keyIndex_get_history_witness :
  get_answer (generations foo) (Some (mkRevision 2 0 ["b"%string])) (keyIndex_get foo 2) ∧
  get_answer (generations foo) None (keyIndex_get foo 3).
Proof.
  split.
  - apply (keyIndex_get_history foo 2 foo_reach).
  - apply (keyIndex_get_history foo 3 foo_reach).
Defined.

(** C13. Refinement: as long as revisions only grow, running any sequence of puts
    and deletions on a key index records exactly the events of the abstract log --
    a deletion of an already deleted key leaves no trace -- so its reads are reads
    of the log. *)
Theorem keyIndex_refines_log ki c ops :
  ki_reach ki → in_order (modified ki) ops →
  history (foldl impl_step (ki, c) ops).1 = foldl spec_step (history ki) ops ∧
  ∀ atRev, get_answer (generations (foldl impl_step (ki, c) ops).1)
             (hist_get (foldl spec_step (history ki) ops) atRev)
             (keyIndex_get (foldl impl_step (ki, c) ops).1 atRev).
Proof.
  intros Hr Hin. destruct (impl_run_spec ops ki c) as [Hok Hh]; [auto with rkv|done|].
  split; [done|]. intros atRev. rewrite <- Hh. by apply keyIndex_get_answer.
Qed.

Lemma keyIndex_refines_log_witness :
  history foo =
    [EvPut (mkRevision 1 0 ["a"%string]); EvPut (mkRevision 2 0 ["b"%string]);
     EvTomb (mkRevision 3 0 []); EvPut (mkRevision 4 0 ["c"%string]);
     EvTomb (mkRevision 5 0 [])].
Proof.
  apply (keyIndex_refines_log foo_first.1 foo_first.2 foo_ops).
  - apply (reach_new "foo" 1 0 ["a"%string] 9).
  - vm_compute. repeat split.
Defined.

(** Versions: on a key whose puts came in order, the version [get] returns is
    the position of the revision in its generation, counted from one -- the number
    of puts since the key was (re)created. *)
Theorem keyIndex_get_version ki atRev r cr v :
  ki_reach ki → ki_ordered ki → keyIndex_get ki atRev = Ret (r, cr, v) →
  ∃ g n, g ∈ generations ki ∧ revs g !! n = Some r ∧ cr = created g ∧ v = Z.of_nat n + 1.
Proof.
  intros Hok [_ Hv] Hget. pose proof (keyIndex_get_answer ki atRev (ki_reach_ok ki Hok)) as Ha.
  rewrite Hget in Ha. destruct (hist_get _ _) as [r'|]; [|done].
  destruct Ha as (g & n & Hg & Hn & [= -> -> ->]). exists g, n. split_and!; [done..|].
  rewrite Forall_forall in Hv. destruct (Hv g Hg) as [Hver Hlt].
  apply lookup_lt_Some in Hn. rewrite int64_id by word_lia. lia.
Qed.


Lemma foo_ordered : ki_ordered foo.
Proof.
  unfold ki_ordered. split; [|by apply (bool_decide_unpack _); vm_compute].
  apply (bool_decide_unpack _). by vm_compute.
Qed.

Lemma keyIndex_get_version_witness :
  ∃ g n, g ∈ generations foo ∧ revs g !! n = Some (mkRevision 2 0 ["b"%string]) ∧
         mkRevision 10 0 [] = created g ∧ 2 = Z.of_nat n + 1.
Proof.
  apply (keyIndex_get_version foo 2).
  - exact foo_reach.
  - exact foo_ordered.
  - vm_compute. reflexivity.
Defined.

Lemma keyIndex_since_counted ki c rev :
  ki_ok ki → ki_counted c ki →
  keyIndex_since ki rev =
    Ret (collapse (filter (λ r, rev ≤ main r) (generations ki ≫= revs))).
Proof.
  intros Hr [HF Hca]. rewrite keyIndex_since_ok; [|done..|].
  - do 2 f_equal. clear Hca Hr. induction HF as [|r rs Hr HF IH]; [done|].
    destruct (decide (rev ≤ main r)).
    + rewrite (filter_cons_True (λ r, rev ≤ main r)), filter_cons_True
        by (done || (unfold at_or_after; rev_lia)). by rewrite IH.
    + rewrite (filter_cons_False (λ r, rev ≤ main r)), filter_cons_False; [done..| |done].
      unfold at_or_after. rewrite not_false_iff_true. rev_lia.
  - eapply Forall_impl; [done|]. simpl. lia.
Qed.

(** C14. [since] is exact: when all revisions were drawn from the counter, it
    returns, for every starting revision, precisely the revisions of the key with
    [main] at or after it, in the order of the generations, where of neighbours with
    the same [main] only the last is kept; skipping the older generations loses
    nothing, and it never panics.  The source's comment promises one revision per
    [main]: that holds when equal ones are neighbours, [since_repeats] has two that are
    not. *)
Theorem keyIndex_since_exact ki c rev :
  ki_reach ki → ki_counted c ki →
  keyIndex_since ki rev =
    Ret (collapse (filter (λ r, rev ≤ main r) (generations ki ≫= revs))).
Proof. intros Hr%ki_reach_ok. by apply keyIndex_since_counted. Qed.

(** The generations the source's comment lists. *)
Lemma foo_generations :
  generations foo =
    [mkGeneration 3 (mkRevision 10 0 [])
       [mkRevision 1 0 ["a"%string]; mkRevision 2 0 ["b"%string]; mkRevision 3 0 []];
     mkGeneration 2 (mkRevision 11 0 []) [mkRevision 4 0 ["c"%string]; mkRevision 5 0 []];
     generation_zero].
Proof. by vm_compute. Qed.

Lemma foo_counted : ki_counted 12 foo.
Proof.
  unfold ki_counted. rewrite foo_generations. split.
  - apply (bool_decide_unpack _). by vm_compute.
  - apply (created_after_snoc [_; _]); [|done].
    apply (created_after_snoc [_]).
    + apply (created_after_snoc []); [intros [] j gi gj r; done|].
      intros r _ Hr. by apply not_elem_of_nil in Hr.
    + intros r _ Hr. cbn in Hr |- *.
      repeat (apply elem_of_cons in Hr as [->|Hr]; [by vm_compute|]).
      by apply not_elem_of_nil in Hr.
Qed.

Lemma keyIndex_since_exact_witness :
  keyIndex_since foo 2 =
    Ret [mkRevision 2 0 ["b"%string]; mkRevision 3 0 []; mkRevision 4 0 ["c"%string];
         mkRevision 5 0 []].
Proof. apply (keyIndex_since_exact foo 12 2 foo_reach foo_counted). Defined.

(** Two puts of one revision with a deletion between them: [since] returns the revision
    twice. *)
Example since_repeats :
  match keyIndex_tombstone (keyIndex_put (newKeyIndex "foo") 3 0 ["a"%string] 6).1 5 0 7 with
  | (Ret ki, _) =>
      keyIndex_since (keyIndex_put ki 3 0 ["b"%string] 8).1 0 =
        Ret [mkRevision 3 0 ["a"%string]; mkRevision 5 0 []; mkRevision 3 0 ["b"%string]]
  | _ => False
  end.
Proof. by vm_compute. Qed.

(** Out-of-order deletion: a tombstone that arrives with an older revision
    than the latest put is filed as if it were a put, and the latest put takes the
    place of the tombstone; a read at the revision of the tombstone then finds a
    revision with no nodes. *)
Theorem stale_tombstone :
  ∃ ki' c', keyIndex_tombstone (keyIndex_put foo_first.1 4 0 ["b"%string] 10).1 3 0 10 = (Ret ki', c') ∧
    history ki' = [EvPut (mkRevision 1 0 ["a"%string]); EvPut (mkRevision 3 0 []);
                   EvTomb (mkRevision 4 0 ["b"%string])] ∧
    keyIndex_get ki' 3 = Ret (mkRevision 3 0 [], mkRevision 10 0 [], 1).
Proof. do 2 eexists. split; [by vm_compute|]. split; by vm_compute. Qed.

(** Out-of-order put: a put older than the deletion of the key opens a new
    generation and brings the key back with the old value. *)
Theorem stale_put_after_delete :
  ∃ ki' c', keyIndex_tombstone foo_first.1 3 0 10 = (Ret ki', c') ∧
    keyIndex_get ki' 3 = Fail ErrRevisionNotFound ∧
    keyIndex_get (keyIndex_put ki' 2 0 ["b"%string] 10).1 3 =
      Ret (mkRevision 2 0 ["b"%string], mkRevision 11 0 [], 0).
Proof. do 2 eexists. split; [by vm_compute|]. split; by vm_compute. Qed.

(** [equal] compares a revision's [main] and [sub] with "and" where it needs "or". *)
Lemma generation_equal_spec a b :
  generation_equal a b = true ↔
  ver a = ver b ∧ Forall2 (λ ar br, main ar = main br ∨ sub ar = sub br) (revs a) (revs b).
Proof.
  unfold generation_equal. destruct (Z.eqb_spec (ver a) (ver b)); simpl; [|naive_solver].
  generalize (revs b). induction (revs a) as [|ar ars IH]; intros [|br brs]; simpl.
  - naive_solver.
  - split; [done|]. intros [_ H]. inv H.
  - split; [done|]. intros [_ H]. inv H.
  - specialize (IH brs). destruct (Nat.eqb (length ars) (length brs)); simpl in *.
    + rewrite andb_true_iff, negb_andb, !negb_involutive, orb_true_iff, !Z.eqb_eq, IH,
        Forall2_cons. naive_solver.
    + rewrite Forall2_cons. naive_solver.
Qed.

(** As every [sub] is 0 in this program, [equal] tells two generations apart
    by their version and their number of revisions only, never by the revisions. *)
Theorem generation_equal_blind a b :
  Forall (λ r, sub r = 0) (revs a) → Forall (λ r, sub r = 0) (revs b) →
  generation_equal a b = (ver a =? ver b) && Nat.eqb (length (revs a)) (length (revs b)).
Proof.
  intros Ha Hb. apply Bool.eq_iff_eq_true.
  rewrite generation_equal_spec, andb_true_iff, Z.eqb_eq, Nat.eqb_eq.
  split; intros [Hv H]; split; try done; [by eapply Forall2_length|].
  apply Forall2_same_length_lookup_2; [done|]. intros i x y Hx Hy. right.
  by rewrite (Forall_lookup_1 _ _ _ _ Ha Hx), (Forall_lookup_1 _ _ _ _ Hb Hy).
Qed.

Lemma generation_equal_blind_witness :
  generation_equal (mkGeneration 1 Revision_zero [mkRevision 5 0 []])
                   (mkGeneration 1 Revision_zero [mkRevision 6 0 []]) = true.
Proof.
  apply (generation_equal_blind (mkGeneration 1 Revision_zero [mkRevision 5 0 []])
    (mkGeneration 1 Revision_zero [mkRevision 6 0 []])); repeat constructor.
Defined.
