(* ===== verification/BTree.v ===== *)
(** The interface of the ordered tree the index is built on.

    src/pkg/index/index.go keeps its key indexes in a [*btree.BTree] of
    github.com/google/btree, ordered by [keyIndex.Less].  [BTree] lists the
    operations the index calls and [BTreeLaws] what their documentation promises:
    [Get] returns the item equivalent to the argument, [ReplaceOrInsert] adds an
    item or replaces the equivalent one, [Ascend] visits all items in increasing
    order and [AscendGreaterOrEqual] those not below the pivot.  The theorems of
    the index hold for every implementation with these laws; [map_BTree] is one to
    run the definitions with. *)
From stdpp Require Import base gmap sets list strings sorting.
From S2P Require Import Prelude GoStd Revision KeyIndex.

Class BTree := {
  btree : Type;
  bt_New : btree;
  bt_Get : btree → keyIndex → option keyIndex;
  bt_ReplaceOrInsert : btree → keyIndex → btree;
  bt_Ascend : btree → list keyIndex;
  bt_AscendGreaterOrEqual : btree → keyIndex → list keyIndex;
  bt_Len : btree → nat;
}.

(** [bt_map] is the contents of a tree, by key; [bt_ok] the representation
    invariant of the implementation. *)
Class BTreeLaws {B : BTree} := {
  bt_map : btree → gmap string keyIndex;
  bt_ok : btree → Prop;
  bt_New_ok : bt_ok bt_New;
  bt_New_map : bt_map bt_New = ∅;
  bt_key t k ki : bt_ok t → bt_map t !! k = Some ki → key ki = k;
  bt_Get_map t x : bt_ok t → bt_Get t x = bt_map t !! key x;
  bt_insert_ok t x : bt_ok t → bt_ok (bt_ReplaceOrInsert t x);
  bt_insert_map t x : bt_ok t → bt_map (bt_ReplaceOrInsert t x) = <[key x := x]> (bt_map t);
  bt_Ascend_perm t : bt_ok t → bt_Ascend t ≡ₚ (map_to_list (bt_map t)).*2;
  bt_Ascend_sorted t :
    bt_ok t → StronglySorted (λ x y, keyIndex_Less x y = true) (bt_Ascend t);
  bt_AscendGreaterOrEqual_filter t x :
    bt_ok t →
    bt_AscendGreaterOrEqual t x = filter (λ y, keyIndex_Less y x = false) (bt_Ascend t);
  bt_Len_map t : bt_ok t → bt_Len t = size (bt_map t);
}.
Arguments BTreeLaws : clear implicits.

#[export] Hint Resolve bt_New_ok bt_insert_ok : rkv.

(** A store through the pointer to an item of the tree: the item with the same
    key changes, the shape of the tree does not matter. *)
Definition bt_store `{BTree} (t : btree) (ki : keyIndex) : btree := bt_ReplaceOrInsert t ki.

Section laws.
Context {B : BTree} {L : BTreeLaws B}.

Lemma bt_Ascend_elem t ki :
  bt_ok t → ki ∈ bt_Ascend t ↔ bt_map t !! key ki = Some ki.
Proof.
  intros Hok. rewrite bt_Ascend_perm by done. rewrite list_elem_of_fmap. split.
  - intros ([k ki'] & -> & H). apply elem_of_map_to_list in H. simpl.
    by rewrite (bt_key _ _ _ Hok H).
  - intros H. exists (key ki, ki). by rewrite elem_of_map_to_list.
Qed.
End laws.

(** * An implementation: the contents as a finite map *)

Definition keyIndex_le (x y : keyIndex) : Prop := not_after keyIndex_Less x y.
#[global] Instance keyIndex_le_dec : RelDecision keyIndex_le.
Proof. intros x y. unfold keyIndex_le. apply _. Defined.

Lemma keyIndex_Less_weak : strict_weak keyIndex_Less.
Proof.
  unfold keyIndex_Less. split.
  - intros x. apply bytes_Less_irrefl.
  - intros x y z. apply bytes_Less_trans.
  - intros x y z Hxy Hyz. destruct (bytes_Less (key x) (key z)) eqn:Hxz; [|done].
    destruct (bytes_Less (key y) (key x)) eqn:Hyx.
    + by rewrite (bytes_Less_trans _ _ _ Hyx Hxz) in Hyz.
    + rewrite (bytes_Less_total _ _ Hxy Hyx) in Hxz. congruence.
Qed.

Definition map_items (m : gmap string keyIndex) : list keyIndex :=
  merge_by keyIndex_Less (map_to_list m).*2.

#[global] Instance map_BTree : BTree := {|
  btree := gmap string keyIndex;
  bt_New := ∅;
  bt_Get m x := m !! key x;
  bt_ReplaceOrInsert m x := <[key x := x]> m;
  bt_Ascend := map_items;
  bt_AscendGreaterOrEqual m x := filter (λ y, keyIndex_Less y x = false) (map_items m);
  bt_Len := size;
|}.

Definition map_ok (m : gmap string keyIndex) : Prop :=
  map_Forall (λ k ki, key ki = k) m.

Lemma map_items_sorted m :
  map_ok m → StronglySorted (λ x y, keyIndex_Less x y = true) (map_items m).
Proof.
  intros Hok. assert (NoDup (key <$> map_items m)) as Hnd.
  { unfold map_items, merge_by. rewrite merge_sort_Permutation.
    rewrite <- list_fmap_compose, (list_fmap_ext _ fst).
    - apply NoDup_fst_map_to_list.
    - intros i [k ki] H%list_elem_of_lookup_2%elem_of_map_to_list. simpl.
      by apply (Hok _ _ H). }
  pose proof (merge_by_sorted keyIndex_Less (map_to_list m).*2 keyIndex_Less_weak) as Hs.
  fold (map_items m) in Hs. induction Hs as [|x l Hs IH HF]; [constructor|].
  rewrite fmap_cons, NoDup_cons in Hnd. destruct Hnd as [Hx Hnd].
  constructor; [auto|]. rewrite Forall_forall in HF. apply Forall_forall. intros y Hy.
  specialize (HF y Hy). unfold not_after, keyIndex_Less in *.
  destruct (bytes_Less (key x) (key y)) eqn:E; [done|]. exfalso. apply Hx.
  rewrite (bytes_Less_total _ _ E HF). by apply list_elem_of_fmap_2.
Qed.

#[global, refine] Instance map_BTreeLaws : BTreeLaws map_BTree := {|
  bt_map (m : @btree map_BTree) := m : gmap string keyIndex;
  bt_ok (m : @btree map_BTree) := map_ok m;
|}.
Proof.
  - by apply map_Forall_empty.
  - done.
  - intros t k ki Hok H. by apply (Hok _ _ H).
  - done.
  - intros t x Hok. simpl. by apply map_Forall_insert_2.
  - done.
  - intros t Hok. apply merge_sort_Permutation.
  - apply map_items_sorted.
  - done.
  - done.
Defined.
