(* ===== verification/TreeIndex.v ===== *)
(** The index of all keys: src/pkg/index/index.go.

    [treeIndex] is the tree of key indexes; its operations run on the tree and the
    global revision counter.  Tracing and the lock calls have no counterpart here; where
    the lock taken matters -- [Update] writes under the read lock -- is in [Concurrent]. *)
From Stdlib Require Import Ascii.
From stdpp Require Import base gmap sets list strings pretty sorting relations.
From S2P Require Import Prelude GoStd Revision KeyIndex KeyHistory BTree.

Open Scope Z_scope.

(** * Operations *)

Section treeIndex.
Context `{!GoSort} {B : BTree}.

(** The state the operations run on: the tree and the revision counter. *)
Record treeIndex := mkTreeIndex { tree : btree; counter : Z }.

Definition NewTreeIndex (c : Z) : treeIndex := mkTreeIndex bt_New c.

Definition treeIndex_Put (k : string) (rev : Revision) : M treeIndex unit := λ ti,
  let keyi := newKeyIndex k in
  match bt_Get (tree ti) keyi with
  | None =>
      let '(keyi, c) := keyIndex_put keyi (main rev) (sub rev) (nodes rev) (counter ti) in
      (Ret tt, mkTreeIndex (bt_ReplaceOrInsert (tree ti) keyi) c)
  | Some okeyi =>
      let '(okeyi, c) := keyIndex_put okeyi (main rev) (sub rev) (nodes rev) (counter ti) in
      (Ret tt, mkTreeIndex (bt_store (tree ti) okeyi) c)
  end.

Definition treeIndex_Restore (k : string) (created modified : Revision) (ver : Z)
    : M treeIndex unit := λ ti,
  let keyi := newKeyIndex k in
  match bt_Get (tree ti) keyi with
  | None =>
      match keyIndex_restore keyi created modified ver with
      | Ret keyi => (Ret tt, mkTreeIndex (bt_ReplaceOrInsert (tree ti) keyi) (counter ti))
      | Fail e => (Fail e, ti)
      | Panic w => (Panic w, ti)
      end
  | Some okeyi =>
      let '(okeyi, c) :=
        keyIndex_put okeyi (main modified) (sub modified) (nodes modified) (counter ti) in
      (Ret tt, mkTreeIndex (bt_store (tree ti) okeyi) c)
  end.

Definition treeIndex_Get (t : btree) (k : string) (atRev : Z)
    : outcome (Revision * Revision * Z) :=
  match bt_Get t (newKeyIndex k) with
  | None => Fail ErrRevisionNotFound
  | Some keyi =>
      if atRev =? 0 then keyIndex_get keyi (int64 (main (modified keyi)))
      else keyIndex_get keyi atRev
  end.

(** An iteration with the callback [f]: it stops after the first item for which
    [f] returns [false], or when [f] panics. *)
Fixpoint iterate {St} (f : keyIndex → St → outcome (St * bool)) (items : list keyIndex)
    (st : St) : outcome St :=
  match items with
  | [] => Ret st
  | item :: items' =>
      match f item st with
      | Ret (st', true) => iterate f items' st'
      | Ret (st', false) => Ret st'
      | Fail e => Fail e
      | Panic w => Panic w
      end
  end.

(** [len(endi.key) > 0 && !item.Less(endi)]. *)
Definition past_end (endi item : keyIndex) : bool :=
  (0 <? String.length (key endi))%nat && negb (keyIndex_Less item endi).

(** [end] is [None] for a nil slice. *)
Definition treeIndex_Range (t : btree) (k : string) (end' : option string) (atRev : Z)
    : outcome (list string * list Revision) :=
  match end' with
  | None =>
      match treeIndex_Get t k atRev with
      | Ret (rev, _, _) => Ret ([k], [rev])
      | Fail _ => Ret ([], [])
      | Panic w => Panic w
      end
  | Some e =>
      let keyi := newKeyIndex k in
      let endi := newKeyIndex e in
      iterate (λ item '(keys, revs),
        if past_end endi item then Ret ((keys, revs), false)
        else match keyIndex_get item atRev with
             | Ret (rev, _, _) => Ret ((keys ++ [key item], revs ++ [rev]), true)
             | Fail _ => Ret ((keys, revs), true)
             | Panic w => Panic w
             end)
        (bt_AscendGreaterOrEqual t keyi) ([], [])
  end.

Definition treeIndex_Tombstone (k : string) (rev : Revision) : M treeIndex unit := λ ti,
  match bt_Get (tree ti) (newKeyIndex k) with
  | None => (Fail ErrRevisionNotFound, ti)
  | Some ki =>
      match keyIndex_tombstone ki (main rev) (sub rev) (counter ti) with
      | (Ret ki', c) => (Ret tt, mkTreeIndex (bt_store (tree ti) ki') c)
      | (Fail e, c) => (Fail e, mkTreeIndex (tree ti) c)
      | (Panic w, c) => (Panic w, mkTreeIndex (tree ti) c)
      end
  end.

Definition treeIndex_RangeSince (t : btree) (k : string) (end' : option string) (rev : Z)
    : outcome (list Revision) :=
  let keyi := newKeyIndex k in
  match end' with
  | None =>
      match bt_Get t keyi with
      | None => Ret []
      | Some keyi => keyIndex_since keyi rev
      end
  | Some e =>
      let endi := newKeyIndex e in
      let! revs := iterate (λ item revs,
          if past_end endi item then Ret (revs, false)
          else let! since := keyIndex_since item rev in Ret (revs ++ since, true))
        (bt_AscendGreaterOrEqual t keyi) [] in
      Ret (sort_slice Revisions_Less revs)
  end.

Definition treeIndex_Equal (a b : btree) : outcome bool :=
  if negb (Nat.eqb (bt_Len a) (bt_Len b)) then Ret false
  else iterate (λ item equal,
         match bt_Get b item with
         | None => Panic "interface conversion: interface is nil, not *index.keyIndex"
         | Some bki =>
             if negb (keyIndex_equal item bki) then Ret (false, false) else Ret (equal, true)
         end)
       (bt_Ascend a) true.

Definition treeIndex_Update (k : string) (rev : Revision) (revAssumed : Z)
    : M treeIndex unit := λ ti,
  match bt_Get (tree ti) (newKeyIndex k) with
  | None => (Fail ErrRevisionNotFound, ti)
  | Some keyi =>
      match keyIndex_update keyi (main rev) (sub rev) (nodes rev) revAssumed (counter ti) with
      | (Ret keyi', c) => (Ret tt, mkTreeIndex (bt_store (tree ti) keyi') c)
      | (Fail e, c) => (Fail e, mkTreeIndex (tree ti) c)
      | (Panic w, c) => (Panic w, mkTreeIndex (tree ti) c)
      end
  end.
End treeIndex.
Arguments treeIndex : clear implicits.
Arguments treeIndex {B}.

(** * The invariant of the index *)

Section inv.
Context {B : BTree} {L : BTreeLaws B}.

(** Every key index in the tree is reachable and its revisions were drawn from
    the counter; the counter is far from overflow. *)
Definition ti_ok (ti : treeIndex) : Prop :=
  bt_ok (tree ti) ∧ 0 ≤ counter ti ∧
  map_Forall (λ _ ki, ki_reach ki ∧ ki_counted (counter ti) ki) (bt_map (tree ti)).

Lemma NewTreeIndex_ok c : 0 ≤ c → ti_ok (NewTreeIndex c).
Proof.
  intros. split_and!; [apply bt_New_ok|done|]. simpl. rewrite bt_New_map.
  apply map_Forall_empty.
Qed.

Lemma tree_Get_map ti k : ti_ok ti → bt_Get (tree ti) (newKeyIndex k) = bt_map (tree ti) !! k.
Proof. intros (Hok & _). by rewrite bt_Get_map. Qed.

Lemma tree_key ti k ki : ti_ok ti → bt_map (tree ti) !! k = Some ki → key ki = k.
Proof. intros (Hok & _). by apply bt_key. Qed.

(** Storing a good key index under a counter that grew. *)
Lemma ti_ok_store ti ki c :
  ti_ok ti → counter ti ≤ c → ki_reach ki → ki_counted c ki →
  ti_ok (mkTreeIndex (bt_ReplaceOrInsert (tree ti) ki) c).
Proof.
  intros (Hok & Hc & HF) Hle Hr Hcnt. split_and!; simpl; [auto with rkv|lia|].
  rewrite bt_insert_map by done. apply map_Forall_insert_2; [done|].
  intros k ki' Hk. destruct (HF k ki' Hk). eauto using ki_counted_mono.
Qed.

Lemma ti_ok_counter ti c : ti_ok ti → counter ti ≤ c → ti_ok (mkTreeIndex (tree ti) c).
Proof.
  intros (Hok & Hc & HF) Hle. split_and!; simpl; [done|lia|].
  intros k ki' Hk. destruct (HF k ki' Hk). eauto using ki_counted_mono.
Qed.

(** The key index that [Put] and [Update] start from. *)
Definition ki_at (ti : treeIndex) (k : string) : keyIndex :=
  default (newKeyIndex k) (bt_map (tree ti) !! k).

Lemma ki_at_cases ti k :
  ti_ok ti → generations (ki_at ti k) = [] ∨ ki_ok (ki_at ti k).
Proof.
  intros (_ & _ & HF). unfold ki_at. destruct (_ !! k) as [ki|] eqn:E; [right|by left].
  destruct (HF k ki E). by apply ki_reach_ok.
Qed.

Lemma ki_at_key ti k : ti_ok ti → key (ki_at ti k) = k.
Proof.
  intros Hok. unfold ki_at. destruct (_ !! k) as [ki|] eqn:E; [|done]. by eapply tree_key.
Qed.

Lemma ki_at_counted ti k : ti_ok ti → ki_counted (counter ti) (ki_at ti k).
Proof.
  intros (_ & _ & HF). unfold ki_at. destruct (_ !! k) as [ki|] eqn:E.
  { by destruct (HF k ki E). }
  split; [constructor|]. intros i j gi gj r _ Hi. done.
Qed.

Lemma ki_at_put_reach ti k m s ns c :
  ti_ok ti → ki_reach (keyIndex_put (ki_at ti k) m s ns c).1.
Proof.
  intros (_ & _ & HF). unfold ki_at. destruct (_ !! k) as [ki|] eqn:E; simpl.
  - destruct (HF k ki E). by apply reach_put.
  - apply reach_new.
Qed.

(** The three writes, each in one equation. *)
Lemma treeIndex_Put_eq ti k rev :
  ti_ok ti →
  treeIndex_Put k rev ti =
    (Ret tt, mkTreeIndex
      (bt_ReplaceOrInsert (tree ti)
         (keyIndex_put (ki_at ti k) (main rev) (sub rev) (nodes rev) (counter ti)).1)
      (keyIndex_put (ki_at ti k) (main rev) (sub rev) (nodes rev) (counter ti)).2).
Proof.
  intros Hok. unfold treeIndex_Put, ki_at. rewrite tree_Get_map by done.
  destruct (_ !! k); simpl; by destruct (keyIndex_put _ _ _ _ _).
Qed.

Lemma treeIndex_Update_eq ti k rev a :
  ti_ok ti →
  treeIndex_Update k rev a ti =
    match bt_map (tree ti) !! k with
    | None => (Fail ErrRevisionNotFound, ti)
    | Some ki =>
        if main (modified ki) =? a then treeIndex_Put k rev ti
        else (Fail ErrRevAssumed, ti)
    end.
Proof.
  intros Hok. unfold treeIndex_Update, treeIndex_Put. rewrite tree_Get_map by done.
  destruct (_ !! k) as [ki|]; [|done]. rewrite keyIndex_update_put.
  destruct (_ =? a); [|by destruct ti]. by destruct (keyIndex_put _ _ _ _ _).
Qed.

(** A revision that was drawn from the counter. *)
Definition drawn (ti : treeIndex) (rev : Revision) : Prop :=
  0 < main rev ≤ counter ti ∧ sub rev = 0 ∧ counter ti < 2^63 - 1.

Lemma treeIndex_Put_ok ti k rev :
  ti_ok ti → drawn ti rev → ti_ok (treeIndex_Put k rev ti).2.
Proof.
  intros Hok (Hm & Hs & Hc). rewrite treeIndex_Put_eq by done. rewrite Hs. cbn [snd].
  destruct (keyIndex_put_counted (ki_at ti k) (main rev) (nodes rev) (counter ti))
    as [Hle Hcnt]; auto using ki_at_cases, ki_at_counted.
  apply ti_ok_store; auto using ki_at_put_reach.
Qed.

Lemma treeIndex_Update_ok ti k rev a :
  ti_ok ti → drawn ti rev → ti_ok (treeIndex_Update k rev a ti).2.
Proof.
  intros Hok Hd. rewrite treeIndex_Update_eq by done.
  destruct (_ !! k) as [ki|]; [|done]. destruct (_ =? a); [|done].
  by apply treeIndex_Put_ok.
Qed.

Lemma treeIndex_Tombstone_ok ti k rev :
  ti_ok ti → drawn ti rev → ti_ok (treeIndex_Tombstone k rev ti).2.
Proof.
  intros Hok (Hm & Hs & Hc). unfold treeIndex_Tombstone. rewrite tree_Get_map by done.
  destruct (_ !! k) as [ki|] eqn:E; [|done]. pose proof Hok as (_ & _ & HF).
  destruct (HF k ki E) as [Hr Hcnt]. rewrite Hs.
  destruct (ki_reach_ok ki Hr) as (gs & g & Eg & _).
  pose proof (keyIndex_tombstone_spec ki gs g (main rev) 0 (counter ti)
    (ki_reach_ok _ Hr) Eg) as Hspec.
  destruct (is_nil (revs g)); rewrite Hspec; cbn [snd]; [by destruct ti|].
  apply ti_ok_store; [done..| |].
  - by eapply reach_tombstone.
  - eapply keyIndex_tombstone_counted; eauto using ki_reach_ok.
Qed.

Lemma treeIndex_Restore_ok ti k cr md v :
  ti_ok ti → drawn ti md → ti_ok (treeIndex_Restore k cr md v ti).2.
Proof.
  intros Hok Hd. pose proof (treeIndex_Put_ok ti k md Hok Hd) as Hput.
  destruct Hd as (Hm & Hs & Hc). unfold treeIndex_Restore, treeIndex_Put in *.
  rewrite tree_Get_map in * by done.
  destruct (_ !! k) as [ki|] eqn:E; [done|]. simpl. apply ti_ok_store; [done..| |].
  - by eapply (reach_restore k cr md v).
  - split; simpl; [by repeat constructor; lia|].
    intros i j gi gj r Hij Hi Hj. destruct i, j; done || lia.
Qed.

Lemma treeIndex_Tombstone_no_panic ti k rev :
  ti_ok ti → no_panic (treeIndex_Tombstone k rev ti).1.
Proof.
  intros Hok. unfold treeIndex_Tombstone. rewrite tree_Get_map by done.
  destruct (_ !! k) as [ki|] eqn:E; [|done]. pose proof Hok as (_ & _ & HF).
  destruct (HF k ki E) as [Hr%ki_reach_ok _]. pose proof Hr as (gs & g & Eg & _).
  rewrite (keyIndex_tombstone_spec ki gs g) by done. by destruct (is_nil _).
Qed.

(** ** Reachable indexes *)

(** What the server does to the index: draw a revision, then put, update or
  delete with a revision drawn before, in any order. *)
Inductive index_step (ti : treeIndex) : treeIndex → Prop :=
  | step_draw :
      counter ti < 2^63 - 1 →
      index_step ti (mkTreeIndex (tree ti) (GetGlobalIncreasingRevision (counter ti)).2)
  | step_put k rev : drawn ti rev → index_step ti (treeIndex_Put k rev ti).2
  | step_update k rev a : drawn ti rev → index_step ti (treeIndex_Update k rev a ti).2
  | step_tombstone k rev : drawn ti rev → index_step ti (treeIndex_Tombstone k rev ti).2
  | step_restore k cr md v : drawn ti md → index_step ti (treeIndex_Restore k cr md v ti).2.

Lemma index_step_ok ti ti' : ti_ok ti → index_step ti ti' → ti_ok ti'.
Proof.
  intros Hok. destruct 1 as [Hc|k rev Hd|k rev a Hd|k rev Hd|k cr md v Hd].
  - pose proof Hok as (_ & H0 & _).
    rewrite GetGlobalIncreasingRevision_lt by word_lia. apply ti_ok_counter; [done|simpl; lia].
  - by apply treeIndex_Put_ok.
  - by apply treeIndex_Update_ok.
  - by apply treeIndex_Tombstone_ok.
  - by apply treeIndex_Restore_ok.
Qed.

Lemma index_steps_ok ti ti' : rtc index_step ti ti' → ti_ok ti → ti_ok ti'.
Proof. induction 1 as [|ti ti1 ti2 Hs _ IH]; eauto using index_step_ok. Qed.

Definition index_reach (ti : treeIndex) : Prop := rtc index_step (NewTreeIndex 0) ti.

Lemma index_reach_ok ti : index_reach ti → ti_ok ti.
Proof. intros Hr. by apply (index_steps_ok _ _ Hr), NewTreeIndex_ok. Qed.

(** ** The abstract index: a history per key *)

Definition ti_history (ti : treeIndex) (k : string) : list event := history (ki_at ti k).

Lemma ki_at_store ti ki c k :
  ti_ok ti →
  ki_at (mkTreeIndex (bt_ReplaceOrInsert (tree ti) ki) c) k =
    if decide (key ki = k) then ki else ki_at ti k.
Proof.
  intros (Hok & _). unfold ki_at. simpl. rewrite bt_insert_map by done.
  case_decide as E; [subst; by rewrite lookup_insert_eq|by rewrite lookup_insert_ne].
Qed.

(** [Get] is [get] on the key index, at its latest revision when [atRev] is 0. *)
Lemma treeIndex_Get_ki ti k atRev :
  ti_ok ti →
  treeIndex_Get (tree ti) k atRev =
    match bt_map (tree ti) !! k with
    | None => Fail ErrRevisionNotFound
    | Some ki => keyIndex_get ki (if atRev =? 0 then int64 (main (modified ki)) else atRev)
    end.
Proof.
  intros Hok. unfold treeIndex_Get. rewrite tree_Get_map by done.
  destruct (_ !! k); [|done]. by destruct (_ =? _).
Qed.

Lemma treeIndex_Get_other ti ki k atRev :
  ti_ok ti → key ki ≠ k →
  treeIndex_Get (bt_ReplaceOrInsert (tree ti) ki) k atRev = treeIndex_Get (tree ti) k atRev.
Proof.
  intros (Hok & _) Hne. unfold treeIndex_Get.
  rewrite !bt_Get_map by auto with rkv. rewrite bt_insert_map by done.
  by rewrite lookup_insert_ne.
Qed.

(** ** Range queries *)

Definition in_range (k e : string) (ki : keyIndex) : Prop :=
  bytes_Less (key ki) k = false ∧ past_end (newKeyIndex e) ki = false.
#[global] Instance in_range_dec k e ki : Decision (in_range k e ki).
Proof. unfold in_range. apply _. Defined.

(** On a sorted list, stopping at the end key is filtering by it. *)
Lemma iterate_filter {St} (f : keyIndex → St → outcome (St * bool)) e items st :
  StronglySorted (λ x y, keyIndex_Less x y = true) items →
  iterate (λ item st, if past_end (newKeyIndex e) item then Ret (st, false) else f item st)
    items st =
  iterate f (filter (λ item, past_end (newKeyIndex e) item = false) items) st.
Proof.
  intros Hs. revert st. induction Hs as [|x l Hs IH HF]; intros st; [done|]. simpl.
  destruct (past_end (newKeyIndex e) x) eqn:Ep.
  - rewrite filter_cons_False by congruence. rewrite filter_none; [done|].
    intros i y Hy. pose proof (Forall_lookup_1 _ _ _ _ HF Hy) as Hxy.
    unfold past_end in *. apply andb_true_iff in Ep as [-> Ep]. simpl.
    apply negb_true_iff in Ep. destruct (keyIndex_Less y (newKeyIndex e)) eqn:Ey; [|done].
    unfold keyIndex_Less in *. by rewrite (bytes_Less_trans _ _ _ Hxy Ey) in Ep.
  - rewrite filter_cons_True by done. simpl.
    destruct (f x st) as [[st' []]| |]; [apply IH|done..].
Qed.

Lemma iterate_append (g : keyIndex → list Revision) (f : keyIndex → outcome (list Revision))
    items acc :
  Forall (λ ki, f ki = Ret (g ki)) items →
  iterate (λ item revs, let! since := f item in Ret (revs ++ since, true)) items acc =
    Ret (acc ++ (items ≫= g)).
Proof.
  intros HF. revert acc. induction HF as [|ki items Hki _ IH]; intros acc; simpl.
  { by rewrite app_nil_r. }
  rewrite Hki. simpl. by rewrite IH, <- (assoc_L (++)).
Qed.

(** The revisions of one key at or after [rev], one per [main]. *)
Definition since_spec (rev : Z) (ki : keyIndex) : list Revision :=
  collapse (filter (λ r, rev ≤ main r) (generations ki ≫= revs)).

Lemma collapse_elem r rs : r ∈ collapse rs → r ∈ rs.
Proof. by apply sublist_subseteq, collapse_sublist. Qed.

Lemma ascend_in_range ti k e :
  ti_ok ti →
  filter (λ item, past_end (newKeyIndex e) item = false)
    (bt_AscendGreaterOrEqual (tree ti) (newKeyIndex k)) =
  filter (in_range k e) (bt_Ascend (tree ti)).
Proof.
  intros (Hok & _). rewrite bt_AscendGreaterOrEqual_filter by done.
  rewrite list_filter_filter. apply list_filter_iff. intros ki.
  unfold in_range, keyIndex_Less. simpl. tauto.
Qed.
End inv.

(** * Properties of the index *)

Section properties.
Context `{!GoSort} {B : BTree} {L : BTreeLaws B}.

Lemma since_all ti rev :
  ti_ok ti → ∀ ki, ki ∈ bt_Ascend (tree ti) → keyIndex_since ki rev = Ret (since_spec rev ki).
Proof.
  intros (Hok & _ & HF) ki Hki. apply bt_Ascend_elem in Hki; [|done].
  destruct (HF _ _ Hki) as [Hr Hc]. eapply keyIndex_since_counted; eauto using ki_reach_ok.
Qed.

Lemma RangeSince_eq ti k e rev :
  ti_ok ti →
  treeIndex_RangeSince (tree ti) k (Some e) rev =
    Ret (sort_slice Revisions_Less
           (filter (in_range k e) (bt_Ascend (tree ti)) ≫= since_spec rev)).
Proof.
  intros Hok. unfold treeIndex_RangeSince. pose proof Hok as (Hbt & _).
  rewrite iterate_filter.
  2:{ rewrite bt_AscendGreaterOrEqual_filter by done.
      by apply StronglySorted_filter, bt_Ascend_sorted. }
  rewrite ascend_in_range by done.
  rewrite (iterate_append (since_spec rev)); [done|].
  apply Forall_forall. intros ki [_ Hki]%list_elem_of_filter. by apply (since_all ti).
Qed.

Lemma RangeSince_key ti k rev :
  ti_ok ti →
  treeIndex_RangeSince (tree ti) k None rev =
    Ret (from_option (since_spec rev) [] (bt_map (tree ti) !! k)).
Proof.
  intros Hok. unfold treeIndex_RangeSince. rewrite tree_Get_map by done.
  destruct (_ !! k) as [ki|] eqn:E; [|done]. pose proof Hok as (_ & _ & HF).
  destruct (HF k ki E) as [Hr Hc].
  by rewrite (keyIndex_since_counted ki (counter ti)) by auto with rkv.
Qed.

Lemma treeIndex_Get_no_panic ti k atRev : ti_ok ti → no_panic (treeIndex_Get (tree ti) k atRev).
Proof.
  intros Hok. rewrite treeIndex_Get_ki by done.
  destruct (_ !! k) as [ki|] eqn:E; [|done]. pose proof Hok as (_ & _ & HF).
  destruct (HF k ki E) as [Hr%ki_reach_ok _].
  pose proof (keyIndex_get_answer ki
    (if atRev =? 0 then int64 (main (modified ki)) else atRev) Hr) as Ha.
  unfold get_answer in Ha. by destruct (hist_get _ _); [destruct Ha as (?&?&_&_&->)|rewrite Ha].
Qed.

(** C15. The index never panics: in every index the server can reach -- revisions
    drawn from the counter, then puts, updates, deletions and restores of any key
    in any order -- [Get], [RangeSince] and [Tombstone] return a result or an
    error for every argument.  (The panics guard an empty key index, which the
    tree never holds.) *)
Theorem index_no_panic ti k end' atRev rev :
  index_reach ti →
  no_panic (treeIndex_Get (tree ti) k atRev) ∧
  no_panic (treeIndex_RangeSince (tree ti) k end' atRev) ∧
  no_panic (treeIndex_Tombstone k rev ti).1.
Proof.
  intros Hok%index_reach_ok. split_and!.
  - by apply treeIndex_Get_no_panic.
  - destruct end' as [e|]; [by rewrite RangeSince_eq|by rewrite RangeSince_key].
  - by apply treeIndex_Tombstone_no_panic.
Qed.

(** C16. [RangeSince] over keys: for every reachable index it returns, sorted by
    revision, exactly the revisions at or after [rev] of the keys from [key]
    (included) to [end] (excluded; no upper bound when [end] is empty), where of
    neighbours in the generations of a key with the same [main] only the last is kept,
    whatever sorting algorithm is used. *)
Theorem RangeSince_exact ti k e rev :
  index_reach ti →
  ∃ revs, treeIndex_RangeSince (tree ti) k (Some e) rev = Ret revs ∧
    StronglySorted rev_le revs ∧
    revs ≡ₚ (filter (in_range k e) (bt_Ascend (tree ti)) ≫= since_spec rev) ∧
    ∀ r, r ∈ revs → rev ≤ main r.
Proof.
  intros Hok%index_reach_ok. eexists. split; [by apply RangeSince_eq|]. split_and!.
  - eapply StronglySorted_impl, sort_slice_sorted, Revisions_Less_weak. done.
  - by rewrite sort_slice_perm.
  - intros r. rewrite sort_slice_perm. intros (ki & Hr & _)%list_elem_of_bind.
    apply collapse_elem in Hr. by apply list_elem_of_filter in Hr as [? _].
Qed.

(** What a put of a newer revision makes of the key. *)
Lemma treeIndex_Put_latest ti k rev :
  ti_ok ti → drawn ti rev → GreaterThan rev (modified (ki_at ti k)) = true →
  ∃ cr v, treeIndex_Get (tree (treeIndex_Put k rev ti).2) k 0 = Ret (rev, cr, v).
Proof.
  intros Hok Hd Hgt. pose proof (treeIndex_Put_ok ti k rev Hok Hd) as Hok'.
  rewrite treeIndex_Get_ki by done. rewrite treeIndex_Put_eq in * by done.
  cbn [snd tree]. pose proof Hok as (Hbt & _). rewrite bt_insert_map by done.
  rewrite keyIndex_put_key, ki_at_key, lookup_insert_eq by done. simpl.
  destruct rev as [m s ns]. cbn [main sub nodes] in *.
  pose proof (keyIndex_put_ok (ki_at ti k) m s ns (counter ti) (ki_at_cases ti k Hok)) as Hk.
  rewrite keyIndex_put_modified. unfold put_modified. rewrite Hgt. simpl.
  rewrite int64_id by (destruct Hd; simpl in *; word_lia).
  pose proof (keyIndex_get_answer _ m Hk) as Ha.
  rewrite keyIndex_put_history_new in Ha by auto using ki_at_cases.
  rewrite hist_get_snoc in Ha by done. destruct Ha as (g & n & _ & _ & ->). eauto.
Qed.

Lemma treeIndex_Tombstone_latest ti k rev :
  ti_ok ti → drawn ti rev → nodes rev = [] →
  GreaterThan rev (modified (ki_at ti k)) = true →
  (treeIndex_Tombstone k rev ti).1 = Ret tt →
  treeIndex_Get (tree (treeIndex_Tombstone k rev ti).2) k 0 = Fail ErrRevisionNotFound.
Proof.
  intros Hok Hd Hn Hgt. pose proof (treeIndex_Tombstone_ok ti k rev Hok Hd) as Hok'.
  rewrite treeIndex_Get_ki by done. unfold treeIndex_Tombstone, ki_at in *.
  rewrite tree_Get_map in * by done. pose proof Hok as (Hbt & _ & HF).
  destruct (_ !! k) as [ki|] eqn:E; [|done]. destruct (HF k ki E) as [Hr%ki_reach_ok _].
  destruct rev as [m s ns]. simpl in *. subst ns.
  destruct (keyIndex_tombstone ki m s (counter ti)) as [[ki'| |] c] eqn:Et; [|done..].
  intros _. cbn [snd tree]. unfold bt_store. rewrite bt_insert_map by done.
  assert (key ki' = k ∧ main (modified ki') = m) as [Hkey Hmod].
  { pose proof Hr as (gs & g & Eg & _).
    rewrite (keyIndex_tombstone_spec ki gs g) in Et by done.
    destruct (is_nil _); [done|]. injection Et as <- _. simpl. split; [exact (tree_key ti k ki Hok E)|].
    unfold put_modified. by rewrite Hgt. }
  rewrite Hkey, lookup_insert_eq, Hmod. simpl.
  rewrite int64_id by (destruct Hd; simpl in *; word_lia).
  pose proof (keyIndex_get_answer ki' m (keyIndex_tombstone_ok _ _ _ _ _ _ Hr Et)) as Ha.
  erewrite keyIndex_tombstone_history_new in Ha by done.
  by rewrite hist_get_snoc in Ha by done.
Qed.

(** C17. Refinement to a history per key: in a reachable index, a put with a newly
    drawn revision appends one put event to the history of its key and leaves the
    history of every other key as it was; a conditional update does the same when
    the latest revision of the key is the assumed one, and otherwise fails and
    changes nothing. *)
Theorem index_write_history ti k rev a :
  index_reach ti → drawn ti rev → GreaterThan rev (modified (ki_at ti k)) = true →
  let put_k := λ k', if decide (k' = k) then ti_history ti k ++ [EvPut rev]
                     else ti_history ti k' in
  (∀ k', ti_history (treeIndex_Put k rev ti).2 k' = put_k k') ∧
  match treeIndex_Update k rev a ti with
  | (Ret _, ti') =>
      is_Some (bt_map (tree ti) !! k) ∧ main (modified (ki_at ti k)) = a ∧
      ∀ k', ti_history ti' k' = put_k k'
  | (Fail _, ti') =>
      ti' = ti ∧ (bt_map (tree ti) !! k = None ∨ main (modified (ki_at ti k)) ≠ a)
  | (Panic _, _) => False
  end.
Proof.
  intros Hok%index_reach_ok Hd Hgt put_k.
  assert (∀ k', ti_history (treeIndex_Put k rev ti).2 k' = put_k k') as Hput.
  { intros k'. unfold ti_history, put_k. rewrite treeIndex_Put_eq by done. cbn [snd].
    rewrite ki_at_store, keyIndex_put_key, ki_at_key by done.
    destruct (decide (k' = k)) as [->|]; [|by rewrite decide_False].
    rewrite decide_True by done. destruct rev as [m s ns].
    by apply keyIndex_put_history_new; [apply ki_at_cases|]. }
  split; [done|]. rewrite treeIndex_Update_eq by done. unfold ki_at.
  destruct (bt_map (tree ti) !! k) as [ki|] eqn:E; simpl; [|auto].
  destruct (Z.eqb_spec (main (modified ki)) a); [|auto].
  rewrite treeIndex_Put_eq in * by done. cbn [snd] in Hput. eauto.
Qed.

(** C18. Compare-and-set: after an update that assumed revision [a] succeeded, an
    update that assumes the same revision is refused and leaves the index
    unchanged, and a read returns what the first one wrote -- provided that the first
    one was drawn after [a], that is, its revision is above [a] and above the latest
    revision of the key.  An update with an older revision is filed before the latest
    one, which stays the latest: a second one that assumes it then succeeds too
    ([stale_update_twice]). *)
Theorem index_update_once ti k rev rev' a ti1 :
  index_reach ti → drawn ti rev → GreaterThan rev (modified (ki_at ti k)) = true → a < main rev →
  treeIndex_Update k rev a ti = (Ret tt, ti1) →
  treeIndex_Update k rev' a ti1 = (Fail ErrRevAssumed, ti1) ∧
  ∃ cr v, treeIndex_Get (tree ti1) k 0 = Ret (rev, cr, v).
Proof.
  intros Hok%index_reach_ok Hd Hgt Ha Hu. rewrite treeIndex_Update_eq in Hu by done.
  destruct (_ !! k) as [ki|] eqn:E; [|done]. destruct (_ =? a) eqn:Ea; [|done].
  pose proof (treeIndex_Put_ok ti k rev Hok Hd) as Hok1.
  pose proof (treeIndex_Put_latest ti k rev Hok Hd Hgt) as Hget.
  rewrite Hu in Hok1, Hget. cbn [snd] in *. split; [|done].
  rewrite treeIndex_Update_eq by done. rewrite treeIndex_Put_eq in Hu by done.
  injection Hu as <-. cbn [tree]. pose proof Hok as (Hbt & _).
  rewrite bt_insert_map, keyIndex_put_key, ki_at_key, lookup_insert_eq by done.
  rewrite keyIndex_put_modified. unfold put_modified.
  destruct rev as [m s ns]. cbn [main sub nodes] in *. rewrite Hgt. simpl.
  by rewrite (proj2 (Z.eqb_neq _ _)) by lia.
Qed.

(** The provision of [index_update_once] is needed. *)
Lemma stale_update_twice ti k rev rev' a ti1 :
  ti_ok ti → drawn ti rev → drawn ti1 rev' → GreaterThan rev (modified (ki_at ti k)) = false →
  treeIndex_Update k rev a ti = (Ret tt, ti1) →
  ∃ ti2, treeIndex_Update k rev' a ti1 = (Ret tt, ti2).
Proof.
  intros Hok Hd Hd' Hgt Hu. rewrite treeIndex_Update_eq in Hu by done.
  destruct (_ !! k) as [ki|] eqn:E; [|done]. destruct (_ =? a) eqn:Ea; [|done].
  pose proof (treeIndex_Put_ok ti k rev Hok Hd) as Hok1. rewrite Hu in Hok1. cbn [snd] in Hok1.
  rewrite treeIndex_Update_eq by done. rewrite treeIndex_Put_eq in Hu by done. injection Hu as <-.
  cbn [tree]. pose proof Hok as (Hbt & _). rewrite bt_insert_map, keyIndex_put_key, ki_at_key, lookup_insert_eq by done.
  rewrite keyIndex_put_modified. unfold put_modified. unfold ki_at in *. rewrite E in *. cbn [default] in *.
  destruct rev as [m s ns]. cbn [main sub nodes] in *. rewrite Hgt. cbn [modified]. simpl. rewrite Ea. rewrite treeIndex_Put_eq by done. by eexists.
Qed.

(** [Equal] is not total: two indexes with as many keys but different ones
    make it panic instead of answering [false]. *)
Theorem Equal_panics ka kb rev rev' c :
  ka ≠ kb →
  let a := (treeIndex_Put ka rev (NewTreeIndex c)).2 in
  let b := (treeIndex_Put kb rev' (NewTreeIndex c)).2 in
  0 ≤ c → ∃ w, treeIndex_Equal (tree a) (tree b) = Panic w.
Proof.
  intros Hne a b Hc.
  pose proof (NewTreeIndex_ok c Hc) as Hok. pose proof Hok as (Hbt & _).
  assert (∀ k, ki_at (NewTreeIndex c) k = newKeyIndex k) as Hat.
  { intros k. unfold ki_at. simpl. by rewrite bt_New_map. }
  subst a b. rewrite !treeIndex_Put_eq by done. cbn [snd tree NewTreeIndex].
  rewrite !Hat. unfold treeIndex_Equal.
  set (kia := (keyIndex_put (newKeyIndex ka) _ _ _ _).1).
  set (kib := (keyIndex_put (newKeyIndex kb) _ _ _ _).1).
  assert (key kia = ka) as Hka by apply keyIndex_put_key.
  assert (key kib = kb) as Hkb by apply keyIndex_put_key.
  rewrite !bt_Len_map, !bt_insert_map, !bt_New_map by auto with rkv.
  rewrite !insert_empty, !map_size_singleton. simpl.
  assert (bt_Ascend (bt_ReplaceOrInsert bt_New kia) = [kia]) as ->.
  { apply Permutation_singleton_r. rewrite bt_Ascend_perm by auto with rkv.
    rewrite bt_insert_map, bt_New_map, insert_empty, map_to_list_singleton by auto with rkv.
    done. }
  simpl. rewrite bt_Get_map, bt_insert_map, bt_New_map by auto with rkv.
  rewrite lookup_insert_ne by congruence. rewrite lookup_empty. eauto.
Qed.
End properties.

(** * Concrete instances *)

Definition draw (ti : treeIndex) : treeIndex :=
  mkTreeIndex (tree ti) (GetGlobalIncreasingRevision (counter ti)).2.

(** One key written once: revision 1, then the generation's creation revision 2,
    then revision 3 drawn for the next operation. *)
Definition demo0 : treeIndex := draw (NewTreeIndex 0).
Definition demo1 : treeIndex := draw (treeIndex_Put "k" (mkRevision 1 0 ["n1"%string]) demo0).2.

Lemma demo0_reach : index_reach demo0.
Proof. apply rtc_once. by apply step_draw. Qed.

Lemma demo1_reach : index_reach demo1.
Proof.
  eapply (transitivity (R := rtc index_step)); [apply demo0_reach|].
  eapply rtc_l; [|apply rtc_once, step_draw; by vm_compute].
  apply step_put. by vm_compute.
Qed.

Lemma index_no_panic_witness :
  no_panic (treeIndex_Get (tree demo1) "k" 0) ∧
  no_panic (treeIndex_RangeSince (tree demo1) "a" (Some "z"%string) 0) ∧
  no_panic (treeIndex_Tombstone "k" (mkRevision 3 0 []) demo1).1.
Proof.
  destruct (index_no_panic demo1 "a" (Some "z"%string) 0 (mkRevision 3 0 []) demo1_reach)
    as (_ & H2 & _).
  destruct (index_no_panic demo1 "k" None 0 (mkRevision 3 0 []) demo1_reach) as (H1 & _ & H3).
  exact (conj H1 (conj H2 H3)).
Defined.

Lemma RangeSince_exact_witness :
  ∃ revs, treeIndex_RangeSince (tree demo1) "a" (Some "z"%string) 1 = Ret revs ∧
    StronglySorted rev_le revs ∧
    revs ≡ₚ [mkRevision 1 0 ["n1"%string]] ∧ ∀ r, r ∈ revs → 1 ≤ main r.
Proof. apply (RangeSince_exact demo1 "a" "z" 1 demo1_reach). Defined.

Lemma index_write_history_witness :
  ti_history (treeIndex_Put "k" (mkRevision 3 0 ["n2"%string]) demo1).2 "k" =
    ti_history demo1 "k" ++ [EvPut (mkRevision 3 0 ["n2"%string])] ∧
  ti_history (treeIndex_Put "k" (mkRevision 3 0 ["n2"%string]) demo1).2 "j" = ti_history demo1 "j" ∧
  main (modified (ki_at demo1 "k")) = 1.
Proof.
  destruct (index_write_history demo1 "k" (mkRevision 3 0 ["n2"%string]) 1 demo1_reach)
    as [Hput _]; [by vm_compute..|].
  split; [exact (Hput "k"%string)|split; [exact (Hput "j"%string)|by vm_compute]].
Defined.

Lemma index_update_once_witness :
  let ti1 := (treeIndex_Update "k" (mkRevision 3 0 ["n2"%string]) 1 demo1).2 in
  treeIndex_Update "k" (mkRevision 4 0 ["n3"%string]) 1 ti1 = (Fail ErrRevAssumed, ti1) ∧
  ∃ cr v, treeIndex_Get (tree ti1) "k" 0 = Ret (mkRevision 3 0 ["n2"%string], cr, v).
Proof.
  intros ti1.
  apply (index_update_once demo1 "k" (mkRevision 3 0 ["n2"%string])
    (mkRevision 4 0 ["n3"%string]) 1 ti1); [exact demo1_reach|by vm_compute..|].
  apply pair_snd. by vm_compute.
Defined.

Lemma Equal_panics_witness :
  ∃ w, treeIndex_Equal (tree (treeIndex_Put "a" (mkRevision 1 0 []) (NewTreeIndex 1)).2)
                       (tree (treeIndex_Put "b" (mkRevision 1 0 []) (NewTreeIndex 1)).2) = Panic w.
Proof. apply (Equal_panics "a" "b"); [discriminate|lia]. Defined.
