(* ===== verification/Hashing.v ===== *)
(** Where a key lives: the two partitioners of src/pkg/partition/consistent,
    rendezvous.go and ring.go, and the interface they share.

    [ConsistentHashing] is the Go interface of that name and [HashingLaws] what the
    managers rely on: [LocateNodes] returns as many different nodes as were asked
    for, or none when there are not enough.  Both partitioners are shown to meet it.
    The hash function is an argument ([Hasher]). *)
From Stdlib Require Import Ascii.
From stdpp Require Import base gmap sets list strings sorting.
From S2P Require Import Prelude GoStd.

Open Scope Z_scope.

(** * Nodes and hashers *)

Record RkvNode := mkRkvNode {
  Name : string;
  Latency : Z;             (* time.Duration *)
  IsRemote : bool;
}.

Definition RkvNode_String (rn : RkvNode) : string := Name rn.

#[global] Instance RkvNode_eq_dec : EqDecision RkvNode.
Proof. solve_decision. Defined.
#[global] Instance RkvNode_countable : Countable RkvNode.
Proof.
  refine (inj_countable' (λ n, (Name n, Latency n, IsRemote n))
    (λ '(a, b, c), mkRkvNode a b c) _). by intros [].
Defined.

Class Hasher := {
  Hash : string → Z;
  Hash_range s : is_uint64 (Hash s);
}.

(** The interface of a partitioner. *)
Class ConsistentHashing (T : Type) := {
  AddNode : RkvNode → T → T;
  LocateKey : string → T → outcome (option RkvNode);
  LocateNodes : string → Z → T → outcome (list RkvNode);
}.

Definition name_hash `{Hasher} (n : RkvNode) : Z := Hash (Name n).

(** [h_holds t ns]: [t] was built by adding the nodes [ns], whose names have
    different hashes. *)
Class HashingLaws `{Hasher} (T : Type) {C : ConsistentHashing T} := {
  h_holds : T → list RkvNode → Prop;
  h_add t ns n :
    h_holds t ns → name_hash n ∉ name_hash <$> ns → h_holds (AddNode n t) (ns ++ [n]);
  h_enough t ns k count :
    h_holds t ns → 0 < count ≤ Z.of_nat (length ns) →
    ∃ res, LocateNodes k count t = Ret res ∧ Z.of_nat (length res) = count ∧
           NoDup res ∧ ∀ n, n ∈ res → n ∈ ns;
  h_short t ns k count :
    h_holds t ns → Z.of_nat (length ns) < count → LocateNodes k count t = Ret [];
}.

(** A loop that fills a slice of [count] nodes, [nth i] at each position. *)
Fixpoint collect (nth : nat → outcome (option RkvNode)) (i n : nat)
    : outcome (option (list RkvNode)) :=
  match n with
  | O => Ret (Some [])
  | S n' =>
      match nth i with
      | Ret (Some x) => let! r := collect nth (S i) n' in Ret (cons x <$> r)
      | Ret None => Ret None
      | Fail e => Fail e
      | Panic w => Panic w
      end
  end.

(** * Rendezvous *)

Definition xorshiftMult64 (x : Z) : Z :=
  let x := Z.lxor x (Z.shiftr x 12) in
  let x := Z.lxor x (uint64 (Z.shiftl x 25)) in
  let x := Z.lxor x (Z.shiftr x 27) in
  uint64 (x * 2685821657736338717).

Record Rendezvous := mkRendezvous {
  r_nodes : gmap RkvNode Z;
  nstr : list RkvNode;
  nhash : list Z;
}.

Section rendezvous.
Context `{Hasher}.

Fixpoint NewRendezvous_loop (nodes : list RkvNode) (i : nat) (r : Rendezvous) : Rendezvous :=
  match nodes with
  | [] => r
  | n :: nodes' =>
      NewRendezvous_loop nodes' (S i)
        (mkRendezvous (<[n := Z.of_nat i]> (r_nodes r)) (<[i := n]> (nstr r))
           (<[i := Hash (RkvNode_String n)]> (nhash r)))
  end.

Definition NewRendezvous (nodes : list RkvNode) : Rendezvous :=
  NewRendezvous_loop nodes 0
    (mkRendezvous ∅ (replicate (length nodes) (mkRkvNode "" 0 false))
       (replicate (length nodes) 0)).

Definition Rendezvous_AddNode (node : RkvNode) (r : Rendezvous) : Rendezvous :=
  mkRendezvous (<[node := Z.of_nat (length (nstr r))]> (r_nodes r)) (nstr r ++ [node])
    (nhash r ++ [Hash (RkvNode_String node)]).

(** The scan [for i, nhash := range r.nhash[1:]] for the largest combined hash. *)
Fixpoint max_loop (khash : Z) (nhs : list Z) (i midx : nat) (mhash : Z) : nat :=
  match nhs with
  | [] => midx
  | nh :: nhs' =>
      let h := xorshiftMult64 (Z.lxor khash nh) in
      if mhash <? h then max_loop khash nhs' (S i) (i + 1) h
      else max_loop khash nhs' (S i) midx mhash
  end.

Definition Rendezvous_midx (r : Rendezvous) (k : string) : outcome nat :=
  let khash := Hash k in
  match nhash r with
  | [] => Panic "index out of range"
  | nh0 :: rest => Ret (max_loop khash rest 0 0 (xorshiftMult64 (Z.lxor khash nh0)))
  end.

Definition Rendezvous_LocateKey (k : string) (r : Rendezvous) : outcome (option RkvNode) :=
  if (size (r_nodes r) =? 0)%nat then Ret None
  else
    let! midx := Rendezvous_midx r k in
    match nstr r !! midx with
    | Some n => Ret (Some n)
    | None => Panic "index out of range"
    end.

Definition Rendezvous_GetNodes (r : Rendezvous) : list RkvNode := nstr r.

Definition Rendezvous_LocateNodes (k : string) (count : Z) (r : Rendezvous)
    : outcome (list RkvNode) :=
  if Z.of_nat (size (r_nodes r)) <? count then Ret []
  else
    let! midx := Rendezvous_midx r k in
    if count <? 0 then Panic "makeslice: len out of range"
    else
      let! res := collect (λ i,
          match nstr r !! ((midx + i) mod size (r_nodes r))%nat with
          | Some n => Ret (Some n)
          | None => Panic "index out of range"
          end) 0 (Z.to_nat count) in
      Ret (default [] res).
End rendezvous.

(** * Ring *)

Record RingHashing := mkRing {
  nodes : gmap string RkvNode;
  sortedSet : list Z;
  ring : gmap Z RkvNode;
}.

Section ring.
Context `{Hasher, GoSort}.

Definition NewRingHashing : RingHashing := mkRing ∅ [] ∅.

Definition uint64_less (x y : Z) : bool := x <? y.

Definition RingHashing_addNode (node : RkvNode) (rh : RingHashing) : RingHashing :=
  let hKey := Hash (RkvNode_String node) in
  mkRing (<[RkvNode_String node := node]> (nodes rh))
    (sort_slice uint64_less (sortedSet rh ++ [hKey]))
    (<[hKey := node]> (ring rh)).

Definition RingHashing_AddNode (node : RkvNode) (rh : RingHashing) : RingHashing :=
  match nodes rh !! RkvNode_String node with
  | Some _ => rh
  | None => RingHashing_addNode node rh
  end.

Definition RingHashing_FindPartitionID (k : string) (rh : RingHashing) : Z :=
  if (size (nodes rh) =? 0)%nat then -1
  else Hash k `mod` Z.of_nat (size (nodes rh)).

Definition RingHashing_GetPartitionOwner (partID : Z) (rh : RingHashing)
    : outcome (option RkvNode) :=
  if partID <? 0 then Ret None
  else match sortedSet rh !! Z.to_nat partID with
       | None => Panic "index out of range"
       | Some h => Ret (ring rh !! h)
       end.

Definition RingHashing_LocateKey (k : string) (rh : RingHashing) : outcome (option RkvNode) :=
  RingHashing_GetPartitionOwner (RingHashing_FindPartitionID k rh) rh.

(** Go ranges over the map in an unspecified order; the model lists it in the
    order of [map_to_list]. *)
Definition RingHashing_GetNodes (rh : RingHashing) : list RkvNode :=
  (map_to_list (nodes rh)).*2.

Definition RingHashing_LocateNodes (k : string) (count : Z) (rh : RingHashing)
    : outcome (list RkvNode) :=
  if Z.of_nat (size (nodes rh)) <? count then Ret []
  else
    let partID := RingHashing_FindPartitionID k rh in
    if partID <? 0 then Ret []
    else if count <? 0 then Panic "makeslice: len out of range"
    else
      let! res := collect (λ i,
          match sortedSet rh !! ((Z.to_nat partID + i) mod size (nodes rh))%nat with
          | None => Panic "index out of range"
          | Some h => Ret (ring rh !! h)
          end) 0 (Z.to_nat count) in
      Ret (default [] res).
End ring.

#[global] Instance Rendezvous_hashing `{Hasher} : ConsistentHashing Rendezvous := {|
  AddNode := Rendezvous_AddNode;
  LocateKey := Rendezvous_LocateKey;
  LocateNodes := Rendezvous_LocateNodes;
|}.

#[global] Instance Ring_hashing `{Hasher, GoSort} : ConsistentHashing RingHashing := {|
  AddNode := RingHashing_AddNode;
  LocateKey := RingHashing_LocateKey;
  LocateNodes := RingHashing_LocateNodes;
|}.

(** * Windows of a list: [count] entries from position [m], wrapping around *)

Definition window {A} `{Inhabited A} (l : list A) (m c : nat) : list A :=
  (λ i, l !!! ((m + i) mod length l)%nat) <$> seq 0 c.

#[global] Instance RkvNode_inhabited : Inhabited RkvNode := populate (mkRkvNode "" 0 false).

Lemma window_length {A} `{Inhabited A} (l : list A) m c : length (window l m c) = c.
Proof. unfold window. by rewrite length_fmap, length_seq. Qed.

Lemma window_elem {A} `{Inhabited A} (l : list A) m c x :
  (0 < length l)%nat → x ∈ window l m c → x ∈ l.
Proof.
  intros Hl (i & -> & _)%list_elem_of_fmap.
  eapply list_elem_of_lookup_2, list_lookup_lookup_total_lt.
  apply Nat.mod_upper_bound; lia.
Qed.

Lemma mod_window_inj (L m i j : nat) :
  (i < L)%nat → (j < L)%nat → ((m + i) mod L = (m + j) mod L)%nat → i = j.
Proof.
  intros Hi Hj H. destruct (decide (L = 0)%nat); [lia|].
  assert (∀ a b, (a < L)%nat → (b < L)%nat → (a ≤ b)%nat →
            ((m + a) mod L = (m + b) mod L)%nat → a = b) as Hw.
  { intros a b Ha Hb Hab E.
    pose proof (Nat.div_mod_eq (m + a) L) as Ea. pose proof (Nat.div_mod_eq (m + b) L) as Eb.
    rewrite E in Ea. set (q := ((m + a) / L)%nat) in *. set (q' := ((m + b) / L)%nat) in *.
    destruct (Nat.lt_trichotomy q q') as [?|[?|?]]; [|congruence || lia|]; nia. }
  destruct (decide (i ≤ j)%nat); [by apply Hw|symmetry; apply Hw; lia].
Qed.

Lemma window_NoDup {A} `{Inhabited A} (l : list A) m c :
  NoDup l → (c ≤ length l)%nat → NoDup (window l m c).
Proof.
  intros Hnd Hc. unfold window. apply NoDup_fmap_2_strong; [|apply NoDup_seq].
  intros i j Hi%elem_of_seq Hj%elem_of_seq E.
  destruct (decide (length l = 0)%nat); [lia|].
  apply (mod_window_inj (length l) m); [lia..|].
  eapply (NoDup_lookup l); [done|..].
  - apply list_lookup_lookup_total_lt. by apply Nat.mod_upper_bound.
  - rewrite E. apply list_lookup_lookup_total_lt. by apply Nat.mod_upper_bound.
Qed.

Lemma collect_seq nth (f : nat → RkvNode) i n :
  (∀ j, (i ≤ j < i + n)%nat → nth j = Ret (Some (f j))) →
  collect nth i n = Ret (Some (f <$> seq i n)).
Proof.
  revert i. induction n as [|n IH]; intros i Hnth; [done|]. simpl.
  rewrite Hnth by lia. by rewrite IH by (intros; apply Hnth; lia).
Qed.

(** The loops of both [LocateNodes] return a window. *)
Lemma collect_window (l : list RkvNode) nth m c :
  (0 < length l)%nat →
  (∀ i x, l !! ((m + i) mod length l)%nat = Some x → nth i = Ret (Some x)) →
  collect nth 0 c = Ret (Some (window l m c)).
Proof.
  intros Hl Hnth. apply collect_seq. intros j _. apply Hnth.
  apply list_lookup_lookup_total_lt. apply Nat.mod_upper_bound; lia.
Qed.

(** * The rendezvous partitioner *)

Section rendezvous_facts.
Context `{Hasher}.

Definition score (khash nh : Z) : Z := xorshiftMult64 (Z.lxor khash nh).

(** [m] is the first position of [l] with the largest score. *)
Definition first_max (khash : Z) (l : list Z) (m : nat) : Prop :=
  ∃ x, l !! m = Some x ∧
    (∀ j y, l !! j = Some y → score khash y ≤ score khash x) ∧
    (∀ j y, (j < m)%nat → l !! j = Some y → score khash y < score khash x).

Lemma first_max_unique khash l m m' : first_max khash l m → first_max khash l m' → m = m'.
Proof.
  intros (x & Hx & Hle & Hlt) (x' & Hx' & Hle' & Hlt').
  destruct (Nat.lt_trichotomy m m') as [Hm|[->|Hm]]; [|done|].
  - specialize (Hlt' m x Hm Hx). specialize (Hle m' x' Hx'). lia.
  - specialize (Hlt m' x' Hm Hx'). specialize (Hle' m x Hx). lia.
Qed.

Lemma max_loop_first_max khash pre rest midx x :
  pre ≠ [] → first_max khash pre midx → pre !! midx = Some x →
  first_max khash (pre ++ rest)
    (max_loop khash rest (pred (length pre)) midx (score khash x)).
Proof.
  revert pre midx x. induction rest as [|nh rest IH]; intros pre midx x Hne Hmax Hx.
  { by rewrite app_nil_r. }
  assert (length pre ≠ 0)%nat by (by destruct pre).
  simpl. fold (score khash nh). rewrite cons_middle, (assoc_L (++)).
  destruct Hmax as (x0 & Hx0 & Hle & Hlt). assert (x0 = x) as -> by congruence.
  replace (S (pred (length pre))) with (pred (length (pre ++ [nh])))
    by (rewrite length_app; simpl; lia).
  assert (∀ j y, (pre ++ [nh]) !! j = Some y →
    pre !! j = Some y ∨ (j = length pre ∧ y = nh)) as Hcases.
  { intros j y [Hy|[? Hy]]%lookup_app_Some; [by left|]. right.
    apply list_lookup_singleton_Some in Hy as [??]. split; [lia|done]. }
  destruct (Z.ltb_spec (score khash x) (score khash nh)).
  - replace (pred (length pre) + 1)%nat with (length pre) by lia.
    apply IH; [by destruct pre| |by rewrite lookup_app_r, Nat.sub_diag by lia].
    exists nh. rewrite lookup_app_r, Nat.sub_diag by lia. split_and!; [done|..].
    + intros j y [Hy|[_ ->]]%Hcases; [|lia]. specialize (Hle j y Hy). lia.
    + intros j y Hj [Hy|[-> _]]%Hcases; [|lia]. specialize (Hle j y Hy). lia.
  - apply IH; [by destruct pre| |by apply lookup_app_l_Some].
    exists x. split_and!; [by apply lookup_app_l_Some|..].
    + intros j y [Hy|[_ ->]]%Hcases; [eauto|lia].
    + intros j y Hj [Hy|[-> _]]%Hcases; [eauto|].
      apply lookup_lt_Some in Hx. lia.
Qed.

Lemma Rendezvous_midx_spec r k :
  nhash r ≠ [] → ∃ m, Rendezvous_midx r k = Ret m ∧ first_max (Hash k) (nhash r) m.
Proof.
  intros Hne. unfold Rendezvous_midx. destruct (nhash r) as [|nh0 rest]; [done|].
  eexists. split; [done|]. apply (max_loop_first_max (Hash k) [nh0] rest 0 nh0); [done| |done].
  exists nh0. split_and!; [done| |lia].
  intros [|j] y Hy; simplify_eq/=. lia.
Qed.

Definition rendezvous_holds (r : Rendezvous) (ns : list RkvNode) : Prop :=
  nstr r = ns ∧ nhash r = name_hash <$> ns ∧ NoDup (name_hash <$> ns) ∧
  dom (r_nodes r) = list_to_set ns.

Lemma rendezvous_size r ns : rendezvous_holds r ns → size (r_nodes r) = length ns.
Proof.
  intros (_ & _ & Hnd & Hdom). rewrite <- size_dom, Hdom.
  apply size_list_to_set. by apply NoDup_fmap_1 in Hnd.
Qed.

Lemma rendezvous_new : rendezvous_holds (NewRendezvous []) [].
Proof. split_and!; [done..|constructor|]. apply dom_empty_L. Qed.

Lemma rendezvous_add r ns n :
  rendezvous_holds r ns → name_hash n ∉ name_hash <$> ns →
  rendezvous_holds (Rendezvous_AddNode n r) (ns ++ [n]).
Proof.
  intros (Hs & Hh & Hnd & Hdom) Hn. split_and!; simpl.
  - by rewrite Hs.
  - by rewrite Hh, fmap_app.
  - rewrite fmap_app. apply NoDup_app. split_and!; [done| |apply NoDup_singleton].
    intros h Hh' ->%list_elem_of_singleton. by apply Hn.
  - rewrite dom_insert_L, Hdom. set_solver.
Qed.

Lemma rendezvous_locate r ns k count :
  rendezvous_holds r ns → 0 ≤ count ≤ Z.of_nat (length ns) → ns ≠ [] →
  ∃ m, first_max (Hash k) (name_hash <$> ns) m ∧
    Rendezvous_LocateNodes k count r = Ret (window ns m (Z.to_nat count)) ∧
    Rendezvous_LocateKey k r = Ret (ns !! m).
Proof.
  intros Hr Hc Hne. pose proof (rendezvous_size r ns Hr) as Hsz.
  destruct Hr as (Hs & Hh & _). assert (length ns ≠ 0)%nat by (by destruct ns).
  destruct (Rendezvous_midx_spec r k) as (m & Hm & Hmax).
  { rewrite Hh. by destruct ns. }
  exists m. rewrite Hh in Hmax. split; [done|].
  unfold Rendezvous_LocateNodes, Rendezvous_LocateKey. rewrite Hsz, Hm, Hs. simpl. split.
  - rewrite (proj2 (Z.ltb_ge _ _)), (proj2 (Z.ltb_ge _ _)) by lia.
    rewrite (collect_window ns _ m); [done|lia|]. by intros i x ->.
  - rewrite (proj2 (Nat.eqb_neq _ _)) by done.
    destruct Hmax as (x & Hx & _). rewrite list_lookup_fmap, fmap_Some in Hx.
    by destruct Hx as (n & -> & _).
Qed.

#[global, refine] Instance rendezvous_laws : HashingLaws Rendezvous := {|
  h_holds := rendezvous_holds;
|}.
Proof.
  - intros. by apply rendezvous_add.
  - intros t ns k count Hr Hc. assert (ns ≠ []) by (intros ->; simpl in *; lia).
    destruct (rendezvous_locate t ns k count Hr) as (m & _ & Hloc & _); [lia|done|].
    eexists. split; [exact Hloc|]. split_and!.
    + rewrite window_length. lia.
    + apply window_NoDup; [|lia]. destruct Hr as (_ & _ & Hnd & _).
      by apply NoDup_fmap_1 in Hnd.
    + intros n. apply window_elem. lia.
  - intros t ns k count Hr Hc. simpl. unfold Rendezvous_LocateNodes.
    rewrite (rendezvous_size _ _ Hr). by rewrite (proj2 (Z.ltb_lt _ _)).
Defined.
End rendezvous_facts.

(** * The ring partitioner *)

Section ring_facts.
Context `{Hasher, GoSort}.

Definition by_name (ns : list RkvNode) : gmap string RkvNode :=
  list_to_map ((λ n, (Name n, n)) <$> ns).
Definition by_hash (ns : list RkvNode) : gmap Z RkvNode :=
  list_to_map ((λ n, (name_hash n, n)) <$> ns).

(** The ring of the nodes [ns]: a function of the set of nodes only. *)
Definition ring_holds (rh : RingHashing) (ns : list RkvNode) : Prop :=
  nodes rh = by_name ns ∧ ring rh = by_hash ns ∧
  sortedSet rh ≡ₚ name_hash <$> ns ∧ StronglySorted Z.le (sortedSet rh) ∧
  NoDup (name_hash <$> ns).

Lemma uint64_less_sorted l : StronglySorted (not_after uint64_less) l ↔ StronglySorted Z.le l.
Proof.
  split; apply StronglySorted_impl; intros x y; unfold not_after, uint64_less;
    rewrite Z.ltb_ge; lia.
Qed.

Lemma names_NoDup ns : NoDup (name_hash <$> ns) → NoDup (Name <$> ns).
Proof.
  intros Hnd. unfold name_hash in Hnd.
  change (λ n : RkvNode, Hash (Name n)) with (Hash ∘ Name) in Hnd.
  rewrite list_fmap_compose in Hnd. by apply NoDup_fmap_1 in Hnd.
Qed.

Lemma by_name_size ns : NoDup (name_hash <$> ns) → size (by_name ns) = length ns.
Proof.
  intros Hnd%names_NoDup. unfold by_name. rewrite map_size_list_to_map.
  - by rewrite length_fmap.
  - by rewrite <- list_fmap_compose.
Qed.

Lemma by_hash_lookup ns n :
  NoDup (name_hash <$> ns) → n ∈ ns → by_hash ns !! name_hash n = Some n.
Proof.
  intros Hnd Hn. apply elem_of_list_to_map_1.
  - by rewrite <- list_fmap_compose.
  - apply list_elem_of_fmap. eauto.
Qed.

Lemma ring_new : ring_holds NewRingHashing [].
Proof. split_and!; done || constructor. Qed.

Lemma ring_add rh ns n :
  ring_holds rh ns → name_hash n ∉ name_hash <$> ns →
  ring_holds (RingHashing_AddNode n rh) (ns ++ [n]).
Proof.
  intros (Hn & Hr & Hs & Hsort & Hnd) Hfresh.
  assert (Name n ∉ Name <$> ns) as Hname.
  { intros (n' & E & Hn')%list_elem_of_fmap. apply Hfresh, list_elem_of_fmap.
    exists n'. split; [|done]. unfold name_hash. by rewrite E. }
  unfold RingHashing_AddNode. rewrite Hn. unfold by_name at 1.
  rewrite not_elem_of_list_to_map_1 by (by rewrite <- list_fmap_compose).
  split_and!; cbn [RingHashing_addNode nodes ring sortedSet]; unfold RkvNode_String.
  - rewrite Hn. unfold by_name. rewrite fmap_app. symmetry. apply list_to_map_snoc.
    by rewrite <- list_fmap_compose.
  - rewrite Hr. unfold by_hash. rewrite fmap_app. symmetry. apply list_to_map_snoc.
    by rewrite <- list_fmap_compose.
  - by rewrite sort_slice_perm, Hs, fmap_app.
  - apply uint64_less_sorted, sort_slice_sorted. apply (strict_weak_key id).
  - rewrite fmap_app. apply NoDup_app. split_and!; [done| |apply NoDup_singleton].
    by intros h Hh ->%list_elem_of_singleton.
Qed.

(** The owners of the ring, in the order of their hashes. *)
Definition ring_order (rh : RingHashing) (ns l : list RkvNode) : Prop :=
  l ≡ₚ ns ∧ name_hash <$> l = sortedSet rh.

Lemma ring_order_exists rh ns : ring_holds rh ns → ∃ l, ring_order rh ns l.
Proof.
  intros (_ & _ & Hs & _). apply Permutation_map_inv in Hs as (l & El & Hl).
  exists l. by split.
Qed.

Lemma ring_locate rh ns k count :
  ring_holds rh ns → 0 ≤ count ≤ Z.of_nat (length ns) → ns ≠ [] →
  ∃ l m, ring_order rh ns l ∧ m = Z.to_nat (Hash k `mod` Z.of_nat (length ns)) ∧
    RingHashing_LocateNodes k count rh = Ret (window l m (Z.to_nat count)) ∧
    RingHashing_LocateKey k rh = Ret (l !! m).
Proof.
  intros Hrh Hc Hne. destruct (ring_order_exists _ _ Hrh) as [l Hl]. exists l. eexists.
  split; [done|]. split; [done|]. destruct Hl as [Hp Hh].
  destruct Hrh as (Hn & Hr & Hs & _ & Hnd).
  assert (length ns ≠ 0)%nat by (by destruct ns).
  assert (length l = length ns) as Hlen by (by rewrite Hp).
  assert (∀ i x, l !! i = Some x → sortedSet rh !! i = Some (name_hash x) ∧
                  ring rh !! name_hash x = Some x) as Hlook.
  { intros i x Hx. rewrite <- Hh, list_lookup_fmap, Hx. split; [done|]. rewrite Hr.
    apply by_hash_lookup; [done|]. rewrite <- Hp. by eapply list_elem_of_lookup_2. }
  unfold RingHashing_LocateNodes, RingHashing_LocateKey, RingHashing_FindPartitionID,
    RingHashing_GetPartitionOwner.
  rewrite Hn, by_name_size, (proj2 (Nat.eqb_neq _ _)) by done.
  pose proof (Z.mod_pos_bound (Hash k) (Z.of_nat (length ns))).
  rewrite (proj2 (Z.ltb_ge _ count)), !(proj2 (Z.ltb_ge _ 0)) by lia. simpl. split.
  - rewrite (collect_window l _ (Z.to_nat (Hash k `mod` Z.of_nat (length ns))));
      [done|lia|]. intros i x Hx. rewrite Hlen in Hx.
    by destruct (Hlook _ _ Hx) as [-> ->].
  - destruct (lookup_lt_is_Some_2 l (Z.to_nat (Hash k `mod` Z.of_nat (length ns))))
      as [x Hx]; [lia|]. rewrite Hx. by destruct (Hlook _ _ Hx) as [-> ->].
Qed.

#[global, refine] Instance ring_laws : HashingLaws RingHashing := {|
  h_holds := ring_holds;
|}.
Proof.
  - intros. by apply ring_add.
  - intros t ns k count Hr Hc. assert (ns ≠ []) by (intros ->; simpl in *; lia).
    destruct (ring_locate t ns k count Hr) as (l & m & [Hl _] & _ & Hloc & _); [lia|done|].
    eexists. split; [exact Hloc|]. split_and!.
    + rewrite window_length. lia.
    + apply window_NoDup; [|rewrite Hl; lia]. rewrite Hl.
      destruct Hr as (_ & _ & _ & _ & Hnd). by apply NoDup_fmap_1 in Hnd.
    + intros n Hn. rewrite <- Hl. eapply window_elem; [|exact Hn]. rewrite Hl. lia.
  - intros t ns k count (Hn & _ & _ & _ & Hnd) Hc. simpl. unfold RingHashing_LocateNodes.
    rewrite Hn, by_name_size by done. by rewrite (proj2 (Z.ltb_lt _ _)).
Defined.
End ring_facts.

(** * Properties of the partitioners *)

Section partition_properties.
Context `{Hasher, GoSort}.

(** Building a partitioner from a list of nodes. *)
Definition build {T} `{ConsistentHashing T} (t : T) (ns : list RkvNode) : T :=
  foldl (λ t n, AddNode n t) t ns.

Lemma build_holds {T} `{HashingLaws T} (t : T) ns ns' :
  h_holds t ns → NoDup (name_hash <$> ns ++ ns') → h_holds (build t ns') (ns ++ ns').
Proof.
  revert t ns. induction ns' as [|n ns' IH]; intros t ns Ht Hnd; simpl.
  { by rewrite app_nil_r. }
  rewrite cons_middle, (assoc_L (++)). apply IH.
  - apply h_add; [done|]. rewrite cons_middle, (assoc_L (++)), 2!fmap_app in Hnd.
    apply NoDup_app in Hnd as (Hnd & _ & _). apply NoDup_app in Hnd as (_ & Hn & _).
    intros Hin. apply (Hn _ Hin). by left.
  - by rewrite <- (assoc_L (++)), <- cons_middle.
Qed.

Lemma rendezvous_build ns :
  NoDup (name_hash <$> ns) → rendezvous_holds (build (NewRendezvous []) ns) ns.
Proof. exact (build_holds (T:=Rendezvous) (NewRendezvous []) [] ns rendezvous_new). Qed.
Lemma ring_build ns : NoDup (name_hash <$> ns) → ring_holds (build NewRingHashing ns) ns.
Proof. exact (build_holds (T:=RingHashing) NewRingHashing [] ns ring_new). Qed.

(** C24. Rendezvous placement is stable: adding a node to a partitioner moves a key
    only to the new node, never from one old node to another. *)
Theorem rendezvous_minimal_disruption ns n k :
  ns ≠ [] → NoDup (name_hash <$> ns ++ [n]) →
  let r := build (NewRendezvous []) ns in
  LocateKey k (AddNode n r) = Ret (Some n) ∨ LocateKey k (AddNode n r) = LocateKey k r.
Proof.
  intros Hne Hnd r.
  assert (rendezvous_holds r ns) as Hr.
  { apply rendezvous_build.
    rewrite fmap_app in Hnd. by apply NoDup_app in Hnd as [? _]. }
  assert (rendezvous_holds (Rendezvous_AddNode n r) (ns ++ [n])) as Hr'.
  { apply rendezvous_add; [done|]. rewrite fmap_app in Hnd.
    apply NoDup_app in Hnd as (_ & Hn & _). intros Hin. apply (Hn _ Hin). by left. }
  destruct (rendezvous_locate r ns k 0 Hr) as (m & Hm & _ & Hl); [lia|done|].
  destruct (rendezvous_locate _ (ns ++ [n]) k 0 Hr') as (m' & Hm' & _ & Hl');
    [lia|by destruct ns|].
  simpl. rewrite Hl, Hl'. rewrite fmap_app in Hm'.
  destruct Hm' as (x & Hx & Hle & Hlt). apply lookup_app_Some in Hx as [Hx|[Hge Hx]].
  - right. assert (m = m') as ->.
    { eapply first_max_unique; [done|]. exists x. split_and!; [done|..].
      - intros j y Hy. eapply Hle. by apply lookup_app_l_Some.
      - intros j y Hj Hy. eapply Hlt; [done|]. by apply lookup_app_l_Some. }
    apply lookup_lt_Some in Hx. rewrite length_fmap in Hx. by rewrite lookup_app_l.
  - left. apply list_lookup_singleton_Some in Hx as [Hm0 _]. rewrite length_fmap in *.
    by rewrite lookup_app_r, Hm0 by lia.
Qed.

(** C26. The ring does not depend on the order in which its nodes were added
    (Go's map iteration order, in the callers): permuted node lists build the same
    ring, for every sorter, as long as no two names collide. *)
Theorem ring_order_independent ns ns' :
  ns ≡ₚ ns' → NoDup (name_hash <$> ns) → build NewRingHashing ns = build NewRingHashing ns'.
Proof.
  intros Hp Hnd.
  assert (NoDup (name_hash <$> ns')) as Hnd' by (by rewrite <- Hp).
  destruct (ring_build ns Hnd) as (Hn & Hr & Hs & Hsort & _).
  destruct (ring_build ns' Hnd') as (Hn' & Hr' & Hs' & Hsort' & _).
  simpl in *. destruct (build NewRingHashing ns) as [a b c].
  destruct (build NewRingHashing ns') as [a' b' c']. simpl in *. subst. f_equal.
  - apply list_to_map_proper; [|by rewrite Hp].
    rewrite <- list_fmap_compose. by apply names_NoDup.
  - apply (StronglySorted_unique Z.le); [done..|]. by rewrite Hs, Hs', Hp.
  - apply list_to_map_proper; [|by rewrite Hp]. by rewrite <- list_fmap_compose.
Qed.

(** Both partitioners answer alike to [LocateKey] and [LocateNodes]: the key's
    node is the first of its replicas. *)
Theorem LocateKey_first ns k count :
  NoDup (name_hash <$> ns) → 0 < count ≤ Z.of_nat (length ns) →
  (∃ n rest, LocateKey k (build (NewRendezvous []) ns) = Ret (Some n) ∧
     LocateNodes k count (build (NewRendezvous []) ns) = Ret (n :: rest)) ∧
  (∃ n rest, LocateKey k (build NewRingHashing ns) = Ret (Some n) ∧
     LocateNodes k count (build NewRingHashing ns) = Ret (n :: rest)).
Proof.
  intros Hnd Hc. assert (ns ≠ []) as Hne by (intros ->; simpl in *; lia).
  assert (∀ (l : list RkvNode) m, (m < length l)%nat → ∃ n rest,
    l !! m = Some n ∧ window l m (Z.to_nat count) = n :: rest) as Hw.
  { intros l m Hm. replace (Z.to_nat count) with (S (pred (Z.to_nat count))) by lia.
    exists (l !!! m). eexists. split; [by apply list_lookup_lookup_total_lt|].
    unfold window. cbn [seq fmap list_fmap]. by rewrite Nat.add_0_r, Nat.mod_small. }
  split.
  - destruct (rendezvous_locate _ ns k count
      (rendezvous_build ns Hnd)) as (m & Hm & Hn & Hk);
      [lia|done|].
    simpl in *. rewrite Hk, Hn. destruct Hm as (x & Hx & _). apply lookup_lt_Some in Hx.
    rewrite length_fmap in Hx. destruct (Hw ns m Hx) as (n & rest & -> & ->). eauto.
  - destruct (ring_locate _ ns k count
      (ring_build ns Hnd)) as (l & m & [Hl _] & -> & Hn & Hk);
      [lia|done|].
    simpl in *. rewrite Hk, Hn.
    pose proof (Z.mod_pos_bound (Hash k) (Z.of_nat (length ns))).
    destruct (Hw l (Z.to_nat (Hash k `mod` Z.of_nat (length ns)))) as (n & rest & -> & ->);
      [rewrite Hl; lia|]. eauto.
Qed.
End partition_properties.

(** * Concrete instances *)

(** A hash to run the definitions with: the first eight bytes of the name. *)
#[local, refine] Instance toy_Hasher : Hasher := {| Hash s := uint64 (le_get s) |}.
Proof. intros. apply uint64_range. Defined.

Definition node (name : string) : RkvNode := mkRkvNode name 0 false.

Lemma rendezvous_minimal_disruption_witness :
  let r := build (NewRendezvous []) [node "a"; node "b"] in
  LocateKey "key" (AddNode (node "c") r) = Ret (Some (node "c")) ∨
  LocateKey "key" (AddNode (node "c") r) = LocateKey "key" r.
Proof.
  apply (rendezvous_minimal_disruption [node "a"; node "b"] (node "c") "key"); [done|].
  apply (bool_decide_unpack _). by vm_compute.
Defined.

Lemma ring_order_independent_witness :
  build NewRingHashing [node "a"; node "b"] = build NewRingHashing [node "b"; node "a"].
Proof.
  apply ring_order_independent; [apply Permutation_swap|].
  apply (bool_decide_unpack _). by vm_compute.
Defined.

Lemma LocateKey_first_witness :
  ∃ n rest, LocateKey "key" (build NewRingHashing [node "a"; node "b"]) = Ret (Some n) ∧
    LocateNodes "key" 2 (build NewRingHashing [node "a"; node "b"]) = Ret (n :: rest).
Proof.
  apply (LocateKey_first [node "a"; node "b"] "key" 2); [|simpl; lia].
  apply (bool_decide_unpack _). by vm_compute.
Defined.

(** The ring is not a consistent hash: adding a third node can move a key from
    one of the two old nodes to the other, since the partition is the key's hash
    modulo the number of nodes. *)
Theorem ring_moves_between_old_nodes :
  let rh := build NewRingHashing [node "a"; node "b"] in
  let k := String (ascii_of_N 3) "" in
  LocateKey k rh = Ret (Some (node "b")) ∧
  LocateKey k (AddNode (node "c") rh) = Ret (Some (node "a")).
Proof. split; by vm_compute. Qed.
