(* ===== verification/XXHash.v ===== *)
(** The hash of the partitioners: [rkvHash] of src/pkg/partition/consistent/hashing.go is
    [xxhash.Sum64] of the vendored github.com/cespare/xxhash (its portable version;
    src/vendor/github.com/cespare/xxhash/xxhash_other.go), the 64-bit xxHash.  The theorems
    on the partitioners hold for every [Hasher]; with this one the placement of a concrete
    configuration can be evaluated. *)
From Stdlib Require Import Ascii.
From stdpp Require Import base list strings.
From S2P Require Import Prelude GoStd Hashing.

Open Scope Z_scope.

Definition prime1 : Z := 11400714785074694791.
Definition prime2 : Z := 14029467366897019727.
Definition prime3 : Z := 1609587929392839161.
Definition prime4 : Z := 9650029242287828579.
Definition prime5 : Z := 2870177450012600261.

(** [rol<k>]. *)
Definition rol (k x : Z) : Z := Z.lor (uint64 (Z.shiftl x k)) (Z.shiftr x (64 - k)).

Definition round (acc input : Z) : Z :=
  let acc := uint64 (acc + uint64 (input * prime2)) in
  let acc := rol 31 acc in
  uint64 (acc * prime1).

Definition mergeRound (acc val : Z) : Z :=
  let val := round 0 val in
  let acc := Z.lxor acc val in
  uint64 (uint64 (acc * prime1) + prime4).

(** [b[i:j]], and [b[i:]]. *)
Definition slice (i j : nat) (b : string) : string := String.substring i (j - i) b.
Definition after_byte (i : nat) (b : string) : string := String.substring i (String.length b - i) b.

(** The loop over blocks of 32 bytes; [fuel] is the length. *)
Fixpoint blocks (fuel : nat) (v : Z * Z * Z * Z) (b : string) : (Z * Z * Z * Z) * string :=
  match fuel with
  | O => (v, b)
  | S fuel =>
      if (32 <=? String.length b)%nat then
        let '(v1, v2, v3, v4) := v in
        blocks fuel
          (round v1 (le_get (slice 0 8 b)), round v2 (le_get (slice 8 16 b)),
           round v3 (le_get (slice 16 24 b)), round v4 (le_get (slice 24 32 b))) (after_byte 32 b)
      else (v, b)
  end.

(** The loop over words of eight bytes. *)
Fixpoint words (fuel : nat) (h : Z) (b : string) : Z * string :=
  match fuel with
  | O => (h, b)
  | S fuel =>
      if (8 <=? String.length b)%nat then
        let k1 := round 0 (le_get (slice 0 8 b)) in
        let h := Z.lxor h k1 in
        words fuel (uint64 (uint64 (rol 27 h * prime1) + prime4)) (after_byte 8 b)
      else (h, b)
  end.

(** The loop over the last bytes. *)
Fixpoint last_bytes (h : Z) (b : string) : Z :=
  match b with
  | EmptyString => h
  | String c b' =>
      let h := Z.lxor h (uint64 (byte_val c * prime5)) in
      last_bytes (uint64 (rol 11 h * prime1)) b'
  end.

Definition Sum64 (b : string) : Z :=
  let n := String.length b in
  let '(h, b) :=
    if (32 <=? n)%nat then
      let '((v1, v2, v3, v4), b) :=
        blocks n (uint64 (prime1 + prime2), prime2, 0, uint64 (- prime1)) b in
      let h := uint64 (uint64 (uint64 (rol 1 v1 + rol 7 v2) + rol 12 v3) + rol 18 v4) in
      (mergeRound (mergeRound (mergeRound (mergeRound h v1) v2) v3) v4, b)
    else (prime5, b) in
  let h := uint64 (h + Z.of_nat n) in
  let '(h, b) := words n h b in
  let '(h, b) :=
    if (4 <=? String.length b)%nat then
      let h := Z.lxor h (uint64 (le_get (slice 0 4 b) * prime1)) in
      (uint64 (uint64 (rol 23 h * prime2) + prime3), after_byte 4 b)
    else (h, b) in
  let h := last_bytes h b in
  let h := Z.lxor h (Z.shiftr h 33) in
  let h := uint64 (h * prime2) in
  let h := Z.lxor h (Z.shiftr h 29) in
  let h := uint64 (h * prime3) in
  Z.lxor h (Z.shiftr h 32).

Lemma lxor_range x y : is_uint64 x → is_uint64 y → is_uint64 (Z.lxor x y).
Proof.
  intros [Hx0 Hx] [Hy0 Hy]. assert (0 ≤ Z.lxor x y) as H0 by (apply Z.lxor_nonneg; lia).
  split; [done|]. destruct (Z.eq_dec (Z.lxor x y) 0) as [->|Hne]; [done|].
  apply Z.log2_lt_pow2; [lia|]. pose proof (Z.log2_lxor x y Hx0 Hy0) as Hl.
  assert (∀ z, 0 ≤ z → z < 2^64 → Z.log2 z < 64) as Hlog.
  { intros z Hz Hz'. destruct (Z.eq_dec z 0) as [->|]; [done|]. apply Z.log2_lt_pow2; lia. }
  pose proof (Hlog x Hx0 Hx). pose proof (Hlog y Hy0 Hy). lia.
Qed.

Lemma shiftr_range x k : 0 ≤ k → is_uint64 x → is_uint64 (Z.shiftr x k).
Proof.
  intros Hk [H0 H1]. unfold is_uint64. rewrite Z.shiftr_div_pow2 by done.
  pose proof (Z.pow_pos_nonneg 2 k ltac:(lia) Hk). split; [apply Z.div_pos; lia|].
  apply Z.le_lt_trans with x; [|done]. apply Z.div_le_upper_bound; nia.
Qed.

Lemma Sum64_range b : is_uint64 (Sum64 b).
Proof.
  unfold Sum64. repeat match goal with |- context [let '(_, _) := ?p in _] => destruct p end.
  apply lxor_range; [|apply shiftr_range; [done|]]; apply uint64_range.
Qed.

(** [rkvHash]. *)
Definition rkvHash_Hasher : Hasher := {| Hash := Sum64; Hash_range := Sum64_range |}.

(** The digests of the reference implementation. *)
Example Sum64_empty : Sum64 "" = 0xef46db3751d8e999.
Proof. by vm_compute. Qed.
Example Sum64_a : Sum64 "a" = 0xd24ec4f1a98c6e5b.
Proof. by vm_compute. Qed.
Example Sum64_long :
  Sum64 "Call me Ishmael. Some years ago--never mind how long precisely-" = 0x02a2e85470d6fd96.
Proof. by vm_compute. Qed.
