(* ===== verification/HashingManager.v ===== *)
(** Which nodes a revision is stored on: src/pkg/partition/consistent/hashing.go
    (the factory and the two hashing managers) and the string types of
    src/pkg/constants.

    The managers are proved correct against [HashingLaws], so for both
    partitioners at once.  Go maps whose iteration order the program observes are
    lists of pairs in that order. *)
From Stdlib Require Import Ascii.
From stdpp Require Import base gmap sets list strings pretty sorting.
From S2P Require Import Prelude GoStd Hashing.

Open Scope Z_scope.

(** * src/pkg/constants *)

Abbreviation AvailabilityZone := string (only parsing).
Definition AvailabilityZone_Name (az : AvailabilityZone) : string := az.

Abbreviation ConsistentHashingType := string (only parsing).
Definition rendezvous_type : ConsistentHashingType := "rendezvous".
Definition ring_type : ConsistentHashingType := "ring".

Abbreviation HashingManagerType := string (only parsing).
Definition SyncAsync : HashingManagerType := "syncAsync".
Definition Sync : HashingManagerType := "sync".

(** * A partitioner chosen at run time *)

Inductive chash := CRendezvous (r : Rendezvous) | CRing (rh : RingHashing).

#[global] Instance chash_hashing `{Hasher, GoSort} : ConsistentHashing chash := {|
  AddNode n c := match c with
                 | CRendezvous r => CRendezvous (AddNode n r)
                 | CRing rh => CRing (AddNode n rh)
                 end;
  LocateKey k c := match c with
                   | CRendezvous r => LocateKey k r
                   | CRing rh => LocateKey k rh
                   end;
  LocateNodes k count c := match c with
                           | CRendezvous r => LocateNodes k count r
                           | CRing rh => LocateNodes k count rh
                           end;
|}.

#[global, refine] Instance chash_laws `{Hasher, GoSort} : HashingLaws chash := {|
  h_holds c ns := match c with
                  | CRendezvous r => h_holds r ns
                  | CRing rh => h_holds rh ns
                  end;
|}.
Proof.
  - intros [r|rh] ns n; simpl; [apply rendezvous_add|apply ring_add].
  - intros [r|rh] ns k count;
      [apply (h_enough (T:=Rendezvous))|apply (h_enough (T:=RingHashing))].
  - intros [r|rh] ns k count;
      [apply (h_short (T:=Rendezvous))|apply (h_short (T:=RingHashing))].
Defined.

Section managers.
Context `{Hasher, GoSort}.

Definition Factory (hashingType : ConsistentHashingType) : chash :=
  if bool_decide (hashingType = rendezvous_type) then CRendezvous (NewRendezvous [])
  else if bool_decide (hashingType = ring_type) then CRing NewRingHashing
  else CRendezvous (NewRendezvous []).

Definition convertNodeArrToStringArr (nodes : list RkvNode) : list string :=
  RkvNode_String <$> nodes.

(** * SyncHashingManager *)

Record SyncHashingManager := mkSyncHashingManager { hasing : chash; count : Z }.

Definition NewSyncHashingManager (hashingType : ConsistentHashingType)
    (nodes : list RkvNode) (count : Z) : SyncHashingManager :=
  mkSyncHashingManager (foldl (λ h node, AddNode node h) (Factory hashingType) nodes) count.

Definition SyncHashingManager_GetSyncNodes (shm : SyncHashingManager) (k : string)
    : outcome (list RkvNode) :=
  LocateNodes k (count shm) (hasing shm).

Definition SyncHashingManager_GetAsyncNodes (shm : SyncHashingManager) (k : string)
    : outcome (list RkvNode) := Ret [].

Definition SyncHashingManager_GetNodes (shm : SyncHashingManager) (k : string)
    : outcome (list string) :=
  let! syncNodes := SyncHashingManager_GetSyncNodes shm k in
  Ret [Join "," (convertNodeArrToStringArr syncNodes)].

(** * SyncByZoneAsyncHashingManager *)

Record SyncByZoneAsyncHashingManager := mkSyncByZone {
  AzHashing : chash;
  LocalHashing : gmap string chash;
  RemoteHasing : chash;
  LatencyMap : gmap string Z;
  LocalCount : Z;
  RemoteCount : Z;
}.

(** The constructor's loops, on the three tables they fill. *)
Definition add_store (st : chash * gmap string Z) (store : RkvNode)
    : chash * gmap string Z :=
  (AddNode store st.1, <[Name store := Latency store]> st.2).

Definition add_zone (hashingType : ConsistentHashingType)
    (st : chash * gmap string chash * gmap string Z) (zone : string * list RkvNode)
    : chash * gmap string chash * gmap string Z :=
  let '(azRing, localRing, latencyMap) := st in
  let '(az, stores) := zone in
  let azRing := AddNode (mkRkvNode (AvailabilityZone_Name az) 0 false) azRing in
  let local := default (Factory hashingType) (localRing !! az) in
  let '(local, latencyMap) := foldl add_store (local, latencyMap) stores in
  (azRing, <[az := local]> localRing, latencyMap).

Definition NewSyncAsyncHashingManager (hashingType : ConsistentHashingType)
    (localStores : list (string * list RkvNode)) (localCount : Z)
    (remoteStores : list RkvNode) (remoteCount : Z) : SyncByZoneAsyncHashingManager :=
  let '(azRing, localRing, latencyMap) :=
    foldl (add_zone hashingType) (Factory hashingType, ∅, ∅) localStores in
  let '(remoteRing, latencyMap) :=
    foldl add_store (Factory hashingType, latencyMap) remoteStores in
  mkSyncByZone azRing localRing remoteRing latencyMap localCount remoteCount.

Definition zone_error (want got : Z) : error :=
  "failed to get " +:+ pretty want +:+ " zones. The return number is " +:+ pretty got.
Definition local_error (got : Z) : error :=
  "failed to get 1 local node. The return number is " +:+ pretty got.
Definition remote_error (want got : Z) : error :=
  "failed to get " +:+ pretty want +:+ " remote nodes. The return number is " +:+ pretty got.

(** The loop over the zones: one node of each. *)
Fixpoint zone_nodes (sahm : SyncByZoneAsyncHashingManager) (k : string)
    (azs : list RkvNode) : outcome (list RkvNode) :=
  match azs with
  | [] => Ret []
  | az :: azs' =>
      match LocalHashing sahm !! RkvNode_String az with
      | None => Panic "invalid memory address or nil pointer dereference"
      | Some h =>
          let! lnodes := LocateNodes k 1 h in
          match lnodes with
          | [n] =>
              let! rest := zone_nodes sahm k azs' in
              Ret (mkRkvNode (RkvNode_String n)
                     (default 0 (LatencyMap sahm !! RkvNode_String n)) false :: rest)
          | _ => Fail (local_error (Z.of_nat (length lnodes)))
          end
      end
  end.

Definition latency_less (x y : RkvNode) : bool := Latency x <? Latency y.

Definition SyncByZone_GetSyncNodes (sahm : SyncByZoneAsyncHashingManager) (k : string)
    : outcome (list RkvNode) :=
  if LocalCount sahm <? 1 then Ret []
  else
    let! azs := LocateNodes k (LocalCount sahm) (AzHashing sahm) in
    if negb (Z.of_nat (length azs) =? LocalCount sahm)
    then Fail (zone_error (LocalCount sahm) (Z.of_nat (length azs)))
    else
      let! nodesWithLatency := zone_nodes sahm k azs in
      Ret (sort_slice latency_less nodesWithLatency).

Definition SyncByZone_GetAsyncNodes (sahm : SyncByZoneAsyncHashingManager) (k : string)
    : outcome (list RkvNode) :=
  if RemoteCount sahm <? 1 then Ret []
  else
    let! rnodes := LocateNodes k (RemoteCount sahm) (RemoteHasing sahm) in
    if negb (Z.of_nat (length rnodes) =? RemoteCount sahm)
    then Fail (remote_error (RemoteCount sahm) (Z.of_nat (length rnodes)))
    else Ret rnodes.

Definition SyncByZone_GetNodes (sahm : SyncByZoneAsyncHashingManager) (k : string)
    : outcome (list string) :=
  let! syncNodes := SyncByZone_GetSyncNodes sahm k in
  let syncNodesString := Join "," (convertNodeArrToStringArr syncNodes) in
  let! asyncNodes := SyncByZone_GetAsyncNodes sahm k in
  let asyncNodesString := Join "," (convertNodeArrToStringArr asyncNodes) in
  Ret [syncNodesString; asyncNodesString].

(** * The HashingManager interface *)

Inductive HashingManager :=
  | HMSync (shm : SyncHashingManager)
  | HMSyncAsync (sahm : SyncByZoneAsyncHashingManager).

Definition GetSyncNodes (hm : HashingManager) (k : string) : outcome (list RkvNode) :=
  match hm with
  | HMSync shm => SyncHashingManager_GetSyncNodes shm k
  | HMSyncAsync sahm => SyncByZone_GetSyncNodes sahm k
  end.
Definition GetAsyncNodes (hm : HashingManager) (k : string) : outcome (list RkvNode) :=
  match hm with
  | HMSync shm => SyncHashingManager_GetAsyncNodes shm k
  | HMSyncAsync sahm => SyncByZone_GetAsyncNodes sahm k
  end.
Definition GetNodes (hm : HashingManager) (k : string) : outcome (list string) :=
  match hm with
  | HMSync shm => SyncHashingManager_GetNodes shm k
  | HMSyncAsync sahm => SyncByZone_GetNodes sahm k
  end.
End managers.

(** * What the constructors build *)

Section manager_facts.
Context `{Hasher, GoSort}.

Lemma Factory_holds t : h_holds (Factory t) [].
Proof.
  unfold Factory. repeat case_bool_decide; simpl; auto using rendezvous_new, ring_new.
Qed.

Lemma Factory_build t ns : NoDup (name_hash <$> ns) → h_holds (build (Factory t) ns) ns.
Proof. exact (build_holds (T:=chash) (Factory t) [] ns (Factory_holds t)). Qed.

(** The latency table: the last store of a name wins. *)
Definition latencies (stores : list RkvNode) (m : gmap string Z) : gmap string Z :=
  foldl (λ m store, <[Name store := Latency store]> m) m stores.

Lemma add_stores h m stores :
  foldl add_store (h, m) stores = (build h stores, latencies stores m).
Proof. revert h m. induction stores as [|s stores IH]; intros h m; simpl; [done|apply IH]. Qed.

Lemma latencies_lookup stores m store :
  NoDup (Name <$> stores) → store ∈ stores → latencies stores m !! Name store = Some (Latency store).
Proof.
  assert (∀ stores m k, k ∉ Name <$> stores → latencies stores m !! k = m !! k) as Hother.
  { clear. induction stores as [|s stores IH]; intros m k Hk; [done|].
    rewrite fmap_cons, not_elem_of_cons in Hk. destruct Hk as [Hs Hk]. simpl.
    rewrite IH by done. by rewrite lookup_insert_ne. }
  revert m. induction stores as [|s stores IH]; intros m Hnd; [by intros ?%not_elem_of_nil|].
  rewrite fmap_cons, NoDup_cons in Hnd. destruct Hnd as [Hs Hnd].
  intros [->|Hin]%elem_of_cons; [|by apply IH]. simpl.
  rewrite Hother by done. apply lookup_insert_eq.
Qed.

Definition zone_node (az : string) : RkvNode := mkRkvNode az 0 false.

Lemma add_zones t zs :
  NoDup zs.*1 →
  ∃ lr, foldl (add_zone t) (Factory t, ∅, ∅) zs =
      (build (Factory t) (zone_node <$> zs.*1), lr, latencies (zs ≫= snd) ∅) ∧
    ∀ az, lr !! az = build (Factory t) <$> (list_to_map zs : gmap string _) !! az.
Proof.
  induction zs as [|[az stores] zs IH] using rev_ind; intros Hnd.
  { exists ∅. split; [done|]. intros az. by rewrite !lookup_empty. }
  rewrite fmap_app in Hnd. apply NoDup_app in Hnd as (Hnd & Hnew & _).
  destruct IH as (lr & IH & Hlr); [done|].
  assert (az ∉ zs.*1) as Haz.
  { intros Hin. apply (Hnew _ Hin). by left. }
  exists (<[az := build (Factory t) stores]> lr). split.
  - rewrite foldl_snoc, IH. unfold add_zone. rewrite Hlr.
    rewrite not_elem_of_list_to_map_1 by done. simpl. rewrite add_stores.
    unfold build, latencies. rewrite !fmap_app, bind_app, !foldl_app. simpl.
    by rewrite app_nil_r.
  - intros az'. rewrite list_to_map_snoc by done.
    destruct (decide (az = az')) as [->|]; [by rewrite !lookup_insert_eq|].
    by rewrite !lookup_insert_ne.
Qed.

(** Zones and stores as a sane configuration has them: at least one store per
    zone, and no hash collisions among the zones or within a zone. *)
Definition zones_ok (zs : list (string * list RkvNode)) : Prop :=
  NoDup (Hash <$> zs.*1) ∧
  Forall (λ z, z.2 ≠ [] ∧ NoDup (name_hash <$> z.2)) zs.

Lemma zones_ok_names zs : zones_ok zs → NoDup zs.*1.
Proof. intros [Hnd _]. by apply NoDup_fmap_1 in Hnd. Qed.

(** A manager of the zones [zs] and the remote stores [rs]. *)
Definition manages (sahm : SyncByZoneAsyncHashingManager)
    (zs : list (string * list RkvNode)) (rs : list RkvNode) : Prop :=
  h_holds (AzHashing sahm) (zone_node <$> zs.*1) ∧
  (∀ az stores, (az, stores) ∈ zs → ∃ h, LocalHashing sahm !! az = Some h ∧ h_holds h stores) ∧
  h_holds (RemoteHasing sahm) rs ∧
  LatencyMap sahm = latencies rs (latencies (zs ≫= snd) ∅).

Lemma New_manages t zs lc rs rc :
  zones_ok zs → NoDup (name_hash <$> rs) →
  manages (NewSyncAsyncHashingManager t zs lc rs rc) zs rs ∧
  LocalCount (NewSyncAsyncHashingManager t zs lc rs rc) = lc ∧
  RemoteCount (NewSyncAsyncHashingManager t zs lc rs rc) = rc.
Proof.
  intros Hz Hrs. pose proof (zones_ok_names zs Hz) as Hnd. destruct Hz as [Hh Hzs].
  unfold NewSyncAsyncHashingManager.
  destruct (add_zones t zs Hnd) as (lr & -> & Hlr). rewrite add_stores.
  split_and!; cbn [LocalCount RemoteCount]; [|done..]. split_and!; simpl.
  - apply Factory_build. rewrite <- list_fmap_compose. exact Hh.
  - intros az stores Hin. exists (build (Factory t) stores). split.
    + rewrite Hlr. by rewrite (elem_of_list_to_map_1 _ az stores).
    + apply Factory_build. rewrite Forall_forall in Hzs. by apply (Hzs (az, stores)).
  - by apply Factory_build.
  - done.
Qed.

(** [n] is a store of the zone [az], shown with the latency the manager knows. *)
Definition zone_pick (sahm : SyncByZoneAsyncHashingManager)
    (zs : list (string * list RkvNode)) (az : string) (n : RkvNode) : Prop :=
  ∃ stores s, (az, stores) ∈ zs ∧ s ∈ stores ∧
    n = mkRkvNode (Name s) (default 0 (LatencyMap sahm !! Name s)) false.

Lemma zone_nodes_spec sahm zs rs k azs :
  zones_ok zs → manages sahm zs rs → (∀ az, az ∈ azs → Name az ∈ zs.*1) →
  ∃ ns, zone_nodes sahm k azs = Ret ns ∧ Forall2 (zone_pick sahm zs) (Name <$> azs) ns.
Proof.
  intros Hz (_ & Hloc & _) Hin. induction azs as [|az azs IH]; [by exists []|].
  destruct IH as (ns & Hns & HF). { intros az' ?. apply Hin. by right. }
  assert (Name az ∈ zs.*1) as ([az' stores] & E & Hzs)%list_elem_of_fmap by (apply Hin; by left).
  simpl in E. subst az'. destruct (Hloc _ _ Hzs) as (h & Hl & Hh).
  assert (stores ≠ []) as Hne.
  { destruct Hz as [_ HF']. rewrite Forall_forall in HF'. by apply (HF' _ Hzs). }
  destruct (h_enough h stores k 1 Hh) as (res & Hres & Hlen & _ & Hsub).
  { destruct stores; [done|simpl; lia]. }
  destruct res as [|n [|]]; [simpl in Hlen; lia| |simpl in Hlen; lia].
  simpl. unfold RkvNode_String at 1. rewrite Hl. simpl in Hres. rewrite Hres. simpl.
  rewrite Hns. simpl. eexists. split; [done|]. constructor; [|done].
  exists stores, n. split_and!; [done| |done]. apply Hsub. by left.
Qed.

Lemma GetSyncNodes_spec sahm zs rs k :
  zones_ok zs → manages sahm zs rs → 1 ≤ LocalCount sahm ≤ Z.of_nat (length zs) →
  ∃ azs ns, SyncByZone_GetSyncNodes sahm k = Ret (sort_slice latency_less ns) ∧
    Z.of_nat (length azs) = LocalCount sahm ∧ NoDup azs ∧
    Forall2 (zone_pick sahm zs) azs ns.
Proof.
  intros Hz Hm Hc. pose proof Hm as (Haz & _).
  destruct (h_enough _ _ k (LocalCount sahm) Haz) as (azs & Hazs & Hlen & Hnd & Hsub).
  { rewrite !length_fmap. lia. }
  destruct (zone_nodes_spec sahm zs rs k azs Hz Hm) as (ns & Hns & HF).
  { intros az (z & -> & Hz')%Hsub%list_elem_of_fmap. done. }
  exists (Name <$> azs), ns. split_and!; [|by rewrite length_fmap| |done].
  2: { apply NoDup_fmap_2_strong; [|done]. by intros az az' (z & -> & _)%Hsub%list_elem_of_fmap
         (z' & -> & _)%Hsub%list_elem_of_fmap [= ->]. }
  unfold SyncByZone_GetSyncNodes.
  rewrite (proj2 (Z.ltb_ge _ _)), Hazs by lia. simpl.
  rewrite (proj2 (Z.eqb_eq _ _) Hlen). simpl. by rewrite Hns.
Qed.

(** ** Properties *)

(** C25. Placement across zones: for a configuration with enough zones, each with a
    store, the manager's synchronous replicas are exactly the configured number,
    one store in each of that many availability zones, whose names [azs] are pairwise
    different, in increasing order of latency -- so the first, the one reads go to, is a closest one. *)
Theorem GetSyncNodes_zones t zs lc rs rc k :
  zones_ok zs → NoDup (name_hash <$> rs) → 1 ≤ lc ≤ Z.of_nat (length zs) →
  let sahm := NewSyncAsyncHashingManager t zs lc rs rc in
  ∃ res (azs : list string) ns, SyncByZone_GetSyncNodes sahm k = Ret res ∧ res ≡ₚ ns ∧
    StronglySorted (λ x y, Latency x ≤ Latency y) res ∧
    Z.of_nat (length res) = lc ∧ NoDup azs ∧ Forall2 (zone_pick sahm zs) azs ns.
Proof.
  intros Hz Hrs Hc sahm. destruct (New_manages t zs lc rs rc Hz Hrs) as (Hm & Hlc & _).
  fold sahm in Hm, Hlc.
  destruct (GetSyncNodes_spec sahm zs rs k Hz Hm) as (azs & ns & Hget & Hlen & Hnd & HF);
    [by rewrite Hlc|].
  eexists _, azs, ns. split; [exact Hget|]. split_and!.
  - apply sort_slice_perm.
  - apply (StronglySorted_impl (not_after latency_less)).
    + intros x y. unfold not_after, latency_less. by rewrite Z.ltb_ge.
    + apply sort_slice_sorted, (strict_weak_key Latency).
  - rewrite sort_slice_perm, <- (Forall2_length _ _ _ HF). by rewrite Hlen.
  - done.
  - done.
Qed.

(** Too few zones or remote stores is an error of [GetNodes], never a shorter
    list of replicas: asking for more synchronous replicas than there are zones,
    or more asynchronous ones than there are remote stores, fails. *)
Theorem GetNodes_too_few t zs lc rs rc k :
  zones_ok zs → NoDup (name_hash <$> rs) → 0 ≤ lc →
  Z.of_nat (length zs) < lc ∨ (lc ≤ Z.of_nat (length zs) ∧ Z.of_nat (length rs) < rc) →
  ∃ e, GetNodes (HMSyncAsync (NewSyncAsyncHashingManager t zs lc rs rc)) k = Fail e.
Proof.
  intros Hz Hrs Hlc0 Hc. destruct (New_manages t zs lc rs rc Hz Hrs) as (Hm & Hlc & Hrc).
  simpl. unfold SyncByZone_GetNodes. destruct Hc as [Hc|[Hc Hr]].
  - unfold SyncByZone_GetSyncNodes. pose proof Hm as (Haz & _). rewrite Hlc.
    rewrite (proj2 (Z.ltb_ge _ _)) by lia.
    rewrite (h_short _ _ k lc Haz) by (rewrite !length_fmap; lia).
    cbn [obind length]. rewrite (proj2 (Z.eqb_neq _ _)) by lia. simpl. eauto.
  - assert (∃ l, SyncByZone_GetSyncNodes (NewSyncAsyncHashingManager t zs lc rs rc) k = Ret l)
      as [l ->].
    { destruct (decide (lc < 1)) as [Hl|Hl].
      - unfold SyncByZone_GetSyncNodes. rewrite Hlc, (proj2 (Z.ltb_lt _ _) Hl). eauto.
      - destruct (GetSyncNodes_spec _ zs rs k Hz Hm) as (azs & ns & Hget & _); [lia|]. eauto. }
    simpl. unfold SyncByZone_GetAsyncNodes. pose proof Hm as (_ & _ & Hrem & _). rewrite Hrc.
    rewrite (proj2 (Z.ltb_ge _ _)) by lia. rewrite (h_short _ _ k rc Hrem) by lia.
    cbn [obind length]. rewrite (proj2 (Z.eqb_neq _ _)) by lia. simpl. eauto.
Qed.
End manager_facts.

(** * Concrete instances *)

#[local, refine] Instance demo_Hasher : Hasher := {| Hash s := uint64 (le_get s) |}.
Proof. intros. apply uint64_range. Defined.

Definition demo_zones : list (string * list RkvNode) :=
  [("za"%string, [mkRkvNode "a1" 30 false; mkRkvNode "a2" 20 false]);
   ("zb"%string, [mkRkvNode "b1" 10 false])].

Lemma demo_zones_ok : zones_ok demo_zones.
Proof.
  split; [apply (bool_decide_unpack _); by vm_compute|].
  repeat constructor; try done; apply (bool_decide_unpack _); by vm_compute.
Qed.

Lemma GetSyncNodes_zones_witness :
  let sahm := NewSyncAsyncHashingManager ring_type demo_zones 2 [] 0 in
  ∃ res (azs : list string) ns, SyncByZone_GetSyncNodes sahm "k" = Ret res ∧ res ≡ₚ ns ∧
    StronglySorted (λ x y, Latency x ≤ Latency y) res ∧
    Z.of_nat (length res) = 2 ∧ NoDup azs ∧ Forall2 (zone_pick sahm demo_zones) azs ns.
Proof.
  apply (GetSyncNodes_zones ring_type demo_zones 2 [] 0 "k" demo_zones_ok); [constructor|].
  simpl. lia.
Defined.

Lemma GetNodes_too_few_witness :
  ∃ e, GetNodes (HMSyncAsync (NewSyncAsyncHashingManager ring_type demo_zones 3 [] 0)) "k" = Fail e.
Proof.
  apply (GetNodes_too_few ring_type demo_zones 3 [] 0 "k" demo_zones_ok);
    [constructor|lia|left; simpl; lia].
Defined.
