(* ===== verification/Latency.v ===== *)
(** Measuring the distance to a store: src/pkg/network/latency.

    A probe dials the target; what the dialer reports and the readings of the clock are
    its argument, a [dial], and [connectDuration] computes the result.  The results of
    the probes are a list in the order in which the worker goroutines append them under
    the mutex; everything computed from them is defined here, in wrap-around [int64]
    arithmetic. *)
From stdpp Require Import base list strings pretty.
From S2P Require Import Prelude GoStd.

Open Scope Z_scope.

Record Sample := mkSample { Success : bool; Duration : Z }.

(** [Measurements] is [[]Sample]; nanoseconds are the representation of
    [time.Duration]. *)
Definition Measurements_Append (m : list Sample) (s : Sample) : list Sample := m ++ [s].

Fixpoint Measurements_InsuccessCount (m : list Sample) : Z :=
  match m with
  | [] => 0
  | s :: m' => (if negb (Success s) then 1 else 0) + Measurements_InsuccessCount m'
  end.

Definition Measurements_AllSeconds (m : list Sample) : list Z := Duration <$> m.

Fixpoint Measurements_SuccessSeconds (m : list Sample) : list Z :=
  match m with
  | [] => []
  | s :: m' =>
      if Success s then Duration s :: Measurements_SuccessSeconds m'
      else Measurements_SuccessSeconds m'
  end.

Record distribution := mkDistribution { Average : Z }.

Definition average (x : list Z) : distribution :=
  match x with
  | [] => mkDistribution 0
  | _ => let sum := foldl (λ sum v, int64 (sum + v)) 0 x in
         mkDistribution (int64 (sum `quot` Z.of_nat (length x)))
  end.

(** The two pointers of the Go struct; [Success] stays nil on an error. *)
Record summary := mkSummary {
  s_All : distribution;
  s_Success : option distribution;
}.

Definition Measurements_Summary (m : list Sample) : summary * option error :=
  let all := average (Measurements_AllSeconds m) in
  let insuccessCount := Measurements_InsuccessCount m in
  if insuccessCount <? 2 then
    (mkSummary all (Some (average (Measurements_SuccessSeconds m))), None)
  else (mkSummary all None,
        Some ("failed to connect for " +:+ pretty insuccessCount +:+ " times")).

(** ** A probe *)

(** The callbacks of the trace that the dialer runs. *)
Inductive dial_event := DNSDone | GotConn.

(** A dial: the clock before it, the events with the clock readings of their callbacks,
    the clock after it, and its error. *)
Record dial := mkDial {
  d_start : Z;
  d_events : list (dial_event * Z);
  d_end : Z;
  d_err : option error;
}.

(** [Time.Sub], which saturates. *)
Definition time_Sub (t u : Z) : Z :=
  let d := t - u in
  if d <? - 2^63 then - 2^63 else if 2^63 - 1 <? d then 2^63 - 1 else d.

(** The variables [start], [end] and [success], after an event. *)
Definition trace_event (v : Z * Z * bool) (e : dial_event * Z) : Z * Z * bool :=
  let '(start, end', success) := v in
  match e with
  | (DNSDone, now) => (now, end', success)
  | (GotConn, now) => (start, now, true)
  end.

Definition connectDuration (d : dial) : Z * option error :=
  let '(start, end', success) := foldl trace_event (d_start d, 0, false) (d_events d) in
  let end' := if negb success then d_end d else end' in
  (time_Sub end' start, d_err d).

(** One worker: a probe that ended with a duration and maybe an error. *)
Definition worker (m : list Sample) (probe : Z * option error) : list Sample :=
  Measurements_Append m (mkSample (match probe.2 with None => true | Some _ => false end) probe.1).

Record output := mkOutput { o_Measurements : list Sample; o_Summary : option summary }.

Definition GetLatency (probes : list (Z * option error)) : outcome output :=
  let m := foldl worker [] probes in
  match Measurements_Summary m with
  | (s, None) => Ret (mkOutput m (Some s))
  | (_, Some e) => Fail e
  end.

(** * Facts *)

Lemma foldl_worker m probes :
  foldl worker m probes =
    m ++ ((λ p : Z * option error, mkSample (match p.2 with None => true | Some _ => false end) p.1) <$> probes).
Proof.
  revert m. induction probes as [|p ps IH]; intros m; simpl; [by rewrite app_nil_r|].
  rewrite IH. unfold worker, Measurements_Append. by rewrite <- (assoc_L (++)).
Qed.

Lemma int64_add_l x y : int64 (int64 x + y) = int64 (x + y).
Proof.
  unfold int64. f_equal.
  replace ((x + 2 ^ 63) `mod` 2 ^ 64 - 2 ^ 63 + y + 2 ^ 63)
    with ((x + 2 ^ 63) `mod` 2 ^ 64 + y) by lia.
  rewrite Zplus_mod_idemp_l. f_equal. lia.
Qed.

Definition zsum (l : list Z) : Z := foldr Z.add 0 l.

(** The wrap-around sum is the sum, wrapped once. *)
Lemma foldl_int64_sum acc l :
  foldl (λ sum v, int64 (sum + v)) (int64 acc) l = int64 (acc + zsum l).
Proof.
  revert acc. induction l as [|v l IH]; intros acc; simpl; [by rewrite Z.add_0_r|].
  rewrite int64_add_l, IH. f_equal. lia.
Qed.

Lemma average_sum l :
  l ≠ [] → average l = mkDistribution (int64 (int64 (zsum l) `quot` Z.of_nat (length l))).
Proof.
  intros Hl. unfold average. destruct l as [|v l]; [done|].
  change 0 with (int64 0) at 1. by rewrite foldl_int64_sum.
Qed.

#[global] Instance zsum_proper : Proper ((≡ₚ) ==> eq) zsum.
Proof.
  intros l l'. induction 1 as [|x l l' _ IH|x y l|l1 l2 l3 _ IH1 _ IH2]; simpl;
    try congruence; lia.
Qed.

#[global] Instance average_proper : Proper ((≡ₚ) ==> eq) average.
Proof.
  intros l l' Hp. destruct l as [|v l]; [by apply Permutation_nil_l in Hp as <-|].
  rewrite !average_sum; [by rewrite Hp|by intros ->; apply Permutation_nil_r in Hp|done].
Qed.

#[global] Instance InsuccessCount_proper : Proper ((≡ₚ) ==> eq) Measurements_InsuccessCount.
Proof.
  intros l l'. induction 1 as [|x l l' _ IH|x y l|l1 l2 l3 _ IH1 _ IH2]; simpl;
    try congruence; lia.
Qed.

#[global] Instance SuccessSeconds_proper :
  Proper ((≡ₚ) ==> (≡ₚ)) Measurements_SuccessSeconds.
Proof.
  intros l l'. induction 1 as [|x l l' _ IH|x y l|l1 l2 l3 _ IH1 _ IH2]; simpl.
  - done.
  - destruct (Success x); by rewrite IH.
  - destruct (Success x), (Success y); try done. apply Permutation_swap.
  - by rewrite IH1.
Qed.

#[global] Instance Summary_proper : Proper ((≡ₚ) ==> eq) Measurements_Summary.
Proof.
  intros l l' Hp. unfold Measurements_Summary, Measurements_AllSeconds.
  rewrite Hp. by destruct (_ <? 2); rewrite ?Hp.
Qed.

(** * Properties *)

(** The latency of a store does not depend on the order in which the concurrent
    probes finish: permuted probe results give the same summary, or the same error. *)
Theorem GetLatency_order ps ps' :
  ps ≡ₚ ps' →
  match GetLatency ps, GetLatency ps' with
  | Ret o, Ret o' => o_Summary o = o_Summary o' ∧ o_Measurements o ≡ₚ o_Measurements o'
  | Fail e, Fail e' => e = e'
  | _, _ => False
  end.
Proof.
  intros Hp. unfold GetLatency. rewrite !foldl_worker. simpl.
  set (f := λ p : Z * option error, mkSample _ p.1).
  assert (Measurements_Summary (f <$> ps) = Measurements_Summary (f <$> ps')) as ->
    by (by rewrite Hp).
  destruct (Measurements_Summary (f <$> ps')) as [s [e|]]; [done|].
  simpl. by rewrite Hp.
Qed.

Lemma GetLatency_order_witness :
  match GetLatency [(5, None); (9, Some "timeout"%string)],
        GetLatency [(9, Some "timeout"%string); (5, None)] with
  | Ret o, Ret o' => o_Summary o = o_Summary o' ∧ o_Measurements o ≡ₚ o_Measurements o'
  | Fail e, Fail e' => e = e'
  | _, _ => False
  end.
Proof. apply (GetLatency_order [(5, None); (9, Some "timeout"%string)]). apply Permutation_swap. Defined.

Lemma zsum_bounds lo hi l :
  Forall (λ v, lo ≤ v ≤ hi) l →
  lo * Z.of_nat (length l) ≤ zsum l ≤ hi * Z.of_nat (length l).
Proof. induction 1 as [|v l Hv _ IH]; simpl; [lia|]. nia. Qed.

(** Bounds and overflow: the average of non-negative samples below [hi] lies
    between the smallest and [hi] as long as [hi] times the number of samples fits in
    an [int64]. *)
Theorem average_bounds lo hi l :
  l ≠ [] → 0 ≤ lo → Forall (λ v, lo ≤ v ≤ hi) l → hi * Z.of_nat (length l) < 2^63 →
  lo ≤ Average (average l) ≤ hi.
Proof.
  intros Hl Hlo HF Hhi. rewrite average_sum by done. simpl.
  pose proof (zsum_bounds lo hi l HF) as Hb.
  assert (0 < Z.of_nat (length l)) as Hn by (destruct l; [done|simpl; lia]).
  assert (0 ≤ zsum l) by nia.
  rewrite (int64_id (zsum l)) by word_lia.
  rewrite Z.quot_div_nonneg by lia.
  assert (lo ≤ zsum l `div` Z.of_nat (length l) ≤ hi) as Hq.
  { split; [apply Z.div_le_lower_bound; nia|apply Z.div_le_upper_bound; nia]. }
  rewrite int64_id; [done|].
  assert (hi ≤ hi * Z.of_nat (length l)) by nia. word_lia.
Qed.

Lemma average_bounds_witness : 3 ≤ Average (average [3; 5; 10]) ≤ 10.
Proof.
  apply (average_bounds 3 10 [3; 5; 10]); [done|lia|repeat constructor; lia|by vm_compute].
Defined.

(** The time of a dial: the dialer of the standard library does not run [GotConn], so it
    ends with the dial, and it starts with the dial or when the name is resolved. *)
Lemma connectDuration_bounds d :
  Forall (λ e, e.1 = DNSDone ∧ d_start d ≤ e.2 ≤ d_end d) (d_events d) →
  d_start d ≤ d_end d → d_end d - d_start d < 2^63 →
  0 ≤ (connectDuration d).1 ≤ d_end d - d_start d.
Proof.
  intros HF Hle Hb. unfold connectDuration.
  assert (∀ s, d_start d ≤ s ≤ d_end d → ∃ s',
    foldl trace_event (s, 0, false) (d_events d) = (s', 0, false) ∧ d_start d ≤ s' ≤ d_end d) as Hev.
  { induction HF as [|[ev now] evs [Hev Hnow] HF IH]; intros s Hs; [by exists s|].
    simpl in Hev, Hnow. subst ev. simpl. by apply IH. }
  destruct (Hev (d_start d)) as (s' & -> & Hs'); [lia|]. simpl. unfold time_Sub.
  repeat case_match; lia.
Qed.

(** The latency that is reported lies between those of the dials that went through; one of
    them may fail. *)
Lemma GetLatency_bounds lo hi ds :
  let ok := λ d, d_err d = None in
  (2 ≤ length ds)%nat → (length (filter (λ d, ¬ ok d) ds) < 2)%nat →
  0 ≤ lo → Forall (λ d, ok d → lo ≤ (connectDuration d).1 ≤ hi) ds → hi * Z.of_nat (length ds) < 2^63 →
  ∃ out all av, GetLatency (connectDuration <$> ds) = Ret out ∧
    o_Summary out = Some (mkSummary all (Some (mkDistribution av))) ∧ lo ≤ av ≤ hi.
Proof.
  intros ok Hlen Hfail Hlo HF Hhi. unfold GetLatency. rewrite foldl_worker. simpl.
  set (f := λ p : Z * option error, mkSample _ p.1). rewrite <- list_fmap_compose.
  assert (Measurements_InsuccessCount (f ∘ connectDuration <$> ds) =
    Z.of_nat (length (filter (λ d, ¬ ok d) ds)) ∧
    Measurements_SuccessSeconds (f ∘ connectDuration <$> ds) =
      (λ d, (connectDuration d).1) <$> filter ok ds) as [Ei Es].
  { clear. induction ds as [|d ds [IH1 IH2]]; [done|]. rewrite fmap_cons.
    cbn [Measurements_InsuccessCount Measurements_SuccessSeconds]. rewrite !filter_cons, IH1, IH2.
    assert ((connectDuration d).2 = d_err d) as E2.
    { unfold connectDuration. by destruct (foldl trace_event _ _) as [[??]?]. }
    change ((f ∘ connectDuration) d) with (f (connectDuration d)). unfold f. cbn [Success Duration]. rewrite E2.
    unfold ok. destruct (d_err d) eqn:E.
    - rewrite decide_True, decide_False by done. split; [simpl; lia|done].
    - rewrite decide_False by tauto. rewrite decide_True by done. split; [simpl; lia|done]. }
  unfold Measurements_Summary. rewrite Ei, Es.
  destruct (Z.ltb_spec (Z.of_nat (length (filter (λ d, ¬ ok d) ds))) 2) as [_|]; [|lia].
  assert (length (filter ok ds) + length (filter (λ d, ¬ ok d) ds) = length ds)%nat as Hsplit.
  { clear. induction ds as [|d ds IH]; [done|]. rewrite !filter_cons.
    destruct (decide (ok d)); [rewrite decide_False by tauto|rewrite decide_True by done]; simpl; lia. }
  assert (∀ x, mkDistribution (Average x) = x) as Hdist by by intros [].
  eexists _, _, (Average (average ((λ d, (connectDuration d).1) <$> filter ok ds))). split; [done|].
  rewrite Hdist. split; [done|].
  pose proof (average_bounds lo hi ((λ d, (connectDuration d).1) <$> filter ok ds)) as Hav.
  apply Hav; [|done| |].
  - intros E%fmap_nil_inv. rewrite E in Hsplit. simpl in Hsplit. lia.
  - apply Forall_fmap, Forall_forall. intros d [Hok Hd]%list_elem_of_filter. rewrite Forall_forall in HF. by apply HF.
  - rewrite length_fmap. destruct (Z.le_gt_cases 0 hi); nia.
Qed.
