(* ===== verification/Config.v ===== *)
(** The configuration: src/pkg/config/config.go.

    [KVConfiguration] is the decoded configuration (see [ConfigFile] for how it is read);
    the names of regions and zones are those of src/pkg/constants; [GetReplications] sorts the stores into the local ones, by
    availability zone, and the remote ones, by the latency measured to each (the
    probe results are an argument, see [Latency]). *)
From stdpp Require Import base gmap list strings pretty.
From S2P Require Import Prelude GoStd Hashing Latency.

Open Scope Z_scope.

Abbreviation StoreType := string (only parsing).
Definition Memory : StoreType := "mem".
Definition Redis : StoreType := "redis".
Definition DummyLatency : StoreType := "dummy+latency".

Abbreviation PipingType := string (only parsing).
Definition Chain_piping : PipingType := "chain".
Definition LocalSyncRemoteAsync : PipingType := "localSyncRemoteAsync".

(** Regions and availability zones. *)
Definition US_EAST_1 : string := "us-east-1".
Definition US_EAST_2 : string := "us-east-2".
Definition US_WEST_1 : string := "us-west-1".
Definition US_WEST_2 : string := "us-west-2".
Definition DEFAULT_REGION : string := US_WEST_1.
Definition Region_Name (r : string) : string := r.

Definition US_EAST_1A : string := "us-east-1a".
Definition US_EAST_1B : string := "us-east-1b".
Definition US_EAST_1C : string := "us-east-1c".
Definition US_EAST_1D : string := "us-east-1d".
Definition US_EAST_1E : string := "us-east-1e".
Definition US_EAST_2A : string := "us-east-2a".
Definition US_EAST_2B : string := "us-east-2b".
Definition US_EAST_2C : string := "us-east-2c".
Definition US_WEST_1A : string := "us-west-1a".
Definition US_WEST_1B : string := "us-west-1b".
Definition US_WEST_1C : string := "us-west-1c".
Definition US_WEST_2A : string := "us-west-2a".
Definition US_WEST_2B : string := "us-west-2b".
Definition US_WEST_2C : string := "us-west-2c".
Definition DEFAULT_AZ : string := US_WEST_1A.

(** The zones of a region. *)
Definition zones_of (r : string) : list string :=
  if bool_decide (r = US_EAST_1) then [US_EAST_1A; US_EAST_1B; US_EAST_1C; US_EAST_1D; US_EAST_1E]
  else if bool_decide (r = US_EAST_2) then [US_EAST_2A; US_EAST_2B; US_EAST_2C]
  else if bool_decide (r = US_WEST_1) then [US_WEST_1A; US_WEST_1B; US_WEST_1C]
  else if bool_decide (r = US_WEST_2) then [US_WEST_2A; US_WEST_2B; US_WEST_2C]
  else [].

Record KVStore := mkKVStore {
  Region : string;
  AvailabilityZone : string;
  kv_Name : string;
  Host : string;
  Port : Z;
  ArtificialLatencyInMs : Z;
}.

Record KVConfiguration := mkKVConfiguration {
  ConsistentHash : string;
  StoreTypeOf : StoreType;
  HashingManagerTypeOf : string;
  PipingTypeOf : PipingType;
  Stores : list KVStore;
  BucketSize : Z;
  Concurrent : bool;
  RemoteStoreLatencyThresholdInMilliSec : Z;
  LocalReplicaNum : Z;
  RemoteReplicaNum : Z;
}.

(** [fmt.Sprintf("%s:%d", store.Host, store.Port)]. *)
Definition store_url (store : KVStore) : string := Host store +:+ ":" +:+ pretty (Port store).

Definition millisecond : Z := 1000000.

Section replications.
(** The results of the ten probes of a target. *)
Context (probe : string → list (Z * option error)).

(** The latency of a store in milliseconds. *)
Definition store_latency (c : KVConfiguration) (store : KVStore) : outcome Z :=
  let target := store_url store in
  if bool_decide (StoreTypeOf c = DummyLatency) then Ret (ArtificialLatencyInMs store)
  else match GetLatency (probe target) with
       | Ret out =>
           match o_Summary out with
           | Some (mkSummary _ (Some d)) => Ret (Average d `quot` millisecond)
           | _ => Panic "invalid memory address or nil pointer dereference"
           end
       | Fail _ => Fail ("failed to get latency from " +:+ target)
       | Panic w => Panic w
       end.

(** The name a store goes by: its address for redis, its name otherwise. *)
Definition store_target (c : KVConfiguration) (store : KVStore) : string :=
  if negb (bool_decide (StoreTypeOf c = Redis)) then kv_Name store else store_url store.

Definition store_node (c : KVConfiguration) (store : KVStore) (storeLatency : Z) : RkvNode :=
  mkRkvNode (store_target c store) (int64 (storeLatency * millisecond))
    (negb (storeLatency <? RemoteStoreLatencyThresholdInMilliSec c)).

Definition add_replica (c : KVConfiguration)
    (st : gmap string (list RkvNode) * list RkvNode) (store : KVStore)
    : outcome (gmap string (list RkvNode) * list RkvNode) :=
  let '(localStores, remoteStores) := st in
  let! storeLatency := store_latency c store in
  if storeLatency <? RemoteStoreLatencyThresholdInMilliSec c then
    let locals := default [] (localStores !! AvailabilityZone store) in
    Ret (<[AvailabilityZone store :=
             locals ++ [mkRkvNode (store_target c store)
                          (int64 (storeLatency * millisecond)) false]]> localStores,
         remoteStores)
  else
    Ret (localStores,
         remoteStores ++ [mkRkvNode (store_target c store)
                            (int64 (storeLatency * millisecond)) true]).

Fixpoint add_replicas (c : KVConfiguration)
    (st : gmap string (list RkvNode) * list RkvNode) (stores : list KVStore)
    : outcome (gmap string (list RkvNode) * list RkvNode) :=
  match stores with
  | [] => Ret st
  | store :: stores' => let! st' := add_replica c st store in add_replicas c st' stores'
  end.

Definition GetReplications (c : KVConfiguration)
    : outcome (gmap string (list RkvNode) * list RkvNode) :=
  add_replicas c (∅, []) (Stores c).

(** * Facts *)

Definition is_local (c : KVConfiguration) (p : KVStore * Z) : Prop :=
  p.2 < RemoteStoreLatencyThresholdInMilliSec c.
#[global] Instance is_local_dec c p : Decision (is_local c p).
Proof. unfold is_local. apply _. Defined.

Definition node_of (c : KVConfiguration) (p : KVStore * Z) : RkvNode := store_node c p.1 p.2.

(** The stores of a zone among those measured so far, nearest and remote. *)
Definition zone_of (c : KVConfiguration) (az : string) (ps : list (KVStore * Z)) : list RkvNode :=
  node_of c <$> filter (λ p, is_local c p ∧ AvailabilityZone p.1 = az) ps.
Definition remote_of (c : KVConfiguration) (ps : list (KVStore * Z)) : list RkvNode :=
  node_of c <$> filter (λ p, ¬ is_local c p) ps.

Definition replicas (c : KVConfiguration) (ps : list (KVStore * Z))
    (st : gmap string (list RkvNode) * list RkvNode) : Prop :=
  (∀ az, default [] (st.1 !! az) = zone_of c az ps) ∧
  (∀ az l, st.1 !! az = Some l → l ≠ []) ∧ st.2 = remote_of c ps.

Lemma add_replica_replicas c ps st store lat :
  replicas c ps st → store_latency c store = Ret lat →
  ∃ st', add_replica c st store = Ret st' ∧ replicas c (ps ++ [(store, lat)]) st'.
Proof.
  intros (Hz & Hne & Hr) Hlat. unfold add_replica. destruct st as [ls rs]. simpl in *.
  rewrite Hlat. simpl.
  destruct (Z.ltb_spec lat (RemoteStoreLatencyThresholdInMilliSec c)) as [Hl|Hl].
  - eexists. split; [done|]. split_and!; simpl.
    + intros az. unfold zone_of. rewrite filter_app, fmap_app.
      destruct (decide (AvailabilityZone store = az)) as [<-|Haz].
      * rewrite lookup_insert_eq. simpl. rewrite Hz.
        rewrite (filter_cons_True _ (store, lat)) by (by split). f_equal. simpl.
        unfold node_of, store_node. simpl. by rewrite (proj2 (Z.ltb_lt _ _) Hl).
      * rewrite lookup_insert_ne, Hz by done.
        rewrite (filter_cons_False _ (store, lat)) by (by intros [_ ?]).
        by rewrite app_nil_r.
    + intros az l. destruct (decide (AvailabilityZone store = az)) as [<-|Haz].
      * rewrite lookup_insert_eq. intros [= <-]. by destruct (default _ _).
      * rewrite lookup_insert_ne by done. apply Hne.
    + unfold remote_of. rewrite filter_app, fmap_app.
      rewrite (filter_cons_False _ (store, lat)) by (intros H; by apply H).
      by rewrite app_nil_r.
  - eexists. split; [done|]. split_and!; simpl.
    + intros az. unfold zone_of. rewrite filter_app, fmap_app, Hz.
      rewrite (filter_cons_False _ (store, lat)); [by rewrite app_nil_r|].
      intros [H _]. unfold is_local in H. simpl in H. lia.
    + done.
    + unfold remote_of. rewrite filter_app, fmap_app, Hr.
      rewrite (filter_cons_True _ (store, lat)) by (unfold is_local; simpl; lia).
      f_equal. simpl. unfold node_of, store_node. simpl.
      by rewrite (proj2 (Z.ltb_ge _ _) Hl).
Qed.

Lemma add_replicas_spec c ps st stores :
  replicas c ps st →
  match add_replicas c st stores with
  | Ret st' => ∃ lats, length lats = length stores ∧
      (∀ i s lat, stores !! i = Some s → lats !! i = Some lat → store_latency c s = Ret lat) ∧
      replicas c (ps ++ zip stores lats) st'
  | Fail e => ∃ s, s ∈ stores ∧ store_latency c s = Fail e
  | Panic _ => ∃ s w, s ∈ stores ∧ store_latency c s = Panic w
  end.
Proof.
  revert ps st. induction stores as [|s stores IH]; intros ps st Hst; simpl.
  { exists []. split_and!; [done|by intros []|]. by rewrite app_nil_r. }
  destruct (store_latency c s) as [lat|e|w] eqn:Hlat.
  - destruct (add_replica_replicas c ps st s lat Hst Hlat) as (st' & -> & Hst').
    cbn [obind]. specialize (IH _ _ Hst').
    destruct (add_replicas c st' stores) as [st2|e|w].
    + destruct IH as (lats & Hlen & Hlats & Hrep). exists (lat :: lats).
      split_and!; [simpl; lia| |by rewrite <- (assoc_L (++)) in Hrep].
      intros [|i] s' lat' Hs Hl; simplify_eq/=; eauto.
    + destruct IH as (s' & Hs' & ?). exists s'. split; [by right|done].
    + destruct IH as (s' & w' & Hs' & ?). exists s', w'. split; [by right|done].
  - unfold add_replica. destruct st. rewrite Hlat. simpl. exists s. split; [by left|done].
  - unfold add_replica. destruct st. rewrite Hlat. simpl. exists s, w. split; [by left|done].
Qed.

Lemma store_latency_no_panic c s : no_panic (store_latency c s).
Proof.
  unfold store_latency. case_bool_decide; [done|]. unfold GetLatency, Measurements_Summary.
  by destruct (_ <? 2).
Qed.
End replications.

(** * Properties *)

(** C28. [GetReplications] classifies every store: it succeeds exactly when every
    store's latency could be measured, and then each zone holds, in configuration
    order, the nodes of its stores below the latency threshold, the remote list the
    others, no zone is empty, and the remote flag of each node says where it went;
    otherwise it reports a store it could not reach.  It never panics.  A node goes by the
    name of its store or, for redis, by its host and port ([store_target]); the comment on
    the function has it by name only. *)
Theorem GetReplications_spec probe c :
  match GetReplications probe c with
  | Ret (localStores, remoteStores) =>
      ∃ lats, length lats = length (Stores c) ∧
        (∀ i s lat, Stores c !! i = Some s → lats !! i = Some lat → store_latency probe c s = Ret lat) ∧
        (∀ az, default [] (localStores !! az) = zone_of c az (zip (Stores c) lats)) ∧
        (∀ az l, localStores !! az = Some l → l ≠ []) ∧
        remoteStores = remote_of c (zip (Stores c) lats)
  | Fail e => ∃ s, s ∈ Stores c ∧ store_latency probe c s = Fail e
  | Panic _ => False
  end.
Proof.
  assert (replicas c [] (∅, [])) as H0.
  { split_and!; [intros az|intros az l|done]; simpl; by rewrite lookup_empty. }
  pose proof (add_replicas_spec probe c [] (∅, []) (Stores c) H0) as H.
  unfold GetReplications. destruct (add_replicas probe c (∅, []) (Stores c)) as [[l r]|e|w].
  - destruct H as (lats & Hlen & Hlat & Hz & Hne & Hr). simpl in *. eauto 10.
  - done.
  - destruct H as (s & w' & _ & Hp). pose proof (store_latency_no_panic probe c s) as Hn.
    by rewrite Hp in Hn.
Qed.
