(* ===== verification/ConfigFile.v ===== *)
(** Reading the configuration: [NewKVConfiguration] of src/pkg/config/config.go, with the
    part of [encoding/json] and [path] it uses (Go 1.16).

    [read_value] is [Decoder.Decode] up to the end of the first value, over the scanner
    of [Json]; [build] makes a tree of its opcodes; [decode_members] stores a tree in a
    struct: fields by their name, exactly or up to case, the first type error kept while
    the decoding goes on, [null] without effect on a field that is not a pointer or a
    slice, and a slice decoded over the elements its array already has.  The file system
    is an argument.

    [config_typed] is what holds of every configuration that is returned, with an error
    or without; [shipped_config] is the configuration of src/cmd/http/config.json. *)
From Stdlib Require Import Ascii.
From stdpp Require Import base gmap list strings pretty.
From S2P Require Import Prelude GoStd Json Hashing Latency Config.

Open Scope Z_scope.

(** * package path *)

(** [path.Clean]: the elements that are left, the last one first. *)
Definition clean_step (rooted : bool) (acc : list string) (e : string) : list string :=
  if bool_decide (e = "") || bool_decide (e = ".") then acc
  else if bool_decide (e = "..") then
    match acc with
    | [] => if rooted then [] else [e]
    | x :: acc' => if bool_decide (x = "..") then e :: acc else acc'
    end
  else e :: acc.

Definition is_rooted (p : string) : bool :=
  match p with String c _ => bool_decide (c = "/"%char) | EmptyString => false end.

Definition path_Clean (p : string) : string :=
  let es := reverse (foldl (clean_step (is_rooted p)) [] (Split "/" p)) in
  if is_rooted p then "/" +:+ Join "/" es else match es with [] => "." | _ => Join "/" es end.

(** [path.Dir]: up to the last slash. *)
Definition path_Dir (p : string) : string :=
  let es := Split "/" p in
  path_Clean (Join "/" (take (length es - 1) es) +:+ if decide (1 < length es)%nat then "/" else "").

Definition path_Join (a b : string) : string :=
  match filter (λ e, e ≠ "") [a; b] with [] => "" | es => path_Clean (Join "/" es) end.

(** * The decoder of encoding/json *)

Fixpoint non_space (s : string) : bool :=
  match s with EmptyString => false | String c s' => negb (isSpace c) || non_space s' end.

(** [Decoder.readValue]: the opcodes of the first value; [all] is the whole text. *)
Fixpoint read_value (all : string) (sc : scanner) (s : string) : outcome (list (opcode * ascii)) :=
  match s with
  | EmptyString =>
      match step sc (chr 32) with
      | Ret (scanEnd, _) => Ret []
      | _ => Fail (if non_space all then "unexpected EOF" else "EOF")
      end
  | String c s' =>
      let! (op, sc') := step sc c in
      match op with
      | scanEnd => Ret []
      | scanEndObject | scanEndArray =>
          if is_top sc' then Ret [(op, c)]
          else let! ops := read_value all sc' s' in Ret ((op, c) :: ops)
      | _ => let! ops := read_value all sc' s' in Ret ((op, c) :: ops)
      end
  end.

(** A value: a literal as written, an array or an object. *)
Inductive jtree :=
  | TLit (text : string)
  | TArr (elems : list jtree)
  | TObj (members : list (string * jtree)).

(** The open arrays and objects, their last parts first, and the value being read. *)
Inductive open_value :=
  | OArr (elems : list jtree)
  | OObj (key : string) (members : list (string * jtree)).

Record builder := mkBuilder { b_open : list open_value; b_cur : option jtree }.

(** The value is complete: it goes to the innermost open one. *)
Definition close_value (b : builder) : list open_value :=
  match b_cur b, b_open b with
  | Some v, OArr es :: st => OArr (v :: es) :: st
  | Some v, OObj k ms :: st => OObj k ((k, v) :: ms) :: st
  | _, st => st
  end.

Definition build_step (b : builder) (o : opcode * ascii) : builder :=
  match o.1 with
  | scanBeginLiteral => mkBuilder (b_open b) (Some (TLit (String o.2 "")))
  | scanContinue =>
      match b_cur b with
      | Some (TLit t) => mkBuilder (b_open b) (Some (TLit (t +:+ String o.2 "")))
      | _ => b
      end
  | scanBeginObject => mkBuilder (OObj "" [] :: b_open b) None
  | scanBeginArray => mkBuilder (OArr [] :: b_open b) None
  | scanObjectKey =>
      match b_cur b, b_open b with
      | Some (TLit t), OObj _ ms :: st => mkBuilder (OObj (unquote_literal t) ms :: st) None
      | _, _ => b
      end
  | scanObjectValue | scanArrayValue => mkBuilder (close_value b) None
  | scanEndObject | scanEndArray =>
      match close_value b with
      | OArr es :: st => mkBuilder st (Some (TArr (reverse es)))
      | OObj _ ms :: st => mkBuilder st (Some (TObj (reverse ms)))
      | [] => b
      end
  | scanSkipSpace | scanEnd => b
  end.

Definition build (ops : list (opcode * ascii)) : option jtree :=
  b_cur (foldl build_step (mkBuilder [] None) ops).

(** The kind of a value in an error message. *)
Definition tree_kind (t : jtree) : string :=
  match t with
  | TLit EmptyString => ""
  | TLit (String c _) => literal_kind c
  | TArr _ => "array"
  | TObj _ => "object"
  end.

(** * Structs *)

(** [foldFunc]: letters up to case; the long s and the Kelvin sign count as letters. *)
Definition lower (c : ascii) : Z := if between 65 90 c then byte_val c + 32 else byte_val c.

Fixpoint equalFold (name key : string) : bool :=
  match name, key with
  | EmptyString, EmptyString => true
  | String x name', String y key' =>
      if lower x =? lower y then equalFold name' key'
      else match key' with
           | String y1 key1 =>
               if (lower x =? 115) && isb 197 y && isb 191 y1 then equalFold name' key1
               else match key1 with
                    | String y2 key2 =>
                        if (lower x =? 107) && isb 226 y && isb 132 y1 && isb 170 y2
                        then equalFold name' key2 else false
                    | EmptyString => false
                    end
           | EmptyString => false
           end
  | _, _ => false
  end.

(** A field: its name, and how a value is stored in it; [path] names it in errors. *)
Record field (S : Type) := mkField {
  f_name : string;
  f_store : list string → jtree → S → S * option error;
}.
Arguments mkField {S} _ _.
Arguments f_name {S} _.
Arguments f_store {S} _ _ _ _.

(** By the exact name, or the first one up to case. *)
Fixpoint find_exact {A} (name : A → string) (key : string) (l : list A) : option A :=
  match l with
  | [] => None
  | x :: l' => if bool_decide (name x = key) then Some x else find_exact name key l'
  end.
Fixpoint find_folded {A} (name : A → string) (key : string) (l : list A) : option A :=
  match l with
  | [] => None
  | x :: l' => if equalFold (name x) key then Some x else find_folded name key l'
  end.
Definition find_name {A} (name : A → string) (key : string) (l : list A) : option A :=
  match find_exact name key l with Some x => Some x | None => find_folded name key l end.

Definition find_field {S} (fields : list (field S)) (key : string) : option (field S) :=
  find_name f_name key fields.

Definition field_error (struct : string) (path : list string) (value ty : string) : error :=
  "json: cannot unmarshal " +:+ value +:+ " into Go struct field " +:+ struct +:+ "." +:+
  Join "." path +:+ " of type " +:+ ty.

Definition keep_first (e e' : option error) : option error := match e with Some _ => e | None => e' end.

Definition decode_member {S} (fields : list (field S)) (path : list string)
    (st : S * option error) (m : string * jtree) : S * option error :=
  match find_field fields m.1 with
  | None => st
  | Some f =>
      let '(s, e) := f_store f (path ++ [f_name f]) m.2 st.1 in
      (s, keep_first st.2 e)
  end.

Definition decode_members {S} (fields : list (field S)) (path : list string)
    (ms : list (string * jtree)) (s : S) : S * option error :=
  foldl (decode_member fields path) (s, None) ms.

Section fields.
Context {S : Type} (struct : string).

Definition mismatch (ty : string) (path : list string) (t : jtree) (s : S) : S * option error :=
  if bool_decide (tree_kind t = "null") then (s, None)
  else (s, Some (field_error struct path (tree_kind t) ty)).

Definition string_field (name ty : string) (set : string → S → S) : field S :=
  mkField name (λ path t s,
    match t with
    | TLit text =>
        if bool_decide (tree_kind t = "string") then (set (unquote_literal text) s, None)
        else mismatch ty path t s
    | _ => mismatch ty path t s
    end).

Definition int_field (name ty : string) (set : Z → S → S) : field S :=
  mkField name (λ path t s,
    match t with
    | TLit text =>
        if bool_decide (tree_kind t = "number") then
          match ParseInt text with
          | Ret n => (set n s, None)
          | _ => (s, Some (field_error struct path ("number " +:+ text) ty))
          end
        else mismatch ty path t s
    | _ => mismatch ty path t s
    end).

Definition bool_field (name : string) (set : bool → S → S) : field S :=
  mkField name (λ path t s,
    match t with
    | TLit text =>
        if bool_decide (tree_kind t = "bool") then (set (bool_decide (text = "true")) s, None)
        else mismatch "bool" path t s
    | _ => mismatch "bool" path t s
    end).
End fields.

(** ** [KVStore] *)

Definition zero_store : KVStore := mkKVStore "" "" "" "" 0 0.

Definition store_fields : list (field KVStore) :=
  let str := string_field "KVStore" in
  let int n := int_field "KVStore" n "int" in
  [ str "Region" "constants.Region" (λ x s, mkKVStore x (AvailabilityZone s) (kv_Name s) (Host s) (Port s) (ArtificialLatencyInMs s));
    str "AvailabilityZone" "constants.AvailabilityZone" (λ x s, mkKVStore (Region s) x (kv_Name s) (Host s) (Port s) (ArtificialLatencyInMs s));
    str "Name" "string" (λ x s, mkKVStore (Region s) (AvailabilityZone s) x (Host s) (Port s) (ArtificialLatencyInMs s));
    str "Host" "string" (λ x s, mkKVStore (Region s) (AvailabilityZone s) (kv_Name s) x (Port s) (ArtificialLatencyInMs s));
    int "Port" (λ x s, mkKVStore (Region s) (AvailabilityZone s) (kv_Name s) (Host s) x (ArtificialLatencyInMs s));
    int "ArtificialLatencyInMs" (λ x s, mkKVStore (Region s) (AvailabilityZone s) (kv_Name s) (Host s) (Port s) x) ].

(** An element of the slice; one that is not an object is an error of the field [Stores]
    of the configuration. *)
Definition decode_store (path : list string) (t : jtree) (s : KVStore) : KVStore * option error :=
  match t with
  | TObj ms => decode_members store_fields path ms s
  | _ => mismatch "KVConfiguration" "config.KVStore" path t s
  end.

(** The array of a slice, grown when element [i] is past its end. *)
Definition grow (i : nat) (back : list KVStore) : list KVStore :=
  if (i <? length back)%nat then back
  else
    let newcap := (length back + length back / 2)%nat in
    back ++ replicate (Nat.max 4 newcap - length back) zero_store.

Fixpoint decode_elems (path : list string) (ts : list jtree) (i : nat) (back : list KVStore)
    (err : option error) : list KVStore * option error :=
  match ts with
  | [] => (back, err)
  | t :: ts' =>
      let back := grow i back in
      let '(s, e) := decode_store path t (default zero_store (back !! i)) in
      decode_elems path ts' (S i) (<[i := s]> back) (keep_first err e)
  end.

(** ** [KVConfiguration] *)

(** With the elements of the array of [Stores] past its length. *)
Definition conf_state : Type := KVConfiguration * list KVStore.

Definition zero_conf : KVConfiguration := mkKVConfiguration "" "" "" "" [] 0 false 0 0 0.

Definition set_stores (n : nat) (back : list KVStore) (c : KVConfiguration) : conf_state :=
  (mkKVConfiguration (ConsistentHash c) (StoreTypeOf c) (HashingManagerTypeOf c) (PipingTypeOf c)
     (take n back) (BucketSize c) (Concurrent c) (RemoteStoreLatencyThresholdInMilliSec c)
     (LocalReplicaNum c) (RemoteReplicaNum c), drop n back).

Definition stores_field : field conf_state :=
  mkField "Stores" (λ path t st,
    match t with
    | TArr ts =>
        let '(back, e) := decode_elems path ts 0 (Stores st.1 ++ st.2) None in
        (if bool_decide (ts = []) then set_stores 0 [] st.1 else set_stores (length ts) back st.1, e)
    | _ =>
        if bool_decide (tree_kind t = "null") then (set_stores 0 [] st.1, None)
        else mismatch "KVConfiguration" "[]config.KVStore" path t st
    end).

Definition on_conf {A} (set : A → KVConfiguration → KVConfiguration) (x : A) (st : conf_state) : conf_state :=
  (set x st.1, st.2).

Definition conf_fields : list (field conf_state) :=
  let str := string_field "KVConfiguration" in
  let int := int_field "KVConfiguration" in
  [
    str "ConsistentHash" "constants.ConsistentHashingType" (on_conf (λ x c, mkKVConfiguration x (StoreTypeOf c) (HashingManagerTypeOf c) (PipingTypeOf c) (Stores c) (BucketSize c) (Concurrent c) (RemoteStoreLatencyThresholdInMilliSec c) (LocalReplicaNum c) (RemoteReplicaNum c)));
    str "StoreType" "constants.StoreType" (on_conf (λ x c, mkKVConfiguration (ConsistentHash c) x (HashingManagerTypeOf c) (PipingTypeOf c) (Stores c) (BucketSize c) (Concurrent c) (RemoteStoreLatencyThresholdInMilliSec c) (LocalReplicaNum c) (RemoteReplicaNum c)));
    str "HashingManagerType" "constants.HashingManagerType" (on_conf (λ x c, mkKVConfiguration (ConsistentHash c) (StoreTypeOf c) x (PipingTypeOf c) (Stores c) (BucketSize c) (Concurrent c) (RemoteStoreLatencyThresholdInMilliSec c) (LocalReplicaNum c) (RemoteReplicaNum c)));
    str "PipingType" "constants.PipingType" (on_conf (λ x c, mkKVConfiguration (ConsistentHash c) (StoreTypeOf c) (HashingManagerTypeOf c) x (Stores c) (BucketSize c) (Concurrent c) (RemoteStoreLatencyThresholdInMilliSec c) (LocalReplicaNum c) (RemoteReplicaNum c)));
    stores_field;
    int "BucketSize" "int64" (on_conf (λ x c, mkKVConfiguration (ConsistentHash c) (StoreTypeOf c) (HashingManagerTypeOf c) (PipingTypeOf c) (Stores c) x (Concurrent c) (RemoteStoreLatencyThresholdInMilliSec c) (LocalReplicaNum c) (RemoteReplicaNum c)));
    bool_field "KVConfiguration" "Concurrent" (on_conf (λ x c, mkKVConfiguration (ConsistentHash c) (StoreTypeOf c) (HashingManagerTypeOf c) (PipingTypeOf c) (Stores c) (BucketSize c) x (RemoteStoreLatencyThresholdInMilliSec c) (LocalReplicaNum c) (RemoteReplicaNum c)));
    int "RemoteStoreLatencyThresholdInMilliSec" "int64" (on_conf (λ x c, mkKVConfiguration (ConsistentHash c) (StoreTypeOf c) (HashingManagerTypeOf c) (PipingTypeOf c) (Stores c) (BucketSize c) (Concurrent c) x (LocalReplicaNum c) (RemoteReplicaNum c)));
    int "LocalReplicaNum" "int" (on_conf (λ x c, mkKVConfiguration (ConsistentHash c) (StoreTypeOf c) (HashingManagerTypeOf c) (PipingTypeOf c) (Stores c) (BucketSize c) (Concurrent c) (RemoteStoreLatencyThresholdInMilliSec c) x (RemoteReplicaNum c)));
    int "RemoteReplicaNum" "int" (on_conf (λ x c, mkKVConfiguration (ConsistentHash c) (StoreTypeOf c) (HashingManagerTypeOf c) (PipingTypeOf c) (Stores c) (BucketSize c) (Concurrent c) (RemoteStoreLatencyThresholdInMilliSec c) (LocalReplicaNum c) x)) ].

(** [Decode] into a pointer to a configuration: [null] makes the pointer nil. *)
Definition decode_config (t : jtree) : option KVConfiguration * option error :=
  match t with
  | TObj ms => let '(st, e) := decode_members conf_fields [] ms (zero_conf, []) in (Some st.1, e)
  | _ =>
      if bool_decide (tree_kind t = "null") then (None, None)
      else (Some zero_conf, Some (type_error (tree_kind t) "config.KVConfiguration"))
  end.

Definition Decode (contents : string) : option KVConfiguration * option error :=
  match read_value contents (mkScanner stateBeginValue []) contents with
  | Ret ops =>
      match build ops with
      | Some t => decode_config t
      | None => (Some zero_conf, None)
      end
  | Fail e | Panic e => (Some zero_conf, Some e)
  end.

(** [runningfile] is the source file of the caller, if the runtime knows it; [open] gives
    the contents of a file. *)
Definition NewKVConfiguration (runningfile : option string) (open : string → outcome string)
    (fileName : string) : option KVConfiguration * option error :=
  match runningfile with
  | None => (Some zero_conf, Some ("failed to open the given config file " +:+ fileName))
  | Some runningfile =>
      let filepath := path_Join (path_Dir runningfile) fileName in
      match open filepath with
      | Ret contents => Decode contents
      | Fail e | Panic e => (Some zero_conf, Some e)
      end
  end.

(** What [main] goes on with: an error is its panic, and so is the first use of a nil
    configuration. *)
Definition main_config (r : option KVConfiguration * option error) : outcome KVConfiguration :=
  match r with
  | (_, Some e) => Panic ("error setting gateway agent configuration: " +:+ e)
  | (Some c, None) => Ret c
  | (None, None) => Panic "invalid memory address or nil pointer dereference"
  end.

(** * The configuration of the repository *)

(** JSON with its quotes written as apostrophes. *)
Fixpoint quoted (s : string) : string :=
  match s with
  | EmptyString => ""
  | String c s' => String (if bool_decide (c = "'"%char) then chr 34 else c) (quoted s')
  end.

Definition config_json : string := quoted
"{
    'ConsistentHash': 'rendezvous',
    'HashingManagerType': 'syncAsync',
    'PipingType': 'localSyncRemoteAsync',
    'BucketSize': 10,
    '//' : 'The number of local replica from the ones whose latency is fewer than RemoteStoreLatencyThresholdInMilliSec',
    'LocalReplicaNum': 2,
    '//' : 'The number of remote replica from the ones whose latency is more than or equals to RemoteStoreLatencyThresholdInMilliSec',
    'RemoteReplicaNum': 1,
    'StoreType': 'mem',
    'Concurrent': true,
    'RemoteStoreLatencyThresholdInMilliSec': 100,
    'Stores': [
        {
            'Region': 'us-west-1',
            'AvailabilityZone': 'us-west-1b',
            'Name': 'store1',
            'Host': '127.0.0.1',
            'Port': 6379,
            'ArtificialLatencyInMs': 1
        },
        {
            'Region': 'us-west-2',
            'AvailabilityZone': 'us-west-2a',
            'Name': 'store3',
            'Host': '172.31.9.140',
            'Port': 6379,
            'ArtificialLatencyInMs': 40
        },
        {
            'Region': 'us-west-2',
            'AvailabilityZone': 'us-west-2b',
            'Name': 'store4',
            'Host': '172.31.12.96',
            'Port': 6380,
            'ArtificialLatencyInMs': 100
        }
    ]
}
".

(** * A complete value gives a tree *)

(** The open values are those of the scanner's stack. *)
Definition fits (f : frame) (o : open_value) : Prop :=
  match f, o with
  | parseArrayValue, OArr _ | (parseObjectKey | parseObjectValue), OObj _ _ => True
  | _, _ => False
  end.

Definition is_literal (cur : option jtree) : Prop := ∃ t, cur = Some (TLit t).
Definition no_keys (fs : list frame) : Prop := Forall (λ f, f ≠ parseObjectKey) fs.

(** Where a value is being read or has been, there is one. *)
Definition reading (sc : scanner) (cur : option jtree) : Prop :=
  match sc_step sc with
  | stateBeginValueOrEmpty | stateBeginValue => no_keys (parseState sc)
  | stateBeginStringOrEmpty | stateBeginString => True
  | stateEndTop => is_Some cur
  | stateEndValue =>
      match parseState sc with parseObjectKey :: _ => is_literal cur | _ => is_Some cur end
  | _ => is_literal cur
  end.

Definition in_step (sc : scanner) (b : builder) : Prop :=
  Forall2 fits (parseState sc) (b_open b) ∧ no_keys (tail (parseState sc)) ∧ reading sc (b_cur b).

(** What a byte leads to: the end of the value, which there is, or the next state. *)
Definition goes_on (b : builder) (c : ascii) (op : opcode) (sc' : scanner) : Prop :=
  match op with scanEnd => is_Some (b_cur b) | _ => in_step sc' (build_step b (op, c)) end.

Lemma literal_some cur : is_literal cur → is_Some cur.
Proof. intros [t ->]. by eexists. Qed.

Lemma pop_in_step fs o v :
  Forall2 fits fs o → no_keys fs → in_step (pop fs) (mkBuilder o (Some v)).
Proof.
  intros HF Hn. split; [done|]. destruct Hn as [|f fs Hf Hn]; [split; [by apply Forall_nil|by eexists]|].
  split; [done|]. unfold reading. simpl. destruct f; [done|by eexists..].
Qed.

(** The end of an array or object. *)
Lemma close_in_step f fs b c op :
  Forall2 fits (f :: fs) (b_open b) → no_keys fs → op = scanEndObject ∨ op = scanEndArray →
  in_step (pop fs) (build_step b (op, c)).
Proof.
  intros HF Hn Hop. destruct b as [[|o st] cur]; [inversion HF|]. apply Forall2_cons in HF as [Hf HF].
  destruct Hop as [-> | ->]; unfold build_step; simpl; unfold close_value; simpl;
    destruct cur, o; by apply pop_in_step.
Qed.

Lemma EndValue_goes_on fs b c op sc' :
  Forall2 fits fs (b_open b) → no_keys (tail fs) →
  (match fs with parseObjectKey :: _ => is_literal (b_cur b) | _ => is_Some (b_cur b) end) →
  step_EndValue fs c = Ret (op, sc') → goes_on b c op sc'.
Proof.
  intros HF Hn Hr. unfold step_EndValue, step_EndTop. destruct fs as [|f fs].
  { destruct (isSpace c); [|done]. by intros [= <- <-]. }
  destruct (isSpace c). { intros [= <- <-]. by split_and!. }
  destruct f.
  - destruct (isb 58 c); [|done]. intros [= <- <-]. destruct Hr as [t Ht]. simpl in Hn.
    destruct b as [[|o st] cur]; [inversion HF|]. simpl in *. subst cur.
    apply Forall2_cons in HF as [Hf HF]. destruct o as [|k ms]; [done|].
    split_and!; [by constructor|done|by constructor].
  - destruct (isb 44 c); [|destruct (isb 125 c); [|done]]; intros [= <- <-].
    + destruct b as [[|o st] cur]; [inversion HF|]. apply Forall2_cons in HF as [Hf HF]. simpl in *.
      unfold goes_on, build_step, close_value. simpl. destruct Hr as [v ->], o; [done|]. split_and!; [by constructor|done|done].
    + eapply (close_in_step parseObjectValue); [done|done|by left].
  - destruct (isb 44 c); [|destruct (isb 93 c); [|done]]; intros [= <- <-].
    + destruct b as [[|o st] cur]; [inversion HF|]. apply Forall2_cons in HF as [Hf HF]. simpl in *.
      unfold goes_on, build_step, close_value. simpl. destruct Hr as [v ->], o; [|done].
      split_and!; [by constructor|done|by constructor].
    + eapply (close_in_step parseArrayValue); [done|done|by right].
Qed.

Lemma no_keys_tail fs : no_keys fs → no_keys (tail fs).
Proof. destruct 1; [by apply Forall_nil|done]. Qed.

Lemma BeginValue_goes_on fs b c op sc' :
  Forall2 fits fs (b_open b) → no_keys fs → step_BeginValue fs c = Ret (op, sc') → goes_on b c op sc'.
Proof.
  intros HF Hn. pose proof (no_keys_tail _ Hn). unfold step_BeginValue, push.
  repeat case_match; intros; simplify_eq; split_and!; simpl; try done;
    first [by constructor|by eexists|constructor; done].
Qed.

Lemma BeginString_goes_on fs b c op sc' :
  Forall2 fits fs (b_open b) → no_keys (tail fs) → step_BeginString fs c = Ret (op, sc') →
  goes_on b c op sc'.
Proof.
  intros HF Hn. unfold step_BeginString. repeat case_match; intros; simplify_eq; split_and!; simpl; try done.
  by eexists.
Qed.

(** A byte of a literal. *)
Lemma continue_goes_on st fs b c :
  Forall2 fits fs (b_open b) → no_keys (tail fs) → is_literal (b_cur b) →
  st ≠ stateBeginValue → st ≠ stateBeginValueOrEmpty →
  goes_on b c scanContinue (mkScanner st fs).
Proof.
  intros HF Hn [t Ht] Hst Hst'. destruct b as [o cur]. simpl in *. subst cur.
  assert (is_literal (Some (TLit (t +:+ String c "")))) as Hl by by eexists.
  split_and!; [done|done|]. unfold reading. simpl. pose proof (literal_some _ Hl).
  destruct st; try done. by destruct fs as [|[] fs].
Qed.

(** After a literal that may end here. *)
Lemma literal_end_goes_on fs b c op sc' :
  Forall2 fits fs (b_open b) → no_keys (tail fs) → is_literal (b_cur b) →
  step_EndValue fs c = Ret (op, sc') → goes_on b c op sc'.
Proof.
  intros HF Hn Hl. apply EndValue_goes_on; [done..|]. pose proof (literal_some _ Hl).
  by destruct fs as [|[] fs].
Qed.

Ltac literal_byte :=
  repeat case_match; intros; simplify_eq;
  first [by apply continue_goes_on|by eapply literal_end_goes_on].

Lemma step_goes_on sc b c op sc' :
  in_step sc b → step sc c = Ret (op, sc') → goes_on b c op sc'.
Proof.
  destruct sc as [st fs]. intros (HF & Hn & Hr). cbn [parseState] in *. unfold reading in Hr. cbn [sc_step parseState] in Hr.
  unfold step, invalid, step_0, step_ESign. cbn [sc_step parseState]. destruct st; cbn iota in Hr |- *.
  7-18: literal_byte.
  - destruct (isSpace c) eqn:Esp; [intros [= <- <-]; by split_and!|].
    destruct (isb 93 c) eqn:E93; [|by apply BeginValue_goes_on]. destruct fs as [|f fs]; [simpl; unfold step_EndTop; by rewrite Esp|].
    apply Z.eqb_eq in E93. unfold step_EndValue, isb. rewrite Esp, E93.
    destruct f; [by inversion Hr|done|]. intros [= <- <-]. eapply (close_in_step parseArrayValue); [done|done|by right].
  - by apply BeginValue_goes_on.
  - destruct (isSpace c) eqn:Esp; [intros [= <- <-]; by split_and!|].
    destruct (isb 125 c) eqn:E125; [|by apply BeginString_goes_on].
    destruct fs as [|f fs]; [simpl; unfold step_EndTop; by rewrite Esp|]. 
    apply Z.eqb_eq in E125. unfold step_EndValue, isb. rewrite Esp, E125. intros [= <- <-].
    eapply (close_in_step f); [done|done|by left].
  - by apply BeginString_goes_on.
  - by apply EndValue_goes_on.
  - intros E. unfold step_EndTop in E. destruct (isSpace c); simplify_eq. done.
Qed.

Lemma read_value_builds all sc s b ops :
  in_step sc b → read_value all sc s = Ret ops → is_Some (b_cur (foldl build_step b ops)).
Proof.
  revert sc b ops. induction s as [|c s IH]; intros sc b ops Hin; simpl.
  - destruct (step sc (chr 32)) as [[op sc']| |] eqn:E; [|done..].
    pose proof (step_goes_on sc b _ op sc' Hin E) as Hg. destruct op; try done. by intros [= <-].
  - destruct (step sc c) as [[op sc']| |] eqn:E; [|done..]. simpl.
    pose proof (step_goes_on sc b c op sc' Hin E) as Hg.
    assert (op ≠ scanEnd → ∀ ops', read_value all sc' s = Ret ops' →
      is_Some (b_cur (foldl build_step b ((op, c) :: ops')))) as Hrest.
    { intros Hne ops' Hops. simpl. apply (IH sc'); [by destruct op|done]. }
    destruct op; [..|by intros [= <-]];
      try (destruct (read_value all sc' s) as [ops'| |]; [|done..]; intros [= <-]; by apply Hrest);
      (destruct (is_top sc') eqn:Et;
        [intros [= <-]|destruct (read_value all sc' s) as [ops'| |]; [|done..]; intros [= <-]; by apply Hrest]);
      simpl; destruct Hg as (_ & _ & Hr); unfold reading, is_top in *; by destruct (sc_step sc').
Qed.

(** [Decode] never runs out of a tree. *)
Lemma Decode_total contents ops :
  read_value contents (mkScanner stateBeginValue []) contents = Ret ops → is_Some (build ops).
Proof.
  apply read_value_builds. split; [constructor|]. split; apply Forall_nil; done.
Qed.

(** * What is stored *)

Definition store_typed (s : KVStore) : Prop := is_int64 (Port s) ∧ is_int64 (ArtificialLatencyInMs s).

Definition conf_typed (c : KVConfiguration) : Prop :=
  is_int64 (BucketSize c) ∧ is_int64 (RemoteStoreLatencyThresholdInMilliSec c) ∧
  is_int64 (LocalReplicaNum c) ∧ is_int64 (RemoteReplicaNum c) ∧ Forall store_typed (Stores c).

(** A field keeps [P] of the struct, whatever is stored in it. *)
Definition keeps {S} (P : S → Prop) (f : field S) : Prop :=
  ∀ path t s, P s → P (f_store f path t s).1.

Lemma mismatch_fst {S} struct ty path t (s : S) : (mismatch struct ty path t s).1 = s.
Proof. unfold mismatch. by case_bool_decide. Qed.

Lemma string_field_keeps {S} (P : S → Prop) struct name ty set :
  (∀ x s, P s → P (set x s)) → keeps P (string_field struct name ty set).
Proof.
  intros Hset path t s Hs. simpl. destruct t; [|by rewrite mismatch_fst..].
  case_bool_decide; [by apply Hset|by rewrite mismatch_fst].
Qed.

Lemma bool_field_keeps {S} (P : S → Prop) struct name set :
  (∀ x s, P s → P (set x s)) → keeps P (bool_field struct name set).
Proof.
  intros Hset path t s Hs. simpl. destruct t; [|by rewrite mismatch_fst..].
  case_bool_decide; [by apply Hset|by rewrite mismatch_fst].
Qed.

Lemma int_field_keeps {S} (P : S → Prop) struct name ty set :
  (∀ x s, is_int64 x → P s → P (set x s)) → keeps P (int_field struct name ty set).
Proof.
  intros Hset path t s Hs. simpl. destruct t as [text|ts|ms]; [|by rewrite mismatch_fst..].
  case_bool_decide; [|by rewrite mismatch_fst]. unfold ParseInt.
  destruct (ParseInt_core text) as [n|] eqn:E; [|done]. apply Hset; [by eapply ParseInt_core_range|done].
Qed.

Lemma find_name_elem {A} (name : A → string) key l x : find_name name key l = Some x → x ∈ l.
Proof.
  assert (∀ l', find_exact name key l' = Some x → x ∈ l') as He.
  { induction l' as [|y l' IH]; [done|]. simpl. case_bool_decide; [intros [= <-]; by left|right; auto]. }
  assert (∀ l', find_folded name key l' = Some x → x ∈ l') as Hf.
  { induction l' as [|y l' IH]; [done|]. simpl. case_match; [intros [= <-]; by left|right; auto]. }
  unfold find_name. destruct (find_exact _ _ _) eqn:E; [intros [= <-]; auto|auto].
Qed.

Lemma decode_members_keeps {S} (P : S → Prop) (fields : list (field S)) path ms s :
  Forall (keeps P) fields → P s → P (decode_members fields path ms s).1.
Proof.
  intros HF. unfold decode_members. generalize (@None error) as e. revert s.
  induction ms as [|m ms IH]; intros s e Hs; [done|]. simpl. unfold decode_member at 2.
  destruct (find_field fields m.1) as [f|] eqn:E; [|by apply IH]. simpl.
  rewrite Forall_forall in HF. specialize (HF f (find_name_elem _ _ _ _ E) (path ++ [f_name f]) m.2 s Hs).
  destruct (f_store f _ _ _) as [s' e']. by apply IH.
Qed.

Lemma store_fields_typed : Forall (keeps store_typed) store_fields.
Proof.
  unfold store_fields. repeat (apply Forall_cons; split); [..|by apply Forall_nil].
  all: first [apply string_field_keeps|apply int_field_keeps]; unfold store_typed; simpl; tauto.
Qed.

Lemma decode_store_typed path t s : store_typed s → store_typed (decode_store path t s).1.
Proof.
  intros Hs. destruct t; cbn [decode_store]; [by rewrite mismatch_fst..|].
  apply decode_members_keeps; [apply store_fields_typed|done].
Qed.

Lemma decode_elems_typed path ts i back e :
  Forall store_typed back → Forall store_typed (decode_elems path ts i back e).1.
Proof.
  revert i back e. induction ts as [|t ts IH]; intros i back e HF; [done|]. simpl.
  assert (Forall store_typed (grow i back)) as Hg.
  { unfold grow. case_match; [done|]. apply Forall_app. split; [done|]. by apply Forall_replicate. }
  assert (store_typed (default zero_store (grow i back !! i))) as Hi.
  { destruct (grow i back !! i) as [s|] eqn:E; [|done]. by eapply Forall_lookup_1 in E. }
  pose proof (decode_store_typed path t _ Hi) as Hs. destruct (decode_store _ _ _) as [s e'].
  apply IH. by apply Forall_insert.
Qed.

Definition state_typed (st : conf_state) : Prop := conf_typed st.1 ∧ Forall store_typed st.2.

Lemma set_stores_typed n back c : conf_typed c → Forall store_typed back → state_typed (set_stores n back c).
Proof.
  intros (? & ? & ? & ? & _) HF. split; [split_and!; try done|]; simpl.
  - by apply Forall_take.
  - by apply Forall_drop.
Qed.

Lemma stores_field_typed : keeps state_typed stores_field.
Proof.
  intros path t [c spare] Hst. pose proof Hst as [Hc Hsp]. simpl in *.
  assert (Forall store_typed (Stores c ++ spare)) as Hb by (apply Forall_app; split; [apply Hc|done]).
  destruct t as [text|ts|ms]; simpl.
  1,3: repeat case_bool_decide; first [by rewrite mismatch_fst|by apply set_stores_typed|done].
  pose proof (decode_elems_typed path ts 0 _ None Hb) as Hd. destruct (decode_elems _ _ _ _ _) as [back e].
  simpl. case_bool_decide; by apply set_stores_typed.
Qed.

Lemma conf_fields_typed : Forall (keeps state_typed) conf_fields.
Proof.
  unfold conf_fields. repeat (apply Forall_cons; split); [..|by apply Forall_nil].
  5: apply stores_field_typed.
  all: first [apply string_field_keeps|apply int_field_keeps|apply bool_field_keeps];
    unfold on_conf, state_typed, conf_typed; simpl; tauto.
Qed.

Lemma decode_config_typed t c e : decode_config t = (Some c, e) → conf_typed c.
Proof.
  assert (conf_typed zero_conf) as Hz by done.
  destruct t as [text|ts|ms]; simpl; [repeat case_bool_decide; intros; by simplify_eq..|].
  pose proof (decode_members_keeps state_typed conf_fields [] ms (zero_conf, []) conf_fields_typed) as Hk.
  destruct (decode_members _ _ _ _) as [st e']. intros [= <- <-]. by apply Hk.
Qed.

(** * Types *)

(** The types of the configuration, and the values that can be stored in them. *)
Inductive gotype :=
  | GoString
  | GoInt
  | GoBool
  | GoSlice (elem : gotype)
  | GoStruct (fields : list (string * gotype)).

Definition is_null (t : jtree) : bool := bool_decide (tree_kind t = "null").

Fixpoint has_type (t : jtree) (ty : gotype) : bool :=
  is_null t ||
  match ty, t with
  | GoString, TLit _ => bool_decide (tree_kind t = "string")
  | GoBool, TLit _ => bool_decide (tree_kind t = "bool")
  | GoInt, TLit text =>
      bool_decide (tree_kind t = "number") && match ParseInt text with Ret _ => true | _ => false end
  | GoSlice elem, TArr ts => forallb (λ t', has_type t' elem) ts
  | GoStruct fields, TObj ms =>
      forallb (λ '(k, t'), match find_name fst k fields with Some (_, ty') => has_type t' ty' | None => true end) ms
  | _, _ => false
  end.

Definition store_type : gotype := GoStruct
  [("Region", GoString); ("AvailabilityZone", GoString); ("Name", GoString); ("Host", GoString);
   ("Port", GoInt); ("ArtificialLatencyInMs", GoInt)]%string.
Definition conf_type : gotype := GoStruct
  [("ConsistentHash", GoString); ("StoreType", GoString); ("HashingManagerType", GoString);
   ("PipingType", GoString); ("Stores", GoSlice store_type); ("BucketSize", GoInt); ("Concurrent", GoBool);
   ("RemoteStoreLatencyThresholdInMilliSec", GoInt); ("LocalReplicaNum", GoInt);
   ("RemoteReplicaNum", GoInt)]%string.

(** A field reports an error for exactly the values that are not of its type. *)
Definition checks {S} (f : field S) (ty : string * gotype) : Prop :=
  f_name f = ty.1 ∧ ∀ path t s, (f_store f path t s).2 = None ↔ has_type t ty.2 = true.

Lemma mismatch_snd {S} struct ty path t (s : S) :
  (mismatch struct ty path t s).2 = None ↔ is_null t = true.
Proof. unfold mismatch, is_null. case_bool_decide; naive_solver. Qed.

Lemma string_field_checks {S} struct name ty (set : string → S → S) :
  checks (string_field struct name ty set) (name, GoString).
Proof.
  split; [done|]. intros path t s. destruct t as [text|ts|ms]; simpl; [|naive_solver..].
  rewrite orb_true_iff, bool_decide_eq_true. case_bool_decide as E; [naive_solver|].
  rewrite mismatch_snd. naive_solver.
Qed.

Lemma bool_field_checks {S} struct name (set : bool → S → S) :
  checks (bool_field struct name set) (name, GoBool).
Proof.
  split; [done|]. intros path t s. destruct t as [text|ts|ms]; simpl; [|naive_solver..].
  rewrite orb_true_iff, bool_decide_eq_true. case_bool_decide as E; [naive_solver|].
  rewrite mismatch_snd. naive_solver.
Qed.

Lemma int_field_checks {S} struct name ty (set : Z → S → S) :
  checks (int_field struct name ty set) (name, GoInt).
Proof.
  split; [done|]. intros path t s. destruct t as [text|ts|ms]; simpl; [|naive_solver..].
  rewrite orb_true_iff, andb_true_iff, bool_decide_eq_true. case_bool_decide as E.
  - assert (is_null (TLit text) = false) as -> by (apply bool_decide_eq_false; simpl; by rewrite E).
    destruct (ParseInt text); naive_solver.
  - rewrite mismatch_snd. naive_solver.
Qed.

Lemma find_checks {S} (fields : list (field S)) tys k :
  Forall2 checks fields tys →
  match find_field fields k, find_name fst k tys with
  | Some f, Some ty => checks f ty
  | None, None => True
  | _, _ => False
  end.
Proof.
  intros HF. unfold find_field, find_name.
  assert (∀ (find : ∀ A, (A → string) → string → list A → option A),
    (∀ A (name : A → string), find A name k [] = None) →
    (∀ A A' (n : A → string) (n' : A' → string) x x' l l', n x = n' x' →
       (find A n k (x :: l) = Some x ∧ find A' n' k (x' :: l') = Some x') ∨
       (find A n k (x :: l) = find A n k l ∧ find A' n' k (x' :: l') = find A' n' k l')) →
    match find _ f_name k fields, find _ fst k tys with
    | Some f, Some ty => checks f ty
    | None, None => True
    | _, _ => False
    end) as Hfind.
  { intros find Hnil Hcons. induction HF as [|f ty fields tys Hf HF IH]; [by rewrite !Hnil|].
    destruct (Hcons _ _ f_name fst f ty fields tys (proj1 Hf)) as [[-> ->]|[-> ->]]; done. }
  lapply (Hfind (λ A n, find_exact n) (λ _ _, eq_refl));
    [intros He|intros ? ? n n' x x' ? ? E; simpl; rewrite E; case_bool_decide; auto].
  lapply (Hfind (λ A n, find_folded n) (λ _ _, eq_refl));
    [intros Hf|intros ? ? n n' x x' ? ? E; simpl; rewrite E; destruct (equalFold _ _); auto].
  by destruct (find_exact f_name k fields), (find_exact fst k tys).
Qed.

Lemma keep_first_None e e' : keep_first e e' = None ↔ e = None ∧ e' = None.
Proof. destruct e; simpl; naive_solver. Qed.

Lemma decode_members_checks {S} (fields : list (field S)) tys path ms s :
  Forall2 checks fields tys →
  (decode_members fields path ms s).2 = None ↔
  forallb (λ '(k, t), match find_name fst k tys with Some (_, ty) => has_type t ty | None => true end) ms = true.
Proof.
  intros HF. unfold decode_members.
  assert (∀ st, (foldl (decode_member fields path) st ms).2 = None ↔ st.2 = None ∧
    forallb (λ '(k, t), match find_name fst k tys with Some (_, ty) => has_type t ty | None => true end) ms = true) as Hall.
  { induction ms as [|[k t] ms IH]; intros [s0 e0]; [simpl; naive_solver|]. cbn [foldl forallb].
    rewrite IH, andb_true_iff. unfold decode_member. cbn [fst snd].
    pose proof (find_checks fields tys k HF) as Hk.
    destruct (find_field fields k) as [f|], (find_name fst k tys) as [[n ty]|]; try done; [|naive_solver].
    destruct Hk as [_ Hk]. specialize (Hk (path ++ [f_name f]) t s0).
    destruct (f_store f _ t s0) as [s1 e1]. cbn [snd] in *. rewrite keep_first_None. naive_solver. }
  rewrite Hall. simpl. naive_solver.
Qed.
#[local] Hint Resolve string_field_checks int_field_checks bool_field_checks : core.

Definition struct_fields (ty : gotype) : list (string * gotype) :=
  match ty with GoStruct fs => fs | _ => [] end.

Lemma store_fields_check : Forall2 checks store_fields (struct_fields store_type).
Proof. repeat (apply Forall2_cons; split); auto. Qed.

Lemma decode_store_checks path t s : (decode_store path t s).2 = None ↔ has_type t store_type = true.
Proof.
  destruct t as [text|ts|ms]; cbn [decode_store has_type store_type]; rewrite orb_true_iff;
    [rewrite mismatch_snd; naive_solver..|].
  rewrite (decode_members_checks _ _ _ _ _ store_fields_check). simpl. naive_solver.
Qed.

Lemma decode_elems_checks path ts i back e :
  (decode_elems path ts i back e).2 = None ↔ e = None ∧ forallb (λ t, has_type t store_type) ts = true.
Proof.
  revert i back e. induction ts as [|t ts IH]; intros i back e; [simpl; naive_solver|].
  cbn [decode_elems forallb]. rewrite andb_true_iff.
  pose proof (decode_store_checks path t (default zero_store (grow i back !! i))) as Hs.
  destruct (decode_store path t _) as [s e']. cbn [snd] in Hs. rewrite IH, keep_first_None. naive_solver.
Qed.

Lemma stores_field_checks : checks stores_field ("Stores"%string, GoSlice store_type).
Proof.
  split; [done|]. intros path t st. cbn [f_store stores_field].
  destruct t as [text|ts|ms]; cbn [has_type]; rewrite orb_true_iff.
  - change (is_null (TLit text) = true) with (bool_decide (tree_kind (TLit text) = "null") = true).
    case_bool_decide as E; [naive_solver|]. rewrite mismatch_snd. unfold is_null. rewrite bool_decide_false; naive_solver.
  - pose proof (decode_elems_checks path ts 0 (Stores st.1 ++ st.2) None) as Hd.
    destruct (decode_elems _ _ _ _ _) as [back e]. cbn [snd] in *. rewrite Hd. naive_solver.
  - simpl. naive_solver.
Qed.
#[local] Hint Resolve stores_field_checks : core.

Lemma conf_fields_check : Forall2 checks conf_fields (struct_fields conf_type).
Proof. repeat (apply Forall2_cons; split); auto. Qed.

Lemma decode_config_checks t : (decode_config t).2 = None ↔ has_type t conf_type = true.
Proof.
  destruct t as [text|ts|ms]; cbn [decode_config has_type conf_type]; rewrite orb_true_iff.
  - change (is_null (TLit text) = true) with (bool_decide (tree_kind (TLit text) = "null") = true).
    case_bool_decide; naive_solver.
  - simpl. naive_solver.
  - pose proof (decode_members_checks _ _ [] ms (zero_conf, []) conf_fields_check) as Hd.
    destruct (decode_members _ _ _ _) as [st e]. cbn [snd] in *. rewrite Hd. simpl. naive_solver.
Qed.

(** * Properties *)

(** Whatever the configuration file holds, and whether an error is reported or not,
    the configuration that is returned has the types its fields declare: every number of
    it and of its stores is a 64-bit integer. *)
Theorem config_typed runningfile open fileName c e :
  NewKVConfiguration runningfile open fileName = (Some c, e) → conf_typed c.
Proof.
  assert (conf_typed zero_conf) as Hz by done.
  unfold NewKVConfiguration, Decode. destruct runningfile; [|by intros [= <- _]].
  destruct (open _); [|by intros [= <- _]..]. destruct (read_value _ _ _); [|by intros [= <- _]..].
  destruct (build _); [|by intros [= <- _]]. apply decode_config_typed.
Qed.

(** The configuration is read without an error exactly when the file begins with a
    value of its type: the text up to the end of the value is JSON, and every member that
    names a field -- exactly, or up to the case of letters -- has a value of the field's
    type, numbers within 64 bits; other members do not matter. *)
Lemma config_accepted contents :
  (Decode contents).2 = None ↔
  ∃ ops t, read_value contents (mkScanner stateBeginValue []) contents = Ret ops ∧
    build ops = Some t ∧ has_type t conf_type = true.
Proof.
  unfold Decode. pose proof (Decode_total contents) as Ht.
  destruct (read_value contents _ contents) as [ops|e|e]; [|naive_solver..].
  destruct (Ht ops eq_refl) as [t Et]. rewrite Et, decode_config_checks. naive_solver.
Qed.

Definition shipped_stores : list KVStore :=
  [ mkKVStore "us-west-1" "us-west-1b" "store1" "127.0.0.1" 6379 1;
    mkKVStore "us-west-2" "us-west-2a" "store3" "172.31.9.140" 6379 40;
    mkKVStore "us-west-2" "us-west-2b" "store4" "172.31.12.96" 6380 100 ].
Definition shipped_conf : KVConfiguration :=
  mkKVConfiguration "rendezvous" "mem" "syncAsync" "localSyncRemoteAsync" shipped_stores 10 true 100 2 1.

(** The repository's files, as the service sees them. *)
Definition repository (dir : string) (p : string) : outcome string :=
  if bool_decide (p = path_Clean (dir +:+ "/config.json")) then Ret config_json
  else Fail ("open " +:+ p +:+ ": no such file or directory").

(** Every store of the shipped configuration is in a zone of its region. *)
Lemma shipped_zones : Forall (λ s, AvailabilityZone s ∈ zones_of (Region s)) (Stores shipped_conf).
Proof. apply (bool_decide_unpack _). by vm_compute. Qed.

Lemma config_json_decodes : Decode config_json = (Some shipped_conf, None).
Proof. by vm_compute. Qed.

Lemma config_typed_witness :
  NewKVConfiguration (Some "/src/cmd/http/main.go") (repository "/src/cmd/http") "config.json" =
    (Some shipped_conf, None) ∧ conf_typed shipped_conf.
Proof.
  split; [by vm_compute|].
  apply (config_typed (Some "/src/cmd/http/main.go"%string) (repository "/src/cmd/http") "config.json" _ None).
  by vm_compute.
Defined.
