(* ===== verification/ConfigRead.v ===== *)
(** Reading back a configuration that was written.

    [jdata] is a JSON value and [print] its text, with no blanks and members in the order
    given, as [encoding/json] writes a struct; neither knows of the scanner and decoder of
    [Json] and [ConfigFile].  [print_reads] is that the decoder, byte by byte, makes of a
    printed value the tree of the value; [config_reads] is what follows for the
    configuration of the service. *)
From Stdlib Require Import Ascii.
From stdpp Require Import base gmap list strings pretty.
From S2P Require Import Prelude GoStd Json Hashing Latency Config ConfigFile.

Open Scope Z_scope.

(** * Values and their text *)

Inductive jdata :=
  | DNull
  | DBool (b : bool)
  | DNum (z : Z)
  | DStr (s : string)
  | DArr (elems : list jdata)
  | DObj (members : list (string * jdata)).

(** Induction with the elements and the members. *)
Lemma jdata_induction (P : jdata → Prop) :
  P DNull → (∀ b, P (DBool b)) → (∀ z, P (DNum z)) → (∀ s, P (DStr s)) →
  (∀ ds, Forall P ds → P (DArr ds)) → (∀ ms, Forall (λ m, P m.2) ms → P (DObj ms)) → ∀ d, P d.
Proof.
  intros Hn Hb Hz Hs Ha Ho. fix IH 1. intros [|b|z|s|ds|ms]; [done|done|done|done|..].
  - apply Ha. induction ds as [|d ds IHds]; constructor; [apply IH|done].
  - apply Ho. induction ms as [|[k d] ms IHms]; constructor; [apply IH|done].
Qed.

Fixpoint print (d : jdata) : string :=
  match d with
  | DNull => "null"
  | DBool b => if b then "true" else "false"
  | DNum z => pretty z
  | DStr s => marshal_string s
  | DArr ds => "[" +:+ Join "," (print <$> ds) +:+ "]"
  | DObj ms => "{" +:+ Join "," ((λ m, marshal_string m.1 +:+ ":" +:+ print m.2) <$> ms) +:+ "}"
  end.

(** Numbers of 64 bits, ASCII strings. *)
Fixpoint plain_data (d : jdata) : Prop :=
  match d with
  | DNull | DBool _ => True
  | DNum z => is_int64 z
  | DStr s => is_ascii s
  | DArr ds => foldr (λ d P, plain_data d ∧ P) True ds
  | DObj ms => foldr (λ m P, (is_ascii m.1 ∧ plain_data m.2) ∧ P) True ms
  end.

Fixpoint depth (d : jdata) : nat :=
  match d with
  | DArr ds => S (foldr (λ d n, Nat.max (depth d) n) 0%nat ds)
  | DObj ms => S (foldr (λ m n, Nat.max (depth m.2) n) 0%nat ms)
  | _ => 0
  end.

(** A value of a Go type, as the documentation of [encoding/json] has it: null is a value of
    all of them; a member of an object that names no field does not matter. *)
Fixpoint typed (d : jdata) (ty : gotype) : Prop :=
  match d, ty with
  | DNull, _ | DBool _, GoBool | DNum _, GoInt | DStr _, GoString => True
  | DArr ds, GoSlice elem => foldr (λ d P, typed d elem ∧ P) True ds
  | DObj ms, GoStruct fields =>
      foldr (λ m P, match find_name fst m.1 fields with Some (_, ty') => typed m.2 ty' | None => True end ∧ P) True ms
  | _, _ => False
  end.

(** The tree the decoder works on. *)
Fixpoint tree_of (d : jdata) : jtree :=
  match d with
  | DArr ds => TArr (tree_of <$> ds)
  | DObj ms => TObj ((λ m, (m.1, tree_of m.2)) <$> ms)
  | _ => TLit (print d)
  end.

(** * Reading a text *)

(** From [sc] the text [s] leads to [sc'] and leaves the value [v] behind. *)
Definition reads (sc : scanner) (s : string) (sc' : scanner) (v : jtree) : Prop :=
  ∃ ops, (∀ all t, read_value all sc (s +:+ t) = let! ops' := read_value all sc' t in Ret (ops ++ ops')) ∧
    ∀ st cur, foldl build_step (mkBuilder st cur) ops = mkBuilder st (Some v).

(** The bytes that end a value inside of another one. *)
Definition ended (sc : scanner) (fs : list frame) : Prop :=
  ∀ c, isb 44 c || isb 93 c || isb 125 c = true → step sc c = step_EndValue fs c.

Definition inside (o : opcode * ascii) : Prop :=
  match o.1 with scanEnd | scanEndObject | scanEndArray => False | _ => True end.

Lemma read_scan all sc s ops sc' t :
  scan sc s = Ret (ops, sc') → Forall inside ops →
  read_value all sc (s +:+ t) = let! ops' := read_value all sc' t in Ret (ops ++ ops').
Proof.
  revert sc ops. induction s as [|c s IH]; intros sc ops E HF; simpl in E.
  { injection E as <- <-. simpl. change ("" +:+ t) with t. by destruct (read_value all sc t). }
  destruct (step sc c) as [[op sc1]| |] eqn:Es; [|done..]. cbn [obind] in E.
  destruct (scan sc1 s) as [[ops1 sc2]| |] eqn:E1; [|done..]. cbn [obind] in E. injection E as <- <-.
  apply Forall_cons in HF as [Hop HF]. change (String c s +:+ t) with (String c (s +:+ t)).
  cbn [read_value]. rewrite Es. cbn [obind]. rewrite (IH sc1 ops1 E1 HF).
  destruct (read_value all sc2 t); destruct op; done.
Qed.

Lemma conts_inside s : Forall inside (conts s).
Proof. induction s; by constructor. Qed.

Lemma build_conts st x s :
  foldl build_step (mkBuilder st (Some (TLit x))) (conts s) = mkBuilder st (Some (TLit (x +:+ s))).
Proof.
  revert x. induction s as [|c s IH]; intros x; simpl; [by rewrite string_app_nil_r|].
  unfold build_step at 2. cbn [fst snd b_cur b_open]. by rewrite IH, <- string_app_assoc.
Qed.

(** A literal, from its opcodes. *)
Lemma reads_literal sc c s sc' :
  scan sc (String c s) = Ret ((scanBeginLiteral, c) :: conts s, sc') → reads sc (String c s) sc' (TLit (String c s)).
Proof.
  intros E. exists ((scanBeginLiteral, c) :: conts s). split.
  - intros all t. apply read_scan; [done|]. constructor; [done|apply conts_inside].
  - intros st cur. cbn [foldl]. unfold build_step at 2. cbn [fst snd b_open]. by rewrite build_conts.
Qed.

(** ** Numbers *)

Fixpoint digits (s : string) : Prop :=
  match s with EmptyString => True | String c s' => isDigit c = true ∧ digits s' end.

Lemma scan_digits fs s : digits s → scan (mkScanner state1 fs) s = Ret (conts s, mkScanner state1 fs).
Proof.
  induction s as [|c s IH]; [done|]. intros [Hc Hs]. cbn [scan]. unfold step. cbn [sc_step parseState].
  rewrite Hc. cbn [obind]. by rewrite IH.
Qed.

Lemma pretty_char n : (n < 10)%N → isDigit (pretty_N_char n) = true ∧ ((0 < n)%N → between 49 57 (pretty_N_char n) = true).
Proof. intros. destruct n as [|p]; [done|]. do 4 (destruct p as [p|p|]; try lia; try by vm_compute). Qed.

Lemma pretty_go_digits x s :
  (0 < x)%N → digits s → ∃ c s', pretty_N_go x s = String c s' ∧ between 49 57 c = true ∧ digits s'.
Proof.
  revert s. induction (N.lt_wf_0 x) as [x _ IH]. intros s Hx Hs. rewrite pretty_N_go_step by lia.
  pose proof (N.mod_lt x 10 ltac:(lia)) as Hm. destruct (pretty_char _ Hm) as [Hd Hp].
  destruct (decide (x `div` 10 = 0)%N) as [E|E].
  - rewrite E, pretty_N_go_0. eexists _, _. split; [done|]. split; [|done]. apply Hp.
    pose proof (N.Div0.div_mod x 10). lia.
  - apply IH; [by apply N.div_lt|by apply N.neq_0_lt_0|by split].
Qed.

Lemma number_reads st fs (z : Z) :
  st = stateBeginValue ∨ st = stateBeginValueOrEmpty →
  ∃ sc', reads (mkScanner st fs) (pretty z) sc' (TLit (pretty z)) ∧ ended sc' fs.
Proof.
  intros Hst. assert (∀ c s', between 49 57 c = true → digits s' →
    scan (mkScanner st fs) (String c s') = Ret ((scanBeginLiteral, c) :: conts s', mkScanner state1 fs) ∧
    scan (mkScanner st fs) (String "-" (String c s')) =
      Ret ((scanBeginLiteral, "-"%char) :: conts (String c s'), mkScanner state1 fs)) as Hscan.
  { intros c s' Hc Hs'. assert (step (mkScanner st fs) c = Ret (scanBeginLiteral, mkScanner state1 fs)) as E.
    { by destruct Hst as [-> | ->]; destruct c as [[] [] [] [] [] [] [] []]; vm_compute in Hc |- *. }
    assert (step (mkScanner st fs) "-" = Ret (scanBeginLiteral, mkScanner stateNeg fs)) as En
      by by destruct Hst as [-> | ->].
    assert (step (mkScanner stateNeg fs) c = Ret (scanContinue, mkScanner state1 fs)) as Ec.
    { by destruct c as [[] [] [] [] [] [] [] []]; vm_compute in Hc |- *. }
    cbn [scan conts]. rewrite E, En. cbn [obind]. rewrite Ec. cbn [obind]. rewrite scan_digits by done. done. }
  assert (ended (mkScanner state1 fs) fs) as He.
  { intros c. by destruct c as [[] [] [] [] [] [] [] []]; intros Hc; vm_compute in Hc |- *. }
  destruct z as [|p|p].
  - exists (mkScanner state0 fs). split; [apply reads_literal; by destruct Hst as [-> | ->]|].
    intros c. by destruct c as [[] [] [] [] [] [] [] []]; intros Hc; vm_compute in Hc |- *.
  - change (pretty (Z.pos p)) with (pretty (N.pos p)). unfold pretty, pretty_N. rewrite decide_False by done.
    destruct (pretty_go_digits (N.pos p) "") as (c & s' & -> & Hc & Hs'); [lia|done|].
    exists (mkScanner state1 fs). split; [|done]. apply reads_literal. by apply Hscan.
  - change (pretty (Z.neg p)) with (String "-" (pretty (N.pos p))). unfold pretty, pretty_N. rewrite decide_False by done.
    destruct (pretty_go_digits (N.pos p) "") as (c & s' & -> & Hc & Hs'); [lia|done|].
    exists (mkScanner state1 fs). split; [|done]. apply reads_literal. by apply Hscan.
Qed.

(** ** Inside of another value *)

(** [n] more values can be open in it. *)
Definition readable (s : string) (v : jtree) (n : nat) : Prop :=
  ∀ st fs, st = stateBeginValue ∨ st = stateBeginValueOrEmpty → fs ≠ [] →
    Z.of_nat (length fs + n) ≤ maxNestingDepth →
    ∃ sc', reads (mkScanner st fs) s sc' v ∧ ended sc' fs.

Lemma string_reads st fs s :
  begins st ∨ st = stateBeginValueOrEmpty → is_ascii s →
  reads (mkScanner st fs) (marshal_string s) (mkScanner stateEndValue fs) (TLit (marshal_string s)).
Proof.
  intros Hst Hs. refine (reads_literal _ (chr 34) (marshal_body (String.length s) s +:+ quote1) _ _).
  assert (∀ st', begins st' → scan (mkScanner st' fs) (marshal_string s) = Ret (lit_ops s, mkScanner stateEndValue fs))
    as Hscan by (intros; by apply scan_string).
  destruct Hst as [Hst| ->]; [exact (Hscan st Hst)|]. exact (Hscan stateBeginValue ltac:(unfold begins; tauto)).
Qed.

Lemma pop_inside fs : fs ≠ [] → pop fs = mkScanner stateEndValue fs.
Proof. by destruct fs. Qed.

Lemma ended_EndValue fs : ended (mkScanner stateEndValue fs) fs.
Proof. by intros c _. Qed.

(** The bytes [c] that are not at the end of anything. *)
Lemma read_byte all sc c op sc' t :
  step sc c = Ret (op, sc') → inside (op, c) →
  read_value all sc (String c t) = let! ops := read_value all sc' t in Ret ((op, c) :: ops).
Proof. intros E Hop. cbn [read_value]. rewrite E. cbn [obind]. by destruct op. Qed.

(** The end of an array or object inside of another value. *)
Lemma read_close all sc c op sc' t :
  step sc c = Ret (op, sc') → op = scanEndObject ∨ op = scanEndArray →
  read_value all sc (String c t) =
    if is_top sc' then Ret [(op, c)] else let! ops := read_value all sc' t in Ret ((op, c) :: ops).
Proof. intros E Hop. cbn [read_value]. rewrite E. cbn [obind]. by destruct Hop as [-> | ->]. Qed.

(** The elements of an array. *)
Lemma elems_read fs n p ps st :
  st = stateBeginValue ∨ st = stateBeginValueOrEmpty →
  Z.of_nat (length (parseArrayValue :: fs) + n) ≤ maxNestingDepth →
  Forall (λ p, readable p.1 p.2 n) (p :: ps) →
  ∃ sc' ops, ended sc' (parseArrayValue :: fs) ∧
    (∀ all t, read_value all (mkScanner st (parseArrayValue :: fs)) (Join "," (p :: ps).*1 +:+ t) =
       let! ops' := read_value all sc' t in Ret (ops ++ ops')) ∧
    ∀ acc stk cur, ∃ init v, foldl build_step (mkBuilder (OArr acc :: stk) cur) ops =
      mkBuilder (OArr init :: stk) (Some v) ∧ v :: init = reverse (p :: ps).*2 ++ acc.
Proof.
  intros Hst Hlen. revert p st Hst. induction ps as [|p' ps IH]; intros p st Hst [Hp HF]%Forall_cons.
  { destruct (Hp st (parseArrayValue :: fs) Hst ltac:(done) Hlen) as (sc' & (ops & Hr & Hb) & He).
    exists sc', ops. split_and!; [done|intros all t; apply Hr|]. intros acc stk cur. exists acc, p.2. split; [apply Hb|].
    cbn [fmap list_fmap]. by rewrite reverse_singleton. }
  destruct (Hp st (parseArrayValue :: fs) Hst ltac:(done) Hlen) as (sc1 & (ops1 & Hr1 & Hb1) & He1).
  destruct (IH p' stateBeginValue (or_introl eq_refl) HF) as (sc' & ops & He & Hr & Hb).
  exists sc', (ops1 ++ (scanArrayValue, ","%char) :: ops). split_and!; [done|..].
  - intros all t. change (Join "," (p :: p' :: ps).*1) with (p.1 +:+ "," +:+ Join "," (p' :: ps).*1).
    rewrite <- !string_app_assoc, Hr1. change ("," +:+ ?x) with (String "," x).
    rewrite (read_byte all sc1 "," scanArrayValue (mkScanner stateBeginValue (parseArrayValue :: fs)));
      [|by rewrite He1|done].
    rewrite Hr. destruct (read_value all sc' t); [|done..]. cbn [obind]. by rewrite <- (assoc_L (++)).
  - intros acc stk cur. destruct (Hb (p.2 :: acc) stk None) as (init & v & E & Ev). exists init, v.
    rewrite foldl_app, Hb1. cbn [foldl]. unfold build_step at 2. cbn [fst close_value b_cur b_open].
    split; [exact E|]. rewrite Ev. change ((p :: p' :: ps).*2) with (p.2 :: (p' :: ps).*2).
    rewrite (reverse_cons _ p.2), <- (assoc_L (++)). done.
Qed.

(** The members of an object. *)
Definition member_text (m : string * (string * jtree)) : string := marshal_string m.1 +:+ ":" +:+ m.2.1.

Lemma member_read fs n m st :
  st = stateBeginString ∨ st = stateBeginStringOrEmpty →
  Z.of_nat (length (parseObjectKey :: fs) + n) ≤ maxNestingDepth →
  is_ascii m.1 → readable m.2.1 m.2.2 n →
  ∃ sc' ops, ended sc' (parseObjectValue :: fs) ∧
    (∀ all t, read_value all (mkScanner st (parseObjectKey :: fs)) (member_text m +:+ t) =
       let! ops' := read_value all sc' t in Ret (ops ++ ops')) ∧
    ∀ k acc stk cur, foldl build_step (mkBuilder (OObj k acc :: stk) cur) ops =
      mkBuilder (OObj m.1 acc :: stk) (Some m.2.2).
Proof.
  intros Hst Hlen Hk Hv.
  assert (reads (mkScanner st (parseObjectKey :: fs)) (marshal_string m.1) (mkScanner stateEndValue (parseObjectKey :: fs))
    (TLit (marshal_string m.1))) as (ops1 & Hr1 & Hb1) by (apply string_reads; [unfold begins; tauto|done]).
  destruct (Hv stateBeginValue (parseObjectValue :: fs)) as (sc' & (ops2 & Hr2 & Hb2) & He); [by left|done|done|].
  exists sc', (ops1 ++ (scanObjectKey, ":"%char) :: ops2). split_and!; [done|..].
  - intros all t. unfold member_text. rewrite <- !string_app_assoc, Hr1. change (":" +:+ ?x) with (String ":" x).
    rewrite (read_byte all _ ":" scanObjectKey (mkScanner stateBeginValue (parseObjectValue :: fs))) by done.
    rewrite Hr2. destruct (read_value all sc' t); [|done..]. cbn [obind]. by rewrite <- (assoc_L (++)).
  - intros k acc stk cur. rewrite foldl_app, Hb1. cbn [foldl]. unfold build_step at 2. cbn [fst b_cur b_open].
    rewrite (unquote_marshal m.1) by done. apply Hb2.
Qed.

Definition pair_of (m : string * (string * jtree)) : string * jtree := (m.1, m.2.2).

Lemma members_read fs n m ms st :
  st = stateBeginString ∨ st = stateBeginStringOrEmpty →
  Z.of_nat (length (parseObjectKey :: fs) + n) ≤ maxNestingDepth →
  Forall (λ m, is_ascii m.1 ∧ readable m.2.1 m.2.2 n) (m :: ms) →
  ∃ sc' ops, ended sc' (parseObjectValue :: fs) ∧
    (∀ all t, read_value all (mkScanner st (parseObjectKey :: fs)) (Join "," (member_text <$> m :: ms) +:+ t) =
       let! ops' := read_value all sc' t in Ret (ops ++ ops')) ∧
    ∀ k acc stk cur, ∃ k' init v, foldl build_step (mkBuilder (OObj k acc :: stk) cur) ops =
      mkBuilder (OObj k' init :: stk) (Some v) ∧ (k', v) :: init = reverse (pair_of <$> m :: ms) ++ acc.
Proof.
  intros Hst Hlen. revert m st Hst. induction ms as [|m' ms IH]; intros m st Hst [[Hk Hv] HF]%Forall_cons.
  { destruct (member_read fs n m st Hst Hlen Hk Hv) as (sc' & ops & He & Hr & Hb).
    exists sc', ops. split_and!; [done|intros all t; apply Hr|]. intros k acc stk cur. exists m.1, acc, m.2.2.
    split; [apply Hb|]. cbn [fmap list_fmap]. by rewrite reverse_singleton. }
  destruct (member_read fs n m st Hst Hlen Hk Hv) as (sc1 & ops1 & He1 & Hr1 & Hb1).
  destruct (IH m' stateBeginString (or_introl eq_refl) HF) as (sc' & ops & He & Hr & Hb).
  exists sc', (ops1 ++ (scanObjectValue, ","%char) :: ops). split_and!; [done|..].
  - intros all t. change (Join "," (member_text <$> m :: m' :: ms)) with
      (member_text m +:+ "," +:+ Join "," (member_text <$> m' :: ms)).
    rewrite <- !string_app_assoc, Hr1. change ("," +:+ ?x) with (String "," x).
    rewrite (read_byte all sc1 "," scanObjectValue (mkScanner stateBeginString (parseObjectKey :: fs)));
      [|by rewrite He1|done].
    rewrite Hr. destruct (read_value all sc' t); [|done..]. cbn [obind]. by rewrite <- (assoc_L (++)).
  - intros k acc stk cur. destruct (Hb m.1 (pair_of m :: acc) stk None) as (k' & init & v & E & Ev). exists k', init, v.
    rewrite foldl_app, Hb1. cbn [foldl]. unfold build_step at 2. cbn [fst close_value b_cur b_open].
    split; [exact E|]. rewrite Ev. change (pair_of <$> m :: m' :: ms) with (pair_of m :: (pair_of <$> m' :: ms)).
    rewrite (reverse_cons _ (pair_of m)), <- (assoc_L (++)). done.
Qed.

Lemma array_readable ps n :
  Forall (λ p, readable p.1 p.2 n) ps → readable ("[" +:+ Join "," ps.*1 +:+ "]") (TArr ps.*2) (S n).
Proof.
  intros HF st fs Hst Hne Hlen. exists (mkScanner stateEndValue fs). split; [|apply ended_EndValue].
  assert (step (mkScanner st fs) "[" = Ret (scanBeginArray, mkScanner stateBeginValueOrEmpty (parseArrayValue :: fs))) as Eb.
  { assert (push stateBeginValueOrEmpty fs parseArrayValue scanBeginArray "[" =
      Ret (scanBeginArray, mkScanner stateBeginValueOrEmpty (parseArrayValue :: fs))) as Ep.
    { unfold push. cbn [length]. by rewrite (proj2 (Z.leb_le _ _)) by lia. }
    by destruct Hst as [-> | ->]. }
  assert (∀ sc', ended sc' (parseArrayValue :: fs) → step sc' "]" = Ret (scanEndArray, mkScanner stateEndValue fs)) as Ee.
  { intros sc' He. rewrite He by done. unfold step_EndValue. simpl. by rewrite pop_inside. }
  destruct ps as [|p ps].
  { exists [(scanBeginArray, "["%char); (scanEndArray, "]"%char)]. split; [|done]. intros all t.
    change (read_value all (mkScanner st fs) _) with (read_value all (mkScanner st fs) (String "[" (String "]" t))).
    rewrite (read_byte all _ "[" _ _ _ Eb) by done.
    rewrite (read_close all _ "]" scanEndArray (mkScanner stateEndValue fs));
      [|by apply (Ee (mkScanner stateEndValue (parseArrayValue :: fs))), ended_EndValue|by right].
    by destruct (read_value all _ t). }
  destruct (elems_read fs n p ps stateBeginValueOrEmpty) as (sc' & ops & He & Hr & Hb); [by right|cbn [length]; lia|done|].
  exists ((scanBeginArray, "["%char) :: ops ++ [(scanEndArray, "]"%char)]). split.
  - intros all t. rewrite <- !string_app_assoc. change ("[" +:+ ?x) with (String "[" x).
    rewrite (read_byte all _ "[" _ _ _ Eb) by done. rewrite Hr. change ("]" +:+ t) with (String "]" t).
    rewrite (read_close all _ "]" scanEndArray (mkScanner stateEndValue fs)); [|by apply Ee|by right].
    cbn [is_top sc_step]. destruct (read_value all _ t); [|done..]. simpl. by rewrite <- app_assoc.
  - intros stk cur. cbn [foldl]. rewrite foldl_app.
    change (build_step (mkBuilder stk cur) (scanBeginArray, "["%char)) with (mkBuilder (OArr [] :: stk) None).
    destruct (Hb [] stk None) as (init & v & -> & Ev). cbn [foldl]. unfold build_step. cbn [fst close_value b_cur b_open].
    by rewrite Ev, app_nil_r, reverse_involutive.
Qed.

(** An object, up to its last brace. *)
Lemma object_read ms n st fs :
  st = stateBeginValue ∨ st = stateBeginValueOrEmpty → Z.of_nat (length fs + S n) ≤ maxNestingDepth →
  Forall (λ m, is_ascii m.1 ∧ readable m.2.1 m.2.2 n) ms →
  ∃ ops, (∀ all t, read_value all (mkScanner st fs) ("{" +:+ Join "," (member_text <$> ms) +:+ "}" +:+ t) =
      if is_top (pop fs) then Ret (ops ++ [(scanEndObject, "}"%char)])
      else let! ops' := read_value all (pop fs) t in Ret (ops ++ (scanEndObject, "}"%char) :: ops')) ∧
    ∀ stk cur, foldl build_step (mkBuilder stk cur) (ops ++ [(scanEndObject, "}"%char)]) =
      mkBuilder stk (Some (TObj (pair_of <$> ms))).
Proof.
  intros Hst Hlen HF.
  assert (step (mkScanner st fs) "{" = Ret (scanBeginObject, mkScanner stateBeginStringOrEmpty (parseObjectKey :: fs))) as Eb.
  { assert (push stateBeginStringOrEmpty fs parseObjectKey scanBeginObject "{" =
      Ret (scanBeginObject, mkScanner stateBeginStringOrEmpty (parseObjectKey :: fs))) as Ep.
    { unfold push. cbn [length]. by rewrite (proj2 (Z.leb_le _ _)) by lia. }
    by destruct Hst as [-> | ->]. }
  destruct ms as [|m ms].
  { exists [(scanBeginObject, "{"%char)]. split; [|done]. intros all t.
    change (read_value all (mkScanner st fs) _) with (read_value all (mkScanner st fs) (String "{" (String "}" t))).
    rewrite (read_byte all _ "{" _ _ _ Eb) by done.
    rewrite (read_close all _ "}" scanEndObject (pop fs)) by first [done|by left].
    destruct (is_top (pop fs)); [done|]. by destruct (read_value all _ t). }
  destruct (members_read fs n m ms stateBeginStringOrEmpty) as (sc' & ops & He & Hr & Hb); [by right|cbn [length]; lia|done|].
  exists ((scanBeginObject, "{"%char) :: ops). split.
  - intros all t. change ("{" +:+ ?x) with (String "{" x). rewrite (read_byte all _ "{" _ _ _ Eb) by done.
    rewrite Hr. change ("}" +:+ t) with (String "}" t).
    rewrite (read_close all _ "}" scanEndObject (pop fs)); [|by rewrite He|by left].
    destruct (is_top (pop fs)); [done|]. destruct (read_value all _ t); done.
  - intros stk cur. cbn [app foldl]. rewrite foldl_app.
    change (build_step (mkBuilder stk cur) (scanBeginObject, "{"%char)) with (mkBuilder (OObj "" [] :: stk) None).
    destruct (Hb ""%string [] stk None) as (k' & init & v & -> & Ev). cbn [foldl]. unfold build_step. cbn [fst close_value b_cur b_open].
    by rewrite Ev, app_nil_r, reverse_involutive.
Qed.

Lemma object_readable ms n :
  Forall (λ m, is_ascii m.1 ∧ readable m.2.1 m.2.2 n) ms →
  readable ("{" +:+ Join "," (member_text <$> ms) +:+ "}") (TObj (pair_of <$> ms)) (S n).
Proof.
  intros HF st fs Hst Hne Hlen. exists (mkScanner stateEndValue fs). split; [|apply ended_EndValue].
  destruct (object_read ms n st fs Hst Hlen HF) as (ops & Hr & Hb). rewrite pop_inside in Hr by done.
  exists (ops ++ [(scanEndObject, "}"%char)]). split; [|done].
  intros all t. rewrite <- !string_app_assoc, Hr. cbn [is_top sc_step].
  destruct (read_value all _ t); [|done..]. cbn [obind]. by rewrite <- (assoc_L (++)).
Qed.

(** A literal that is spelt out. *)
Lemma name_readable s n : s ∈ ["null"; "true"; "false"]%string → readable s (TLit s) n.
Proof.
  intros Hs st fs Hst _ _. exists (mkScanner stateEndValue fs). split; [|apply ended_EndValue].
  rewrite !elem_of_cons, elem_of_nil in Hs.
  destruct Hs as [->|[->|[->|[]]]]; apply reads_literal; by destruct Hst as [-> | ->].
Qed.

(** ** Printed values *)

Definition printed (m : string * jdata) : string * (string * jtree) := (m.1, (print m.2, tree_of m.2)).

Lemma print_object ms :
  print (DObj ms) = "{" +:+ Join "," (member_text <$> (printed <$> ms)) +:+ "}" ∧
  tree_of (DObj ms) = TObj (pair_of <$> (printed <$> ms)).
Proof. by rewrite <- !list_fmap_compose. Qed.

Lemma readable_le s v n n' : (n' ≤ n)%nat → readable s v n' → readable s v n.
Proof. intros Hn Hr st fs Hst Hne Hlen. apply Hr; [done|done|lia]. Qed.

Lemma fold_depth {A} (f : A → nat) l x : x ∈ l → (f x ≤ foldr (λ a n, Nat.max (f a) n) 0 l)%nat.
Proof. induction 1 as [x l|x y l _ IH]; simpl; lia. Qed.

Lemma fold_all {A} (P : A → Prop) l : foldr (λ a Q, P a ∧ Q) True l ↔ Forall P l.
Proof.
  induction l as [|a l IH]; simpl; [split; [constructor|done]|]. rewrite IH, Forall_cons. done.
Qed.

(** The decoder makes of a printed value the tree of the value. *)
Lemma print_reads d : plain_data d → readable (print d) (tree_of d) (depth d).
Proof.
  induction d as [|b|z|s|ds IH|ms IH] using jdata_induction; intros Hp.
  - by apply name_readable; left.
  - destruct b; apply name_readable; set_solver.
  - intros st fs Hst _ _. by apply number_reads.
  - intros st fs Hst _ _. exists (mkScanner stateEndValue fs). split; [|apply ended_EndValue].
    apply string_reads; [unfold begins; tauto|done].
  - cbn [plain_data] in Hp. apply (fold_all plain_data) in Hp.
    set (ps := (λ d, (print d, tree_of d)) <$> ds).
    assert (print (DArr ds) = "[" +:+ Join "," ps.*1 +:+ "]" ∧ tree_of (DArr ds) = TArr ps.*2) as [-> ->]
      by (unfold ps; by rewrite <- !list_fmap_compose).
    apply array_readable, Forall_fmap, Forall_forall. intros d Hd. rewrite Forall_forall in IH, Hp.
    eapply readable_le; [by apply (fold_depth depth)|]. by apply IH; [|apply Hp].
  - cbn [plain_data] in Hp. apply (fold_all (λ m, is_ascii m.1 ∧ plain_data m.2)) in Hp.
    destruct (print_object ms) as [-> ->]. apply object_readable, Forall_fmap, Forall_forall. intros m Hm.
    rewrite Forall_forall in IH, Hp. destruct (Hp m Hm) as [Hk Hv]. split; [done|].
    eapply readable_le; [by apply (fold_depth (λ m, depth m.2))|]. by apply IH.
Qed.

(** A file that begins with an object. *)
Lemma Decode_object ms rest :
  plain_data (DObj ms) → Z.of_nat (depth (DObj ms)) ≤ maxNestingDepth →
  Decode (print (DObj ms) +:+ rest) = decode_config (tree_of (DObj ms)).
Proof.
  intros Hp Hd. cbn [plain_data] in Hp. apply (fold_all (λ m, is_ascii m.1 ∧ plain_data m.2)) in Hp.
  destruct (print_object ms) as [Ep Et].
  destruct (object_read (printed <$> ms) (foldr (λ m n, Nat.max (depth m.2) n) 0 ms)%nat stateBeginValue [])
    as (ops & Hr & Hb); [by left|cbn [depth length] in *; lia| |].
  { apply Forall_fmap, Forall_forall. intros m Hm. rewrite Forall_forall in Hp. destruct (Hp m Hm) as [Hk Hv].
    split; [done|]. eapply readable_le; [by apply (fold_depth (λ m, depth m.2))|by apply print_reads]. }
  unfold Decode. rewrite Ep at 2. rewrite <- !string_app_assoc, Hr. cbn [pop is_top sc_step]. unfold build. rewrite Hb.
  by rewrite Et.
Qed.

(** * Configurations *)

Definition store_data (s : KVStore) : jdata :=
  DObj [("Region", DStr (Region s)); ("AvailabilityZone", DStr (AvailabilityZone s)); ("Name", DStr (kv_Name s));
        ("Host", DStr (Host s)); ("Port", DNum (Port s));
        ("ArtificialLatencyInMs", DNum (ArtificialLatencyInMs s))]%string.

Definition conf_data (c : KVConfiguration) : jdata :=
  DObj [("ConsistentHash", DStr (ConsistentHash c)); ("StoreType", DStr (StoreTypeOf c));
        ("HashingManagerType", DStr (HashingManagerTypeOf c)); ("PipingType", DStr (PipingTypeOf c));
        ("Stores", DArr (store_data <$> Stores c)); ("BucketSize", DNum (BucketSize c));
        ("Concurrent", DBool (Concurrent c));
        ("RemoteStoreLatencyThresholdInMilliSec", DNum (RemoteStoreLatencyThresholdInMilliSec c));
        ("LocalReplicaNum", DNum (LocalReplicaNum c)); ("RemoteReplicaNum", DNum (RemoteReplicaNum c))]%string.

(** The strings are ASCII and the numbers have 64 bits. *)
Definition store_plain (s : KVStore) : Prop :=
  is_ascii (Region s) ∧ is_ascii (AvailabilityZone s) ∧ is_ascii (kv_Name s) ∧ is_ascii (Host s) ∧ store_typed s.
Definition conf_plain (c : KVConfiguration) : Prop :=
  is_ascii (ConsistentHash c) ∧ is_ascii (StoreTypeOf c) ∧ is_ascii (HashingManagerTypeOf c) ∧
  is_ascii (PipingTypeOf c) ∧ Forall store_plain (Stores c) ∧ conf_typed c.

Fixpoint ascii_text (s : string) : bool :=
  match s with EmptyString => true | String c s' => (byte_val c <? 128) && ascii_text s' end.

Lemma ascii_text_is s : ascii_text s = true → is_ascii s.
Proof.
  induction s as [|c s IH]; [by intros _ d|]. cbn [ascii_text]. intros [Hc%Z.ltb_lt Hs]%andb_true_iff.
  by apply is_ascii_String; [|apply IH].
Qed.

(** ** Storing a literal *)

Lemma number_kind (z : Z) : tree_kind (TLit (pretty z)) = "number".
Proof.
  assert (∀ p, ∃ c s', pretty (N.pos p) = String c s' ∧ between 49 57 c = true) as Hp.
  { intros p. unfold pretty, pretty_N. rewrite decide_False by done.
    destruct (pretty_go_digits (N.pos p) "") as (c & s' & -> & Hc & _); [lia|done|]. by exists c, s'. }
  destruct z as [|p|p]; [done| |done]. change (pretty (Z.pos p)) with (pretty (N.pos p)).
  destruct (Hp p) as (c & s' & -> & Hc). cbn [tree_kind].
  by destruct c as [[] [] [] [] [] [] [] []]; vm_compute in Hc |- *.
Qed.

Lemma store_string {S} struct name ty (set : string → S → S) path x s :
  is_ascii x → f_store (string_field struct name ty set) path (TLit (marshal_string x)) s = (set x s, None).
Proof. intros Hx. rewrite <- (unquote_marshal x Hx) at 2. done. Qed.

Lemma store_int {S} struct name ty (set : Z → S → S) path n s :
  is_int64 n → f_store (int_field struct name ty set) path (TLit (pretty n)) s = (set n s, None).
Proof. intros Hn. cbn [f_store int_field]. by rewrite number_kind, bool_decide_true, ParseInt_pretty. Qed.

Lemma store_bool {S} struct name (set : bool → S → S) path b s :
  f_store (bool_field struct name set) path (TLit (if b : bool then "true" else "false"))%string s = (set b s, None).
Proof. by destruct b. Qed.

(** One member of a struct, which names field [i]. *)
Lemma find_field_nth {S} (fields : list (field S)) i f :
  NoDup (f_name <$> fields) → fields !! i = Some f → find_field fields (f_name f) = Some f.
Proof.
  intros Hnd Hi. unfold find_field, find_name. assert (find_exact f_name (f_name f) fields = Some f) as ->; [|done].
  revert i Hnd Hi. induction fields as [|g fields IH]; intros i Hnd Hi; [done|].
  apply NoDup_cons in Hnd as [Hg Hnd]. destruct i as [|i]; simpl in Hi |- *.
  - injection Hi as ->. by rewrite bool_decide_true.
  - rewrite bool_decide_false; [by eapply IH|]. intros E. apply Hg. rewrite E.
    apply list_elem_of_fmap. exists f. split; [done|]. by eapply list_elem_of_lookup_2.
Qed.

Lemma decode_member_nth {S} i (fields : list (field S)) path k t ms f s s' :
  NoDup (f_name <$> fields) → fields !! i = Some f → k = f_name f → f_store f (path ++ [f_name f]) t s = (s', None) →
  decode_members fields path ((k, t) :: ms) s = decode_members fields path ms s'.
Proof.
  intros Hnd Hi -> E. unfold decode_members. cbn [foldl]. unfold decode_member at 2. cbn [fst snd].
  by rewrite (find_field_nth fields i f), E.
Qed.

Lemma store_names : NoDup (f_name <$> store_fields).
Proof. apply (bool_decide_unpack _). by vm_compute. Qed.
Lemma conf_names : NoDup (f_name <$> conf_fields).
Proof. apply (bool_decide_unpack _). by vm_compute. Qed.
#[local] Hint Resolve store_names conf_names : core.

Ltac store_member i :=
  erewrite (decode_member_nth i); [|done|reflexivity|reflexivity|
    first [by apply store_string|by apply store_int|by apply store_bool]].

Lemma decode_store_data path s s0 :
  store_plain s → decode_store path (tree_of (store_data s)) s0 = (s, None).
Proof.
  intros (? & ? & ? & ? & ? & ?). cbn [tree_of store_data decode_store fmap list_fmap fst snd print].
  store_member 0%nat. store_member 1%nat. store_member 2%nat. store_member 3%nat. store_member 4%nat. store_member 5%nat.
  by destruct s.
Qed.

Lemma decode_elems_data path ss i back :
  Forall store_plain ss → (i ≤ length back)%nat →
  ∃ back', decode_elems path (tree_of <$> (store_data <$> ss)) i back None = (back', None) ∧
    take (i + length ss) back' = take i back ++ ss.
Proof.
  intros HF. revert i back. induction HF as [|s ss Hs HF IH]; intros i back Hi.
  { exists back. rewrite Nat.add_0_r, app_nil_r. done. }
  cbn [fmap list_fmap decode_elems]. rewrite decode_store_data by done. cbn [keep_first].
  assert (i < length (grow i back))%nat as Hlt.
  { unfold grow. destruct (Nat.ltb_spec i (length back)); [done|]. cbv zeta. rewrite length_app, length_replicate.
    pose proof (Nat.div_mod_eq (length back) 2). pose proof (Nat.mod_upper_bound (length back) 2). lia. }
  destruct (IH (S i) (<[i := s]> (grow i back))) as (back' & E & Et); [rewrite length_insert; lia|].
  exists back'. split; [done|]. cbn [length]. rewrite Nat.add_succ_r, <- Nat.add_succ_l, Et.
  rewrite (take_S_r _ i s) by (by rewrite list_lookup_insert_eq). rewrite take_insert_ge by done. rewrite <- app_assoc.
  f_equal. unfold grow. destruct (_ <? _)%nat; [done|]. by rewrite take_app_le.
Qed.

Lemma store_stores path ss c spare :
  Forall store_plain ss → Stores c ++ spare = [] →
  ∃ spare', f_store stores_field path (tree_of (DArr (store_data <$> ss))) (c, spare) =
    ((mkKVConfiguration (ConsistentHash c) (StoreTypeOf c) (HashingManagerTypeOf c) (PipingTypeOf c) ss
       (BucketSize c) (Concurrent c) (RemoteStoreLatencyThresholdInMilliSec c) (LocalReplicaNum c)
       (RemoteReplicaNum c), spare'), None).
Proof.
  intros HF Hc. cbn [tree_of f_store stores_field fst snd]. rewrite Hc.
  destruct (decode_elems_data path ss 0 [] HF) as (back & E & Et); [done|]. rewrite E. simpl in Et.
  destruct ss as [|s ss]; [by exists []|]. exists (drop (length (s :: ss)) back).
  rewrite bool_decide_false by done. unfold set_stores. by rewrite !length_fmap, Et.
Qed.

Lemma decode_conf_data c : conf_plain c → decode_config (tree_of (conf_data c)) = (Some c, None).
Proof.
  intros (? & ? & ? & ? & Hss & ? & ? & ? & ? & _). cbn [tree_of conf_data decode_config fmap list_fmap fst snd print].
  store_member 0%nat. store_member 1%nat. store_member 2%nat. store_member 3%nat.
  edestruct (store_stores ([] ++ ["Stores"%string]) (Stores c)) as [spare E]; [done|
    |erewrite (decode_member_nth 4); [|done|reflexivity|reflexivity|exact E]]; [done|].
  store_member 5%nat. store_member 6%nat. store_member 7%nat. store_member 8%nat. store_member 9%nat. by destruct c.
Qed.

Lemma conf_data_plain c : conf_plain c → plain_data (conf_data c) ∧ (depth (conf_data c) ≤ 3)%nat.
Proof.
  intros (? & ? & ? & ? & Hss & ? & ? & ? & ? & _). split.
  - cbn [conf_data plain_data foldr fst snd].
    assert (foldr (λ d P, plain_data d ∧ P) True (store_data <$> Stores c)) as Hs.
    { apply (fold_all plain_data), Forall_fmap. eapply Forall_impl; [exact Hss|].
      intros s (? & ? & ? & ? & ? & ?). unfold compose. cbn [store_data plain_data foldr fst snd].
      split_and!; first [done|by apply ascii_text_is|unfold is_int64 in *; lia]. }
    split_and!; first [done|by apply ascii_text_is|unfold is_int64 in *; lia].
  - assert (foldr (λ d n, Nat.max (depth d) n) 0 (store_data <$> Stores c) ≤ 1)%nat as Hd.
    { clear. induction (Stores c) as [|s ss IH]; [cbn; lia|]. rewrite fmap_cons. cbn [foldr].
      change (depth (store_data s)) with 1%nat. lia. }
    cbn [conf_data depth foldr snd]. lia.
Qed.

(** ** Types *)

Lemma fold_forallb {A} (P : A → Prop) (f : A → bool) l :
  Forall (λ a, P a ↔ f a = true) l → foldr (λ a Q, P a ∧ Q) True l ↔ forallb f l = true.
Proof.
  induction 1 as [|a l Ha _ IH]; [done|]. cbn [foldr forallb]. rewrite andb_true_iff, Ha, IH. done.
Qed.

Lemma forallb_fmap {A B} (g : A → B) (f : B → bool) l : forallb f (g <$> l) = forallb (λ a, f (g a)) l.
Proof. induction l as [|a l IH]; [done|]. cbn. by rewrite IH. Qed.

Lemma number_typed (z : Z) :
  is_int64 z → is_null (TLit (pretty z)) = false ∧
  ∀ ty, has_type (TLit (pretty z)) ty = true ↔ ty = GoInt.
Proof.
  intros Hz. assert (is_null (TLit (pretty z)) = false) as Hn by (unfold is_null; by rewrite number_kind).
  split; [done|]. intros ty. destruct ty; cbn [has_type]; rewrite Hn, ?number_kind, ?ParseInt_pretty by done; simpl; naive_solver.
Qed.

Lemma typed_tree d : plain_data d → ∀ ty, typed d ty ↔ has_type (tree_of d) ty = true.
Proof.
  induction d as [|b|z|s|ds IH|ms IH] using jdata_induction; intros Hp ty.
  - by destruct ty.
  - by destruct b, ty.
  - cbn [tree_of print]. rewrite (proj2 (number_typed z Hp) ty). by destruct ty.
  - by destruct ty.
  - cbn [plain_data] in Hp. apply (fold_all plain_data) in Hp. destruct ty as [| | |elem|]; try done.
    cbn [typed tree_of has_type]. change (is_null (TArr _)) with false. cbn [orb].
    rewrite forallb_fmap. apply (fold_forallb (λ d, typed d elem)). rewrite Forall_forall in *.
    intros d Hd. by apply IH; [|apply Hp].
  - cbn [plain_data] in Hp. apply (fold_all (λ m, is_ascii m.1 ∧ plain_data m.2)) in Hp.
    destruct ty as [| | | |fields]; try done.
    cbn [typed tree_of has_type]. change (is_null (TObj _)) with false. cbn [orb].
    rewrite forallb_fmap. apply (fold_forallb (λ m, match find_name fst m.1 fields with Some (_, ty') => typed m.2 ty' | None => True end)).
    rewrite Forall_forall in *. intros m Hm. unfold compose. cbn [fst snd].
    destruct (find_name fst m.1 fields) as [[n ty']|]; [|done]. apply IH; [done|]. by apply (Hp m Hm).
Qed.

(** * Properties *)

(** C29. The configuration file, beside the program: a configuration that was written to it
    as JSON -- its strings ASCII, its numbers of 64 bits, whatever follows it -- is read back
    as it was, without an error.  A file with any JSON object is read without an error
    exactly when the object is of the type of the configuration: every member that names a
    field -- exactly, or up to the case of letters -- has a value of the type of the field.
    A file that cannot be opened is reported with the error of that, and so is a caller
    whose place is not known. *)
Theorem config_reads f open fileName :
  let path := path_Join (path_Dir f) fileName in
  let read := NewKVConfiguration (Some f) open fileName in
  (∀ c rest, conf_plain c → open path = Ret (print (conf_data c) +:+ rest) → read = (Some c, None)) ∧
  (∀ ms rest, plain_data (DObj ms) → Z.of_nat (depth (DObj ms)) ≤ maxNestingDepth →
     open path = Ret (print (DObj ms) +:+ rest) → read.2 = None ↔ typed (DObj ms) conf_type) ∧
  (∀ e, open path = Fail e → read = (Some zero_conf, Some e)) ∧
  (NewKVConfiguration None open fileName).2 ≠ None.
Proof.
  intros path read. unfold read, NewKVConfiguration. fold path. split_and!; [..|done].
  - intros c rest Hc ->. destruct (conf_data_plain c Hc) as [Hp Hd].
    pose proof (decode_conf_data c Hc) as E. unfold conf_data in *.
    by rewrite (Decode_object _ rest Hp) by (unfold maxNestingDepth; lia).
  - intros ms rest Hp Hd ->. rewrite (Decode_object ms rest Hp Hd), decode_config_checks.
    symmetry. by apply (typed_tree (DObj ms)).
  - by intros e ->.
Qed.

(** The shipped configuration, as [json.Marshal] would write it. *)
Definition written (p : string) : outcome string :=
  if bool_decide (p = "/src/cmd/http/config.json") then Ret (print (conf_data shipped_conf) +:+ newline)
  else Fail ("open " +:+ p +:+ ": no such file or directory").

Lemma shipped_plain : conf_plain shipped_conf.
Proof.
  split_and!; try (by apply ascii_text_is; vm_compute); try done.
  all: repeat constructor; try (by apply ascii_text_is; vm_compute); done.
Qed.

Lemma config_reads_witness :
  NewKVConfiguration (Some "/src/cmd/http/main.go") written "config.json" = (Some shipped_conf, None) ∧
  (NewKVConfiguration (Some "/src/cmd/http/main.go") (λ _, Ret (print (DObj [("bucketsize", DStr "ten")]))%string)
     "config.json").2 ≠ None.
Proof.
  split.
  - apply (proj1 (config_reads "/src/cmd/http/main.go" written "config.json") shipped_conf newline shipped_plain).
    by vm_compute.
  - destruct (config_reads "/src/cmd/http/main.go" (λ _, Ret (print (DObj [("bucketsize", DStr "ten")]))%string) "config.json")
      as (_ & H & _).
    rewrite (H [("bucketsize", DStr "ten")]%string ""%string); [|split; [split; by apply ascii_text_is; vm_compute|done]|done|
      by rewrite string_app_nil_r].
    by vm_compute; intros [? _].
Defined.
