(* ===== verification/Tracer.v ===== *)
(** Tracing: src/pkg/tracer/tracer.go.

    The sampling rate is a float64, here the binary64 of the Standard Library's
    specification of IEEE 754 ([SpecFloat]); the product with [math.MaxInt32] is rounded
    as the machine does it and then truncated to an integer.  The exporter is a parameter.
    [sampler_rate] gives what the sampler makes of a rate, rounding included. *)
From Stdlib Require Import SpecFloat.
From stdpp Require Import base list numbers strings.
From S2P Require Import Prelude GoStd Config.

Open Scope Z_scope.

(** * float64 *)

Definition float64 : Type := spec_float.
Definition valid64 (x : float64) : bool := valid_binary 53 1024 x.
Definition one64 : float64 := S754_finite false (2^52) (-52).
Definition mul64 (x y : float64) : float64 := SFmul 53 1024 x y.
Definition ltb64 (x y : float64) : bool := SFltb x y.

(** [int(f)]: truncation; what does not fit gives the smallest integer (amd64). *)
Definition int_of (f : float64) : Z :=
  match f with
  | S754_zero _ => 0
  | S754_finite s m e =>
      let v := if 0 <=? e then Z.pos m * 2^e else Z.pos m / 2^(- e) in
      let z := if s then - v else v in
      if (- 2^63 <=? z) && (z <? 2^63) then z else - 2^63
  | _ => - 2^63
  end.

(** * The sampler *)

Definition MaxInt32 : Z := 2147483647.
(** The constant as a float64: it is exact. *)
Definition MaxInt32_64 : float64 := S754_finite false (2147483647 * 2^22) (-22).

Record probabilisticSampler := mkSampler { s_max : Z; s_boundary : Z }.

Inductive SamplingDecision := Drop | RecordAndSample.

(** A sampler that the SDK asks for root spans only; others follow their parent. *)
Inductive Sampler := ParentBased (root : probabilisticSampler).

Definition newProbabilisticSampler (probability : float64) : probabilisticSampler :=
  let boundary := mul64 MaxInt32_64 probability in
  mkSampler MaxInt32 (int_of boundary).

(** [rand.Intn], with the generator as an argument. *)
Definition rand_Intn (gen : Z → Z) (n : Z) : outcome Z :=
  if n <=? 0 then Panic "invalid argument to Intn" else Ret (gen n).

(** The decision, and the trace state of the parent. *)
Definition ShouldSample (s : probabilisticSampler) (gen : Z → Z) (parent : string)
    : outcome (SamplingDecision * string) :=
  let! r := rand_Intn gen (s_max s) in
  if s_boundary s <=? r then Ret (Drop, parent) else Ret (RecordAndSample, parent).

Definition Description (s : probabilisticSampler) : string := "probabilistic sampler".

(** * The provider *)

(** What the provider is built with; no sampler is the default, which samples always. *)
Record TracerProvider := mkProvider {
  tp_endpoint : string;
  tp_service : string;
  tp_environment : string;
  tp_sampler : option Sampler;
}.

Definition TraceName : string := "regionless-kv-store".

Section provider.
(** [jaeger.New]: an exporter for the endpoint, or an error. *)
Context (jaeger_New : string → outcome unit).

Definition newTracerProvider (TraceSamplingRate : float64) (TraceEnv url : string) : outcome TracerProvider :=
  let sampler := if ltb64 TraceSamplingRate one64 then Some (ParentBased (newProbabilisticSampler TraceSamplingRate)) else None in
  let! _ := jaeger_New url in
  Ret (mkProvider url TraceName TraceEnv sampler).

(** An error ends the program. *)
Definition SetupTracer (TraceSamplingRate : float64) (TraceEnv jaegerServer : string) : outcome TracerProvider :=
  let jaegerEndpoint := jaegerServer +:+ "/api/traces" in
  newTracerProvider TraceSamplingRate TraceEnv jaegerEndpoint.

(** [main]: no tracing without an environment name. *)
Definition main_tracer (TraceSamplingRate : float64) (TraceEnv jaegerServer : string)
    : outcome (option TracerProvider) :=
  if bool_decide (TraceEnv = "") then Ret None
  else let! tp := SetupTracer TraceSamplingRate TraceEnv jaegerServer in Ret (Some tp).
End provider.

(** * Rounding *)

Lemma shr_1_half r : 0 ≤ shr_m r → shr_m (shr_1 r) = shr_m r / 2.
Proof.
  destruct r as [m rb s]. simpl. destruct m as [|[p|p|]|]; simpl; intros H; try done; try lia.
  - rewrite Pos2Z.inj_xI. Z.div_mod_to_equations. lia.
  - rewrite Pos2Z.inj_xO. Z.div_mod_to_equations. lia.
Qed.

Lemma iter_shr p : ∀ r, 0 ≤ shr_m r →
  shr_m (SpecFloat.iter_pos shr_1 p r) = shr_m r / 2 ^ Z.pos p.
Proof.
  induction p as [p IH|p IH|]; intros r Hr; simpl.
  - pose proof (shr_1_half r Hr) as Hh. assert (0 ≤ shr_m (shr_1 r)) by (rewrite Hh; apply Z.div_pos; lia).
    rewrite IH, IH, Hh; [|done|rewrite IH by done; apply Z.div_pos; lia].
    rewrite !Z.div_div by lia. f_equal. rewrite <- Z.pow_add_r by lia.
    rewrite <- (Z.pow_1_r 2) at 1. rewrite <- Z.pow_add_r by lia. f_equal. lia.
  - rewrite IH, IH; [|done|rewrite IH by done; apply Z.div_pos; lia].
    rewrite Z.div_div by lia. f_equal. rewrite <- Z.pow_add_r by lia. f_equal. lia.
  - by apply shr_1_half.
Qed.

Lemma record_of_loc_m m l : shr_m (shr_record_of_loc m l) = m.
Proof. by destruct l as [|[]]. Qed.

(** Aligning shifts right by some [k]. *)
Lemma shr_fexp_div m e l :
  0 ≤ m → ∃ k, 0 ≤ k ∧ k = Z.max 0 (fexp 53 1024 (Zdigits2 m + e) - e) ∧
    shr_m (shr_fexp 53 1024 m e l).1 = m / 2^k ∧ (shr_fexp 53 1024 m e l).2 = e + k.
Proof.
  intros Hm. unfold shr_fexp, shr. set (n := Z.sub _ e).
  assert (n = fexp 53 1024 (Zdigits2 m + e) - e) as En by done. exists (Z.max 0 n). split; [lia|]. split; [by rewrite En|].
  destruct n as [|p|p]; simpl fst; simpl snd.
  - rewrite record_of_loc_m, Z.div_1_r. lia.
  - rewrite iter_shr, record_of_loc_m by (by rewrite record_of_loc_m). split; [done|lia].
  - rewrite record_of_loc_m, Z.div_1_r. lia.
Qed.

Lemma round_even_bounds m l : m ≤ round_nearest_even m l ≤ m + 1.
Proof. unfold round_nearest_even. destruct l as [|[]]; [lia|case_match; lia|lia|lia]. Qed.

Lemma digits2_bounds p : 2^(Z.pos (digits2_pos p) - 1) ≤ Z.pos p < 2^(Z.pos (digits2_pos p)).
Proof.
  induction p as [p IH|p IH|]; simpl digits2_pos; [..|done];
    rewrite Pos2Z.inj_succ, Z.sub_1_r, Z.pred_succ, Z.pow_succ_r by lia;
    rewrite <- (Z.succ_pred (Z.pos (digits2_pos p))) in IH |- *;
    rewrite Z.sub_1_r, Z.pred_succ, !Z.pow_succ_r in * by lia; lia.
Qed.

Lemma Zdigits2_le m b : 0 ≤ m < 2^b → 0 ≤ b → Zdigits2 m ≤ b.
Proof.
  intros Hm Hb. destruct m as [|p|p]; simpl; [lia| |lia]. pose proof (digits2_bounds p) as [Hd _].
  assert (2^(Z.pos (digits2_pos p) - 1) < 2^b) as Hlt by lia. apply Z.pow_lt_mono_r_iff in Hlt; lia.
Qed.

Lemma valid_below_one m e :
  valid64 (S754_finite false m e) = true → ltb64 (S754_finite false m e) one64 = true →
  e < 0 ∧ Z.pos m < 2^(- e).
Proof.
  unfold valid64, valid_binary, bounded, canonical_mantissa. intros [Hc _]%andb_true_iff Hl.
  apply Z.eqb_eq in Hc. unfold fexp, emin in Hc. pose proof (digits2_bounds m) as [_ Hd].
  unfold ltb64, SFltb, one64, SFcompare in Hl.
  assert (Z.pos m < 2^53) as Hm.
  { eapply Z.lt_le_trans; [exact Hd|]. apply Z.pow_le_mono_r; lia. }
  destruct (Z.compare_spec e (-52)) as [->|He|He]; [|split; [lia|]|done].
  - split; [lia|]. change (- -52) with 52. destruct (Pos.compare_cont Eq m (2^52)) eqn:E; try done.
  - eapply Z.lt_le_trans; [exact Hm|]. apply Z.pow_le_mono_r; lia.
Qed.

(** Rounding to nearest and then truncating, of a non-negative number below 2^31. *)
Lemma round_truncate mx ex :
  ex < 0 → 0 < mx < 2^(31 - ex) →
  mx / 2^(- ex) ≤ int_of (binary_round_aux 53 1024 false mx ex loc_Exact) ≤ mx / 2^(- ex) + 1.
Proof.
  intros Hex Hmx. unfold binary_round_aux.
  destruct (shr_fexp_div mx ex loc_Exact ltac:(lia)) as (k1 & Hk1 & Ek1 & Em1 & Ee1).
  destruct (shr_fexp 53 1024 mx ex loc_Exact) as [r1 e1]. cbn [fst snd] in Em1, Ee1.
  set (r := round_nearest_even _ _). pose proof (round_even_bounds (shr_m r1) (loc_of_shr_record r1)) as Hr. fold r in Hr.
  assert (0 ≤ shr_m r1) as Hm1 by (rewrite Em1; apply Z.div_pos; lia).
  pose proof (Zdigits2_le mx (31 - ex) ltac:(lia) ltac:(lia)) as Hd1.
  assert (e1 < 0) as He1 by (unfold fexp, emin in Ek1; lia).
  destruct (shr_fexp_div r e1 loc_Exact ltac:(lia)) as (k2 & Hk2 & Ek2 & Em2 & Ee2).
  destruct (shr_fexp 53 1024 r e1 loc_Exact) as [r2 e2]. cbn [fst snd] in Em2, Ee2.
  assert (e2 < 0) as He2.
  { assert (shr_m r1 < 2^(Z.max 0 (31 - e1))) as Hm1'.
    { rewrite Em1. apply Z.div_lt_upper_bound; [lia|]. eapply Z.lt_le_trans; [apply Hmx|].
      rewrite <- Z.pow_add_r by lia. apply Z.pow_le_mono_r; lia. }
    assert (Zdigits2 r ≤ Z.max 0 (31 - e1) + 1) as Hd2.
    { apply Zdigits2_le; [|lia]. rewrite Z.pow_add_r by lia. lia. }
    unfold fexp, emin in Ek2. lia. }
  assert (r / 2^(- e1) = shr_m r2 / 2^(- e2)) as Eq.
  { rewrite Em2, Z.div_div by lia. rewrite <- Z.pow_add_r by lia. f_equal. f_equal. lia. }
  assert (mx / 2^(- ex) = shr_m r1 / 2^(- e1)) as Ex.
  { rewrite Em1, Z.div_div by lia. rewrite <- Z.pow_add_r by lia. f_equal. f_equal. lia. }
  assert (mx / 2^(- ex) ≤ r / 2^(- e1) ≤ mx / 2^(- ex) + 1) as Hb.
  { rewrite Ex. split; [apply Z.div_le_mono; lia|].
    rewrite <- Z.div_add by lia. rewrite Z.mul_1_l. apply Z.div_le_mono; [lia|].
    pose proof (Z.pow_pos_nonneg 2 (- e1) ltac:(lia) ltac:(lia)). lia. }
  assert (mx / 2^(- ex) < 2^31) as Hx.
  { apply Z.div_lt_upper_bound; [lia|]. rewrite <- Z.pow_add_r by lia. replace (- ex + 31) with (31 - ex) by lia. lia. }
  assert (0 ≤ shr_m r2) by (rewrite Em2; apply Z.div_pos; lia).
  rewrite Eq in Hb. destruct (shr_m r2) as [|m|m]; [by rewrite Z.div_0_l in Hb by lia| |lia].
  destruct (Z.leb_spec e2 (1024 - 53)); [|lia]. simpl. destruct (Z.leb_spec 0 e2); [lia|].
  assert (0 ≤ Z.pos m / 2^(- e2)) by (apply Z.div_pos; lia).
  destruct (Z.leb_spec (- 2^63) (Z.pos m / 2^(- e2))), (Z.ltb_spec (Z.pos m / 2^(- e2)) (2^63)); simpl; lia.
Qed.

(** * Properties *)

(** C34. What the sampler makes of a sampling rate: for a rate [m * 2^e] from 0 up to 1,
    as [newTracerProvider] asks of it, the boundary is the rate times the largest 32-bit
    integer, rounded down, or one more because of the rounding of the float; it never
    exceeds that integer, a decision never panics, and a span is recorded exactly when the
    random number is below the boundary. *)
Theorem sampler_rate m e gen parent :
  let p := S754_finite false m e in
  let s := newProbabilisticSampler p in
  valid64 p = true → ltb64 p one64 = true → 0 ≤ gen MaxInt32 < MaxInt32 →
  (MaxInt32 * Z.pos m) / 2^(- e) ≤ s_boundary s ≤ (MaxInt32 * Z.pos m) / 2^(- e) + 1 ∧
  0 ≤ s_boundary s ≤ s_max s ∧
  ShouldSample s gen parent =
    Ret (if gen MaxInt32 <? s_boundary s then RecordAndSample else Drop, parent).
Proof.
  intros p s Hv Hl Hg. destruct (valid_below_one m e Hv Hl) as [He Hm].
  pose proof (round_truncate (Z.pos (2147483647 * 2^22 * m)) (-22 + e) ltac:(lia)) as Hb.
  assert (0 < Z.pos (2147483647 * 2^22 * m) < 2^(31 - (-22 + e))) as Hmx.
  { split; [lia|]. replace (31 - (-22 + e)) with (53 + - e) by lia. rewrite Z.pow_add_r by lia.
    rewrite !Pos2Z.inj_mul. change (Z.pos 2147483647 * Z.pos (2^22)) with (2147483647 * 2^22).
    change (2^53) with 9007199254740992. change (2147483647 * 2^22) with 9007199250546688. nia. }
  specialize (Hb Hmx).
  assert (Z.pos (2147483647 * 2^22 * m) / 2^(- (-22 + e)) = (MaxInt32 * Z.pos m) / 2^(- e)) as Ed.
  { replace (- (-22 + e)) with (22 + - e) by lia. rewrite Z.pow_add_r by lia.
    rewrite !Pos2Z.inj_mul. replace (Z.pos 2147483647 * Z.pos (2^22) * Z.pos m) with (2^22 * (MaxInt32 * Z.pos m))
      by (unfold MaxInt32; lia).
    rewrite Z.div_mul_cancel_l; [done|lia|lia]. }
  rewrite Ed in Hb.
  assert ((MaxInt32 * Z.pos m) / 2^(- e) < MaxInt32) as Hlt.
  { apply Z.div_lt_upper_bound; [lia|]. unfold MaxInt32. lia. }
  assert (0 ≤ (MaxInt32 * Z.pos m) / 2^(- e)) by (apply Z.div_pos; unfold MaxInt32; lia).
  change (s_boundary s) with (int_of (binary_round_aux 53 1024 false (Z.pos (2147483647 * 2^22 * m)) (-22 + e) loc_Exact)).
  set (b := int_of _) in *. split; [done|]. split; [simpl; lia|].
  unfold ShouldSample, rand_Intn. cbn [s s_max newProbabilisticSampler]. simpl. fold b.
  change (int_of (mul64 MaxInt32_64 p)) with b.
  destruct (Z.leb_spec b (gen MaxInt32)), (Z.ltb_spec (gen MaxInt32) b); done || lia.
Qed.

(** The rate 0.001 of the source. *)
Definition rate_0_001 : positive := 4611686018427388.

Lemma sampler_rate_witness :
  newProbabilisticSampler (S754_finite false rate_0_001 (-62)) = mkSampler MaxInt32 2147483 ∧
  ShouldSample (newProbabilisticSampler (S754_finite false rate_0_001 (-62))) (λ _, 5) "tracestate" =
    Ret (RecordAndSample, "tracestate"%string).
Proof.
  split; [by vm_compute|].
  apply (sampler_rate rate_0_001 (-62) (λ _, 5) "tracestate"); [by vm_compute|by vm_compute|by vm_compute].
Defined.
