(* ===== verification/Mux.v ===== *)
(** The request multiplexer the generated gateway code registers its handlers with:
    path patterns and [ServeMux] of the vendored grpc-gateway
    (src/vendor/github.com/grpc-ecosystem/grpc-gateway/v2/runtime, pattern.go and mux.go).

    A path pattern is a program for a small stack machine.  [NewPattern] checks a program
    when it is loaded and [MatchAndEscape] runs it on the components of a path;
    [checked_pattern_runs] says that what has been checked does not go wrong.  A handler
    is any type: a request ends in the list of [event]s of serving it, which is what the
    multiplexer called, in order.  *)
From Stdlib Require Import Ascii.
From stdpp Require Import base numbers gmap list strings.
From S2P Require Import Prelude GoStd.

Open Scope Z_scope.

(** * Unescaping *)

Inductive UnescapingMode := Legacy | AllExceptReserved | AllExceptSlash | AllCharacters.
#[global] Instance UnescapingMode_eq_dec : EqDecision UnescapingMode.
Proof. solve_decision. Defined.

Definition in_range (lo hi c : ascii) : bool :=
  (byte_val lo <=? byte_val c) && (byte_val c <=? byte_val hi).

Definition ishex (c : ascii) : bool :=
  in_range "0" "9" c || in_range "a" "f" c || in_range "A" "F" c.

Definition isRFC6570Reserved (c : ascii) : bool := str_elem c "!#$&'()*+,/:;=?@[]".

Definition unhex (c : ascii) : Z :=
  if in_range "0" "9" c then byte_val c - byte_val "0"
  else if in_range "a" "f" c then byte_val c - byte_val "a" + 10
  else if in_range "A" "F" c then byte_val c - byte_val "A" + 10
  else 0.

Definition shouldUnescapeWithMode (c : ascii) (mode : UnescapingMode) : bool :=
  match mode with
  | AllExceptReserved => negb (isRFC6570Reserved c)
  | AllExceptSlash => negb (bool_decide (c = "/"%char))
  | AllCharacters => true
  | Legacy => true
  end.

(** The first escape that is not one, at most three bytes of it. *)
Fixpoint malformed (s : string) : option string :=
  match s with
  | EmptyString => None
  | String c s' =>
      if bool_decide (c = "%"%char) then
        match s' with
        | String a (String b s'') =>
            if ishex a && ishex b then malformed s'' else Some (String.substring 0 3 s)
        | _ => Some (String.substring 0 3 s)
        end
      else malformed s'
  end.

(** The loop that builds the result; an escape that is kept is copied byte by byte. *)
Fixpoint unescape_loop (mode : UnescapingMode) (s : string) : string :=
  match s with
  | EmptyString => ""
  | String c s' =>
      match s' with
      | String a (String b s'') =>
          let x := byte_of (Z.lor (Z.shiftl (unhex a) 4) (unhex b)) in
          if bool_decide (c = "%"%char) && shouldUnescapeWithMode x mode
          then String x (unescape_loop mode s'')
          else String c (unescape_loop mode s')
      | _ => String c (unescape_loop mode s')
      end
  end.

Inductive match_err := ErrNotMatch | MalformedSequenceError (s : string).

Definition unescape (s : string) (mode : UnescapingMode) (multisegment : bool) : string + match_err :=
  if bool_decide (mode = Legacy) then inl s
  else
    let mode := if multisegment then mode else AllCharacters in
    match malformed s with
    | Some bad => inr (MalformedSequenceError bad)
    | None => if str_elem "%" s then inl (unescape_loop mode s) else inl s
    end.

(** * Patterns *)

Definition OpNop : Z := 0.
Definition OpPush : Z := 1.
Definition OpLitPush : Z := 2.
Definition OpPushM : Z := 3.
Definition OpConcatN : Z := 4.
Definition OpCapture : Z := 5.

Record pat_op := mkOp { code : Z; operand : Z }.

Record Pattern := mkPattern {
  p_ops : list pat_op;
  p_pool : list string;
  p_vars : list string;
  p_stacksize : Z;
  p_tailLen : Z;
  p_verb : string;
}.

Definition ErrInvalidPattern : error := "invalid pattern".

(** The variables of the loop of [NewPattern]. *)
Record checker := mkChecker {
  ch_ops : list pat_op;
  ch_stack : Z;
  ch_maxstack : Z;
  ch_tailLen : Z;
  ch_pushM : bool;
  ch_vars : list string;
}.

(** The end of the loop body: the deepest stack so far, and the operation. *)
Definition checked (o : pat_op) (stack tailLen : Z) (pushM : bool) (vars : list string) (c : checker)
    : outcome checker :=
  Ret (mkChecker (ch_ops c ++ [o]) stack (Z.max (ch_maxstack c) stack) tailLen pushM vars).

Definition NewPattern_step (pool : list string) (c : checker) (o : pat_op) : outcome checker :=
  let in_pool := (0 <=? operand o) && (operand o <? Z.of_nat (length pool)) in
  let tail := if ch_pushM c then ch_tailLen c + 1 else ch_tailLen c in
  if code o =? OpNop then Ret c
  else if code o =? OpPush then
    checked o (ch_stack c + 1) tail (ch_pushM c) (ch_vars c) c
  else if code o =? OpPushM then
    if ch_pushM c then Fail ErrInvalidPattern
    else checked o (ch_stack c + 1) (ch_tailLen c) true (ch_vars c) c
  else if code o =? OpLitPush then
    if negb in_pool then Fail ErrInvalidPattern
    else checked o (ch_stack c + 1) tail (ch_pushM c) (ch_vars c) c
  else if code o =? OpConcatN then
    if operand o <=? 0 then Fail ErrInvalidPattern
    else if ch_stack c - operand o <? 0 then Fail ErrInvalidPattern
    else checked o (ch_stack c - operand o + 1) (ch_tailLen c) (ch_pushM c) (ch_vars c) c
  else if code o =? OpCapture then
    if negb in_pool then Fail ErrInvalidPattern
    else
      let v := default "" (pool !! Z.to_nat (operand o)) in
      if ch_stack c - 1 <? 0 then Fail ErrInvalidPattern
      else checked (mkOp (code o) (Z.of_nat (length (ch_vars c)))) (ch_stack c - 1) (ch_tailLen c)
             (ch_pushM c) (ch_vars c ++ [v]) c
  else Fail ErrInvalidPattern.

Fixpoint NewPattern_loop (pool : list string) (c : checker) (ops : list Z) : outcome checker :=
  match ops with
  | code :: operand :: ops' =>
      let! c' := NewPattern_step pool c (mkOp code operand) in NewPattern_loop pool c' ops'
  | _ => Ret c
  end.

Definition NewPattern (version : Z) (ops : list Z) (pool : list string) (verb : string) : outcome Pattern :=
  if negb (version =? 1) then Fail ErrInvalidPattern
  else if negb (Z.of_nat (length ops) mod 2 =? 0) then Fail ErrInvalidPattern
  else
    let! c := NewPattern_loop pool (mkChecker [] 0 0 0 false []) ops in
    Ret (mkPattern (ch_ops c) pool (ch_vars c) (ch_maxstack c) (ch_tailLen c) verb).

(** An invalid pattern ends the program. *)
Definition MustPattern (p : outcome Pattern) : outcome Pattern :=
  match p with
  | Fail e => Panic ("Pattern initialization failed: " +:+ e)
  | _ => p
  end.

(** * Matching *)

(** The variables of the loop of [MatchAndEscape]; the top of the stack is its end. *)
Record machine := mkMachine { m_pos : Z; m_stack : list string; m_captured : list string }.

Definition bounds_panic {A} : outcome A := Panic "index out of range".

Definition stuck {A} (e : match_err) : outcome (A + match_err) := Ret (inr e).

(** [components[i]], [components[i:j]]. *)
Definition zindex {A} (l : list A) (i : Z) : option A := if i <? 0 then None else l !! Z.to_nat i.
Definition zslice {A} (i j : Z) (l : list A) : outcome (list A) :=
  if (0 <=? i) && (i <=? j) && (j <=? Z.of_nat (length l))
  then Ret (take (Z.to_nat (j - i)) (drop (Z.to_nat i) l)) else bounds_panic.

Definition match_step (p : Pattern) (components : list string) (mode : UnescapingMode) (m : machine)
    (o : pat_op) : outcome (machine + match_err) :=
  let l := Z.of_nat (length components) in
  let depth := Z.of_nat (length (m_stack m)) in
  let push c pos := Ret (inl (mkMachine pos (m_stack m ++ [c]) (m_captured m))) in
  if code o =? OpNop then Ret (inl m)
  else if (code o =? OpPush) || (code o =? OpLitPush) then
    if l <=? m_pos m then stuck ErrNotMatch
    else match zindex components (m_pos m) with
         | None => bounds_panic
         | Some c =>
             if code o =? OpLitPush then
               match zindex (p_pool p) (operand o) with
               | None => bounds_panic
               | Some lit => if bool_decide (c = lit) then push c (m_pos m + 1) else stuck ErrNotMatch
               end
             else match unescape c mode false with
                  | inr e => stuck e
                  | inl c => push c (m_pos m + 1)
                  end
         end
  else if code o =? OpPushM then
    if l <? m_pos m + p_tailLen p then stuck ErrNotMatch
    else
      let end_ := l - p_tailLen p in
      let! cs := zslice (m_pos m) end_ components in
      match unescape (Join "/" cs) mode true with
      | inr e => stuck e
      | inl c => push c end_
      end
  else if code o =? OpConcatN then
    let k := depth - operand o in
    let! rest := zslice 0 k (m_stack m) in
    let! tops := zslice k depth (m_stack m) in
    Ret (inl (mkMachine (m_pos m) (rest ++ [Join "/" tops]) (m_captured m)))
  else if code o =? OpCapture then
    let n := depth - 1 in
    match zindex (m_stack m) n, zindex (m_captured m) (operand o) with
    | Some v, Some _ =>
        let! rest := zslice 0 n (m_stack m) in
        Ret (inl (mkMachine (m_pos m) rest (<[Z.to_nat (operand o) := v]> (m_captured m))))
    | _, _ => bounds_panic
    end
  else Ret (inl m).

Fixpoint match_loop (p : Pattern) (components : list string) (mode : UnescapingMode) (m : machine)
    (ops : list pat_op) : outcome (machine + match_err) :=
  match ops with
  | [] => Ret (inl m)
  | o :: ops' =>
      let! r := match_step p components mode m o in
      match r with
      | inr e => stuck e
      | inl m' => match_loop p components mode m' ops'
      end
  end.

(** The verb of the request joins the last component when the pattern has none. *)
Definition with_verb (components : list string) (verb : string) : list string :=
  match last components with
  | None => [":" +:+ verb]
  | Some c => removelast components ++ [c +:+ ":" +:+ verb]
  end.

Definition MatchAndEscape (p : Pattern) (components : list string) (verb : string) (mode : UnescapingMode)
    : outcome (gmap string string + match_err) :=
  if bool_decide (p_verb p ≠ verb ∧ p_verb p ≠ "") then stuck ErrNotMatch
  else
    let components := if bool_decide (p_verb p = verb) then components else with_verb components verb in
    let! r := match_loop p components mode (mkMachine 0 [] (replicate (length (p_vars p)) "")) (p_ops p) in
    match r with
    | inr e => stuck e
    | inl m =>
        if m_pos m <? Z.of_nat (length components) then stuck ErrNotMatch
        else Ret (inl (foldl (λ b kv, <[kv.1 := kv.2]> b) ∅ (zip (p_vars p) (m_captured m))))
    end.

(** * Serving *)

Definition StatusBadRequest : Z := 400.
Definition StatusMethodNotAllowed : Z := 405.
Definition MuxNotFound : Z := 404.

(** A request, with the headers as [Header.Get] gives them. *)
Record grequest := mkGRequest {
  g_Method : string;
  g_Path : string;
  g_RawPath : string;
  g_Header : string → string;
  g_Body : string + error;
}.

Definition set_method (m : string) (r : grequest) : grequest :=
  mkGRequest m (g_Path r) (g_RawPath r) (g_Header r) (g_Body r).

(** What serving a request calls: a handler with its path parameters, the handler of
    routing errors, or the error handler with a malformed path or form. *)
Inductive event (H : Type) :=
  | Handled (h : H) (r : grequest) (pathParams : gmap string string)
  | Routing (httpStatus : Z)
  | Malformed (s : string)
  | FormError (e : error).
Arguments Handled {H} h r pathParams.
Arguments Routing {H} httpStatus.
Arguments Malformed {H} s.
Arguments FormError {H} e.

Section mux.
Context {H : Type}.

Record ServeMux := mkServeMux {
  handlers : gmap string (list (Pattern * H));
  disablePathLengthFallback : bool;
  unescapingMode : UnescapingMode;
}.

(** [NewServeMux] without options. *)
Definition NewServeMux : ServeMux := mkServeMux ∅ false Legacy.

Definition mux_Handle (meth : string) (pat : Pattern) (h : H) (s : ServeMux) : ServeMux :=
  mkServeMux (<[meth := (pat, h) :: default [] (handlers s !! meth)]> (handlers s))
    (disablePathLengthFallback s) (unescapingMode s).

Definition isPathLengthFallback (s : ServeMux) (r : grequest) : bool :=
  negb (disablePathLengthFallback s) && bool_decide (g_Method r = "POST") &&
  bool_decide (g_Header r "Content-Type" = "application/x-www-form-urlencoded").

(** [encodedPathSplitter.Split(path, -1)]: at slashes and at "%2F". *)
Fixpoint split_encoded (s : string) : list string :=
  match s with
  | EmptyString => [""%string]
  | String "/" s' => "" :: split_encoded s'
  | String "%" (String "2" (String "F" s')) => "" :: split_encoded s'
  | String c s' => prepend (String c "") (split_encoded s')
  end.

(** [strings.HasSuffix(c, s)], and where the suffix begins. *)
Definition suffix_index (c s : string) : Z :=
  let i := (String.length c - String.length s)%nat in
  if (String.length s <=? String.length c)%nat && bool_decide (String.substring i (String.length s) c = s)
  then Z.of_nat i else -1.

Section serve.
(** [strings.ToUpper] and [Request.ParseForm], which may use the body up. *)
Context (ToUpper : string → string) (ParseForm : grequest → grequest + error).
(** The order in which the methods come out of their map. *)
Context (order : gmap string (list (Pattern * H)) → list (string * list (Pattern * H))).

(** What is left of the path for the pattern, and its verb, if the pattern has one that
    ends the path. *)
Definition cut_verb (components : list string) (verb patVerb : string)
    : outcome (option (list string * string)) :=
  match last components with
  | None => bounds_panic
  | Some lastComponent =>
      let idx := if bool_decide (patVerb = "") then -1 else suffix_index lastComponent (":" +:+ patVerb) in
      if idx =? 0 then Ret None
      else if 0 <? idx then
        Ret (Some (removelast components ++ [String.substring 0 (Z.to_nat idx) lastComponent],
                   String.substring (Z.to_nat idx + 1) (String.length lastComponent) lastComponent))
      else Ret (Some (components, verb))
  end.

(** The handlers of the method: [inl] when the request is served. *)
Fixpoint try_handlers (s : ServeMux) (r : grequest) (components : list string) (verb : string)
    (out : list (event H)) (hs : list (Pattern * H))
    : outcome (list (event H) + (list string * string * list (event H))) :=
  match hs with
  | [] => Ret (inr (components, verb, out))
  | (pat, h) :: hs' =>
      let! cut := cut_verb components verb (p_verb pat) in
      match cut with
      | None => Ret (inl (out ++ [Routing MuxNotFound]))
      | Some (components, verb) =>
          let! m := MatchAndEscape pat components verb (unescapingMode s) in
          match m with
          | inr (MalformedSequenceError e) => try_handlers s r components verb (out ++ [Malformed e]) hs'
          | inr ErrNotMatch => try_handlers s r components verb out hs'
          | inl pathParams => Ret (inl (out ++ [Handled h r pathParams]))
          end
      end
  end.

(** The handlers of another method: the first that matches ends it. *)
Fixpoint try_others (s : ServeMux) (r : grequest) (components : list string) (verb : string)
    (out : list (event H)) (hs : list (Pattern * H)) : outcome (list (event H) + list (event H)) :=
  match hs with
  | [] => Ret (inr out)
  | (pat, h) :: hs' =>
      let! m := MatchAndEscape pat components verb (unescapingMode s) in
      match m with
      | inr (MalformedSequenceError e) => try_others s r components verb (out ++ [Malformed e]) hs'
      | inr ErrNotMatch => try_others s r components verb out hs'
      | inl pathParams =>
          if isPathLengthFallback s r then
            match ParseForm r with
            | inl r' => Ret (inl (out ++ [Handled h r' pathParams]))
            | inr e => Ret (inl (out ++ [FormError e]))
            end
          else Ret (inl (out ++ [Routing StatusMethodNotAllowed]))
      end
  end.

Fixpoint other_methods (s : ServeMux) (r : grequest) (components : list string) (verb : string)
    (out : list (event H)) (ms : list (string * list (Pattern * H))) : outcome (list (event H)) :=
  match ms with
  | [] => Ret (out ++ [Routing MuxNotFound])
  | (m, hs) :: ms' =>
      if bool_decide (m = g_Method r) then other_methods s r components verb out ms'
      else
        let! res := try_others s r components verb out hs in
        match res with
        | inl out => Ret out
        | inr out => other_methods s r components verb out ms'
        end
  end.

(** The lookup, once the method and the form are settled. *)
Definition dispatch (s : ServeMux) (components : list string) (r : grequest) : outcome (list (event H)) :=
  let! res := try_handlers s r components "" [] (default [] (handlers s !! g_Method r)) in
  match res with
  | inl out => Ret out
  | inr (components, verb, out) => other_methods s r components verb out (order (handlers s))
  end.

Definition tail_of (path : string) : string := String.substring 1 (String.length path) path.

Definition mux_ServeHTTP (s : ServeMux) (r : grequest) : outcome (list (event H)) :=
  if negb (String.prefix "/" (g_Path r)) then Ret [Routing StatusBadRequest]
  else
    let path := if bool_decide (unescapingMode s ≠ Legacy ∧ g_RawPath r ≠ "") then g_RawPath r else g_Path r in
    let components :=
      if bool_decide (unescapingMode s = AllCharacters) then split_encoded (tail_of path)
      else Split "/" (tail_of path) in
    let override := g_Header r "X-HTTP-Method-Override" in
    if bool_decide (override ≠ "") && isPathLengthFallback s r then
      match ParseForm (set_method (ToUpper override) r) with
      | inl r' => dispatch s components r'
      | inr e => Ret [FormError e]
      end
    else dispatch s components r.
End serve.
End mux.

(** * Checked patterns do not go wrong *)

(** Compares constant operation codes. *)
Ltac eval_codes :=
  repeat match goal with
         | |- context [Z.eqb ?a ?b] =>
             is_const a; is_const b; let v := eval vm_compute in (Z.eqb a b) in change (Z.eqb a b) with v
         end; cbn [orb]; cbv iota.

(** Induction two elements at a time. *)
Lemma pair_ind {A} (P : list A → Prop) :
  P [] → (∀ x, P [x]) → (∀ x y l, P l → P (x :: y :: l)) → ∀ l, P l.
Proof.
  intros H0 H1 H2. fix go 1. intros [|x [|y l]]; [exact H0|apply H1|apply H2, go].
Qed.

Section sound.
Context (p : Pattern) (components : list string) (mode : UnescapingMode).

(** A machine where the checker expects it. *)
Record fits (c : checker) (m : machine) : Prop := {
  fits_stack : Z.of_nat (length (m_stack m)) = ch_stack c;
  fits_captured : length (m_captured m) = length (p_vars p);
  fits_pos : 0 ≤ m_pos m ≤ Z.of_nat (length components);
}.

(** An operation that takes such machines to such machines, or does not match. *)
Definition keeps_fit (c' : checker) (r : outcome (machine + match_err)) : Prop :=
  match r with
  | Ret (inl m) => fits c' m
  | Ret (inr _) => True
  | _ => False
  end.

Lemma zslice_ok {A} i j (l : list A) :
  0 ≤ i ≤ j → j ≤ Z.of_nat (length l) →
  ∃ l', zslice i j l = Ret l' ∧ Z.of_nat (length l') = j - i.
Proof.
  intros Hi Hj. unfold zslice.
  rewrite (proj2 (Z.leb_le 0 i)), (proj2 (Z.leb_le i j)), (proj2 (Z.leb_le j _)) by lia. simpl.
  eexists. split; [done|]. rewrite length_take, length_drop. lia.
Qed.

Lemma zindex_ok {A} (l : list A) i : 0 ≤ i < Z.of_nat (length l) → ∃ x, zindex l i = Some x.
Proof.
  intros Hi. unfold zindex. destruct (Z.ltb_spec i 0); [lia|].
  destruct (lookup_lt_is_Some_2 l (Z.to_nat i)) as [x Hx]; [lia|]. by exists x.
Qed.

Lemma push_fits c m s pos o tail b vars c' :
  fits c m → 0 ≤ pos ≤ Z.of_nat (length components) →
  checked o (ch_stack c + 1) tail b vars c = Ret c' →
  fits c' (mkMachine pos (m_stack m ++ [s]) (m_captured m)).
Proof. intros [Hs Hc Hp] Hpos [= <-]. split; simpl; [rewrite length_app; simpl; lia|done|done]. Qed.

Ltac enter_op :=
  let m := fresh "m" in
  intros m Hfit; pose proof Hfit as [Hs Hc Hp]; unfold match_step; cbn [code operand]; eval_codes.

Lemma in_pool_true {A} i (l : list A) :
  (0 <=? i) && (i <? Z.of_nat (length l)) = true → 0 ≤ i < Z.of_nat (length l).
Proof. intros [?%Z.leb_le ?%Z.ltb_lt]%andb_true_iff. lia. Qed.

(** The operation the checker emits for [o], run where the checker was. *)
Lemma step_sound c o c' :
  NewPattern_step (p_pool p) c o = Ret c' → 0 ≤ p_tailLen p → (length (ch_vars c') ≤ length (p_vars p))%nat →
  c' = c ∨ ∃ o', ch_ops c' = ch_ops c ++ [o'] ∧
    ∀ m, fits c m → keeps_fit c' (match_step p components mode m o').
Proof.
  intros Hstep Htail Hvars. destruct o as [cd od].
  unfold NewPattern_step in Hstep. cbn [code operand] in Hstep.
  destruct (Z.eqb_spec cd OpNop) as [->|_]; [left; congruence|right].
  destruct (Z.eqb_spec cd OpPush) as [->|_]; [|destruct (Z.eqb_spec cd OpPushM) as [->|_];
    [|destruct (Z.eqb_spec cd OpLitPush) as [->|_]; [|destruct (Z.eqb_spec cd OpConcatN) as [->|_];
    [|destruct (Z.eqb_spec cd OpCapture) as [->|_]; [|done]]]]].
  - eexists. split; [by injection Hstep as <-|]. enter_op.
    destruct (Z.leb_spec (Z.of_nat (length components)) (m_pos m)); [done|].
    destruct (zindex_ok components (m_pos m)) as [s ->]; [lia|].
    destruct (unescape s mode false) as [s'|e]; [|done]. eapply push_fits; [done|lia|done].
  - destruct (ch_pushM c); [done|]. eexists. split; [by injection Hstep as <-|]. enter_op.
    destruct (Z.ltb_spec (Z.of_nat (length components)) (m_pos m + p_tailLen p)); [done|].
    destruct (zslice_ok (m_pos m) (Z.of_nat (length components) - p_tailLen p) components) as (cs & -> & _); [lia|lia|].
    simpl obind. destruct (unescape _ _ _) as [s'|e]; [|done]. eapply push_fits; [done|lia|done].
  - destruct (_ && _) eqn:Hin in Hstep; simpl negb in Hstep; [apply in_pool_true in Hin|done].
    eexists. split; [by injection Hstep as <-|]. enter_op.
    destruct (Z.leb_spec (Z.of_nat (length components)) (m_pos m)); [done|].
    destruct (zindex_ok components (m_pos m)) as [s ->]; [lia|]. destruct (zindex_ok (p_pool p) od Hin) as [lit ->].
    case_bool_decide; [|done]. eapply push_fits; [done|lia|exact Hstep].
  - destruct (Z.leb_spec od 0); [done|]. destruct (Z.ltb_spec (ch_stack c - od) 0); [done|].
    eexists. split; [by injection Hstep as <-|]. enter_op.
    destruct (zslice_ok 0 (Z.of_nat (length (m_stack m)) - od) (m_stack m)) as (rest & -> & Hr); [lia|lia|].
    destruct (zslice_ok (Z.of_nat (length (m_stack m)) - od) (Z.of_nat (length (m_stack m))) (m_stack m))
      as (tops & -> & _); [lia|lia|].
    injection Hstep as <-. split; simpl; [rewrite length_app; simpl; lia|done|done].
  - destruct (_ && _) in Hstep; simpl negb in Hstep; [|done].
    cbv zeta in Hstep. destruct (Z.ltb_spec (ch_stack c - 1) 0); [done|].
    injection Hstep as <-. simpl in Hvars. rewrite length_app in Hvars. simpl in Hvars.
    eexists. split; [done|]. enter_op.
    destruct (zindex_ok (m_stack m) (Z.of_nat (length (m_stack m)) - 1)) as [v ->]; [lia|].
    destruct (zindex_ok (m_captured m) (Z.of_nat (length (ch_vars c)))) as [x ->]; [lia|].
    destruct (zslice_ok 0 (Z.of_nat (length (m_stack m)) - 1) (m_stack m)) as (rest & -> & Hr); [lia|lia|].
    split; simpl; [lia|by rewrite length_insert|done].
Qed.

Lemma step_vars c o c' : NewPattern_step (p_pool p) c o = Ret c' →
  0 ≤ ch_tailLen c → 0 ≤ ch_tailLen c' ∧ (length (ch_vars c) ≤ length (ch_vars c'))%nat.
Proof.
  unfold NewPattern_step, checked. intros E Ht. repeat case_match; simplify_eq; simpl; rewrite ?length_app; lia.
Qed.

Lemma loop_vars ops : ∀ c c', NewPattern_loop (p_pool p) c ops = Ret c' →
  0 ≤ ch_tailLen c → 0 ≤ ch_tailLen c' ∧ (length (ch_vars c) ≤ length (ch_vars c'))%nat.
Proof.
  induction ops as [|cd|cd od ops IH] using pair_ind; intros c c' E Ht; simpl in E; [by simplify_eq..|].
  destruct (NewPattern_step _ _ _) as [c1| |] eqn:E1; simpl in E; [|done..].
  destruct (step_vars _ _ _ E1 Ht). destruct (IH _ _ E); lia.
Qed.

(** The emitted program runs. *)
Lemma loop_sound ops : ∀ c c', NewPattern_loop (p_pool p) c ops = Ret c' →
  0 ≤ ch_tailLen c → ch_tailLen c' = p_tailLen p → ch_vars c' = p_vars p →
  ∃ suffix, ch_ops c' = ch_ops c ++ suffix ∧
    ∀ m, fits c m → keeps_fit c' (match_loop p components mode m suffix).
Proof.
  induction ops as [|cd|cd od ops IH] using pair_ind; intros c c' E Ht Etail Evars; simpl in E.
  1,2: simplify_eq; exists []; rewrite app_nil_r; by split.
  destruct (NewPattern_step _ _ _) as [c1| |] eqn:E1; simpl in E; [|done..].
  destruct (step_vars _ _ _ E1 Ht) as [Ht1 _]. destruct (loop_vars _ _ _ E Ht1) as [Ht' Hv'].
  destruct (IH _ _ E Ht1 Etail Evars) as (suffix & Eops & Hrun).
  destruct (step_sound _ _ _ E1) as [->|(o' & Eo & Ho)]; [lia|by rewrite <- Evars|by exists suffix|].
  exists (o' :: suffix). split; [by rewrite Eops, Eo, <- app_assoc|].
  intros m Hm. simpl. specialize (Ho m Hm). destruct (match_step _ _ _ _ _) as [[m'|e]| |]; [by apply Hrun|done..].
Qed.
End sound.

Definition accepted (p : Pattern) : Prop := ∃ version ops pool verb, NewPattern version ops pool verb = Ret p.

Lemma accepted_runs p components verb mode :
  accepted p → ∃ r, MatchAndEscape p components verb mode = Ret r.
Proof.
  intros (version & ops & pool & v & E). unfold NewPattern in E. repeat (case_match; [done|]).
  destruct (NewPattern_loop _ _ _) as [c| |] eqn:El; simpl in E; [|done..]. injection E as <-.
  unfold MatchAndEscape. case_bool_decide; [by eexists|]. cbn [p_verb p_vars p_ops]. set (comps := if bool_decide (v = verb) then _ else _).
  pose proof (loop_sound (mkPattern (ch_ops c) pool (ch_vars c) (ch_maxstack c) (ch_tailLen c) v) comps mode ops _ _ El)
    as (suffix & Eops & Hrun); [done..|]. simpl in Eops. subst suffix.
  specialize (Hrun (mkMachine 0 [] (replicate (length (ch_vars c)) ""))).
  destruct (match_loop _ comps mode _ _) as [[m|e]| |].
  - simpl. case_match; by eexists.
  - by eexists.
  - destruct Hrun. split; simpl; [done|by rewrite length_replicate|lia].
  - destruct Hrun. split; simpl; [done|by rewrite length_replicate|lia].
Qed.

Section answers.
Context {H : Type} (s : ServeMux (H:=H)).
Context (Hacc : ∀ meth hs, handlers s !! meth = Some hs → Forall (λ ph, accepted ph.1) hs).

Lemma cut_verb_ok components verb patVerb :
  components ≠ [] → ∃ r, cut_verb components verb patVerb = Ret r ∧ ∀ cs v, r = Some (cs, v) → cs ≠ [].
Proof.
  intros Hne. unfold cut_verb. destruct (last components) eqn:El; [|by apply last_None in El].
  repeat case_match; eexists; (split; [done|]); intros cs v [= <- <-]; solve [done|by destruct (removelast components)].
Qed.

Lemma try_handlers_ok r hs : ∀ components verb out,
  Forall (λ ph, accepted ph.1) hs → components ≠ [] →
  (∃ evs, try_handlers s r components verb out hs = Ret (inl evs) ∧ evs ≠ []) ∨
  ∃ cs v out', try_handlers s r components verb out hs = Ret (inr (cs, v, out')).
Proof.
  induction hs as [|[pat h] hs IH]; intros components verb out HF Hne; [right; by eexists _, _, _|].
  apply Forall_cons in HF as [Hp HF]. simpl.
  destruct (cut_verb_ok components verb (p_verb pat) Hne) as (cut & -> & Hcut). simpl.
  destruct cut as [[cs v]|]; [|left; eexists; split; [done|by destruct out]].
  destruct (accepted_runs pat cs v (unescapingMode s) Hp) as [m ->]. simpl.
  destruct m as [params|[|e]]; [left; eexists; split; [done|by destruct out]|by apply IH; [|eapply Hcut]..].
Qed.

Lemma try_others_ok PF r hs : ∀ components verb out,
  Forall (λ ph, accepted ph.1) hs →
  (∃ evs, try_others PF s r components verb out hs = Ret (inl evs) ∧ evs ≠ []) ∨
  ∃ out', try_others PF s r components verb out hs = Ret (inr out').
Proof.
  induction hs as [|[pat h] hs IH]; intros components verb out HF; [right; by eexists|].
  apply Forall_cons in HF as [Hp HF]. simpl.
  destruct (accepted_runs pat components verb (unescapingMode s) Hp) as [m ->]. simpl.
  destruct m as [params|[|e]]; [|by apply IH..].
  left. repeat case_match; eexists; (split; [done|by destruct out]).
Qed.

Lemma other_methods_ok PF r ms : ∀ components verb out,
  Forall (λ m, Forall (λ ph, accepted ph.1) m.2) ms →
  ∃ evs, other_methods PF s r components verb out ms = Ret evs ∧ evs ≠ [].
Proof.
  induction ms as [|[m hs] ms IH]; intros components verb out HF; simpl.
  { eexists. split; [done|by destruct out]. }
  apply Forall_cons in HF as [Hp HF]. case_bool_decide; [by apply IH|].
  destruct (try_others_ok PF r hs components verb out Hp) as [(evs & -> & Hne)|[out' ->]]; simpl; [by exists evs|].
  by apply IH.
Qed.

Lemma split_encoded_ne x : split_encoded x ≠ [].
Proof.
  destruct x as [|c x]; [done|]. unfold split_encoded; fold split_encoded. unfold prepend. repeat case_match; done.
Qed.
End answers.

(** * Patterns of literals *)

(** The program of a path without variables, [lits] from the [i]th constant on. *)
Definition lit_ops (i : Z) (lits : list string) : list pat_op :=
  imap (λ j _, mkOp OpLitPush (i + Z.of_nat j)) lits.
Definition lit_pattern (lits : list string) : Pattern :=
  mkPattern (lit_ops 0 lits) lits [] (Z.of_nat (length lits)) 0 "".

Lemma lit_loop mode pool cs lits rest : ∀ pre pre' stk,
  pool = pre' ++ lits → cs = pre ++ rest → length pre = length pre' →
  match_loop (lit_pattern pool) cs mode (mkMachine (Z.of_nat (length pre)) stk []) (lit_ops (Z.of_nat (length pre)) lits) =
    if bool_decide (take (length lits) rest = lits)
    then Ret (inl (mkMachine (Z.of_nat (length pre) + Z.of_nat (length lits)) (stk ++ lits) [])) else stuck ErrNotMatch.
Proof.
  revert rest. induction lits as [|x lits IH]; intros rest pre pre' stk Ep Ec El; simpl.
  { rewrite Z.add_0_r, app_nil_r. by destruct rest. }
  unfold match_step. cbn [code operand m_pos m_stack m_captured]. eval_codes. cbn [p_pool lit_pattern].
  destruct rest as [|c rest].
  { rewrite Ec, app_nil_r. destruct (Z.leb_spec (Z.of_nat (length pre)) (Z.of_nat (length pre))); [|lia].
    by rewrite bool_decide_false by (simpl; done). }
  destruct (Z.leb_spec (Z.of_nat (length cs)) (Z.of_nat (length pre))) as [Hle|_].
  { rewrite Ec, length_app in Hle. simpl in Hle. lia. }
  rewrite Z.add_0_r. unfold zindex. destruct (Z.ltb_spec (Z.of_nat (length pre)) 0); [lia|]. rewrite Nat2Z.id.
  rewrite Ec at 1. rewrite list_lookup_middle by done. rewrite Ep at 1. rewrite list_lookup_middle by done.
  rewrite (bool_decide_decide (c = x)). destruct (decide (c = x)) as [->|Hne]; simpl.
  - specialize (IH rest (pre ++ [x]) (pre' ++ [x]) (stk ++ [x])).
    rewrite !length_app in IH. simpl in IH. rewrite Nat2Z.inj_add in IH. change (Z.of_nat 1) with 1 in IH.
    replace (imap _ lits) with (lit_ops (Z.of_nat (length pre) + 1) lits)
      by (unfold lit_ops; apply imap_ext; intros j y _; simpl; f_equal; lia).
    rewrite IH; [|by rewrite <- app_assoc|by rewrite <- app_assoc|lia].
    rewrite <- !app_assoc. simpl. case_bool_decide as Hx.
    + rewrite bool_decide_true by (by rewrite Hx). do 3 f_equal. lia.
    + rewrite bool_decide_false by congruence. done.
  - rewrite bool_decide_false by congruence. done.
Qed.

(** Such a pattern matches its path only. *)
Lemma lit_match lits cs mode :
  MatchAndEscape (lit_pattern lits) cs "" mode =
    if bool_decide (cs = lits) then Ret (inl ∅) else stuck ErrNotMatch.
Proof.
  unfold MatchAndEscape. cbn [p_verb p_vars p_ops lit_pattern length replicate].
  rewrite bool_decide_false by naive_solver. rewrite bool_decide_true by done.
  pose proof (lit_loop mode lits cs lits cs [] [] [] eq_refl eq_refl eq_refl) as Hl.
  cbn [length app] in Hl. change (Z.of_nat 0) with 0 in Hl. rewrite Hl.
  rewrite Z.add_0_l. case_bool_decide as Ht; cbn [obind m_pos stuck].
  - case_bool_decide as Hc; [subst; by rewrite Z.ltb_irrefl|].
    destruct (Z.ltb_spec (Z.of_nat (length lits)) (Z.of_nat (length cs))); [done|].
    rewrite take_ge in Ht by lia. done.
  - by rewrite bool_decide_false by (intros ->; by rewrite firstn_all in Ht).
Qed.

(** * Properties *)

(** C33. Every pattern that [NewPattern] accepts runs on every path without going wrong, and
    every request to a multiplexer with such patterns is answered: by a handler, by the
    handler of routing errors or by the error handler, whatever the methods, the order in
    which they come out of their map, and the unescaping mode. *)
Theorem mux_answers {H} (s : ServeMux (H:=H)) ToUpper ParseForm order r :
  (∀ meth hs, handlers s !! meth = Some hs → Forall (λ ph, accepted ph.1) hs) →
  (∀ m, order m ≡ₚ map_to_list m) →
  ∃ evs, mux_ServeHTTP ToUpper ParseForm order s r = Ret evs ∧ evs ≠ [].
Proof.
  intros Hacc Hord.
  assert (∀ cs r, cs ≠ [] → ∃ evs, dispatch ParseForm order s cs r = Ret evs ∧ evs ≠ []) as Hd.
  { intros cs r' Hne. unfold dispatch.
    destruct (try_handlers_ok s r' (default [] (handlers s !! g_Method r')) cs "" []) as [(evs & -> & ?)|(cs' & v & out & ->)];
      [destruct (handlers s !! g_Method r') eqn:E; [by eapply Hacc|done]|done|by exists evs|].
    simpl. apply other_methods_ok. rewrite Hord. apply Forall_forall. intros [meth hs] Hin%elem_of_map_to_list. by eapply Hacc. }
  unfold mux_ServeHTTP. case_match; [by eexists|]. cbv zeta. set (cs := if bool_decide (unescapingMode s = _) then _ else _).
  assert (cs ≠ []) as Hcs by (unfold cs; case_bool_decide; [apply split_encoded_ne|apply Split_not_nil]).
  case_match; [|by apply Hd]. case_match; [by apply Hd|by eexists].
Qed.

(** A pattern with a variable and a deep wildcard: [/v1/{name=shelves/*/**}:get]. *)
Definition shelf_pattern : Pattern :=
  mkPattern [mkOp OpLitPush 0; mkOp OpLitPush 1; mkOp OpPush 0; mkOp OpPushM 0; mkOp OpConcatN 3; mkOp OpCapture 0]
    ["v1"; "shelves"; "name"] ["name"] 4 0 "get".

Lemma shelf_accepted : accepted shelf_pattern.
Proof. exists 1, [2; 0; 2; 1; 1; 0; 3; 0; 4; 3; 5; 2], ["v1"; "shelves"; "name"]%string, "get"%string. by vm_compute. Qed.

Definition shelf_request : grequest := mkGRequest "GET" "/v1/shelves/a/b/c:get" "" (λ _, ""%string) (inl ""%string).

Lemma mux_answers_witness :
  mux_ServeHTTP id inl map_to_list (mux_Handle "GET" shelf_pattern "h"%string NewServeMux) shelf_request =
    Ret [Handled "h"%string shelf_request {[ "name" := "shelves/a/b/c" ]}%string] ∧
  ∃ evs, mux_ServeHTTP id inl map_to_list (mux_Handle "GET" shelf_pattern "h"%string NewServeMux) shelf_request = Ret evs ∧
    evs ≠ [].
Proof.
  split; [by vm_compute|]. apply mux_answers; [|done].
  intros meth hs. simpl. rewrite lookup_insert_Some, lookup_empty. intros [[_ <-]|[_ ?]]; [|done].
  constructor; [apply shelf_accepted|done].
Defined.
