(* ===== verification/Gateway.v ===== *)
(** The generated HTTP gateway of the gRPC services: src/pkg/server/http.pb.gw.go and
    src/pkg/server/keyvalue.pb.gw.go.

    The files register handlers with the multiplexer of [Mux], one for each method of the
    services.  A handler decodes the body, calls the service and passes on what it answers.
    The clients and servers of the services, the marshaler of the bodies and the contexts of
    calls come from other code: they are parameters, and a service runs on a state [W] of
    its own.  A client and a server are of different types: a client returns the metadata it
    received, a server in process sets it on the stream in its context.  A handler
    ends in a [reply], the function of the gateway runtime it calls with what it got, and
    in the goroutine it started, if it did. *)
From Stdlib Require Import Ascii.
From stdpp Require Import base numbers gmap list strings.
From S2P Require Import Prelude GoStd Mux.

Open Scope Z_scope.

(** * Messages: src/pkg/server/http.pb.go and keyvalue.pb.go *)

Record KVPutRequest := mkKVPutRequest { kp_Name : string; kp_Value : string }.
Record KVPutReply := mkKVPutReply { kp_Message : string }.

Record KeyValue := mkKeyValue {
  kv_Key : string;
  kv_CreateRevision : Z;
  kv_ModRevision : Z;
  kv_Version : Z;
  kv_Value : string;
}.

Inductive Event_EventType := Event_PUT | Event_DELETE.
Record Event := mkEvent { ev_Type : Event_EventType; ev_Kv : option KeyValue; ev_PrevKv : option KeyValue }.

Inductive SortOrder := NONE | ASCEND | DESCEND.
Inductive SortTarget := KEY | VERSION | CREATE | MOD | VALUE.
Record RangeRequest := mkRangeRequest {
  rr_Key : string;
  rr_RangeEnd : string;
  rr_Limit : Z;
  rr_Revision : Z;
  rr_SortOrder : SortOrder;
  rr_SortTarget : SortTarget;
  rr_Serializable : bool;
  rr_KeysOnly : bool;
  rr_CountOnly : bool;
}.
Record RangeResponse := mkRangeResponse { rr_Kvs : list KeyValue }.
Record PutRequest := mkPutRequest { pr_Key : string; pr_Value : string }.
Record PutResponse := mkPutResponse { pr_PrevKv : option KeyValue }.
Record DeleteRangeRequest := mkDeleteRangeRequest { dr_Key : string; dr_RangeEnd : string }.
Record DeleteRangeResponse := mkDeleteRangeResponse { dr_Deleted : Z }.

Record WatchCreateRequest := mkWatchCreate { wc_Key : string; wc_RangeEnd : string; wc_StartRevision : Z }.
Record WatchCancelRequest := mkWatchCancel { wc_WatchId : Z }.
Inductive WatchRequest :=
  | NoRequest
  | CreateRequest (c : WatchCreateRequest)
  | CancelRequest (c : WatchCancelRequest).
Record WatchResponse := mkWatchResponse {
  wr_WatchId : Z;
  wr_Created : bool;
  wr_Canceled : bool;
  wr_CompactRevision : Z;
  wr_Events : list Event;
}.

(** A message a handler forwards. *)
Inductive proto_Message :=
  | MKVPutReply (m : KVPutReply)
  | MRangeResponse (m : RangeResponse)
  | MPutResponse (m : PutResponse)
  | MDeleteRangeResponse (m : DeleteRangeResponse).

(** The value of a variable of a message type. *)
Class Message (T : Type) := zero : T.
#[global] Instance KVPutRequest_Message : Message KVPutRequest := mkKVPutRequest "" "".
#[global] Instance RangeRequest_Message : Message RangeRequest :=
  mkRangeRequest "" "" 0 0 NONE KEY false false false.
#[global] Instance PutRequest_Message : Message PutRequest := mkPutRequest "" "".
#[global] Instance DeleteRangeRequest_Message : Message DeleteRangeRequest := mkDeleteRangeRequest "" "".
#[global] Instance WatchRequest_Message : Message WatchRequest := NoRequest.

(** * Status and metadata of a call *)

Inductive Code :=
  | COK | CCanceled | CUnknown | CInvalidArgument | CDeadlineExceeded | CNotFound | CAlreadyExists
  | CPermissionDenied | CResourceExhausted | CFailedPrecondition | CAborted | COutOfRange
  | CUnimplemented | CInternal | CUnavailable | CDataLoss | CUnauthenticated.

Record Status := mkStatus { st_Code : Code; st_Message : string }.

Definition HTTPStatusFromCode (c : Code) : Z :=
  match c with
  | COK => 200
  | CCanceled => 408
  | CUnknown => 500
  | CInvalidArgument => 400
  | CDeadlineExceeded => 504
  | CNotFound => 404
  | CAlreadyExists => 409
  | CPermissionDenied => 403
  | CUnauthenticated => 401
  | CResourceExhausted => 429
  | CFailedPrecondition => 400
  | CAborted => 409
  | COutOfRange => 400
  | CUnimplemented => 501
  | CInternal => 500
  | CUnavailable => 503
  | CDataLoss => 500
  end.

Abbreviation MD := (gmap string (list string)) (only parsing).
Record ServerMetadata := mkMetadata { HeaderMD : MD; TrailerMD : MD }.
Definition no_metadata : ServerMetadata := mkMetadata ∅ ∅.

(** [metadata.Join]. *)
Definition metadata_Join (a b : MD) : MD := union_with (λ x y, Some (x ++ y)) a b.

(** * Bodies *)

Inductive decode_err := io_EOF | DecodeError (e : error).

(** A decoder on a body, which may fail while it is read: [Decode] gives the next message
    of it, in a variable that was zero, or the error that ends them. *)
Record Marshaler := mkMarshaler {
  Decoder : Type;
  NewDecoder : string + error → Decoder;
  Decode : ∀ T : Type, Message T → Decoder → T * option decode_err * Decoder;
}.

Section gateway.
(** The contexts of calls that go out, and of calls in process. *)
Context {W ctx ictx : Type} (marshaler : Marshaler).

(** A call of a client: its answer or status, the metadata it received, its state. *)
Definition rpc (A : Type) : Type := W → (A + Status) * ServerMetadata * W.

Record KVClient := mkKVClient { KVClient_Put : ctx → KVPutRequest → rpc KVPutReply }.
Record KeyValueServiceClient := mkKeyValueServiceClient {
  KeyValueServiceClient_Range : ctx → RangeRequest → rpc RangeResponse;
  KeyValueServiceClient_Put : ctx → PutRequest → rpc PutResponse;
  KeyValueServiceClient_DeleteRange : ctx → DeleteRangeRequest → rpc DeleteRangeResponse;
}.

(** The stream in the context of a call in process: the headers and trailers the server
    sets on it while it runs. *)
Record ServerTransportStream := mkTransportStream { ts_Header : MD; ts_Trailer : MD }.
Definition new_stream : ServerTransportStream := mkTransportStream ∅ ∅.
Definition local (A : Type) : Type :=
  ServerTransportStream * W → (A + Status) * (ServerTransportStream * W).

Record KVServer := mkKVServer { KVServer_Put : ictx → KVPutRequest → local KVPutReply }.
Record KeyValueServiceServer := mkKeyValueServiceServer {
  KeyValueServiceServer_Range : ictx → RangeRequest → local RangeResponse;
  KeyValueServiceServer_Put : ictx → PutRequest → local PutResponse;
  KeyValueServiceServer_DeleteRange : ictx → DeleteRangeRequest → local DeleteRangeResponse;
}.

(** The client side of a stream of watch requests. *)
Record WatchClientStream := mkStream {
  ws_Send : WatchRequest → W → option error * W;
  ws_CloseSend : W → option error * W;
  ws_Header : W → (MD + Status) * W;
  ws_Recv : W → (WatchResponse + decode_err) * W;
}.
Record WatchServiceClient := mkWatchServiceClient {
  Watch : ctx → W → (WatchClientStream + Status) * W;
}.

(** * Requests of a service *)

(** The body of a unary request; an empty one is the zero message. *)
Definition decode_body (T : Type) `{!Message T} (req : grequest) : T + Status :=
  match g_Body req with
  | inr berr => inr (mkStatus CInvalidArgument berr)
  | inl b =>
      match (Decode marshaler T _ (NewDecoder marshaler (inl b))).1 with
      | (_, Some (DecodeError err)) => inr (mkStatus CInvalidArgument err)
      | (protoReq, Some io_EOF) | (protoReq, None) => inl protoReq
      end
  end.

(** The call with the decoded body, and the message it returns. *)
Definition unary {T A} `{!Message T} (wrap : A → proto_Message) (call : T → rpc A) (req : grequest)
    : rpc proto_Message := λ w,
  match decode_body T req with
  | inr st => (inr st, no_metadata, w)
  | inl protoReq =>
      let '(msg, md, w') := call protoReq w in
      (match msg with inl m => inl (wrap m) | inr st => inr st end, md, w')
  end.

(** In process: the metadata stays empty. *)
Definition local_unary {T A} `{!Message T} (wrap : A → proto_Message) (call : T → local A) (req : grequest)
    (s : ServerTransportStream * W)
    : (proto_Message + Status) * ServerMetadata * (ServerTransportStream * W) :=
  match decode_body T req with
  | inr st => (inr st, no_metadata, s)
  | inl protoReq =>
      let '(msg, s') := call protoReq s in
      (match msg with inl m => inl (wrap m) | inr st => inr st end, no_metadata, s')
  end.

Definition request_KV_Put_0 (client : KVClient) (c : ctx) := unary MKVPutReply (KVClient_Put client c).
Definition local_request_KV_Put_0 (server : KVServer) (c : ictx) :=
  local_unary MKVPutReply (KVServer_Put server c).

Definition request_KeyValueService_Range_0 (client : KeyValueServiceClient) (c : ctx) :=
  unary MRangeResponse (KeyValueServiceClient_Range client c).
Definition local_request_KeyValueService_Range_0 (server : KeyValueServiceServer) (c : ictx) :=
  local_unary MRangeResponse (KeyValueServiceServer_Range server c).
Definition request_KeyValueService_Put_0 (client : KeyValueServiceClient) (c : ctx) :=
  unary MPutResponse (KeyValueServiceClient_Put client c).
Definition local_request_KeyValueService_Put_0 (server : KeyValueServiceServer) (c : ictx) :=
  local_unary MPutResponse (KeyValueServiceServer_Put server c).
Definition request_KeyValueService_DeleteRange_0 (client : KeyValueServiceClient) (c : ctx) :=
  unary MDeleteRangeResponse (KeyValueServiceClient_DeleteRange client c).
Definition local_request_KeyValueService_DeleteRange_0 (server : KeyValueServiceServer) (c : ictx) :=
  local_unary MDeleteRangeResponse (KeyValueServiceServer_DeleteRange server c).

(** ** Watching *)

(** The goroutine that sends the messages of the body: in its loop, with the decoder on
    the rest of the body, about to close, or at its end. *)
Inductive sender := Sending (dec : Decoder marshaler) | Closing | Sent.

(** One turn of it: [handleSend], which decodes the next message and sends it, or
    [CloseSend] after the loop.  Errors are logged. *)
Definition send_step (stream : WatchClientStream) (s : sender) (w : W) : sender * W :=
  match s with
  | Sending dec =>
      match Decode marshaler WatchRequest _ dec with
      | (_, Some _, _) => (Closing, w)
      | (protoReq, None, dec') =>
          match ws_Send stream protoReq w with
          | (None, w') => (Sending dec', w')
          | (Some _, w') => (Closing, w')
          end
      end
  | Closing => let '(_, w') := ws_CloseSend stream w in (Sent, w')
  | Sent => (Sent, w)
  end.

(** The stream, and the sender that runs on it from before the header is awaited. *)
Definition request_WatchService_Watch_0 (client : WatchServiceClient) (c : ctx) (req : grequest) (w : W)
    : (WatchClientStream + Status) * ServerMetadata * option (WatchClientStream * sender) * W :=
  match Watch client c w with
  | (inr st, w') => (inr st, no_metadata, None, w')
  | (inl stream, w') =>
      let sending := Some (stream, Sending (NewDecoder marshaler (g_Body req))) in
      match ws_Header stream w' with
      | (inr st, w'') => (inr st, no_metadata, sending, w'')
      | (inl header, w'') => (inl stream, mkMetadata header ∅, sending, w'')
      end
  end.

(** * Handlers *)

(** What a handler calls at its end, with the metadata in its context. *)
Inductive reply :=
  | HTTPError (md : option ServerMetadata) (st : Status)
  | ForwardResponseMessage (md : ServerMetadata) (m : proto_Message)
  | ForwardResponseStream (md : ServerMetadata) (stream : WatchClientStream).

Definition HandlerFunc : Type :=
  grequest → gmap string string → W → reply * option (WatchClientStream * sender) * W.

(** [runtime.AnnotateContext] and [runtime.AnnotateIncomingContext], of a request, the name
    of the method and the pattern of the path. *)
Context (AnnotateContext : grequest → string → string → ctx + Status).
Context (AnnotateIncomingContext : grequest → string → string → ictx + Status).

Definition client_handler (rpcMethod path : string) (request : ctx → grequest → rpc proto_Message)
    : HandlerFunc := λ req pathParams w,
  match AnnotateContext req rpcMethod path with
  | inr st => (HTTPError None st, None, w)
  | inl c =>
      let '(resp, md, w') := request c req w in
      match resp with
      | inr st => (HTTPError (Some md) st, None, w')
      | inl m => (ForwardResponseMessage md m, None, w')
      end
  end.

(** The metadata of the request is joined with what the server set on its stream. *)
Definition server_handler (rpcMethod path : string)
    (local_request : ictx → grequest → ServerTransportStream * W →
       (proto_Message + Status) * ServerMetadata * (ServerTransportStream * W))
    : HandlerFunc := λ req pathParams w,
  match AnnotateIncomingContext req rpcMethod path with
  | inr st => (HTTPError None st, None, w)
  | inl c =>
      let '(resp, md, (stream, w')) := local_request c req (new_stream, w) in
      let md := mkMetadata (metadata_Join (HeaderMD md) (ts_Header stream))
                  (metadata_Join (TrailerMD md) (ts_Trailer stream)) in
      match resp with
      | inr st => (HTTPError (Some md) st, None, w')
      | inl m => (ForwardResponseMessage md m, None, w')
      end
  end.

Definition watch_handler (client : WatchServiceClient) : HandlerFunc := λ req pathParams w,
  match AnnotateContext req "/proto.WatchService/Watch" "/watch" with
  | inr st => (HTTPError None st, None, w)
  | inl c =>
      let '(resp, md, sending, w') := request_WatchService_Watch_0 client c req w in
      match resp with
      | inr st => (HTTPError (Some md) st, sending, w')
      | inl stream => (ForwardResponseStream md stream, sending, w')
      end
  end.

(** Streams are refused in process. *)
Definition watch_unimplemented : HandlerFunc := λ req pathParams w,
  (HTTPError None (mkStatus CUnimplemented "streaming calls are not yet supported in the in-process transport"), None, w).

(** * Patterns *)

(** A package variable set to a pattern; the program has ended if it is not valid. *)
Definition pattern_var (p : outcome Pattern) : Pattern :=
  match MustPattern p with Ret p => p | _ => mkPattern [] [] [] 0 0 "" end.

Definition pattern_KV_Put_0 : Pattern := pattern_var (NewPattern 1 [2; 0; 2; 1] ["v1"; "kv"] "").
Definition pattern_KeyValueService_Range_0 : Pattern := pattern_var (NewPattern 1 [2; 0] ["range"] "").
Definition pattern_KeyValueService_Put_0 : Pattern := pattern_var (NewPattern 1 [2; 0] ["put"] "").
Definition pattern_KeyValueService_DeleteRange_0 : Pattern := pattern_var (NewPattern 1 [2; 0] ["deleterange"] "").
Definition pattern_WatchService_Watch_0 : Pattern := pattern_var (NewPattern 1 [2; 0] ["watch"] "").

(** * Registration *)

Abbreviation mux := (ServeMux (H:=HandlerFunc)).

Definition RegisterKVHandlerServer (server : KVServer) (s : mux) : mux :=
  mux_Handle "POST" pattern_KV_Put_0 (server_handler "/proto.KV/Put" "/v1/kv" (local_request_KV_Put_0 server)) s.
Definition RegisterKVHandlerClient (client : KVClient) (s : mux) : mux :=
  mux_Handle "POST" pattern_KV_Put_0 (client_handler "/proto.KV/Put" "/v1/kv" (request_KV_Put_0 client)) s.

Definition RegisterKeyValueServiceHandlerServer (server : KeyValueServiceServer) (s : mux) : mux :=
  let s := mux_Handle "POST" pattern_KeyValueService_Range_0
    (server_handler "/proto.KeyValueService/Range" "/range" (local_request_KeyValueService_Range_0 server)) s in
  let s := mux_Handle "POST" pattern_KeyValueService_Put_0
    (server_handler "/proto.KeyValueService/Put" "/put" (local_request_KeyValueService_Put_0 server)) s in
  mux_Handle "POST" pattern_KeyValueService_DeleteRange_0
    (server_handler "/proto.KeyValueService/DeleteRange" "/deleterange"
       (local_request_KeyValueService_DeleteRange_0 server)) s.
Definition RegisterKeyValueServiceHandlerClient (client : KeyValueServiceClient) (s : mux) : mux :=
  let s := mux_Handle "POST" pattern_KeyValueService_Range_0
    (client_handler "/proto.KeyValueService/Range" "/range" (request_KeyValueService_Range_0 client)) s in
  let s := mux_Handle "POST" pattern_KeyValueService_Put_0
    (client_handler "/proto.KeyValueService/Put" "/put" (request_KeyValueService_Put_0 client)) s in
  mux_Handle "POST" pattern_KeyValueService_DeleteRange_0
    (client_handler "/proto.KeyValueService/DeleteRange" "/deleterange"
       (request_KeyValueService_DeleteRange_0 client)) s.

Definition RegisterWatchServiceHandlerServer (s : mux) : mux :=
  mux_Handle "POST" pattern_WatchService_Watch_0 watch_unimplemented s.
Definition RegisterWatchServiceHandlerClient (client : WatchServiceClient) (s : mux) : mux :=
  mux_Handle "POST" pattern_WatchService_Watch_0 (watch_handler client) s.

(** ** Over a connection *)

Section connection.
(** [grpc.Dial], and the clients of a connection. *)
Context {Conn : Type} (Dial : string → outcome Conn).
Context (NewKVClient : Conn → KVClient) (NewKeyValueServiceClient : Conn → KeyValueServiceClient).
Context (NewWatchServiceClient : Conn → WatchServiceClient).

Definition RegisterKVHandler (s : mux) (conn : Conn) : mux :=
  RegisterKVHandlerClient (NewKVClient conn) s.
Definition RegisterKeyValueServiceHandler (s : mux) (conn : Conn) : mux :=
  RegisterKeyValueServiceHandlerClient (NewKeyValueServiceClient conn) s.
Definition RegisterWatchServiceHandler (s : mux) (conn : Conn) : mux :=
  RegisterWatchServiceHandlerClient (NewWatchServiceClient conn) s.

(** The error of [grpc.Dial], or the registration on the connection made.  Registering
    does not fail, so the connection is not closed on return: the value returned is the
    connection of the goroutine left behind, which closes it when the context is done. *)
Definition from_endpoint (register : mux → Conn → mux) (endpoint : string) : M mux Conn := λ s,
  match Dial endpoint with
  | Ret conn => (Ret conn, register s conn)
  | Fail e => (Fail e, s)
  | Panic why => (Panic why, s)
  end.
Definition RegisterKVHandlerFromEndpoint : string → M mux Conn := from_endpoint RegisterKVHandler.
Definition RegisterKeyValueServiceHandlerFromEndpoint : string → M mux Conn :=
  from_endpoint RegisterKeyValueServiceHandler.
Definition RegisterWatchServiceHandlerFromEndpoint : string → M mux Conn :=
  from_endpoint RegisterWatchServiceHandler.
End connection.
End gateway.

Arguments reply : clear implicits.
Arguments HandlerFunc : clear implicits.
Arguments WatchClientStream : clear implicits.

(** * Routing *)

(** ** Paths *)

Lemma Join_Split sep s : Join (String sep "") (Split sep s) = s.
Proof.
  induction s as [|c s IH]; [done|]. simpl. pose proof (Split_not_nil sep s).
  destruct (decide (c = sep)) as [->|Hne]; destruct (Split sep s) as [|x l]; simpl in *; try done.
  - by destruct l; simpl in *; rewrite IH.
  - destruct l; simpl in *; by rewrite <- IH.
Qed.

Definition path_of (lits : list string) : string := "/" +:+ Join "/" lits.
Definition plain (lits : list string) : Prop := lits ≠ [] ∧ Forall (λ x, str_elem "/" x = false) lits.

Lemma substring_all s n : (String.length s ≤ n)%nat → String.substring 0 n s = s.
Proof. revert n. induction s as [|c s IH]; intros [|n] Hn; simpl in *; [done..|lia|by rewrite IH by lia]. Qed.

Lemma tail_of_path s : tail_of ("/" +:+ s) = s.
Proof. apply (substring_all s (S (String.length s))). lia. Qed.

Lemma path_components path lits :
  String.prefix "/" path = true → plain lits → Split "/" (tail_of path) = lits ↔ path = path_of lits.
Proof.
  intros Hp [Hne HF]. destruct path as [|c path]; [done|]. revert Hp. cbn [String.prefix].
  destruct (ascii_dec "/" c) as [<-|]; [intros _|done].
  change (String "/" path) with ("/" +:+ path). rewrite tail_of_path. split.
  - intros <-. unfold path_of. by rewrite Join_Split.
  - intros E. injection E as E. change ("" +:+ path) with path in E. rewrite E. by apply Split_Join.
Qed.

Section table.
Context {H : Type}.
Implicit Types (tbl : list (list string * H)) (s : ServeMux (H:=H)).

Definition lit_handlers tbl : list (Pattern * H) := (λ e, (lit_pattern e.1, e.2)) <$> tbl.
Definition endpoints tbl : gmap string H := list_to_map ((λ e, (path_of e.1, e.2)) <$> tbl).

(** What is called for a request to the endpoints. *)
Definition answer (eps : gmap string H) (r : grequest) : event H :=
  if String.prefix "/" (g_Path r) then
    match eps !! g_Path r with
    | Some h => if bool_decide (g_Method r = "POST") then Handled h r ∅ else Routing StatusMethodNotAllowed
    | None => Routing MuxNotFound
    end
  else Routing StatusBadRequest.

Lemma endpoints_cons lits h tbl path :
  endpoints ((lits, h) :: tbl) !! path = if bool_decide (path = path_of lits) then Some h else endpoints tbl !! path.
Proof.
  unfold endpoints. simpl. case_bool_decide as E; [subst; by rewrite lookup_insert_eq|by rewrite lookup_insert_ne by done].
Qed.

Lemma try_lits s r cs tbl :
  cs ≠ [] → (∀ lits, plain lits → cs = lits ↔ g_Path r = path_of lits) → Forall (λ e, plain e.1) tbl →
  try_handlers s r cs "" [] (lit_handlers tbl) =
    Ret (match endpoints tbl !! g_Path r with Some h => inl [Handled h r ∅] | None => inr (cs, ""%string, []) end).
Proof.
  intros Hne Hcs HF. induction HF as [|[lits h] tbl Hl HF IH]; [done|]. rewrite endpoints_cons. simpl in Hl |- *.
  assert (cut_verb cs "" "" = Ret (Some (cs, ""%string))) as ->.
  { unfold cut_verb. destruct (last cs) eqn:E; [done|by apply last_None in E]. }
  simpl. rewrite lit_match. specialize (Hcs lits Hl).
  destruct (decide (cs = lits)) as [E|E]; [rewrite !bool_decide_true by naive_solver; done|].
  rewrite !bool_decide_false by naive_solver. simpl. apply IH.
Qed.

Lemma others_lits PF s r cs tbl :
  g_Method r ≠ "POST" → (∀ lits, plain lits → cs = lits ↔ g_Path r = path_of lits) → Forall (λ e, plain e.1) tbl →
  try_others PF s r cs "" [] (lit_handlers tbl) =
    Ret (match endpoints tbl !! g_Path r with Some h => inl [Routing StatusMethodNotAllowed] | None => inr [] end).
Proof.
  intros Hm Hcs HF. induction HF as [|[lits h] tbl Hl HF IH]; [done|]. rewrite endpoints_cons. simpl in Hl |- *.
  rewrite lit_match. specialize (Hcs lits Hl).
  destruct (decide (cs = lits)) as [E|E].
  - rewrite !bool_decide_true by naive_solver. simpl. unfold isPathLengthFallback.
    by rewrite (bool_decide_false (g_Method r = _)), andb_false_r by done.
  - rewrite !bool_decide_false by naive_solver. simpl. apply IH.
Qed.

(** A multiplexer with these handlers, of POST requests only. *)
Lemma table_serves ToUpper PF order tbl r :
  Forall (λ e, plain e.1) tbl → (∀ m, order m ≡ₚ map_to_list m) →
  g_Header r "X-HTTP-Method-Override" = "" ∨ g_Header r "Content-Type" ≠ "application/x-www-form-urlencoded" →
  mux_ServeHTTP ToUpper PF order (mkServeMux {[ "POST" := lit_handlers tbl ]}%string false Legacy) r =
    Ret [answer (endpoints tbl) r].
Proof.
  intros HF Hord Hno. unfold mux_ServeHTTP, answer. destruct (String.prefix "/" (g_Path r)) eqn:Hp; [|done].
  cbn [negb unescapingMode]. rewrite (bool_decide_false (Legacy ≠ Legacy ∧ _)) by (by intros [? _]).
  rewrite (bool_decide_false (Legacy = AllCharacters)) by done.
  set (cs := Split "/" (tail_of (g_Path r))).
  assert (∀ lits, plain lits → cs = lits ↔ g_Path r = path_of lits) as Hcs by (intros; by apply path_components).
  assert (cs ≠ []) as Hne by apply Split_not_nil.
  replace (bool_decide _ && isPathLengthFallback _ r) with false.
  2: { unfold isPathLengthFallback. destruct Hno as [->|Hn]; [done|].
       by rewrite (bool_decide_false (g_Header r "Content-Type" = _)), !andb_false_r by done. }
  unfold dispatch. cbn [handlers].
  destruct (decide (g_Method r = "POST")) as [E|E].
  - rewrite E, lookup_singleton_eq. simpl default. rewrite try_lits by done. rewrite bool_decide_true by done.
    simpl. destruct (endpoints tbl !! g_Path r); [done|].
    specialize (Hord {[ "POST" := lit_handlers tbl ]}%string). rewrite map_to_list_singleton in Hord.
    apply Permutation_singleton_r in Hord. rewrite Hord. simpl. by rewrite bool_decide_true by done.
  - rewrite lookup_singleton_ne by done. simpl.
    specialize (Hord {[ "POST" := lit_handlers tbl ]}%string). rewrite map_to_list_singleton in Hord.
    apply Permutation_singleton_r in Hord. rewrite Hord. simpl. rewrite bool_decide_false by done.
    rewrite others_lits by done. rewrite bool_decide_false by done. simpl. by destruct (endpoints tbl !! g_Path r).
Qed.

(** Registering a table. *)
Definition registers (reg : ServeMux → ServeMux) tbl : Prop :=
  ∀ s, reg s = mkServeMux (<["POST"%string := lit_handlers tbl ++ default [] (handlers s !! "POST"%string)]> (handlers s))
    (disablePathLengthFallback s) (unescapingMode s).

Definition register_all (regs : list (ServeMux → ServeMux)) : ServeMux := foldr (λ reg s, reg s) NewServeMux regs.

Lemma register_all_table regs tbls :
  Forall2 registers regs tbls → regs ≠ [] →
  register_all regs = mkServeMux {[ "POST" := lit_handlers (concat tbls) ]}%string false Legacy.
Proof.
  intros HF Hne. assert (∃ m, register_all regs = mkServeMux m false Legacy ∧
    default [] (m !! "POST"%string) = lit_handlers (concat tbls) ∧ (regs ≠ [] → m = {[ "POST" := lit_handlers (concat tbls) ]}%string) ∧
    (regs = [] → m = ∅)) as (m & -> & _ & Hm & _).
  { clear Hne. induction HF as [|reg tbl regs tbls Hr HF (m & E & Ed & Hm & He)]; [by exists ∅|].
    simpl. rewrite E, Hr. cbn [handlers disablePathLengthFallback unescapingMode].
    eexists. split; [done|]. rewrite Ed. unfold lit_handlers. rewrite fmap_app. split_and!; [by rewrite lookup_insert_eq| |done].
    intros _. destruct regs; [rewrite He by done; by rewrite insert_empty|rewrite Hm by done; by rewrite insert_singleton_eq]. }
  by rewrite Hm.
Qed.

Lemma concat_perm {A} (l l' : list (list A)) : l ≡ₚ l' → concat l ≡ₚ concat l'.
Proof. induction 1; simpl; [done|by f_equiv|by rewrite !app_assoc, (Permutation_app_comm y)|by etrans]. Qed.

(** The order of registration does not matter when the paths differ. *)
Lemma register_perm regs all tbls eps :
  regs ≡ₚ all → Forall2 registers all tbls → Forall (Forall (λ e, plain e.1)) tbls → all ≠ [] →
  NoDup (path_of <$> (concat tbls).*1) → endpoints (concat tbls) = eps →
  ∃ tbl, register_all regs = mkServeMux {[ "POST" := lit_handlers tbl ]}%string false Legacy ∧
    Forall (λ e, plain e.1) tbl ∧ endpoints tbl = eps.
Proof.
  intros Hp HF Hpl Hne Hnd <-. symmetry in Hp.
  destruct (Permutation_Forall2 Hp HF) as (tbls' & Hc%concat_perm & HF').
  exists (concat tbls'). split; [apply register_all_table; [done|by intros ->; apply Permutation_nil_r in Hp]|]. split.
  - rewrite <- Hc. by apply Forall_concat.
  - unfold endpoints. symmetry. apply list_to_map_proper; [|by rewrite Hc].
    rewrite <- list_fmap_compose. by rewrite <- list_fmap_compose in Hnd.
Qed.
End table.

Section services.
Context {W ctx ictx : Type} (marshaler : Marshaler).
Context (AnnotateContext : grequest → string → string → ctx + Status).
Context (AnnotateIncomingContext : grequest → string → string → ictx + Status).
Context (kvc : KVClient (W:=W) (ctx:=ctx)) (kvsc : KeyValueServiceClient (W:=W) (ctx:=ctx)).
Context (kvd : KVServer (W:=W) (ictx:=ictx)) (kvsd : KeyValueServiceServer (W:=W) (ictx:=ictx)).
Context (ws : WatchServiceClient (W:=W) (ctx:=ctx)).

Abbreviation client := (client_handler marshaler AnnotateContext).
Abbreviation server := (server_handler marshaler AnnotateIncomingContext).
Abbreviation handler := (HandlerFunc W marshaler).

(** The registrations of the three services, with clients and with servers. *)
Definition client_registrations : list (ServeMux (H:=handler) → ServeMux) :=
  [RegisterKVHandlerClient marshaler AnnotateContext kvc;
   RegisterKeyValueServiceHandlerClient marshaler AnnotateContext kvsc;
   RegisterWatchServiceHandlerClient marshaler AnnotateContext ws].
Definition server_registrations : list (ServeMux (H:=handler) → ServeMux) :=
  [RegisterKVHandlerServer marshaler AnnotateIncomingContext kvd;
   RegisterKeyValueServiceHandlerServer marshaler AnnotateIncomingContext kvsd;
   RegisterWatchServiceHandlerServer marshaler].

(** The handlers of the paths of the .proto files. *)
Definition client_endpoints : gmap string handler :=
  list_to_map
    [("/v1/kv", client "/proto.KV/Put" "/v1/kv" (request_KV_Put_0 marshaler kvc));
     ("/deleterange", client "/proto.KeyValueService/DeleteRange" "/deleterange"
                        (request_KeyValueService_DeleteRange_0 marshaler kvsc));
     ("/put", client "/proto.KeyValueService/Put" "/put" (request_KeyValueService_Put_0 marshaler kvsc));
     ("/range", client "/proto.KeyValueService/Range" "/range" (request_KeyValueService_Range_0 marshaler kvsc));
     ("/watch", watch_handler marshaler AnnotateContext ws)]%string.
Definition server_endpoints : gmap string handler :=
  list_to_map
    [("/v1/kv", server "/proto.KV/Put" "/v1/kv" (local_request_KV_Put_0 marshaler kvd));
     ("/deleterange", server "/proto.KeyValueService/DeleteRange" "/deleterange"
                        (local_request_KeyValueService_DeleteRange_0 marshaler kvsd));
     ("/put", server "/proto.KeyValueService/Put" "/put" (local_request_KeyValueService_Put_0 marshaler kvsd));
     ("/range", server "/proto.KeyValueService/Range" "/range" (local_request_KeyValueService_Range_0 marshaler kvsd));
     ("/watch", watch_unimplemented marshaler)]%string.

(** The table a service registers, last one first. *)
Definition tables (h1 h2 h3 h4 h5 : handler) : list (list (list string * handler)) :=
  [[(["v1"; "kv"], h1)]; [(["deleterange"], h4); (["put"], h3); (["range"], h2)]; [(["watch"], h5)]]%string.

Lemma client_registers :
  Forall2 registers client_registrations
    (tables (client "/proto.KV/Put" "/v1/kv" (request_KV_Put_0 marshaler kvc))
       (client "/proto.KeyValueService/Range" "/range" (request_KeyValueService_Range_0 marshaler kvsc))
       (client "/proto.KeyValueService/Put" "/put" (request_KeyValueService_Put_0 marshaler kvsc))
       (client "/proto.KeyValueService/DeleteRange" "/deleterange" (request_KeyValueService_DeleteRange_0 marshaler kvsc))
       (watch_handler marshaler AnnotateContext ws)).
Proof.
  unfold tables. constructor; [by intros s|]. constructor; [intros s|constructor; [by intros s|constructor]]. unfold RegisterKeyValueServiceHandlerClient, mux_Handle.
  cbn [handlers disablePathLengthFallback unescapingMode]. by rewrite !lookup_insert_eq, !insert_insert_eq.
Qed.
Lemma server_registers :
  Forall2 registers server_registrations
    (tables (server "/proto.KV/Put" "/v1/kv" (local_request_KV_Put_0 marshaler kvd))
       (server "/proto.KeyValueService/Range" "/range" (local_request_KeyValueService_Range_0 marshaler kvsd))
       (server "/proto.KeyValueService/Put" "/put" (local_request_KeyValueService_Put_0 marshaler kvsd))
       (server "/proto.KeyValueService/DeleteRange" "/deleterange" (local_request_KeyValueService_DeleteRange_0 marshaler kvsd))
       (watch_unimplemented marshaler)).
Proof.
  unfold tables. constructor; [by intros s|]. constructor; [intros s|constructor; [by intros s|constructor]]. unfold RegisterKeyValueServiceHandlerServer, mux_Handle.
  cbn [handlers disablePathLengthFallback unescapingMode]. by rewrite !lookup_insert_eq, !insert_insert_eq.
Qed.

Lemma tables_plain h1 h2 h3 h4 h5 :
  Forall (Forall (λ e, plain e.1)) (tables h1 h2 h3 h4 h5) ∧ NoDup (path_of <$> (concat (tables h1 h2 h3 h4 h5)).*1).
Proof. split; [by repeat constructor|]. apply (bool_decide_unpack _). by vm_compute. Qed.

Lemma registrations_serve ToUpper ParseForm order regs eps r :
  (regs ≡ₚ client_registrations ∧ eps = client_endpoints) ∨ (regs ≡ₚ server_registrations ∧ eps = server_endpoints) →
  (∀ m, order m ≡ₚ map_to_list m) →
  g_Header r "X-HTTP-Method-Override" = "" ∨ g_Header r "Content-Type" ≠ "application/x-www-form-urlencoded" →
  mux_ServeHTTP ToUpper ParseForm order (register_all regs) r = Ret [answer eps r].
Proof.
  intros Hregs Hord Hno.
  assert (∃ tbl, register_all regs = mkServeMux {[ "POST" := lit_handlers tbl ]}%string false Legacy ∧
    Forall (λ e, plain e.1) tbl ∧ endpoints tbl = eps) as (tbl & -> & Hpl & <-).
  { destruct Hregs as [[Hp ->]|[Hp ->]].
    - eapply register_perm; [exact Hp|apply client_registers|apply tables_plain|done|apply tables_plain|].
      done.
    - eapply register_perm; [exact Hp|apply server_registers|apply tables_plain|done|apply tables_plain|]. done. }
  by apply table_serves.
Qed.

(** C30. The gateway with all three services registered, in any order, with clients or with
    servers: unless a form overrides the method, a request is handed to the handler of
    the method whose path the .proto files give for exactly that path, if it is a POST;
    another method there is answered 405, another path 404 and one without a leading
    slash 400. *)
Theorem gateway_routes ToUpper ParseForm order regs eps r :
  (regs ≡ₚ client_registrations ∧ eps = client_endpoints) ∨ (regs ≡ₚ server_registrations ∧ eps = server_endpoints) →
  (∀ m, order m ≡ₚ map_to_list m) →
  g_Header r "X-HTTP-Method-Override" = "" ∨ g_Header r "Content-Type" ≠ "application/x-www-form-urlencoded" →
  mux_ServeHTTP ToUpper ParseForm order (register_all regs) r = Ret [answer eps r].
Proof. apply registrations_serve. Qed.

(** ** The unary endpoints *)

(** The body of a request: it cannot be read, or not as a [T]; or it is the message [m],
    the zero one when it is empty. *)
Definition bad_body (T : Type) `{!Message T} (r : grequest) (e : error) : Prop :=
  g_Body r = inr e ∨
  ∃ b x d, g_Body r = inl b ∧ Decode marshaler T _ (NewDecoder marshaler (inl b)) = (x, Some (DecodeError e), d).
Definition body_is (T : Type) `{!Message T} (r : grequest) (m : T) : Prop :=
  ∃ b e d, g_Body r = inl b ∧ Decode marshaler T _ (NewDecoder marshaler (inl b)) = (m, e, d) ∧
    (e = None ∨ e = Some io_EOF).

Lemma decode_bad `{!Message T} r e :
  bad_body T r e → decode_body marshaler T r = inr (mkStatus CInvalidArgument e).
Proof.
  unfold decode_body. intros [-> |(b & x & d & -> & E)]; [done|]. by rewrite E.
Qed.
Lemma decode_is `{!Message T} r (m : T) : body_is T r m → decode_body marshaler T r = inl m.
Proof. unfold decode_body. intros (b & e & d & -> & E & He). rewrite E. by destruct He as [-> | ->]. Qed.

(** A call of method [rpcMethod] with the message of the body: [call] gives the answer, the
    metadata and the state after it in a context, if the request has one. *)
Definition calls_method {C T A} `{!Message T} (annotated : C + Status) (wrap : A → proto_Message)
    (call : C → T → W → (A + Status) * ServerMetadata * W) (r : grequest) (w : W)
    (out : reply W * option (WatchClientStream W * sender marshaler) * W) : Prop :=
  match annotated with
  | inr st => out = (HTTPError None st, None, w)
  | inl c =>
      (∀ e, bad_body T r e → out = (HTTPError (Some no_metadata) (mkStatus CInvalidArgument e), None, w)) ∧
      (∀ m, body_is T r m →
         let '(ans, md, w') := call c m w in
         out = (match ans with
                | inl a => ForwardResponseMessage md (wrap a)
                | inr st => HTTPError (Some md) st
                end, None, w'))
  end.

(** A method in process, with a stream of its own for the metadata. *)
Definition in_process {T A} (m : ictx → T → local (W:=W) A) (c : ictx) (t : T) (w : W)
    : (A + Status) * ServerMetadata * W :=
  let '(ans, (stream, w')) := m c t (new_stream, w) in
  (ans, mkMetadata (ts_Header stream) (ts_Trailer stream), w').

Lemma metadata_Join_nil (md : MD) : metadata_Join ∅ md = md.
Proof. apply map_eq. intros i. unfold metadata_Join. rewrite lookup_union_with, lookup_empty. by destruct (md !! i). Qed.

Lemma client_calls {T A} `{!Message T} rpcMethod path (wrap : A → proto_Message)
    (call : ctx → T → rpc (W:=W) A) r params w :
  calls_method (AnnotateContext r rpcMethod path) wrap call r w
    (client rpcMethod path (λ c, unary marshaler wrap (call c)) r params w).
Proof.
  unfold calls_method, client_handler. destruct (AnnotateContext r rpcMethod path) as [c|st]; [|done].
  unfold unary. split.
  - intros e Hb. by rewrite (decode_bad r e Hb).
  - intros m Hm. rewrite (decode_is r m Hm). by destruct (call c m w) as [[[a|st] md] w'].
Qed.

Lemma server_calls {T A} `{!Message T} rpcMethod path (wrap : A → proto_Message)
    (m : ictx → T → local (W:=W) A) r params w :
  calls_method (AnnotateIncomingContext r rpcMethod path) wrap (in_process m) r w
    (server rpcMethod path (λ c, local_unary marshaler wrap (m c)) r params w).
Proof.
  unfold calls_method, server_handler. destruct (AnnotateIncomingContext r rpcMethod path) as [c|st]; [|done].
  unfold local_unary. split.
  - intros e Hb. rewrite (decode_bad r e Hb). cbn [new_stream ts_Header ts_Trailer HeaderMD TrailerMD no_metadata].
    by rewrite !metadata_Join_nil.
  - intros t Ht. rewrite (decode_is r t Ht). unfold in_process. destruct (m c t (new_stream, w)) as [[a|st] [[hd tr] w']];
      cbn [ts_Header ts_Trailer HeaderMD TrailerMD no_metadata]; by rewrite !metadata_Join_nil.
Qed.

(** What the .proto files say of a path: the method called there, with its messages. *)
Definition client_method (path : string) (r : grequest) (w : W) out : Prop :=
  (path = "/v1/kv" → calls_method (AnnotateContext r "/proto.KV/Put" path) MKVPutReply (KVClient_Put kvc) r w out) ∧
  (path = "/range" → calls_method (AnnotateContext r "/proto.KeyValueService/Range" path) MRangeResponse
     (KeyValueServiceClient_Range kvsc) r w out) ∧
  (path = "/put" → calls_method (AnnotateContext r "/proto.KeyValueService/Put" path) MPutResponse
     (KeyValueServiceClient_Put kvsc) r w out) ∧
  (path = "/deleterange" → calls_method (AnnotateContext r "/proto.KeyValueService/DeleteRange" path)
     MDeleteRangeResponse (KeyValueServiceClient_DeleteRange kvsc) r w out).
Definition server_method (path : string) (r : grequest) (w : W) out : Prop :=
  (path = "/v1/kv" → calls_method (AnnotateIncomingContext r "/proto.KV/Put" path) MKVPutReply
     (in_process (KVServer_Put kvd)) r w out) ∧
  (path = "/range" → calls_method (AnnotateIncomingContext r "/proto.KeyValueService/Range" path) MRangeResponse
     (in_process (KeyValueServiceServer_Range kvsd)) r w out) ∧
  (path = "/put" → calls_method (AnnotateIncomingContext r "/proto.KeyValueService/Put" path) MPutResponse
     (in_process (KeyValueServiceServer_Put kvsd)) r w out) ∧
  (path = "/deleterange" → calls_method (AnnotateIncomingContext r "/proto.KeyValueService/DeleteRange" path)
     MDeleteRangeResponse (in_process (KeyValueServiceServer_DeleteRange kvsd)) r w out).

(** C31. A POST to one of the unary endpoints, with the services registered in any order:
    exactly one handler is called.  It calls the method the .proto files give for the path
    exactly once, with the message the body decodes to, and forwards its answer with the
    metadata it sent, or its status; a body that cannot be read or decoded is answered with
    the status InvalidArgument, which is 400, and a request without a context with the
    status of that, both without calling the service.  With clients the method is that of
    the client; in process it is that of the server, which sets its metadata on a new
    stream. *)
Theorem gateway_unary ToUpper ParseForm order r regs method w :
  (regs ≡ₚ client_registrations ∧ method = client_method) ∨ (regs ≡ₚ server_registrations ∧ method = server_method) →
  (∀ m, order m ≡ₚ map_to_list m) → g_Method r = "POST"%string → g_Path r ∈ ["/v1/kv"; "/range"; "/put"; "/deleterange"]%string →
  g_Header r "X-HTTP-Method-Override" = "" ∨ g_Header r "Content-Type" ≠ "application/x-www-form-urlencoded" →
  HTTPStatusFromCode CInvalidArgument = StatusBadRequest ∧
  ∃ h : handler, mux_ServeHTTP ToUpper ParseForm order (register_all regs) r = Ret [Handled h r ∅] ∧
    method (g_Path r) r w (h r ∅ w).
Proof.
  intros Hregs Hord Hpost Hpath Hno. split; [done|].
  assert (∃ eps (h : handler), mux_ServeHTTP ToUpper ParseForm order (register_all regs) r = Ret [answer eps r] ∧
    eps !! g_Path r = Some h ∧ method (g_Path r) r w (h r ∅ w)) as (eps & h & E & Hh & Hm).
  { destruct Hregs as [[Hp ->]|[Hp ->]]; [exists client_endpoints|exists server_endpoints];
      rewrite !elem_of_cons, elem_of_nil in Hpath; destruct Hpath as [Ep|[Ep|[Ep|[Ep|[]]]]]; rewrite Ep;
      eexists; (split; [apply registrations_serve; tauto|]); (split; [done|]);
      (split_and!; [..|done|done|done] || split_and!); intros [=];
      first [apply (client_calls (T:=KVPutRequest))|apply (client_calls (T:=RangeRequest))|apply (client_calls (T:=PutRequest))
            |apply (client_calls (T:=DeleteRangeRequest))|apply (server_calls (T:=KVPutRequest))|apply (server_calls (T:=RangeRequest))
            |apply (server_calls (T:=PutRequest))|apply (server_calls (T:=DeleteRangeRequest))]. }
  exists h. split; [|done]. rewrite E. unfold answer. rewrite Hh, bool_decide_true by done.
  rewrite !elem_of_cons, elem_of_nil in Hpath. by destruct Hpath as [->|[->|[->|[->|[]]]]].
Qed.
End services.

(** * Sending *)

(** What can be seen of a stream: the messages sent, and how often it was closed. *)
Record StreamLaws {W} (stream : WatchClientStream W) (log : W → list WatchRequest) (closes : W → nat) : Prop := {
  sl_sent : ∀ m w w', ws_Send stream m w = (None, w') → log w' = log w ++ [m] ∧ closes w' = closes w;
  sl_failed : ∀ m w e w', ws_Send stream m w = (Some e, w') → log w' = log w ∧ closes w' = closes w;
  sl_closed : ∀ w, log (ws_CloseSend stream w).2 = log w ∧ closes (ws_CloseSend stream w).2 = S (closes w);
}.

(** The sender in between other code: [None] is its turn. *)
Fixpoint interleave {W} {marshaler : Marshaler} (stream : WatchClientStream W) (turns : list (option (W → W)))
    (s : sender marshaler) (w : W) : sender marshaler * W :=
  match turns with
  | [] => (s, w)
  | Some f :: turns' => interleave stream turns' s (f w)
  | None :: turns' => let '(s', w') := send_step marshaler stream s w in interleave stream turns' s' w'
  end.

Fixpoint own_turns {W} (turns : list (option (W → W))) : nat :=
  match turns with
  | [] => 0
  | None :: turns' => S (own_turns turns')
  | Some _ :: turns' => own_turns turns'
  end.

(** The messages a decoder still gives, up to the error that ends them. *)
Inductive holds {marshaler : Marshaler} : Decoder marshaler → list WatchRequest → Prop :=
  | holds_end dec m e dec' : Decode marshaler WatchRequest _ dec = (m, Some e, dec') → holds dec []
  | holds_next dec m dec' ms :
      Decode marshaler WatchRequest _ dec = (m, None, dec') → holds dec' ms → holds dec (m :: ms).

Section sending.
Context {W : Type} {marshaler : Marshaler}.
Context (stream : WatchClientStream W) (log : W → list WatchRequest) (closes : W → nat).
Context (L : StreamLaws stream log closes).

(** Code that leaves the sending side alone. *)
Definition elsewhere (t : option (W → W)) : Prop :=
  match t with Some f => ∀ w, log (f w) = log w ∧ closes (f w) = closes w | None => True end.

(** What the sender has yet to do: messages to send, and the stream to close. *)
Definition left_over (s : sender marshaler) (ms : list WatchRequest) : Prop :=
  match s with Sending _ dec => holds dec ms | _ => ms = [] end.
Definition to_close (s : sender marshaler) : nat := match s with Sent _ => 0 | _ => 1 end.
Definition turns_left (s : sender marshaler) (ms : list WatchRequest) : nat :=
  match s with Sending _ _ => length ms + 2 | Closing _ => 1 | Sent _ => 0 end.

(** In this run, from [s] and [w], the sending of [m] fails. *)
Definition send_fails (turns : list (option (W → W))) (s : sender marshaler) (w : W) (m : WatchRequest) : Prop :=
  ∃ turns1 turns2 dec dec' w' e, turns = turns1 ++ None :: turns2 ∧
    interleave stream turns1 s w = (Sending _ dec, w') ∧
    Decode marshaler WatchRequest _ dec = (m, None, dec') ∧ (ws_Send stream m w').1 = Some e.

Lemma send_fails_later t turns s w s' w' m :
  interleave stream [t] s w = (s', w') → send_fails turns s' w' m → send_fails (t :: turns) s w m.
Proof.
  intros Et (t1 & t2 & dec & dec' & w1 & e & -> & E & Hd & Hs).
  exists (t :: t1), t2, dec, dec', w1, e. split_and!; [done| |done|done]. destruct t as [f|]; simpl in *; [by simplify_eq|].
  destruct (send_step marshaler stream s w). by simplify_eq.
Qed.

Lemma sender_ends turns : ∀ s w ms,
  Forall elsewhere turns → left_over s ms → (turns_left s ms ≤ own_turns turns)%nat →
  ∃ w' k, interleave stream turns s w = (Sent _, w') ∧
    log w' = log w ++ take k ms ∧ closes w' = (closes w + to_close s)%nat ∧
    (k ≤ length ms)%nat ∧ (∀ m, ms !! k = Some m → send_fails turns s w m).
Proof.
  induction turns as [|t turns IH]; intros s w ms HF Hms Hle; simpl in Hle.
  { exists w, 0%nat. destruct s as [dec| |]; simpl in *; [lia|lia|]. subst ms. rewrite app_nil_r. by split_and!. }
  apply Forall_cons in HF as [Ht HF].
  assert (∀ s' w' ms', interleave stream [t] s w = (s', w') → log w' = log w ∧ closes w' + to_close s' = closes w + to_close s →
    left_over s' ms' → (turns_left s' ms' ≤ own_turns turns)%nat →
    ∃ w'' k, interleave stream (t :: turns) s w = (Sent _, w'') ∧ log w'' = log w ++ take k ms' ∧
      closes w'' = (closes w + to_close s)%nat ∧ (k ≤ length ms')%nat ∧
      ∀ m, ms' !! k = Some m → send_fails (t :: turns) s w m)%nat as Hgo.
  { intros s' w' ms' Et [El Ec] Hms' Hle'. destruct (IH s' w' ms' HF Hms' Hle') as (w'' & k & E & El' & Ec' & Hk & Hf).
    exists w'', k. rewrite El in El'. split_and!; [|done|lia|done|].
    - destruct t as [f|]; simpl in Et |- *; [by simplify_eq|]. destruct (send_step marshaler stream s w). by simplify_eq.
    - intros m Hm. by eapply send_fails_later; [exact Et|apply Hf]. }
  destruct t as [f|]; [by apply (Hgo s (f w) ms eq_refl); [destruct (Ht w) as [-> ->]|..]|].
  destruct s as [dec| |]; simpl in Hms, Hle.
  - destruct Hms as [dec m e dec' Ed|dec m dec' ms Ed Hms].
    { apply (Hgo (Closing _) w []); simpl; [by rewrite Ed|done|done|simpl in Hle; lia]. }
    destruct (ws_Send stream m w) as [[err|] w1] eqn:Es.
    + destruct (sl_failed _ _ _ L _ _ _ _ Es) as [E1 E2].
      destruct (Hgo (Closing _) w1 []) as (w' & k & E & El & Ec & Hk & _);
        [simpl; by rewrite Ed, Es|simpl; by rewrite E2|done|simpl; lia|].
      exists w', 0%nat. rewrite firstn_nil in El. split_and!; [done|done|done|lia|].
      intros m' [= <-]. exists [], turns, dec, dec', w, err. split_and!; [done|done|done|by rewrite Es].
    + destruct (sl_sent _ _ _ L _ _ _ Es) as [E1 E2].
      destruct (IH (Sending _ dec') w1 ms HF Hms) as (w' & k & E & El & Ec & Hk & Hf); [simpl in *; lia|].
      exists w', (S k). rewrite E1, <- app_assoc in El. rewrite E2 in Ec. split_and!; [|done|done|simpl; lia|].
      * simpl. by rewrite Ed, Es.
      * intros m' Hm'. eapply send_fails_later; [simpl; by rewrite Ed, Es|by apply Hf].
  - pose proof (sl_closed _ _ _ L w) as [E1 E2]. destruct (ws_CloseSend stream w) as [r w1] eqn:Ec. simpl in E1, E2.
    apply (Hgo (Sent _) w1 ms); simpl; [by rewrite Ec|split; [done|lia]|done|lia].
  - by apply (Hgo (Sent _) w ms); simpl; [done|done|done|lia].
Qed.
End sending.

(** C32. The goroutine of a watch request, however it runs in between other code that leaves
    the sending side alone, when the body holds the messages [ms] before the error or the
    end of file that the decoder, which reads them one after another, runs into: it ends
    after at most two turns more than there are messages, has then sent the first [k] of
    them in their order and nothing else, and has closed the stream exactly once; and when
    [k] is not all of them, it is because in this very run the sending of the next one
    failed. *)
Theorem watch_sends {W ctx} (marshaler : Marshaler) (client : WatchServiceClient (W:=W) (ctx:=ctx)) c r w
    stream resp md snd w1 log closes ms turns :
  request_WatchService_Watch_0 marshaler client c r w = (resp, md, Some (stream, snd), w1) →
  StreamLaws stream log closes → Forall (elsewhere log closes) turns →
  holds (NewDecoder marshaler (g_Body r)) ms → (length ms + 2 ≤ own_turns turns)%nat →
  ∃ w2 k, interleave stream turns snd w1 = (Sent _, w2) ∧ log w2 = log w1 ++ take k ms ∧
    closes w2 = S (closes w1) ∧ (k ≤ length ms)%nat ∧
    ∀ m, ms !! k = Some m → send_fails stream turns snd w1 m.
Proof.
  intros E L HF Hms Hle. unfold request_WatchService_Watch_0 in E.
  assert (snd = Sending _ (NewDecoder marshaler (g_Body r))) as ->.
  { destruct (Watch client c w) as [[st|st] w']; [|done]. by destruct (ws_Header st w') as [[?|?] ?]; simplify_eq. }
  destruct (sender_ends stream log closes L turns (Sending _ (NewDecoder marshaler (g_Body r))) w1 ms HF Hms Hle) as (w2 & k & E2 & El & Ec & Hk).
  exists w2, k. simpl in Ec. split_and!; [done|done|lia|apply Hk|apply Hk].
Qed.

(** * Services to try the gateway on *)

(** The decoder is what is left of the body, and every byte of it is a message; "!" is
    malformed. *)
Definition demo_marshaler : Marshaler := mkMarshaler (string + error) id
  (λ T M d, match d with
            | inr e => (@zero T M, Some (DecodeError e), d)
            | inl EmptyString => (@zero T M, Some io_EOF, d)
            | inl (String c b) =>
                if bool_decide (c = "!"%char) then (@zero T M, Some (DecodeError "malformed"), d)
                else (@zero T M, None, inl b)
            end).

(** The state is the watch requests sent and how often the stream was closed; the stream
    takes one message. *)
Definition demo_state : Type := list WatchRequest * nat.

Definition demo_rpc {A} (a : A) : rpc (W:=demo_state) A := λ w,
  (inl a, mkMetadata {[ "served" := ["yes"] ]}%string ∅, w).
Definition demo_KV : KVClient := mkKVClient (λ (c : string) q, demo_rpc (mkKVPutReply (c +:+ kp_Name q))).
Definition demo_KeyValue : KeyValueServiceClient := mkKeyValueServiceClient
  (λ (c : string) q, demo_rpc (mkRangeResponse [])) (λ c q, demo_rpc (mkPutResponse None))
  (λ c q, demo_rpc (mkDeleteRangeResponse 0)).
Definition demo_local {A} (a : A) : local (W:=demo_state) A := λ s, (inl a, s).
Definition demo_KVServer : KVServer := mkKVServer (λ (c : string) q, demo_local (mkKVPutReply (c +:+ kp_Name q))).
Definition demo_KeyValueServer : KeyValueServiceServer := mkKeyValueServiceServer
  (λ (c : string) q, demo_local (mkRangeResponse [])) (λ c q, demo_local (mkPutResponse None))
  (λ c q, demo_local (mkDeleteRangeResponse 0)).
Definition demo_stream : WatchClientStream demo_state := mkStream
  (λ m w, match w.1 with [] => (None, ([m], w.2)) | _ => (Some "full"%string, w) end)
  (λ w, (None, (w.1, S w.2))) (λ w, (inl ∅, w)) (λ w, (inr io_EOF, w)).
Definition demo_Watch : WatchServiceClient := mkWatchServiceClient (λ (c : string) w, (inl demo_stream, w)).
Definition demo_context (r : grequest) (rpcMethod path : string) : string + Status := inl rpcMethod.

Definition demo_request (method path b : string) : grequest :=
  mkGRequest method path "" (λ _, ""%string) (inl b).

Lemma demo_stream_laws : StreamLaws demo_stream fst snd.
Proof.
  split; [intros m [[|x l] n] w'|intros m [[|x l] n] e w'|done]; simpl; intros E; by simplify_eq/=.
Qed.

Lemma gateway_routes_witness :
  mux_ServeHTTP id inl map_to_list
    (register_all (client_registrations demo_marshaler demo_context demo_KV demo_KeyValue demo_Watch))
    (demo_request "GET" "/range" "") = Ret [Routing StatusMethodNotAllowed].
Proof.
  apply (gateway_routes demo_marshaler demo_context demo_context demo_KV demo_KeyValue demo_KVServer demo_KeyValueServer
    demo_Watch id inl map_to_list
    (client_registrations demo_marshaler demo_context demo_KV demo_KeyValue demo_Watch)
    (client_endpoints demo_marshaler demo_context demo_KV demo_KeyValue demo_Watch) (demo_request "GET" "/range" ""));
    [by left|done|by left].
Defined.

Lemma gateway_unary_witness :
  bad_body demo_marshaler KVPutRequest (demo_request "POST" "/v1/kv" "!") "malformed" ∧
  body_is demo_marshaler KVPutRequest (demo_request "POST" "/v1/kv" "x") (mkKVPutRequest "" "") ∧
  HTTPStatusFromCode CInvalidArgument = StatusBadRequest ∧
  ∃ h : HandlerFunc demo_state demo_marshaler,
    mux_ServeHTTP id inl map_to_list
      (register_all (server_registrations demo_marshaler demo_context demo_KVServer demo_KeyValueServer))
      (demo_request "POST" "/v1/kv" "x") = Ret [Handled h (demo_request "POST" "/v1/kv" "x") ∅] ∧
    server_method demo_marshaler demo_context demo_KVServer demo_KeyValueServer
      "/v1/kv" (demo_request "POST" "/v1/kv" "x") ([], 0%nat) (h (demo_request "POST" "/v1/kv" "x") ∅ ([], 0%nat)).
Proof.
  split; [right; by eexists _, _, _|]. split; [eexists _, _, _; split; [done|split; [done|by left]]|].
  apply (gateway_unary demo_marshaler demo_context demo_context demo_KV demo_KeyValue demo_KVServer demo_KeyValueServer
    demo_Watch id inl map_to_list (demo_request "POST" "/v1/kv" "x")
    (server_registrations demo_marshaler demo_context demo_KVServer demo_KeyValueServer)
    (server_method demo_marshaler demo_context demo_KVServer demo_KeyValueServer) ([], 0%nat));
    [by right|done|done|by left|by left].
Defined.

(** A body with two messages, on a stream that takes one. *)
Lemma watch_sends_witness :
  ∃ w2 k, interleave demo_stream [None; Some id; None; None; None] (Sending demo_marshaler (inl "ab"%string)) ([], 0%nat) = (Sent _, w2) ∧
    w2.1 = [] ++ take k [NoRequest; NoRequest] ∧ w2.2 = 1%nat ∧ (k ≤ 2)%nat ∧
    ∀ m, [NoRequest; NoRequest] !! k = Some m →
      send_fails demo_stream [None; Some id; None; None; None] (Sending demo_marshaler (inl "ab"%string)) ([], 0%nat) m.
Proof.
  apply (watch_sends demo_marshaler demo_Watch "c" (demo_request "POST" "/watch" "ab") ([], 0%nat)
    demo_stream (inl demo_stream) (mkMetadata ∅ ∅) (Sending demo_marshaler (inl "ab"%string)) ([], 0%nat) fst snd
    [NoRequest; NoRequest] [None; Some id; None; None; None]).
  - done.
  - apply demo_stream_laws.
  - by repeat constructor.
  - by repeat econstructor.
  - simpl. lia.
Defined.
