(* ===== verification/Database.v ===== *)
(** The storage backends: src/pkg/database.

    [Database] is the Go interface as the sum of its implementations; a method is a
    function by cases.  The package variables ([memDatabases], [Storages], [pools],
    [initOnce], and the configuration it reads) and the objects the backends share
    are the fields of [dbworld]; a Go map is a location of the heap [maps], so two
    handles on the same map see each other's writes.  The redis client library is
    the class [Redigo]; [RedigoLaws] is what its documentation and the redis command
    reference promise of a server that is up.

    [StoreLaws] is what a backend promises to the layers above: a store is opened by
    name, a write changes that name's contents at that key and nothing else, a
    handle stays good.  The memory and the redis backends have instances. *)
From Stdlib Require Import Ascii.
From stdpp Require Import base gmap list strings pretty relations.
From S2P Require Import Prelude GoStd Hashing Config.

Open Scope Z_scope.

(** * The redis client library *)

(** A reply of [conn.Do], an [interface{}] in Go. *)
Inductive reply :=
  | NilReply
  | StatusReply (s : string)
  | ErrorReply (s : string)
  | IntReply (n : Z)
  | BulkReply (s : string)
  | ArrayReply (l : list reply).

(** [fmt.Sprintf("%s", x)] for the replies inside an array and at top level. *)
Fixpoint fmt_elem (r : reply) : string :=
  match r with
  | NilReply => "<nil>"
  | StatusReply s | ErrorReply s | BulkReply s => s
  | IntReply n => "%!s(int64=" +:+ pretty n +:+ ")"
  | ArrayReply l => fmt_strings (fmt_elem <$> l)
  end.
Definition fmt_reply (r : reply) : string :=
  match r with NilReply => "%!s(<nil>)" | _ => fmt_elem r end.

Class Redigo := {
  net : Type;
  conn : Type;
  redis_Dial : string → net → (conn + error) * net;
  conn_Do : conn → list string → net → (reply + error) * net;
  conn_Close : conn → net → unit * net;
  pool_Close : string → net → outcome unit * net;
}.

(** * Data *)

Record MemDatabase := mkMemDatabase { mem_Name : string; mem_db : nat; wLatency : Z }.

(** [dummyDatabase] and [latencyDatabase] are values; [RedisDatabase] is a pointer to
    an object of the heap [redis_objs]. *)
Inductive Database :=
  | memDatabase (md : MemDatabase)
  | dummyDatabase
  | latencyDatabase (backend : Database) (latency : Z)
  | redisDatabase (rd : nat).

Record Pool := mkPool { pool_url : string; MaxIdle : Z; MaxActive : Z }.
Record RedisDatabase := mkRedisDatabase { client : option Pool; rd_latency : Z }.

Record dbworld `{Redigo} := mkWorld {
  maps : list (gmap string string);
  memDatabases : gmap string MemDatabase;
  redis_objs : list RedisDatabase;
  Storages : gmap string Database;
  RKVConfig : option KVConfiguration;
  pools : gmap string Pool;
  initOnce : bool;
  network : net;
  slept : Z;
}.

Definition DatabaseNotImplementedError (database : string) : error :=
  database +:+ " not implemented".
Definition CreateDatabaseError : error := "Failed to create database".

Definition second : Z := 1000000000.
Definition RedisRetryCount : Z := 5.
Definition RedisRetryInterval : Z := 10 * millisecond.

Definition nil_deref : string := "invalid memory address or nil pointer dereference".

Section database.
Context `{Redigo}.

Definition set_maps (f : list (gmap string string) → list (gmap string string)) (w : dbworld)
    : dbworld :=
  mkWorld _ (f (maps w)) (memDatabases w) (redis_objs w) (Storages w) (RKVConfig w)
    (pools w) (initOnce w) (network w) (slept w).
Definition set_memDatabases (f : gmap string MemDatabase → gmap string MemDatabase)
    (w : dbworld) : dbworld :=
  mkWorld _ (maps w) (f (memDatabases w)) (redis_objs w) (Storages w) (RKVConfig w)
    (pools w) (initOnce w) (network w) (slept w).
Definition set_redis_objs (f : list RedisDatabase → list RedisDatabase) (w : dbworld) : dbworld :=
  mkWorld _ (maps w) (memDatabases w) (f (redis_objs w)) (Storages w) (RKVConfig w)
    (pools w) (initOnce w) (network w) (slept w).
Definition set_Storages (f : gmap string Database → gmap string Database) (w : dbworld)
    : dbworld :=
  mkWorld _ (maps w) (memDatabases w) (redis_objs w) (f (Storages w)) (RKVConfig w)
    (pools w) (initOnce w) (network w) (slept w).
Definition set_RKVConfig (c : KVConfiguration) (w : dbworld) : dbworld :=
  mkWorld _ (maps w) (memDatabases w) (redis_objs w) (Storages w) (Some c)
    (pools w) (initOnce w) (network w) (slept w).
Definition set_pools (f : gmap string Pool → gmap string Pool) (w : dbworld) : dbworld :=
  mkWorld _ (maps w) (memDatabases w) (redis_objs w) (Storages w) (RKVConfig w)
    (f (pools w)) (initOnce w) (network w) (slept w).
Definition set_initOnce (w : dbworld) : dbworld :=
  mkWorld _ (maps w) (memDatabases w) (redis_objs w) (Storages w) (RKVConfig w)
    (pools w) true (network w) (slept w).
Definition set_network (n : net) (w : dbworld) : dbworld :=
  mkWorld _ (maps w) (memDatabases w) (redis_objs w) (Storages w) (RKVConfig w)
    (pools w) (initOnce w) n (slept w).
Definition set_slept (d : Z) (w : dbworld) : dbworld :=
  mkWorld _ (maps w) (memDatabases w) (redis_objs w) (Storages w) (RKVConfig w)
    (pools w) (initOnce w) (network w) (slept w + d).

(** [time.Sleep(d)] returns at once when [d] is not positive. *)
Definition time_Sleep (d : Z) : M dbworld unit := λ w, (Ret tt, set_slept (Z.max 0 d) w).

Definition on_net {A} (f : net → A * net) : M dbworld A := λ w,
  let '(a, n) := f (network w) in (Ret a, set_network n w).

(** ** mem.go *)

Definition NewMemDatabase (name : string) : M dbworld Database := λ w,
  match memDatabases w !! name with
  | Some md => (Ret (memDatabase md), w)
  | None =>
      let md := mkMemDatabase name (length (maps w)) 1 in
      (Ret (memDatabase md),
       set_memDatabases (λ m, <[name := md]> m) (set_maps (λ h, h ++ [∅]) w))
  end.

Definition MemDatabase_Put (md : MemDatabase) (key value : string) : M dbworld string :=
  do! _ <- (if 0 <? wLatency md then time_Sleep (int64 (wLatency md * second)) else gret tt);
  λ w, match maps w !! mem_db md with
       | Some m => (Ret "", set_maps (λ h, <[mem_db md := <[key := value]> m]> h) w)
       | None => (Panic "assignment to entry in nil map", w)
       end.

Definition MemDatabase_Get (md : MemDatabase) (key : string) : M dbworld string := λ w,
  match maps w !! mem_db md ≫= lookup key with
  | Some val => (Ret val, w)
  | None => (Fail "key not found", w)
  end.

Definition MemDatabase_Delete (md : MemDatabase) (key : string) : M dbworld unit := λ w,
  (Ret tt, set_maps (alter (delete key) (mem_db md)) w).

Definition MemDatabase_Close (md : MemDatabase) : M dbworld unit := gret tt.
Definition MemDatabase_Latency (md : MemDatabase) : Z := 0.
Definition MemDatabase_SetLatency (md : MemDatabase) (latency : Z) : M dbworld unit := gret tt.

(** ** redis.go *)

Definition initPool (host : string) (port : Z) (w : dbworld) : string * Pool :=
  let url := host +:+ ":" +:+ pretty port in
  match pools w !! url with
  | Some pool => (url, pool)
  | None => (url, mkPool url 80 12000)
  end.

Fixpoint InitStorageInstancePool_loop (stores : list KVStore) (w : dbworld) : dbworld :=
  match stores with
  | [] => w
  | conf :: stores' =>
      let '(url, pool) := initPool (Host conf) (Port conf) w in
      InitStorageInstancePool_loop stores' (set_pools (λ m, <[url := pool]> m) w)
  end.

Definition InitStorageInstancePool (stores : list KVStore) (w : dbworld) : dbworld :=
  InitStorageInstancePool_loop stores (set_pools (λ _, ∅) w).

(** The [Dial] closure of a pool: [left] iterations remain of the retry loop. *)
Fixpoint Dial_loop (url : string) (left : nat) (retries : Z) (r : conn + error)
    : M dbworld (conn + error) :=
  match r, left with
  | inr err, S left' =>
      do! _ <- time_Sleep (Z.shiftl RedisRetryInterval retries);
      do! r1 <- on_net (redis_Dial url);
      match r1 with
      | inl c =>
          do! p <- on_net (conn_Do c ["PING"]);
          Dial_loop url left' (retries + 1)
            (match p with inl _ => inl c | inr e => inr e end)
      | inr e => Dial_loop url left' (retries + 1) (inr e)
      end
  | _, _ => gret r
  end.

Definition pool_Dial (pool : Pool) : M dbworld conn :=
  do! r <- on_net (redis_Dial (pool_url pool));
  do! r' <- Dial_loop (pool_url pool) (Z.to_nat RedisRetryCount) 0 r;
  match r' with inl c => gret c | inr e => gfail e end.

(** [initOnce.Do] marks itself done also when its function panics. *)
Definition createRedisDatabase (databaseUrl : string) : M dbworld Database := λ w,
  let init :=
    if initOnce w then (Ret tt, w)
    else match RKVConfig w with
         | None => (Panic nil_deref, set_initOnce w)
         | Some c => (Ret tt, set_initOnce (InitStorageInstancePool (Stores c) w))
         end in
  match init with
  | (Ret _, w') =>
      (Ret (redisDatabase (length (redis_objs w'))),
       set_redis_objs (λ l, l ++ [mkRedisDatabase (pools w' !! databaseUrl) 0]) w')
  | (Fail e, w') => (Fail e, w')
  | (Panic p, w') => (Panic p, w')
  end.

(** The pool behind the pointer; a nil pool is a nil dereference in every method. *)
Definition rd_pool (rd : nat) : M dbworld Pool := λ w,
  match redis_objs w !! rd ≫= client with
  | Some pool => (Ret pool, w)
  | None => (Panic nil_deref, w)
  end.

(** One command on a fresh connection, closed on return. *)
Definition rd_Do (rd : nat) (args : list string) : M dbworld reply :=
  do! pool <- rd_pool rd;
  do! c <- pool_Dial pool;
  do! r <- on_net (conn_Do c args);
  do! _ <- on_net (conn_Close c);
  match r with inl ret => gret ret | inr e => gfail e end.

Definition RedisDatabase_Put (rd : nat) (key value : string) : M dbworld string :=
  do! ret <- rd_Do rd ["Set"; key; value];
  gret (fmt_reply ret).

Definition RedisDatabase_Get (rd : nat) (key : string) : M dbworld string :=
  do! resp <- rd_Do rd ["Get"; key];
  gret (fmt_reply resp).

Definition RedisDatabase_Delete (rd : nat) (key : string) : M dbworld unit :=
  do! _ <- rd_Do rd ["Del"; key];
  gret tt.

Definition RedisDatabase_Close (rd : nat) : M dbworld unit :=
  do! pool <- rd_pool rd;
  do! r <- on_net (pool_Close (pool_url pool));
  glift r.

Definition RedisDatabase_Latency (rd : nat) (w : dbworld) : Z :=
  default 0 (rd_latency <$> redis_objs w !! rd).

Definition RedisDatabase_SetLatency (rd : nat) (latency : Z) : M dbworld unit := λ w,
  (Ret tt, set_redis_objs (alter (λ o, mkRedisDatabase (client o) latency) rd) w).

(** ** The interface *)

Fixpoint Database_Put (d : Database) (key value : string) : M dbworld string :=
  match d with
  | memDatabase md => MemDatabase_Put md key value
  | dummyDatabase => gret "dummy put accepted"
  | latencyDatabase backend latency =>
      do! _ <- time_Sleep latency; Database_Put backend key value
  | redisDatabase rd => RedisDatabase_Put rd key value
  end.

Fixpoint Database_Get (d : Database) (key : string) : M dbworld string :=
  match d with
  | memDatabase md => MemDatabase_Get md key
  | dummyDatabase => gret ("dummy value for key " +:+ key)
  | latencyDatabase backend latency =>
      do! _ <- time_Sleep latency; Database_Get backend key
  | redisDatabase rd => RedisDatabase_Get rd key
  end.

Fixpoint Database_Delete (d : Database) (key : string) : M dbworld unit :=
  match d with
  | memDatabase md => MemDatabase_Delete md key
  | dummyDatabase => gret tt
  | latencyDatabase backend latency =>
      do! _ <- time_Sleep latency; Database_Delete backend key
  | redisDatabase rd => RedisDatabase_Delete rd key
  end.

Fixpoint Database_Close (d : Database) : M dbworld unit :=
  match d with
  | memDatabase md => MemDatabase_Close md
  | dummyDatabase => gret tt
  | latencyDatabase backend _ => Database_Close backend
  | redisDatabase rd => RedisDatabase_Close rd
  end.

Definition Database_Latency (d : Database) (w : dbworld) : Z :=
  match d with
  | memDatabase md => MemDatabase_Latency md
  | dummyDatabase => 0
  | latencyDatabase _ latency => latency
  | redisDatabase rd => RedisDatabase_Latency rd w
  end.

(** Only the redis backend has a pointer receiver: on the others the assignment is
    to a copy of the object. *)
Definition Database_SetLatency (d : Database) (latency : Z) : M dbworld unit :=
  match d with
  | memDatabase md => MemDatabase_SetLatency md latency
  | dummyDatabase => gret tt
  | latencyDatabase _ _ => gret tt
  | redisDatabase rd => RedisDatabase_SetLatency rd latency
  end.

Definition newDummyDatabase : Database := dummyDatabase.
Definition newLatencyDummyDatabase (latency : Z) : Database :=
  latencyDatabase newDummyDatabase latency.

(** ** database.go *)

Definition Factory_database (databaseType : string) (store : KVStore) : M dbworld Database :=
  if bool_decide (databaseType = Redis) then createRedisDatabase (store_url store)
  else if bool_decide (databaseType = Memory) then NewMemDatabase (store_url store)
  else if bool_decide (databaseType = DummyLatency) then
    gret (newLatencyDummyDatabase (int64 (ArtificialLatencyInMs store * millisecond)))
  else gfail (DatabaseNotImplementedError databaseType).

Definition FactoryWithNameAndLatency (databaseType name : string) (latency : Z)
    : M dbworld Database :=
  if bool_decide (databaseType = Redis) then createRedisDatabase name
  else if bool_decide (databaseType = Memory) then NewMemDatabase name
  else if bool_decide (databaseType = DummyLatency) then
    λ w, match Storages w !! name with
         | Some db => (Ret db, w)
         | None => (Ret (newLatencyDummyDatabase latency), w)
         end
  else gfail (DatabaseNotImplementedError databaseType).
End database.

(** * What a backend promises *)

(** A redis server that is up accepts connections and runs [Set], [Get] and [Del] on
    its own key space. *)
Class RedigoLaws {R : Redigo} := {
  net_up : net → string → Prop;
  net_data : net → string → gmap string string;
  conn_open : net → conn → string → Prop;
  net_same (n n' : net) :=
    (∀ url, net_up n url → net_up n' url) ∧ (∀ url, net_data n' url = net_data n url);
  Dial_up n url :
    net_up n url →
    ∃ c n', redis_Dial url n = (inl c, n') ∧ conn_open n' c url ∧ net_same n n';
  Do_Set n c url k v :
    net_up n url → conn_open n c url →
    ∃ n', conn_Do c ["Set"; k; v] n = (inl (StatusReply "OK"), n') ∧
      (∀ u, net_up n u → net_up n' u) ∧
      net_data n' url = <[k := v]> (net_data n url) ∧
      (∀ u, u ≠ url → net_data n' u = net_data n u);
  Do_Get n c url k :
    net_up n url → conn_open n c url →
    ∃ n', conn_Do c ["Get"; k] n =
      (inl (match net_data n url !! k with Some v => BulkReply v | None => NilReply end), n') ∧
      net_same n n';
  Do_Del n c url k :
    net_up n url → conn_open n c url →
    ∃ n' i, conn_Do c ["Del"; k] n = (inl (IntReply i), n') ∧
      (∀ u, net_up n u → net_up n' u) ∧
      net_data n' url = delete k (net_data n url) ∧
      (∀ u, u ≠ url → net_data n' u = net_data n u);
  Close_same n c : net_same n (conn_Close c n).2;
}.
Arguments RedigoLaws : clear implicits.

Section stores.
Context {R : Redigo}.

(** The laws of a store type [T]: [st_ok] the invariant of the package state,
    [st_name] the names that can be opened, [st_data] the contents behind a name,
    [st_refers] that a handle is on that name's store.  A step [st_evolves] when it
    keeps the invariant, the names and the handles. *)
Class StoreLaws (T : string) := {
  st_ok : dbworld → Prop;
  st_name : dbworld → string → Prop;
  st_data : dbworld → string → gmap string string;
  st_refers : dbworld → Database → string → Prop;
  st_absent : outcome string;
  st_evolves (w w' : dbworld) :=
    st_ok w' ∧ (∀ n, st_name w n → st_name w' n) ∧
    (∀ d n, st_refers w d n → st_refers w' d n);
  st_open w n lat :
    st_ok w → st_name w n →
    ∃ d w', FactoryWithNameAndLatency T n lat w = (Ret d, w') ∧ st_refers w' d n ∧
      st_evolves w w' ∧ (∀ m, st_data w' m = st_data w m);
  st_put w d n k v :
    st_ok w → st_refers w d n →
    ∃ s w', Database_Put d k v w = (Ret s, w') ∧ st_evolves w w' ∧
      st_data w' n = <[k := v]> (st_data w n) ∧
      (∀ m, m ≠ n → st_data w' m = st_data w m);
  st_get w d n k v :
    st_ok w → st_refers w d n → st_data w n !! k = Some v →
    ∃ w', Database_Get d k w = (Ret v, w') ∧ st_evolves w w' ∧
      (∀ m, st_data w' m = st_data w m);
  st_get_no_panic w d n k :
    st_ok w → st_refers w d n →
    no_panic (Database_Get d k w).1 ∧ st_evolves w (Database_Get d k w).2 ∧
      (∀ m, st_data (Database_Get d k w).2 m = st_data w m);
  st_get_absent w d n k :
    st_ok w → st_refers w d n → st_data w n !! k = None → (Database_Get d k w).1 = st_absent;
  st_delete w d n k :
    st_ok w → st_refers w d n →
    ∃ w', Database_Delete d k w = (Ret tt, w') ∧ st_evolves w w' ∧
      st_data w' n = delete k (st_data w n) ∧
      (∀ m, m ≠ n → st_data w' m = st_data w m);
  st_create w s :
    st_ok w → st_name w (store_url s) →
    ∃ d w', Factory_database T s w = (Ret d, w') ∧ st_evolves w w';
  st_register w f : st_ok w → st_evolves w (set_Storages f w);
}.
End stores.

(** ** The memory backend keeps the laws *)

Section mem.
Context {R : Redigo}.

(** The entries of [memDatabases] are on distinct maps of the heap. *)
Definition mem_ok (w : dbworld) : Prop :=
  (∀ n md, memDatabases w !! n = Some md → (mem_db md < length (maps w))%nat) ∧
  (∀ n m md md', memDatabases w !! n = Some md → memDatabases w !! m = Some md' →
     mem_db md = mem_db md' → n = m).

Definition mem_refers (w : dbworld) (d : Database) (n : string) : Prop :=
  ∃ md, d = memDatabase md ∧ memDatabases w !! n = Some md.

Definition mem_data (w : dbworld) (n : string) : gmap string string :=
  default ∅ (memDatabases w !! n ≫= λ md, maps w !! mem_db md).

Definition mem_evolves (w w' : dbworld) : Prop :=
  mem_ok w' ∧ (∀ _ : string, True → True) ∧
  (∀ d n, mem_refers w d n → mem_refers w' d n).

Lemma mem_open w n lat :
  mem_ok w → True →
  ∃ d w', FactoryWithNameAndLatency Memory n lat w = (Ret d, w') ∧ mem_refers w' d n ∧
    mem_evolves w w' ∧ (∀ m, mem_data w' m = mem_data w m).
Proof.
  intros Hok _. pose proof Hok as [Hlt Hinj].
  change (FactoryWithNameAndLatency Memory n lat) with (NewMemDatabase n).
  unfold NewMemDatabase.
  destruct (memDatabases w !! n) as [md|] eqn:E.
  { eexists _, _. split_and!; [done|by exists md|by split_and!|done]. }
  eexists _, _. split; [done|]. cbn [set_memDatabases set_maps].
  set (md := mkMemDatabase n (length (maps w)) 1).
  assert (∀ m md', memDatabases w !! m = Some md' → m ≠ n) as Hne by (intros; congruence).
  split_and!.
  - exists md. simpl. by rewrite lookup_insert_eq.
  - split_and!; [split; simpl| done |].
    + intros m md' [[<- <-]|[? Hm]]%lookup_insert_Some; rewrite length_app; simpl; [lia|].
      apply Hlt in Hm. lia.
    + intros m1 m2 md1 md2 [[<- <-]|[? H1]]%lookup_insert_Some
        [[<- <-]|[? H2]]%lookup_insert_Some; simpl; [done|..|by eauto].
      * apply Hlt in H2. lia.
      * apply Hlt in H1. lia.
    + intros d m (md' & -> & Hm). exists md'. split; [done|]. simpl.
      rewrite lookup_insert_ne; eauto using not_eq_sym.
  - intros m. unfold mem_data. simpl. destruct (decide (n = m)) as [<-|Hm].
    + rewrite lookup_insert_eq, E. simpl. by rewrite lookup_app_r, Nat.sub_diag by lia.
    + rewrite lookup_insert_ne by done.
      destruct (memDatabases w !! m) as [md'|] eqn:Em; [|done]. simpl.
      by rewrite lookup_app_l by eauto.
Qed.

(** A write to the map behind [n]. *)
Lemma mem_write w n md f :
  mem_ok w → memDatabases w !! n = Some md →
  mem_evolves w (set_maps (alter f (mem_db md)) w) ∧
  mem_data (set_maps (alter f (mem_db md)) w) n = f (mem_data w n) ∧
  (∀ m, m ≠ n → mem_data (set_maps (alter f (mem_db md)) w) m = mem_data w m).
Proof.
  intros [Hlt Hinj] Hn. split_and!.
  - split_and!; [split; simpl|done|done].
    + intros m md'. rewrite length_alter. apply Hlt.
    + apply Hinj.
  - unfold mem_data. simpl. rewrite Hn. simpl. rewrite list_lookup_alter_eq.
    destruct (lookup_lt_is_Some_2 (maps w) (mem_db md)) as [m ->]; [by eapply Hlt|done].
  - intros m Hm. unfold mem_data. simpl.
    destruct (memDatabases w !! m) as [md'|] eqn:Em; [|done]. simpl.
    rewrite list_lookup_alter_ne; [done|]. intros Heq. apply Hm. eauto using eq_sym.
Qed.

Lemma mem_slept w d : mem_ok w → mem_ok (set_slept d w).
Proof. done. Qed.

Lemma mem_put w d n k v :
  mem_ok w → mem_refers w d n →
  ∃ s w', Database_Put d k v w = (Ret s, w') ∧ mem_evolves w w' ∧
    mem_data w' n = <[k := v]> (mem_data w n) ∧
    (∀ m, m ≠ n → mem_data w' m = mem_data w m).
Proof.
  intros Hok (md & -> & Hn). pose proof Hok as [Hlt _]. simpl. unfold MemDatabase_Put, gbind.
  destruct (lookup_lt_is_Some_2 (maps w) (mem_db md)) as [m Hm]; [by eapply Hlt|].
  set (w1 := if 0 <? wLatency md
             then set_slept (Z.max 0 (int64 (wLatency md * second))) w else w).
  assert ((if 0 <? wLatency md then time_Sleep (int64 (wLatency md * second)) else gret tt) w
          = (Ret tt, w1)) as -> by (subst w1; by destruct (_ <? _)).
  assert (maps w1 = maps w ∧ memDatabases w1 = memDatabases w) as [Em Ed]
    by (subst w1; by destruct (_ <? _)).
  rewrite Em, Hm. eexists _, _. split; [done|].
  assert (mem_ok w1) as Hok1 by (subst w1; by destruct (_ <? _)).
  destruct (mem_write w1 n md (λ m, <[k := v]> m) Hok1) as (H1 & H2 & H3); [by rewrite Ed|].
  assert (set_maps (λ h, <[mem_db md := <[k := v]> m]> h) w1
          = set_maps (alter (λ m, <[k := v]> m) (mem_db md)) w1) as ->.
  { unfold set_maps. f_equal. rewrite Em. apply list_eq. intros i.
    destruct (decide (i = mem_db md)) as [->|Hi].
    - rewrite list_lookup_insert_eq, list_lookup_alter_eq, Hm by (by eapply Hlt). done.
    - by rewrite list_lookup_insert_ne, list_lookup_alter_ne. }
  assert (∀ m, mem_data w1 m = mem_data w m) as Hd
    by (intros; unfold mem_data; by rewrite Em, Ed).
  rewrite <- Hd. split_and!; [|done|by intros; rewrite <- Hd; auto].
  destruct H1 as (? & ? & Hr). split_and!; [done..|]. intros d' m' (md' & -> & Hm').
  apply Hr. exists md'. by rewrite Ed.
Qed.

Lemma mem_get w d n k :
  mem_refers w d n →
  Database_Get d k w =
    (match mem_data w n !! k with Some v => Ret v | None => Fail "key not found" end, w).
Proof.
  intros (md & -> & Hn). simpl. unfold MemDatabase_Get, mem_data. rewrite Hn. simpl.
  destruct (maps w !! mem_db md) as [m|]; simpl; [by destruct (m !! k)|done].
Qed.

#[global, refine] Instance mem_StoreLaws : StoreLaws Memory := {|
  st_ok := mem_ok;
  st_name _ _ := True;
  st_data := mem_data;
  st_refers := mem_refers;
  st_absent := Fail "key not found";
  st_open := mem_open;
  st_put := mem_put;
|}.
Proof.
  - intros w d n k v Hok Hr Hk. rewrite (mem_get w d n) by done. rewrite Hk.
    by exists w.
  - intros w d n k Hok Hr. rewrite (mem_get w d n) by done. simpl.
    by destruct (_ !! k).
  - intros w d n k Hok Hr Hk. rewrite (mem_get w d n) by done. by rewrite Hk.
  - intros w d n k Hok (md & -> & Hn). eexists. split; [done|].
    destruct (mem_write w n md (delete k) Hok Hn) as (? & ? & ?). done.
  - intros w s Hok _. destruct (mem_open w (store_url s) 0 Hok I) as (d & w' & E & _ & He & _).
    by exists d, w'.
  - intros w f Hok. by split_and!.
Defined.
End mem.

(** ** The redis backend keeps the laws *)

Section redis.
Context {R : Redigo} {L : RedigoLaws R}.

(** Once the pools are set up, each is for its own address. *)
Definition redis_ok (w : dbworld) : Prop :=
  if initOnce w then ∀ n p, pools w !! n = Some p → pool_url p = n
  else is_Some (RKVConfig w).

(** A configured address whose server is up. *)
Definition redis_name (w : dbworld) (n : string) : Prop :=
  net_up (network w) n ∧
  if initOnce w then is_Some (pools w !! n)
  else ∃ c, RKVConfig w = Some c ∧ n ∈ store_url <$> Stores c.

Definition redis_data (w : dbworld) (n : string) : gmap string string :=
  net_data (network w) n.

Definition redis_refers (w : dbworld) (d : Database) (n : string) : Prop :=
  ∃ rd p lat, d = redisDatabase rd ∧ redis_objs w !! rd = Some (mkRedisDatabase (Some p) lat) ∧
    pool_url p = n ∧ net_up (network w) n.

Definition redis_evolves (w w' : dbworld) : Prop :=
  redis_ok w' ∧ (∀ n, redis_name w n → redis_name w' n) ∧
  (∀ d n, redis_refers w d n → redis_refers w' d n).

Lemma InitStorageInstancePool_pools stores w :
  (∀ n p, pools w !! n = Some p → pool_url p = n) →
  let w' := InitStorageInstancePool_loop stores w in
  (∀ n p, pools w' !! n = Some p → pool_url p = n) ∧
  (∀ n, is_Some (pools w' !! n) ↔ is_Some (pools w !! n) ∨ n ∈ store_url <$> stores) ∧
  ∃ ps, w' = set_pools (λ _, ps) w.
Proof.
  revert w. induction stores as [|conf stores IH]; intros w Hw.
  { simpl. split_and!; [done| |by exists (pools w); destruct w].
    intros n. split; [by left|]. intros [?|[]%elem_of_nil]; done. }
  simpl. destruct (initPool (Host conf) (Port conf) w) as [url pool] eqn:E.
  assert (url = store_url conf ∧ pool_url pool = url) as [-> Hp].
  { unfold initPool in E. fold (store_url conf) in E.
    destruct (pools w !! _) eqn:El; simplify_eq/=; eauto. }
  destruct (IH (set_pools (λ m, <[store_url conf := pool]> m) w)) as (H1 & H2 & ps & H3).
  { simpl. intros n p [[<- <-]|[_ ?]]%lookup_insert_Some; eauto. }
  split_and!; [done| |by exists ps]. intros n. rewrite H2. simpl.
  rewrite elem_of_cons, lookup_insert_is_Some. split.
  - intros [[<-|[_ ?]]|?]; auto.
  - destruct (decide (store_url conf = n)); intuition congruence.
Qed.

Lemma redis_open w n lat :
  redis_ok w → redis_name w n →
  ∃ d w', FactoryWithNameAndLatency Redis n lat w = (Ret d, w') ∧ redis_refers w' d n ∧
    redis_evolves w w' ∧ (∀ m, redis_data w' m = redis_data w m).
Proof.
  intros Hok [Hup Hn].
  change (FactoryWithNameAndLatency Redis n lat) with (createRedisDatabase n).
  set (init := if initOnce w then w
               else set_initOnce (InitStorageInstancePool (default [] (Stores <$> RKVConfig w)) w)).
  assert (redis_ok init ∧ initOnce init = true ∧ network init = network w ∧
          redis_objs init = redis_objs w ∧
          ∀ m, redis_name w m → is_Some (pools init !! m)) as (Hi & Hd & Hnet & Hobj & Hnames).
  { subst init. unfold redis_name, redis_ok in *. destruct (initOnce w) eqn:E.
    { rewrite E. split_and!; [done..|]. by intros m [_ ?]. }
    destruct Hok as [c Hc]. rewrite Hc. simpl.
    destruct (InitStorageInstancePool_pools (Stores c) (set_pools (λ _, ∅) w))
      as (H1 & H2 & ps & H3); [done|].
    fold (InitStorageInstancePool (Stores c) w) in H1, H2, H3. split_and!; [done|done|..].
    - by rewrite H3. - by rewrite H3.
    - intros m (_ & c' & ? & Hm). simplify_eq. apply H2. by right. }
  assert (createRedisDatabase n w =
    (Ret (redisDatabase (length (redis_objs init))),
     set_redis_objs (λ l, l ++ [mkRedisDatabase (pools init !! n) 0]) init)) as ->.
  { subst init. unfold createRedisDatabase, redis_ok in *. destruct (initOnce w); [done|].
    by destruct Hok as [c ->]. }
  destruct (Hnames n) as [p Hp]; [done|].
  assert (pool_url p = n) as Hurl. { unfold redis_ok in Hi. rewrite Hd in Hi. eauto. }
  eexists _, _. split; [done|]. split_and!.
  - exists (length (redis_objs init)), p, 0. simpl. rewrite Hp, Hnet.
    by rewrite lookup_app_r, Nat.sub_diag by lia.
  - split_and!; [done|..].
    + intros m Hm. unfold redis_name. simpl. rewrite Hd, Hnet. split; [apply Hm|auto].
    + intros d m (rd & q & lat' & -> & Hrd & ? & ?). exists rd, q, lat'. simpl.
      rewrite Hobj, Hnet. split_and!; [done| |done..].
      by apply lookup_app_l_Some.
  - intros m. unfold redis_data. simpl. by rewrite Hnet.
Qed.

(** A step of the network that leaves the servers up. *)
Lemma redis_net_evolves w n' :
  redis_ok w → (∀ u, net_up (network w) u → net_up n' u) →
  redis_evolves w (set_network n' w).
Proof.
  intros Hok Hup. split_and!; [done|..].
  - intros n [? ?]. split; simpl; auto.
  - intros d n (rd & p & lat & ? & ? & ? & ?). exists rd, p, lat. simpl. auto.
Qed.

(** A command runs on a fresh connection to the server, at the first attempt. *)
Lemma rd_Do_eq w rd n :
  redis_refers w (redisDatabase rd) n →
  ∃ c n1, conn_open n1 c n ∧ net_up n1 n ∧ net_same (network w) n1 ∧
    ∀ args, rd_Do rd args w =
      (match (conn_Do c args n1).1 with inl ret => Ret ret | inr e => Fail e end,
       set_network (conn_Close c (conn_Do c args n1).2).2 w).
Proof.
  intros (rd' & p & lat & [= <-] & Hrd & Hp & Hup).
  destruct (Dial_up (network w) n Hup) as (c & n1 & Hdial & Hopen & Hsame).
  exists c, n1. split_and!; [done|by apply Hsame|done|]. intros args.
  unfold rd_Do, rd_pool, pool_Dial, gbind, on_net. rewrite Hrd. cbn [mbind option_bind client].
  rewrite Hp, Hdial. simpl. unfold gret, gfail.
  destruct (conn_Do c args n1) as [r n2]. simpl.
  destruct (conn_Close c n2) as [[] n3]. simpl. by destruct r, w.
Qed.

Lemma redis_put w d n k v :
  redis_ok w → redis_refers w d n →
  ∃ s w', Database_Put d k v w = (Ret s, w') ∧ redis_evolves w w' ∧
    redis_data w' n = <[k := v]> (redis_data w n) ∧
    (∀ m, m ≠ n → redis_data w' m = redis_data w m).
Proof.
  intros Hok Hr. pose proof Hr as (rd & p & lat & -> & _).
  destruct (rd_Do_eq w rd n Hr) as (c & n1 & Hopen & Hup & [Hs1 Hs2] & Heq).
  destruct (Do_Set n1 c n k v Hup Hopen) as (n2 & Hdo & Hup2 & Hd1 & Hd2).
  destruct (Close_same n2 c) as [Hc1 Hc2].
  simpl. unfold RedisDatabase_Put, gbind. rewrite Heq, Hdo. simpl.
  eexists _, _. split; [done|]. split_and!; [apply redis_net_evolves; auto|..];
    unfold redis_data; simpl.
  - by rewrite Hc2, Hd1, Hs2.
  - intros m Hm. by rewrite Hc2, Hd2, Hs2.
Qed.

Lemma redis_delete w d n k :
  redis_ok w → redis_refers w d n →
  ∃ w', Database_Delete d k w = (Ret tt, w') ∧ redis_evolves w w' ∧
    redis_data w' n = delete k (redis_data w n) ∧
    (∀ m, m ≠ n → redis_data w' m = redis_data w m).
Proof.
  intros Hok Hr. pose proof Hr as (rd & p & lat & -> & _).
  destruct (rd_Do_eq w rd n Hr) as (c & n1 & Hopen & Hup & [Hs1 Hs2] & Heq).
  destruct (Do_Del n1 c n k Hup Hopen) as (n2 & i & Hdo & Hup2 & Hd1 & Hd2).
  destruct (Close_same n2 c) as [Hc1 Hc2].
  simpl. unfold RedisDatabase_Delete, gbind. rewrite Heq, Hdo. simpl.
  eexists. split; [done|]. split_and!; [apply redis_net_evolves; auto|..];
    unfold redis_data; simpl.
  - by rewrite Hc2, Hd1, Hs2.
  - intros m Hm. by rewrite Hc2, Hd2, Hs2.
Qed.

(** Reading an absent key is not an error: the nil reply is formatted. *)
Lemma redis_get w d n k :
  redis_ok w → redis_refers w d n →
  ∃ w', Database_Get d k w = (Ret (default "%!s(<nil>)" (redis_data w n !! k)), w') ∧
    redis_evolves w w' ∧ (∀ m, redis_data w' m = redis_data w m).
Proof.
  intros Hok Hr. pose proof Hr as (rd & p & lat & -> & _).
  destruct (rd_Do_eq w rd n Hr) as (c & n1 & Hopen & Hup & [Hs1 Hs2] & Heq).
  destruct (Do_Get n1 c n k Hup Hopen) as (n2 & Hdo & Hup2 & Hd).
  destruct (Close_same n2 c) as [Hc1 Hc2].
  simpl. unfold RedisDatabase_Get, gbind. rewrite Heq, Hdo. simpl. rewrite Hs2.
  fold (redis_data w n). eexists.
  split; [by destruct (redis_data w n !! k)|]. split; [apply redis_net_evolves; auto|].
  intros m. unfold redis_data. simpl. by rewrite Hc2, Hd, Hs2.
Qed.

#[global, refine] Instance redis_StoreLaws : StoreLaws Redis := {|
  st_ok := redis_ok;
  st_name := redis_name;
  st_data := redis_data;
  st_refers := redis_refers;
  st_absent := Ret "%!s(<nil>)";
  st_open := redis_open;
  st_put := redis_put;
  st_delete := redis_delete;
|}.
Proof.
  - intros w d n k v Hok Hr Hk. destruct (redis_get w d n k Hok Hr) as (w' & -> & H).
    rewrite Hk. by exists w'.
  - intros w d n k Hok Hr. by destruct (redis_get w d n k Hok Hr) as (w' & -> & H).
  - intros w d n k Hok Hr Hk. destruct (redis_get w d n k Hok Hr) as (w' & -> & _). by rewrite Hk.
  - intros w s Hok Hn. destruct (redis_open w (store_url s) 0 Hok Hn) as (d & w' & E & _ & He & _).
    by exists d, w'.
  - intros w f Hok. by split_and!.
Defined.
End redis.

(** * The retry loop *)

Section dial.
Context {R : Redigo}.

Lemma on_net_slept {A} (f : net → A * net) w : slept (on_net f w).2 = slept w.
Proof. unfold on_net. by destruct (f (network w)). Qed.

Lemma on_net_ret {A} (f : net → A * net) w :
  on_net f w = (Ret (f (network w)).1, set_network (f (network w)).2 w).
Proof. unfold on_net. by destruct (f (network w)). Qed.

(** [retries] iterations done and [left] to go: the loop sleeps
    [10ms << retries], doubling, and gives up only when none is left. *)
Lemma Dial_loop_spec url left retries r w :
  0 ≤ retries →
  ∃ r' w' (i : nat), Dial_loop url left retries r w = (Ret r', w') ∧
    (i ≤ left)%nat ∧
    slept w' = slept w + RedisRetryInterval * (2 ^ (retries + Z.of_nat i) - 2 ^ retries) ∧
    match r' with inl _ => True | inr _ => i = left end.
Proof.
  revert retries r w. induction left as [|left IH]; intros retries r w Hr.
  { exists r, w, 0%nat. rewrite Z.add_0_r. split_and!; [by destruct r|lia..|by destruct r]. }
  destruct r as [c|e].
  { exists (inl c), w, 0%nat. rewrite Z.add_0_r. split_and!; [done|lia..|done]. }
  simpl. unfold gbind at 1, time_Sleep.
  set (w1 := set_slept _ w).
  assert (slept w1 = slept w + RedisRetryInterval * 2 ^ retries) as Hw1.
  { subst w1. simpl. rewrite Z.shiftl_mul_pow2 by lia.
    assert (0 < 2 ^ retries) by (apply Z.pow_pos_nonneg; lia).
    unfold RedisRetryInterval, millisecond. lia. }
  assert (∃ r2 w2, slept w2 = slept w1 ∧
    (do! r1 <- on_net (redis_Dial url);
     match r1 with
     | inl c => do! p <- on_net (conn_Do c ["PING"]);
         Dial_loop url left (retries + 1) (match p with inl _ => inl c | inr e => inr e end)
     | inr e => Dial_loop url left (retries + 1) (inr e)
     end) w1 = Dial_loop url left (retries + 1) r2 w2) as (r2 & w2 & Hw2 & ->).
  { unfold gbind. rewrite on_net_ret. destruct (redis_Dial url (network w1)) as [[c|e'] n1]; simpl.
    - rewrite on_net_ret. eexists _, _. by split; [|done].
    - eexists _, _. by split; [|done]. }
  destruct (IH (retries + 1) r2 w2) as (r' & w' & i & Heq & Hi & Hsl & Hres); [lia|].
  exists r', w', (S i). split_and!; [done|lia| |destruct r'; [done|lia]].
  rewrite Hsl, Hw2, Hw1. replace (retries + Z.of_nat (S i)) with (retries + 1 + Z.of_nat i) by lia.
  rewrite (Z.pow_add_r 2 retries 1) by lia. lia.
Qed.
End dial.

(** * Stores over time *)

Section steps.
Context {R : Redigo} {T : string} {L : StoreLaws T}.

(** One call on the backends; the label is the place it writes. *)
Inductive store_step (w : dbworld) : option (string * string) → dbworld → Prop :=
  | step_open n lat : st_name w n → store_step w None (FactoryWithNameAndLatency T n lat w).2
  | step_get d n k : st_refers w d n → store_step w None (Database_Get d k w).2
  | step_put d n k v : st_refers w d n → store_step w (Some (n, k)) (Database_Put d k v w).2
  | step_delete d n k : st_refers w d n → store_step w (Some (n, k)) (Database_Delete d k w).2.

Lemma store_step_spec w l w' n k :
  st_ok w → store_step w l w' → l ≠ Some (n, k) →
  st_evolves w w' ∧ st_data w' n !! k = st_data w n !! k.
Proof.
  intros Hok Hs Hl. destruct Hs as [m lat Hm|d m k' Hr|d m k' v Hr|d m k' Hr].
  - destruct (st_open w m lat Hok Hm) as (d & w' & -> & _ & He & Hd). simpl. by rewrite Hd.
  - destruct (st_get_no_panic w d m k' Hok Hr) as (_ & He & Hd). by rewrite Hd.
  - destruct (st_put w d m k' v Hok Hr) as (s & w' & -> & He & Hd & Hd'). simpl.
    split; [done|]. destruct (decide (n = m)) as [->|Hn]; [|by rewrite Hd'].
    rewrite Hd, lookup_insert_ne; [done|]. congruence.
  - destruct (st_delete w d m k' Hok Hr) as (w' & -> & He & Hd & Hd'). simpl.
    split; [done|]. destruct (decide (n = m)) as [->|Hn]; [|by rewrite Hd'].
    rewrite Hd, lookup_delete_ne; [done|]. congruence.
Qed.

(** Any calls that leave [k] of store [n] alone. *)
Definition spares (n k : string) (w w' : dbworld) : Prop :=
  ∃ l, store_step w l w' ∧ l ≠ Some (n, k).

Lemma spares_spec w w' n k :
  rtc (spares n k) w w' → st_ok w →
  st_evolves w w' ∧ st_data w' n !! k = st_data w n !! k.
Proof.
  induction 1 as [w|w w1 w' (l & Hs & Hl) _ IH]; intros Hok; [by split_and!|].
  destruct (store_step_spec _ _ _ _ _ Hok Hs Hl) as [(H1 & H2 & H3) Hd].
  destruct IH as [(H4 & H5 & H6) Hd']; [done|]. rewrite Hd', Hd. split; [|done].
  split_and!; eauto.
Qed.
End steps.

(** * A redis deployment to run the definitions with *)

(** The servers are maps, by address, and always up; a connection is its address. *)
#[refine] Instance map_Redigo : Redigo := {|
  net := gmap string (gmap string string);
  conn := string;
  redis_Dial url n := (inl url, n);
  conn_Do c args n := _;
  conn_Close _ n := (tt, n);
  pool_Close _ n := (Ret tt, n);
|}.
Proof.
  exact (let m := default ∅ (n !! c) in
         match args with
         | ["Set"; k; v] => (inl (StatusReply "OK"), <[c := <[k := v]> m]> n)
         | ["Get"; k] =>
             (inl (match m !! k with Some v => BulkReply v | None => NilReply end), n)
         | ["Del"; k] =>
             (inl (IntReply (match m !! k with Some _ => 1 | None => 0 end)),
              <[c := delete k m]> n)
         | ["PING"] => (inl (StatusReply "PONG"), n)
         | _ => (inr "ERR unknown command", n)
         end).
Defined.

#[refine] Instance map_RedigoLaws : RedigoLaws map_Redigo := {|
  net_up _ _ := True;
  net_data n url := default ∅ ((n : gmap string (gmap string string)) !! url);
  conn_open _ c url := c = url;
|}.
Proof.
  - intros n url _. by exists url, n.
  - intros n c url k v _ ->. eexists. split; [done|]. split_and!; [done| |].
    + by rewrite lookup_insert_eq.
    + intros u Hu. by rewrite lookup_insert_ne.
  - intros n c url k _ ->. by eexists.
  - intros n c url k _ ->. eexists _, _. split; [done|]. split_and!; [done| |].
    + by rewrite lookup_insert_eq.
    + intros u Hu. by rewrite lookup_insert_ne.
  - done.
Defined.

(** The package as the process starts, with a configuration of two stores. *)
Definition demo_stores : list KVStore :=
  [mkKVStore "us-west-1" "us-west-1a" "store-a" "10.0.0.1" 6379 0;
   mkKVStore "us-west-1" "us-west-1b" "store-b" "10.0.0.2" 6379 0].
Definition demo_conf (st : string) : KVConfiguration :=
  mkKVConfiguration "rendezvous" st "syncAsync" "localSyncRemoteAsync" demo_stores 10 false 100 2 0.
Definition demo_world (st : string) : dbworld (H:=map_Redigo) :=
  mkWorld _ [] ∅ [] ∅ (Some (demo_conf st)) ∅ false ∅ 0.

Lemma demo_world_mem_ok st : mem_ok (demo_world st).
Proof. split; done. Qed.

(** * Properties *)

(** C23. What is put under a key of a store is read back through any later handle on
    that name, whatever else was done meanwhile to other keys and other stores; and
    the calls neither fail nor panic.  For every backend with the laws, in particular
    memory and redis. *)
Theorem store_put_get `{StoreLaws T} w n k v lat lat' :
  st_ok w → st_name w n →
  ∃ d w1 s w1', FactoryWithNameAndLatency T n lat w = (Ret d, w1) ∧
    Database_Put d k v w1 = (Ret s, w1') ∧
    ∀ w2, rtc (spares n k) w1' w2 →
      ∃ d' w3, FactoryWithNameAndLatency T n lat' w2 = (Ret d', w3) ∧
        (Database_Get d' k w3).1 = Ret v ∧ (Database_Get d k w3).1 = Ret v.
Proof.
  intros Hok Hn. destruct (st_open w n lat Hok Hn) as (d & w1 & Ho & Hr & (Hok1 & Hn1 & _) & _).
  destruct (st_put w1 d n k v Hok1 Hr) as (s & w1' & Hp & (Hok2 & Hn2 & Hr2) & Hd & _).
  exists d, w1, s, w1'. split_and!; [done..|]. intros w2 Hsteps.
  destruct (spares_spec _ _ _ _ Hsteps Hok2) as [(Hok3 & Hn3 & Hr3) Hd3].
  destruct (st_open w2 n lat' Hok3) as (d' & w3 & Ho' & Hr' & (Hok4 & _ & Hr4) & Hd4); [auto|].
  assert (st_data w3 n !! k = Some v) as Hk by by rewrite Hd4, Hd3, Hd, lookup_insert_eq.
  destruct (st_get w3 d' n k v Hok4 Hr' Hk) as (w4 & Hg & _).
  destruct (st_get w3 d n k v Hok4) as (w4' & Hg' & _); [auto|done|].
  exists d', w3. by rewrite Hg, Hg'.
Qed.

Lemma demo_redis_name : redis_name (demo_world Redis) "10.0.0.2:6379".
Proof.
  split; [done|]. simpl. eexists. split; [done|].
  apply list_elem_of_lookup. by exists 1%nat.
Qed.

Lemma store_put_get_witness :
  (∃ d w1 s w1', FactoryWithNameAndLatency Memory "store-a" 0 (demo_world Memory) = (Ret d, w1) ∧
    Database_Put d "1" "v" w1 = (Ret s, w1') ∧
    ∀ w2, rtc (spares (T:=Memory) "store-a" "1") w1' w2 →
     ∃ d' w3, FactoryWithNameAndLatency Memory "store-a" 0 w2 = (Ret d', w3) ∧
       (Database_Get d' "1" w3).1 = Ret "v" ∧ (Database_Get d "1" w3).1 = Ret "v") ∧
  (∃ d w1 s w1', FactoryWithNameAndLatency Redis "10.0.0.2:6379" 0 (demo_world Redis) = (Ret d, w1) ∧
    Database_Put d "1" "v" w1 = (Ret s, w1') ∧
    ∀ w2, rtc (spares (T:=Redis) "10.0.0.2:6379" "1") w1' w2 →
     ∃ d' w3, FactoryWithNameAndLatency Redis "10.0.0.2:6379" 0 w2 = (Ret d', w3) ∧
       (Database_Get d' "1" w3).1 = Ret "v" ∧ (Database_Get d "1" w3).1 = Ret "v").
Proof.
  split.
  - apply (store_put_get (T:=Memory) (demo_world Memory) "store-a" "1" "v" 0 0);
      [apply demo_world_mem_ok|done].
  - apply (store_put_get (T:=Redis) (demo_world Redis) "10.0.0.2:6379" "1" "v" 0 0);
      [by eexists|apply demo_redis_name].
Defined.

(** Connecting to redis is bounded: the dial closure makes one attempt and at most
    five retries, and sleeps 10 ms, then twice as long before each further retry; it
    gives up only after the fifth retry, when it has slept 310 ms in all. *)
Theorem pool_Dial_bounded `{Redigo} pool w :
  ∃ (i : nat), (i ≤ 5)%nat ∧
    slept (pool_Dial pool w).2 = slept w + 10 * millisecond * (2 ^ Z.of_nat i - 1) ∧
    match (pool_Dial pool w).1 with
    | Ret _ => True
    | Fail _ => slept (pool_Dial pool w).2 = slept w + 310 * millisecond
    | Panic _ => False
    end.
Proof.
  destruct (Dial_loop_spec (pool_url pool) (Z.to_nat RedisRetryCount) 0
    (redis_Dial (pool_url pool) (network w)).1
    (set_network (redis_Dial (pool_url pool) (network w)).2 w))
    as (r' & w' & i & Heq & Hi & Hsl & Hr); [done|].
  assert (pool_Dial pool w = (match r' with inl c => Ret c | inr e => Fail e end, w')) as ->.
  { unfold pool_Dial, gbind. rewrite on_net_ret, Heq. by destruct r'. }
  exists i. split; [done|]. cbn [slept set_network] in Hsl.
  unfold RedisRetryInterval in Hsl. rewrite Z.add_0_l in Hsl.
  destruct r' as [c|e]; cbn [fst snd]; (split; [lia|]); [done|].
  rewrite Hsl. subst i. change (2 ^ Z.of_nat (Z.to_nat RedisRetryCount)) with 32. lia.
Qed.

(** On redis, reading a key that is absent is not an error: the text of a nil
    reply is returned as the value, where the memory backend reports that the key is
    not found. *)
Theorem absent_key_value {R : Redigo} {L : RedigoLaws R} w d n k w' d' n' :
  (redis_ok w → redis_refers w d n → redis_data w n !! k = None →
   (Database_Get d k w).1 = Ret "%!s(<nil>)") ∧
  (mem_refers w' d' n' → mem_data w' n' !! k = None →
   (Database_Get d' k w').1 = Fail "key not found").
Proof.
  split.
  - intros Hok Hr Hk. destruct (redis_get w d n k Hok Hr) as (w1 & -> & _). by rewrite Hk.
  - intros Hr Hk. rewrite (mem_get w' d' n') by done. by rewrite Hk.
Qed.

Lemma absent_key_value_witness :
  ∃ d w, FactoryWithNameAndLatency Redis "10.0.0.2:6379" 0 (demo_world Redis) = (Ret d, w) ∧
    (Database_Get d "7" w).1 = Ret "%!s(<nil>)".
Proof.
  destruct (redis_open (demo_world Redis) "10.0.0.2:6379" 0)
    as (d & w & Heq & Hr & (Hok & _) & Hd); [by eexists|apply demo_redis_name|].
  exists d, w. split; [done|].
  apply (absent_key_value w d "10.0.0.2:6379" "7" w d ""); [done..|].
  by rewrite Hd.
Defined.

(** A redis handle on an address the configuration does not list has no pool: every
    read, write and delete through it is a nil dereference. *)
Theorem redis_unlisted_panics `{Redigo} w c url k v :
  RKVConfig w = Some c → initOnce w = false → url ∉ store_url <$> Stores c →
  ∃ d w', FactoryWithNameAndLatency Redis url 0 w = (Ret d, w') ∧
    (Database_Get d k w').1 = Panic nil_deref ∧
    (Database_Put d k v w').1 = Panic nil_deref ∧
    (Database_Delete d k w').1 = Panic nil_deref.
Proof.
  intros Hc Hi Hurl.
  change (FactoryWithNameAndLatency Redis url 0) with (createRedisDatabase url).
  unfold createRedisDatabase. rewrite Hi, Hc.
  set (w1 := set_initOnce _).
  assert (pools w1 !! url = None) as Hp.
  { destruct (InitStorageInstancePool_pools (Stores c) (set_pools (λ _, ∅) w)) as (_ & H2 & _); [done|].
    apply eq_None_not_Some. intros Hs. apply H2 in Hs as [Hs|]; [|done].
    simpl in Hs. rewrite lookup_empty in Hs. by destruct Hs. }
  clearbody w1.
  eexists _, _. split; [done|].
  assert (∀ args, rd_Do (length (redis_objs w1)) args
      (set_redis_objs (λ l, l ++ [mkRedisDatabase (pools w1 !! url) 0]) w1)
    = (Panic nil_deref, set_redis_objs (λ l, l ++ [mkRedisDatabase (pools w1 !! url) 0]) w1)) as Hdo.
  { intros args. unfold rd_Do, rd_pool, gbind. simpl. rewrite lookup_app_r, Nat.sub_diag by lia.
    simpl. by rewrite Hp. }
  simpl. unfold RedisDatabase_Get, RedisDatabase_Put, RedisDatabase_Delete, gbind.
  by rewrite !Hdo.
Qed.

Lemma redis_unlisted_panics_witness :
  ∃ d w', FactoryWithNameAndLatency Redis "" 0 (demo_world Redis) = (Ret d, w') ∧
    (Database_Get d "7" w').1 = Panic nil_deref ∧
    (Database_Put d "7" "v" w').1 = Panic nil_deref ∧
    (Database_Delete d "7" w').1 = Panic nil_deref.
Proof.
  apply (redis_unlisted_panics _ (demo_conf Redis)); [done..|].
  apply (bool_decide_unpack _). vm_compute. done.
Defined.
