(* ===== verification/ChainNode.v ===== *)
(** A node of a replication chain: src/pkg/consistent/chain/node.go.

    [ChainNode] is the linked list of the code; a nil pointer is [None].  Tracing
    spans have no counterpart: recording an error in one changes no result. *)
From stdpp Require Import base gmap list strings.
From S2P Require Import Prelude Config Database.

Open Scope Z_scope.

Inductive ChainNode := mkNode (id : Z) (next : option ChainNode) (db : option Database).

Definition NewNode (id : Z) (db : option Database) : ChainNode := mkNode id None db.
Definition GetID (n : ChainNode) : Z := match n with mkNode id _ _ => id end.
Definition GetNext (n : ChainNode) : option ChainNode := match n with mkNode _ next _ => next end.
Definition GetDB (n : ChainNode) : option Database := match n with mkNode _ _ db => db end.

Section node.
Context `{Redigo}.

(** A method call on a nil interface is a nil dereference. *)
Definition on_db {A} (db : option Database) (f : Database → M dbworld A) : M dbworld A :=
  match db with Some d => f d | None => gpanic nil_deref end.

Fixpoint ChainNode_Write (n : ChainNode) (key val : string) : M dbworld unit :=
  match n with
  | mkNode _ next db =>
      do! r <- try (on_db db (λ d, Database_Put d key val));
      match r, next with
      | inl _, Some n' => ChainNode_Write n' key val
      | inl _, None => gret tt
      | inr err, _ => gfail err
      end
  end.

Definition ChainNode_Read (n : ChainNode) (key : string) : M dbworld string :=
  on_db (GetDB n) (λ d, Database_Get d key).

(** An error is recorded in the span and not returned. *)
Fixpoint ChainNode_Delete (n : ChainNode) (key : string) : M dbworld unit :=
  match n with
  | mkNode _ next db =>
      do! r <- try (on_db db (λ d, Database_Delete d key));
      match r, next with
      | inl _, Some n' => ChainNode_Delete n' key
      | _, _ => gret tt
      end
  end.
End node.

(** The nodes from one on, and the databases behind them. *)
Fixpoint node_list (n : ChainNode) : list ChainNode :=
  n :: match n with mkNode _ (Some n') _ => node_list n' | _ => [] end.

(** Nodes [i], [i+1], … over a list of databases. *)
Fixpoint link (i : Z) (dbs : list Database) : option ChainNode :=
  match dbs with
  | [] => None
  | d :: dbs' => Some (mkNode i (link (i + 1) dbs') (Some d))
  end.
