(* ===== verification/Runtime.v ===== *)
(** Goroutines over the storage backends.

    The program starts a goroutine in six places: the puts and deletes of
    src/pkg/piping/sync_async_piping_manager.go (open the store, then write it), those
    of src/pkg/piping/chain_piping_manager.go (write an open store) and the rest of a
    chain in src/pkg/consistent/chain/chain.go (node after node).  A [goroutine] is
    what remains of one; [go_step] runs it to its next shared access, so that any
    interleaving of the accesses is a schedule, the list of the positions run.
    Opening a store is one access.  For redis it is: the pools are made once.  For the
    stores in memory it is a lookup in a Go map and an insertion that nothing protects: two
    goroutines that are the first to open a name, or that write at the same time, are taken
    to do so one after the other.

    [wait] is [wg.Wait()]: an arbitrary schedule of all goroutines, after which the
    awaited ones that are not finished are run to the end. *)
From stdpp Require Import base gmap list strings.
From S2P Require Import Prelude Config Database ChainNode.

Open Scope Z_scope.

Inductive op := OpPut (key val : string) | OpDelete (key : string).
#[global] Instance op_eq_dec : EqDecision op.
Proof. solve_decision. Defined.

Definition op_key (o : op) : string := match o with OpPut k _ => k | OpDelete k => k end.

(** The effect of an operation on the contents of a store. *)
Definition op_apply (o : op) (m : gmap string string) : gmap string string :=
  match o with OpPut k v => <[k := v]> m | OpDelete k => delete k m end.

Inductive goroutine :=
  | GOpen (databaseType name : string) (o : op)
  | GDb (d : Database) (o : op)
  | GNode (n : option ChainNode) (o : op)
  | GDone.

Section runtime.
Context `{Redigo}.

Definition exec (d : Database) (o : op) : M dbworld unit :=
  match o with
  | OpPut key val => do! _ <- Database_Put d key val; gret tt
  | OpDelete key => Database_Delete d key
  end.

(** One step; an error ends the goroutine (it goes to the tracing span), a panic is
    the program's. *)
Definition go_step (g : goroutine) : M dbworld goroutine :=
  match g with
  | GOpen databaseType name o =>
      do! r <- try (FactoryWithNameAndLatency databaseType name 0);
      gret (match r with inl d => GDb d o | inr _ => GDone end)
  | GDb d o => do! _ <- try (exec d o); gret GDone
  | GNode None o => gpanic nil_deref
  | GNode (Some (mkNode _ next db)) o =>
      do! r <- try (on_db db (λ d, exec d o));
      gret (match r, next with inl _, Some n' => GNode (Some n') o | _, _ => GDone end)
  | GDone => gret GDone
  end.

Definition go_size (g : goroutine) : nat :=
  match g with
  | GOpen _ _ _ => 2
  | GDb _ _ => 1
  | GNode None _ => 1
  | GNode (Some n) _ => length (node_list n)
  | GDone => 0
  end.

(** A schedule: the goroutine at each position in turn runs one step. *)
Fixpoint run_sched (sched : list nat) (gs : list goroutine) : M dbworld (list goroutine) :=
  match sched with
  | [] => gret gs
  | i :: sched' =>
      match gs !! i with
      | None => run_sched sched' gs
      | Some g => do! g' <- go_step g; run_sched sched' (<[i := g']> gs)
      end
  end.

(** Enough steps for each of [gs] to finish. *)
Fixpoint finish (i : nat) (gs : list goroutine) : list nat :=
  match gs with
  | [] => []
  | g :: gs' => replicate (go_size g) i ++ finish (S i) gs'
  end.

(** The backends and the goroutines nobody waits for. *)
Record gworld := mkGWorld { store : dbworld; detached : list goroutine }.

Definition on_store {A} (m : M dbworld A) : M gworld A := λ gw,
  let '(r, w) := m (store gw) in (r, mkGWorld w (detached gw)).

Definition spawn (gs : list goroutine) : M gworld unit := λ gw,
  (Ret tt, mkGWorld (store gw) (detached gw ++ gs)).

Definition wait (sched : list nat) (gs : list goroutine) : M gworld unit := λ gw,
  match run_sched (sched ++ finish 0 gs) (gs ++ detached gw) (store gw) with
  | (Ret all, w) => (Ret tt, mkGWorld w (drop (length gs) all))
  | (Fail e, w) => (Fail e, mkGWorld w (detached gw))
  | (Panic p, w) => (Panic p, mkGWorld w (detached gw))
  end.

(** The background goroutines run for a while; or to the end, in some order. *)
Definition background (sched : list nat) : M gworld unit := wait sched [].
Definition settle (sched : list nat) : M gworld unit := λ gw,
  wait sched (detached gw) (mkGWorld (store gw) []).
End runtime.

(** * Every schedule runs to the end *)

Section schedules.
Context `{Redigo}.

Lemma go_size_zero g : go_size g = 0%nat → g = GDone.
Proof. by destruct g as [| |[[? [] ?]|]|]. Qed.

Lemma go_step_size g w g' w' : go_step g w = (Ret g', w') → (go_size g' ≤ pred (go_size g))%nat.
Proof.
  unfold go_step, gbind, try, gret, gpanic. intros E.
  destruct g as [t n o|d o|[[id next db]|] o|]; repeat case_match; simplify_eq/=; lia.
Qed.

(** How often a position is run. *)
Definition turns (i : nat) (sched : list nat) : nat := length (filter (λ j, j = i) sched).

Lemma turns_app i s1 s2 : turns i (s1 ++ s2) = (turns i s1 + turns i s2)%nat.
Proof. unfold turns. by rewrite filter_app, length_app. Qed.

Lemma turns_replicate i n : turns i (replicate n i) = n.
Proof.
  unfold turns. rewrite filter_all; [apply length_replicate|].
  by apply Forall_replicate.
Qed.

Lemma turns_finish gs i j g :
  gs !! j = Some g → (go_size g ≤ turns (i + j) (finish i gs))%nat.
Proof.
  revert i j. induction gs as [|g0 gs IH]; intros i j Hg; [done|]. simpl. rewrite turns_app.
  destruct j as [|j]; simplify_eq/=.
  - rewrite Nat.add_0_r, turns_replicate. lia.
  - specialize (IH (S i) j Hg). rewrite Nat.add_succ_r. simpl in IH. lia.
Qed.

Lemma run_sched_size sched gs w gs' w' :
  run_sched sched gs w = (Ret gs', w') →
  length gs' = length gs ∧
  ∀ i g g', gs !! i = Some g → gs' !! i = Some g' → (go_size g' ≤ go_size g - turns i sched)%nat.
Proof.
  revert gs w. induction sched as [|j sched IH]; intros gs w E; simpl in E.
  { unfold gret in E. simplify_eq. split; [done|]. intros. simplify_eq. unfold turns. simpl. lia. }
  unfold gbind in E. destruct (gs !! j) as [gj|] eqn:Hj.
  - destruct (go_step gj w) as [[g1| |] w1] eqn:Es; simplify_eq.
    apply go_step_size in Es. apply IH in E as [Hlen Hsz]. rewrite length_insert in Hlen.
    split; [done|]. intros i g g' Hg Hg'. unfold turns. rewrite filter_cons.
    fold (turns i sched). destruct (decide (j = i)) as [->|Hne]; simplify_eq/=.
    + specialize (Hsz i g1 g'). rewrite list_lookup_insert_eq in Hsz
        by (by eapply lookup_lt_Some). specialize (Hsz eq_refl Hg'). unfold turns in *. lia.
    + apply (Hsz i g g'); [|done]. by rewrite list_lookup_insert_ne.
  - apply IH in E as [Hlen Hsz]. split; [done|]. intros i g g' Hg Hg'.
    unfold turns. rewrite filter_cons. destruct (decide (j = i)) as [->|Hne]; [congruence|].
    by apply Hsz.
Qed.

(** An invariant of single steps is an invariant of schedules, and they do not get
    stuck. *)
Lemma run_sched_inv (P : dbworld → list goroutine → Prop) :
  (∀ w gs i g, P w gs → gs !! i = Some g →
     ∃ g' w', go_step g w = (Ret g', w') ∧ P w' (<[i := g']> gs)) →
  ∀ sched gs w, P w gs → ∃ gs' w', run_sched sched gs w = (Ret gs', w') ∧ P w' gs'.
Proof.
  intros Hstep sched. induction sched as [|i sched IH]; intros gs w HP; simpl; [by exists gs, w|].
  destruct (gs !! i) as [g|] eqn:Hg; [|by apply IH].
  destruct (Hstep w gs i g HP Hg) as (g' & w' & E & HP'). unfold gbind. rewrite E. by apply IH.
Qed.

(** Errors stay inside a goroutine. *)
Lemma go_step_no_fail g w e w' : go_step g w ≠ (Fail e, w').
Proof.
  unfold go_step, gbind, try, gret, gpanic. intros E.
  destruct g as [t n o|d o|[[id next db]|] o|]; repeat case_match; simplify_eq.
Qed.

Lemma run_sched_no_fail sched gs w e w' : run_sched sched gs w ≠ (Fail e, w').
Proof.
  revert gs w. induction sched as [|i sched IH]; intros gs w; simpl; [done|].
  destruct (gs !! i) as [g|]; [|apply IH]. unfold gbind.
  pose proof (go_step_no_fail g w) as Hn. destruct (go_step g w) as [[]]; [apply IH|naive_solver..].
Qed.

Lemma wait_no_fail sched gs gw e gw' : wait sched gs gw ≠ (Fail e, gw').
Proof.
  unfold wait. pose proof (run_sched_no_fail (sched ++ finish 0 gs) (gs ++ detached gw) (store gw)) as Hn.
  destruct (run_sched _ _ _) as [[]]; naive_solver.
Qed.

(** Goroutines that got their steps are finished. *)
Lemma run_sched_finished sched gs d w all w' :
  run_sched (sched ++ finish 0 gs) (gs ++ d) w = (Ret all, w') →
  take (length gs) all = replicate (length gs) GDone.
Proof.
  intros E. apply run_sched_size in E as [Hlen Hsz]. rewrite length_app in Hlen.
  apply list_eq. intros i. destruct (decide (i < length gs)%nat) as [Hi|Hi].
  - rewrite lookup_take_lt, lookup_replicate_2 by done.
    destruct (lookup_lt_is_Some_2 gs i Hi) as [g Hg].
    destruct (lookup_lt_is_Some_2 all i) as [g' Hg']; [lia|]. rewrite Hg'. f_equal.
    apply go_size_zero. specialize (Hsz i g g'). rewrite lookup_app_l in Hsz by done.
    specialize (Hsz Hg Hg'). rewrite turns_app in Hsz.
    pose proof (turns_finish gs 0 i g Hg). simpl in *. lia.
  - rewrite lookup_take_ge by lia. symmetry. apply lookup_replicate_None. lia.
Qed.

(** When [wait] returns, the awaited goroutines are finished; it always returns,
    whatever the schedule. *)
Lemma wait_inv (P : dbworld → list goroutine → Prop) sched gs gw :
  (∀ w gs i g, P w gs → gs !! i = Some g →
     ∃ g' w', go_step g w = (Ret g', w') ∧ P w' (<[i := g']> gs)) →
  P (store gw) (gs ++ detached gw) →
  ∃ gw', wait sched gs gw = (Ret tt, gw') ∧
    P (store gw') (replicate (length gs) GDone ++ detached gw').
Proof.
  intros Hstep HP. unfold wait.
  destruct (run_sched_inv P Hstep (sched ++ finish 0 gs) _ _ HP) as (all & w' & E & HP').
  rewrite E. eexists. split; [done|]. simpl. by rewrite <- (run_sched_finished _ _ _ _ _ _ E), take_drop.
Qed.

(** ** Running some of the goroutines *)

Lemma run_sched_app s1 s2 gs w gs' w' :
  run_sched s1 gs w = (Ret gs', w') → run_sched (s1 ++ s2) gs w = run_sched s2 gs' w'.
Proof.
  revert gs w. induction s1 as [|i s1 IH]; intros gs w E; simpl in *; [by injection E as -> ->|].
  destruct (gs !! i) as [g|]; [|by apply IH]. unfold gbind in *.
  destruct (go_step g w) as [[]]; simplify_eq. by apply IH.
Qed.

Lemma run_sched_head sched gs d w gs' w' :
  Forall (λ i, i < length gs)%nat sched → run_sched sched gs w = (Ret gs', w') →
  run_sched sched (gs ++ d) w = (Ret (gs' ++ d), w').
Proof.
  revert gs w. induction sched as [|i sched IH]; intros gs w HF E; simpl in *; [by injection E as -> ->|].
  apply Forall_cons in HF as [Hi HF]. rewrite lookup_app_l by done.
  destruct (gs !! i) as [g|]; [|by apply IH]. unfold gbind in *. destruct (go_step g w) as [[g'| |] w1]; simplify_eq.
  rewrite insert_app_l by done. apply IH; [by rewrite length_insert|done].
Qed.

Lemma run_sched_tail sched p gs w gs' w' :
  run_sched sched gs w = (Ret gs', w') →
  run_sched ((λ i, length p + i)%nat <$> sched) (p ++ gs) w = (Ret (p ++ gs'), w').
Proof.
  revert gs w. induction sched as [|i sched IH]; intros gs w E; simpl in *; [by injection E as -> ->|].
  rewrite lookup_app_r by lia. replace (length p + i - length p)%nat with i by lia.
  destruct (gs !! i) as [g|]; [|by apply IH]. unfold gbind in *. destruct (go_step g w) as [[g'| |] w1]; simplify_eq.
  rewrite insert_app_r. by apply IH.
Qed.

Lemma run_sched_done sched n w : run_sched sched (replicate n GDone) w = (Ret (replicate n GDone), w).
Proof.
  induction sched as [|i sched IH]; simpl; [done|].
  destruct (replicate n GDone !! i) as [g|] eqn:E; [|done]. pose proof E as [-> _]%lookup_replicate.
  unfold gbind, gret. simpl. by rewrite list_insert_id.
Qed.

Lemma finish_below gs : Forall (λ i, i < length gs)%nat (finish 0 gs).
Proof.
  enough (∀ j, Forall (λ i, i < j + length gs)%nat (finish j gs)) as H0 by exact (H0 0%nat).
  induction gs as [|g gs IH]; intros j; simpl; [constructor|]. apply Forall_app. split.
  - apply Forall_replicate. lia.
  - eapply Forall_impl; [exact (IH (S j))|]. simpl. lia.
Qed.
End schedules.

(** * What goroutines do to the stores *)

Definition op_result (o : op) : option string :=
  match o with OpPut _ v => Some v | OpDelete _ => None end.

Lemma op_apply_lookup o m k :
  op_apply o m !! k = if decide (op_key o = k) then op_result o else m !! k.
Proof.
  destruct o; simpl; case_decide; subst;
    by rewrite ?lookup_insert_eq, ?lookup_insert_ne, ?lookup_delete_eq, ?lookup_delete_ne.
Qed.

Section effects.
Context {R : Redigo} {T : string} {L : StoreLaws T}.

#[global] Instance st_evolves_trans : Transitive (st_evolves (T:=T)).
Proof. intros w1 w2 w3 (? & ? & ?) (? & ? & ?). split_and!; auto. Qed.

(** The chain from node [nd] on is over the stores [ns]. *)
Definition nodes_refer (w : dbworld) (nd : ChainNode) (ns : list string) : Prop :=
  Forall2 (λ nd n, ∃ d, GetDB nd = Some d ∧ st_refers w d n) (node_list nd) ns.

(** The goroutine will apply [o] to the stores [ns], in this order. *)
Inductive g_will (w : dbworld) (o : op) : goroutine → list string → Prop :=
  | will_open n : st_name w n → g_will w o (GOpen T n o) [n]
  | will_db d n : st_refers w d n → g_will w o (GDb d o) [n]
  | will_node nd ns : nodes_refer w nd ns → g_will w o (GNode (Some nd) o) ns
  | will_done : g_will w o GDone [].

Lemma g_will_evolves w w' o g ns : st_evolves w w' → g_will w o g ns → g_will w' o g ns.
Proof.
  intros (_ & Hn & Hr). destruct 1; constructor; auto.
  eapply Forall2_impl; [done|]. intros nd' n (d & ? & ?). eauto.
Qed.

Definition writes_at (w w' : dbworld) (n : string) (o : op) : Prop :=
  st_data w' n = op_apply o (st_data w n) ∧ ∀ m, m ≠ n → st_data w' m = st_data w m.

Lemma exec_spec w d n o :
  st_ok w → st_refers w d n →
  ∃ w', exec d o w = (Ret tt, w') ∧ st_evolves w w' ∧ writes_at w w' n o.
Proof.
  intros Hok Hr. destruct o as [k v|k]; simpl.
  - destruct (st_put w d n k v Hok Hr) as (s & w' & E & He & H1 & H2).
    unfold gbind. rewrite E. by exists w'.
  - destruct (st_delete w d n k Hok Hr) as (w' & E & He & H1 & H2). by exists w'.
Qed.

(** A step either leaves the contents alone or writes the next store. *)
Lemma go_step_spec w o g ns :
  st_ok w → g_will w o g ns →
  ∃ g' w' ns', go_step g w = (Ret g', w') ∧ st_evolves w w' ∧ g_will w' o g' ns' ∧
    ((ns' = ns ∧ ∀ m, st_data w' m = st_data w m) ∨
     ∃ n, ns = n :: ns' ∧ writes_at w w' n o).
Proof.
  intros Hok Hg. destruct Hg as [n Hn|d n Hr|[id next db] ns Hr|].
  - destruct (st_open w n 0 Hok Hn) as (d & w' & E & Hr & He & Hd).
    exists (GDb d o), w', [n]. simpl. unfold gbind, try. rewrite E.
    split_and!; [done|done|by constructor|by left].
  - destruct (exec_spec w d n o Hok Hr) as (w' & E & He & Hw).
    exists GDone, w', []. simpl. unfold gbind, try. rewrite E.
    split_and!; [done|done|constructor|]. right. by exists n.
  - unfold nodes_refer in Hr. simpl in Hr.
    inversion Hr as [|? n ? ns' (d & Hdb & Hd) Hrest]; simplify_eq/=.
    destruct (exec_spec w d n o Hok Hd) as (w' & E & He & Hw).
    unfold gbind, try. simpl. rewrite E. destruct next as [nd'|].
    + exists (GNode (Some nd') o), w', ns'. split_and!; [done|done| |].
      * eapply g_will_evolves; [done|]. by constructor.
      * right. by exists n.
    + inversion Hrest; simplify_eq. exists GDone, w', [].
      split_and!; [done|done|constructor|]. right. by exists n.
  - exists GDone, w, []. split_and!; [done|by split_and!|constructor|by left].
Qed.

(** What is left to do, per goroutine: an operation and the stores it goes to. *)
Definition described (w : dbworld) (gs : list goroutine) (ds : list (op * list string)) : Prop :=
  st_ok w ∧ Forall2 (λ g d, g_will w d.1 g d.2) gs ds.

(** Nothing left to do gives key [k] of store [n] another value than [v]. *)
Definition agree (n k : string) (v : option string) (ds : list (op * list string)) : Prop :=
  Forall (λ d, n ∈ d.2 → op_key d.1 = k → op_result d.1 = v) ds.

(** One of the first [m] will write key [k] of store [n]. *)
Definition will_write (m : nat) (n k : string) (ds : list (op * list string)) : Prop :=
  ∃ i d, (i < m)%nat ∧ ds !! i = Some d ∧ n ∈ d.2 ∧ op_key d.1 = k.

Definition pending (n k : string) (ds : list (op * list string)) : Prop :=
  ∃ d, d ∈ ds ∧ n ∈ d.2 ∧ op_key d.1 = k.

Definition less_to_do (d' d : op * list string) : Prop := d'.1 = d.1 ∧ d'.2 `suffix_of` d.2.

#[global] Instance less_to_do_preorder : PreOrder less_to_do.
Proof.
  split; [by intros d|]. intros d1 d2 d3 [E1 H1] [E2 H2]. split; [congruence|by etrans].
Qed.

(** From [w] to [w'] the goroutines got on: what they agree on stays, and comes about
    when one that is to bring it about has. *)
Definition progress (w : dbworld) (ds : list (op * list string)) (w' : dbworld)
    (ds' : list (op * list string)) : Prop :=
  st_evolves w w' ∧ Forall2 less_to_do ds' ds ∧
  ∀ n k v, agree n k v ds →
    (st_data w n !! k = v → st_data w' n !! k = v) ∧
    ∀ m, will_write m n k ds → st_data w' n !! k = v ∨ will_write m n k ds'.

Lemma agree_less ds' ds n k v : Forall2 less_to_do ds' ds → agree n k v ds → agree n k v ds'.
Proof.
  intros HF. induction HF as [|d' d ds' ds [E1 E2] _ IH]; intros Ha; [constructor|].
  apply Forall_cons in Ha as [Hd Ha]. constructor; [|by apply IH]. rewrite E1.
  intros Hin. apply Hd. destruct E2 as [l ->]. set_solver.
Qed.

Lemma progress_refl w ds : st_ok w → progress w ds w ds.
Proof. intros. split_and!; [by split_and!|done|]. intros n k v _. by split; [|right]. Qed.

Lemma progress_trans w1 d1 w2 d2 w3 d3 :
  progress w1 d1 w2 d2 → progress w2 d2 w3 d3 → progress w1 d1 w3 d3.
Proof.
  intros (He & Hl & Hp) (He' & Hl' & Hp'). split_and!; [by etrans|by etrans|].
  intros n k v Ha. destruct (Hp n k v Ha) as [Hk Hm].
  destruct (Hp' n k v (agree_less _ _ _ _ _ Hl Ha)) as [Hk' Hm'].
  split; [auto|]. intros m [?|?]%Hm; auto.
Qed.

Lemma agree_lookup n k v ds i d :
  agree n k v ds → ds !! i = Some d → n ∈ d.2 → op_key d.1 = k → op_result d.1 = v.
Proof. intros Ha Hi. apply (Forall_lookup_1 _ _ _ _ Ha Hi). Qed.

(** One step, and what is left to do then. *)
Lemma go_step_described w gs ds i g :
  described w gs ds → gs !! i = Some g →
  ∃ o ns g' w' ns', ds !! i = Some (o, ns) ∧ go_step g w = (Ret g', w') ∧
    described w' (<[i := g']> gs) (<[i := (o, ns')]> ds) ∧ st_evolves w w' ∧
    ((ns' = ns ∧ ∀ m, st_data w' m = st_data w m) ∨
     ∃ n, ns = n :: ns' ∧ writes_at w w' n o).
Proof.
  intros [Hok HF] Hg. destruct (Forall2_lookup_l _ _ _ _ _ HF Hg) as ([o ns] & Hd & Hw).
  destruct (go_step_spec w o g ns Hok Hw) as (g' & w' & ns' & E & He & Hw' & Hcase).
  exists o, ns, g', w', ns'. split_and!; [done|done| |done|done].
  split; [apply He|]. apply Forall2_insert; [|done].
  eapply Forall2_impl; [done|]. intros ? [? ?]. by apply g_will_evolves.
Qed.

(** One step is progress. *)
Lemma go_step_progress w gs ds i g :
  described w gs ds → gs !! i = Some g →
  ∃ g' w' ds', go_step g w = (Ret g', w') ∧ described w' (<[i := g']> gs) ds' ∧
    progress w ds w' ds'.
Proof.
  intros Hds Hg.
  destruct (go_step_described w gs ds i g Hds Hg) as (o & ns & g' & w' & ns' & Hd & E & Hds' & He & Hcase).
  exists g', w', (<[i := (o, ns')]> ds). split_and!; [done|done|].
  assert (less_to_do (o, ns') (o, ns)) as Hless.
  { split; [done|]. simpl. destruct Hcase as [[-> _]|(n & -> & _)]; [done|]. by exists [n]. }
  split_and!; [done| |].
  - rewrite <- (list_insert_id ds i (o, ns)) at 2 by done.
    apply Forall2_insert; [|done]. by apply reflexivity.
  - intros n k v Ha. split.
    + intros Hk. destruct Hcase as [[_ Hs]|(n' & -> & Hs & Hs')]; [by rewrite Hs|].
      destruct (decide (n = n')) as [->|]; [|by rewrite Hs'].
      rewrite Hs, op_apply_lookup. case_decide; [|done].
      apply (agree_lookup n' k v ds i (o, n' :: ns')); [done..|by left|done].
    + intros m (j & d & Hm & Hj & Hin & Hk). destruct (decide (j = i)) as [->|Hne].
      2: { right. exists j, d. by rewrite list_lookup_insert_ne. }
      rewrite Hd in Hj. simplify_eq/=. pose proof (lookup_lt_Some _ _ _ Hd) as Hlt.
      destruct Hcase as [[-> _]|(n' & -> & Hs & _)].
      { right. exists i, (o, ns). by rewrite list_lookup_insert_eq. }
      apply elem_of_cons in Hin as [->|Hin].
      * left. rewrite Hs, op_apply_lookup, decide_True by done.
        apply (agree_lookup n' (op_key o) v ds i (o, n' :: ns')); [done..|by left|done].
      * right. exists i, (o, ns'). by rewrite list_lookup_insert_eq.
Qed.

(** Waiting: it returns, whatever the schedule; the awaited goroutines have done
    their work and the others got on. *)
Lemma wait_spec sched gs gw ds dd :
  described (store gw) (gs ++ detached gw) (ds ++ dd) → length ds = length gs →
  ∃ gw' dd', wait sched gs gw = (Ret tt, gw') ∧
    described (store gw') (detached gw') dd' ∧
    st_evolves (store gw) (store gw') ∧ Forall2 less_to_do dd' dd ∧
    ∀ n k v, agree n k v (ds ++ dd) →
      (st_data (store gw) n !! k = v → st_data (store gw') n !! k = v) ∧
      (pending n k ds → st_data (store gw') n !! k = v) ∧
      (pending n k dd → st_data (store gw') n !! k = v ∨ pending n k dd').
Proof.
  intros Hdesc Hlen.
  set (P := λ w gs', ∃ ds', described w gs' ds' ∧ progress (store gw) (ds ++ dd) w ds').
  destruct (wait_inv P sched gs gw) as (gw' & E & ds' & [Hok HF] & He & Hless & Hp).
  { intros w gs' i g (ds' & Hd' & Hp') Hg.
    destruct (go_step_progress w gs' ds' i g Hd' Hg) as (g' & w' & ds2 & E & Hd2 & Hp2).
    exists g', w'. split; [done|]. exists ds2. split; [done|]. by eapply progress_trans. }
  { exists (ds ++ dd). split; [done|]. apply progress_refl, Hdesc. }
  apply Forall2_app_inv_r in Hless as (ds1 & dd' & Hl1 & Hl2 & ->).
  pose proof (Forall2_length _ _ _ Hl1) as Hlen1.
  apply Forall2_app_inv in HF as [HF1 HF2]; [|rewrite length_replicate; lia].
  exists gw', dd'. split_and!; [done|by split|done|done|].
  intros n k v Ha. destruct (Hp n k v Ha) as [H1 H2]. split; [done|].
  assert (∀ j d', (ds1 ++ dd') !! j = Some d' → n ∈ d'.2 → (length ds ≤ j)%nat) as Hdone.
  { intros j d' Hjd Hin. destruct (decide (length ds ≤ j)%nat) as [|Hj]; [done|].
    rewrite lookup_app_l in Hjd by lia.
    destruct (Forall2_lookup_r _ _ _ _ _ HF1 Hjd) as (g & Hg & Hw).
    apply lookup_replicate in Hg as [-> _].
    assert (d'.2 = []) as E' by by inversion Hw. rewrite E' in Hin. by apply elem_of_nil in Hin. }
  split; intros (d & Hd & Hn & Hk); apply list_elem_of_lookup in Hd as [i Hi];
    pose proof (lookup_lt_Some _ _ _ Hi) as Hlt.
  - destruct (H2 (length ds)) as [?|(j & d' & Hj & Hjd & Hin & _)]; [|done|].
    { exists i, d. by rewrite lookup_app_l. }
    specialize (Hdone j d' Hjd Hin). lia.
  - destruct (H2 (length ds + length dd)%nat) as [?|(j & d' & Hj & Hjd & Hin & Hk')]; [|by left|].
    { exists (length ds + i)%nat, d. split; [lia|]. rewrite lookup_app_r by lia.
      by replace (length ds + i - length ds)%nat with i by lia. }
    right. exists d'. split_and!; [|done..]. specialize (Hdone j d' Hjd Hin).
    rewrite lookup_app_r in Hjd by lia. by eapply list_elem_of_lookup_2.
Qed.

(** The goroutines run to their end, and nothing else does. *)
Lemma finish_spec w gs ds :
  described w gs ds →
  ∃ w', run_sched (finish 0 gs) gs w = (Ret (replicate (length gs) GDone), w') ∧ st_evolves w w' ∧
    ∀ n k v, agree n k v ds →
      (st_data w n !! k = v → st_data w' n !! k = v) ∧ (pending n k ds → st_data w' n !! k = v).
Proof.
  intros Hd. pose proof (Forall2_length _ _ _ (proj2 Hd)) as Hlen.
  destruct (wait_spec [] gs (mkGWorld w []) ds []) as (gw' & dd' & E & _ & He & _ & Hp);
    [simpl; by rewrite !app_nil_r|done|].
  unfold wait in E. cbn [app store detached] in E, He, Hp. rewrite !app_nil_r in *.
  destruct (run_sched (finish 0 gs) gs w) as [[all| |] w'] eqn:Er; simplify_eq. exists w'. split_and!; [|done|].
  - repeat f_equal. pose proof (run_sched_size _ _ _ _ _ Er) as [Hl _]. rewrite <- (take_ge all (length gs)) by lia.
    by apply (run_sched_finished [] gs [] w all w'); simpl; rewrite app_nil_r.
  - intros n k v Ha. by destruct (Hp n k v Ha) as (? & ? & _).
Qed.

(** Waiting while nobody else runs. *)
Lemma wait_alone gs d w w' :
  run_sched (finish 0 gs) gs w = (Ret (replicate (length gs) GDone), w') →
  wait [] gs (mkGWorld w d) = (Ret tt, mkGWorld w' d).
Proof.
  intros E. unfold wait. cbn [app store detached].
  rewrite (run_sched_head _ _ d _ _ _ (finish_below gs) E). by rewrite drop_app_length' by (by rewrite length_replicate).
Qed.

(** The last goroutines settle before the first. *)
Lemma settle_last_first g1 g2 w w1 w2 :
  run_sched (finish 0 g2) g2 w = (Ret (replicate (length g2) GDone), w1) →
  run_sched (finish 0 g1) g1 w1 = (Ret (replicate (length g1) GDone), w2) →
  settle (((λ i, length g1 + i)%nat <$> finish 0 g2) ++ finish 0 g1) (mkGWorld w (g1 ++ g2)) =
    (Ret tt, mkGWorld w2 []).
Proof.
  intros E2 E1. unfold settle, wait. cbn [store detached]. rewrite app_nil_r, <- app_assoc.
  rewrite (run_sched_app _ _ _ _ _ _ (run_sched_tail _ g1 _ _ _ _ E2)).
  rewrite (run_sched_app _ _ _ _ _ _ (run_sched_head _ _ _ _ _ _ (finish_below g1) E1)).
  rewrite <- replicate_add, run_sched_done. rewrite drop_ge; [done|].
  rewrite length_replicate, length_app. lia.
Qed.

(** When the background has settled everything left to do is done. *)
Lemma settle_spec sched gw dd :
  described (store gw) (detached gw) dd →
  ∃ gw', settle sched gw = (Ret tt, gw') ∧ detached gw' = [] ∧
    st_evolves (store gw) (store gw') ∧
    ∀ n k v, agree n k v dd →
      (st_data (store gw) n !! k = v → st_data (store gw') n !! k = v) ∧
      (pending n k dd → st_data (store gw') n !! k = v).
Proof.
  intros Hd. pose proof (Forall2_length _ _ _ (proj2 Hd)) as Hlen.
  destruct (wait_spec sched (detached gw) (mkGWorld (store gw) []) dd [])
    as (gw' & dd' & E & [_ HF] & He & Hl & Hp); [simpl; by rewrite !app_nil_r|done|].
  exists gw'. split_and!; [done| |done|].
  - inversion Hl; simplify_eq. by inversion HF.
  - rewrite app_nil_r in Hp. intros n k v Ha. by destruct (Hp n k v Ha) as (? & ? & _).
Qed.
End effects.
