(* ===== verification/Chain.v ===== *)
(** Chain replication: src/pkg/consistent/chain/chain.go and
    src/pkg/consistent/level.go.

    A linearizable write goes through the whole chain before it returns and a
    linearizable read asks the tail; a sequential write returns after the head and
    leaves the rest to a goroutine, and a sequential read asks a random node. *)
From stdpp Require Import base gmap list strings.
From S2P Require Import Prelude Config Database ChainNode Runtime.

Open Scope Z_scope.

Abbreviation CONSISTENCY := string (only parsing).
Definition SEQUENTIAL : CONSISTENCY := "SEQUENTIAL".
Definition LINEARIZABLE : CONSISTENCY := "LINEARIZABLE".

Record Chain := mkChain { head : option ChainNode; tail : ChainNode; len : Z }.

Definition GetHead (c : Chain) : option ChainNode := head c.
Definition GetTail (c : Chain) : ChainNode := tail c.
Definition GetLen (c : Chain) : Z := len c.

(** The node after which [prev] points when the loop ends: the last one, or the dummy. *)
Definition chain_tail (first : option ChainNode) : ChainNode :=
  default (NewNode (-1) None) (first ≫= λ n, last (node_list n)).

Definition NewChainWithDatbases (dbs : list Database) : Chain :=
  mkChain (link 0 dbs) (chain_tail (link 0 dbs)) (Z.of_nat (length dbs)).

Section chain.
Context `{Redigo}.

Fixpoint open_mems (nodes : list string) : M dbworld (list Database) :=
  match nodes with
  | [] => gret []
  | n :: nodes' =>
      do! db <- NewMemDatabase n;
      do! dbs <- open_mems nodes';
      gret (db :: dbs)
  end.

Fixpoint find_storages (nodes : list string) : M dbworld (list Database) :=
  match nodes with
  | [] => gret []
  | n :: nodes' => λ w,
      match Storages w !! n with
      | None => (Fail ("storage not found for " +:+ n), w)
      | Some db => (do! dbs <- find_storages nodes'; gret (db :: dbs)) w
      end
  end.

Definition NewChain (nodeType : string) (nodes : list string) : M dbworld Chain :=
  if (length nodes =? 0)%nat then gfail "the number of nodes is 0"
  else if (length nodes =? 1)%nat then
    gfail "the number of nodes is 1, which means there is no replica"
  else if bool_decide (nodeType = Memory) then
    do! dbs <- open_mems nodes; gret (NewChainWithDatbases dbs)
  else
    do! dbs <- find_storages nodes; gret (NewChainWithDatbases dbs).

(** [c.head.db], and the call [c.head.next.Write(…)], with nil pointers. *)
Definition head_db (c : Chain) : option Database := head c ≫= GetDB.
Definition head_next (c : Chain) : option ChainNode := head c ≫= GetNext.
Definition on_node {A} (n : option ChainNode) (f : ChainNode → M dbworld A) : M dbworld A :=
  match n with Some n => f n | None => gpanic nil_deref end.

Definition Chain_Write (c : Chain) (key val : string) (consistency : CONSISTENCY)
    : M gworld unit :=
  do! r <- try (on_store (on_db (head_db c) (λ d, Database_Put d key val)));
  match r with
  | inr err => gfail err
  | inl _ =>
      if bool_decide (consistency = LINEARIZABLE) then
        on_store (on_node (head_next c) (λ n, ChainNode_Write n key val))
      else if bool_decide (consistency = SEQUENTIAL) then
        spawn [GNode (head_next c) (OpPut key val)]
      else gret tt
  end.

Definition Chain_Delete (c : Chain) (key : string) (consistency : CONSISTENCY)
    : M gworld unit :=
  do! r <- try (on_store (on_db (head_db c) (λ d, Database_Delete d key)));
  match r with
  | inr err => gfail err
  | inl _ =>
      if bool_decide (consistency = LINEARIZABLE) then
        on_store (on_node (head_next c) (λ n, ChainNode_Delete n key))
      else if bool_decide (consistency = SEQUENTIAL) then
        spawn [GNode (head_next c) (OpDelete key)]
      else gret tt
  end.

(** [idx] is the random number drawn by [rand.Intn(c.len)]. *)
Definition Chain_Read (idx : Z) (c : Chain) (key : string) (consistency : CONSISTENCY)
    : M dbworld string :=
  if bool_decide (consistency = LINEARIZABLE) then ChainNode_Read (tail c) key
  else if bool_decide (consistency = SEQUENTIAL) then
    if len c <=? 0 then gpanic "invalid argument to Intn"
    else match list_find (λ t, GetID t = idx) (from_option node_list [] (head c)) with
         | Some (_, t) => ChainNode_Read t key
         | None => gfail "failed to read value"
         end
  else gfail "consistency level does not implemented".
End chain.

(** * Facts *)

Section facts.
Context {R : Redigo} {T : string} {L : StoreLaws T}.

Lemma link_nodes i d dbs :
  ∃ next, link i (d :: dbs) = Some (mkNode i next (Some d)) ∧ next = link (i + 1) dbs.
Proof. by eexists. Qed.

Lemma node_list_link i dbs :
  from_option node_list [] (link i dbs) =
    imap (λ j d, mkNode (i + Z.of_nat j) (link (i + Z.of_nat j + 1) (drop (S j) dbs)) (Some d)) dbs.
Proof.
  revert i. induction dbs as [|d dbs IH]; intros i; [done|].
  specialize (IH (i + 1)). simpl. rewrite Z.add_0_r. f_equal.
  transitivity (from_option node_list [] (link (i + 1) dbs)); [by destruct (link (i + 1) dbs)|].
  rewrite IH. apply imap_ext. intros j d' _. simpl.
  by replace (i + 1 + Z.of_nat j) with (i + Z.of_nat (S j)) by lia.
Qed.

Lemma link_refers w i dbs ns nd :
  Forall2 (st_refers w) dbs ns → link i dbs = Some nd → nodes_refer w nd ns.
Proof.
  intros HF Hl. unfold nodes_refer.
  assert (node_list nd = from_option node_list [] (link i dbs)) as -> by by rewrite Hl.
  rewrite node_list_link. clear Hl. apply Forall2_same_length_lookup. rewrite length_imap.
  split; [by eapply Forall2_length|]. intros j nd' n Hj Hn.
  rewrite list_lookup_imap in Hj. destruct (Forall2_lookup_r _ _ _ _ _ HF Hn) as (d & Hd & Hr).
  rewrite Hd in Hj. simplify_eq/=. by exists d.
Qed.

(** All of [ns] apply [o]; nothing else changes. *)
Definition writes_all (w w' : dbworld) (ns : list string) (o : op) : Prop :=
  ∀ n k, st_data w' n !! k =
    if decide (n ∈ ns ∧ op_key o = k) then op_result o else st_data w n !! k.

Lemma writes_all_cons w w1 w2 n ns o :
  writes_at w w1 n o → writes_all w1 w2 ns o → writes_all w w2 (n :: ns) o.
Proof.
  intros [H1 H2] H3 m k. rewrite H3. destruct (decide (m = n)) as [->|Hne].
  - rewrite H1, op_apply_lookup. repeat case_decide; set_solver.
  - rewrite H2 by done. repeat case_decide; set_solver.
Qed.

Lemma writes_all_one w w1 n o : writes_at w w1 n o → writes_all w w1 [n] o.
Proof. intros H. eapply writes_all_cons; [done|]. intros m k. by rewrite decide_False by set_solver. Qed.

(** A chain that does not fail writes all its nodes. *)
Lemma ChainNode_Write_spec w nd ns k v :
  st_ok w → nodes_refer w nd ns →
  ∃ w', ChainNode_Write nd k v w = (Ret tt, w') ∧ st_evolves w w' ∧
    writes_all w w' ns (OpPut k v).
Proof.
  revert w nd. induction ns as [|n ns IH]; intros w [id next db] Hok Hr;
    unfold nodes_refer in Hr; simpl in Hr; inversion Hr as [|? ? ? ? (d & Hdb & Hd) Hrest].
  simplify_eq/=. unfold gbind, try. simpl.
  destruct (st_put w d n k v Hok Hd) as (s & w1 & -> & He & Hw1 & Hw2).
  destruct next as [nd'|].
  - destruct (IH w1 nd') as (w2 & -> & He2 & Hw); [apply He| |].
    { eapply Forall2_impl; [exact Hrest|]. intros ? ? (d' & ? & ?). exists d'.
      split; [done|]. by apply He. }
    exists w2. split_and!; [done|by etrans|]. by eapply writes_all_cons.
  - inversion Hrest; simplify_eq. exists w1. split_and!; [done|done|]. by apply writes_all_one.
Qed.

Lemma ChainNode_Delete_spec w nd ns k :
  st_ok w → nodes_refer w nd ns →
  ∃ w', ChainNode_Delete nd k w = (Ret tt, w') ∧ st_evolves w w' ∧
    writes_all w w' ns (OpDelete k).
Proof.
  revert w nd. induction ns as [|n ns IH]; intros w [id next db] Hok Hr;
    unfold nodes_refer in Hr; simpl in Hr; inversion Hr as [|? ? ? ? (d & Hdb & Hd) Hrest].
  simplify_eq/=. unfold gbind, try. simpl.
  destruct (st_delete w d n k Hok Hd) as (w1 & -> & He & Hw1 & Hw2).
  destruct next as [nd'|].
  - destruct (IH w1 nd') as (w2 & -> & He2 & Hw); [apply He| |].
    { eapply Forall2_impl; [exact Hrest|]. intros ? ? (d' & ? & ?). exists d'.
      split; [done|]. by apply He. }
    exists w2. split_and!; [done|by etrans|]. by eapply writes_all_cons.
  - inversion Hrest; simplify_eq. exists w1. split_and!; [done|done|]. by apply writes_all_one.
Qed.

Lemma NewChain_heads d1 d2 dbs :
  let c := NewChainWithDatbases (d1 :: d2 :: dbs) in
  head_db c = Some d1 ∧ head_next c = link 1 (d2 :: dbs).
Proof. done. Qed.

Lemma chain_tail_last i dbs :
  chain_tail (link i dbs) = default (NewNode (-1) None) (last (from_option node_list [] (link i dbs))).
Proof. unfold chain_tail. by destruct (link i dbs). Qed.

Lemma chain_tail_link i dbs :
  dbs ≠ [] → ∃ j d, dbs !! j = Some d ∧ chain_tail (link i dbs) = mkNode (i + Z.of_nat j) None (Some d) ∧ S j = length dbs.
Proof.
  intros Hne. rewrite chain_tail_last, node_list_link, last_lookup, length_imap, list_lookup_imap.
  destruct (lookup_lt_is_Some_2 dbs (pred (length dbs))) as [d Hd].
  { destruct dbs; [done|simpl; lia]. }
  assert (S (pred (length dbs)) = length dbs) as Hl by (destruct dbs; done).
  rewrite Hd. exists (pred (length dbs)), d. cbn [fmap option_fmap option_map default]. by rewrite Hl, drop_all.
Qed.

(** A chain has as many nodes as databases, numbered from its head to its tail. *)
Lemma chain_shape d dbs :
  let c := NewChainWithDatbases (d :: dbs) in
  GetLen c = Z.of_nat (length (from_option node_list [] (GetHead c))) ∧
  GetID <$> GetHead c = Some 0 ∧ GetID (GetTail c) = GetLen c - 1 ∧ GetNext (GetTail c) = None.
Proof.
  cbv zeta. unfold GetLen, GetHead, GetTail. cbn [head tail len NewChainWithDatbases].
  rewrite node_list_link, length_imap. split; [done|]. split; [done|].
  destruct (chain_tail_link 0 (d :: dbs)) as (j & d' & _ & -> & Hj); [done|]. rewrite <- Hj. simpl. split; [lia|done].
Qed.

Lemma find_link dbs idx :
  0 ≤ idx < Z.of_nat (length dbs) →
  ∃ j d nd, dbs !! j = Some d ∧ GetDB nd = Some d ∧
    list_find (λ t, GetID t = idx) (from_option node_list [] (link 0 dbs)) = Some (j, nd).
Proof.
  intros Hidx. destruct (lookup_lt_is_Some_2 dbs (Z.to_nat idx)) as [d Hd]; [lia|].
  eexists (Z.to_nat idx), d, _. split_and!; [done| |].
  2: { apply list_find_Some. rewrite node_list_link, list_lookup_imap, Hd. simpl.
       split_and!; [done|simpl; lia|]. intros j nd Hj Hlt.
       rewrite list_lookup_imap in Hj. destruct (dbs !! j); simplify_eq/=. lia. }
  done.
Qed.

(** Reads of a chain all of whose stores have the value. *)
Lemma Chain_Read_spec w dbs ns k v idx consistency :
  st_ok w → Forall2 (st_refers w) dbs ns → (∀ n, n ∈ ns → st_data w n !! k = Some v) →
  0 ≤ idx < Z.of_nat (length dbs) → consistency = LINEARIZABLE ∨ consistency = SEQUENTIAL →
  (Chain_Read idx (NewChainWithDatbases dbs) k consistency w).1 = Ret v.
Proof.
  intros Hok HF Hv Hidx Hc.
  assert (∀ j d nd, dbs !! j = Some d → GetDB nd = Some d → (ChainNode_Read nd k w).1 = Ret v) as Hget.
  { intros j d nd Hj Hnd. destruct (Forall2_lookup_l _ _ _ _ _ HF Hj) as (n & Hn & Hr).
    unfold ChainNode_Read. rewrite Hnd. simpl.
    destruct (st_get w d n k v Hok Hr) as (w' & -> & _); [|done].
    apply Hv. by eapply list_elem_of_lookup_2. }
  destruct Hc as [->| ->].
  - destruct (chain_tail_link 0 dbs) as (j & d & Hj & Hd & _); [by intros ->; simpl in *; lia|].
    apply (Hget j d); [done|cbn [tail NewChainWithDatbases]; by rewrite Hd].
  - destruct (find_link dbs idx Hidx) as (j & d & nd & Hj & Hd & Hf).
    unfold Chain_Read. rewrite bool_decide_false, bool_decide_true by done.
    cbn [len head NewChainWithDatbases]. rewrite (proj2 (Z.leb_gt _ _)) by lia.
    rewrite Hf. by apply (Hget j d).
Qed.

(** The head is written in place, then the rest. *)
Lemma Chain_Write_head c d n gw k v consistency :
  head_db c = Some d → st_ok (store gw) → st_refers (store gw) d n →
  ∃ w1, st_evolves (store gw) w1 ∧ writes_at (store gw) w1 n (OpPut k v) ∧
    Chain_Write c k v consistency gw =
      (if bool_decide (consistency = LINEARIZABLE) then
         on_store (on_node (head_next c) (λ n, ChainNode_Write n k v))
       else if bool_decide (consistency = SEQUENTIAL) then
         spawn [GNode (head_next c) (OpPut k v)]
       else gret tt) (mkGWorld w1 (detached gw)).
Proof.
  intros Hd Hok Hr. destruct (st_put _ d n k v Hok Hr) as (s & w1 & E & He & Hw).
  exists w1. split_and!; [done|done|]. unfold Chain_Write, gbind, try, on_store at 1.
  rewrite Hd. simpl. by rewrite E.
Qed.

Lemma Chain_Delete_head c d n gw k consistency :
  head_db c = Some d → st_ok (store gw) → st_refers (store gw) d n →
  ∃ w1, st_evolves (store gw) w1 ∧ writes_at (store gw) w1 n (OpDelete k) ∧
    Chain_Delete c k consistency gw =
      (if bool_decide (consistency = LINEARIZABLE) then
         on_store (on_node (head_next c) (λ n, ChainNode_Delete n k))
       else if bool_decide (consistency = SEQUENTIAL) then
         spawn [GNode (head_next c) (OpDelete k)]
       else gret tt) (mkGWorld w1 (detached gw)).
Proof.
  intros Hd Hok Hr. destruct (st_delete _ d n k Hok Hr) as (w1 & E & He & Hw).
  exists w1. split_and!; [done|done|]. unfold Chain_Delete, gbind, try, on_store at 1.
  rewrite Hd. simpl. by rewrite E.
Qed.

Lemma Chain_Write_linearizable gw dbs ns k v :
  st_ok (store gw) → Forall2 (st_refers (store gw)) dbs ns → (2 ≤ length dbs)%nat →
  ∃ w', Chain_Write (NewChainWithDatbases dbs) k v LINEARIZABLE gw
      = (Ret tt, mkGWorld w' (detached gw)) ∧
    st_evolves (store gw) w' ∧ writes_all (store gw) w' ns (OpPut k v).
Proof.
  intros Hok HF Hlen. destruct dbs as [|d1 [|d2 dbs]]; [simpl in *; lia..|].
  inversion HF as [|? n1 ? ns' Hr1 HF']; simplify_eq.
  destruct (Chain_Write_head (NewChainWithDatbases (d1 :: d2 :: dbs)) d1 n1 gw k v LINEARIZABLE)
    as (w1 & He & Hw & ->); [done..|].
  rewrite bool_decide_true by done.
  assert (nodes_refer w1 (mkNode 1 (link 2 dbs) (Some d2)) ns') as Hnr.
  { eapply (link_refers _ 1 (d2 :: dbs)); [|done]. eapply Forall2_impl; [done|]. apply He. }
  destruct (ChainNode_Write_spec w1 _ ns' k v (proj1 He) Hnr) as (w2 & E & He2 & Hw2).
  change (head_next _) with (Some (mkNode 1 (link 2 dbs) (Some d2))).
  exists w2. unfold on_store, on_node. cbn [store detached]. rewrite E.
  split_and!; [done|by etrans|by eapply writes_all_cons].
Qed.

Lemma Chain_Delete_linearizable gw dbs ns k :
  st_ok (store gw) → Forall2 (st_refers (store gw)) dbs ns → (2 ≤ length dbs)%nat →
  ∃ w', Chain_Delete (NewChainWithDatbases dbs) k LINEARIZABLE gw
      = (Ret tt, mkGWorld w' (detached gw)) ∧
    st_evolves (store gw) w' ∧ writes_all (store gw) w' ns (OpDelete k).
Proof.
  intros Hok HF Hlen. destruct dbs as [|d1 [|d2 dbs]]; [simpl in *; lia..|].
  inversion HF as [|? n1 ? ns' Hr1 HF']; simplify_eq.
  destruct (Chain_Delete_head (NewChainWithDatbases (d1 :: d2 :: dbs)) d1 n1 gw k LINEARIZABLE)
    as (w1 & He & Hw & ->); [done..|].
  rewrite bool_decide_true by done.
  assert (nodes_refer w1 (mkNode 1 (link 2 dbs) (Some d2)) ns') as Hnr.
  { eapply (link_refers _ 1 (d2 :: dbs)); [|done]. eapply Forall2_impl; [done|]. apply He. }
  destruct (ChainNode_Delete_spec w1 _ ns' k (proj1 He) Hnr) as (w2 & E & He2 & Hw2).
  change (head_next _) with (Some (mkNode 1 (link 2 dbs) (Some d2))).
  exists w2. unfold on_store, on_node. cbn [store detached]. rewrite E.
  split_and!; [done|by etrans|by eapply writes_all_cons].
Qed.
End facts.

(** Opening a chain over memory stores. *)
Section open.
Context {R : Redigo}.

Lemma open_mems_spec ns w :
  mem_ok w →
  ∃ dbs w', open_mems ns w = (Ret dbs, w') ∧ Forall2 (mem_refers w') dbs ns ∧
    st_evolves (T:=Memory) w w' ∧ ∀ m, mem_data w' m = mem_data w m.
Proof.
  revert w. induction ns as [|n ns IH]; intros w Hok; simpl.
  { exists [], w. split_and!; [done|constructor|by split_and!|done]. }
  destruct (mem_open w n 0 Hok I) as (d & w1 & E & Hr & He & Hd).
  change (FactoryWithNameAndLatency Memory n 0) with (NewMemDatabase n) in E.
  destruct (IH w1 (proj1 He)) as (dbs & w2 & E2 & HF & He2 & Hd2).
  unfold gbind. rewrite E, E2. exists (d :: dbs), w2. split_and!; [done| | |].
  - constructor; [by apply He2|done].
  - by etrans.
  - intros m. by rewrite Hd2.
Qed.

Lemma NewChain_mem ns w :
  mem_ok w → (2 ≤ length ns)%nat →
  ∃ dbs w', NewChain Memory ns w = (Ret (NewChainWithDatbases dbs), w') ∧
    Forall2 (mem_refers w') dbs ns ∧
    st_evolves (T:=Memory) w w' ∧ ∀ m, mem_data w' m = mem_data w m.
Proof.
  intros Hok Hlen. destruct (open_mems_spec ns w Hok) as (dbs & w' & E & H).
  exists dbs, w'. split; [|done]. unfold NewChain. destruct ns as [|? [|? ns]]; [simpl in *; lia..|].
  cbn [length Nat.eqb]. rewrite bool_decide_true by done. unfold gbind. by rewrite E.
Qed.
End open.

(** A redis deployment that cannot be reached. *)
Definition down_Redigo : Redigo := {|
  net := unit; conn := unit;
  redis_Dial _ n := (inr "dial tcp: connection refused", n);
  conn_Do _ _ n := (inr "use of closed network connection", n);
  conn_Close _ n := (tt, n);
  pool_Close _ n := (Ret tt, n);
|}.
Definition down_world : dbworld (H:=down_Redigo) :=
  mkWorld down_Redigo [] ∅ [] ∅ (Some (demo_conf Redis)) ∅ false tt 0.

(** * Properties *)

(** C20. A linearizable write to a chain of two or more working stores succeeds, has
    reached every node and nothing else when it returns, and any read of the chain,
    at the tail or at a random node, then returns the value. *)
Theorem chain_linearizable `{StoreLaws T} gw dbs ns k v :
  st_ok (store gw) → Forall2 (st_refers (store gw)) dbs ns → (2 ≤ length dbs)%nat →
  ∃ gw', Chain_Write (NewChainWithDatbases dbs) k v LINEARIZABLE gw = (Ret tt, gw') ∧
    detached gw' = detached gw ∧ writes_all (store gw) (store gw') ns (OpPut k v) ∧
    ∀ idx consistency, 0 ≤ idx < Z.of_nat (length dbs) →
      consistency = LINEARIZABLE ∨ consistency = SEQUENTIAL →
      (Chain_Read idx (NewChainWithDatbases dbs) k consistency (store gw')).1 = Ret v.
Proof.
  intros Hok HF Hlen.
  destruct (Chain_Write_linearizable gw dbs ns k v Hok HF Hlen) as (w' & -> & He & Hw).
  exists (mkGWorld w' (detached gw)). split_and!; [done..|]. intros idx consistency Hidx Hc.
  apply (Chain_Read_spec w' dbs ns); [apply He| | |done..].
  - eapply Forall2_impl; [exact HF|]. intros. by apply He.
  - intros n Hn. by rewrite Hw, decide_True.
Qed.

(** C21. A sequential write returns when the head has the value; the remaining nodes get
    it in the background: in whatever order the pending goroutines run, once they are
    finished every node of the chain has it, provided none of them was to give that
    key another value. *)
Theorem chain_sequential `{StoreLaws T} gw dbs ns k v dd sched :
  described (store gw) (detached gw) dd → (∀ n, n ∈ ns → agree n k (Some v) dd) →
  Forall2 (st_refers (store gw)) dbs ns → (2 ≤ length dbs)%nat →
  ∃ gw' gw'', Chain_Write (NewChainWithDatbases dbs) k v SEQUENTIAL gw = (Ret tt, gw') ∧
    (∀ n, ns !! 0%nat = Some n → st_data (store gw') n !! k = Some v) ∧
    settle sched gw' = (Ret tt, gw'') ∧ detached gw'' = [] ∧
    ∀ n, n ∈ ns → st_data (store gw'') n !! k = Some v.
Proof.
  intros [Hok Hdesc] Ha HF Hlen. destruct dbs as [|d1 [|d2 dbs]]; [simpl in *; lia..|].
  inversion HF as [|? n1 ? ns' Hr1 HF']; simplify_eq.
  destruct (Chain_Write_head (NewChainWithDatbases (d1 :: d2 :: dbs)) d1 n1 gw k v SEQUENTIAL)
    as (w1 & He & Hw & ->); [done..|].
  rewrite bool_decide_false, bool_decide_true by done.
  assert (nodes_refer w1 (mkNode 1 (link 2 dbs) (Some d2)) ns') as Hnr.
  { eapply (link_refers _ 1 (d2 :: dbs)); [|done]. eapply Forall2_impl; [done|]. apply He. }
  unfold spawn. cbn [store detached].
  set (gw' := mkGWorld w1 (detached gw ++ _)).
  destruct (settle_spec sched gw' (dd ++ [(OpPut k v, ns')])) as (gw'' & E & Hdet & He' & Hp).
  { split; [apply He|]. apply Forall2_app.
    - eapply Forall2_impl; [done|]. intros. by eapply g_will_evolves.
    - constructor; [by constructor|constructor]. }
  assert (st_data w1 n1 !! k = Some v) as Hn1.
  { rewrite (proj1 Hw), op_apply_lookup. by rewrite decide_True. }
  exists gw', gw''. split_and!; [done|by intros n [= <-]|done|done|].
  assert (∀ n, n ∈ n1 :: ns' → agree n k (Some v) (dd ++ [(OpPut k v, ns')])) as Hag.
  { intros n Hn. apply Forall_app. split; [by apply Ha|]. by constructor. }
  intros n Hn. destruct (Hp n k (Some v) (Hag n Hn)) as [H1 H2].
  apply elem_of_cons in Hn as [->|Hn]; [by apply H1|].
  apply H2. exists (OpPut k v, ns'). split_and!; [set_solver|done..].
Qed.

(** When a node of the chain fails, a write stops there and reports the error, but a
    delete reports success: the error of [ChainNode.Delete] is dropped. *)
Theorem ChainNode_errors `{Redigo} id next d k v w e w' :
  (Database_Put d k v w = (Fail e, w') →
   ChainNode_Write (mkNode id next (Some d)) k v w = (Fail e, w')) ∧
  (Database_Delete d k w = (Fail e, w') →
   ChainNode_Delete (mkNode id next (Some d)) k w = (Ret tt, w')).
Proof.
  split; intros E; simpl; unfold gbind, try; simpl; rewrite E; [done|by destruct next].
Qed.

Lemma ChainNode_errors_witness :
  let w := (createRedisDatabase (H:=down_Redigo) "10.0.0.1:6379" down_world).2 in
  let nd := mkNode 0 None (Some (redisDatabase 0)) in
  (ChainNode_Write nd "k" "v" w).1 = Fail "dial tcp: connection refused" ∧
  (ChainNode_Delete nd "k" w).1 = Ret tt.
Proof.
  intros w nd.
  destruct (ChainNode_errors (H:=down_Redigo) 0 None (redisDatabase 0) "k" "v" w
    "dial tcp: connection refused" (Database_Put (redisDatabase 0) "k" "v" w).2) as [Hw _].
  destruct (ChainNode_errors (H:=down_Redigo) 0 None (redisDatabase 0) "k" "v" w
    "dial tcp: connection refused" (Database_Delete (redisDatabase 0) "k" w).2) as [_ Hd].
  split.
  - unfold nd. rewrite Hw; [done|]. apply pair_snd. by vm_compute.
  - unfold nd. rewrite Hd; [done|]. apply pair_snd. by vm_compute.
Defined.

(** The two-node chain over the memory stores "a" and "b". *)
Lemma chain_linearizable_witness :
  ∃ dbs w gw', NewChain Memory ["a"; "b"] (demo_world Memory) = (Ret (NewChainWithDatbases dbs), w) ∧
    Chain_Write (NewChainWithDatbases dbs) "1" "v" LINEARIZABLE (mkGWorld w []) = (Ret tt, gw') ∧
    (Chain_Read 1 (NewChainWithDatbases dbs) "1" SEQUENTIAL (store gw')).1 = Ret "v".
Proof.
  destruct (NewChain_mem ["a"; "b"] (demo_world Memory)) as (dbs & w & E & HF & He & _);
    [apply demo_world_mem_ok|simpl; lia|].
  pose proof (Forall2_length _ _ _ HF) as Hlen. simpl in Hlen.
  destruct (chain_linearizable (T:=Memory) (mkGWorld w []) dbs ["a"; "b"] "1" "v")
    as (gw' & Ew & _ & _ & Hread); [apply He|done|lia|].
  exists dbs, w, gw'. split_and!; [done..|]. apply Hread; [lia|by right].
Defined.

Lemma chain_sequential_witness :
  ∃ dbs w gw' gw'', NewChain Memory ["a"; "b"] (demo_world Memory) = (Ret (NewChainWithDatbases dbs), w) ∧
    Chain_Write (NewChainWithDatbases dbs) "1" "v" SEQUENTIAL (mkGWorld w []) = (Ret tt, gw') ∧
    settle [] gw' = (Ret tt, gw'') ∧ mem_data (store gw'') "b" !! "1" = Some "v".
Proof.
  destruct (NewChain_mem ["a"; "b"] (demo_world Memory)) as (dbs & w & E & HF & He & _);
    [apply demo_world_mem_ok|simpl; lia|].
  pose proof (Forall2_length _ _ _ HF) as Hlen. simpl in Hlen.
  destruct (chain_sequential (T:=Memory) (mkGWorld w []) dbs ["a"; "b"] "1" "v" [] [])
    as (gw' & gw'' & Ew & _ & Es & _ & Hb);
    [split; [apply He|constructor]|intros; constructor|done|lia|].
  exists dbs, w, gw', gw''. split_and!; [done..|]. apply (Hb "b"). by right; left.
Defined.
