(* ===== verification/Piping.v ===== *)
(** The replication managers: src/pkg/piping.

    A [Piping] reads, writes and deletes the value of a revision on the stores the
    revision names.  [SyncAsyncPiping] (sync_async_piping_manager.go) waits for the
    stores of the first list and leaves those of the second to the background;
    [ChainPiping] (chain_piping_manager.go) runs a chain, or all its nodes at once.
    The calls that start goroutines take the schedule they run under. *)
From Stdlib Require Import Ascii.
From stdpp Require Import base gmap list strings pretty.
From S2P Require Import Prelude GoStd Revision Config Database ChainNode Runtime Chain.

Open Scope Z_scope.

Inductive Piping :=
  | ChainPiping (databaseType : string) (consistency : CONSISTENCY) (concurrent : bool)
  | SyncAsyncPiping (databaseType : string).

Definition NewChainPiping (databaseType : string) (consistency : CONSISTENCY) (concurrent : bool)
    : Piping := ChainPiping databaseType consistency concurrent.
Definition NewSyncAsyncPiping (storeType : string) : Piping := SyncAsyncPiping storeType.

(** * sync_async_piping_manager.go *)

Definition splitStores (stores : list string) : outcome (list string * list string) :=
  match stores with
  | [] => Fail "no stores in the revision"
  | s0 :: _ =>
      let syncNodes := Split "," s0 in
      if (length syncNodes <? 1)%nat then Fail "no sync stores in the revision"
      else
        let asyncNodes :=
          if (length stores =? 2)%nat
          then match stores !! 1%nat with Some s1 => Split "," s1 | None => [] end
          else [] in
        Ret (syncNodes, asyncNodes)
  end.

Section sync_async.
Context `{Redigo}.

(** The loop over the asynchronous stores: an empty name is skipped. *)
Definition async_goroutines (databaseType : string) (names : list string) (o : op)
    : list goroutine :=
  (λ name, GOpen databaseType name o) <$> filter (λ name, String.length name ≠ 0%nat) names.

(** The loop over the synchronous ones: for an empty name the goroutine returns. *)
Definition sync_goroutines (databaseType : string) (names : list string) (o : op)
    : list goroutine :=
  (λ name, if (String.length name <? 1)%nat then GDone else GOpen databaseType name o) <$> names.

Definition SyncAsyncPiping_Read (databaseType : string) (rev : Revision) : M gworld string :=
  do! (syncNodes, asyncNodes) <- glift (splitStores (Revision_GetNodes rev));
  match syncNodes, asyncNodes with
  | target :: _, _ | [], target :: _ =>
      on_store (do! database <- FactoryWithNameAndLatency databaseType target 0;
                Database_Get database (Revision_String rev))
  | [], [] => gfail ("the rev " +:+ Revision_String rev +:+ " does not have any nodes")
  end.

Definition SyncAsyncPiping_Write (databaseType : string) (sched : list nat) (rev : Revision)
    (val : string) : M gworld unit :=
  do! (syncNodes, asyncNodes) <- glift (splitStores (Revision_GetNodes rev));
  do! _ <- spawn (async_goroutines databaseType asyncNodes (OpPut (Revision_String rev) val));
  wait sched (sync_goroutines databaseType syncNodes (OpPut (Revision_String rev) val)).

Definition SyncAsyncPiping_Delete (databaseType : string) (sched : list nat) (rev : Revision)
    : M gworld unit :=
  do! (syncNodes, asyncNodes) <- glift (splitStores (Revision_GetNodes rev));
  do! _ <- spawn (async_goroutines databaseType asyncNodes (OpDelete (Revision_String rev)));
  wait sched (sync_goroutines databaseType syncNodes (OpDelete (Revision_String rev))).

(** * chain_piping_manager.go *)

Definition ChainPiping_Read (databaseType : string) (consistency : CONSISTENCY) (idx : Z)
    (rev : Revision) : M gworld string :=
  do! chain <- on_store (NewChain databaseType (Revision_GetNodes rev));
  on_store (Chain_Read idx chain (Revision_String rev) consistency).

Definition ChainPiping_ReadTail (databaseType : string) (rev : Revision) : M gworld string :=
  do! chain <- on_store (NewChain databaseType (Revision_GetNodes rev));
  on_store (ChainNode_Read (tail chain) (Revision_String rev)).

(** The loop [for p != nil] over the chain: a goroutine per node. *)
Definition node_goroutines (c : Chain) (o : op) : list goroutine :=
  (λ node, match GetDB node with Some d => GDb d o | None => GNode None o end) <$>
    from_option node_list [] (head c).

Definition ChainPiping_Write (databaseType : string) (consistency : CONSISTENCY)
    (concurrent : bool) (sched : list nat) (rev : Revision) (val : string) : M gworld unit :=
  do! nodeChains <- on_store (NewChain databaseType (Revision_GetNodes rev));
  if concurrent then
    wait sched (node_goroutines nodeChains (OpPut (Revision_String rev) val))
  else
    do! _ <- try (Chain_Write nodeChains (Revision_String rev) val consistency);
    gret tt.

Definition ChainPiping_Delete (databaseType : string) (consistency : CONSISTENCY)
    (concurrent : bool) (sched : list nat) (rev : Revision) : M gworld unit :=
  do! nodeChains <- on_store (NewChain databaseType (Revision_GetNodes rev));
  if concurrent then
    wait sched (node_goroutines nodeChains (OpDelete (Revision_String rev)))
  else
    do! _ <- try (Chain_Delete nodeChains (Revision_String rev) consistency);
    gret tt.

(** * The interface *)

(** [idx] is the random node a sequential chain read picks. *)
Definition Read (p : Piping) (idx : Z) (rev : Revision) : M gworld string :=
  match p with
  | ChainPiping t c _ => ChainPiping_Read t c idx rev
  | SyncAsyncPiping t => SyncAsyncPiping_Read t rev
  end.
Definition Write (p : Piping) (sched : list nat) (rev : Revision) (val : string) : M gworld unit :=
  match p with
  | ChainPiping t c conc => ChainPiping_Write t c conc sched rev val
  | SyncAsyncPiping t => SyncAsyncPiping_Write t sched rev val
  end.
Definition Delete (p : Piping) (sched : list nat) (rev : Revision) : M gworld unit :=
  match p with
  | ChainPiping t c conc => ChainPiping_Delete t c conc sched rev
  | SyncAsyncPiping t => SyncAsyncPiping_Delete t sched rev
  end.
End sync_async.

(** * What a piping promises *)

Section laws.
Context {R : Redigo}.

(** [pp_ok] the invariant of the backends and the pending goroutines, [pp_nodes] the
    store lists a revision may carry, [pp_fresh] that nothing pending concerns a
    key, [pp_holds] that the value of a revision can be read and will stay.  A call
    [pp_keeps] when everything about the other keys is as before.  A value that is
    gone may be asked for ([pp_Read_any]), and so may the revision of a deletion,
    which has no stores ([pp_Read_none]). *)
Class PipingLaws (p : Piping) := {
  pp_ok : gworld → Prop;
  pp_nodes : gworld → list string → Prop;
  pp_fresh : gworld → string → Prop;
  pp_holds : gworld → Revision → string → Prop;
  pp_keeps (P : string → Prop) (gw gw' : gworld) :=
    pp_ok gw' ∧ (∀ ns, pp_nodes gw ns → pp_nodes gw' ns) ∧
    (∀ k, P k → pp_fresh gw k → pp_fresh gw' k) ∧
    (∀ rev v, P (Revision_String rev) → pp_holds gw rev v → pp_holds gw' rev v);
  pp_Write gw sched rev v :
    pp_ok gw → pp_nodes gw (nodes rev) → pp_fresh gw (Revision_String rev) →
    ∃ gw', Write p sched rev v gw = (Ret tt, gw') ∧ pp_holds gw' rev v ∧
      pp_keeps (λ k, k ≠ Revision_String rev) gw gw';
  pp_Delete gw sched rev :
    pp_ok gw → pp_nodes gw (nodes rev) →
    ∃ gw', Delete p sched rev gw = (Ret tt, gw') ∧
      pp_keeps (λ k, k ≠ Revision_String rev) gw gw';
  pp_Read gw idx rev v :
    pp_ok gw → pp_holds gw rev v →
    ∃ gw', Read p idx rev gw = (Ret v, gw') ∧ pp_keeps (λ _, True) gw gw';
  pp_Read_any gw idx rev :
    pp_ok gw → pp_nodes gw (nodes rev) →
    no_panic (Read p idx rev gw).1 ∧ pp_keeps (λ _, True) gw (Read p idx rev gw).2;
  pp_Read_none gw idx rev :
    nodes rev = [] → ∃ e, Read p idx rev gw = (Fail e, gw);
  pp_background gw sched :
    pp_ok gw → ∃ gw', background sched gw = (Ret tt, gw') ∧ pp_keeps (λ _, True) gw gw';
}.
End laws.

(** ** The synchronous/asynchronous piping keeps the laws *)

Section sync_async_laws.
Context {R : Redigo} {T : string} {L : StoreLaws T}.

Lemma splitStores_cases ns :
  ns ≠ [] → ∃ s ss asy, splitStores ns = Ret (s :: ss, asy).
Proof.
  destruct ns as [|s0 ns]; [done|]. intros _. unfold splitStores.
  pose proof (Split_not_nil "," s0). destruct (Split "," s0) as [|s ss]; [done|]. simpl.
  by eexists _, _, _.
Qed.

(** The names are those of stores that can be opened, the first is not empty. *)
Definition sa_nodes (gw : gworld) (ns : list string) : Prop :=
  ∃ s ss asy, splitStores ns = Ret (s :: ss, asy) ∧ s ≠ "" ∧
    Forall (λ n, n ≠ "" → st_name (store gw) n) (s :: ss ++ asy).

(** The part of the pending work that concerns key [k]. *)
Definition not_about (k : string) (d : op * list string) : Prop := d.2 = [] ∨ op_key d.1 ≠ k.

Definition sa_ok (gw : gworld) : Prop := ∃ dd, described (store gw) (detached gw) dd.
Definition sa_fresh (gw : gworld) (k : string) : Prop :=
  ∃ dd, described (store gw) (detached gw) dd ∧ Forall (not_about k) dd.

Definition sa_target (rev : Revision) (n : string) : Prop :=
  ∃ ss asy, splitStores (nodes rev) = Ret (n :: ss, asy).
Definition sa_holds (gw : gworld) (rev : Revision) (v : string) : Prop :=
  ∃ n dd, sa_target rev n ∧ st_name (store gw) n ∧
    described (store gw) (detached gw) dd ∧ agree n (Revision_String rev) (Some v) dd ∧
    st_data (store gw) n !! Revision_String rev = Some v.

Lemma not_about_less k dd dd' :
  Forall2 less_to_do dd' dd → Forall (not_about k) dd → Forall (not_about k) dd'.
Proof.
  intros HF. induction HF as [|d' d dd' dd [E1 [l E2]] _ IH]; [done|].
  intros [Hd Hdd]%Forall_cons. constructor; [|auto]. unfold not_about in *. rewrite E1.
  destruct Hd as [Hd|]; [|by right]. left. rewrite Hd in E2. by destruct l, d'.2.
Qed.

Lemma not_about_agree n k v dd : Forall (not_about k) dd → agree n k v dd.
Proof.
  intros HF. eapply Forall_impl; [done|]. intros d [Hd|Hd] Hin Hk; [|done].
  rewrite Hd in Hin. by apply elem_of_nil in Hin.
Qed.

(** What the two loops start. *)
Definition sync_todo (o : op) (names : list string) : list (op * list string) :=
  (λ n, (o, if (String.length n <? 1)%nat then [] else [n])) <$> names.
Definition async_todo (o : op) (names : list string) : list (op * list string) :=
  (λ n, (o, [n])) <$> filter (λ name, String.length name ≠ 0%nat) names.

Lemma length_nonempty s : String.length s ≠ 0%nat → s ≠ "".
Proof. by intros H ->. Qed.

Lemma sync_described w o names :
  Forall (λ n, n ≠ "" → st_name w n) names →
  Forall2 (λ g d, g_will w d.1 g d.2) (sync_goroutines T names o) (sync_todo o names).
Proof.
  intros HF. apply Forall2_fmap. induction HF as [|n names Hn _ IH]; constructor; [|done].
  simpl. destruct (Nat.ltb_spec (String.length n) 1); constructor.
  apply Hn. intros ->. simpl in *. lia.
Qed.

Lemma async_described w o names :
  Forall (λ n, n ≠ "" → st_name w n) names →
  Forall2 (λ g d, g_will w d.1 g d.2) (async_goroutines T names o) (async_todo o names).
Proof.
  intros HF. apply Forall2_fmap. induction HF as [|n names Hn _ IH]; [constructor|].
  rewrite filter_cons. case_decide; [|done]. constructor; [|done].
  constructor. by apply Hn, length_nonempty.
Qed.

Lemma todo_agree n k v o sy dd asy :
  agree n k v dd → (op_key o = k → op_result o = v) →
  agree n k v (sync_todo o sy ++ dd ++ async_todo o asy).
Proof.
  intros Hdd Ho. repeat apply Forall_app_2; [|done|];
    apply Forall_fmap, Forall_true; intros m _ Hk; by apply Ho.
Qed.

(** Both loops and the wait, on stores that can be opened. *)
Lemma sa_run gw sched o sy asy dd :
  Forall (λ n, n ≠ "" → st_name (store gw) n) (sy ++ asy) →
  described (store gw) (detached gw) dd →
  ∃ gw' dd', (do! _ <- spawn (async_goroutines T asy o);
              wait sched (sync_goroutines T sy o)) gw = (Ret tt, gw') ∧
    described (store gw') (detached gw') dd' ∧ st_evolves (store gw) (store gw') ∧
    Forall2 less_to_do dd' (dd ++ async_todo o asy) ∧
    ∀ n k v, agree n k v dd → (op_key o = k → op_result o = v) →
      (st_data (store gw) n !! k = v → st_data (store gw') n !! k = v) ∧
      (n ∈ sy → n ≠ "" → op_key o = k → st_data (store gw') n !! k = v) ∧
      (pending n k (dd ++ async_todo o asy) →
         st_data (store gw') n !! k = v ∨ pending n k dd').
Proof.
  intros [Hsy Hasy]%Forall_app [Hok Hdd].
  destruct (wait_spec sched (sync_goroutines T sy o)
    (mkGWorld (store gw) (detached gw ++ async_goroutines T asy o))
    (sync_todo o sy) (dd ++ async_todo o asy)) as (gw' & dd' & E & Hd & He & Hl & Hp).
  { split; [done|]. simpl.
    apply Forall2_app; [by apply sync_described|].
    apply Forall2_app; [done|by apply async_described]. }
  { unfold sync_goroutines, sync_todo. by rewrite !length_fmap. }
  exists gw', dd'. split_and!; [done..|]. intros n k v Ha Ho.
  destruct (Hp n k v (todo_agree n k v o sy dd asy Ha Ho)) as (H1 & H2 & H3).
  split_and!; [done| |done]. intros Hn Hne Hk. apply H2. exists (o, [n]).
  split_and!; [|set_solver|done]. apply list_elem_of_fmap. exists n. split; [|done]. by destruct n.
Qed.

(** The loops of an operation, each on its own. *)
Lemma run_sync w o sy :
  st_ok w → Forall (λ n, n ≠ "" → st_name w n) sy →
  let gs := sync_goroutines T sy o in
  ∃ w', run_sched (finish 0 gs) gs w = (Ret (replicate (length gs) GDone), w') ∧ st_evolves w w'.
Proof.
  intros Hok Hsy. destruct (finish_spec w _ _ (conj Hok (sync_described w o sy Hsy))) as (w1 & E1 & He1 & _). eauto.
Qed.

Lemma run_async w o asy :
  st_ok w → Forall (λ n, n ≠ "" → st_name w n) asy →
  let gs := async_goroutines T asy o in
  ∃ w', run_sched (finish 0 gs) gs w = (Ret (replicate (length gs) GDone), w') ∧ st_evolves w w' ∧
    ∀ n, n ∈ asy → n ≠ "" → st_data w' n !! op_key o = op_result o.
Proof.
  intros Hok Hasy. destruct (finish_spec w _ _ (conj Hok (async_described w o asy Hasy))) as (w2 & E2 & He2 & Hp).
  exists w2. split_and!; [done|done|]. intros n Hin Hne.
  destruct (Hp n (op_key o) (op_result o)) as [_ Hn].
  { apply Forall_fmap, Forall_true. by intros. }
  apply Hn. exists (o, [n]). split_and!; [|simpl; set_solver|done].
  apply list_elem_of_fmap. exists n. split; [done|]. apply list_elem_of_filter. by destruct n.
Qed.

Lemma names_evolve w w' (names : list string) :
  st_evolves w w' → Forall (λ n, n ≠ "" → st_name w n) names → Forall (λ n, n ≠ "" → st_name w' n) names.
Proof. intros (_ & Hn & _) HF. eapply Forall_impl; [exact HF|]. auto. Qed.

Lemma sa_nodes_evolves gw gw' ns :
  st_evolves (store gw) (store gw') → sa_nodes gw ns → sa_nodes gw' ns.
Proof.
  intros (_ & Hn & _) (s & ss & asy & E & Hs & HF). exists s, ss, asy. split_and!; [done..|].
  eapply Forall_impl; [done|]. auto.
Qed.

Lemma sa_holds_evolves gw gw' rev v n dd' :
  st_evolves (store gw) (store gw') → sa_target rev n → st_name (store gw) n →
  described (store gw') (detached gw') dd' → agree n (Revision_String rev) (Some v) dd' →
  st_data (store gw') n !! Revision_String rev = Some v → sa_holds gw' rev v.
Proof. intros (_ & Hn & _) ? ? ? ? ?. exists n, dd'. split_and!; auto. Qed.

(** Running an operation on one key keeps everything about the others. *)
Lemma sa_run_keeps gw gw' sched o sy asy :
  Forall (λ n, n ≠ "" → st_name (store gw) n) (sy ++ asy) → sa_ok gw →
  (do! _ <- spawn (async_goroutines T asy o);
   wait sched (sync_goroutines T sy o)) gw = (Ret tt, gw') →
  sa_ok gw' ∧ (∀ ns, sa_nodes gw ns → sa_nodes gw' ns) ∧
  (∀ k, k ≠ op_key o → sa_fresh gw k → sa_fresh gw' k) ∧
  (∀ rev v, Revision_String rev ≠ op_key o → sa_holds gw rev v → sa_holds gw' rev v).
Proof.
  intros Hn [dd0 Hdd0] E. split_and!.
  - destruct (sa_run gw sched o sy asy dd0 Hn Hdd0) as (gw1 & dd' & E' & Hd & _).
    rewrite E in E'. simplify_eq. by exists dd'.
  - intros ns. destruct (sa_run gw sched o sy asy dd0 Hn Hdd0) as (gw1 & dd' & E' & _ & He & _).
    rewrite E in E'. simplify_eq. by apply sa_nodes_evolves.
  - intros k Hk (dd & Hdd & HF).
    destruct (sa_run gw sched o sy asy dd Hn Hdd) as (gw1 & dd' & E' & Hd & _ & Hl & _).
    rewrite E in E'. simplify_eq. exists dd'. split; [done|].
    eapply not_about_less; [done|]. apply Forall_app_2; [done|].
    apply Forall_fmap, Forall_true. intros n. right. by simpl.
  - intros rev v Hk (n & dd & Ht & Hname & Hdd & Ha & Hv).
    destruct (sa_run gw sched o sy asy dd Hn Hdd) as (gw1 & dd' & E' & Hd & He & Hl & Hp).
    rewrite E in E'. simplify_eq.
    eapply (sa_holds_evolves gw gw1 rev v n dd'); [done..| |].
    + eapply agree_less; [done|]. apply Forall_app_2; [done|].
      apply Forall_fmap, Forall_true. intros m ? Heq. by destruct Hk.
    + destruct (Hp n (Revision_String rev) (Some v) Ha) as (H1 & _); [|by apply H1].
      intros Heq. by destruct Hk.
Qed.

Lemma sa_run_nil gw sched o :
  (do! _ <- spawn (async_goroutines T [] o); wait sched (sync_goroutines T [] o)) gw =
    background sched gw.
Proof. unfold gbind, spawn, background. simpl. rewrite app_nil_r. by destruct gw. Qed.

(** Reading keeps everything. *)
Lemma sa_same gw w' :
  sa_ok gw → st_evolves (store gw) w' → (∀ m, st_data w' m = st_data (store gw) m) →
  let gw' := mkGWorld w' (detached gw) in
  sa_ok gw' ∧ (∀ ns, sa_nodes gw ns → sa_nodes gw' ns) ∧
  (∀ k, True → sa_fresh gw k → sa_fresh gw' k) ∧
  (∀ rev v, True → sa_holds gw rev v → sa_holds gw' rev v).
Proof.
  intros Hok He Hdata gw'.
  assert (∀ dd, described (store gw) (detached gw) dd → described w' (detached gw) dd) as Hdesc.
  { intros dd [_ Hdd]. split; [apply He|]. eapply Forall2_impl; [done|].
    intros. by eapply g_will_evolves. }
  split_and!.
  - destruct Hok as [dd Hdd]. exists dd. by apply Hdesc.
  - intros ns. by apply sa_nodes_evolves.
  - intros k _ (dd & Hdd & HF). exists dd. split; [by apply Hdesc|done].
  - intros rev v _ (n & dd & Ht & Hn & Hdd & Ha & Hv).
    eapply (sa_holds_evolves gw gw' rev v n dd); [done..|by apply Hdesc|done|].
    simpl. by rewrite Hdata.
Qed.

Lemma SyncAsyncPiping_split gw rev sy asy (k : list string * list string → M gworld unit) :
  splitStores (nodes rev) = Ret (sy, asy) →
  (do! p <- glift (splitStores (Revision_GetNodes rev)); k p) gw = k (sy, asy) gw.
Proof. intros E. unfold gbind, glift, Revision_GetNodes. by rewrite E. Qed.

#[global, refine] Instance sync_async_laws : PipingLaws (SyncAsyncPiping T) := {|
  pp_ok := sa_ok;
  pp_nodes := sa_nodes;
  pp_fresh := sa_fresh;
  pp_holds := sa_holds;
|}.
Proof.
  - intros gw sched rev v Hok (s & ss & asy & Esp & Hs & HF) (dd & Hdd & Hfr).
    set (o := OpPut (Revision_String rev) v).
    destruct (sa_run gw sched o (s :: ss) asy dd HF Hdd) as (gw' & dd' & E & Hd & He & Hl & Hp).
    exists gw'. split; [|split].
    + simpl. unfold SyncAsyncPiping_Write.
      rewrite (SyncAsyncPiping_split gw rev _ _ _ Esp). exact E.
    + destruct (Hp s (Revision_String rev) (Some v)) as (_ & H2 & _); [by apply not_about_agree|done|].
      eapply (sa_holds_evolves gw gw' rev v s dd'); [done|by exists ss, asy| |done| |].
      * inversion HF. auto.
      * eapply agree_less; [done|]. apply Forall_app_2; [by apply not_about_agree|].
        apply Forall_fmap, Forall_true. by intros.
      * apply H2; [by left|done..].
    + by eapply (sa_run_keeps gw gw' sched o (s :: ss) asy).
  - intros gw sched rev [dd Hdd] (s & ss & asy & Esp & Hs & HF).
    set (o := OpDelete (Revision_String rev)).
    destruct (sa_run gw sched o (s :: ss) asy dd HF Hdd) as (gw' & dd' & E & _).
    exists gw'. split.
    + simpl. unfold SyncAsyncPiping_Delete.
      rewrite (SyncAsyncPiping_split gw rev _ _ _ Esp). exact E.
    + eapply (sa_run_keeps gw gw' sched o (s :: ss) asy); [done| |done]. by exists dd.
  - intros gw idx rev v Hok Hh.
    pose proof Hh as (n & dd & (ss & asy & Esp) & Hname & [Hst _] & _ & Hv).
    destruct (st_open (store gw) n 0 Hst Hname) as (d & w1 & E1 & Hr & He1 & Hd1).
    destruct (st_get w1 d n (Revision_String rev) v) as (w2 & E2 & He2 & Hd2);
      [apply He1|done|by rewrite Hd1|].
    exists (mkGWorld w2 (detached gw)). split.
    + simpl. unfold SyncAsyncPiping_Read, gbind, glift, Revision_GetNodes. rewrite Esp.
      unfold on_store. by rewrite E1, E2.
    + apply sa_same; [done|by etrans|]. intros m. by rewrite Hd2.
  - intros gw idx rev Hok (s & ss & asy & Esp & Hs & HF). pose proof Hok as [dd [Hst _]].
    inversion HF as [|? ? Hname _]; subst.
    destruct (st_open (store gw) s 0 Hst (Hname Hs)) as (d & w1 & E1 & Hr & He1 & Hd1).
    destruct (st_get_no_panic w1 d s (Revision_String rev) (proj1 He1) Hr) as (Hnp & He2 & Hd2).
    simpl. unfold SyncAsyncPiping_Read, gbind, glift, Revision_GetNodes. rewrite Esp.
    unfold on_store. rewrite E1. destruct (Database_Get _ _ _) as [res w2] eqn:E2.
    split; [done|]. apply sa_same; [done|by etrans|]. intros m. by rewrite Hd2.
  - intros gw idx rev Hn. simpl. unfold SyncAsyncPiping_Read, gbind, glift, Revision_GetNodes.
    rewrite Hn. by eexists.
  - intros gw sched Hok. pose proof Hok as [dd Hdd].
    destruct (sa_run gw sched (OpDelete "") [] [] dd) as (gw' & dd' & E & _); [constructor|done|].
    rewrite sa_run_nil in E. exists gw'. split; [done|].
    assert (∀ k, ∃ o, op_key o ≠ k) as Hkey
      by (intros k; exists (OpDelete (String "x" k)); simpl; by induction k; congruence).
    split_and!.
    1-2: eapply (sa_run_keeps gw gw' sched (OpDelete "") [] []); [constructor|done|];
         by rewrite sa_run_nil.
    + intros k _. destruct (Hkey k) as [o Ho].
      eapply (sa_run_keeps gw gw' sched o [] []); [constructor|done|by rewrite sa_run_nil|done].
    + intros rev v _. destruct (Hkey (Revision_String rev)) as [o Ho].
      eapply (sa_run_keeps gw gw' sched o [] []); [constructor|done|by rewrite sa_run_nil|done].
Defined.
End sync_async_laws.

(** ** The chain piping over memory stores keeps the laws *)

Section chain_laws.
Context {R : Redigo}.

(** A linearizable chain leaves nothing to the background. *)
Definition cp_ok (gw : gworld) : Prop := mem_ok (store gw) ∧ detached gw = [].
Definition cp_holds (gw : gworld) (rev : Revision) (v : string) : Prop :=
  (2 ≤ length (nodes rev))%nat ∧
  ∀ n, n ∈ nodes rev → mem_data (store gw) n !! Revision_String rev = Some v.

(** All nodes at once: the same contents as one after the other. *)
Lemma node_goroutines_link dbs o :
  node_goroutines (NewChainWithDatbases dbs) o = (λ d, GDb d o) <$> dbs.
Proof.
  unfold node_goroutines, NewChainWithDatbases. cbn [head]. rewrite node_list_link.
  apply list_eq. intros i. rewrite !list_lookup_fmap, list_lookup_imap.
  by destruct (dbs !! i).
Qed.

Lemma concurrent_chain gw sched dbs ns o :
  cp_ok gw → Forall2 (mem_refers (store gw)) dbs ns →
  ∃ gw', wait sched (node_goroutines (NewChainWithDatbases dbs) o) gw = (Ret tt, gw') ∧
    detached gw' = [] ∧ st_evolves (T:=Memory) (store gw) (store gw') ∧
    writes_all (T:=Memory) (store gw) (store gw') ns o.
Proof.
  intros [Hok Hdet] HF. rewrite node_goroutines_link.
  destruct (wait_spec (T:=Memory) sched ((λ d, GDb d o) <$> dbs) gw ((λ n, (o, [n])) <$> ns) [])
    as (gw' & dd' & E & [_ Hd] & He & Hl & Hp).
  { rewrite Hdet, !app_nil_r. split; [done|]. apply Forall2_fmap.
    eapply Forall2_impl; [done|]. intros d n Hr. by constructor. }
  { rewrite !length_fmap. symmetry. by eapply Forall2_length. }
  exists gw'. split_and!; [done| |done|].
  { inversion Hl; simplify_eq. by inversion Hd. }
  rewrite app_nil_r in Hp.
  intros n k. case_decide as Hdec.
  - destruct Hdec as [Hn Hk]. destruct (Hp n k (op_result o)) as (_ & H2 & _).
    { by apply Forall_fmap, Forall_true. }
    apply H2. exists (o, [n]). split_and!; [|simpl; set_solver|done].
    apply list_elem_of_fmap. eauto.
  - destruct (Hp n k (st_data (store gw) n !! k)) as (H1 & _); [|by apply H1].
    apply Forall_fmap, Forall_forall. simpl. intros m Hm Hin Hk. set_solver.
Qed.

(** Opening the chain, then a call on it that writes all its nodes. *)
Lemma chain_run gw ns o (call : Chain → M gworld unit) :
  cp_ok gw → (2 ≤ length ns)%nat →
  (∀ w1 dbs, mem_ok w1 → Forall2 (mem_refers w1) dbs ns →
     ∃ gw', call (NewChainWithDatbases dbs) (mkGWorld w1 []) = (Ret tt, gw') ∧
       detached gw' = [] ∧ st_evolves (T:=Memory) w1 (store gw') ∧
       writes_all (T:=Memory) w1 (store gw') ns o) →
  ∃ gw', (do! c <- on_store (NewChain Memory ns); call c) gw = (Ret tt, gw') ∧
    cp_ok gw' ∧ writes_all (T:=Memory) (store gw) (store gw') ns o.
Proof.
  intros [Hok Hdet] Hlen Hcall.
  destruct (NewChain_mem ns (store gw) Hok Hlen) as (dbs & w1 & E & HF & He & Hd).
  destruct (Hcall w1 dbs (proj1 He) HF) as (gw' & Ec & Hdet' & He' & Hw).
  unfold gbind, on_store. rewrite E, Hdet, Ec. exists gw'. split_and!; [done|split; [apply He'|done]|].
  intros n k. rewrite Hw. simpl. by rewrite Hd.
Qed.

Lemma chain_Write_run gw sched rev v conc :
  cp_ok gw → (2 ≤ length (nodes rev))%nat →
  ∃ gw', ChainPiping_Write Memory LINEARIZABLE conc sched rev v gw = (Ret tt, gw') ∧ cp_ok gw' ∧
    writes_all (T:=Memory) (store gw) (store gw') (nodes rev) (OpPut (Revision_String rev) v).
Proof.
  intros Hok Hlen. unfold ChainPiping_Write, Revision_GetNodes.
  apply chain_run; [done..|]. intros w1 dbs Hok1 HF.
  pose proof (Forall2_length _ _ _ HF) as Hl. destruct conc.
  - by apply concurrent_chain.
  - destruct (Chain_Write_linearizable (T:=Memory) (mkGWorld w1 []) dbs (nodes rev)
      (Revision_String rev) v) as (w' & Ew & He' & Hw); [done..|lia|].
    exists (mkGWorld w' []). unfold gbind, try. by rewrite Ew.
Qed.

Lemma chain_Delete_run gw sched rev conc :
  cp_ok gw → (2 ≤ length (nodes rev))%nat →
  ∃ gw', ChainPiping_Delete Memory LINEARIZABLE conc sched rev gw = (Ret tt, gw') ∧ cp_ok gw' ∧
    writes_all (T:=Memory) (store gw) (store gw') (nodes rev) (OpDelete (Revision_String rev)).
Proof.
  intros Hok Hlen. unfold ChainPiping_Delete, Revision_GetNodes.
  apply chain_run; [done..|]. intros w1 dbs Hok1 HF.
  pose proof (Forall2_length _ _ _ HF) as Hl. destruct conc.
  - by apply concurrent_chain.
  - destruct (Chain_Delete_linearizable (T:=Memory) (mkGWorld w1 []) dbs (nodes rev)
      (Revision_String rev)) as (w' & Ew & He' & Hw); [done..|lia|].
    exists (mkGWorld w' []). unfold gbind, try. by rewrite Ew.
Qed.

Lemma cp_holds_other gw gw' ns o rev v :
  writes_all (T:=Memory) (store gw) (store gw') ns o → Revision_String rev ≠ op_key o →
  cp_holds gw rev v → cp_holds gw' rev v.
Proof.
  intros Hw Hne [Hlen Hv]. split; [done|]. intros n Hn.
  specialize (Hw n (Revision_String rev)). simpl in Hw. rewrite Hw, decide_False; [by apply Hv|].
  intros [_ ?]. by destruct Hne.
Qed.

(** A read returns what one of the nodes has, and changes no contents. *)
Lemma chain_Read_run gw idx rev :
  cp_ok gw → (2 ≤ length (nodes rev))%nat →
  ∃ n w1, n ∈ nodes rev ∧
    ChainPiping_Read Memory LINEARIZABLE idx rev gw =
      (match mem_data (store gw) n !! Revision_String rev with
       | Some v => Ret v
       | None => Fail "key not found"
       end, mkGWorld w1 (detached gw)) ∧
    cp_ok (mkGWorld w1 (detached gw)) ∧ (∀ ns : list string, (2 ≤ length ns)%nat → (2 ≤ length ns)%nat) ∧
    (∀ _ : string, True → True → True) ∧
    (∀ rev' v', True → cp_holds gw rev' v' → cp_holds (mkGWorld w1 (detached gw)) rev' v').
Proof.
  intros [Hok Hdet] Hlen.
  destruct (NewChain_mem (nodes rev) (store gw) Hok Hlen) as (dbs & w1 & E & HF & He & Hd).
  pose proof (Forall2_length _ _ _ HF) as Hl.
  destruct (chain_tail_link 0 dbs) as (j & d & Hj & Htail & _);
    [intros ->; simpl in *; lia|].
  destruct (Forall2_lookup_l _ _ _ _ _ HF Hj) as (n & Hn & Hr).
  exists n, w1. split; [by eapply list_elem_of_lookup_2|]. split.
  { unfold ChainPiping_Read, gbind, on_store, Revision_GetNodes. rewrite E.
    unfold Chain_Read. rewrite bool_decide_true by done.
    unfold ChainNode_Read. cbn [tail NewChainWithDatbases store]. rewrite Htail. simpl.
    by rewrite (mem_get w1 d n _ Hr), Hd. }
  split_and!; [split; [apply He|done]|done..|].
  intros rev' v' _ [Hlen' Hv']. split; [done|]. intros m Hm. simpl. rewrite Hd. auto.
Qed.

#[global, refine] Instance chain_laws conc : PipingLaws (ChainPiping Memory LINEARIZABLE conc) := {|
  pp_ok := cp_ok;
  pp_nodes _ ns := (2 ≤ length ns)%nat;
  pp_fresh _ _ := True;
  pp_holds := cp_holds;
|}.
Proof.
  - intros gw sched rev v Hok Hlen _.
    destruct (chain_Write_run gw sched rev v conc Hok Hlen) as (gw' & E & Hok' & Hw).
    exists gw'. split; [done|]. split; [|split_and!; [done..|]].
    + split; [done|]. intros n Hn. specialize (Hw n (Revision_String rev)). simpl in Hw.
      by rewrite Hw, decide_True.
    + intros rev' v' Hne. by eapply cp_holds_other.
  - intros gw sched rev Hok Hlen.
    destruct (chain_Delete_run gw sched rev conc Hok Hlen) as (gw' & E & Hok' & Hw).
    exists gw'. split; [done|]. split_and!; [done..|].
    intros rev' v' Hne. by eapply cp_holds_other.
  - intros gw idx rev v Hok [Hlen Hv].
    destruct (chain_Read_run gw idx rev Hok Hlen) as (n & w1 & Hn & E & Hkeep).
    exists (mkGWorld w1 (detached gw)). simpl. by rewrite E, Hv.
  - intros gw idx rev Hok Hlen.
    destruct (chain_Read_run gw idx rev Hok Hlen) as (n & w1 & Hn & E & Hkeep).
    simpl. rewrite E. split; [by case_match|done].
  - intros gw idx rev Hn. simpl. unfold ChainPiping_Read, gbind, on_store, Revision_GetNodes.
    rewrite Hn. simpl. eexists. by destruct gw.
  - intros gw sched [Hok Hdet].
    assert (∀ s, run_sched s [] (store gw) = (Ret [], store gw)) as Hrun by (by induction s).
    exists gw. unfold background, wait. simpl. rewrite Hdet, Hrun. split; [|done].
    by destruct gw; simplify_eq/=.
Defined.
End chain_laws.

(** * Properties *)

(** C11. Replicated writes: on stores that work, under any interleaving of the goroutines,
    [Write] returns, every synchronous store then has the value, a read returns it
    however the background runs in between, and once the background has settled the
    asynchronous stores have it too. *)
Theorem sync_async_write `{StoreLaws T} gw dd rev v sched s ss asy :
  described (store gw) (detached gw) dd → Forall (not_about (Revision_String rev)) dd →
  splitStores (nodes rev) = Ret (s :: ss, asy) → s ≠ "" →
  Forall (λ n, n ≠ "" → st_name (store gw) n) ((s :: ss) ++ asy) →
  ∃ gw', SyncAsyncPiping_Write T sched rev v gw = (Ret tt, gw') ∧
    (∀ n, n ∈ s :: ss → n ≠ "" → st_data (store gw') n !! Revision_String rev = Some v) ∧
    ∀ sched', ∃ gw2, background sched' gw' = (Ret tt, gw2) ∧
      (SyncAsyncPiping_Read T rev gw2).1 = Ret v ∧
      ∀ sched'', ∃ gw3, settle sched'' gw2 = (Ret tt, gw3) ∧ detached gw3 = [] ∧
        ∀ n, n ∈ (s :: ss) ++ asy → n ≠ "" →
          st_data (store gw3) n !! Revision_String rev = Some v.
Proof.
  intros Hdd Hfr Esp Hs Hn. set (k := Revision_String rev) in *.
  destruct (sa_run gw sched (OpPut k v) (s :: ss) asy dd Hn Hdd)
    as (gw' & dd1 & E & Hd1 & He1 & Hl1 & Hp1).
  exists gw'. split; [|split].
  { unfold SyncAsyncPiping_Write. rewrite (SyncAsyncPiping_split gw rev _ _ _ Esp). exact E. }
  { intros n Hin Hne. destruct (Hp1 n k (Some v)) as (_ & H2 & _); auto using not_about_agree. }
  intros sched'. destruct (sa_run gw' sched' (OpPut k v) [] [] dd1)
    as (gw2 & dd2 & E2 & Hd2 & He2 & Hl2 & Hp2); [constructor|done|].
  rewrite sa_run_nil in E2. rewrite app_nil_r in Hl2, Hp2. exists gw2. split; [done|].
  assert (∀ n, agree n k (Some v) dd1) as Ha1.
  { intros n. eapply agree_less; [done|]. apply Forall_app_2; [by apply not_about_agree|].
    apply Forall_fmap, Forall_true. by intros. }
  assert (∀ n, n ∈ (s :: ss) ++ asy → n ≠ "" →
    st_data (store gw2) n !! k = Some v ∨ pending n k dd2) as Hreach.
  { intros n Hin Hne. destruct (Hp1 n k (Some v)) as (_ & H2 & H3); [by apply not_about_agree|done|].
    destruct (Hp2 n k (Some v) (Ha1 n)) as (H4 & _ & H5); [done|].
    apply elem_of_app in Hin as [Hin|Hin]; [left; auto|].
    destruct H3 as [?|?]; [|left; auto|auto].
    exists (OpPut k v, [n]). split_and!; [|simpl; set_solver|done].
    apply elem_of_app. right. apply list_elem_of_fmap. exists n. split; [done|].
    apply list_elem_of_filter. by destruct n. }
  split.
  - destruct (pp_Read (p:=SyncAsyncPiping T) gw2 0 rev v) as (gwr & Er & _); [by exists dd2| |].
    2: { simpl in Er. by rewrite Er. }
    exists s, dd2. split_and!; [by exists ss, asy| |done|by eapply agree_less|].
    + apply He2, He1. by inversion Hn; auto.
    + destruct (Hp1 s k (Some v)) as (_ & H2 & _); [by apply not_about_agree|done|].
      destruct (Hp2 s k (Some v) (Ha1 s)) as (H4 & _); [done|]. apply H4, H2; [by left|done..].
  - intros sched''. destruct (settle_spec sched'' gw2 dd2 Hd2) as (gw3 & E3 & Hdet & He3 & Hp3).
    exists gw3. split_and!; [done..|]. intros n Hin Hne.
    destruct (Hp3 n k (Some v)) as [H1 H2]; [by eapply agree_less|].
    destruct (Hreach n Hin Hne); auto.
Qed.

(** The revision 1 on the synchronous store "a" and the asynchronous store "b". *)
Definition demo_rev : Revision := mkRevision 1 0 ["a"; "b"].
Definition demo_gworld : gworld := mkGWorld (demo_world Memory) [].

Lemma demo_described : described (T:=Memory) (store demo_gworld) (detached demo_gworld) [].
Proof. split; [apply demo_world_mem_ok|constructor]. Qed.

Lemma sync_async_write_witness :
  ∃ gw' gw2 gw3, SyncAsyncPiping_Write Memory [1; 0]%nat demo_rev "v" demo_gworld = (Ret tt, gw') ∧
    background [0]%nat gw' = (Ret tt, gw2) ∧ (SyncAsyncPiping_Read Memory demo_rev gw2).1 = Ret "v" ∧
    settle [] gw2 = (Ret tt, gw3) ∧ mem_data (store gw3) "b" !! "1" = Some "v".
Proof.
  destruct (sync_async_write (T:=Memory) demo_gworld [] demo_rev "v" [1; 0]%nat "a" [] ["b"])
    as (gw' & E & _ & Hbg); [apply demo_described|constructor|done|done|by repeat constructor|].
  destruct (Hbg [0]%nat) as (gw2 & E2 & Er & Hset).
  destruct (Hset []) as (gw3 & E3 & _ & Hall).
  exists gw', gw2, gw3. split_and!; [done..|]. apply (Hall "b"); [by right; left|done].
Defined.

(** C19. Replicated deletes: when nothing pending concerns the revision, [Delete] returns
    under any interleaving, the synchronous stores then have no value for it, and once
    the background has settled no store has one. *)
Theorem sync_async_delete `{StoreLaws T} gw dd rev sched sched' s ss asy :
  described (store gw) (detached gw) dd → Forall (not_about (Revision_String rev)) dd →
  splitStores (nodes rev) = Ret (s :: ss, asy) →
  Forall (λ n, n ≠ "" → st_name (store gw) n) ((s :: ss) ++ asy) →
  ∃ gw' gw2, SyncAsyncPiping_Delete T sched rev gw = (Ret tt, gw') ∧
    (∀ n, n ∈ s :: ss → n ≠ "" → st_data (store gw') n !! Revision_String rev = None) ∧
    settle sched' gw' = (Ret tt, gw2) ∧ detached gw2 = [] ∧
    ∀ n, n ∈ (s :: ss) ++ asy → n ≠ "" → st_data (store gw2) n !! Revision_String rev = None.
Proof.
  intros Hdd Hfr Esp Hn. set (k := Revision_String rev) in *.
  destruct (sa_run gw sched (OpDelete k) (s :: ss) asy dd Hn Hdd)
    as (gw' & dd1 & E & Hd1 & He1 & Hl1 & Hp1).
  destruct (settle_spec sched' gw' dd1 Hd1) as (gw2 & E2 & Hdet & He2 & Hp2).
  exists gw', gw2. split; [|split].
  { unfold SyncAsyncPiping_Delete. rewrite (SyncAsyncPiping_split gw rev _ _ _ Esp). exact E. }
  { intros n Hin Hne. destruct (Hp1 n k None) as (_ & H2 & _); auto using not_about_agree. }
  split_and!; [done..|]. intros n Hin Hne.
  destruct (Hp1 n k None) as (_ & H2 & H3); [by apply not_about_agree|done|].
  destruct (Hp2 n k None) as [H4 H5].
  { eapply agree_less; [done|]. apply Forall_app_2; [by apply not_about_agree|].
    apply Forall_fmap, Forall_true. by intros. }
  apply elem_of_app in Hin as [Hin|Hin]; [auto|]. destruct H3 as [?|?]; auto.
  exists (OpDelete k, [n]). split_and!; [|simpl; set_solver|done].
  apply elem_of_app. right. apply list_elem_of_fmap. exists n. split; [done|].
  apply list_elem_of_filter. by destruct n.
Qed.

Lemma sync_async_delete_witness :
  ∃ gw' gw2, SyncAsyncPiping_Delete Memory [] demo_rev demo_gworld = (Ret tt, gw') ∧
    settle [] gw' = (Ret tt, gw2) ∧ mem_data (store gw2) "b" !! "1" = None.
Proof.
  destruct (sync_async_delete (T:=Memory) demo_gworld [] demo_rev [] [] "a" [] ["b"])
    as (gw' & gw2 & E & _ & E2 & _ & Hall); [apply demo_described|constructor|done|by repeat constructor|].
  exists gw', gw2. split_and!; [done..|]. apply (Hall "b"); [by right; left|done].
Defined.

(** C38. A delete does not wait for the write it deletes: after a write and then a
    delete of a revision, both answered without an error, the asynchronous deletes may run
    before the asynchronous puts.  Then every asynchronous store keeps the value of the
    deleted revision, with nothing left to be done. *)
Theorem delete_race `{StoreLaws T} w rev v s ss asy :
  st_ok w → splitStores (nodes rev) = Ret (s :: ss, asy) →
  Forall (λ n, n ≠ "" → st_name w n) ((s :: ss) ++ asy) →
  ∃ gw1 gw2 sched gw3, SyncAsyncPiping_Write T [] rev v (mkGWorld w []) = (Ret tt, gw1) ∧
    SyncAsyncPiping_Delete T [] rev gw1 = (Ret tt, gw2) ∧
    settle sched gw2 = (Ret tt, gw3) ∧ detached gw3 = [] ∧
    ∀ n, n ∈ asy → n ≠ "" → st_data (store gw3) n !! Revision_String rev = Some v.
Proof.
  intros Hok Esp [HFs HFa]%Forall_app. set (k := Revision_String rev).
  destruct (run_sync w (OpPut k v) (s :: ss) Hok HFs) as (w1 & E1 & He1).
  destruct (run_sync w1 (OpDelete k) (s :: ss)) as (w2 & E2 & He2); [apply He1|by eapply names_evolve|].
  assert (st_evolves w w2) as He by by etrans.
  destruct (run_async w2 (OpDelete k) asy) as (w3 & E3 & He3 & _); [apply He2|by eapply names_evolve|].
  assert (st_evolves w w3) as He' by by etrans.
  destruct (run_async w3 (OpPut k v) asy) as (w4 & E4 & _ & Hput); [apply He3|by eapply names_evolve|].
  eexists _, _, _, _. split_and!; [..|exact (settle_last_first _ _ _ _ _ E3 E4)|done|].
  - unfold SyncAsyncPiping_Write. rewrite (SyncAsyncPiping_split (mkGWorld w []) rev _ _ _ Esp).
    unfold gbind, spawn. apply (wait_alone _ _ _ _ E1).
  - unfold SyncAsyncPiping_Delete. rewrite (SyncAsyncPiping_split _ rev _ _ _ Esp).
    unfold gbind, spawn. apply (wait_alone _ _ _ _ E2).
  - exact Hput.
Qed.

Lemma delete_race_witness :
  ∃ gw1 gw2 sched gw3, SyncAsyncPiping_Write Memory [] demo_rev "v" demo_gworld = (Ret tt, gw1) ∧
    SyncAsyncPiping_Delete Memory [] demo_rev gw1 = (Ret tt, gw2) ∧
    settle sched gw2 = (Ret tt, gw3) ∧ detached gw3 = [] ∧
    ∀ n, n ∈ ["b"] → n ≠ "" → mem_data (store gw3) n !! Revision_String demo_rev = Some "v".
Proof.
  destruct (delete_race (T:=Memory) (demo_world Memory) demo_rev "v" "a" [] ["b"])
    as (gw1 & gw2 & sched & gw3 & E1 & E2 & E3 & Ed & Hx);
    [apply demo_world_mem_ok|done|by repeat constructor|].
  exists gw1, gw2, sched, gw3. by split_and!.
Defined.

(** C35. Failures of the stores are not reported: whatever the backends do, a replicated
    write or delete of a revision with a store list returns no error, and a chain
    write only when the chain cannot be opened. *)
Theorem write_errors_dropped `{Redigo} p sched rev v gw e gw' :
  nodes rev ≠ [] →
  Write p sched rev v gw = (Fail e, gw') ∨ Delete p sched rev gw = (Fail e, gw') →
  ∃ t c conc w', p = ChainPiping t c conc ∧ NewChain t (nodes rev) (store gw) = (Fail e, w').
Proof.
  intros Hne. destruct p as [t c conc|t]; simpl.
  - unfold ChainPiping_Write, ChainPiping_Delete, gbind, try, on_store, Revision_GetNodes.
    intros Hf. exists t, c, conc.
    destruct (NewChain t (nodes rev) (store gw)) as [[ch|e'|w] w']; [|by destruct Hf; simplify_eq; eauto..].
    destruct conc, Hf as [Hf|Hf]; try (by apply wait_no_fail in Hf).
    + by destruct (Chain_Write _ _ _ _ _) as [[]].
    + by destruct (Chain_Delete _ _ _ _) as [[]].
  - destruct (splitStores_cases (nodes rev) Hne) as (s & ss & asy & Esp).
    unfold SyncAsyncPiping_Write, SyncAsyncPiping_Delete.
    rewrite !(SyncAsyncPiping_split gw rev _ _ _ Esp). unfold gbind, spawn.
    intros [Hf|Hf]; by apply wait_no_fail in Hf.
Qed.

(** All servers are down, and the write is acknowledged. *)
Lemma write_errors_dropped_witness :
  (∃ w', NewChain Redis ["a"] (demo_world Redis) = (Fail "the number of nodes is 1, which means there is no replica", w')) ∧
  (Write (H:=down_Redigo) (SyncAsyncPiping Redis) [] (mkRevision 1 0 ["10.0.0.1:6379"]) "v"
     (mkGWorld down_world [])).1 = Ret tt.
Proof.
  split; [|by vm_compute].
  destruct (write_errors_dropped (ChainPiping Redis LINEARIZABLE false) [] (mkRevision 1 0 ["a"]) "v"
    (mkGWorld (demo_world Redis) []) "the number of nodes is 1, which means there is no replica"
    (mkGWorld (demo_world Redis) [])) as (t & c & conc & w' & [= <- <- <-] & E); [done|by left|].
  by exists w'.
Defined.


