(* ===== verification/Handler.v ===== *)
(** The HTTP service: src/cmd/http/main.go.

    [KeyValueHandler] is the handler's immutable part, [server] the state its requests
    run on: the index with the revision counter, and the backends with the goroutines
    in flight.  A [request] carries what the handler reads of it (method, path, parsed
    query, body); a [response] what it writes.  The body is decoded by any
    [Json]; [go_Json] is the one of the library.  Parsing the command line, reading the
    configuration file, the tracer and listening on the socket are not modelled.  What the scheduler and the random generator choose during a request is
    its [choices]. *)
From Stdlib Require Import Ascii.
From stdpp Require Import base gmap list strings pretty.
From S2P Require Import Prelude GoStd Json Revision KeyIndex BTree TreeIndex Hashing HashingManager Latency Config Database ChainNode Runtime Chain Piping.

Open Scope Z_scope.

Record request := mkRequest {
  r_Method : string;
  r_Path : string;
  r_Query : gmap string (list string);
  r_Body : outcome string;
}.

Record response := mkResponse { status : Z; content_type : string; body : string }.

Definition StatusAccepted : Z := 202.
Definition StatusCreated : Z := 201.
Definition StatusNotFound : Z := 404.
Definition StatusInternalServerError : Z := 500.
Definition StatusNotImplemented : Z := 501.

(** [http.Error] and [http.NotFound]. *)
Definition http_Error (e : error) (code : Z) : response :=
  mkResponse code "text/plain; charset=utf-8" (e +:+ newline).
Definition http_NotFound : response := http_Error "404 page not found" StatusNotFound.

(** [values.Get(key)]. *)
Definition Query_Get (q : gmap string (list string)) (key : string) : string :=
  default "" (q !! key ≫= hd_error).

Record choices := mkChoices { c_sched : list nat; c_idx : nat → Z }.

Section handler.
Context `{!GoSort} {B : BTree} `{!Hasher} `{R : Redigo} `{!Json}.

Record KeyValueHandler := mkHandler {
  hm : HashingManager;
  conf : KVConfiguration;
  piping : Piping;
}.

Record server := mkServer { sv_index : treeIndex; sv_gw : gworld }.

(** The zones are visited in the order of the map iteration, an argument. *)
Definition NewKeyValueHandler (probe : string → list (Z * option error))
    (order : gmap string (list RkvNode) → list (string * list RkvNode))
    (conf : KVConfiguration) : outcome KeyValueHandler :=
  match GetReplications probe conf with
  | Fail e => Panic ("error in get replications: " +:+ e)
  | Panic w => Panic w
  | Ret (localStores, remoteStores) =>
      let hm :=
        if bool_decide (HashingManagerTypeOf conf = Sync) then
          let stores := foldl (λ stores z, stores ++ z.2) [] (order localStores) in
          HMSync (NewSyncHashingManager (ConsistentHash conf) stores (LocalReplicaNum conf))
        else
          HMSyncAsync (NewSyncAsyncHashingManager (ConsistentHash conf) (order localStores)
            (LocalReplicaNum conf) remoteStores (RemoteReplicaNum conf)) in
      let pp :=
        if bool_decide (PipingTypeOf conf = Chain_piping) then
          NewChainPiping (StoreTypeOf conf) LINEARIZABLE (Concurrent conf)
        else NewSyncAsyncPiping (StoreTypeOf conf) in
      Ret (mkHandler hm conf pp)
  end.

(** The storages [main] creates; one that cannot be created is skipped. *)
Fixpoint create_storages (storeType : string) (stores : list KVStore) : M dbworld unit :=
  match stores with
  | [] => gret tt
  | st :: stores' =>
      do! r <- try (Factory_database storeType st);
      match r with
      | inr _ => create_storages storeType stores'
      | inl db =>
          do! _ <- (λ w, (Ret tt, set_Storages (λ m, <[kv_Name st := db]> m) w));
          create_storages storeType stores'
      end
  end.

(** [main] up to [http.ListenAndServe]: what [NewKVConfiguration("config.json")] returned
    is an argument. *)
Definition main_setup (probe : string → list (Z * option error))
    (order : gmap string (list RkvNode) → list (string * list RkvNode))
    (loaded : outcome KVConfiguration) : M dbworld KeyValueHandler :=
  match loaded with
  | Fail e => gpanic ("error setting gateway agent configuration: " +:+ e)
  | Panic w => gpanic w
  | Ret c =>
      do! _ <- (λ w, (Ret tt, set_RKVConfig c w));
      do! _ <- create_storages (StoreTypeOf c) (Stores c);
      glift (NewKeyValueHandler probe order c)
  end.

Definition on_index {A} (m : M treeIndex A) : M server A := λ sv,
  let '(r, ti) := m (sv_index sv) in (r, mkServer ti (sv_gw sv)).
Definition on_gw {A} (m : M gworld A) : M server A := λ sv,
  let '(r, gw) := m (sv_gw sv) in (r, mkServer (sv_index sv) gw).
Definition read_tree {A} (f : btree → outcome A) : M server A := λ sv,
  (f (tree (sv_index sv)), sv).

(** [revision.GetGlobalIncreasingRevision()]. *)
Definition draw_revision : M server Z := λ sv,
  let '(rev, c) := GetGlobalIncreasingRevision (counter (sv_index sv)) in
  (Ret rev, mkServer (mkTreeIndex (tree (sv_index sv)) c) (sv_gw sv)).

(** [l[0]]. *)
Definition index0 (l : list string) : M server string :=
  match l with
  | x :: _ => gret x
  | [] => gpanic "index out of range [0] with length 0"
  end.

Definition getPrimaryRevBytesWithBucket (h : KeyValueHandler) (rev : Revision) : outcome string :=
  if BucketSize (conf h) =? 0 then Panic "integer divide by zero"
  else
    let primaryRev := int64 (Revision_GetMain rev `quot` BucketSize (conf h)) in
    Ret (le_put 8 (uint64 primaryRev)).

Definition getValueByRev (h : KeyValueHandler) (idx : Z) (rev : Revision) : M server string :=
  on_gw (Read (piping h) idx rev).

Fixpoint getValuesByRevs_loop (h : KeyValueHandler) (idx : nat → Z) (i : nat)
    (revs : list Revision) : M server (list string) :=
  match revs with
  | [] => gret []
  | rev :: revs' =>
      do! ret <- getValueByRev h (idx i) rev;
      do! res <- getValuesByRevs_loop h idx (S i) revs';
      gret (ret :: res)
  end.
Definition getValuesByRevs (h : KeyValueHandler) (idx : nat → Z) (revs : list Revision)
    : M server (list string) := getValuesByRevs_loop h idx 0 revs.

Definition missing_key {A} (r : request) : M server A :=
  gfail ("the key is missing at the query " +:+ fmt_map fmt_strings (r_Query r)).

(** [m[revs[i].String()] = rets[i]] for every [i]. *)
Definition values_map (revs : list Revision) (rets : list string) : gmap string string :=
  foldl (λ m p, <[Revision_String p.1 := p.2]> m) ∅ (zip revs rets).

Definition getKV (h : KeyValueHandler) (ch : choices) (r : request) : M server string :=
  match r_Query r !! "key" with
  | None => missing_key r
  | Some key =>
      match r_Query r !! "fromRev" with
      | Some fromRevs =>
          do! s <- index0 fromRevs;
          do! fromRev <- glift (Atoi s);
          do! k <- index0 key;
          do! revs <- read_tree (λ t, treeIndex_RangeSince t k None fromRev);
          do! rets <- getValuesByRevs h (c_idx ch) revs;
          gret ("The values are " +:+ fmt_map id (values_map revs rets) +:+
                " from the revision " +:+ pretty fromRev +:+ newline)
      | None =>
          do! k <- index0 key;
          do! (rev, _, _) <- read_tree (λ t, treeIndex_Get t k 0);
          do! ret <- getValueByRev h (c_idx ch 0) rev;
          gret ("The value is " +:+ ret +:+ " with the revision " +:+ Revision_String rev +:+ newline)
      end
  end.

Definition createKV (h : KeyValueHandler) (ch : choices) (r : request) : M server string :=
  let revParam := Query_Get (r_Query r) "rev" in
  do! revAssumed <- (if (String.length revParam =? 0)%nat then gret 0
                     else match ParseInt revParam with
                          | Ret n => gret n
                          | _ => gfail ("invalid rev in query string: " +:+ revParam)
                          end);
  do! rev <- draw_revision;
  let newRev := NewRevision (int64 rev) 0 [] in
  do! primRev <- glift (getPrimaryRevBytesWithBucket h newRev);
  do! nodes <- glift (GetNodes (hm h) primRev);
  let newRev := Revision_SetNodes newRev nodes in
  do! byteValue <- glift (r_Body r);
  do! payload <- glift (json_Unmarshal byteValue);
  let key := default "" (payload !! "key") in
  let value := default "" (payload !! "value") in
  do! w <- try (on_gw (Write (piping h) (c_sched ch) newRev value));
  match w with
  | inr err => gfail ("system backend failed to write data: " +:+ err)
  | inl _ =>
      do! _ <- on_index (if negb (String.length revParam =? 0)%nat
                         then treeIndex_Update key newRev revAssumed
                         else treeIndex_Put key newRev);
      gret ("The key value pair (" +:+ key +:+ "," +:+ value +:+ ") has been saved as revision "
            +:+ pretty rev +:+ " at " +:+ Join "," (Revision_GetNodes newRev) +:+ newline)
  end.

Definition deleteKV (h : KeyValueHandler) (ch : choices) (r : request) : M server string :=
  match r_Query r !! "key" with
  | None => missing_key r
  | Some key =>
      do! k <- index0 key;
      do! (rev, _, _) <- read_tree (λ t, treeIndex_Get t k 0);
      do! err <- try (on_gw (Delete (piping h) (c_sched ch) rev));
      do! n <- draw_revision;
      do! _ <- try (on_index (treeIndex_Tombstone k (NewRevision (int64 n) (Revision_GetSub rev) [])));
      match err with
      | inr e => gfail e
      | inl _ => gret ("The key " +:+ fmt_strings key +:+ " has been removed at " +:+
                       fmt_strings (Revision_GetNodes rev) +:+ newline)
      end
  end.

(** The response, or none when the handler writes nothing. *)
Definition ServeHTTP (h : KeyValueHandler) (ch : choices) (r : request)
    : M server (option response) :=
  if negb (bool_decide (r_Path r = "/kv")) then gret (Some http_NotFound)
  else
    let '(m, statusCode) :=
      if bool_decide (r_Method r = "GET") then (getKV h ch r, StatusAccepted)
      else if bool_decide (r_Method r = "POST") then (createKV h ch r, StatusCreated)
      else if bool_decide (r_Method r = "PUT") then (createKV h ch r, StatusCreated)
      else if bool_decide (r_Method r = "DELETE") then (deleteKV h ch r, StatusAccepted)
      else (gret "Not Implemented", StatusNotImplemented) in
    do! res <- try m;
    match res with
    | inr err => gret (Some (http_Error err StatusInternalServerError))
    | inl result =>
        if bool_decide (result = "") then gret None
        else gret (Some (mkResponse statusCode "application/json" result))
    end.
End handler.
