(* ===== verification/VersionedMap.v ===== *)
(** What the service of src/cmd/http/main.go promises: a map from keys to the log of their
    changes.

    A change is its revision with the value written, or [None] for a deletion.  [a_step]
    is one call on the map; [responds] says which responses are answers to it, with the
    texts and the status codes of the handlers.  A read looks at the last change; a read
    since a revision ([fromRev]) at all changes from it on, and has no answer when one of
    them is a deletion. *)
From Stdlib Require Import Ascii.
From stdpp Require Import base gmap list strings pretty.
From S2P Require Import Prelude GoStd KeyIndex TreeIndex Handler.

Open Scope Z_scope.

Abbreviation changes := (list (Z * option string)) (only parsing).
Abbreviation astate := (gmap string changes) (only parsing).

Definition log_of (m : astate) (k : string) : changes := default [] (m !! k).
Definition latest (m : astate) (k : string) : option (Z * option string) := last (log_of m k).
Definition record_change (k : string) (n : Z) (o : option string) (m : astate) : astate :=
  <[k := log_of m k ++ [(n, o)]]> m.

Inductive call :=
  | CGet (k : string)
  | CSince (k : string) (from : Z)
  | CPut (k v : string)
  | CUpdate (k v : string) (assumed : Z)
  | CDelete (k : string).

Inductive result :=
  | RValue (v : string) (rev : Z)
  | RValues (vs : list (Z * string)) (from : Z)
  | RStored (k v : string) (rev : Z)
  | RDeleted
  | RNotFound
  | RRefused
  | RGone
  | RRejected.

(** The values written from revision [n] on; none when a deletion is among the changes. *)
Definition values_since (n : Z) (l : changes) : option (list (Z * string)) :=
  mapM (λ p, pair p.1 <$> p.2) (filter (λ p, n ≤ p.1) l).

(** One call; [n] is the revision of the change it makes. *)
Definition a_step (m : astate) (c : call) (n : Z) : result * astate :=
  match c with
  | CGet k =>
      match latest m k with Some (a, Some v) => (RValue v a, m) | _ => (RNotFound, m) end
  | CSince k from =>
      match values_since from (log_of m k) with
      | Some vs => (RValues vs from, m)
      | None => (RGone, m)
      end
  | CPut k v => (RStored k v n, record_change k n (Some v) m)
  | CUpdate k v a =>
      match latest m k with
      | None => (RNotFound, m)
      | Some (a', _) =>
          if a' =? a then (RStored k v n, record_change k n (Some v) m) else (RRefused, m)
      end
  | CDelete k =>
      match latest m k with
      | Some (_, Some _) => (RDeleted, record_change k n None m)
      | _ => (RNotFound, m)
      end
  end.

(** What a request asks for: a call, or nothing that makes sense, which has no effect. *)
Definition a_answer (m : astate) (oc : option call) (n : Z) : result * astate :=
  match oc with Some c => a_step m c n | None => (RRejected, m) end.

(** The text that acknowledges a write; [places] are the stores it was sent to. *)
Definition stored_text (k v : string) (a : Z) (places : string) : string :=
  "The key value pair (" +:+ k +:+ "," +:+ v +:+ ") has been saved as revision "
  +:+ pretty a +:+ " at " +:+ places +:+ newline.

(** The text of a read since a revision: a Go map from revisions to values. *)
Definition values_text `{!GoSort} (vs : list (Z * string)) (from : Z) : string :=
  "The values are " +:+ fmt_map id (list_to_map ((λ p, (pretty p.1, p.2)) <$> vs)) +:+
  " from the revision " +:+ pretty from +:+ newline.

(** The responses the server gives for a result. *)
Definition responds `{!GoSort} (res : result) (resp : response) : Prop :=
  match res with
  | RValue v a =>
      resp = mkResponse StatusAccepted "application/json"
        ("The value is " +:+ v +:+ " with the revision " +:+ pretty a +:+ newline)
  | RValues vs from => resp = mkResponse StatusAccepted "application/json" (values_text vs from)
  | RStored k v a =>
      ∃ places, resp = mkResponse StatusCreated "application/json" (stored_text k v a places)
  | RDeleted => status resp = StatusAccepted
  | RNotFound => resp = http_Error ErrRevisionNotFound StatusInternalServerError
  | RRefused => resp = http_Error ErrRevAssumed StatusInternalServerError
  | RGone => ∃ e, resp = http_Error e StatusInternalServerError
  | RRejected =>
      status resp = StatusNotFound ∨ status resp = StatusInternalServerError ∨
      status resp = StatusNotImplemented
  end.

(** The specification of a sequence, from revision counter [c] to [c']: a call makes its
    change at the next revision and may use one more; a request that makes no sense may
    use one too. *)
Inductive spec_run : astate → Z → list (option call) → list result → astate → Z → Prop :=
  | run_nil m c : spec_run m c [] [] m c
  | run_cons m c cl res m1 c1 cls ress m' c' :
      a_answer m cl (c + 1) = (res, m1) → c ≤ c1 ≤ c + 2 →
      spec_run m1 c1 cls ress m' c' → spec_run m c (cl :: cls) (res :: ress) m' c'.

Definition call_key (c : call) : string :=
  match c with CGet k | CSince k _ | CPut k _ | CUpdate k _ _ | CDelete k => k end.

(** * Lemmas *)

Lemma log_of_record k n o m : log_of (record_change k n o m) k = log_of m k ++ [(n, o)].
Proof. unfold log_of, record_change. by rewrite lookup_insert_eq. Qed.

Lemma log_of_record_ne k k' n o m : k ≠ k' → log_of (record_change k n o m) k' = log_of m k'.
Proof. intros. unfold log_of, record_change. by rewrite lookup_insert_ne. Qed.

Lemma latest_record k n o m : latest (record_change k n o m) k = Some (n, o).
Proof. unfold latest. by rewrite log_of_record, last_snoc. Qed.

Lemma latest_empty k : latest ∅ k = None.
Proof. unfold latest, log_of. by rewrite lookup_empty. Qed.

(** A call changes the log of its own key only, by at most one entry. *)
Lemma a_step_log m c n k :
  log_of (a_step m c n).2 k = log_of m k ∨
  (call_key c = k ∧ ∃ o, log_of (a_step m c n).2 k = log_of m k ++ [(n, o)]).
Proof.
  assert (∀ k' o, log_of (record_change k' n o m) k = log_of m k ∨
    (k' = k ∧ ∃ o', log_of (record_change k' n o m) k = log_of m k ++ [(n, o')])) as Hrec.
  { intros k' o. destruct (decide (k' = k)) as [->|Hne].
    - right. split; [done|]. exists o. apply log_of_record.
    - left. by apply log_of_record_ne. }
  destruct c; simpl; repeat case_match; simpl; auto.
Qed.

Lemma a_step_other m c n k : call_key c ≠ k → log_of (a_step m c n).2 k = log_of m k.
Proof. intros Hne. by destruct (a_step_log m c n k) as [|[? _]]. Qed.

Lemma a_answer_other m cl n k : call_key <$> cl ≠ Some k → log_of (a_answer m cl n).2 k = log_of m k.
Proof. destruct cl as [c|]; [|done]. intros Hne. apply a_step_other. simpl in Hne. congruence. Qed.

Lemma spec_run_get m c cls k v n ress m' c' :
  latest m k = Some (n, Some v) → Forall (λ cl, call_key <$> cl ≠ Some k) cls →
  spec_run m c (cls ++ [Some (CGet k)]) ress m' c' → last ress = Some (RValue v n).
Proof.
  intros Hk HF. revert m c ress Hk. induction HF as [|cl cls Hne HF IH]; intros m c ress Hk Hrun;
    inversion Hrun as [|? ? ? res m1 c1 ? ress' ? ? Ha Hc Hrest]; simplify_eq.
  - inversion Hrest; simplify_eq. simpl in Ha. rewrite Hk in Ha. by simplify_eq.
  - apply IH in Hrest.
    + rewrite last_cons, Hrest. done.
    + rewrite <- Hk. unfold latest. rewrite <- (a_answer_other m cl (c + 1) k) by done. by rewrite Ha.
Qed.
