(* ===== verification/Service.v ===== *)
(** The service as a versioned map: what the requests of src/cmd/http/main.go do, end to
    end, over the index, the placement, the replication and the backends.

    [meaning] is what a request asks for, if it is well-formed.  [sv_ok] relates a server
    to a map of change logs (VersionedMap), and [serve_any] shows that every request is
    answered and changes the server as the specification says of its meaning -- one that
    has none is answered with an error and changes nothing --, whatever the interleaving
    of the goroutines, for every piping that keeps [PipingLaws]. *)
From Stdlib Require Import Ascii.
From stdpp Require Import base gmap list strings pretty sorting.
From S2P Require Import Prelude GoStd Json Hashing HashingManager Latency Config Revision KeyIndex KeyHistory BTree TreeIndex Database ChainNode Runtime Chain Piping Handler VersionedMap.

Open Scope Z_scope.

(** * Index steps *)

Section index_steps.
Context `{!GoSort} {B : BTree} {L : BTreeLaws B}.

Lemma Get_last ti k ki e :
  ti_ok ti → bt_map (tree ti) !! k = Some ki → last (history ki) = Some e →
  main (ev_rev e) = main (modified ki) → is_int64 (main (modified ki)) →
  match e with
  | EvPut rev => ∃ cr v, treeIndex_Get (tree ti) k 0 = Ret (rev, cr, v)
  | EvTomb _ => treeIndex_Get (tree ti) k 0 = Fail ErrRevisionNotFound
  end.
Proof.
  intros Hok Hk [h Hh]%last_Some Hm Hr. rewrite treeIndex_Get_ki, Hk by done. simpl.
  rewrite int64_id by done. pose proof Hok as (_ & _ & HF).
  destruct (HF k ki Hk) as [Hreach%ki_reach_ok _].
  pose proof (keyIndex_get_answer ki (main (modified ki)) Hreach) as Ha.
  rewrite Hh, hist_get_snoc in Ha by lia. destruct e; [|done].
  destruct Ha as (g & n & _ & _ & ->). eauto.
Qed.

Lemma put_counter_bound ki m s ns c :
  generations ki = [] ∨ ki_ok ki → 0 ≤ c → c < 2^63 - 1 →
  c ≤ (keyIndex_put ki m s ns c).2 ≤ c + 1.
Proof.
  intros Hok H0 Hc. assert (∀ g, c ≤ put_counter g c ≤ c + 1) as Hpc.
  { intros g. unfold put_counter. rewrite GetGlobalIncreasingRevision_lt by word_lia.
    destruct (is_nil _); simpl; lia. }
  destruct Hok as [Hnil|(gs & g & E & _)].
  - rewrite keyIndex_put_fresh by done. apply Hpc.
  - rewrite (keyIndex_put_snoc _ _ _ _ _ gs g) by done. apply Hpc.
Qed.

(** A put of a revision above everything at the key. *)
Lemma index_put ti k rev :
  ti_ok ti → drawn ti rev → main (modified (ki_at ti k)) < main rev →
  ∃ ti' ki, treeIndex_Put k rev ti = (Ret tt, ti') ∧ ti_ok ti' ∧
    counter ti ≤ counter ti' ≤ counter ti + 1 ∧
    bt_map (tree ti') = <[k := ki]> (bt_map (tree ti)) ∧
    main (modified ki) = main rev ∧ history ki = history (ki_at ti k) ++ [EvPut rev].
Proof.
  intros Hok Hd Hlt. pose proof (treeIndex_Put_ok ti k rev Hok Hd) as Hok'.
  rewrite treeIndex_Put_eq in * by done.
  eexists _, (keyIndex_put (ki_at ti k) (main rev) (sub rev) (nodes rev) (counter ti)).1.
  split; [done|]. split; [done|]. cbn [counter tree]. pose proof Hok as (Hbt & H0 & _).
  rewrite bt_insert_map, keyIndex_put_key, ki_at_key by done.
  destruct rev as [rm rs rns]. cbn [main sub nodes] in *.
  assert (GreaterThan (mkRevision rm rs rns) (modified (ki_at ti k)) = true) as Hgt.
  { apply GreaterThan_spec. by left. }
  split_and!; [..|done| |].
  1-2: apply put_counter_bound; [by apply ki_at_cases|done|apply Hd].
  - rewrite keyIndex_put_modified. unfold put_modified. by rewrite Hgt.
  - by apply keyIndex_put_history_new; [apply ki_at_cases|].
Qed.

(** A deletion above everything at a key whose last event is a put. *)
Lemma index_tombstone ti k ki n r :
  ti_ok ti → bt_map (tree ti) !! k = Some ki → last (history ki) = Some (EvPut r) →
  0 < n ≤ counter ti → counter ti < 2^63 - 1 → main (modified ki) < n →
  ∃ ti' ki', treeIndex_Tombstone k (mkRevision n 0 []) ti = (Ret tt, ti') ∧ ti_ok ti' ∧
    counter ti' = counter ti ∧ bt_map (tree ti') = <[k := ki']> (bt_map (tree ti)) ∧
    main (modified ki') = n ∧ history ki' = history ki ++ [EvTomb (mkRevision n 0 [])].
Proof.
  intros Hok Hk Hlast Hn Hc Hlt.
  pose proof (treeIndex_Tombstone_ok ti k (mkRevision n 0 []) Hok) as Hok'.
  pose proof Hok as (Hbt & _ & HF). destruct (HF k ki Hk) as [Hr%ki_reach_ok _].
  pose proof Hr as (gs & g & Eg & _). pose proof (history_last ki gs g Hr Eg) as Hne.
  rewrite Hlast in Hne.
  assert (GreaterThan (mkRevision n 0 []) (modified ki) = true) as Hgt.
  { apply GreaterThan_spec. by left. }
  pose proof (keyIndex_tombstone_spec ki gs g n 0 (counter ti) Hr Eg) as Et.
  rewrite (is_nil_false _ Hne) in Et.
  pose proof (keyIndex_tombstone_history_new _ _ _ _ _ _ Hr Hgt Et) as Hh.
  unfold treeIndex_Tombstone in *. rewrite tree_Get_map, Hk in * by done.
  cbn [main sub] in *. rewrite Et in *.
  match type of Et with _ = (Ret ?k', _) => exists (mkTreeIndex (bt_store (tree ti) k') (counter ti)), k' end.
  split; [done|].
  split; [apply Hok'; split_and!; simpl; lia|]. cbn [counter tree]. unfold bt_store.
  rewrite bt_insert_map by done. cbn [key modified]. split_and!; [done| | |].
  - by rewrite (tree_key ti k ki Hok Hk).
  - unfold put_modified. by rewrite Hgt.
  - done.
Qed.
End index_steps.

(** * The server and its abstract state *)

Section service.
Context `{!GoSort} {B : BTree} {L : BTreeLaws B} `{!Hasher} {R : Redigo} `{!Json}.
Context (h : KeyValueHandler) {PL : PipingLaws (piping h)}.
Context (Hbucket : BucketSize (conf h) ≠ 0).

(** An event of a key index stands for a change; the value of a put that was deleted
    may be gone. *)
Definition entry_view (gw : gworld) (e : event) (p : Z * option string) : Prop :=
  main (ev_rev e) = p.1 ∧
  match p.2, e with
  | Some _, EvPut rev => sub rev = 0 ∧ pp_nodes gw (nodes rev)
  | None, EvTomb rev => nodes rev = []
  | _, _ => False
  end.
Definition erased (l : changes) (i : nat) : Prop := ∃ t, l !! S i = Some (t, None).
Definition value_view (gw : gworld) (es : list event) (l : changes) : Prop :=
  ∀ i e a v, es !! i = Some e → l !! i = Some (a, Some v) → ¬ erased l i →
    pp_holds gw (ev_rev e) v.

(** The log of key [k]: empty when it was never written. *)
Definition key_view (sv : server) (k : string) (l : changes) : Prop :=
  match l with
  | [] => bt_map (tree (sv_index sv)) !! k = None
  | _ => ∃ ki, bt_map (tree (sv_index sv)) !! k = Some ki ∧
      last l.*1 = Some (main (modified ki)) ∧
      StronglySorted Z.lt l.*1 ∧ Forall (λ a, 0 < a ≤ counter (sv_index sv)) l.*1 ∧
      Forall2 (entry_view (sv_gw sv)) (history ki) l ∧ value_view (sv_gw sv) (history ki) l
  end.

Record sv_ok (sv : server) (m : astate) : Prop := {
  so_index : ti_ok (sv_index sv);
  so_pp : pp_ok (sv_gw sv);
  so_place b : ∃ ns, GetNodes (hm h) b = Ret ns ∧ pp_nodes (sv_gw sv) ns;
  so_fresh z : counter (sv_index sv) < z → pp_fresh (sv_gw sv) (pretty z);
  so_keys k : key_view sv k (log_of m k);
  so_distinct k1 k2 a : a ∈ (log_of m k1).*1 → a ∈ (log_of m k2).*1 → k1 = k2;
}.

Lemma key_view_range sv k l a : key_view sv k l → a ∈ l.*1 → 0 < a ≤ counter (sv_index sv).
Proof.
  destruct l as [|p l]; [by intros _ ?%elem_of_nil|].
  intros (ki & _ & _ & _ & HF & _) Ha. rewrite Forall_forall in HF. by apply HF.
Qed.

Lemma entry_view_keeps P gw gw' e p : pp_keeps P gw gw' → entry_view gw e p → entry_view gw' e p.
Proof.
  intros (_ & Hn & _) [Hm Hp]. split; [done|]. destruct p.2, e; [|done..].
  destruct Hp. auto.
Qed.

(** Values stay when their revisions are among those kept. *)
Lemma value_view_keeps P gw gw' es l :
  pp_keeps P gw gw' → Forall2 (entry_view gw) es l → value_view gw es l →
  (∀ i a v, l !! i = Some (a, Some v) → ¬ erased l i → P (pretty a)) → value_view gw' es l.
Proof.
  intros (_ & _ & _ & Hh) HF Hv HP i e a v Hi Hl Her. apply Hh; [|by eapply Hv].
  destruct (Forall2_lookup_lr _ _ _ _ _ _ HF Hi Hl) as [Hm _]. unfold Revision_String.
  rewrite Hm. by eapply HP.
Qed.

Lemma key_view_mono sv k l ti' gw' P :
  key_view sv k l → bt_map (tree ti') !! k = bt_map (tree (sv_index sv)) !! k →
  counter (sv_index sv) ≤ counter ti' → pp_keeps P (sv_gw sv) gw' →
  (∀ a, a ∈ l.*1 → P (pretty a)) → key_view (mkServer ti' gw') k l.
Proof.
  intros Hv Hbt Hc Hkeep HP. unfold key_view in *. destruct l as [|p l]; simpl in *.
  { by rewrite Hbt. }
  destruct Hv as (ki & Hk & Hm & Hs & Hr & HF & Hval). exists ki. rewrite Hbt.
  split_and!; [done..| | |].
  - eapply Forall_impl; [exact Hr|]. simpl. lia.
  - eapply Forall2_impl; [exact HF|]. intros. by eapply entry_view_keeps.
  - eapply value_view_keeps; [done..|]. intros i a v Hi _. apply HP.
    apply (list_elem_of_fmap fst (p :: l)). exists (a, Some v). split; [done|].
    by eapply list_elem_of_lookup_2.
Qed.

(** Nothing written that matters: the counter may have moved. *)
Lemma sv_ok_same sv m c' gw' P :
  sv_ok sv m → counter (sv_index sv) ≤ c' → pp_keeps P (sv_gw sv) gw' →
  (∀ z, z ≤ counter (sv_index sv) ∨ c' < z → P (pretty z)) →
  sv_ok (mkServer (mkTreeIndex (tree (sv_index sv)) c') gw') m.
Proof.
  intros [Hi Hp Hpl Hf Hk Hd] Hc Hkeep HP. pose proof Hkeep as (Hok' & Hn' & Hf' & _).
  split; simpl; [by apply ti_ok_counter|done|..|done].
  - intros b. destruct (Hpl b) as (ns & ? & ?). eauto.
  - intros z Hz. apply Hf'; [apply HP; by right|]. apply Hf. lia.
  - intros k. eapply key_view_mono; [done..|]. intros a Ha. apply HP. left.
    by apply (key_view_range sv k _ a (Hk k)).
Qed.

(** Key [k] changed at revision [n]; the pipings touched revision [b] only, the new one
    or one of the key's own. *)
Lemma sv_ok_change sv m k n o ti' gw' ki b :
  sv_ok sv m → n = counter (sv_index sv) + 1 → ti_ok ti' → n ≤ counter ti' →
  bt_map (tree ti') = <[k := ki]> (bt_map (tree (sv_index sv))) →
  pp_keeps (λ s, s ≠ pretty b) (sv_gw sv) gw' →
  b = n ∨ b ∈ (log_of m k).*1 →
  key_view (mkServer ti' gw') k (log_of m k ++ [(n, o)]) →
  sv_ok (mkServer ti' gw') (record_change k n o m).
Proof.
  intros [Hi Hp Hpl Hf Hk Hd] Hn Hti Hc Hbt Hkeep Hb Hview.
  pose proof Hkeep as (Hok' & Hn' & Hf' & _).
  assert (∀ k' a, a ∈ (log_of m k').*1 → a ≤ counter (sv_index sv)) as Hle.
  { intros k' a Ha. by apply (key_view_range sv k' _ a (Hk k')). }
  assert (b ≤ n) as Hbn by (destruct Hb as [->|Hb]; [lia|apply Hle in Hb; lia]).
  assert (∀ k' a, a ∈ (log_of (record_change k n o m) k').*1 →
    (k' = k ∧ a = n) ∨ a ∈ (log_of m k').*1) as Hnew.
  { intros k' a. destruct (decide (k = k')) as [->|Hne]; [|rewrite log_of_record_ne by done; auto].
    rewrite log_of_record, fmap_app, elem_of_app. simpl. rewrite list_elem_of_singleton. tauto. }
  split; simpl; [done|done|..].
  - intros b'. destruct (Hpl b') as (ns & ? & ?). eauto.
  - intros z Hz. apply Hf'; [|apply Hf; lia]. intros Heq. apply (inj pretty) in Heq. lia.
  - intros k'. destruct (decide (k = k')) as [<-|Hne]; [by rewrite log_of_record|].
    rewrite log_of_record_ne by done.
    eapply key_view_mono; [apply Hk| |lia|exact Hkeep|].
    + by rewrite Hbt, lookup_insert_ne.
    + intros a Ha Heq. apply (inj pretty) in Heq as ->.
      destruct Hb as [->|Hb]; [apply Hle in Ha; lia|]. by apply Hne, (Hd _ _ b).
  - intros k1 k2 a [[-> ->]|E1]%Hnew [[-> E]|E2]%Hnew; [done|..].
    + apply Hle in E2. lia.
    + subst. apply Hle in E1. lia.
    + by eapply Hd.
Qed.

Lemma draw_revision_eq sv :
  ti_ok (sv_index sv) → counter (sv_index sv) < 2^63 - 1 →
  draw_revision sv = (Ret (counter (sv_index sv) + 1),
    mkServer (mkTreeIndex (tree (sv_index sv)) (counter (sv_index sv) + 1)) (sv_gw sv)).
Proof.
  intros (_ & Hc0 & _) Hc. unfold draw_revision.
  by rewrite GetGlobalIncreasingRevision_lt by word_lia.
Qed.

(** The last change of a key and what the index and the stores have of it. *)
Lemma key_view_last sv k l a o :
  key_view sv k l → last l = Some (a, o) →
  ∃ ki e, bt_map (tree (sv_index sv)) !! k = Some ki ∧ 0 < a ≤ counter (sv_index sv) ∧
    main (modified ki) = a ∧ last (history ki) = Some e ∧ entry_view (sv_gw sv) e (a, o) ∧
    ∀ v, o = Some v → pp_holds (sv_gw sv) (ev_rev e) v.
Proof.
  intros Hv Hl. assert (a ∈ l.*1) as Ha.
  { apply last_Some in Hl as [l' ->]. rewrite fmap_app, elem_of_app. right. by left. }
  apply (key_view_range sv k) in Ha; [|done]. destruct l as [|p l]; [done|].
  destruct Hv as (ki & Hk & Hm & _ & _ & HF & Hval).
  rewrite fmap_last, Hl in Hm. injection Hm as Hm. rewrite last_lookup in Hl.
  destruct (Forall2_lookup_r _ _ _ _ _ HF Hl) as (e & He & Hev).
  exists ki, e. split_and!; [done|lia..|lia| |done|].
  - by rewrite last_lookup, (Forall2_length _ _ _ HF).
  - intros v ->. eapply Hval; [done..|]. intros [t Ht]. apply lookup_lt_Some in Ht. simpl in Ht. lia.
Qed.

(** [treeIndex.Get] at 0 on the abstract entry. *)
Lemma Get_view sv m k :
  sv_ok sv m → counter (sv_index sv) < 2^63 →
  match latest m k with
  | Some (a, Some v) => ∃ rev cr n, treeIndex_Get (tree (sv_index sv)) k 0 = Ret (rev, cr, n) ∧
      main rev = a ∧ sub rev = 0 ∧ pp_nodes (sv_gw sv) (nodes rev) ∧ pp_holds (sv_gw sv) rev v
  | _ => treeIndex_Get (tree (sv_index sv)) k 0 = Fail ErrRevisionNotFound
  end.
Proof.
  intros [Hi Hp Hpl Hf Hk Hd] Hc. specialize (Hk k). unfold latest.
  destruct (last (log_of m k)) as [[a o]|] eqn:El.
  - destruct (key_view_last _ _ _ _ _ Hk El) as (ki & e & Hki & Ha & Hm & Hl & [Hme He] & Hh).
    simpl in Hme, He. pose proof (Get_last _ _ _ _ Hi Hki Hl) as Hget.
    destruct o as [v|], e as [rev|rev]; simpl in *; try done.
    + destruct Hget as (cr & n & E); [lia|word_lia|]. exists rev, cr, n. destruct He. by split_and!; [..|apply Hh].
    + apply Hget; [lia|word_lia].
  - apply last_None in El. rewrite El in Hk. simpl in Hk.
    rewrite treeIndex_Get_ki by done. by rewrite Hk.
Qed.

(** ** The requests *)

(** The well-formed requests of the API. *)
Inductive means (r : request) : call → Prop :=
  | means_get k ks :
      r_Path r = "/kv" → r_Method r = "GET" →
      r_Query r !! "key" = Some (k :: ks) → r_Query r !! "fromRev" = None →
      means r (CGet k)
  | means_since k ks s ss n :
      r_Path r = "/kv" → r_Method r = "GET" →
      r_Query r !! "key" = Some (k :: ks) → r_Query r !! "fromRev" = Some (s :: ss) →
      Atoi s = Ret n → means r (CSince k n)
  | means_put b payload :
      r_Path r = "/kv" → r_Method r = "POST" ∨ r_Method r = "PUT" →
      Query_Get (r_Query r) "rev" = "" →
      r_Body r = Ret b → json_Unmarshal b = Ret payload →
      means r (CPut (default "" (payload !! "key")) (default "" (payload !! "value")))
  | means_update b payload a :
      r_Path r = "/kv" → r_Method r = "POST" ∨ r_Method r = "PUT" →
      Query_Get (r_Query r) "rev" ≠ "" → ParseInt (Query_Get (r_Query r) "rev") = Ret a →
      r_Body r = Ret b → json_Unmarshal b = Ret payload →
      means r (CUpdate (default "" (payload !! "key")) (default "" (payload !! "value")) a)
  | means_delete k ks :
      r_Path r = "/kv" → r_Method r = "DELETE" →
      r_Query r !! "key" = Some (k :: ks) → means r (CDelete k).

(** What net/http hands on: a key of the query has a value, and reading and decoding the
    body does not panic. *)
Definition delivered (r : request) : Prop :=
  (∀ k, r_Query r !! k ≠ Some []) ∧ no_panic (r_Body r) ∧
  ∀ b, r_Body r = Ret b → no_panic (json_Unmarshal b).

(** The call of a request, if it is well-formed. *)
Definition meaning (r : request) : option call :=
  if negb (bool_decide (r_Path r = "/kv")) then None
  else if bool_decide (r_Method r = "GET") then
    match r_Query r !! "key", r_Query r !! "fromRev" with
    | Some (k :: _), None => Some (CGet k)
    | Some (k :: _), Some (s :: _) =>
        match Atoi s with Ret n => Some (CSince k n) | _ => None end
    | _, _ => None
    end
  else if bool_decide (r_Method r = "POST" ∨ r_Method r = "PUT") then
    match r_Body r with
    | Ret b =>
        match json_Unmarshal b with
        | Ret payload =>
            let k := default "" (payload !! "key") in
            let v := default "" (payload !! "value") in
            let revParam := Query_Get (r_Query r) "rev" in
            if bool_decide (revParam = "") then Some (CPut k v)
            else match ParseInt revParam with Ret a => Some (CUpdate k v a) | _ => None end
        | _ => None
        end
    | _ => None
    end
  else if bool_decide (r_Method r = "DELETE") then
    match r_Query r !! "key" with Some (k :: _) => Some (CDelete k) | _ => None end
  else None.

Lemma means_meaning r c : means r c → meaning r = Some c.
Proof.
  clear Hbucket PL h. unfold meaning. intros [k ks Hp Hm Hk Hf|k ks s ss n Hp Hm Hk Hf Ha|b p Hp Hm Hq Hb Hj|b p a Hp Hm Hq Ha Hb Hj|k ks Hp Hm Hk];
    rewrite bool_decide_true by done; cbn [negb].
  - by rewrite bool_decide_true, Hk, Hf.
  - by rewrite bool_decide_true, Hk, Hf, Ha.
  - rewrite bool_decide_false by (by destruct Hm as [-> | ->]). by rewrite bool_decide_true, Hb, Hj, bool_decide_true.
  - rewrite bool_decide_false by (by destruct Hm as [-> | ->]).
    by rewrite bool_decide_true, Hb, Hj, bool_decide_false, Ha.
  - rewrite !bool_decide_false by (rewrite Hm; naive_solver). by rewrite bool_decide_true, Hk.
Qed.

Lemma meaning_means r c : meaning r = Some c → means r c.
Proof.
  unfold meaning. repeat case_bool_decide; cbn [negb]; try done; repeat case_match; intros; simplify_eq;
    eauto using means_get, means_since, means_put, means_update, means_delete.
Qed.

(** What a handler of the service returned, as a response. *)
Definition reply_of (o : outcome string) (code : Z) : option (outcome (option response)) :=
  match o with
  | Ret s => Some (Ret (if bool_decide (s = "") then None
                        else Some (mkResponse code "application/json" s)))
  | Fail e => Some (Ret (Some (http_Error e StatusInternalServerError)))
  | Panic w => None
  end.

Lemma ServeHTTP_eq ch r m code sv o sv' resp :
  r_Path r = "/kv" →
  (if bool_decide (r_Method r = "GET") then (getKV h ch r, StatusAccepted)
   else if bool_decide (r_Method r = "POST") then (createKV h ch r, StatusCreated)
   else if bool_decide (r_Method r = "PUT") then (createKV h ch r, StatusCreated)
   else if bool_decide (r_Method r = "DELETE") then (deleteKV h ch r, StatusAccepted)
   else (gret "Not Implemented", StatusNotImplemented)) = (m, code) →
  m sv = (o, sv') → reply_of o code = Some resp →
  ServeHTTP h ch r sv = (resp, sv').
Proof.
  intros Hp Hm Eo Hr. unfold ServeHTTP. rewrite bool_decide_true by done. simpl.
  rewrite Hm. unfold gbind, try. rewrite Eo. unfold reply_of in Hr.
  destruct o as [s|e|w]; simplify_eq; [|done]. by repeat case_bool_decide.
Qed.

Lemma getKV_spec ch r k ks sv m :
  sv_ok sv m → counter (sv_index sv) < 2^63 →
  r_Query r !! "key" = Some (k :: ks) → r_Query r !! "fromRev" = None →
  ∃ o sv', getKV h ch r sv = (o, sv') ∧ sv_index sv' = sv_index sv ∧ sv_ok sv' m ∧
    match latest m k with
    | Some (a, Some v) => o = Ret ("The value is " +:+ v +:+ " with the revision " +:+
                                   pretty a +:+ newline)
    | _ => o = Fail ErrRevisionNotFound
    end.
Proof.
  intros Hok Hc Hk Hf. unfold getKV. rewrite Hk, Hf.
  unfold index0, gbind, read_tree, gret. cbv beta iota.
  pose proof (Get_view sv m k Hok Hc) as Hget.
  destruct (latest m k) as [[a [v|]]|] eqn:Em; [|by rewrite Hget; eexists _, sv..].
  destruct Hget as (rev & cr & n & -> & Hmr & _ & Hns & Hh).
  destruct (pp_Read (sv_gw sv) (c_idx ch 0%nat) rev v) as (gw' & E & Hkeep);
    [apply Hok|done|].
  unfold getValueByRev, on_gw. simpl. rewrite E. eexists _, _. split; [done|].
  split; [done|]. split; [|by unfold Revision_String; rewrite Hmr].
  destruct sv as [[t c] gw]. by eapply (sv_ok_same (mkServer (mkTreeIndex t c) gw) m c gw').
Qed.

(** ** Appending a change *)

Lemma key_view_events sv k l :
  key_view sv k l →
  let es := history (ki_at (sv_index sv) k) in
  StronglySorted Z.lt l.*1 ∧ Forall (λ a, 0 < a ≤ counter (sv_index sv)) l.*1 ∧
  Forall2 (entry_view (sv_gw sv)) es l ∧ value_view (sv_gw sv) es l.
Proof.
  unfold key_view, ki_at. destruct l as [|p l].
  - intros ->. simpl. split_and!; [constructor..|]. intros i e a v _ Hi. by rewrite lookup_nil in Hi.
  - intros (ki & -> & _ & Hv). done.
Qed.

(** The changes before keep their values: only the last may be erased now. *)
Lemma value_view_snoc gw gw' es l n o e b :
  Forall2 (entry_view gw) es l → value_view gw es l → NoDup l.*1 →
  Forall (λ a, a < n) l.*1 → pp_keeps (λ s, s ≠ pretty b) gw gw' →
  b = n ∨ (o = None ∧ last l.*1 = Some b) →
  (∀ v, o = Some v → pp_holds gw' (ev_rev e) v) →
  value_view gw' (es ++ [e]) (l ++ [(n, o)]).
Proof.
  intros HF Hv Hs Hlt (_ & _ & _ & Hh) Hb Hnew i e' a v Hi Hl Her.
  pose proof (Forall2_length _ _ _ HF) as Hlen.
  rewrite lookup_app in Hl. destruct (l !! i) as [p|] eqn:El.
  2: { apply list_lookup_singleton_Some in Hl as [Hi0 [= -> ->]].
       apply lookup_ge_None in El. rewrite lookup_app_r in Hi by lia.
       apply list_lookup_singleton_Some in Hi as [_ <-]. by apply Hnew. }
  injection Hl as ->. pose proof (lookup_lt_Some _ _ _ El) as Hi0.
  rewrite lookup_app_l in Hi by lia.
  assert (¬ erased l i) as Her'.
  { intros [t Ht]. apply Her. exists t. by apply lookup_app_l_Some. }
  apply Hh; [|by eapply Hv]. destruct (Forall2_lookup_lr _ _ _ _ _ _ HF Hi El) as [Hm _].
  unfold Revision_String. rewrite Hm. simpl. intros ->%(inj pretty).
  assert (l.*1 !! i = Some b) as Eb by by rewrite list_lookup_fmap, El.
  destruct Hb as [->|(-> & Hlast)].
  { apply (Forall_lookup_1 _ _ _ _ Hlt) in Eb. lia. }
  rewrite last_lookup, length_fmap in Hlast. pose proof (NoDup_lookup _ _ _ _ Hs Eb Hlast) as ->.
  apply Her. exists n. rewrite lookup_app_r by lia.
  by replace (S (pred (length l)) - length l)%nat with 0%nat by lia.
Qed.

(** A change at the next revision, of which the index and the pipings took note. *)
Lemma key_view_snoc sv k l ti' gw' ki n o e b :
  key_view sv k l → n = counter (sv_index sv) + 1 → 0 ≤ counter (sv_index sv) → n ≤ counter ti' →
  bt_map (tree ti') !! k = Some ki → main (modified ki) = n →
  history ki = history (ki_at (sv_index sv) k) ++ [e] →
  pp_keeps (λ s, s ≠ pretty b) (sv_gw sv) gw' → b = n ∨ (o = None ∧ last l.*1 = Some b) →
  entry_view gw' e (n, o) → (∀ v, o = Some v → pp_holds gw' (ev_rev e) v) →
  key_view (mkServer ti' gw') k (l ++ [(n, o)]).
Proof.
  intros Hv Hn Hc0 Hc Hki Hm Hh Hkeep Hb He Hnew.
  destruct (key_view_events sv k l Hv) as (Hs & Hr & HF & Hval).
  assert (Forall (λ a, a < n) l.*1) as Hlt by (eapply Forall_impl; [exact Hr|]; simpl; lia).
  unfold key_view. destruct (l ++ [(n, o)]) as [|p l'] eqn:El; [by destruct l|].
  rewrite <- El. exists ki. cbn [sv_index sv_gw].
  rewrite fmap_app. change ([(n, o)].*1) with [n]. rewrite last_snoc, Hh, Hm. split_and!; [done..| | | |].
  - apply StronglySorted_app_2; [|done|repeat constructor].
    intros x y Hx ->%list_elem_of_singleton. rewrite Forall_forall in Hlt. by apply Hlt.
  - apply Forall_app. split; [|repeat constructor; simpl; lia].
    eapply Forall_impl; [exact Hr|]. simpl. lia.
  - apply Forall2_app; [|constructor; [done|constructor]].
    eapply Forall2_impl; [exact HF|]. intros. by eapply entry_view_keeps.
  - eapply value_view_snoc; [done..| |done|done|done|done].
    by apply (StronglySorted_NoDup Z.lt).
Qed.

(** ** Reading since a revision *)

Lemma pp_keeps_trans gw1 gw2 gw3 :
  pp_keeps (λ _, True) gw1 gw2 → pp_keeps (λ _, True) gw2 gw3 → pp_keeps (λ _, True) gw1 gw3.
Proof.
  intros (_ & Hn1 & Hf1 & Hh1) (Hok & Hn2 & Hf2 & Hh2). split_and!; [done|auto|auto|auto].
Qed.

(** Revisions whose values are there are all read. *)
Lemma getValues_all revs vs idx i ti gw :
  pp_ok gw → Forall2 (pp_holds gw) revs vs →
  ∃ gw', getValuesByRevs_loop h idx i revs (mkServer ti gw) = (Ret vs, mkServer ti gw') ∧
    pp_keeps (λ _, True) gw gw'.
Proof.
  intros Hok HF. revert i gw vs Hok HF. induction revs as [|rev revs IH]; intros i gw vs Hok HF;
    inversion HF as [|? v ? vs' Hv HF']; subst.
  { exists gw. split; [done|]. by split_and!. }
  destruct (pp_Read gw (idx i) rev v Hok Hv) as (gw1 & E1 & Hk1).
  destruct (IH (S i) gw1 vs' (proj1 Hk1)) as (gw' & E' & Hk').
  { eapply Forall2_impl; [exact HF'|]. intros rev' v' Hh. by apply Hk1. }
  exists gw'. split; [|by eapply pp_keeps_trans].
  simpl. unfold gbind, getValueByRev, on_gw. cbn [sv_gw sv_index]. by rewrite E1, E'.
Qed.

(** With a deletion among them the read fails; nothing panics. *)
Lemma getValues_gone revs idx i ti gw :
  pp_ok gw → Forall (λ rev, pp_nodes gw (nodes rev) ∨ nodes rev = []) revs →
  Exists (λ rev, nodes rev = []) revs →
  ∃ e gw', getValuesByRevs_loop h idx i revs (mkServer ti gw) = (Fail e, mkServer ti gw') ∧
    pp_keeps (λ _, True) gw gw'.
Proof.
  intros Hok HF Hex. revert i gw Hok HF. induction revs as [|rev revs IH]; intros i gw Hok HF.
  { by apply Exists_nil in Hex. }
  apply Forall_cons in HF as [Hrev HF]. simpl. unfold gbind, getValueByRev, on_gw.
  cbn [sv_gw sv_index]. destruct (decide (nodes rev = [])) as [Hnil|Hne].
  { destruct (pp_Read_none gw (idx i) rev Hnil) as [e E]. rewrite E. exists e, gw.
    split; [done|]. by split_and!. }
  destruct Hrev as [Hn|]; [|done]. apply Exists_cons in Hex as [|Hex]; [done|].
  destruct (pp_Read_any gw (idx i) rev Hok Hn) as [Hnp Hk1].
  destruct (Read (piping h) (idx i) rev gw) as [[v|e|w] gw1]; simpl in Hnp, Hk1; [..|done].
  2: { by exists e, gw1. }
  destruct (IH Hex (S i) gw1 (proj1 Hk1)) as (e & gw' & E' & Hk').
  { eapply Forall_impl; [exact HF|]. intros rev' [?|?]; [left; by apply Hk1|by right]. }
  rewrite E'. exists e, gw'. split; [done|]. by eapply pp_keeps_trans.
Qed.

(** The revisions [RangeSince] finds are those of the changes from [n] on. *)
Lemma since_view sv m k n :
  sv_ok sv m →
  ∃ es, treeIndex_RangeSince (tree (sv_index sv)) k None n = Ret (ev_rev <$> es) ∧
    Forall2 (entry_view (sv_gw sv)) es (filter (λ p, n ≤ p.1) (log_of m k)) ∧
    ∀ vs, values_since n (log_of m k) = Some vs →
      Forall2 (λ e p, main (ev_rev e) = p.1 ∧ pp_holds (sv_gw sv) (ev_rev e) p.2) es vs.
Proof.
  intros Hok. pose proof (so_keys _ _ Hok k) as Hk. rewrite RangeSince_key by apply Hok.
  set (l := log_of m k) in *. destruct (key_view_events sv k l Hk) as (Hs & _ & HF & Hval).
  set (es := history (ki_at (sv_index sv) k)) in *.
  assert (main <$> (ev_rev <$> es) = l.*1) as Hmain.
  { clear -HF. induction HF as [|e p es' l' [Hep _] _ IH]; [done|].
    by rewrite !fmap_cons, Hep, IH. }
  exists (filter (λ e, n ≤ main (ev_rev e)) es). split; [|split].
  - f_equal. etrans; [|apply (filter_fmap ev_rev (λ r, n ≤ main r) (H:=λ r, Z.le_dec n (main r)))].
    unfold es, ki_at in *. destruct (_ !! k) as [ki|] eqn:Eki; [|done]. simpl in *.
    unfold since_spec. rewrite <- history_revs. apply collapse_distinct.
    rewrite filter_fmap, <- list_fmap_compose.
    eapply sublist_NoDup; [|apply fmap_sublist, sublist_filter].
    rewrite list_fmap_compose, Hmain. by apply (StronglySorted_NoDup Z.lt).
  - eapply Forall2_impl; [by apply (Forall2_filter (entry_view (sv_gw sv)) _ (λ p, n ≤ p.1));
      [intros e p [-> _]|]|]. by intros e p [? _].
  - intros vs Hvs. pose proof (mapM_is_Some_1 _ _ (ex_intro _ _ Hvs)) as Hall.
    assert (Forall2 (λ e p, main (ev_rev e) = p.1 ∧ (n ≤ p.1 → ∀ v, p.2 = Some v → pp_holds (sv_gw sv) (ev_rev e) v)) es l) as HF'.
    { apply Forall2_same_length_lookup_2; [by eapply Forall2_length|].
      intros i e [a o] He Hp. destruct (Forall2_lookup_lr _ _ _ _ _ _ HF He Hp) as [Hm _].
      split; [done|]. simpl. intros Ha v ->. eapply Hval; [done..|]. intros [t Ht].
      rewrite Forall_forall in Hall. destruct (Hall (t, None)) as [x Hx]; [|by destruct x].
      apply list_elem_of_filter. split; [|by eapply list_elem_of_lookup_2]. simpl.
      assert (a < t); [|lia]. eapply (StronglySorted_lookup_lt Z.lt l.*1 i (S i)); [done|lia| |];
        by rewrite list_lookup_fmap, ?Hp, ?Ht. }
    apply (Forall2_filter _ (λ e, n ≤ main (ev_rev e)) (λ p, n ≤ p.1)) in HF'; [|by intros e p [-> _]].
    apply mapM_Some in Hvs. eapply Forall2_trans; [|exact HF'|exact Hvs].
    intros e [a o] q [[Hm Hv] Ha] Hq. simpl in *. apply fmap_Some in Hq as (v & -> & ->). auto.
Qed.

(** The map of [getKV] has one entry per change. *)
Lemma values_map_view es vs :
  Forall2 (λ e (p : Z * string), main (ev_rev e) = p.1) es vs → NoDup vs.*1 →
  values_map (ev_rev <$> es) vs.*2 = list_to_map ((λ p, (pretty p.1, p.2)) <$> vs).
Proof.
  intros HF Hnd. unfold values_map.
  assert (∀ m : gmap string string,
    foldl (λ m p, <[Revision_String p.1 := p.2]> m) m (zip (ev_rev <$> es) vs.*2) =
    list_to_map ((λ p, (pretty p.1, p.2)) <$> vs) ∪ m) as ->; [|apply (right_id_L ∅ (∪))].
  revert Hnd. induction HF as [|e p es vs Hep _ IH]; intros Hnd m; [symmetry; apply (left_id_L ∅ (∪))|].
  rewrite !fmap_cons in *. apply NoDup_cons in Hnd as [Hp Hnd]. cbn [zip_with foldl fst snd].
  unfold zip in IH. rewrite (IH Hnd), list_to_map_cons, <- insert_union_l, <- insert_union_r.
  - unfold Revision_String. by rewrite Hep.
  - apply not_elem_of_list_to_map_1. intros (q & Hq & Hin)%list_elem_of_fmap.
    apply list_elem_of_fmap in Hin as (r & -> & Hin). simpl in Hq. unfold Revision_String in Hq.
    apply (inj pretty) in Hq. apply Hp. rewrite <- Hep, Hq. by apply list_elem_of_fmap_2.
Qed.

Lemma values_since_NoDup n l vs : NoDup l.*1 → values_since n l = Some vs → NoDup vs.*1.
Proof.
  intros Hnd Hvs%mapM_Some.
  assert (vs.*1 = (filter (λ p, n ≤ p.1) l).*1) as ->.
  { induction Hvs as [|[a o] q l' vs' Hq _ IH]; [done|]. apply fmap_Some in Hq as (v & _ & ->).
    simpl. by f_equal. }
  eapply sublist_NoDup; [exact Hnd|]. apply fmap_sublist, sublist_filter.
Qed.

Lemma getKV_since ch r k ks s ss n sv m :
  sv_ok sv m → r_Query r !! "key" = Some (k :: ks) →
  r_Query r !! "fromRev" = Some (s :: ss) → Atoi s = Ret n →
  ∃ o sv', getKV h ch r sv = (o, sv') ∧ sv_index sv' = sv_index sv ∧ sv_ok sv' m ∧
    match values_since n (log_of m k) with
    | Some vs => o = Ret (values_text vs n)
    | None => ∃ e, o = Fail e
    end.
Proof.
  intros Hok Hk Hf Hs. unfold getKV. rewrite Hk, Hf.
  unfold index0, gbind, read_tree, gret, glift. cbv beta iota. rewrite Hs.
  destruct (since_view sv m k n Hok) as (es & -> & HF & Hvals).
  assert (∀ gw', pp_keeps (λ _, True) (sv_gw sv) gw' → sv_ok (mkServer (sv_index sv) gw') m) as Hsame.
  { intros gw' Hkeep. destruct sv as [[t c] gw].
    by eapply (sv_ok_same (mkServer (mkTreeIndex t c) gw) m c gw'). }
  unfold getValuesByRevs. destruct (values_since n (log_of m k)) as [vs|] eqn:Ev.
  - specialize (Hvals vs eq_refl).
    destruct (getValues_all (ev_rev <$> es) vs.*2 (c_idx ch) 0 (sv_index sv) (sv_gw sv)) as (gw' & E & Hkeep).
    { apply Hok. }
    { apply Forall2_fmap. eapply Forall2_impl; [exact Hvals|]. by intros e p [_ ?]. }
    destruct sv as [ti gw]. simpl in *. rewrite E.
    eexists _, _. split_and!; [done|done|by apply Hsame|]. unfold values_text.
    rewrite values_map_view; [done| |].
    + eapply Forall2_impl; [exact Hvals|]. by intros e p [? _].
    + eapply values_since_NoDup; [|done].
      destruct (key_view_events _ _ _ (so_keys _ _ Hok k)) as [Hsort _].
      by apply (StronglySorted_NoDup Z.lt).
  - destruct (getValues_gone (ev_rev <$> es) (c_idx ch) 0 (sv_index sv) (sv_gw sv)) as (e & gw' & E & Hkeep).
    { apply Hok. }
    { apply Forall_fmap, Forall_forall. intros e [i He]%list_elem_of_lookup.
      destruct (Forall2_lookup_l _ _ _ _ _ HF He) as ([a [v|]] & _ & _ & Hev); destruct e; simpl in *;
        [left; apply Hev|done|done|by right]. }
    { apply mapM_None, Exists_exists in Ev as ([a o] & [i Hp]%list_elem_of_lookup & Ho).
      destruct (Forall2_lookup_r _ _ _ _ _ HF Hp) as (e & He & _ & Hev).
      destruct o as [v|]; [done|]. destruct e as [|rev]; [done|].
      apply Exists_fmap, Exists_exists. exists (EvTomb rev). split; [|done].
      by eapply list_elem_of_lookup_2. }
    destruct sv as [ti gw]. simpl in *. rewrite E. eexists _, _. split_and!; [done|done|by apply Hsame|].
    by exists e.
Qed.

Lemma deleteKV_spec ch r k ks sv m :
  sv_ok sv m → counter (sv_index sv) < 2^63 - 2 →
  r_Query r !! "key" = Some (k :: ks) →
  ∃ o sv', deleteKV h ch r sv = (o, sv') ∧
    counter (sv_index sv) ≤ counter (sv_index sv') ≤ counter (sv_index sv) + 1 ∧
    match latest m k with
    | Some (_, Some _) =>
        (∃ s, o = Ret s ∧ s ≠ "") ∧ sv_ok sv' (record_change k (counter (sv_index sv) + 1) None m)
    | _ => o = Fail ErrRevisionNotFound ∧ sv_ok sv' m
    end.
Proof.
  intros Hok Hc Hk. unfold deleteKV. rewrite Hk.
  unfold index0, gbind, read_tree, try, gret, gfail. cbv beta iota.
  pose proof (Get_view sv m k Hok) as Hget. pose proof (so_keys _ _ Hok k) as Hview.
  destruct (latest m k) as [[a [v|]]|] eqn:Em;
    [|rewrite Hget by lia; eexists _, sv; split_and!; [done|lia..|done|done]..].
  destruct Hget as (rev & cr & n & -> & Hmr & Hsr & Hns & Hh); [lia|].
  destruct (pp_Delete (sv_gw sv) (c_sched ch) rev) as (gw' & E & Hkeep); [apply Hok|done|].
  unfold on_gw. rewrite E. cbv beta iota.
  rewrite draw_revision_eq; [|apply Hok|simpl; lia]. cbn [sv_index sv_gw tree counter].
  destruct (key_view_last _ _ _ _ _ Hview Em) as (ki & e & Hki & Ha & Hmod & Hlast & [_ He] & _).
  destruct e as [rev'|]; [|done].
  set (c := counter (sv_index sv)) in *. pose proof (so_index _ _ Hok) as Hi.
  pose proof Hi as (_ & Hc0 & _). fold c in Hc0.
  set (ti1 := mkTreeIndex (tree (sv_index sv)) (c + 1)).
  assert (ti_ok ti1) as Hok1 by (apply ti_ok_counter; [done|fold c; lia]).
  destruct (index_tombstone ti1 k ki (c + 1) rev' Hok1) as (ti' & ki' & E' & Hti' & Hc' & Hbt & Hm' & Hl');
    [done|done|simpl; lia..|].
  unfold on_index. cbn [sv_index sv_gw]. fold ti1. unfold Revision_GetSub. rewrite Hsr.
  unfold NewRevision. rewrite int64_id by word_lia. rewrite E'.
  eexists _, _. split; [done|]. cbn [sv_index]. split; [rewrite Hc'; simpl; lia|]. split.
  { eexists. split; [done|]. done. }
  unfold Revision_String in Hkeep. rewrite Hmr in Hkeep.
  assert (last (log_of m k).*1 = Some a) as Hla by (unfold latest in Em; by rewrite fmap_last, Em).
  eapply (sv_ok_change sv m k (c + 1) None ti' gw' ki' a); [done|done|done|rewrite Hc'; simpl; lia|done|done| |].
  - right. apply last_Some in Hla as [l' ->]. apply elem_of_app. right. by left.
  - eapply (key_view_snoc sv k (log_of m k) ti' gw' ki' (c + 1) None
      (EvTomb (mkRevision (c + 1) 0 [])) a);
      [done|done|done|rewrite Hc'; simpl; lia| |done| |done|by right|done|done].
    + by rewrite Hbt, lookup_insert_eq.
    + rewrite Hl'. f_equal. unfold ki_at. by rewrite Hki.
Qed.

(** A write request up to the change of the index. *)
Lemma createKV_write ch r b payload a sv m :
  sv_ok sv m → counter (sv_index sv) < 2^63 - 2 →
  r_Body r = Ret b → json_Unmarshal b = Ret payload →
  Query_Get (r_Query r) "rev" = "" ∨ ParseInt (Query_Get (r_Query r) "rev") = Ret a →
  let c := counter (sv_index sv) in
  let k := default "" (payload !! "key") in
  let v := default "" (payload !! "value") in
  ∃ newRev gw' places, main newRev = c + 1 ∧ sub newRev = 0 ∧
    pp_nodes gw' (nodes newRev) ∧ pp_holds gw' newRev v ∧
    pp_keeps (λ s, s ≠ pretty (c + 1)) (sv_gw sv) gw' ∧
    createKV h ch r sv =
      match (if negb (String.length (Query_Get (r_Query r) "rev") =? 0)%nat
             then treeIndex_Update k newRev a else treeIndex_Put k newRev)
              (mkTreeIndex (tree (sv_index sv)) (c + 1)) with
      | (Ret _, ti) => (Ret (stored_text k v (c + 1) places), mkServer ti gw')
      | (Fail e, ti) => (Fail e, mkServer ti gw')
      | (Panic w, ti) => (Panic w, mkServer ti gw')
      end.
Proof.
  intros Hok Hc Hb Hj Hrev c k v. set (rp := Query_Get (r_Query r) "rev") in *.
  pose proof (so_index _ _ Hok) as Hi. pose proof Hi as (_ & Hc0 & _). fold c in Hc, Hc0.
  destruct (so_place _ _ Hok (le_put 8 (uint64 (int64 ((c + 1) `quot` BucketSize (conf h))))))
    as (ns & Hns & Hnodes).
  set (newRev := mkRevision (c + 1) 0 ns).
  destruct (pp_Write (sv_gw sv) (c_sched ch) newRev v) as (gw' & E & Hh & Hkeep);
    [apply Hok|done|apply (so_fresh _ _ Hok (c + 1)); fold c; lia|].
  eexists newRev, gw', (Join "," ns). split_and!; [done|done|by apply Hkeep|done|exact Hkeep|].
  { unfold createKV. fold rp.
    assert ((if (String.length rp =? 0)%nat then gret 0
             else match ParseInt rp with
                  | Ret n => gret n
                  | _ => gfail ("invalid rev in query string: " +:+ rp)
                  end) sv = (Ret (if (String.length rp =? 0)%nat then 0 else a), sv)) as Hparse.
    { destruct Hrev as [->|E']; [done|]. rewrite E'. by destruct (_ =? _)%nat. }
    unfold gbind at 1. rewrite Hparse. unfold gbind at 1.
    rewrite draw_revision_eq by (done || (fold c; lia)). fold c.
    unfold getPrimaryRevBytesWithBucket, NewRevision, Revision_GetMain. cbn [main].
    rewrite (int64_id (c + 1)) by (clearbody c; word_lia). rewrite (proj2 (Z.eqb_neq _ _) Hbucket).
    unfold gbind, glift. rewrite Hns, Hb, Hj.
    unfold Revision_SetNodes. cbn [main sub]. fold newRev v k. unfold try, on_gw. cbn [sv_gw].
    rewrite E. unfold on_index. cbn [sv_index sv_gw].
    destruct rp as [|x rp'] eqn:Erp; cbn [String.length Nat.eqb negb].
    - by destruct (treeIndex_Put k newRev _) as [[] ti].
    - by destruct (treeIndex_Update k newRev a _) as [[] ti]. }
Qed.

Lemma ki_at_below sv m k c' :
  sv_ok sv m → main (modified (ki_at (mkTreeIndex (tree (sv_index sv)) c') k)) ≤ counter (sv_index sv).
Proof.
  intros Hok. pose proof (so_keys _ _ Hok k) as Hk. pose proof (so_index _ _ Hok) as (_ & Hc0 & _).
  unfold ki_at. cbn [tree]. destruct (last (log_of m k)) as [[a o]|] eqn:El.
  - destruct (key_view_last _ _ _ _ _ Hk El) as (ki & e & -> & Ha & Hm & _). simpl. lia.
  - apply last_None in El. rewrite El in Hk. simpl in Hk. by rewrite Hk.
Qed.

(** The index change that stores the new revision. *)
Lemma put_view sv m k newRev gw' v :
  let c := counter (sv_index sv) in
  sv_ok sv m → c < 2^63 - 2 → main newRev = c + 1 → sub newRev = 0 →
  pp_nodes gw' (nodes newRev) → pp_holds gw' newRev v →
  pp_keeps (λ s, s ≠ pretty (c + 1)) (sv_gw sv) gw' →
  ∃ ti', treeIndex_Put k newRev (mkTreeIndex (tree (sv_index sv)) (c + 1)) = (Ret tt, ti') ∧
    c ≤ counter ti' ≤ c + 2 ∧
    sv_ok (mkServer ti' gw') (record_change k (c + 1) (Some v) m).
Proof.
  intros c Hok Hc Hm Hs Hn Hh Hkeep. pose proof (so_index _ _ Hok) as Hi.
  pose proof Hi as (_ & Hc0 & _). pose proof (ki_at_below sv m k (c + 1) Hok) as Hlt.
  set (ti1 := mkTreeIndex _ (c + 1)) in *. fold c in Hlt, Hc0.
  destruct (index_put ti1 k newRev) as (ti' & ki & E & Hti & Hcnt & Hbt & Hmod & Hl).
  { apply ti_ok_counter; [done|fold c; lia]. }
  { split_and!; simpl; lia. }
  { lia. }
  simpl in Hcnt, Hbt. exists ti'. split_and!; [done|lia..|].
  eapply (sv_ok_change sv m k (c + 1) (Some v) ti' gw' ki (c + 1));
    [done|done|done|lia|done|done|by left|].
  eapply (key_view_snoc sv k (log_of m k) ti' gw' ki (c + 1) (Some v) (EvPut newRev) (c + 1));
    [apply Hok|done|done|lia| |lia|done|done|by left|done|by intros ? [= <-]].
  by rewrite Hbt, lookup_insert_eq.
Qed.

(** ** One request *)

(** A conditional write. *)
Lemma serve_update ch r b p a sv m :
  sv_ok sv m → counter (sv_index sv) < 2^63 - 2 →
  r_Path r = "/kv" → r_Method r = "POST" ∨ r_Method r = "PUT" →
  Query_Get (r_Query r) "rev" ≠ "" → ParseInt (Query_Get (r_Query r) "rev") = Ret a →
  r_Body r = Ret b → json_Unmarshal b = Ret p →
  let n := counter (sv_index sv) + 1 in
  let c := CUpdate (default "" (p !! "key")) (default "" (p !! "value")) a in
  ∃ resp sv', ServeHTTP h ch r sv = (Ret (Some resp), sv') ∧
    responds (a_step m c n).1 resp ∧ sv_ok sv' (a_step m c n).2 ∧
    counter (sv_index sv) ≤ counter (sv_index sv') ≤ counter (sv_index sv) + 2.
Proof.
  intros Hok Hc Hp Hm Hq Ha Hb Hj n c.
  destruct (createKV_write ch r b p a sv m Hok) as (rev & gw' & places & Hmr & Hsr & Hn & Hh & Hkeep & E);
    [lia|done|done|by right|].
  assert ((String.length (Query_Get (r_Query r) "rev") =? 0)%nat = false) as Hlen
    by by destruct (Query_Get (r_Query r) "rev").
  rewrite Hlen in E. cbn [negb] in E. unfold a_step, c. set (k := default "" (p !! "key")) in *.
  pose proof (so_index _ _ Hok) as Hi. pose proof (so_keys _ _ Hok k) as Hview.
  set (ti1 := mkTreeIndex (tree (sv_index sv)) (counter (sv_index sv) + 1)) in *.
  rewrite treeIndex_Update_eq in E by (apply ti_ok_counter; [done|lia]).
  cbn [tree ti1] in E.
  assert (sv_ok (mkServer ti1 gw') m) as Hsame.
  { eapply sv_ok_same; [done|lia|exact Hkeep|]. intros z Hz Heq.
    apply (inj pretty) in Heq. lia. }
  assert (∀ e, createKV h ch r sv = (Fail e, mkServer ti1 gw') →
    ServeHTTP h ch r sv = (Ret (Some (http_Error e StatusInternalServerError)), mkServer ti1 gw'))
    as Hfail.
  { intros e E'. eapply ServeHTTP_eq; [done|by destruct Hm as [-> | ->]|exact E'|done]. }
  unfold latest. destruct (last (log_of m k)) as [[a' ov]|] eqn:El.
  2: { apply last_None in El. rewrite El in Hview. simpl in Hview. rewrite Hview in E.
       eexists _, _. split; [by apply Hfail|]. split_and!; [done|done|simpl; lia..]. }
  destruct (key_view_last _ _ _ _ _ Hview El) as (ki & e & Hki & Ha' & Hmod & _). rewrite Hki, Hmod in E.
  destruct (a' =? a).
  2: { eexists _, _. split; [by apply Hfail|]. split_and!; [done|done|simpl; lia..]. }
  destruct (put_view sv m k rev gw' (default "" (p !! "value")) Hok)
    as (ti' & Ep & Hcnt & Hok'); [lia|done..|]. fold ti1 in Ep. rewrite Ep in E.
  eexists _, _. split.
  { eapply ServeHTTP_eq; [done|by destruct Hm as [-> | ->]|exact E|done]. }
  split_and!; [by exists places|done|simpl; lia..].
Qed.

Lemma serve_request ch r c sv m :
  sv_ok sv m → counter (sv_index sv) < 2^63 - 2 → means r c →
  let n := counter (sv_index sv) + 1 in
  ∃ resp sv', ServeHTTP h ch r sv = (Ret (Some resp), sv') ∧
    responds (a_step m c n).1 resp ∧ sv_ok sv' (a_step m c n).2 ∧
    counter (sv_index sv) ≤ counter (sv_index sv') ≤ counter (sv_index sv) + 2.
Proof.
  intros Hok Hc Hr n. destruct Hr as [k ks Hp Hm Hk Hf|k ks s ss from Hp Hm Hk Hf Hs|b p Hp Hm Hq Hb Hj|b p a Hp Hm Hq Ha Hb Hj|k ks Hp Hm Hk].
  - destruct (getKV_spec ch r k ks sv m Hok) as (o & sv' & E & Hi & Hok' & Ho); [lia|done..|].
    unfold a_step. destruct (latest m k) as [[a [v|]]|]; subst o;
      (eexists _, sv'; split; [eapply ServeHTTP_eq; [done|by rewrite Hm|exact E|done]
                              |split_and!; [done|done|rewrite Hi; lia..]]).
  - destruct (getKV_since ch r k ks s ss from sv m Hok) as (o & sv' & E & Hi & Hok' & Ho); [done..|].
    unfold a_step. destruct (values_since from (log_of m k)) as [vs|]; [subst o|destruct Ho as [e ->]];
      (eexists _, sv'; split; [eapply ServeHTTP_eq; [done|by rewrite Hm|exact E|done]
                              |split_and!; [try done; by eexists|done|rewrite Hi; lia..]]).
  - destruct (createKV_write ch r b p 0 sv m Hok) as (rev & gw' & places & Hmr & Hsr & Hn & Hh & Hkeep & E);
      [lia|done|done|by left|].
    rewrite Hq in E. cbn [String.length Nat.eqb negb] in E.
    destruct (put_view sv m (default "" (p !! "key")) rev gw' (default "" (p !! "value")) Hok)
      as (ti' & Ep & Hcnt & Hok'); [lia|done..|]. rewrite Ep in E.
    eexists _, _. split.
    { eapply ServeHTTP_eq; [done|by destruct Hm as [-> | ->]|exact E|done]. }
    split_and!; [by exists places|done|simpl; lia..].
  - by eapply serve_update.
  - destruct (deleteKV_spec ch r k ks sv m Hok) as (o & sv' & E & Hcnt & Ho); [lia|done|].
    assert (∀ o' resp, o = o' → reply_of o' StatusAccepted = Some (Ret (Some resp)) →
      ServeHTTP h ch r sv = (Ret (Some resp), sv')) as Hserve.
    { intros o' resp <- Hr. eapply ServeHTTP_eq; [done|by rewrite Hm|exact E|done]. }
    unfold a_step. destruct (latest m k) as [[a [v|]]|].
    + destruct Ho as [(s & -> & Hs) Hok']. eexists _, sv'.
      split; [eapply Hserve; [done|simpl; by rewrite bool_decide_false]|].
      split_and!; [done|done|lia..].
    + destruct Ho as [-> Hok']. eexists _, sv'. split; [by eapply Hserve|].
      split_and!; [done|done|lia..].
    + destruct Ho as [-> Hok']. eexists _, sv'. split; [by eapply Hserve|].
      split_and!; [done|done|lia..].
Qed.

(** ** Requests that make no sense *)

Lemma getKV_malformed ch r sv :
  delivered r → r_Path r = "/kv" → r_Method r = "GET" → (∀ c, ¬ means r c) →
  ∃ e, getKV h ch r sv = (Fail e, sv).
Proof.
  intros (Hq & _) Hp Hm Hno. unfold getKV.
  destruct (r_Query r !! "key") as [[|k ks]|] eqn:Ek; [by destruct (Hq "key")| |by eexists].
  destruct (r_Query r !! "fromRev") as [[|s ss]|] eqn:Ef.
  - by destruct (Hq "fromRev").
  - unfold index0, gbind, gret, glift. destruct (Atoi s) as [n|e|why] eqn:Ea; [|by eexists|].
    + destruct (Hno (CSince k n)). by eapply means_since.
    + unfold Atoi in Ea. by destruct (ParseInt_core s).
  - destruct (Hno (CGet k)). by eapply means_get.
Qed.

Lemma createKV_malformed ch r sv m :
  sv_ok sv m → counter (sv_index sv) < 2^63 - 2 →
  delivered r → r_Path r = "/kv" → r_Method r = "POST" ∨ r_Method r = "PUT" → (∀ c, ¬ means r c) →
  ∃ e sv', createKV h ch r sv = (Fail e, sv') ∧ sv_ok sv' m ∧
    counter (sv_index sv) ≤ counter (sv_index sv') ≤ counter (sv_index sv) + 1.
Proof.
  intros Hok Hc (_ & Hbody & Hdec) Hp Hm Hno. set (c := counter (sv_index sv)) in *.
  pose proof (so_index _ _ Hok) as Hi. pose proof Hi as (_ & Hc0 & _). fold c in Hc0.
  unfold createKV. set (rp := Query_Get (r_Query r) "rev") in *.
  assert (∀ b p, r_Body r = Ret b → json_Unmarshal b = Ret p → ∃ e, rp ≠ "" ∧ ParseInt rp = Fail e) as Hbad.
  { intros b p Eb Ej. destruct (decide (rp = "")) as [E|Hne].
    { destruct (Hno _ (means_put r b p Hp Hm E Eb Ej)). }
    destruct (ParseInt rp) as [a|e|why] eqn:Ea; [|by exists e|unfold ParseInt in Ea; by destruct (ParseInt_core rp)].
    destruct (Hno _ (means_update r b p a Hp Hm Hne Ea Eb Ej)). }
  assert ((∃ a, (if (String.length rp =? 0)%nat then gret 0
             else match ParseInt rp with
                  | Ret n => gret n
                  | _ => gfail ("invalid rev in query string: " +:+ rp)
                  end) sv = (Ret a, sv) ∧ ∀ e, rp ≠ "" → ParseInt rp ≠ Fail e) ∨
    ∃ e, (if (String.length rp =? 0)%nat then gret 0
             else match ParseInt rp with
                  | Ret n => gret n
                  | _ => gfail ("invalid rev in query string: " +:+ rp)
                  end) sv = (Fail e, sv)) as [(a & Eparse & Hgood)|[e Eparse]].
  { destruct rp as [|x rp'] eqn:Erp; [left; by exists 0|]. cbn [String.length Nat.eqb].
    destruct (ParseInt (String x rp')); [left; by eexists|right; by eexists..]. }
  2: { exists e, sv. unfold gbind. rewrite Eparse. split_and!; [done|done|fold c; lia..]. }
  unfold gbind at 1. rewrite Eparse. unfold gbind at 1.
  rewrite draw_revision_eq by (done || (fold c; lia)). fold c.
  unfold getPrimaryRevBytesWithBucket, NewRevision, Revision_GetMain. cbn [main].
  rewrite (int64_id (c + 1)) by (clearbody c; word_lia). rewrite (proj2 (Z.eqb_neq _ _) Hbucket).
  destruct (so_place _ _ Hok (le_put 8 (uint64 (int64 ((c + 1) `quot` BucketSize (conf h)))))) as (ns & Hns & _).
  set (sv1 := mkServer (mkTreeIndex (tree (sv_index sv)) (c + 1)) (sv_gw sv)).
  assert (sv_ok sv1 m) as Hok1.
  { by apply (sv_ok_same sv m (c + 1) (sv_gw sv) (λ _, True)); [|fold c; lia|split_and!; [apply Hok|..]|]. }
  unfold gbind, glift. rewrite Hns.
  destruct (r_Body r) as [b|e|why] eqn:Eb; [|by exists e, sv1; split_and!; [..|simpl; lia|simpl; lia]|done].
  destruct (json_Unmarshal b) as [p|e|why] eqn:Ej; [|by exists e, sv1; split_and!; [..|simpl; lia|simpl; lia]|].
  - destruct (Hbad b p eq_refl Ej) as (e & ? & ?). by destruct (Hgood e).
  - specialize (Hdec b eq_refl). by rewrite Ej in Hdec.
Qed.

Lemma serve_malformed ch r sv m :
  sv_ok sv m → counter (sv_index sv) < 2^63 - 2 → delivered r → (∀ c, ¬ means r c) →
  ∃ resp sv', ServeHTTP h ch r sv = (Ret (Some resp), sv') ∧ responds RRejected resp ∧ sv_ok sv' m ∧
    counter (sv_index sv) ≤ counter (sv_index sv') ≤ counter (sv_index sv) + 2.
Proof.
  intros Hok Hc Hd Hno. destruct (decide (r_Path r = "/kv")) as [Hp|Hp].
  2: { exists http_NotFound, sv. unfold ServeHTTP. rewrite bool_decide_false by done.
       split_and!; [done|by left|done|lia..]. }
  assert (∀ mm code e sv',
    (if bool_decide (r_Method r = "GET") then (getKV h ch r, StatusAccepted)
     else if bool_decide (r_Method r = "POST") then (createKV h ch r, StatusCreated)
     else if bool_decide (r_Method r = "PUT") then (createKV h ch r, StatusCreated)
     else if bool_decide (r_Method r = "DELETE") then (deleteKV h ch r, StatusAccepted)
     else (gret "Not Implemented", StatusNotImplemented)) = (mm, code) →
    mm sv = (Fail e, sv') → sv_ok sv' m →
    counter (sv_index sv) ≤ counter (sv_index sv') ≤ counter (sv_index sv) + 1 →
    ∃ resp sv', ServeHTTP h ch r sv = (Ret (Some resp), sv') ∧ responds RRejected resp ∧ sv_ok sv' m ∧
      counter (sv_index sv) ≤ counter (sv_index sv') ≤ counter (sv_index sv) + 2) as Hfail.
  { intros mm code e sv' Hmm E Hok' Hcnt. eexists _, sv'.
    split; [by eapply ServeHTTP_eq|]. split_and!; [right; by left|done|lia..]. }
  destruct (decide (r_Method r = "GET")) as [Hm|Hg].
  { destruct (getKV_malformed ch r sv Hd Hp Hm Hno) as [e E].
    eapply Hfail; [by rewrite Hm|exact E|done|lia]. }
  destruct (decide (r_Method r = "POST" ∨ r_Method r = "PUT")) as [Hm|Hn].
  { destruct (createKV_malformed ch r sv m Hok Hc Hd Hp Hm Hno) as (e & sv' & E & Hok' & Hcnt).
    eapply Hfail; [by destruct Hm as [-> | ->]|exact E|done|done]. }
  destruct (decide (r_Method r = "DELETE")) as [Hm|Hdel].
  { assert (∃ e, deleteKV h ch r sv = (Fail e, sv)) as [e E].
    { unfold deleteKV. destruct (r_Query r !! "key") as [[|k ks]|] eqn:Ek; [by destruct (proj1 Hd "key")| |by eexists].
      destruct (Hno (CDelete k)). by eapply means_delete. }
    eapply Hfail; [by rewrite Hm|exact E|done|lia]. }
  eexists _, sv. split.
  { eapply (ServeHTTP_eq ch r (gret "Not Implemented") StatusNotImplemented sv (Ret "Not Implemented") sv);
      [done| |done|done]. by rewrite !bool_decide_false by tauto. }
  split_and!; [right; by right|done|lia..].
Qed.

(** ** Every request *)

Lemma serve_any ch r sv m :
  sv_ok sv m → counter (sv_index sv) < 2^63 - 2 → delivered r →
  let n := counter (sv_index sv) + 1 in
  ∃ resp sv', ServeHTTP h ch r sv = (Ret (Some resp), sv') ∧
    responds (a_answer m (meaning r) n).1 resp ∧ sv_ok sv' (a_answer m (meaning r) n).2 ∧
    counter (sv_index sv) ≤ counter (sv_index sv') ≤ counter (sv_index sv) + 2.
Proof.
  intros Hok Hc Hd. destruct (meaning r) as [c|] eqn:E; [by apply serve_request, meaning_means|].
  apply serve_malformed; [done..|]. intros c Hr%means_meaning. congruence.
Qed.

(** ** Many requests *)

(** Requests one after another; between two the background runs for a while. *)
Fixpoint serve_all (reqs : list (list nat * choices * request)) : M server (list (option response)) :=
  match reqs with
  | [] => gret []
  | (bg, ch, r) :: reqs' =>
      do! _ <- on_gw (background bg);
      do! resp <- ServeHTTP h ch r;
      do! resps <- serve_all reqs';
      gret (resp :: resps)
  end.

Lemma background_ok bg sv m :
  sv_ok sv m → ∃ gw', on_gw (background bg) sv = (Ret tt, mkServer (sv_index sv) gw') ∧
    sv_ok (mkServer (sv_index sv) gw') m.
Proof.
  intros Hok. destruct (pp_background (sv_gw sv) bg) as (gw' & E & Hkeep); [apply Hok|].
  exists gw'. unfold on_gw. rewrite E. split; [done|].
  destruct sv as [[t c] gw]. by eapply (sv_ok_same (mkServer (mkTreeIndex t c) gw) m c gw').
Qed.

(** What the requests of a sequence ask for. *)
Definition calls_of (reqs : list (list nat * choices * request)) : list (option call) :=
  (λ q, meaning q.2) <$> reqs.

Lemma serve_all_spec reqs sv m :
  sv_ok sv m → Forall (λ q, delivered q.2) reqs →
  counter (sv_index sv) + 2 * Z.of_nat (length reqs) < 2^63 - 2 →
  ∃ resps sv' ress m', serve_all reqs sv = (Ret (Some <$> resps), sv') ∧
    spec_run m (counter (sv_index sv)) (calls_of reqs) ress m' (counter (sv_index sv')) ∧
    Forall2 responds ress resps ∧ sv_ok sv' m'.
Proof.
  intros Hok HF. revert sv m Hok.
  induction HF as [|[[bg ch] r] reqs Hr _ IH]; intros sv m Hok Hc.
  { exists [], sv, [], m. split_and!; [done|constructor|constructor|done]. }
  destruct (background_ok bg sv m Hok) as (gw1 & Ebg & Hok1).
  cbn [length] in Hc.
  destruct (serve_any ch r (mkServer (sv_index sv) gw1) m Hok1)
    as (resp & sv2 & Es & Hresp & Hok2 & Hcnt); [simpl in *; lia|done|]. simpl in Hresp, Hok2, Hcnt.
  destruct (IH sv2 _ Hok2) as (resps & sv' & ress & m' & E & Hrun & HF & Hok'); [lia|].
  exists (resp :: resps), sv', ((a_answer m (meaning r) (counter (sv_index sv) + 1)).1 :: ress), m'.
  split_and!; [|econstructor; [by rewrite <- surjective_pairing|done|done]|by constructor|done].
  simpl. unfold gbind. rewrite Ebg, Es, E. done.
Qed.

Lemma means_put_members r b (payload : gmap string string) k v :
  r_Path r = "/kv" → r_Method r = "POST" ∨ r_Method r = "PUT" →
  Query_Get (r_Query r) "rev" = "" → r_Body r = Ret b → json_Unmarshal b = Ret payload →
  payload !! "key" = Some k → payload !! "value" = Some v → means r (CPut k v).
Proof.
  intros Hp Hm Hq Hb Hj Hk Hv. pose proof (means_put r b payload Hp Hm Hq Hb Hj) as Hr.
  by rewrite Hk, Hv in Hr.
Qed.
End service.

(** * Starting the service *)

Section start.
Context `{!GoSort} {B : BTree} {L : BTreeLaws B} `{!Hasher} {R : Redigo} `{!Json}.
Context {T : string} {SL : StoreLaws T}.

(** A store that can be listed in a revision and opened by its name. *)
Definition good_store (w : dbworld) (n : RkvNode) : Prop :=
  Name n ≠ "" ∧ str_elem "," (Name n) = false ∧ st_name w (Name n).

Lemma split_joined sy asy :
  sy ≠ [] → Forall (λ n, str_elem "," (Name n) = false) (sy ++ asy) →
  splitStores [Join "," (convertNodeArrToStringArr sy); Join "," (convertNodeArrToStringArr asy)] =
    Ret (Name <$> sy, if decide (asy = []) then [""] else Name <$> asy).
Proof.
  intros Hne [Hsy Hasy]%Forall_app. unfold splitStores, convertNodeArrToStringArr.
  rewrite !Split_Join by (by apply Forall_fmap || by intros ?%fmap_nil_inv).
  destruct sy as [|s sy]; [done|]. simpl. f_equal. f_equal.
  case_decide as E; [by rewrite E|]. rewrite Split_Join; [done| |by apply Forall_fmap].
  by intros ?%fmap_nil_inv.
Qed.

(** Every revision is placed on stores that can be opened. *)
Lemma placement t zs lc rs rc gw b :
  zones_ok zs → NoDup (name_hash <$> rs) →
  1 ≤ lc ≤ Z.of_nat (length zs) → rc ≤ Z.of_nat (length rs) →
  Forall (good_store (store gw)) ((zs ≫= snd) ++ rs) →
  ∃ ns, GetNodes (HMSyncAsync (NewSyncAsyncHashingManager t zs lc rs rc)) b = Ret ns ∧
    sa_nodes gw ns.
Proof.
  intros Hz Hrs Hlc Hrc Hgood. destruct (New_manages t zs lc rs rc Hz Hrs) as (Hm & Elc & Erc).
  set (sahm := NewSyncAsyncHashingManager t zs lc rs rc) in *.
  destruct (GetSyncNodes_spec sahm zs rs b Hz Hm) as (azs & ns & Esy & Hlen & _ & HF); [lia|].
  assert (∃ asy, SyncByZone_GetAsyncNodes sahm b = Ret asy ∧ ∀ n, n ∈ asy → n ∈ rs)
    as (asy & Easy & Hasy).
  { unfold SyncByZone_GetAsyncNodes. rewrite Erc. destruct (Z.ltb_spec rc 1) as [|Hrc1].
    { exists []. split; [done|]. by intros n ?%elem_of_nil. }
    pose proof Hm as (_ & _ & Hrem & _).
    destruct (h_enough _ _ b rc Hrem) as (res & -> & Hl & _ & Hsub); [lia|].
    exists res. simpl. by rewrite (proj2 (Z.eqb_eq _ _) Hl). }
  set (sy := sort_slice latency_less ns) in *.
  assert (∀ n, n ∈ sy → ∃ s, s ∈ zs ≫= snd ∧ Name n = Name s) as Hpick.
  { intros n. unfold sy. rewrite sort_slice_perm. intros [i Hi]%list_elem_of_lookup.
    destruct (Forall2_lookup_r _ _ _ _ _ HF Hi) as (az & _ & stores & st & Hst & Hin & ->).
    exists st. split; [|done]. apply list_elem_of_bind. by exists (az, stores). }
  assert (Forall (good_store (store gw)) (sy ++ asy)) as Hall.
  { rewrite Forall_forall in *. intros n [Hn|Hn]%elem_of_app.
    - destruct (Hpick n Hn) as (st & Hst & E). unfold good_store. rewrite E.
      apply Hgood, elem_of_app. by left.
    - apply Hgood, elem_of_app. right. by apply Hasy. }
  assert (sy ≠ []) as Hne.
  { intros E. apply (f_equal length) in E. unfold sy in E. rewrite sort_slice_perm in E.
    rewrite <- (Forall2_length _ _ _ HF) in E. simpl in E. lia. }
  eexists. split; [simpl; unfold SyncByZone_GetNodes; rewrite Esy, Easy; simpl; done|].
  unfold sa_nodes. fold sy. rewrite split_joined; [|done|].
  2: { eapply Forall_impl; [exact Hall|]. by intros n (_ & ? & _). }
  destruct sy as [|s sy']; [done|]. exists (Name s), (Name <$> sy'), (if decide (asy = []) then [""] else Name <$> asy).
  split_and!; [done| |].
  - inversion Hall as [|? ? (? & _) _]. done.
  - rewrite app_comm_cons, Forall_app. change (Name s :: (Name <$> sy')) with (Name <$> (s :: sy')).
    apply Forall_app in Hall as [Hs1 Hs2]. split.
    + apply Forall_fmap. eapply Forall_impl; [exact Hs1|]. intros n (_ & _ & ?); simpl; auto.
    + case_decide; [by repeat constructor|].
      apply Forall_fmap. eapply Forall_impl; [exact Hs2|]. intros n (_ & _ & ?); simpl; auto.
Qed.

(** The server as it starts. *)
Definition start (w : dbworld) : server := mkServer (NewTreeIndex 0) (mkGWorld w []).

Lemma start_ok hm c w :
  st_ok w → (∀ b, ∃ ns, GetNodes hm b = Ret ns ∧ sa_nodes (mkGWorld w []) ns) →
  sv_ok (mkHandler hm c (SyncAsyncPiping T)) (PL:=sync_async_laws) (start w) ∅.
Proof.
  intros Hok Hpl. assert (described w [] []) as Hdesc by (split; [done|constructor]).
  split; simpl.
  - by apply NewTreeIndex_ok.
  - by exists [].
  - done.
  - intros z Hz. exists []. split; [done|constructor].
  - intros k. unfold log_of. rewrite lookup_empty. simpl. by rewrite bt_New_map.
  - intros k1 k2 a. unfold log_of. rewrite lookup_empty. by intros ?%elem_of_nil.
Qed.

(** A configuration the service can work with: replicas by zone and in the
    background, no hash collisions, enough zones and remote stores, and stores that
    can be opened by the names the configuration gives them. *)
Record conf_ok (c : KVConfiguration) (w : dbworld) (ls : list (string * list RkvNode))
    (rs : list RkvNode) : Prop := {
  co_type : StoreTypeOf c = T;
  co_manager : HashingManagerTypeOf c ≠ Sync;
  co_piping : PipingTypeOf c ≠ Chain_piping;
  co_bucket : BucketSize c ≠ 0;
  co_zones : zones_ok ls;
  co_remote : NoDup (name_hash <$> rs);
  co_local_num : 1 ≤ LocalReplicaNum c ≤ Z.of_nat (length ls);
  co_remote_num : RemoteReplicaNum c ≤ Z.of_nat (length rs);
  co_stores : Forall (good_store w) ((ls ≫= snd) ++ rs);
}.

Lemma handler_starts probe order c w ls rs :
  GetReplications probe c = Ret (ls, rs) → conf_ok c w (order ls) rs → st_ok w →
  ∃ hm, NewKeyValueHandler probe order c = Ret (mkHandler hm c (SyncAsyncPiping T)) ∧
    sv_ok (mkHandler hm c (SyncAsyncPiping T)) (PL:=sync_async_laws) (start w) ∅.
Proof.
  intros Hrep [Ht Hm Hp Hb Hz Hrs Hl Hr Hst] Hok. unfold NewKeyValueHandler.
  rewrite Hrep, !bool_decide_false by done. unfold NewSyncAsyncPiping. rewrite Ht.
  eexists. split; [done|]. apply start_ok; [done|]. intros b. by apply placement.
Qed.

(** The storages [main] creates leave every store as it was. *)
Lemma create_storages_ok stores w :
  st_ok w → Forall (λ s, st_name w (store_url s)) stores →
  ∃ w', create_storages T stores w = (Ret tt, w') ∧ st_evolves w w'.
Proof.
  intros Hok Hn. revert w Hok Hn. induction stores as [|s stores IH]; intros w Hok Hn.
  { exists w. by split_and!. }
  apply Forall_cons in Hn as [Hs Hn].
  destruct (st_create w s Hok Hs) as (d & w1 & E & Hok1 & Hn1 & Hr1).
  destruct (st_register w1 (λ m, <[kv_Name s := d]> m) Hok1) as (Hok2 & Hn2 & Hr2).
  set (w2 := set_Storages _ w1) in *.
  destruct (IH w2 Hok2) as (w' & E' & Hok' & Hn' & Hr').
  { eapply Forall_impl; [exact Hn|]. auto. }
  exists w'. cbn [create_storages]. unfold gbind, try. rewrite E.
  split; [exact E'|]. split_and!; auto.
Qed.

Lemma conf_ok_evolves c w w' ls rs : st_evolves w w' → conf_ok c w ls rs → conf_ok c w' ls rs.
Proof.
  intros (_ & Hn & _) [Ht Hm Hp Hb Hz Hrs Hl Hr Hst]. split; [done..|].
  eapply Forall_impl; [exact Hst|]. intros n (? & ? & ?). split_and!; auto.
Qed.

(** [main] sets the service up, and it serves. *)
Lemma main_serves probe order c w ls rs reqs :
  let w0 := set_RKVConfig c w in
  GetReplications probe c = Ret (ls, rs) → conf_ok c w0 (order ls) rs → st_ok w0 →
  Forall (λ s, st_name w0 (store_url s)) (Stores c) →
  Forall (λ q, delivered q.2) reqs → 2 * Z.of_nat (length reqs) < 2^63 - 2 →
  ∃ h w' resps sv' ress m', main_setup probe order (Ret c) w = (Ret h, w') ∧
    serve_all h reqs (start w') = (Ret (Some <$> resps), sv') ∧
    spec_run ∅ 0 (calls_of reqs) ress m' (counter (sv_index sv')) ∧ Forall2 responds ress resps.
Proof.
  intros w0 Hrep Hco Hst Hnames Hreqs Hlen.
  destruct (create_storages_ok (Stores c) w0 Hst Hnames) as (w' & Ec & Hev).
  pose proof (conf_ok_evolves _ _ _ _ _ Hev Hco) as Hco'. destruct Hev as [Hst' _].
  destruct (handler_starts probe order c w' ls rs Hrep Hco' Hst') as (hm & Eh & Hok).
  destruct (serve_all_spec (mkHandler hm c (SyncAsyncPiping T)) (PL:=sync_async_laws) (co_bucket _ _ _ _ Hco)
    reqs (start w') ∅ Hok Hreqs) as (resps & sv' & ress & m' & E & Hrun & HF & _); [done|].
  exists (mkHandler hm c (SyncAsyncPiping T)), w', resps, sv', ress, m'. split_and!; [|done..].
  unfold main_setup, gbind, glift. fold w0. by rewrite (co_type _ _ _ _ Hco), Ec, Eh.
Qed.
End start.

(** * Properties *)

(** C3. Every request is served as the specification says: from a server that stands for
    the versioned map [m], whatever the goroutines do meanwhile, a request gets the
    response of the call it means -- a read, a read of the history, a write, a conditional
    write or a deletion -- on [m], or an error when it means none, and leaves a server that
    stands for the map after the call. *)
Theorem serve_refines `{!GoSort} {B : BTree} {L : BTreeLaws B} `{!Hasher} {R : Redigo} `{!Json}
    (h : KeyValueHandler) {PL : PipingLaws (piping h)} ch r sv m :
  BucketSize (conf h) ≠ 0 → sv_ok h sv m → counter (sv_index sv) < 2^63 - 2 → delivered r →
  ∃ resp sv', ServeHTTP h ch r sv = (Ret (Some resp), sv') ∧
    responds (a_answer m (meaning r) (counter (sv_index sv) + 1)).1 resp ∧
    sv_ok h sv' (a_answer m (meaning r) (counter (sv_index sv) + 1)).2.
Proof.
  intros Hb Hok Hc Hr. destruct (serve_any h Hb ch r sv m Hok Hc Hr) as (resp & sv' & ? & ? & ? & _).
  by exists resp, sv'.
Qed.

(** C1. The service from its start on: with a workable configuration [main] creates the
    storages and the handler without a panic, and any sequence of requests -- reads, reads
    of the history, writes, conditional writes, deletions, and requests that make no
    sense --, with the background goroutines running in any interleaving, is answered as
    the versioned map answers it, for every store type with the laws. *)
Theorem service_correct `{!GoSort} {B : BTree} {L : BTreeLaws B} `{!Hasher} {R : Redigo} `{!Json}
    {T : string} {SL : StoreLaws T} probe order c w ls rs reqs :
  let w0 := set_RKVConfig c w in
  GetReplications probe c = Ret (ls, rs) → conf_ok (T:=T) c w0 (order ls) rs → st_ok w0 →
  Forall (λ s, st_name w0 (store_url s)) (Stores c) →
  Forall (λ q, delivered q.2) reqs → 2 * Z.of_nat (length reqs) < 2^63 - 2 →
  ∃ h w' resps sv' ress m', main_setup probe order (Ret c) w = (Ret h, w') ∧
    serve_all h reqs (start w') = (Ret (Some <$> resps), sv') ∧
    spec_run ∅ 0 (calls_of reqs) ress m' (counter (sv_index sv')) ∧ Forall2 responds ress resps.
Proof. apply main_serves. Qed.

(** Read your writes: after a put of [v] under [k], and any requests about other keys,
    a get of [k] answers [v] with the revision of that put, whatever the goroutines
    did in between. *)
Theorem read_your_writes `{!GoSort} {B : BTree} {L : BTreeLaws B} `{!Hasher} {R : Redigo} `{!Json}
    (h : KeyValueHandler) {PL : PipingLaws (piping h)} sv m r1 r2 k v reqs bg1 ch1 bg2 ch2 :
  BucketSize (conf h) ≠ 0 → sv_ok h sv m →
  delivered r1 → meaning r1 = Some (CPut k v) → delivered r2 → meaning r2 = Some (CGet k) →
  Forall (λ q, delivered q.2) reqs → Forall (λ q, call_key <$> meaning q.2 ≠ Some k) reqs →
  counter (sv_index sv) + 2 * (Z.of_nat (length reqs) + 2) < 2^63 - 2 →
  ∃ resps sv', serve_all h ((bg1, ch1, r1) :: reqs ++ [(bg2, ch2, r2)]) sv = (Ret resps, sv') ∧
    last resps = Some (Some (mkResponse StatusAccepted "application/json"
      ("The value is " +:+ v +:+ " with the revision " +:+
       pretty (counter (sv_index sv) + 1) +:+ newline))).
Proof.
  intros Hb Hok Hd1 Hm1 Hd2 Hm2 HF Hne Hc.
  destruct (serve_all_spec h Hb ((bg1, ch1, r1) :: reqs ++ [(bg2, ch2, r2)])
    sv m Hok) as (resps & sv' & ress & m' & E & Hrun & Hresp & _).
  { constructor; [done|]. apply Forall_app. split; [done|]. by apply Forall_singleton. }
  { simpl. rewrite length_app. simpl. lia. }
  exists (Some <$> resps), sv'. split; [done|].
  unfold calls_of in Hrun. rewrite fmap_cons, fmap_app in Hrun. simpl in Hrun. rewrite Hm1, Hm2 in Hrun.
  inversion Hrun as [|? ? ? res m1 c1 ? ress' ? ? Ha Hcc Hrest]; simplify_eq. simpl in Ha. simplify_eq.
  eapply spec_run_get in Hrest; [|apply latest_record|by apply Forall_fmap].
  inversion Hresp as [|? rp ? rps Hr0 Hr1]; simplify_eq.
  rewrite fmap_last, last_cons.
  assert (∃ rl, last rps = Some rl ∧ responds (RValue v (counter (sv_index sv) + 1)) rl) as (rl & -> & ->).
  { rewrite last_lookup in Hrest. rewrite last_lookup, <- (Forall2_length _ _ _ Hr1).
    by destruct (Forall2_lookup_l _ _ _ _ _ Hr1 Hrest) as (rl & ? & ?); exists rl. }
  done.
Qed.

(** A chain over the replicas of the synchronous manager never works: the manager puts
    all replicas into one string, the chain takes it for a single node, and every
    write is answered with an error. *)
Theorem sync_chain_rejects `{!GoSort} {B : BTree} `{!Hasher} {R : Redigo} `{!Json}
    (h : KeyValueHandler) shm t conc ch r k v sv :
  hm h = HMSync shm → piping h = ChainPiping t LINEARIZABLE conc → BucketSize (conf h) ≠ 0 →
  (∀ k, ∃ ns, SyncHashingManager_GetSyncNodes shm k = Ret ns) → means r (CPut k v) →
  (ServeHTTP h ch r sv).1 = Ret (Some (http_Error
    ("system backend failed to write data: " +:+
     "the number of nodes is 1, which means there is no replica") StatusInternalServerError)).
Proof.
  intros Hhm Hpp Hb Hns Hr.
  inversion Hr as [| |b payload Hp Hm Hq Hbody Hj| |]; subst.
  set (e := "system backend failed to write data: " +:+ _).
  assert (∃ sv', createKV h ch r sv = (Fail e, sv')) as [sv' E].
  { assert (∃ rev sv1, draw_revision sv = (Ret rev, sv1)) as (rev & sv1 & Ed).
    { unfold draw_revision. destruct (GetGlobalIncreasingRevision _). eauto. }
    unfold createKV. rewrite Hq. cbn [String.length Nat.eqb].
    unfold gbind, gret, glift. rewrite Ed.
    unfold getPrimaryRevBytesWithBucket. rewrite (proj2 (Z.eqb_neq _ _) Hb).
    cbv beta iota zeta. rewrite Hhm. cbn [GetNodes]. unfold SyncHashingManager_GetNodes.
    match goal with |- context [SyncHashingManager_GetSyncNodes shm ?k] => destruct (Hns k) as [ns ->] end.
    cbn [obind]. rewrite Hbody, Hj, Hpp. eexists. reflexivity. }
  rewrite (ServeHTTP_eq h Hb ch r (createKV h ch r) StatusCreated sv (Fail e) sv'
    (Ret (Some (http_Error e StatusInternalServerError)))); [done|done| |done|done].
  by destruct Hm as [-> | ->].
Qed.




(** * Concrete instances *)

(** A hash for the examples: the last eight bytes. *)
#[local, refine] Instance suffix_Hasher : Hasher := {| Hash s := uint64 (be_get s) |}.
Proof. intros. apply uint64_range. Defined.

(** Two memory stores in two zones, each answering its ten probes in 2 ms. *)
Definition demo_probe : string → list (Z * option error) := λ _, replicate 10 (2000000, None).
Definition demo_order : gmap string (list RkvNode) → list (string * list RkvNode) := map_to_list.
Definition demo_ls : gmap string (list RkvNode) :=
  match GetReplications demo_probe (demo_conf Memory) with Ret (ls, _) => ls | _ => ∅ end.

(** A write of "v-" and the key. *)
Definition put_request (k : string) : request :=
  mkRequest "POST" "/kv" ∅ (Ret (json_Marshal {[ "key" := k; "value" := "v-" +:+ k ]})).
Definition get_request (k : string) : request :=
  mkRequest "GET" "/kv" {[ "key" := [k] ]} (Ret "").
Definition delete_request (k : string) : request :=
  mkRequest "DELETE" "/kv" {[ "key" := [k] ]} (Ret "").
Definition since_request (k rev : string) : request :=
  mkRequest "GET" "/kv" {[ "key" := [k]; "fromRev" := [rev] ]} (Ret "").
Definition no_choice : choices := mkChoices [] (λ _, 0).

Lemma demo_replications : GetReplications demo_probe (demo_conf Memory) = Ret (demo_ls, []).
Proof. vm_compute. reflexivity. Qed.

Lemma demo_conf_ok : conf_ok (T:=Memory) (demo_conf Memory) (demo_world Memory) (demo_order demo_ls) [].
Proof.
  split; [done|done|done|done| |constructor|split; [done|by vm_compute]|by vm_compute|].
  - split; [apply (bool_decide_unpack _); by vm_compute|].
    apply (bool_decide_unpack _). by vm_compute.
  - rewrite app_nil_r.
    apply (Forall_impl (λ n, Name n ≠ "" ∧ str_elem "," (Name n) = false)).
    + apply (bool_decide_unpack _). by vm_compute.
    + intros n [? ?]. by split_and!.
Qed.

Lemma demo_means_put : means (put_request "k") (CPut "k" "v-k").
Proof.
  eapply (means_put_members (put_request "k") _ {[ "key" := "k"; "value" := "v-k" ]});
    [done|by left|done|done|by vm_compute|done|done].
Qed.
Lemma demo_means_get k : means (get_request k) (CGet k).
Proof. by eapply (means_get (get_request k) k []). Qed.
Lemma demo_means_delete k : means (delete_request k) (CDelete k).
Proof. by eapply (means_delete (delete_request k) k []). Qed.

Lemma demo_means_since k : means (since_request k "0") (CSince k 0).
Proof. by eapply (means_since (since_request k "0") k [] "0" [] 0). Qed.

(** A read without a key. *)
Definition keyless_request : request := mkRequest "GET" "/kv" ∅ (Ret "").

(** The library hands a request on when its query has values. *)
Lemma delivered_ok m p q b : (∀ k, q !! k ≠ Some []) → delivered (mkRequest m p q (Ret b)).
Proof. intros Hq. split_and!; [done|done|]. intros b' _. apply json_no_panic. Qed.

Lemma query1 (k : string) v (vs : list string) k' :
  ({[ k := v :: vs ]} : gmap string (list string)) !! k' ≠ Some [].
Proof. by intros [_ ?]%lookup_singleton_Some. Qed.
Lemma query2 (k1 k2 : string) v1 v2 (vs1 vs2 : list string) k' :
  (<[k1 := v1 :: vs1]> {[ k2 := v2 :: vs2 ]} : gmap string (list string)) !! k' ≠ Some [].
Proof. intros [[_ ?]|[_ [_ ?]%lookup_singleton_Some]]%lookup_insert_Some; done. Qed.

Lemma demo_put_delivered k : delivered (put_request k).
Proof. by apply delivered_ok. Qed.
Lemma demo_get_delivered k : delivered (get_request k).
Proof. apply delivered_ok, query1. Qed.
Lemma demo_since_delivered k n : delivered (since_request k n).
Proof. apply delivered_ok, query2. Qed.
Lemma demo_delete_delivered k : delivered (delete_request k).
Proof. apply delivered_ok, query1. Qed.
Lemma demo_keyless_delivered : delivered keyless_request.
Proof. by apply delivered_ok. Qed.

Definition demo_requests : list (list nat * choices * request) :=
  [([], no_choice, put_request "k"); ([], no_choice, get_request "k");
   ([], no_choice, since_request "k" "0"); ([], no_choice, keyless_request);
   ([], no_choice, delete_request "k"); ([], no_choice, since_request "k" "0")].

Lemma demo_requests_delivered : Forall (λ q, delivered q.2) demo_requests.
Proof.
  repeat (apply Forall_cons_2; [simpl; auto using demo_put_delivered, demo_get_delivered, demo_since_delivered,
    demo_delete_delivered, demo_keyless_delivered|]). constructor.
Qed.

Lemma demo_calls :
  calls_of demo_requests = [Some (CPut "k" "v-k"); Some (CGet "k"); Some (CSince "k" 0); None;
                            Some (CDelete "k"); Some (CSince "k" 0)].
Proof. by vm_compute. Qed.

Lemma service_correct_witness :
  ∃ h w' resps sv' ress m',
    main_setup demo_probe demo_order (Ret (demo_conf Memory)) (demo_world Memory) = (Ret h, w') ∧
    serve_all h demo_requests (start w') = (Ret (Some <$> resps), sv') ∧
    spec_run ∅ 0 [Some (CPut "k" "v-k"); Some (CGet "k"); Some (CSince "k" 0); None;
                  Some (CDelete "k"); Some (CSince "k" 0)] ress m' (counter (sv_index sv')) ∧
    Forall2 responds ress resps.
Proof.
  rewrite <- demo_calls.
  apply (service_correct demo_probe demo_order (demo_conf Memory) (demo_world Memory) demo_ls []);
    [apply demo_replications|apply demo_conf_ok|apply demo_world_mem_ok| |apply demo_requests_delivered|done].
  by repeat constructor.
Defined.

Lemma demo_start_ok :
  ∃ hm, NewKeyValueHandler demo_probe demo_order (demo_conf Memory)
          = Ret (mkHandler hm (demo_conf Memory) (SyncAsyncPiping Memory)) ∧
    sv_ok (mkHandler hm (demo_conf Memory) (SyncAsyncPiping Memory)) (PL:=sync_async_laws (T:=Memory))
      (start (demo_world Memory)) ∅.
Proof.
  eapply (handler_starts (T:=Memory) demo_probe demo_order);
    [apply demo_replications|apply demo_conf_ok|apply demo_world_mem_ok].
Qed.

Lemma serve_refines_witness :
  ∃ h resp sv', NewKeyValueHandler demo_probe demo_order (demo_conf Memory) = Ret h ∧
    ServeHTTP h no_choice (put_request "k") (start (demo_world Memory)) = (Ret (Some resp), sv') ∧
    responds (a_answer ∅ (meaning (put_request "k")) 1).1 resp.
Proof.
  destruct demo_start_ok as (hm & Eh & Hok).
  destruct (serve_refines (mkHandler hm (demo_conf Memory) (SyncAsyncPiping Memory))
    (PL:=sync_async_laws (T:=Memory)) no_choice (put_request "k")
    (start (demo_world Memory)) ∅) as (resp & sv' & E & Hr & _);
    [|exact Hok|done|apply demo_put_delivered|]; [done|].
  eexists _, resp, sv'. split; [exact Eh|]. by split.
Defined.

Lemma read_your_writes_witness :
  ∃ h resps sv', NewKeyValueHandler demo_probe demo_order (demo_conf Memory) = Ret h ∧
    serve_all h [([], no_choice, put_request "k"); ([1]%nat, no_choice, delete_request "x");
                 ([], no_choice, get_request "k")] (start (demo_world Memory)) = (Ret resps, sv') ∧
    last resps = Some (Some (mkResponse StatusAccepted "application/json"
      ("The value is " +:+ "v-k" +:+ " with the revision " +:+ pretty (0 + 1) +:+ newline))).
Proof.
  destruct demo_start_ok as (hm & Eh & Hok).
  destruct (read_your_writes (mkHandler hm (demo_conf Memory) (SyncAsyncPiping Memory))
    (PL:=sync_async_laws (T:=Memory)) (start (demo_world Memory)) ∅
    (put_request "k") (get_request "k") "k" "v-k" [([1]%nat, no_choice, delete_request "x")]
    [] no_choice [] no_choice) as (resps & sv' & E & Hr);
    [|exact Hok|apply demo_put_delivered|by vm_compute|apply demo_get_delivered|by vm_compute|..].
  { done. }
  { apply Forall_singleton, demo_delete_delivered. }
  { by apply Forall_singleton; vm_compute. }
  { simpl. lia. }
  eexists _, resps, sv'. split; [exact Eh|]. by split.
Defined.

(** A synchronous manager with a chain. *)
Definition sync_chain_conf (n : Z) (pp : string) : KVConfiguration :=
  mkKVConfiguration "rendezvous" Memory "sync" pp demo_stores 10 false 100 n 0.

Definition handler_of (c : KVConfiguration) : KeyValueHandler :=
  match NewKeyValueHandler demo_probe demo_order c with
  | Ret h => h
  | _ => mkHandler (HMSync (mkSyncHashingManager (Factory rendezvous_type) 0)) c (SyncAsyncPiping Memory)
  end.

Definition demo_nodes : list RkvNode := [mkRkvNode "store-a" 0 false; mkRkvNode "store-b" 0 false].

Lemma sync_chain_rejects_witness :
  (ServeHTTP (mkHandler (HMSync (NewSyncHashingManager rendezvous_type demo_nodes 2))
     (sync_chain_conf 2 "chain") (ChainPiping Memory LINEARIZABLE false)) no_choice (put_request "k")
     (start (demo_world Memory))).1 =
  Ret (Some (http_Error ("system backend failed to write data: " +:+
     "the number of nodes is 1, which means there is no replica") StatusInternalServerError)).
Proof.
  eapply sync_chain_rejects; [done|done|done| |].
  2: { apply demo_means_put. }
  intros k. destruct (h_enough (build (Factory rendezvous_type) demo_nodes) demo_nodes k 2)
    as (res & E & _); [apply Factory_build, (bool_decide_unpack _); by vm_compute|simpl; lia|].
  exists res. exact E.
Defined.


(** A query of the revisions of a key since a given one fails for good once the key
    was deleted, even after it was written again: the value of the deleted revision is
    gone, and the tombstone, which is listed too, has no stores to read from. *)
Theorem since_after_delete_fails :
  (serve_all (handler_of (demo_conf Memory))
    [([], no_choice, put_request "k"); ([], no_choice, since_request "k" "0");
     ([], no_choice, delete_request "k"); ([], no_choice, put_request "k");
     ([], no_choice, since_request "k" "0"); ([], no_choice, since_request "k" "3");
     ([], no_choice, since_request "k" "4")]
    (start (demo_world Memory))).1 =
  Ret [Some (mkResponse StatusCreated "application/json"
         ("The key value pair (k,v-k) has been saved as revision 1 at store-b,store-a," +:+ newline));
       Some (mkResponse StatusAccepted "application/json"
         ("The values are map[1:v-k] from the revision 0" +:+ newline));
       Some (mkResponse StatusAccepted "application/json"
         ("The key [k] has been removed at [store-b,store-a ]" +:+ newline));
       Some (mkResponse StatusCreated "application/json"
         ("The key value pair (k,v-k) has been saved as revision 4 at store-b,store-a," +:+ newline));
       Some (http_Error "key not found" StatusInternalServerError);
       Some (http_Error "no stores in the revision" StatusInternalServerError);
       Some (mkResponse StatusAccepted "application/json"
         ("The values are map[4:v-k] from the revision 4" +:+ newline))].
Proof. vm_compute. reflexivity. Qed.
