(* ===== verification/Startup.v ===== *)
(** The service as it is shipped: [main] reads src/cmd/http/config.json, measures the
    stores over the network, and serves.  This puts together [ConfigFile], [Latency],
    [Config], [XXHash] (the hash of the partitioners) and [Service].  *)
From stdpp Require Import base gmap list strings pretty.
From S2P Require Import Prelude GoStd Json Hashing XXHash HashingManager Latency Config ConfigFile Revision KeyIndex KeyHistory BTree TreeIndex Database ChainNode Runtime Chain Piping Handler VersionedMap Service.

Open Scope Z_scope.

#[local] Existing Instance rkvHash_Hasher.

(** [main] up to listening: the dials to a target are those of [network]. *)
Definition service_main {B : BTree} {R : Redigo} `{!GoSort} (runningfile : option string) (open : string → outcome string)
    (network : string → list dial)
    (order : gmap string (list RkvNode) → list (string * list RkvNode)) : M dbworld KeyValueHandler :=
  main_setup (λ target, connectDuration <$> network target) order
    (main_config (NewKVConfiguration runningfile open "config.json")).

(** Ten dials, at most one of which fails; those that go through take from [lo] to [hi]
    nanoseconds. *)
Definition reached (lo hi : Z) (ds : list dial) : Prop :=
  length ds = 10%nat ∧ (length (filter (λ d, d_err d ≠ None) ds) < 2)%nat ∧
  Forall (λ d, d_err d = None → lo ≤ (connectDuration d).1 ≤ hi) ds.

Definition ms : Z := 1000000.

Lemma store_reached network c s lo hi :
  StoreTypeOf c ≠ DummyLatency → 0 ≤ lo → hi < 2^59 → reached lo hi (network (store_url s)) →
  ∃ lat, store_latency (λ target, connectDuration <$> network target) c s = Ret lat ∧
    lo / ms ≤ lat ≤ hi / ms.
Proof.
  intros Ht Hlo Hhi (Hlen & Hfail & HF). unfold store_latency. rewrite bool_decide_false by done.
  destruct (GetLatency_bounds lo hi (network (store_url s))) as (out & all & av & -> & E & Hav);
    [lia|done|done|done|rewrite Hlen; lia|].
  rewrite E. eexists. split; [done|]. simpl. change millisecond with ms. rewrite Z.quot_div_nonneg by (unfold ms; lia).
  split; apply Z.div_le_mono; unfold ms; lia.
Qed.

Lemma add_near probe c ls rs s lat :
  store_latency probe c s = Ret lat → lat < RemoteStoreLatencyThresholdInMilliSec c →
  add_replica probe c (ls, rs) s =
    Ret (<[AvailabilityZone s := default [] (ls !! AvailabilityZone s) ++
            [mkRkvNode (store_target c s) (int64 (lat * millisecond)) false]]> ls, rs).
Proof. intros E Hl. unfold add_replica. rewrite E. simpl. by rewrite (proj2 (Z.ltb_lt _ _)). Qed.
Lemma add_far probe c ls rs s lat :
  store_latency probe c s = Ret lat → RemoteStoreLatencyThresholdInMilliSec c ≤ lat →
  add_replica probe c (ls, rs) s =
    Ret (ls, rs ++ [mkRkvNode (store_target c s) (int64 (lat * millisecond)) true]).
Proof. intros E Hl. unfold add_replica. rewrite E. simpl. by rewrite (proj2 (Z.ltb_ge _ _)). Qed.

Section shipped.
Context `{!GoSort} {B : BTree} {L : BTreeLaws B} {R : Redigo}.
Context (network : string → list dial).

(** The stores 1 and 3 answer within 99 ms, store 4 takes longer. *)
Record near_and_far : Prop := {
  nf_1 : reached 0 (99 * ms) (network "127.0.0.1:6379");
  nf_3 : reached 0 (99 * ms) (network "172.31.9.140:6379");
  nf_4 : reached (100 * ms) (60000 * ms) (network "172.31.12.96:6380");
}.

Lemma shipped_replications :
  near_and_far →
  ∃ l1 l3 l4, GetReplications (λ target, connectDuration <$> network target) shipped_conf =
    Ret ({[ "us-west-2a" := [mkRkvNode "store3" l3 false]; "us-west-1b" := [mkRkvNode "store1" l1 false] ]},
         [mkRkvNode "store4" l4 true])%string.
Proof.
  intros [H1 H3 H4].
  destruct (store_reached network shipped_conf (mkKVStore "us-west-1" "us-west-1b" "store1" "127.0.0.1" 6379 1)
    0 (99 * ms)) as (a1 & E1 & B1); [done|done|done|done|].
  destruct (store_reached network shipped_conf (mkKVStore "us-west-2" "us-west-2a" "store3" "172.31.9.140" 6379 40)
    0 (99 * ms)) as (a3 & E3 & B3); [done|done|done|done|].
  destruct (store_reached network shipped_conf (mkKVStore "us-west-2" "us-west-2b" "store4" "172.31.12.96" 6380 100)
    (100 * ms) (60000 * ms)) as (a4 & E4 & B4); [done|done|done|done|].
  change (99 * ms / ms) with 99 in *. change (100 * ms / ms) with 100 in *.
  exists (int64 (a1 * millisecond)), (int64 (a3 * millisecond)), (int64 (a4 * millisecond)).
  unfold GetReplications. cbn [Stores shipped_conf shipped_stores add_replicas].
  rewrite (add_near _ _ _ _ _ _ E1) by (simpl; lia). cbn [obind].
  rewrite (add_near _ _ _ _ _ _ E3) by (simpl; lia). cbn [obind].
  rewrite (add_far _ _ _ _ _ _ E4) by (simpl; lia). cbn [obind].
  done.
Qed.

(** The configuration is one the service can work with, whatever the order in which the
    zones come out of their map: no two zones or stores have the same hash. *)
Lemma shipped_conf_ok (order : gmap string (list RkvNode) → list (string * list RkvNode)) w l1 l3 l4 :
  (∀ m, order m ≡ₚ map_to_list m) →
  conf_ok (T:=Memory) shipped_conf w
    (order {[ "us-west-2a" := [mkRkvNode "store3" l3 false]; "us-west-1b" := [mkRkvNode "store1" l1 false] ]})
    [mkRkvNode "store4" l4 true].
Proof.
  intros Hord. set (ls := {[ "us-west-2a" := _; "us-west-1b" := _ ]}).
  assert (order ls ≡ₚ [("us-west-2a", [mkRkvNode "store3" l3 false]); ("us-west-1b", [mkRkvNode "store1" l1 false])])%string as Hp.
  { rewrite Hord. unfold ls. rewrite map_to_list_insert by done. by rewrite map_to_list_singleton. }
  split; [done|done|done|done| | | | |].
  - split; [rewrite Hp|rewrite Hp; repeat constructor; try done; by apply not_elem_of_nil].
    simpl. apply (bool_decide_unpack _). by vm_compute.
  - apply NoDup_singleton.
  - rewrite Hp. simpl. lia.
  - simpl. lia.
  - rewrite Hp. simpl. repeat constructor; done.
Qed.
End shipped.

(** C2. The service as it is shipped, end to end: [main] reads the repository's
    config.json, finds store 1 and store 3 near and store 4 far over the network -- one of
    the ten dials to each may fail --, places by xxHash without collisions, and starts;
    any sequence of requests the library hands on, with the goroutines running in any
    interleaving, is then answered as the versioned map answers it. *)
Theorem shipped_service `{!GoSort} {B : BTree} {L : BTreeLaws B} {R : Redigo}
    (network : string → list dial) order w reqs :
  near_and_far network → (∀ m, order m ≡ₚ map_to_list m) → mem_ok w →
  Forall (λ q, delivered q.2) reqs → 2 * Z.of_nat (length reqs) < 2^63 - 2 →
  ∃ h w' resps sv' ress m',
    service_main (Some "/src/cmd/http/main.go"%string) (repository "/src/cmd/http") network order w = (Ret h, w') ∧
    serve_all h reqs (start w') = (Ret (Some <$> resps), sv') ∧
    spec_run ∅ 0 (calls_of reqs) ress m' (counter (sv_index sv')) ∧ Forall2 responds ress resps.
Proof.
  intros Hnet Hord Hok Hreqs Hlen. unfold service_main.
  replace (main_config _) with (Ret shipped_conf) by by vm_compute.
  destruct (shipped_replications network Hnet) as (l1 & l3 & l4 & Erep).
  eapply (main_serves (T:=Memory)); [exact Erep|by apply shipped_conf_ok|exact Hok|by repeat constructor|done|done].
Qed.

(** * A network *)

Definition dials (n : Z) : list dial := replicate 10 (mkDial 0 [] n None).
Definition demo_network (target : string) : list dial :=
  if bool_decide (target = "127.0.0.1:6379") then dials (2 * ms)
  else if bool_decide (target = "172.31.9.140:6379") then dials (40 * ms) else dials (120 * ms).

Lemma dials_reached lo hi n : 0 ≤ n < 2^63 → lo ≤ n ≤ hi → reached lo hi (dials n).
Proof.
  intros Hn Hb. split; [done|]. split; [vm_compute; lia|]. apply Forall_replicate. intros _.
  unfold connectDuration, time_Sub. simpl. repeat case_match; lia.
Qed.

Lemma shipped_service_witness :
  ∃ h w' resps sv' ress m',
    service_main (Some "/src/cmd/http/main.go"%string) (repository "/src/cmd/http") demo_network map_to_list
      (demo_world Memory) = (Ret h, w') ∧
    serve_all h demo_requests (start w') = (Ret (Some <$> resps), sv') ∧
    spec_run ∅ 0 (calls_of demo_requests) ress m' (counter (sv_index sv')) ∧ Forall2 responds ress resps.
Proof.
  apply (shipped_service demo_network map_to_list (demo_world Memory)); 
    [|done|apply demo_world_mem_ok|apply demo_requests_delivered|done].
  split; apply dials_reached; unfold ms; lia.
Defined.
