(* ===== verification/Validation.v ===== *)
(** The validation client: src/validation/consistency_log.go.

    The client writes and reads one key for a while and logs each operation with its
    times, value and revision, for a linearizability checker.  Its state [client] holds
    the server it talks to, the log file and how far it has come in what the
    environment gives it: the clock readings, random numbers and schedules of the
    [oracle].  A Go panic is [Panic], the exit of [log.Fatal] is [Fail].

    [http_Do] is the way of a request through net/http to the handler, with
    [ParseQuery] for the query string.  The main theorem runs the client against the
    service: it ends, and its log is a legal history of a register. *)
From Stdlib Require Import Ascii.
From stdpp Require Import base gmap list strings pretty.
From S2P Require Import Prelude GoStd Json Hashing HashingManager Latency Config Revision KeyIndex KeyHistory BTree TreeIndex Database ChainNode Runtime Chain Piping Handler VersionedMap Service.

Open Scope Z_scope.

(** * net/url *)

Fixpoint Cut (sep : ascii) (s : string) : string * string :=
  match s with
  | EmptyString => (""%string, ""%string)
  | String c s' =>
      if bool_decide (c = sep) then (""%string, s')
      else let '(a, b) := Cut sep s' in (String c a, b)
  end.

(** [url.QueryUnescape]. *)
Fixpoint QueryUnescape (s : string) : option string :=
  match s with
  | EmptyString => Some ""%string
  | String c s' =>
      if isb 43 c then String (chr 32) <$> QueryUnescape s'
      else if isb 37 c then
        match s' with
        | String a (String b s'') =>
            if isHex a && isHex b
            then String (chr (hex_val a * 16 + hex_val b)) <$> QueryUnescape s''
            else None
        | _ => None
        end
      else String c <$> QueryUnescape s'
  end.

(** The pairs of a query string are separated by an ampersand or a semicolon. *)
Fixpoint semicolons (s : string) : string :=
  match s with
  | EmptyString => ""
  | String c s' => String (if isb 59 c then chr 38 else c) (semicolons s')
  end.

Definition add_pair (m : gmap string (list string)) (p : string) : gmap string (list string) :=
  if bool_decide (p = ""%string) then m
  else
    let '(k, v) := Cut "=" p in
    match QueryUnescape k, QueryUnescape v with
    | Some k, Some v => <[k := default [] (m !! k) ++ [v]]> m
    | _, _ => m
    end.

(** [url.ParseQuery], as [URL.Query] uses it: a malformed pair is left out. *)
Definition ParseQuery (q : string) : gmap string (list string) :=
  foldl add_pair ∅ (Split "&" (semicolons q)).

(** * The client *)

Definition host : string := "http://localhost:8090".
Definition URL : string := host +:+ "/kv".
Definition INTER_OPS_MAX_DURATION_MS : Z := 200.

(** What the environment gives: clock readings, random numbers, and for each request
    the schedule of the background before it and the choices while it is served. *)
Record oracle := mkOracle {
  o_now : nat → Z;
  o_rnd : nat → Z;
  o_net : nat → list nat * choices;
}.

Section client.
Context `{!GoSort} {B : BTree} `{!Hasher} {R : Redigo}.
Context (h : KeyValueHandler) (o : oracle).

Record client := mkClient {
  cl_server : server;
  cl_now : nat;
  cl_rnd : nat;
  cl_net : nat;
  CLIENT_ID : string;
  KEY : string;
  DURATION : Z;
  EVENT_ID : Z;
  log_file : string;
}.

Definition set_server (sv : server) (c : client) : client :=
  mkClient sv (cl_now c) (cl_rnd c) (S (cl_net c)) (CLIENT_ID c) (KEY c) (DURATION c)
    (EVENT_ID c) (log_file c).

(** [time.Now().UnixNano()]. *)
Definition time_Now : M client Z := λ c,
  (Ret (int64 (o_now o (cl_now c))),
   mkClient (cl_server c) (S (cl_now c)) (cl_rnd c) (cl_net c) (CLIENT_ID c) (KEY c)
     (DURATION c) (EVENT_ID c) (log_file c)).

(** [rand.Intn(n)], for positive [n]. *)
Definition rand_Intn (n : Z) : M client Z := λ c,
  (Ret (o_rnd o (cl_rnd c) `mod` n),
   mkClient (cl_server c) (cl_now c) (S (cl_rnd c)) (cl_net c) (CLIENT_ID c) (KEY c)
     (DURATION c) (EVENT_ID c) (log_file c)).

Definition get_KEY : M client string := λ c, (Ret (KEY c), c).

(** The body of the response the handler gives: a panic in the handler closes the
    connection, a handler that writes nothing leaves an empty body. *)
Definition served (r : request) : M client string := λ c,
  let '(bg, ch) := o_net o (cl_net c) in
  match (do! _ <- on_gw (background bg); ServeHTTP h ch r) (cl_server c) with
  | (Ret (Some resp), sv) => (Ret (body resp), set_server sv c)
  | (Ret None, sv) => (Ret ""%string, set_server sv c)
  | (Fail e, sv) => (Fail e, set_server sv c)
  | (Panic w, sv) => (Fail "EOF", set_server sv c)
  end.

Definition is_ctl (c : ascii) : bool := (byte_val c <? 32) || isb 127 c.
Fixpoint has_ctl (s : string) : bool :=
  match s with EmptyString => false | String c s' => is_ctl c || has_ctl s' end.

(** A request to [url], which begins with [host]: control characters in it are an error of the client; the part
    after a number sign is not sent; a blank in it breaks the request line, which the
    server answers itself. *)
Definition http_Do (method url payload : string) : M client string :=
  if has_ctl url then gfail "net/url: invalid control character in URL"
  else
    let uri := String.substring (String.length host) (String.length url - String.length host)
                 (Cut "#" url).1 in
    if str_elem " " uri then gret "400 Bad Request"
    else
      let '(path, query) := Cut "?" uri in
      served (mkRequest method path (ParseQuery query) (Ret payload)).

(** [l[i]]. *)
Definition index (l : list string) (i : nat) : M client string :=
  match l !! i with
  | Some x => gret x
  | None => gpanic "index out of range"
  end.

(** A line of the log. *)
Definition log_line (op value : string) (start end_ : Z) (revision : string) : M client string :=
  λ c, (Ret (op +:+ "," +:+ value +:+ "," +:+ pretty start +:+ "," +:+ pretty end_ +:+ "," +:+
             CLIENT_ID c +:+ "," +:+ pretty (EVENT_ID c) +:+ "," +:+ revision), c).

(** The value and the revision in the body of the answer to a read. *)
Definition parse_read (body : string) : M client (string * string) :=
  do! b1 <- index (SplitOn "is " body) 1;
  do! value <- index (SplitOn " with" b1) 0;
  do! b2 <- index (SplitOn "revision " body) 1;
  do! revision <- index (Split (ascii_of_N 10) b2) 0;
  gret (value, revision).

Definition client_Read : M client string :=
  do! start <- time_Now;
  do! key <- get_KEY;
  do! body <- http_Do "GET" (URL +:+ "?key=" +:+ key) "";
  do! end_ <- time_Now;
  do! (value, revision) <- parse_read body;
  log_line "read" value start end_ revision.

(** The value and the revision in the body of the answer to a write. *)
Definition parse_write (body : string) : M client (string * string) :=
  do! b1 <- index (Split ")" body) 0;
  do! value <- index (Split "," b1) 1;
  do! b2 <- index (SplitOn "revision " body) 1;
  do! revision <- index (SplitOn " at" b2) 0;
  gret (value, revision).

Definition client_Write : M client string :=
  do! n <- rand_Intn 1000;
  do! key <- get_KEY;
  let payload := json_Marshal {[ "key"%string := key; "value"%string := pretty n ]} in
  do! start <- time_Now;
  do! body <- http_Do "PUT" URL payload;
  do! end_ <- time_Now;
  do! (value, revision) <- parse_write body;
  log_line "write" value start end_ revision.

Definition next_event : M client Z := λ c,
  let e := int64 (EVENT_ID c + 1) in
  (Ret e, mkClient (cl_server c) (cl_now c) (cl_rnd c) (cl_net c) (CLIENT_ID c) (KEY c)
            (DURATION c) e (log_file c)).

(** [f.WriteString(s)]. *)
Definition WriteString (s : string) : M client unit := λ c,
  (Ret tt, mkClient (cl_server c) (cl_now c) (cl_rnd c) (cl_net c) (CLIENT_ID c) (KEY c)
             (DURATION c) (EVENT_ID c) (log_file c +:+ s)).

(** The body of the loop of [main]. *)
Definition one_event : M client unit :=
  do! e <- next_event;
  do! output <- (if e =? 1 then client_Write
                 else do! b <- rand_Intn 2;
                      if b =? 0 then client_Read else client_Write);
  do! _ <- WriteString (output +:+ newline);
  do! _ <- rand_Intn INTER_OPS_MAX_DURATION_MS;
  gret tt.

Definition get_DURATION : M client Z := λ c, (Ret (DURATION c), c).

Fixpoint client_loop (fuel : nat) (start : Z) : M client unit :=
  match fuel with
  | O => gpanic "out of fuel"
  | S fuel =>
      do! now <- time_Now;
      do! d <- get_DURATION;
      if int64 (now - start) <? d then
        do! _ <- one_event;
        client_loop fuel start
      else gret tt
  end.

(** The number [strconv.ParseInt] returns, with an error or without. *)
Definition ParseInt_value (s : string) : Z :=
  match ParseInt_core s with
  | inl z => z
  | inr ErrSyntax => 0
  | inr ErrRange => if String.prefix "-" s then - 2^63 else 2^63 - 1
  end.

Definition set_args (id key : string) (d : Z) : M client unit := λ c,
  (Ret tt, mkClient (cl_server c) (cl_now c) (cl_rnd c) (cl_net c) id key d
             (EVENT_ID c) (log_file c)).

(** [main]: the arguments, a fresh log file, and the loop. *)
Definition client_main (fuel : nat) (args : list string) : M client unit :=
  do! id <- index args 1;
  do! duration <- index args 2;
  do! key <- index args 3;
  do! _ <- set_args id key (int64 (ParseInt_value duration * 1000000000));
  do! _ <- time_Now;
  do! start <- time_Now;
  client_loop fuel start.
End client.

(** * Parsing the answers *)

Lemma pretty_no (c : ascii) (z : Z) :
  bool_decide (digit_of c = None) && bool_decide (c ≠ ascii_of_N 45) = true →
  str_elem c (pretty z) = false.
Proof. intros [?%bool_decide_eq_true ?%bool_decide_eq_true]%andb_true_iff. by apply pretty_Z_elem. Qed.

Lemma str_elem_app c s t : str_elem c (s +:+ t) = str_elem c s || str_elem c t.
Proof.
  induction s as [|x s IH]; [done|]. change (String x s +:+ t) with (String x (s +:+ t)).
  cbn [str_elem]. by rewrite IH, orb_assoc.
Qed.

(** Walk over known bytes, none of which begins the separator. *)
Ltac walk_text :=
  repeat (match goal with
          | |- context [SplitOn ?sep (String ?c ?s +:+ ?t)] =>
              change (String c s +:+ t) with (String c (s +:+ t))
          end; rewrite SplitOn_cons by reflexivity);
  repeat match goal with |- context [SplitOn ?sep (EmptyString +:+ ?t)] => change (EmptyString +:+ t) with t end.

(** The text of [getKV], as the client takes it apart. *)
Lemma parse_read_ok `{!GoSort} {B : BTree} `{!Hasher} {R : Redigo} (v n : Z) (c : client) :
  parse_read ("The value is " +:+ pretty v +:+ " with the revision " +:+ pretty n +:+ newline) c =
    (Ret (pretty v, pretty n), c).
Proof.
  set (body := "The value is " +:+ _).
  assert (SplitOn "is " body =
    ["The value "; pretty v +:+ " with the revision " +:+ pretty n +:+ newline]%string) as E1.
  { unfold body.
    change ("The value is " +:+ ?x) with ("The value " +:+ ("is " +:+ x)).
    rewrite SplitOn_no_head by done. rewrite SplitOn_sep.
    rewrite SplitOn_no_head by (by apply pretty_no).
    walk_text.
    rewrite SplitOn_no_head by (by apply pretty_no). reflexivity. }
  assert (SplitOn "revision " body =
    ["The value is " +:+ pretty v +:+ " with the "; pretty n +:+ newline]%string) as E2.
  { unfold body.
    change (" with the revision " +:+ ?x) with (" with the " +:+ ("revision " +:+ x)).
    rewrite SplitOn_no_head by done. rewrite SplitOn_no_head by (by apply pretty_no).
    rewrite SplitOn_no_head by done. rewrite SplitOn_sep.
    rewrite SplitOn_no_head by (by apply pretty_no). reflexivity. }
  unfold parse_read, gbind. rewrite E1, E2. cbn [index lookup list_lookup gret].
  rewrite SplitOn_no_head by (by apply pretty_no).
  change (" with the revision " +:+ ?x) with (" with" +:+ (" the revision " +:+ x)).
  rewrite SplitOn_sep. unfold newline. rewrite Split_app_sep by (by apply pretty_no).
  cbn [prepend index lookup list_lookup]. by rewrite string_app_nil_r.
Qed.

(** The keys the client is used with: letters, digits and [-._~]. *)
Definition safe_char (c : ascii) : bool :=
  between 97 122 c || between 65 90 c || isDigit c || isb 45 c || isb 46 c || isb 95 c || isb 126 c.
Definition safe_key (k : string) : Prop := ∀ c, str_elem c k = true → safe_char c = true.

Lemma safe_key_no k c : safe_key k → safe_char c = false → str_elem c k = false.
Proof. intros Hk Hc. apply not_true_is_false. intros H%Hk. congruence. Qed.

Lemma safe_key_cons c k : safe_key (String c k) → safe_char c = true ∧ safe_key k.
Proof.
  intros H. split.
  - apply H. simpl. by rewrite bool_decide_true.
  - intros d Hd. apply H. simpl. rewrite Hd. apply orb_true_r.
Qed.

(** The text of [createKV], as the client takes it apart. *)
Lemma parse_write_ok `{!GoSort} {B : BTree} `{!Hasher} {R : Redigo} k (v n : Z) places (c : client) :
  safe_key k →
  parse_write (stored_text k (pretty v) n places) c = (Ret (pretty v, pretty n), c).
Proof.
  intros Hk. unfold stored_text. set (body := "The key value pair (" +:+ _).
  set (tail := " at " +:+ places +:+ newline).
  assert (∃ more, Split ")" body = ("The key value pair (" +:+ k +:+ "," +:+ pretty v)%string :: more)
    as (more & E1).
  { assert (body = ("The key value pair (" +:+ k +:+ "," +:+ pretty v) +:+
      String ")" (" has been saved as revision " +:+ pretty n +:+ tail)) as ->.
    { unfold body. by rewrite <- !string_app_assoc. }
    rewrite Split_app_sep; [by eexists|].
    rewrite !str_elem_app, (safe_key_no k), pretty_no by done. done. }
  assert (∃ x y more, SplitOn "revision " body = x :: (pretty n +:+ " at " +:+ y)%string :: more)
    as (x & y & more' & E2).
  { unfold body. fold tail. walk_text.
    change ("," +:+ ?x) with (String "," x).
    rewrite (SplitOn_no_elem "revision " k "," _ " ") by (done || by apply safe_key_no).
    rewrite SplitOn_cons by reflexivity. rewrite SplitOn_no_head by (by apply pretty_no).
    change (") has been saved as revision " +:+ ?x) with (") has been saved as " +:+ ("revision " +:+ x)).
    walk_text. rewrite SplitOn_sep, SplitOn_no_head by (by apply pretty_no). unfold tail. walk_text.
    destruct (SplitOn "revision " (places +:+ newline)) as [|y more'] eqn:E; [by apply SplitOn_go_not_nil in E|].
    cbn [prepend]. eexists _, y, more'. reflexivity. }
  unfold parse_write, gbind. rewrite E1, E2. cbn [index lookup list_lookup gret].
  rewrite string_app_assoc.
  change ("," +:+ pretty v) with (String "," (pretty v)). rewrite Split_app_sep.
  2: { rewrite str_elem_app, (safe_key_no k) by done. done. }
  rewrite Split_no_sep by (by apply pretty_no). cbn [index lookup list_lookup].
  rewrite SplitOn_no_head by (by apply pretty_no).
  change (" at " +:+ ?x) with (" at" +:+ (" " +:+ x)). rewrite SplitOn_sep.
  cbn [prepend index lookup list_lookup]. by rewrite string_app_nil_r.
Qed.

(** * The requests on the wire *)

Lemma safe_char_plain c :
  safe_char c = true →
  is_ctl c = false ∧ isb 43 c = false ∧ isb 37 c = false ∧ isb 59 c = false ∧ byte_val c < 128.
Proof. destruct c as [[] [] [] [] [] [] [] []]; first [done|by vm_compute]. Qed.

Lemma safe_key_ascii k : safe_key k → is_ascii k.
Proof. intros Hk c Hc%Hk. by apply safe_char_plain. Qed.

Lemma has_ctl_app s t : has_ctl (s +:+ t) = has_ctl s || has_ctl t.
Proof.
  induction s as [|c s IH]; [done|]. change (String c s +:+ t) with (String c (s +:+ t)).
  cbn [has_ctl]. by rewrite IH, orb_assoc.
Qed.

Lemma safe_key_ctl k : safe_key k → has_ctl k = false.
Proof.
  induction k as [|c k IH]; [done|]. intros [Hc Hk]%safe_key_cons. simpl.
  rewrite IH by done. by destruct (safe_char_plain c Hc) as [-> _].
Qed.

Lemma QueryUnescape_safe k : safe_key k → QueryUnescape k = Some k.
Proof.
  induction k as [|c k IH]; [done|]. intros [Hc Hk]%safe_key_cons. simpl.
  destruct (safe_char_plain c Hc) as (_ & -> & -> & _). by rewrite IH.
Qed.

Lemma semicolons_safe k : safe_key k → semicolons k = k.
Proof.
  induction k as [|c k IH]; [done|]. intros [Hc Hk]%safe_key_cons. simpl.
  destruct (safe_char_plain c Hc) as (_ & _ & _ & -> & _). by rewrite IH.
Qed.

Lemma Cut_no_sep sep s : str_elem sep s = false → Cut sep s = (s, ""%string).
Proof.
  induction s as [|c s IH]; simpl; [done|]. intros [-> Hs]%orb_false_iff. by rewrite IH.
Qed.

Lemma ParseQuery_key k : safe_key k → ParseQuery ("key=" +:+ k) = {[ "key"%string := [k] ]}.
Proof.
  intros Hk. unfold ParseQuery.
  change (semicolons ("key=" +:+ k)) with ("key=" +:+ semicolons k). rewrite semicolons_safe by done.
  rewrite Split_no_sep by (rewrite str_elem_app, (safe_key_no k) by done; done).
  cbn [foldl]. unfold add_pair. rewrite bool_decide_false by done.
  change (Cut "=" ("key=" +:+ k)) with ("key"%string, k). cbv iota.
  rewrite (QueryUnescape_safe k) by done. reflexivity.
Qed.

Section wire.
Context `{!GoSort} {B : BTree} `{!Hasher} {R : Redigo}.
Context (h : KeyValueHandler) (o : oracle).

Lemma http_Do_uri method rest payload c :
  has_ctl rest = false → str_elem "#" rest = false → str_elem " " rest = false →
  http_Do h o method (host +:+ rest) payload c =
    served h o (mkRequest method (Cut "?" rest).1 (ParseQuery (Cut "?" rest).2) (Ret payload)) c.
Proof.
  intros Hc Hh Hb. unfold http_Do.
  assert (String.substring (String.length host) (String.length (host +:+ rest) - String.length host)
    (Cut "#" (host +:+ rest)).1 = rest) as ->.
  { rewrite Cut_no_sep by (by rewrite str_elem_app, Hh). cbn [fst].
    rewrite length_app_string, Nat.add_comm, Nat.add_sub, substring_app_r by done.
    rewrite <- (string_app_nil_r rest) at 2. apply substring_0_app. }
  rewrite has_ctl_app, Hc, Hb. change (has_ctl host || false) with false. cbv iota zeta.
  by destruct (Cut "?" rest).
Qed.

Lemma http_Get_key k c :
  safe_key k →
  http_Do h o "GET" (URL +:+ "?key=" +:+ k) "" c =
    served h o (mkRequest "GET" "/kv" {[ "key" := [k] ]} (Ret "")) c.
Proof.
  intros Hk. change (URL +:+ "?key=" +:+ k) with (host +:+ ("/kv?key=" +:+ k)).
  rewrite http_Do_uri.
  - change (Cut "?" ("/kv?key=" +:+ k)) with ("/kv"%string, "key=" +:+ k).
    cbn [fst snd]. by rewrite ParseQuery_key.
  - by rewrite has_ctl_app, (safe_key_ctl k).
  - by rewrite str_elem_app, (safe_key_no k).
  - by rewrite str_elem_app, (safe_key_no k).
Qed.

Lemma http_Put payload c :
  http_Do h o "PUT" URL payload c = served h o (mkRequest "PUT" "/kv" ∅ (Ret payload)) c.
Proof. unfold URL. by rewrite http_Do_uri. Qed.
End wire.

(** * The log as a history of a register *)

Record event := mkEvent {
  ev_write : bool; ev_value : string; ev_start : Z; ev_end : Z; ev_id : Z; ev_rev : Z;
}.

Definition event_line (id : string) (e : event) : string :=
  (if ev_write e then "write" else "read") +:+ "," +:+ ev_value e +:+ "," +:+ pretty (ev_start e)
  +:+ "," +:+ pretty (ev_end e) +:+ "," +:+ id +:+ "," +:+ pretty (ev_id e) +:+ "," +:+
  pretty (ev_rev e).

Fixpoint event_lines (id : string) (es : list event) : string :=
  match es with
  | [] => ""
  | e :: es' => event_line id e +:+ newline +:+ event_lines id es'
  end.

(** One event on a register that holds a value with its revision, or nothing known yet:
    a write stores a value at a greater revision, a read returns what is stored. *)
Definition event_step (s : option (string * Z)) (e : event) : option (string * Z) :=
  if ev_write e then Some (ev_value e, ev_rev e) else s.
Definition event_legal (s : option (string * Z)) (e : event) : Prop :=
  if ev_write e then from_option (λ p, p.2 < ev_rev e) True s
  else s = Some (ev_value e, ev_rev e).

Fixpoint legal (s : option (string * Z)) (es : list event) : Prop :=
  match es with
  | [] => True
  | e :: es' => event_legal s e ∧ legal (event_step s e) es'
  end.

Definition new_client {B : BTree} {R : Redigo} (sv : server) : client :=
  mkClient sv 0 0 0 "" "" 0 0 "".

Section history.
Context `{!GoSort} {B : BTree} {L : BTreeLaws B} `{!Hasher} {R : Redigo}.
Context (h : KeyValueHandler) {PL : PipingLaws (piping h)} (o : oracle).
Context (Hbucket : BucketSize (conf h) ≠ 0).

(** What the client keeps over an operation, which reads the clock twice. *)
Definition same_client (c c' : client) : Prop :=
  cl_now c' = (2 + cl_now c)%nat ∧ CLIENT_ID c' = CLIENT_ID c ∧ KEY c' = KEY c ∧
  DURATION c' = DURATION c ∧ EVENT_ID c' = EVENT_ID c ∧ log_file c' = log_file c.

(** The register of the client's key: what the log says is stored is stored. *)
Definition register_ok (m : astate) (k : string)
    (s : option (string * Z)) : Prop :=
  match s with
  | None => True
  | Some (v, r) => latest m k = Some (r, Some v) ∧ ∃ z : Z, v = pretty z
  end.

Lemma served_spec r cl c m :
  let n := counter (sv_index (cl_server c)) + 1 in
  sv_ok h (cl_server c) m → counter (sv_index (cl_server c)) < 2^63 - 2 → means r cl →
  ∃ resp sv', served h o r c = (Ret (body resp), set_server sv' c) ∧
    responds (a_step m cl n).1 resp ∧ sv_ok h sv' (a_step m cl n).2 ∧
    counter (sv_index (cl_server c)) ≤ counter (sv_index sv') ≤ counter (sv_index (cl_server c)) + 2.
Proof.
  intros n Hok Hc Hr. unfold served. destruct (o_net o (cl_net c)) as [bg chs].
  destruct (background_ok h bg (cl_server c) m Hok) as (gw' & Ebg & Hok').
  destruct (serve_request h Hbucket chs r cl _ m Hok' Hc Hr) as (resp & sv' & E & Hresp & Hsv & Hcnt).
  exists resp, sv'. unfold gbind. rewrite Ebg, E. done.
Qed.

Lemma client_Write_spec c m :
  let n := counter (sv_index (cl_server c)) in
  sv_ok h (cl_server c) m → n < 2^63 - 2 → safe_key (KEY c) →
  ∃ (z : Z) c', client_Write h o c =
      (Ret (event_line (CLIENT_ID c) (mkEvent true (pretty z) (int64 (o_now o (cl_now c)))
         (int64 (o_now o (S (cl_now c)))) (EVENT_ID c) (n + 1))), c') ∧
    same_client c c' ∧ sv_ok h (cl_server c') (record_change (KEY c) (n + 1) (Some (pretty z)) m) ∧
    n ≤ counter (sv_index (cl_server c')) ≤ n + 2.
Proof.
  intros n Hok Hn Hk. unfold client_Write, gbind, rand_Intn, get_KEY, time_Now.
  set (z := o_rnd o (cl_rnd c) `mod` 1000). cbn [KEY cl_now].
  set (payload := json_Marshal _). rewrite http_Put.
  assert (means (mkRequest "PUT" "/kv" ∅ (Ret payload)) (CPut (KEY c) (pretty z))) as Hm.
  { eapply (means_put_members _ payload {[ "key" := KEY c; "value" := pretty z ]});
      [done|by right|done|done| |done|done].
    apply json_roundtrip. intros k v [[<- <-]|[_ [<- <-]%lookup_singleton_Some]]%lookup_insert_Some.
    - split; [by repeat apply is_ascii_String|by apply safe_key_ascii].
    - split; [by repeat apply is_ascii_String|apply is_ascii_pretty]. }
  match goal with |- context [served h o _ ?c1] => set (c1' := c1) end.
  destruct (served_spec _ _ c1' m Hok Hn Hm) as (resp & sv' & -> & [places ->] & Hok' & Hcnt).
  cbn [body]. rewrite parse_write_ok by done. unfold log_line. cbn [CLIENT_ID EVENT_ID].
  eexists z, _. split; [reflexivity|]. unfold same_client. split_and!; [reflexivity..|exact Hok'|apply Hcnt|apply Hcnt].
Qed.

Lemma get_means k : means (mkRequest "GET" "/kv" {[ "key" := [k] ]} (Ret "")) (CGet k).
Proof. by eapply (means_get _ k []). Qed.

Lemma client_Read_spec c m r (z : Z) :
  sv_ok h (cl_server c) m → counter (sv_index (cl_server c)) < 2^63 - 2 → safe_key (KEY c) →
  latest m (KEY c) = Some (r, Some (pretty z)) →
  ∃ c', client_Read h o c =
      (Ret (event_line (CLIENT_ID c) (mkEvent false (pretty z) (int64 (o_now o (cl_now c)))
         (int64 (o_now o (S (cl_now c)))) (EVENT_ID c) r)), c') ∧
    same_client c c' ∧ sv_ok h (cl_server c') m ∧
    counter (sv_index (cl_server c)) ≤ counter (sv_index (cl_server c'))
      ≤ counter (sv_index (cl_server c)) + 2.
Proof.
  intros Hok Hn Hk Hm. unfold client_Read, gbind, get_KEY, time_Now. cbn [KEY cl_now].
  rewrite http_Get_key by done.
  match goal with |- context [served h o _ ?c1] => set (c1' := c1) end.
  destruct (served_spec _ _ c1' m Hok Hn (get_means (KEY c))) as (resp & sv' & -> & Hresp & Hok' & Hcnt).
  unfold a_step in Hresp, Hok'. rewrite Hm in Hresp, Hok'. cbn [fst snd responds] in Hresp, Hok'. subst resp.
  cbn [body]. rewrite parse_read_ok. unfold log_line. cbn [CLIENT_ID EVENT_ID].
  eexists _. split; [reflexivity|].
  unfold same_client. split_and!; [reflexivity..|exact Hok'|apply Hcnt|apply Hcnt].
Qed.

(** Event [e] happened between [c] and [c'], on a register that held [s]. *)
Record did (s : option (string * Z)) (c c' : client) (e : event) : Prop := {
  did_legal : event_legal s e;
  did_id : ev_id e = EVENT_ID c;
  did_start : ev_start e = int64 (o_now o (cl_now c));
  did_end : ev_end e = int64 (o_now o (S (cl_now c)));
  did_server : ∃ m', sv_ok h (cl_server c') m' ∧ register_ok m' (KEY c) (event_step s e);
  did_some : is_Some (event_step s e);
  did_counter : counter (sv_index (cl_server c)) ≤ counter (sv_index (cl_server c'))
    ≤ counter (sv_index (cl_server c)) + 2;
}.

Lemma write_did c m s :
  sv_ok h (cl_server c) m → counter (sv_index (cl_server c)) < 2^63 - 2 → safe_key (KEY c) →
  register_ok m (KEY c) s →
  ∃ e c', client_Write h o c = (Ret (event_line (CLIENT_ID c) e), c') ∧ same_client c c' ∧
    did s c c' e.
Proof.
  intros Hok Hn Hk Hs.
  destruct (client_Write_spec c m Hok Hn Hk) as (z & c' & E & Hsame & Hok' & Hcnt).
  eexists _, c'. split; [exact E|]. split; [done|]. split; [|done..| |by eexists|done].
  - destruct s as [[v r]|]; [|done]. destruct Hs as [Hm _].
    destruct (key_view_last _ _ _ _ _ _ (so_keys _ _ _ Hok (KEY c)) Hm) as (_ & _ & _ & Hv & _).
    cbn [event_legal ev_write ev_rev from_option snd]. lia.
  - eexists. split; [exact Hok'|]. split; [apply latest_record|by eexists].
Qed.

Lemma read_did c m s :
  sv_ok h (cl_server c) m → counter (sv_index (cl_server c)) < 2^63 - 2 → safe_key (KEY c) →
  register_ok m (KEY c) s → is_Some s →
  ∃ e c', client_Read h o c = (Ret (event_line (CLIENT_ID c) e), c') ∧ same_client c c' ∧
    did s c c' e.
Proof.
  intros Hok Hn Hk Hs [[v r] ->]. pose proof Hs as [Hm [z ->]].
  destruct (client_Read_spec c m r z Hok Hn Hk Hm) as (c' & E & Hsame & Hok' & Hcnt).
  eexists _, c'. split; [exact E|]. split; [done|]. split; [done..| |by eexists|done].
  exists m. done.
Qed.

(** One turn of the loop appends the line of a legal event. *)
Lemma one_event_spec c m s :
  sv_ok h (cl_server c) m → counter (sv_index (cl_server c)) < 2^63 - 2 → safe_key (KEY c) →
  register_ok m (KEY c) s → 0 ≤ EVENT_ID c < 2^63 - 1 → (EVENT_ID c ≠ 0 → is_Some s) →
  ∃ e c1 c', one_event h o c = (Ret tt, c') ∧ did s c1 c' e ∧
    cl_now c1 = cl_now c ∧ EVENT_ID c1 = EVENT_ID c + 1 ∧ KEY c1 = KEY c ∧
    cl_server c1 = cl_server c ∧
    cl_now c' = (2 + cl_now c)%nat ∧ CLIENT_ID c' = CLIENT_ID c ∧ KEY c' = KEY c ∧
    DURATION c' = DURATION c ∧ EVENT_ID c' = EVENT_ID c + 1 ∧
    log_file c' = log_file c +:+ event_line (CLIENT_ID c) e +:+ newline.
Proof.
  intros Hok Hn Hk Hs Hi Hsome. unfold one_event, gbind at 1, next_event.
  rewrite (int64_id (EVENT_ID c + 1)) by word_lia.
  assert (∃ e c1 c2, (if EVENT_ID c + 1 =? 1 then client_Write h o
             else do! b <- rand_Intn o 2; if b =? 0 then client_Read h o else client_Write h o)
            (mkClient (cl_server c) (cl_now c) (cl_rnd c) (cl_net c) (CLIENT_ID c) (KEY c)
               (DURATION c) (EVENT_ID c + 1) (log_file c)) =
          (Ret (event_line (CLIENT_ID c) e), c2) ∧
    did s c1 c2 e ∧ same_client c1 c2 ∧
    c1 = mkClient (cl_server c) (cl_now c) (cl_rnd c1) (cl_net c) (CLIENT_ID c) (KEY c)
           (DURATION c) (EVENT_ID c + 1) (log_file c)) as (e & c1 & c2 & E & Hdid & Hsame & Ec1).
  { set (c0 := λ r, mkClient (cl_server c) (cl_now c) r (cl_net c) (CLIENT_ID c) (KEY c)
                 (DURATION c) (EVENT_ID c + 1) (log_file c)).
    fold (c0 (cl_rnd c)). destruct (Z.eqb_spec (EVENT_ID c + 1) 1) as [_|Hne].
    - destruct (write_did (c0 (cl_rnd c)) m s) as (e & c2 & E & Hsame & Hdid); [done..|].
      by exists e, (c0 (cl_rnd c)), c2.
    - unfold gbind, rand_Intn. set (c1 := mkClient _ _ (S _) _ _ _ _ _ _). destruct (_ =? 0).
      + destruct (read_did c1 m s) as (e & c2 & E & Hsame & Hdid); [done..|apply Hsome; lia|].
        by exists e, c1, c2.
      + destruct (write_did c1 m s) as (e & c2 & E & Hsame & Hdid); [done..|].
        by exists e, c1, c2. }
  unfold gbind at 1. rewrite E. destruct Hsame as (Hnow & Hid & Hkey & Hd & He & Hlog).
  rewrite Ec1 in Hnow, Hid, Hkey, Hd, He, Hlog. simpl in Hnow, Hid, Hkey, Hd, He, Hlog.
  unfold gbind, WriteString, rand_Intn, gret. eexists e, c1, _. split; [reflexivity|].
  cbn [cl_now CLIENT_ID KEY DURATION EVENT_ID log_file].
  split; [by destruct Hdid; split|]. rewrite Ec1. rewrite Hlog. by split_and!.
Qed.

(** The loop: [n] turns, the clock read three times in each. *)
Definition elapsed (start : Z) (t : nat) : Z := int64 (int64 (o_now o t) - start).

Lemma client_loop_spec n fuel start c m s :
  sv_ok h (cl_server c) m → counter (sv_index (cl_server c)) + 2 * Z.of_nat n < 2^63 - 2 →
  safe_key (KEY c) → register_ok m (KEY c) s →
  0 ≤ EVENT_ID c → EVENT_ID c + Z.of_nat n < 2^63 - 1 → (EVENT_ID c ≠ 0 → is_Some s) →
  (∀ i, (i < n)%nat → elapsed start (cl_now c + 3 * i) < DURATION c) →
  DURATION c ≤ elapsed start (cl_now c + 3 * n) → (n < fuel)%nat →
  ∃ evs c', client_loop h o fuel start c = (Ret tt, c') ∧ length evs = n ∧ legal s evs ∧
    log_file c' = log_file c +:+ event_lines (CLIENT_ID c) evs ∧
    ∀ i e, evs !! i = Some e → ev_id e = EVENT_ID c + Z.of_nat i + 1 ∧
      ev_start e = int64 (o_now o (cl_now c + 3 * i + 1)) ∧
      ev_end e = int64 (o_now o (cl_now c + 3 * i + 2)).
Proof.
  revert fuel c m s. induction n as [|n IH]; intros [|fuel] c m s Hok Hc Hk Hs Hpos Hid Hsome Hlt Hge Hf; [lia| |lia|].
  - exists [], (mkClient (cl_server c) (S (cl_now c)) (cl_rnd c) (cl_net c) (CLIENT_ID c) (KEY c)
      (DURATION c) (EVENT_ID c) (log_file c)).
    unfold elapsed in Hge. rewrite Nat.add_0_r in Hge.
    cbn [client_loop]. unfold gbind, time_Now, get_DURATION. cbn [DURATION].
    rewrite (proj2 (Z.ltb_ge _ _) Hge).
    split_and!; [done..|symmetry; apply string_app_nil_r|done].
  - cbn [client_loop]. unfold gbind at 1 2, time_Now, get_DURATION. cbn [DURATION].
    pose proof (Hlt 0%nat ltac:(lia)) as Hlt0. unfold elapsed in Hlt0. rewrite Nat.add_0_r in Hlt0.
    rewrite (proj2 (Z.ltb_lt _ _) Hlt0).
    set (c0 := mkClient (cl_server c) (S (cl_now c)) _ _ _ _ _ _ _).
    destruct (one_event_spec c0 m s) as (e & c1 & c' & E & Hdid & Hnow1 & Hid1 & Hkey1 & Hsv1 &
      Hnow & Hci & Hkey & Hd & Hev & Hlog); [done|simpl; lia|done|done|simpl; lia|done|].
    unfold gbind. rewrite E. simpl in Hnow1, Hid1, Hkey1, Hsv1, Hnow, Hci, Hkey, Hd, Hev, Hlog.
    destruct Hdid as [Hleg Heid Hst Hen (m' & Hok' & Hs') Hsm Hcnt].
    rewrite Hsv1 in Hcnt. rewrite Hkey1 in Hs'. rewrite Hnow1 in Hst, Hen.
    destruct (IH fuel c' m' (event_step s e)) as (evs & c'' & E' & Hlen & Hlegal & Hlog' & Hevs);
      [done|lia|by rewrite Hkey|by rewrite Hkey|lia|lia|done| | |lia|].
    + intros i Hi. rewrite Hnow, Hd. replace (S (S (S (cl_now c))) + 3 * i)%nat with (cl_now c + 3 * S i)%nat by lia.
      apply Hlt. lia.
    + rewrite Hnow, Hd. by replace (S (S (S (cl_now c))) + 3 * n)%nat with (cl_now c + 3 * S n)%nat by lia.
    + exists (e :: evs), c''. split_and!; [done|by f_equal/=|done| |].
      * rewrite Hlog', Hlog, Hci. cbn [event_lines]. by rewrite <- !string_app_assoc.
      * intros [|i] e' Hi; simpl in Hi; simplify_eq.
        -- rewrite Heid, Hst, Hen, Hid1. split_and!; [lia|do 2 f_equal; lia..].
        -- apply Hevs in Hi as (-> & -> & ->). rewrite Hev, Hnow. split_and!; [lia|do 2 f_equal; lia..].
Qed.
End history.

(** * Properties *)

(** C10. The validation client against the service: whatever the clock, the random numbers
    and the schedules, when the clock passes the duration after [n] operations the
    client ends without a panic, its file has [n] lines, and these are a legal history
    of a register: the first is a write, every read gives the value and the revision
    of the last write, revisions grow. *)
Theorem client_log_legal `{!GoSort} {B : BTree} {L : BTreeLaws B} `{!Hasher} {R : Redigo}
    (h : KeyValueHandler) {PL : PipingLaws (piping h)} o sv m args id dur key n fuel :
  BucketSize (conf h) ≠ 0 → sv_ok h sv m → safe_key key →
  args !! 1%nat = Some id → args !! 2%nat = Some dur → args !! 3%nat = Some key →
  counter (sv_index sv) + 2 * Z.of_nat n < 2^63 - 2 →
  let d := int64 (ParseInt_value dur * 1000000000) in
  let start := int64 (o_now o 1) in
  (∀ i, (i < n)%nat → elapsed o start (2 + 3 * i) < d) → d ≤ elapsed o start (2 + 3 * n) →
  (n < fuel)%nat →
  ∃ evs c', client_main h o fuel args (new_client sv) = (Ret tt, c') ∧ length evs = n ∧
    log_file c' = event_lines id evs ∧ legal None evs ∧
    ∀ i e, evs !! i = Some e → ev_id e = Z.of_nat i + 1 ∧
      ev_start e = int64 (o_now o (3 + 3 * i)) ∧ ev_end e = int64 (o_now o (4 + 3 * i)).
Proof.
  intros Hb Hok Hk Hid Hdur Hkey Hc d start Hlt Hge Hf.
  pose proof (so_index _ _ _ Hok) as (_ & Hc0 & _).
  unfold client_main, gbind, index. rewrite Hid, Hdur, Hkey. unfold gret, set_args, time_Now.
  fold d. cbn [cl_now new_client]. fold start.
  set (c := mkClient sv 2 0 0 id key d 0 "").
  match goal with |- context [client_loop h o fuel start ?c0] => change c0 with c end.
  destruct (client_loop_spec h o Hb n fuel start c m None) as (evs & c' & E & Hlen & Hleg & Hlog & Hevs);
    [done|done|done|done|done|simpl; lia|done|done|done|done|].
  exists evs, c'. split_and!; [exact E|done|by rewrite Hlog|done|].
  intros i e Hi. apply Hevs in Hi as (-> & -> & ->). simpl. split_and!; [lia|do 2 f_equal; lia..].
Qed.

(** C40. A read of a key that was never written or was deleted crashes the client: it
    does not look at the status of the answer, and the error text has none of the
    parts it cuts out. *)
Theorem client_read_absent_panics `{!GoSort} {B : BTree} {L : BTreeLaws B} `{!Hasher} {R : Redigo}
    (h : KeyValueHandler) {PL : PipingLaws (piping h)} o c m :
  BucketSize (conf h) ≠ 0 → sv_ok h (cl_server c) m →
  counter (sv_index (cl_server c)) < 2^63 - 2 → safe_key (KEY c) →
  (∀ a v, latest m (KEY c) ≠ Some (a, Some v)) →
  (client_Read h o c).1 = Panic "index out of range".
Proof.
  intros Hb Hok Hn Hk Hm. unfold client_Read, gbind, get_KEY, time_Now. cbn [KEY cl_now].
  rewrite http_Get_key by done.
  match goal with |- context [served h o _ ?c1] => set (c1' := c1) end.
  destruct (served_spec h o Hb _ _ c1' m Hok Hn (get_means (KEY c))) as (resp & sv' & -> & Hresp & _).
  unfold a_step in Hresp. destruct (latest m (KEY c)) as [[a [v|]]|] eqn:E; [by destruct (Hm a v)|..];
    cbn [fst responds] in Hresp; subst resp; reflexivity.
Qed.

(** * A concrete run *)

#[local] Existing Instance suffix_Hasher.

(** A clock that ticks every 200 ms, and random numbers that are all 42. *)
Definition demo_oracle : oracle :=
  mkOracle (λ i, Z.of_nat i * 200000000) (λ _, 42) (λ _, ([], no_choice)).

Lemma safe_k : safe_key "k".
Proof. intros c. simpl. by intros [<-%bool_decide_eq_true|?]%orb_true_iff. Qed.

Lemma client_log_legal_witness :
  ∃ h evs c', NewKeyValueHandler demo_probe demo_order (demo_conf Memory) = Ret h ∧
    client_main h demo_oracle 3 ["consistency_log"; "7"; "1"; "k"]%string
      (new_client (start (demo_world Memory))) = (Ret tt, c') ∧
    length evs = 2%nat ∧ log_file c' = event_lines "7" evs ∧ legal None evs.
Proof.
  destruct demo_start_ok as (hm & Eh & Hok).
  destruct (client_log_legal (mkHandler hm (demo_conf Memory) (SyncAsyncPiping Memory))
    (PL:=sync_async_laws (T:=Memory)) demo_oracle (start (demo_world Memory)) ∅
    ["consistency_log"; "7"; "1"; "k"]%string "7" "1" "k" 2 3)
    as (evs & c' & E & Hlen & Hlog & Hleg & _);
    [|exact Hok|exact safe_k|done|done|done|done| |by vm_compute|lia|].
  { done. }
  { intros i Hi. destruct i as [|[|i]]; [by vm_compute|by vm_compute|lia]. }
  eexists _, evs, c'. split; [exact Eh|]. by split_and!.
Defined.

Lemma client_read_absent_panics_witness :
  ∃ h, NewKeyValueHandler demo_probe demo_order (demo_conf Memory) = Ret h ∧
    (client_Read h demo_oracle (mkClient (start (demo_world Memory)) 0 0 0 "7" "k" 1 1 "")).1 =
      Panic "index out of range".
Proof.
  destruct demo_start_ok as (hm & Eh & Hok). eexists. split; [exact Eh|].
  apply (client_read_absent_panics (mkHandler hm (demo_conf Memory) (SyncAsyncPiping Memory))
    (PL:=sync_async_laws (T:=Memory)) demo_oracle _ ∅); [|exact Hok|done|exact safe_k|].
  - done.
  - intros a v. cbn [KEY]. by rewrite latest_empty.
Defined.
