(* ===== verification/Concurrent.v ===== *)
(** Concurrent requests: the handlers of src/cmd/http/main.go run by net/http, each in a
    goroutine of its own, over the shared index, revision counter and stores.

    A request in flight is a [thread]: the call it was given and its program point, a
    [pc].  [run_pc] takes it from one access of the shared state to the next; the
    operations of the index that hold its lock for writing, or only read, are single steps,
    while drawing a revision is two (src/pkg/revision/revision.go adds and then reads), a
    read of a store is two (open, get), and a write of the stores starts goroutines and
    waits for those of the synchronous stores.  The goroutines are in [detached], at
    positions that do not change.  An execution is any list of [turn]s.

    A write with an assumed revision holds the lock of the index for reading only, for its
    comparison and its put, which are two steps: other requests that read the index come in
    between, those that lock it for writing are [locked_out].  The put itself is several
    loads and stores of the key index (src/pkg/index/key_index.go 65-99); as one step it is
    exact for executions that are [exclusive], in which nobody looks at the index of the
    key from the comparison of an update to the end of its put.  The theorems that rest on
    the put being one step say so; what two puts of updates do to each other that do
    overlap is in [Updates].

    Opening a store is one step too.  The clients of redis are made under a lock; the
    stores in memory and their values are Go maps that nothing protects
    (src/pkg/database/mem.go), and a theorem on executions that rests on them being
    accessed one at a time leaves them out ([T ≠ Memory]).

    A new generation of a key draws its creation revision inside the step of the index; a
    request that draws between its add and its read would make that revision larger.  Only
    a read of the history uses it, for the generation to start from, and with a larger one
    it starts with the same generation or an earlier one.

    The handlers are those over the synchronous/asynchronous piping.  A read of the
    history of a key looks its revisions up in one step, and then reads them one after
    the other.  Any request may have the lock that can: that a waiting
    writer keeps new readers out is not modelled.

    [ConcurrentInv] has the invariant of executions and [Linearizable] what follows from
    it. *)
From Stdlib Require Import Ascii.
From stdpp Require Import base gmap list strings pretty.
From S2P Require Import Prelude GoStd Json Hashing HashingManager Latency Config Revision KeyIndex KeyHistory BTree TreeIndex Database ChainNode Runtime Chain Piping Handler VersionedMap Service.

Open Scope Z_scope.

(** * Requests in flight *)

(** A write has the revision it assumes, if it does.  A read of the history has the values
    it got so far, the revision it is at and those that are left.  A finished request
    keeps the revision it read or wrote, and the result of its handler. *)
Inductive pc :=
  | GetIndex (k : string)
  | GetOpen (rev : Revision)
  | GetRead (rev : Revision) (d : Database)
  | SinceIndex (k : string) (from : Z)
  | SinceOpen (from : Z) (got : list (Revision * string)) (rev : Revision) (todo : list Revision)
  | SinceRead (from : Z) (got : list (Revision * string)) (rev : Revision) (todo : list Revision)
      (d : Database)
  | PutAdd (k v : string) (a : option Z)
  | PutDraw (k v : string) (a : option Z)
  | PutPlace (k v : string) (a : option Z) (n : Z)
  | PutWait (k v : string) (a : option Z) (rev : Revision) (ids : list nat)
  | PutIndex (k v : string) (a : option Z) (rev : Revision)
  | UpdWrite (k v : string) (rev : Revision)
  | DelIndex (k : string)
  | DelStores (k : string) (rev : Revision)
  | DelWait (k : string) (rev : Revision) (ids : list nat)
  | DelAdd (k : string) (rev : Revision) (err : option error)
  | DelDraw (k : string) (rev : Revision) (err : option error)
  | DelTomb (k : string) (rev : Revision) (err : option error) (n : Z)
  | Replied (tag : option Revision) (res : outcome string).

Record thread := mkThread { th_call : call; th_pc : pc }.

(** The revision a request has drawn, or found. *)
Definition pc_tag (p : pc) : option Revision :=
  match p with
  | GetOpen rev | GetRead rev _ | PutWait _ _ _ rev _ | PutIndex _ _ _ rev | UpdWrite _ _ rev => Some rev
  | PutPlace _ _ _ n => Some (NewRevision n 0 [])
  | Replied tag _ => tag
  | _ => None
  end.

(** The key and the value a request writes, and the revision it assumes. *)
Definition writes (c : call) : option (string * string) :=
  match c with CPut k v | CUpdate k v _ => Some (k, v) | _ => None end.
Definition assumes (c : call) : option Z :=
  match c with CUpdate _ _ a => Some a | _ => None end.

Definition start_pc (c : call) : pc :=
  match c with
  | CGet k => GetIndex k
  | CSince k from => SinceIndex k from
  | CPut k v => PutAdd k v None
  | CUpdate k v a => PutAdd k v (Some a)
  | CDelete k => DelIndex k
  end.

(** ** The lock of the index *)

(** Held for reading, between the steps of an update; about to be taken for writing. *)
Definition holds_read (p : pc) : bool := match p with UpdWrite _ _ _ => true | _ => false end.
Definition takes_write (p : pc) : bool :=
  match p with PutIndex _ _ None _ | DelTomb _ _ _ _ => true | _ => false end.
Definition locked_out (ths : list thread) (p : pc) : bool :=
  takes_write p && existsb (λ th, holds_read (th_pc th)) ths.

Definition value_text (v : string) (a : Z) : string :=
  "The value is " +:+ v +:+ " with the revision " +:+ pretty a +:+ newline.

(** The text of [getKV] for the values it got, in the order of the revisions. *)
Definition since_text `{!GoSort} (got : list (Revision * string)) (from : Z) : string :=
  "The values are " +:+ fmt_map id (values_map got.*1 got.*2) +:+
  " from the revision " +:+ pretty from +:+ newline.

(** The next revision of the loop of [getValuesByRevs], or the answer. *)
Definition since_next `{!GoSort} (from : Z) (got : list (Revision * string)) (todo : list Revision) : pc :=
  match todo with
  | rev :: todo' => SinceOpen from got rev todo'
  | [] => Replied None (Ret (since_text got from))
  end.

(** ** Overlapping updates *)

(** The key whose index a request is about to read, under the lock for reading; the keys
    with an update between its comparison and the end of its put, under that lock. *)
Definition accesses (p : pc) : option string :=
  match p with
  | GetIndex k | SinceIndex k _ | DelIndex k | PutIndex k _ (Some _) _ => Some k
  | _ => None
  end.
Definition updating (k : string) (ths : list thread) : bool :=
  existsb (λ th, match th_pc th with UpdWrite k' _ _ => bool_decide (k' = k) | _ => false end) ths.

Section concurrent.
Context `{!GoSort} {B : BTree} `{!Hasher} {R : Redigo}.
Context (hm : HashingManager) (conf : KVConfiguration) (T : string).

Abbreviation h := (mkHandler hm conf (SyncAsyncPiping T)).

(** [atomic.AddUint64], and the plain read that follows it. *)
Definition add_counter : M server unit := λ sv,
  (Ret tt, mkServer (mkTreeIndex (tree (sv_index sv)) (uint64 (counter (sv_index sv) + 1))) (sv_gw sv)).
Definition read_counter : M server Z := λ sv, (Ret (counter (sv_index sv)), sv).

(** [go]: the positions of the new goroutines. *)
Definition start_all (gs : list goroutine) : M server (list nat) := λ sv,
  (Ret (seq (length (detached (sv_gw sv))) (length gs)),
   mkServer (sv_index sv) (mkGWorld (store (sv_gw sv)) (detached (sv_gw sv) ++ gs))).

(** [wg.Wait()] returns when they are done. *)
Definition is_done (g : option goroutine) : bool := match g with Some GDone => true | _ => false end.
Definition all_done (ids : list nat) : M server bool := λ sv,
  (Ret (forallb (λ i, is_done (detached (sv_gw sv) !! i)) ids), sv).

(** The first half of [SyncAsyncPiping.Read]: the store to read from, opened. *)
Definition open_target (rev : Revision) : M server Database :=
  do! (syncNodes, asyncNodes) <- glift (splitStores (Revision_GetNodes rev));
  match syncNodes, asyncNodes with
  | target :: _, _ | [], target :: _ => on_gw (on_store (FactoryWithNameAndLatency T target 0))
  | [], [] => gfail ("the rev " +:+ Revision_String rev +:+ " does not have any nodes")
  end.

(** The goroutines of an operation on the stores; those awaited. *)
Definition start_op (rev : Revision) (o : op) : M server (list nat) :=
  do! (syncNodes, asyncNodes) <- glift (splitStores (Revision_GetNodes rev));
  do! _ <- start_all (async_goroutines T asyncNodes o);
  start_all (sync_goroutines T syncNodes o).

(** The comparison of [keyIndex.update]. *)
Definition compare_latest (k : string) (revAssumed : Z) (t : btree) : outcome unit :=
  match bt_Get t (newKeyIndex k) with
  | None => Fail ErrRevisionNotFound
  | Some keyi => if negb (main (modified keyi) =? revAssumed) then Fail ErrRevAssumed else Ret tt
  end.

(** With nothing in between, the comparison and a put are [treeIndex.Update]. *)
Lemma treeIndex_Update_steps k rev a ti :
  treeIndex_Update k rev a ti =
    match compare_latest k a (tree ti) with
    | Ret _ => treeIndex_Put k rev ti
    | Fail e => (Fail e, ti)
    | Panic why => (Panic why, ti)
    end.
Proof.
  unfold treeIndex_Update, compare_latest, treeIndex_Put. destruct (bt_Get _ _) as [ki|]; [|done].
  unfold keyIndex_update. destruct (negb _); [by destruct ti|]. by destruct (keyIndex_put _ _ _ _ _).
Qed.

(** A request up to its next access of the shared state.  An update puts into the key
    index it compared; keys stay in the tree, so that is the one [treeIndex.Put] finds.  Its
    put is one step here; in an [exclusive] execution nobody can tell. *)
Definition run_pc (p : pc) : M server pc :=
  match p with
  | GetIndex k =>
      do! (rev, _, _) <- read_tree (λ t, treeIndex_Get t k 0);
      gret (GetOpen rev)
  | GetOpen rev => do! d <- open_target rev; gret (GetRead rev d)
  | GetRead rev d =>
      do! v <- on_gw (on_store (Database_Get d (Revision_String rev)));
      gret (Replied (Some rev) (Ret (value_text v (main rev))))
  | SinceIndex k from =>
      do! revs <- read_tree (λ t, treeIndex_RangeSince t k None from);
      gret (since_next from [] revs)
  | SinceOpen from got rev todo => do! d <- open_target rev; gret (SinceRead from got rev todo d)
  | SinceRead from got rev todo d =>
      do! v <- on_gw (on_store (Database_Get d (Revision_String rev)));
      gret (since_next from (got ++ [(rev, v)]) todo)
  | PutAdd k v a => do! _ <- add_counter; gret (PutDraw k v a)
  | PutDraw k v a => do! n <- read_counter; gret (PutPlace k v a (int64 n))
  | PutPlace k v a n =>
      let newRev := NewRevision n 0 [] in
      do! primRev <- glift (getPrimaryRevBytesWithBucket h newRev);
      do! nodes <- glift (GetNodes hm primRev);
      let newRev := Revision_SetNodes newRev nodes in
      do! r <- try (start_op newRev (OpPut (Revision_String newRev) v));
      match r with
      | inl ids => gret (PutWait k v a newRev ids)
      | inr e => gfail ("system backend failed to write data: " +:+ e)
      end
  | PutWait k v a rev ids =>
      do! b <- all_done ids; gret (if b then PutIndex k v a rev else p)
  | PutIndex k v (Some a) rev =>
      do! _ <- read_tree (compare_latest k a);
      gret (UpdWrite k v rev)
  | PutIndex k v None rev | UpdWrite k v rev =>
      do! _ <- on_index (treeIndex_Put k rev);
      gret (Replied (Some rev) (Ret (stored_text k v (uint64 (main rev)) (Join "," (Revision_GetNodes rev)))))
  | DelIndex k =>
      do! (rev, _, _) <- read_tree (λ t, treeIndex_Get t k 0);
      gret (DelStores k rev)
  | DelStores k rev =>
      do! r <- try (start_op rev (OpDelete (Revision_String rev)));
      gret (match r with inl ids => DelWait k rev ids | inr e => DelAdd k rev (Some e) end)
  | DelWait k rev ids =>
      do! b <- all_done ids; gret (if b then DelAdd k rev None else p)
  | DelAdd k rev err => do! _ <- add_counter; gret (DelDraw k rev err)
  | DelDraw k rev err => do! n <- read_counter; gret (DelTomb k rev err (int64 n))
  | DelTomb k rev err n =>
      do! _ <- try (on_index (treeIndex_Tombstone k (NewRevision n (Revision_GetSub rev) [])));
      gret (Replied None
        (match err with
         | Some e => Fail e
         | None => Ret ("The key " +:+ fmt_strings [k] +:+ " has been removed at " +:+
                        fmt_strings (Revision_GetNodes rev) +:+ newline)
         end))
  | Replied _ _ => gret p
  end.

(** The program point after a step: an error or a panic is the end of the request. *)
Definition next_pc (p : pc) (r : outcome pc) : pc :=
  match r with
  | Ret p' => p'
  | Fail e => Replied (pc_tag p) (Fail e)
  | Panic w => Replied (pc_tag p) (Panic w)
  end.

(** * Executions *)

Record csys := mkSys { c_sv : server; c_threads : list thread; c_crash : option string }.

Inductive turn := Arrive (c : call) | Run (i : nat) | Go (i : nat).

(** Request [i], which is [th], runs on. *)
Definition run_thread (s : csys) (i : nat) (th : thread) : csys :=
  let '(r, sv) := run_pc (th_pc th) (c_sv s) in
  mkSys sv (<[i := mkThread (th_call th) (next_pc (th_pc th) r)]> (c_threads s)) (c_crash s).

(** A request arrives, one in flight runs on, unless the lock of the index keeps it from
    that, or a goroutine does.  net/http keeps a
    panic of a handler to its request; one of a goroutine ends the program. *)
Definition take_turn (s : csys) (t : turn) : csys :=
  match t with
  | Arrive c =>
      mkSys (c_sv s) (c_threads s ++ [mkThread c (start_pc c)]) (c_crash s)
  | Run i =>
      match c_threads s !! i with
      | None => s
      | Some th =>
          if locked_out (c_threads s) (th_pc th) then s else run_thread s i th
      end
  | Go i =>
      match detached (sv_gw (c_sv s)) !! i with
      | None => s
      | Some g =>
          let '(r, w) := go_step g (store (sv_gw (c_sv s))) in
          match r with
          | Ret g' =>
              mkSys (mkServer (sv_index (c_sv s)) (mkGWorld w (<[i := g']> (detached (sv_gw (c_sv s))))))
                (c_threads s) (c_crash s)
          | Fail e | Panic e =>
              mkSys (mkServer (sv_index (c_sv s)) (mkGWorld w (detached (sv_gw (c_sv s)))))
                (c_threads s) (Some e)
          end
      end
  end.

Definition execute (turns : list turn) (s : csys) : csys := foldl take_turn s turns.

Definition quiet (sv : server) : csys := mkSys sv [] None.

(** The turn is not one of a request that reads the index of a key while an update of the
    key is under way; none of the turns is. *)
Definition undisturbed (s : csys) (t : turn) : bool :=
  match t with
  | Run i =>
      match c_threads s !! i ≫= λ th, accesses (th_pc th) with
      | Some k => negb (updating k (c_threads s))
      | None => true
      end
  | _ => true
  end.
Fixpoint exclusive (turns : list turn) (s : csys) : bool :=
  match turns with
  | [] => true
  | t :: turns' => undisturbed s t && exclusive turns' (take_turn s t)
  end.
End concurrent.

(** * Facts about requests that stay true *)

(** The stores hold the value of the request. *)
Definition past_wait (p : pc) (rev : Revision) : Prop :=
  (∃ k v a, p = PutIndex k v a rev) ∨ (∃ k v, p = UpdWrite k v rev) ∨ ∃ res, p = Replied (Some rev) res.

Definition tagged (p : pc) (n : Z) : Prop := main <$> pc_tag p = Some n.

(** A request to write [v] under [k] that drew [n]; one whose value is stored; one that
    is finished; one to delete [k]. *)
Definition claims (ths : list thread) (k v : string) (n : Z) : Prop :=
  ∃ th, th ∈ ths ∧ writes (th_call th) = Some (k, v) ∧ tagged (th_pc th) n.
Definition written (ths : list thread) (k v : string) (rev : Revision) : Prop :=
  ∃ th, th ∈ ths ∧ writes (th_call th) = Some (k, v) ∧ past_wait (th_pc th) rev.
Definition completed (ths : list thread) (k v : string) (rev : Revision) : Prop :=
  ∃ th t, th ∈ ths ∧ writes (th_call th) = Some (k, v) ∧ th_pc th = Replied (Some rev) (Ret t).
Definition deleting (ths : list thread) (k : string) : Prop :=
  ∃ th, th ∈ ths ∧ th_call th = CDelete k.

(** No two writes drew the same revision. *)
Definition distinct (ths : list thread) : Prop :=
  ∀ i j th th' k v k' v' n, ths !! i = Some th → ths !! j = Some th' →
    writes (th_call th) = Some (k, v) → writes (th_call th') = Some (k', v') →
    tagged (th_pc th) n → tagged (th_pc th') n → i = j.

(** The requests go on. *)
Definition later (th th' : thread) : Prop :=
  th_call th' = th_call th ∧ (∀ n, tagged (th_pc th) n → tagged (th_pc th') n) ∧
  (∀ rev, past_wait (th_pc th) rev → past_wait (th_pc th') rev) ∧
  (∀ tag res, th_pc th = Replied tag res → th_pc th' = Replied tag res).
Definition all_later (ths ths' : list thread) : Prop :=
  ∀ i th, ths !! i = Some th → ∃ th', ths' !! i = Some th' ∧ later th th'.

#[global] Instance later_preorder : PreOrder later.
Proof.
  split; [by intros x|].
  intros x y z (E1 & ? & ? & ?) (E2 & ? & ? & ?). split_and!; [congruence|auto..].
Qed.
#[global] Instance all_later_preorder : PreOrder all_later.
Proof.
  split; [intros ths i th Hi; by exists th|].
  intros x y z Hxy Hyz i th (th1 & H1 & L1)%Hxy. destruct (Hyz i th1 H1) as (th2 & H2 & L2).
  exists th2. split; [done|]. by etrans.
Qed.

Lemma later_elem ths ths' th :
  all_later ths ths' → th ∈ ths → ∃ th', th' ∈ ths' ∧ later th th'.
Proof.
  intros Hl [i Hi]%list_elem_of_lookup. destruct (Hl i th Hi) as (th' & Hi' & ?).
  exists th'. split; [by eapply list_elem_of_lookup_2|done].
Qed.

Lemma claims_later ths ths' k v n : all_later ths ths' → claims ths k v n → claims ths' k v n.
Proof.
  intros Hl (th & Hin & Hc & Ht). destruct (later_elem _ _ _ Hl Hin) as (th' & Hin' & E & H1 & _).
  exists th'. split_and!; [done|congruence|auto].
Qed.
Lemma written_later ths ths' k v rev : all_later ths ths' → written ths k v rev → written ths' k v rev.
Proof.
  intros Hl (th & Hin & Hc & Ht). destruct (later_elem _ _ _ Hl Hin) as (th' & Hin' & E & _ & H2 & _).
  exists th'. split_and!; [done|congruence|auto].
Qed.
Lemma completed_later ths ths' k v rev :
  all_later ths ths' → completed ths k v rev → completed ths' k v rev.
Proof.
  intros Hl (th & t & Hin & Hc & Ht). destruct (later_elem _ _ _ Hl Hin) as (th' & Hin' & E & _ & _ & H3).
  exists th', t. split_and!; [done|congruence|auto].
Qed.
Lemma deleting_later ths ths' k : all_later ths ths' → deleting ths k → deleting ths' k.
Proof.
  intros Hl (th & Hin & Hc). destruct (later_elem _ _ _ Hl Hin) as (th' & Hin' & E & _).
  exists th'. split; [done|congruence].
Qed.
Lemma distinct_later ths ths' : all_later ths ths' → distinct ths' → distinct ths.
Proof.
  intros Hl Hd i j th th' k v k' v' n Hi Hj Hc Hc' Ht Ht'.
  destruct (Hl i th Hi) as (x & Hx & E1 & T1 & _), (Hl j th' Hj) as (y & Hy & E2 & T2 & _).
  eapply (Hd i j x y k v k' v' n); auto; congruence.
Qed.

Lemma past_wait_tag p rev : past_wait p rev → pc_tag p = Some rev.
Proof. by intros [(k & v & a & ->)|[(k & v & ->)|[res ->]]]. Qed.

Lemma not_past_wait p rev :
  past_wait p rev → match p with PutIndex _ _ _ _ | UpdWrite _ _ _ | Replied _ _ => True | _ => False end.
Proof. by intros [(k & v & a & ->)|[(k & v & ->)|[res ->]]]. Qed.

Lemma completed_written ths k v rev : completed ths k v rev → written ths k v rev.
Proof. intros (th & t & ? & ? & ?). exists th. split_and!; [done..|]. right; right. by eexists. Qed.

Lemma written_claims ths k v rev : written ths k v rev → claims ths k v (main rev).
Proof.
  intros (th & Hin & Hc & Hp%past_wait_tag). exists th. split_and!; [done..|].
  unfold tagged. by rewrite Hp.
Qed.

(** Distinct writes: a revision has one key and one value. *)
Lemma claims_unique ths k v k' v' n :
  distinct ths → claims ths k v n → claims ths k' v' n → k' = k ∧ v' = v.
Proof.
  intros Hd (th & [i Hi]%list_elem_of_lookup & Hc & Ht) (th' & [j Hj]%list_elem_of_lookup & Hc' & Ht').
  assert (i = j) as -> by (by eapply Hd). rewrite Hi in Hj. by simplify_eq.
Qed.

#[export] Hint Resolve claims_later written_later completed_later deleting_later distinct_later : rkv.
