(* ===== verification/ConcurrentInv.v ===== *)
(** The invariant of executions of concurrent requests, [cinv]: the index is well-formed,
    every goroutine is described by an operation and the stores it still goes to, every
    operation in flight and every value in a store belongs to a request, every revision
    of the index comes from a write whose value is stored or from a deletion, and every
    request is where its program point says.  [cinv_turn] shows that each turn keeps it,
    as long as the counter does not run out of revisions; [execute_ind] is induction over
    an execution with it at hand. *)
From Stdlib Require Import Ascii.
From stdpp Require Import base gmap list strings pretty.
From S2P Require Import Prelude GoStd Json Hashing HashingManager Latency Config Revision KeyIndex KeyHistory BTree TreeIndex Database ChainNode Runtime Chain Piping Handler VersionedMap Service Concurrent.

Open Scope Z_scope.

(** * The invariant *)

(** The revisions of a key in the index. *)
Definition indexed {B : BTree} {L : BTreeLaws B} (idx : treeIndex) (k : string) (rev : Revision) : Prop :=
  ∃ ki, bt_map (tree idx) !! k = Some ki ∧ rev ∈ generations ki ≫= revs.

Definition revs_at {B : BTree} {L : BTreeLaws B} (idx : treeIndex) (k : string) : list Revision :=
  from_option (λ ki, generations ki ≫= revs) [] (bt_map (tree idx) !! k).

(** Where a revision of the index came from: a write, or a deletion, which has no
    stores. *)
Definition found (ths : list thread) (k : string) (rev : Revision) : Prop :=
  sub rev = 0 ∧ ((∃ v, completed ths k v rev) ∨ nodes rev = [] ∧ deleting ths k).

(** No deletion of [k], and no colliding revisions. *)
Definition calm (ths : list thread) (k : string) : Prop := distinct ths ∧ ¬ deleting ths k.

Lemma calm_later ths ths' k : all_later ths ths' → calm ths' k → calm ths k.
Proof. intros Hl [Hd Hn]. split; eauto with rkv. Qed.
Lemma found_later ths ths' k rev : all_later ths ths' → found ths k rev → found ths' k rev.
Proof. intros Hl [Hs [[v Hv]|[Hn Hd]]]; split; eauto 6 with rkv. Qed.
#[export] Hint Resolve calm_later found_later : rkv.

Section invariant.
Context `{!GoSort} {B : BTree} {L : BTreeLaws B} `{!Hasher} {R : Redigo}.
Context (hm : HashingManager) (conf : KVConfiguration) {T : string} {SL : StoreLaws T}.
Context (Hbucket : BucketSize conf ≠ 0).

Definition rev_ok (idx : treeIndex) (gw : gworld) (rev : Revision) : Prop :=
  0 < main rev ≤ counter idx ∧ sub rev = 0 ∧ sa_nodes gw (nodes rev).

(** The answer to a read of [k]: an error with a revision found, or the text of an absent
    value, only when there are deletions or collisions. *)
Definition read_ok (idx : treeIndex) (ths : list thread) (k : string) (tag : option Revision)
    (res : outcome string) : Prop :=
  match res, tag with
  | Panic _, _ => False
  | Fail e, None => e = ErrRevisionNotFound
  | Fail e, Some rev => indexed idx k rev ∧ ¬ calm ths k
  | Ret t, None => False
  | Ret t, Some rev =>
      indexed idx k rev ∧ (∃ v0, completed ths k v0 rev) ∧
      ∃ v, t = value_text v (main rev) ∧
        ((∃ k', claims ths k' v (main rev)) ∨ st_absent = Ret v ∧ ¬ calm ths k)
  end.

Definition get_ok (idx : treeIndex) (gw : gworld) (ths : list thread) (k : string) (p : pc) : Prop :=
  match p with
  | GetIndex k' => k' = k
  | GetOpen rev => indexed idx k rev
  | GetRead rev d =>
      indexed idx k rev ∧ (∃ v, completed ths k v rev) ∧
      ∃ x, sa_target rev x ∧ st_refers (store gw) d x
  | Replied tag res => read_ok idx ths k tag res
  | _ => False
  end.

(** A read of the history of [k]: the revisions it found are of the key, and every value
    it got is one that was written at its revision, or the text of an absent value,
    which needs deletions or collisions, as an error does. *)
Definition listed (idx : treeIndex) (k : string) (from : Z) (rev : Revision) : Prop :=
  indexed idx k rev ∧ from ≤ main rev.
Definition got_ok (idx : treeIndex) (ths : list thread) (k : string) (from : Z)
    (p : Revision * string) : Prop :=
  listed idx k from p.1 ∧ (∃ v0, completed ths k v0 p.1) ∧
  ((∃ k', claims ths k' p.2 (main p.1)) ∨ st_absent = Ret p.2 ∧ ¬ calm ths k).

Definition since_ok (idx : treeIndex) (gw : gworld) (ths : list thread) (k : string) (from : Z)
    (p : pc) : Prop :=
  match p with
  | SinceIndex k' from' => k' = k ∧ from' = from
  | SinceOpen from' got rev todo =>
      from' = from ∧ Forall (got_ok idx ths k from) got ∧ Forall (listed idx k from) (rev :: todo)
  | SinceRead from' got rev todo d =>
      from' = from ∧ Forall (got_ok idx ths k from) got ∧ Forall (listed idx k from) (rev :: todo) ∧
      (∃ v, completed ths k v rev) ∧ ∃ x, sa_target rev x ∧ st_refers (store gw) d x
  | Replied tag res =>
      tag = None ∧
      match res with
      | Ret t => ∃ got, t = since_text got from ∧ Forall (got_ok idx ths k from) got
      | Fail _ => ¬ calm ths k
      | Panic _ => False
      end
  | _ => False
  end.

(** The assumed revision is one of the key. *)
Definition compared (idx : treeIndex) (k : string) (a : option Z) : Prop :=
  ∀ n, a = Some n → ∃ r, indexed idx k r ∧ main r = n.

Definition write_ok (idx : treeIndex) (gw : gworld) (k v : string) (a : option Z) (p : pc) : Prop :=
  match p with
  | PutAdd k' v' a' => k' = k ∧ v' = v ∧ a' = a
  | PutDraw k' v' a' => k' = k ∧ v' = v ∧ a' = a ∧ 0 < counter idx
  | PutPlace k' v' a' n => k' = k ∧ v' = v ∧ a' = a ∧ 0 < n ≤ counter idx
  | PutWait k' v' a' rev _ | PutIndex k' v' a' rev => k' = k ∧ v' = v ∧ a' = a ∧ rev_ok idx gw rev
  | UpdWrite k' v' rev => k' = k ∧ v' = v ∧ is_Some a ∧ rev_ok idx gw rev ∧ compared idx k a
  | Replied tag res =>
      ∃ rev, tag = Some rev ∧ rev_ok idx gw rev ∧
        match res with
        | Ret t =>
            indexed idx k rev ∧ compared idx k a ∧
            t = stored_text k v (uint64 (main rev)) (Join "," (nodes rev))
        | Fail e => is_Some a ∧ (e = ErrRevisionNotFound ∨ e = ErrRevAssumed)
        | Panic _ => False
        end
  | _ => False
  end.

Definition delete_ok (idx : treeIndex) (k : string) (p : pc) : Prop :=
  match p with
  | DelIndex k' => k' = k
  | DelStores k' rev => k' = k ∧ indexed idx k rev
  | DelWait k' rev _ | DelAdd k' rev _ => k' = k ∧ sub rev = 0
  | DelDraw k' rev _ => k' = k ∧ sub rev = 0 ∧ 0 < counter idx
  | DelTomb k' rev _ n => k' = k ∧ sub rev = 0 ∧ 0 < n ≤ counter idx
  | Replied _ res => no_panic res
  | _ => False
  end.

Definition thread_ok (idx : treeIndex) (gw : gworld) (ths : list thread) (th : thread) : Prop :=
  match th_call th with
  | CGet k => get_ok idx gw ths k (th_pc th)
  | CSince k from => since_ok idx gw ths k from (th_pc th)
  | CPut k v => write_ok idx gw k v None (th_pc th)
  | CUpdate k v a => write_ok idx gw k v (Some a) (th_pc th)
  | CDelete k => delete_ok idx k (th_pc th)
  end.

Lemma thread_ok_writes idx gw ths c p k v :
  writes c = Some (k, v) → thread_ok idx gw ths (mkThread c p) ↔ write_ok idx gw k v (assumes c) p.
Proof. clear Hbucket. destruct c; by intros; simplify_eq/=. Qed.

(** The operations in flight. *)
Definition op_known (ths : list thread) (d : op * list string) : Prop :=
  d.2 ≠ [] →
  match d.1 with
  | OpPut key v => ∃ k n, claims ths k v n ∧ key = pretty n
  | OpDelete key => ∃ k v n, deleting ths k ∧ claims ths k v n ∧ key = pretty n
  end.

(** Position [id] of the goroutines will store [v] under [key] on [x]. *)
Definition will_store (dd : list (op * list string)) (ids : list nat) (x key v : string) : Prop :=
  ∃ id ns, id ∈ ids ∧ dd !! id = Some (OpPut key v, ns) ∧ x ∈ ns.

Record cinv (s : csys) (dd : list (op * list string)) : Prop := {
  ci_index : ti_ok (sv_index (c_sv s));
  ci_described : described (store (sv_gw (c_sv s))) (detached (sv_gw (c_sv s))) dd;
  ci_ops : Forall (op_known (c_threads s)) dd;
  ci_place b : ∃ ns, GetNodes hm b = Ret ns ∧ sa_nodes (sv_gw (c_sv s)) ns;
  ci_data x z v : 0 < z → st_data (store (sv_gw (c_sv s))) x !! pretty z = Some v →
    ∃ k, claims (c_threads s) k v z;
  ci_found k rev : indexed (sv_index (c_sv s)) k rev → found (c_threads s) k rev;
  ci_single k ki : ¬ deleting (c_threads s) k → bt_map (tree (sv_index (c_sv s))) !! k = Some ki →
    ∃ g, generations ki = [g];
  ci_threads th : th ∈ c_threads s →
    thread_ok (sv_index (c_sv s)) (sv_gw (c_sv s)) (c_threads s) th;
  ci_durable k v rev x : calm (c_threads s) k → written (c_threads s) k v rev → sa_target rev x →
    st_data (store (sv_gw (c_sv s))) x !! Revision_String rev = Some v;
  ci_waiting th k v a rev ids x : th ∈ c_threads s → writes (th_call th) = Some (k, v) →
    th_pc th = PutWait k v a rev ids → calm (c_threads s) k → sa_target rev x →
    st_data (store (sv_gw (c_sv s))) x !! Revision_String rev = Some v ∨
    will_store dd ids x (Revision_String rev) v;
  ci_crash : c_crash s = None;
}.

(** What stays true of the shared state. *)
Definition grows (sv sv' : server) : Prop :=
  counter (sv_index sv) ≤ counter (sv_index sv') ∧
  (∀ k rev, indexed (sv_index sv) k rev → indexed (sv_index sv') k rev) ∧
  st_evolves (store (sv_gw sv)) (store (sv_gw sv')).

Lemma rev_ok_grows sv sv' rev :
  grows sv sv' → rev_ok (sv_index sv) (sv_gw sv) rev → rev_ok (sv_index sv') (sv_gw sv') rev.
Proof.
  intros (Hc & _ & He) (Hm & Hs & Hn). split_and!; [lia..|done|]. by eapply sa_nodes_evolves.
Qed.

Lemma compared_grows sv sv' k a :
  grows sv sv' → compared (sv_index sv) k a → compared (sv_index sv') k a.
Proof. intros (_ & Hi & _) Hc n E. destruct (Hc n E) as (r & ? & ?). exists r. auto. Qed.

Lemma get_ok_grows sv sv' ths ths' k p :
  grows sv sv' → all_later ths ths' →
  get_ok (sv_index sv) (sv_gw sv) ths k p → get_ok (sv_index sv') (sv_gw sv') ths' k p.
Proof.
  intros (_ & Hi & _ & _ & Hr) Hl. destruct p as [| |rev d| | | | | | | | | | | | | | | |tag res]; simpl; auto.
  - intros (H1 & (v & H2) & x & H3 & H4). split_and!; eauto with rkv.
  - unfold read_ok. destruct res as [t|e|w], tag as [rev|]; try done.
    + intros (H1 & (v0 & H2) & v & H3 & H4). split_and!; eauto with rkv.
      exists v. split; [done|]. destruct H4 as [(k' & ?)|[? Hn]]; [left; eauto with rkv|right].
      split; [done|]. eauto with rkv.
    + intros [? ?]. split; [auto|]. eauto with rkv.
Qed.

Lemma got_ok_later idx idx' ths ths' k from got :
  (∀ k rev, indexed idx k rev → indexed idx' k rev) → all_later ths ths' →
  Forall (got_ok idx ths k from) got → Forall (got_ok idx' ths' k from) got.
Proof.
  intros Hi Hl HF. eapply Forall_impl; [exact HF|]. intros p ((H1 & H1') & (v0 & H2) & H3).
  split_and!; [split; auto|eauto with rkv|].
  destruct H3 as [(k' & ?)|[? Hn]]; [left; eauto with rkv|right]. split; [done|]. eauto with rkv.
Qed.

Lemma since_ok_grows sv sv' ths ths' k from p :
  grows sv sv' → all_later ths ths' →
  since_ok (sv_index sv) (sv_gw sv) ths k from p → since_ok (sv_index sv') (sv_gw sv') ths' k from p.
Proof.
  intros Hg Hl. pose proof Hg as (_ & Hi & _ & _ & Hr).
  assert (∀ got, Forall (got_ok (sv_index sv) ths k from) got → Forall (got_ok (sv_index sv') ths' k from) got)
    as Hgot by (intros got; by apply got_ok_later).
  assert (∀ rs, Forall (listed (sv_index sv) k from) rs → Forall (listed (sv_index sv') k from) rs)
    as Hlst by (intros rs HF; eapply Forall_impl; [exact HF|]; intros r [? ?]; split; auto).
  destruct p; simpl; auto.
  - intros (? & ? & ?). auto.
  - intros (? & ? & ? & (v & ?) & x & ? & ?). split_and!; auto; eauto with rkv.
  - intros [-> Hres]. split; [done|]. destruct res; [|eauto with rkv|done].
    destruct Hres as (got & -> & ?). eauto.
Qed.

Lemma write_ok_grows sv sv' k v a p :
  grows sv sv' → write_ok (sv_index sv) (sv_gw sv) k v a p → write_ok (sv_index sv') (sv_gw sv') k v a p.
Proof.
  intros Hg. pose proof Hg as (Hc & Hi & _).
  destruct p as [| | | | | | | |k1 v1 a1 n|k1 v1 a1 rev ids|k1 v1 a1 rev|k1 v1 rev| | | | | | |tag res]; simpl; try done.
  - intros (-> & -> & -> & ?). split_and!; [done..|lia].
  - intros (-> & -> & -> & ?). split_and!; [done..|lia|lia].
  - intros (-> & -> & -> & ?). split_and!; eauto using rev_ok_grows.
  - intros (-> & -> & -> & ?). split_and!; eauto using rev_ok_grows.
  - intros (-> & -> & ? & ? & ?). split_and!; eauto using rev_ok_grows, compared_grows.
  - intros (rev & -> & ? & Hres). exists rev. split_and!; [done|by eapply rev_ok_grows|].
    destruct res; [|done..]. destruct Hres as (? & ? & ->). split_and!; eauto using compared_grows.
Qed.

Lemma thread_ok_grows sv sv' ths ths' th :
  grows sv sv' → all_later ths ths' →
  thread_ok (sv_index sv) (sv_gw sv) ths th → thread_ok (sv_index sv') (sv_gw sv') ths' th.
Proof.
  intros Hg Hl. unfold thread_ok. destruct (th_call th) as [k|k from|k v|k v a|k];
    [by apply get_ok_grows|by apply since_ok_grows|by apply write_ok_grows..|].
  pose proof Hg as (Hc & Hi & _). destruct (th_pc th); simpl; try done; intros (-> & Hx); split_and!; try done; auto.
  all: destruct Hx; [done || lia..].
Qed.

(** ** A request goes on *)

Lemma treeIndex_Put_ret k rev ti : (treeIndex_Put k rev ti).1 = Ret tt.
Proof. unfold treeIndex_Put. by destruct (bt_Get _ _), (keyIndex_put _ _ _ _ _). Qed.

Lemma run_pc_later p sv c :
  later (mkThread c p) (mkThread c (next_pc p (run_pc hm conf T p sv).1)).
Proof.
  clear Hbucket. split; [done|]. cbn [th_pc]. unfold tagged, past_wait.
  destruct p; simpl; unfold gbind, glift, gret, gfail, read_tree, on_gw, on_index, on_store, all_done,
    add_counter, read_counter, try, start_op; repeat case_match; simplify_eq/=;
    split; try naive_solver;
    match goal with E : treeIndex_Put ?k ?rev ?ti = _ |- _ =>
      pose proof (treeIndex_Put_ret k rev ti) as Hr; by rewrite E in Hr end.
Qed.

Lemma insert_later ths i th th' :
  ths !! i = Some th → later th th' → all_later ths (<[i := th']> ths).
Proof.
  intros Hi Hl j x Hj. destruct (decide (j = i)) as [->|Hne]; simplify_eq.
  - exists th'. rewrite list_lookup_insert_eq by (by eapply lookup_lt_Some). done.
  - exists x. by rewrite list_lookup_insert_ne.
Qed.

Lemma elem_of_insert {A} (l : list A) i x y : y ∈ <[i := x]> l → y = x ∨ y ∈ l.
Proof.
  intros [j Hj]%list_elem_of_lookup. apply list_lookup_insert_Some in Hj as [(_ & <- & _)|[_ Hj]]; [by left|].
  right. by eapply list_elem_of_lookup_2.
Qed.

Lemma op_known_later ths ths' d : all_later ths ths' → op_known ths d → op_known ths' d.
Proof.
  intros Hl Hd Hne. specialize (Hd Hne). destruct d as [[key v|key] ns]; simpl in *.
  - destruct Hd as (k & n & ? & ?). eauto 6 with rkv.
  - destruct Hd as (k & v & n & ? & ? & ?). eauto 10 with rkv.
Qed.

(** The new state of request [i], with the shared state moved on; [new] are the
    operations of the goroutines it started. *)
Lemma cinv_run s dd i th sv' p' new :
  let ths' := <[i := mkThread (th_call th) p']> (c_threads s) in
  let data := st_data (store (sv_gw (c_sv s))) in
  cinv s dd → c_threads s !! i = Some th → later th (mkThread (th_call th) p') →
  grows (c_sv s) sv' → ti_ok (sv_index sv') →
  (∀ x, st_data (store (sv_gw sv')) x = data x) →
  described (store (sv_gw sv')) (detached (sv_gw sv')) (dd ++ new) → Forall (op_known ths') new →
  (∀ k rev, indexed (sv_index sv') k rev → indexed (sv_index (c_sv s)) k rev ∨ found ths' k rev) →
  (∀ k ki, ¬ deleting ths' k → bt_map (tree (sv_index sv')) !! k = Some ki →
     ∃ g, generations ki = [g]) →
  thread_ok (sv_index sv') (sv_gw sv') ths' (mkThread (th_call th) p') →
  (∀ k v rev x, writes (th_call th) = Some (k, v) → past_wait p' rev → calm ths' k → sa_target rev x →
     data x !! Revision_String rev = Some v) →
  (∀ k v a rev ids x, writes (th_call th) = Some (k, v) → p' = PutWait k v a rev ids → calm ths' k →
     sa_target rev x → data x !! Revision_String rev = Some v ∨
     will_store (dd ++ new) ids x (Revision_String rev) v) →
  cinv (mkSys sv' ths' (c_crash s)) (dd ++ new).
Proof.
  intros ths' data [Hidx Hdesc Hops Hpl Hdata Hfound Hsingle Hths Hdur Hwait Hcr] Hi Hlater Hg Hidx'
    Hsame Hdesc' Hnew Hfound' Hsingle' Hth Hdur' Hwait'.
  assert (all_later (c_threads s) ths') as Hl by by apply (insert_later _ i th).
  pose proof Hg as (_ & _ & He).
  split; cbn [c_sv c_threads c_crash]; [done|done|..|done].
  - apply Forall_app. split; [|done]. eapply Forall_impl; [done|]. intros d. by apply op_known_later.
  - intros b. destruct (Hpl b) as (ns & ? & ?). exists ns. split; [done|]. by eapply sa_nodes_evolves.
  - intros x z v Hz. rewrite Hsame. intros [k Hk]%Hdata; [|done]. eauto with rkv.
  - intros k rev [Hk|Hk]%Hfound'; [|done]. eauto with rkv.
  - done.
  - intros th0 [->|Hin]%elem_of_insert; [done|]. by eapply thread_ok_grows; [..|apply Hths].
  - intros k v rev x Hc (th0 & [->|Hin]%elem_of_insert & Hcall & Hp) Hx; rewrite Hsame.
    + by apply (Hdur' k v rev x).
    + apply (Hdur k v rev x); [by eapply calm_later|by exists th0|done].
  - intros th0 k v a rev ids x [->|Hin]%elem_of_insert Hcall Hp Hc Hx; rewrite Hsame.
    + by apply (Hwait' k v a rev ids x).
    + destruct (Hwait th0 k v a rev ids x) as [?|(id & ns & ? & ? & ?)]; [done..|by eapply calm_later|done|by left|].
      right. exists id, ns. split_and!; [done| |done]. by apply lookup_app_l_Some.
Qed.

(** The index is left alone and no goroutines are started. *)
Lemma cinv_run_store s dd i th w' p' :
  let ths' := <[i := mkThread (th_call th) p']> (c_threads s) in
  let gw := sv_gw (c_sv s) in
  let sv' := mkServer (sv_index (c_sv s)) (mkGWorld w' (detached gw)) in
  cinv s dd → c_threads s !! i = Some th → later th (mkThread (th_call th) p') →
  st_evolves (store gw) w' → (∀ x, st_data w' x = st_data (store gw) x) →
  thread_ok (sv_index sv') (sv_gw sv') ths' (mkThread (th_call th) p') →
  (∀ k v rev x, writes (th_call th) = Some (k, v) → past_wait p' rev → calm ths' k → sa_target rev x →
     st_data (store gw) x !! Revision_String rev = Some v) →
  (∀ k v a rev ids, p' = PutWait k v a rev ids → th_pc th = p') →
  cinv (mkSys sv' ths' (c_crash s)) dd.
Proof.
  intros ths' gw sv' Hinv Hi Hlater He Hsame Hth Hdur Hwait.
  assert (all_later (c_threads s) ths') as Hl by by apply (insert_later _ i th).
  rewrite <- (app_nil_r dd).
  apply (cinv_run s dd i th sv' p' []); try done.
  - apply Hinv.
  - rewrite app_nil_r. destruct (ci_described _ _ Hinv) as [Hok HF]. split; [apply He|].
    eapply Forall2_impl; [exact HF|]. intros g d. by apply g_will_evolves.
  - by left.
  - intros k ki Hn. apply (ci_single _ _ Hinv). eauto with rkv.
  - intros k v a rev ids x Hc Hp Hcalm Hx. rewrite app_nil_r.
    eapply (ci_waiting _ _ Hinv th k v a rev ids x); [by eapply list_elem_of_lookup_2|done| |by eapply calm_later|done].
    rewrite (Hwait k v a rev ids Hp). done.
Qed.

(** ** The index *)

Lemma Get_cases idx k :
  ti_ok idx →
  (∃ rev cr v, treeIndex_Get (tree idx) k 0 = Ret (rev, cr, v) ∧ indexed idx k rev) ∨
  treeIndex_Get (tree idx) k 0 = Fail ErrRevisionNotFound.
Proof.
  intros Hok. rewrite treeIndex_Get_ki by done. pose proof Hok as (_ & _ & HF).
  destruct (bt_map (tree idx) !! k) as [ki|] eqn:E; [|by right].
  destruct (HF k ki E) as [Hr%ki_reach_ok _]. cbn [Z.eqb].
  pose proof (keyIndex_get_answer ki (int64 (main (modified ki))) Hr) as Ha.
  destruct (hist_get _ _) as [r|]; [|by right]. destruct Ha as (g & n & Hg & Hn & ->).
  left. eexists r, _, _. split; [done|]. exists ki. split; [done|].
  apply list_elem_of_bind. exists g. split; [by eapply list_elem_of_lookup_2|done].
Qed.

Lemma indexed_revs idx k r : indexed idx k r ↔ r ∈ revs_at idx k.
Proof.
  unfold indexed, revs_at. destruct (bt_map (tree idx) !! k) as [ki|]; cbn [from_option].
  - split; [by intros (? & [= <-] & ?)|by exists ki].
  - split; [by intros (? & ? & _)|by intros ?%elem_of_nil].
Qed.

Lemma put_revs_at idx k rev k' :
  ti_ok idx → revs_at (treeIndex_Put k rev idx).2 k' ≡ₚ if decide (k' = k) then rev :: revs_at idx k else revs_at idx k'.
Proof.
  intros Hok. rewrite treeIndex_Put_eq by done. unfold revs_at. cbn [snd tree].
  pose proof Hok as (Hbt & _). rewrite bt_insert_map, keyIndex_put_key, ki_at_key by done.
  case_decide as Hk; [subst k'|by rewrite lookup_insert_ne].
  rewrite lookup_insert_eq. cbn [from_option]. destruct rev as [m s ns].
  rewrite (put_all_revs (ki_at idx k) m s ns (counter idx) (ki_at_cases idx k Hok)).
  unfold ki_at. by destruct (bt_map (tree idx) !! k).
Qed.

Lemma indexed_put idx k rev k' r :
  ti_ok idx → indexed (treeIndex_Put k rev idx).2 k' r ↔ (k' = k ∧ r = rev) ∨ indexed idx k' r.
Proof.
  intros Hok. rewrite !indexed_revs, put_revs_at by done. case_decide as Hk; [subst k'|naive_solver].
  rewrite elem_of_cons. naive_solver.
Qed.

Lemma single_put idx k rev k' ki' :
  ti_ok idx → bt_map (tree (treeIndex_Put k rev idx).2) !! k' = Some ki' →
  (∀ ki, bt_map (tree idx) !! k' = Some ki → ∃ g, generations ki = [g]) →
  ∃ g, generations ki' = [g].
Proof.
  intros Hok. rewrite treeIndex_Put_eq by done. cbn [snd tree]. pose proof Hok as (Hbt & _).
  rewrite bt_insert_map, keyIndex_put_key, ki_at_key by done.
  destruct (decide (k' = k)) as [->|Hne]; [|rewrite lookup_insert_ne by done; auto].
  rewrite lookup_insert_eq. intros [= <-] Hs. unfold ki_at.
  destruct (bt_map (tree idx) !! k) as [ki|] eqn:E; cbn [default].
  - destruct (Hs ki eq_refl) as [g Hg]. rewrite (keyIndex_put_snoc _ _ _ _ _ [] g) by done. by eexists.
  - rewrite keyIndex_put_fresh by done. by eexists.
Qed.

Lemma put_counter_grows idx k rev :
  ti_ok idx → counter idx < 2^63 - 1 →
  counter idx ≤ counter (treeIndex_Put k rev idx).2 ≤ counter idx + 1.
Proof.
  intros Hok Hc. rewrite treeIndex_Put_eq by done. cbn [snd counter]. pose proof Hok as (_ & Hc0 & _).
  by apply put_counter_bound; [apply ki_at_cases|..].
Qed.

(** A deletion adds at most its own revision to the key. *)
Lemma tombstone_index idx k n :
  ti_ok idx →
  let idx' := (treeIndex_Tombstone k (mkRevision n 0 []) idx).2 in
  counter idx' = counter idx ∧
  (∀ k' r, indexed idx k' r → indexed idx' k' r) ∧
  (∀ k' r, indexed idx' k' r → indexed idx k' r ∨ (k' = k ∧ r = mkRevision n 0 [])) ∧
  (∀ k', k' ≠ k → bt_map (tree idx') !! k' = bt_map (tree idx) !! k') ∧
  (∀ k', length (revs_at idx' k') ≤ S (length (revs_at idx k')))%nat.
Proof.
  intros Hok. unfold treeIndex_Tombstone. rewrite tree_Get_map by done.
  destruct (bt_map (tree idx) !! k) as [ki|] eqn:E; [|by split_and!; auto].
  pose proof Hok as (Hbt & _ & HF). destruct (HF k ki E) as [Hr%ki_reach_ok _].
  pose proof Hr as (gs & g & Eg & _ & _ & HG). cbn [main sub].
  rewrite (keyIndex_tombstone_spec ki gs g) by done.
  destruct (is_nil (revs g)) eqn:En; [destruct idx; by split_and!; auto|].
  apply Forall_app in HG as [_ HG]. rewrite Forall_singleton in HG.
  pose proof (put_gen_revs _ _ (mkRevision n 0 []) (counter idx) HG) as Hp.
  unfold revs_at, indexed, bt_store. cbn [snd tree counter]. rewrite bt_insert_map by done.
  cbn [key]. rewrite (tree_key idx k ki Hok E).
  set (ki' := mkKeyIndex k _ _).
  assert (generations ki' ≫= revs ≡ₚ mkRevision n 0 [] :: (generations ki ≫= revs)) as Hrevs.
  { cbn [ki' generations]. rewrite Eg, !bind_app. cbn [mbind list_bind]. rewrite !app_nil_r, Hp.
    by rewrite Permutation_middle. }
  split_and!; [done|..].
  - intros k' r (ki0 & Hki & Hin). destruct (decide (k' = k)) as [->|Hne].
    + simplify_eq. exists ki'. rewrite lookup_insert_eq. split; [done|]. rewrite Hrevs. by right.
    + exists ki0. by rewrite lookup_insert_ne.
  - intros k' r (ki0 & Hki & Hin). destruct (decide (k' = k)) as [->|Hne].
    + rewrite lookup_insert_eq in Hki. simplify_eq. rewrite Hrevs in Hin.
      apply elem_of_cons in Hin as [->|Hin]; [by right|left]. by exists ki.
    + rewrite lookup_insert_ne in Hki by done. left. by exists ki0.
  - intros k' Hne. by rewrite lookup_insert_ne.
  - intros k'. destruct (decide (k' = k)) as [->|Hne]; [|rewrite lookup_insert_ne by done; lia].
    rewrite lookup_insert_eq, E. cbn [from_option]. by rewrite Hrevs.
Qed.

(** ** Starting the goroutines of an operation *)

Lemma start_op_spec sv dd rev o :
  described (store (sv_gw sv)) (detached (sv_gw sv)) dd → sa_nodes (sv_gw sv) (nodes rev) →
  ∃ gs ids new, start_op T rev o sv =
      (Ret ids, mkServer (sv_index sv) (mkGWorld (store (sv_gw sv)) (detached (sv_gw sv) ++ gs))) ∧
    described (store (sv_gw sv)) (detached (sv_gw sv) ++ gs) (dd ++ new) ∧
    Forall (λ d, d.1 = o) new ∧
    ∀ x, sa_target rev x → ∃ id ns, id ∈ ids ∧ (dd ++ new) !! id = Some (o, ns) ∧ x ∈ ns.
Proof.
  intros [Hok Hdd] (s & ss & asy & Esp & Hs & HF).
  rewrite app_comm_cons in HF. apply Forall_app in HF as [Hsy Hasy].
  set (ga := async_goroutines T asy o). set (gs := sync_goroutines T (s :: ss) o).
  pose proof (Forall2_length _ _ _ Hdd) as Hlen.
  pose proof (async_described (store (sv_gw sv)) o asy Hasy) as Ha.
  pose proof (sync_described (store (sv_gw sv)) o (s :: ss) Hsy) as Hb.
  exists (ga ++ gs), (seq (length (detached (sv_gw sv) ++ ga)) (length gs)),
    (async_todo o asy ++ sync_todo o (s :: ss)).
  split_and!.
  - unfold start_op, gbind, glift, Revision_GetNodes. rewrite Esp. unfold start_all. fold ga gs.
    cbn [sv_gw sv_index detached store]. by rewrite <- (assoc_L (++)).
  - split; [done|]. apply Forall2_app; [done|]. by apply Forall2_app.
  - apply Forall_app. split; apply Forall_fmap, Forall_true; by intros.
  - intros x (ss' & asy' & E). rewrite Esp in E. simplify_eq.
    exists (length (detached (sv_gw sv) ++ ga)), [x]. split_and!; [|..|by left].
    + apply elem_of_seq. cbn [gs sync_goroutines fmap list_fmap length]. lia.
    + rewrite length_app, lookup_app_r by lia. pose proof (Forall2_length _ _ _ Ha) as Hla. fold ga in Hla.
      replace (length (detached (sv_gw sv)) + length ga - length dd)%nat with (length ga) by lia.
      rewrite lookup_app_r by lia. rewrite Hla, Nat.sub_diag. simpl. by destruct x.
Qed.

(** The last modification of a key of the index is one of its revisions. *)
Lemma modified_indexed idx k ki :
  ti_ok idx → bt_map (tree idx) !! k = Some ki → modified ki ∈ generations ki ≫= revs.
Proof.
  intros (_ & _ & HF) Hk. destruct (HF k ki Hk) as [Hr [Hcnt _]].
  destruct (reach_modified ki Hr) as [Hz|?]; [exfalso|done].
  destruct (ki_reach_ok ki Hr) as (gs & g & Eg & Hgs & Hne & HG).
  assert (∃ g0 r, g0 ∈ gs ++ [g] ∧ r ∈ revs g0) as (g0 & r & Hg0 & Hin).
  { destruct gs as [|g0 gs].
    - destruct (revs g) as [|r rs] eqn:E; [by destruct Hne|]. exists g, r. rewrite E. split; by left.
    - apply Forall_cons in Hgs as [Hg0 _]. destruct (revs g0) as [|r rs] eqn:E; [done|].
      exists g0, r. rewrite E. split; by left. }
  rewrite Forall_forall in HG. destruct (HG g0 Hg0) as [_ Hle]. rewrite Forall_forall in Hle. specialize (Hle r Hin).
  rewrite Forall_forall in Hcnt.
  assert (r ∈ generations ki ≫= revs) as Hr0 by (apply list_elem_of_bind; exists g0; by rewrite Eg).
  destruct (Hcnt r Hr0) as [Hpos _]. rewrite Hz in Hle. unfold Revision_zero in Hle. rev_lia.
Qed.

(** ** One step of each kind of request *)

Definition stepped (s : csys) (i : nat) : Prop :=
  ∀ th, c_threads s !! i = Some th → ∃ dd', cinv (run_thread hm conf T s i th) dd'.

Lemma stepped_intro s i th dd' :
  c_threads s !! i = Some th → cinv (run_thread hm conf T s i th) dd' → stepped s i.
Proof. intros Hi Hinv th' Hi'. rewrite Hi in Hi'. simplify_eq. by exists dd'. Qed.

Lemma take_run s i th r sv' :
  c_threads s !! i = Some th → run_pc hm conf T (th_pc th) (c_sv s) = (r, sv') →
  run_thread hm conf T s i th =
    mkSys sv' (<[i := mkThread (th_call th) (next_pc (th_pc th) r)]> (c_threads s)) (c_crash s) ∧
  later th (mkThread (th_call th) (next_pc (th_pc th) r)).
Proof.
  intros Hi E. split; [unfold run_thread; by rewrite E|].
  pose proof (run_pc_later (th_pc th) (c_sv s) (th_call th)) as Hl. rewrite E in Hl. by destruct th.
Qed.

(** Nothing shared changes. *)
Lemma step_local s dd i th r :
  cinv s dd → c_threads s !! i = Some th → run_pc hm conf T (th_pc th) (c_sv s) = (r, c_sv s) →
  (∀ ths', all_later (c_threads s) ths' →
     thread_ok (sv_index (c_sv s)) (sv_gw (c_sv s)) ths' (mkThread (th_call th) (next_pc (th_pc th) r))) →
  (∀ k v rev x, writes (th_call th) = Some (k, v) → past_wait (next_pc (th_pc th) r) rev →
     calm (c_threads s) k → sa_target rev x →
     st_data (store (sv_gw (c_sv s))) x !! Revision_String rev = Some v) →
  (∀ k v a rev ids, next_pc (th_pc th) r = PutWait k v a rev ids → th_pc th = PutWait k v a rev ids) →
  stepped s i.
Proof.
  intros Hinv Hi E Hth Hdur Hwait. destruct (take_run s i th r _ Hi E) as [Ht Hl].
  pose proof (insert_later _ _ _ _ Hi Hl) as Hal.
  apply (stepped_intro s i th dd Hi). rewrite Ht. pose proof (ci_described _ _ Hinv) as [Hst _].
  pose proof (cinv_run_store s dd i th (store (sv_gw (c_sv s))) (next_pc (th_pc th) r) Hinv Hi Hl) as H'.
  destruct (c_sv s) as [idx [w gs]] eqn:Esv. cbn [sv_index sv_gw store detached] in *. apply H'; try done.
  - by apply Hth.
  - intros k v rev x Hc Hp Hcalm. apply (Hdur k v rev x Hc Hp). by eapply calm_later.
  - intros k v a rev ids Hp. rewrite Hp. by apply Hwait.
Qed.

(** Reading a store: it may be opened, its contents stay. *)
Lemma step_store s dd i th r w' :
  cinv s dd → c_threads s !! i = Some th →
  run_pc hm conf T (th_pc th) (c_sv s) =
    (r, mkServer (sv_index (c_sv s)) (mkGWorld w' (detached (sv_gw (c_sv s))))) →
  st_evolves (store (sv_gw (c_sv s))) w' → (∀ x, st_data w' x = st_data (store (sv_gw (c_sv s))) x) →
  (∀ ths', all_later (c_threads s) ths' →
     thread_ok (sv_index (c_sv s)) (mkGWorld w' (detached (sv_gw (c_sv s)))) ths'
       (mkThread (th_call th) (next_pc (th_pc th) r))) →
  writes (th_call th) = None → (∀ k v a rev ids, next_pc (th_pc th) r ≠ PutWait k v a rev ids) →
  stepped s i.
Proof.
  intros Hinv Hi E He Hd Hth Hput Hwait. destruct (take_run s i th r _ Hi E) as [Ht Hl].
  pose proof (insert_later _ _ _ _ Hi Hl) as Hal. apply (stepped_intro s i th dd Hi). rewrite Ht.
  apply cinv_run_store; [done..|by apply Hth| |]; naive_solver.
Qed.

(** Only the counter moves. *)
Lemma step_counter s dd i th r :
  cinv s dd → c_threads s !! i = Some th → counter (sv_index (c_sv s)) < 2^63 - 2 →
  let idx := sv_index (c_sv s) in
  let idx' := mkTreeIndex (tree idx) (counter idx + 1) in
  run_pc hm conf T (th_pc th) (c_sv s) = (r, mkServer idx' (sv_gw (c_sv s))) →
  (∀ ths', all_later (c_threads s) ths' →
     thread_ok idx' (sv_gw (c_sv s)) ths' (mkThread (th_call th) (next_pc (th_pc th) r))) →
  pc_tag (next_pc (th_pc th) r) = None → stepped s i.
Proof.
  intros Hinv Hi Hc idx idx' E Hth Htag. destruct (take_run s i th r _ Hi E) as [Ht Hl].
  pose proof (insert_later _ _ _ _ Hi Hl) as Hal. apply (stepped_intro s i th dd Hi). rewrite Ht. rewrite <- (app_nil_r dd).
  pose proof (ci_described _ _ Hinv) as [Hst _].
  apply cinv_run; cbn [sv_index sv_gw]; try done.
  - split_and!; [|done..]. cbn [sv_index counter idx']. unfold idx. lia.
  - apply ti_ok_counter; [apply Hinv|]. unfold idx. lia.
  - rewrite app_nil_r. apply Hinv.
  - by left.
  - intros k ki Hn. apply (ci_single _ _ Hinv). eauto with rkv.
  - by apply Hth.
  - intros k v rev x _ Hp%past_wait_tag. by rewrite Htag in Hp.
  - intros k v a rev ids x _ Hp. by rewrite Hp in Htag.
Qed.

(** The goroutines of an operation are started. *)
Lemma step_start s dd i th rev o p' ids gs new :
  cinv s dd → c_threads s !! i = Some th →
  run_pc hm conf T (th_pc th) (c_sv s) =
    (Ret p', mkServer (sv_index (c_sv s))
       (mkGWorld (store (sv_gw (c_sv s))) (detached (sv_gw (c_sv s)) ++ gs))) →
  described (store (sv_gw (c_sv s))) (detached (sv_gw (c_sv s)) ++ gs) (dd ++ new) →
  Forall (λ d, d.1 = o) new →
  (∀ x, sa_target rev x → ∃ id ns, id ∈ ids ∧ (dd ++ new) !! id = Some (o, ns) ∧ x ∈ ns) →
  p' = match writes (th_call th) with
       | Some (k, v) => PutWait k v (assumes (th_call th)) rev ids
       | None => DelWait (call_key (th_call th)) rev ids
       end →
  (∀ ths', all_later (c_threads s) ths' → mkThread (th_call th) p' ∈ ths' →
     op_known ths' (o, ["x"%string]) ∧
     thread_ok (sv_index (c_sv s)) (sv_gw (c_sv s)) ths' (mkThread (th_call th) p')) →
  (∀ k v, writes (th_call th) = Some (k, v) → o = OpPut (Revision_String rev) v) →
  stepped s i.
Proof.
  intros Hinv Hi E Hdesc Hnew Hids Hp' Hth Ho. destruct (take_run s i th _ _ Hi E) as [Ht Hl].
  pose proof (insert_later _ _ _ _ Hi Hl) as Hal. apply (stepped_intro s i th (dd ++ new) Hi). rewrite Ht. cbn [next_pc] in *.
  set (ths' := <[i := _]> (c_threads s)) in *.
  assert (mkThread (th_call th) p' ∈ ths') as Hin.
  { eapply list_elem_of_lookup_2, list_lookup_insert_eq. by eapply lookup_lt_Some. }
  destruct (Hth ths' Hal Hin) as [Hop Hok]. pose proof (ci_described _ _ Hinv) as [Hst _].
  apply cinv_run; cbn [sv_index sv_gw store detached]; try done.
  - apply Hinv.
  - eapply Forall_impl; [exact Hnew|]. intros [o' ns] Eo Hne. simpl in Eo. subst o'. by apply Hop.
  - by left.
  - intros k ki Hn. apply (ci_single _ _ Hinv). eauto with rkv.
  - rewrite Hp'. intros k v rv x Hcall [(k0 & v0 & a0 & Hw)|[(k0 & v0 & Hw)|[t0 Hw]]]; by rewrite Hcall in Hw.
  - intros k v a rv ids' x Hcall Ew _ Hx. right. rewrite (Ho k v Hcall) in *. rewrite Hcall in Hp'. rewrite Hp' in Ew. simplify_eq.
    destruct (Hids x Hx) as (id & ns & ? & ? & ?). by exists id, ns.
Qed.

(** A stored value is on stores that can be opened. *)
Lemma written_ok s dd k v rev :
  cinv s dd → written (c_threads s) k v rev → rev_ok (sv_index (c_sv s)) (sv_gw (c_sv s)) rev.
Proof.
  intros Hinv ([c p] & Hin & Hc & Hp). simpl in Hc, Hp.
  pose proof (ci_threads _ _ Hinv _ Hin) as Hok. rewrite (thread_ok_writes _ _ _ _ _ _ _ Hc) in Hok.
  destruct Hp as [(k0 & v0 & a & ->)|[(k0 & v0 & ->)|[res ->]]]; simpl in Hok; [naive_solver..|].
  by destruct Hok as (rev' & [= ->] & ? & _).
Qed.

(** A finished request stays. *)
Lemma run_replied s dd i c tag res :
  cinv s dd → c_threads s !! i = Some (mkThread c (Replied tag res)) → stepped s i.
Proof.
  intros Hinv Hi. apply (stepped_intro s i _ dd Hi). unfold run_thread. simpl.
  rewrite list_insert_id by done. by destruct s.
Qed.

Lemma thread_in s dd i c p :
  cinv s dd → c_threads s !! i = Some (mkThread c p) →
  thread_ok (sv_index (c_sv s)) (sv_gw (c_sv s)) (c_threads s) (mkThread c p).
Proof. intros Hinv Hi. apply (ci_threads _ _ Hinv). by eapply list_elem_of_lookup_2. Qed.

(** *** Reads *)

Lemma run_GetIndex s dd i k k' :
  cinv s dd → c_threads s !! i = Some (mkThread (CGet k) (GetIndex k')) → stepped s i.
Proof.
  intros Hinv Hi. pose proof (thread_in _ _ _ _ _ Hinv Hi) as Hk. cbn in Hk. subst k'.
  destruct (Get_cases (sv_index (c_sv s)) k (ci_index _ _ Hinv)) as [(rev & cr & v & E & Hx)|E].
  - apply (step_local s dd i _ (Ret (GetOpen rev)) Hinv Hi); simpl; try done.
    unfold gbind, read_tree. by rewrite E.
  - apply (step_local s dd i _ (Fail ErrRevisionNotFound) Hinv Hi); simpl; try done.
    unfold gbind, read_tree. by rewrite E.
Qed.

(** Opening the store of a revision of the index: it works for one that was written, and
    fails for a deletion. *)
Lemma open_indexed s dd k rev :
  let gw := sv_gw (c_sv s) in
  cinv s dd → indexed (sv_index (c_sv s)) k rev →
  (∃ v x d w', completed (c_threads s) k v rev ∧ sa_target rev x ∧
     open_target T rev (c_sv s) = (Ret d, mkServer (sv_index (c_sv s)) (mkGWorld w' (detached gw))) ∧
     st_refers w' d x ∧ st_evolves (store gw) w' ∧ ∀ n, st_data w' n = st_data (store gw) n) ∨
  (deleting (c_threads s) k ∧ open_target T rev (c_sv s) = (Fail "no stores in the revision", c_sv s)).
Proof.
  intros gw Hinv Hok. destruct (ci_found _ _ Hinv k rev Hok) as [Hsub [[v Hv]|[Hn Hdel]]]; [left|right].
  - destruct (written_ok s dd k v rev Hinv (completed_written _ _ _ _ Hv)) as (_ & _ & x & ss & asy & Esp & Hne & HF).
    pose proof (ci_described _ _ Hinv) as [Hst _]. inversion HF as [|? ? Hname _]; subst.
    destruct (st_open (store gw) x 0 Hst (Hname Hne)) as (d & w' & E & Hr & He & Hd).
    exists v, x, d, w'. split_and!; [done|by exists ss, asy| |done..].
    unfold open_target, gbind, glift, Revision_GetNodes, on_gw, on_store. rewrite Esp. fold gw. by rewrite E.
  - split; [done|]. unfold open_target, gbind, glift, Revision_GetNodes. by rewrite Hn.
Qed.

Lemma run_GetOpen s dd i k rev :
  cinv s dd → c_threads s !! i = Some (mkThread (CGet k) (GetOpen rev)) → stepped s i.
Proof.
  intros Hinv Hi. pose proof (thread_in _ _ _ _ _ Hinv Hi) as Hok. simpl in Hok.
  destruct (open_indexed s dd k rev Hinv Hok) as [(v & x & d & w' & Hv & Hx & E & Hr & He & Hd)|[Hdel E]].
  - apply (step_store s dd i _ (Ret (GetRead rev d)) w' Hinv Hi); simpl; try done.
    + unfold gbind. by rewrite E.
    + intros ths' Hl. split_and!; [done|eauto with rkv|]. by exists x.
  - apply (step_local s dd i _ (Fail "no stores in the revision") Hinv Hi); simpl; try done.
    + unfold gbind. by rewrite E.
    + intros ths' Hl. split; [done|]. intros [_ Hno]. eauto with rkv.
Qed.

(** The contents of a store at a revision that was written. *)
Lemma read_written s dd k v0 rev d x :
  let w := store (sv_gw (c_sv s)) in
  let res := (Database_Get d (Revision_String rev) w).1 in
  cinv s dd → written (c_threads s) k v0 rev → sa_target rev x → st_refers w d x →
  (calm (c_threads s) k → res = Ret v0) ∧
  (∀ v, res = Ret v → (∃ k', claims (c_threads s) k' v (main rev)) ∨
     st_absent = Ret v ∧ ¬ calm (c_threads s) k).
Proof.
  intros w res Hinv Hv0 Htgt Hr. pose proof (ci_described _ _ Hinv) as [Hst _].
  pose proof (ci_durable _ _ Hinv k v0 rev x) as Hdur.
  destruct (written_ok s dd k v0 rev Hinv Hv0) as (Hm & _).
  assert (∀ v1, st_data w x !! Revision_String rev = Some v1 → res = Ret v1) as Hget.
  { intros v1 Ed. destruct (st_get w d x _ v1 Hst Hr Ed) as (w1 & E1 & _). unfold res. by rewrite E1. }
  split; [auto|]. intros v Ev. destruct (st_data w x !! Revision_String rev) as [v1|] eqn:Ed.
  - rewrite (Hget v1 eq_refl) in Ev. simplify_eq. left. apply (ci_data _ _ Hinv x (main rev)); [lia|done].
  - right. pose proof (st_get_absent w d x _ Hst Hr Ed) as Ha. fold res in Ha. split; [congruence|].
    intros Hc. specialize (Hdur Hc Hv0 Htgt). unfold w in Ed. congruence.
Qed.

Lemma run_GetRead s dd i k rev d :
  cinv s dd → c_threads s !! i = Some (mkThread (CGet k) (GetRead rev d)) → stepped s i.
Proof.
  intros Hinv Hi. pose proof (thread_in _ _ _ _ _ Hinv Hi) as (Hx & [v0 Hv0] & x & Htgt & Hr).
  pose proof (ci_described _ _ Hinv) as [Hst _].
  destruct (st_get_no_panic _ d x (Revision_String rev) Hst Hr) as (Hnp & He & Hd).
  destruct (read_written s dd k v0 rev d x Hinv (completed_written _ _ _ _ Hv0) Htgt Hr) as [Hcalm Hval].
  destruct (Database_Get d (Revision_String rev) (store (sv_gw (c_sv s)))) as [res w'] eqn:E.
  cbn [fst snd] in *.
  apply (step_store s dd i _ (match res with
     | Ret v => Ret (Replied (Some rev) (Ret (value_text v (main rev))))
     | Fail e => Fail e | Panic w => Panic w end) w' Hinv Hi); simpl; try done.
  - unfold gbind, on_gw, on_store. rewrite E. by destruct res.
  - intros ths' Hl. destruct res as [v|e|w]; [..|done]; simpl.
    + split_and!; [done|eauto with rkv|]. exists v. split; [done|].
      destruct (Hval v eq_refl) as [[k' ?]|[? ?]]; [left; eauto with rkv|right; eauto with rkv].
    + split; [done|]. intros Hc. assert (calm (c_threads s) k) as Hc' by eauto with rkv.
      by apply Hcalm in Hc'.
  - by destruct res.
Qed.

Lemma run_get s dd i k p :
  cinv s dd → c_threads s !! i = Some (mkThread (CGet k) p) → stepped s i.
Proof.
  intros Hinv Hi. pose proof (thread_in _ _ _ _ _ Hinv Hi) as Hok.
  destruct p; try done; eauto using run_GetIndex, run_GetOpen, run_GetRead, run_replied.
Qed.

(** *** Reads of the history *)

Lemma RangeSince_listed idx k from :
  ti_ok idx → ∃ revs, treeIndex_RangeSince (tree idx) k None from = Ret revs ∧
    Forall (listed idx k from) revs ∧
    ∀ r, listed idx k from r → ∃ r', r' ∈ revs ∧ main r' = main r.
Proof.
  intros Hok. eexists. split; [by apply RangeSince_key|]. split.
  - apply Forall_forall. intros r. destruct (_ !! k) as [ki|] eqn:E; [|by intros ?%elem_of_nil].
    intros [Hr Hin]%collapse_elem%list_elem_of_filter. split; [by exists ki|done].
  - intros r [(ki & -> & Hin) Hr]. apply collapse_main. by apply list_elem_of_filter.
Qed.

(** The loop goes on, or the answer is complete. *)
Lemma since_next_ok idx gw ths k from got todo :
  Forall (got_ok idx ths k from) got → Forall (listed idx k from) todo →
  since_ok idx gw ths k from (since_next from got todo).
Proof. clear Hbucket. destruct todo; simpl; [|done]. intros. split; [done|]. by exists got. Qed.

Lemma run_SinceIndex s dd i k from k' from' :
  cinv s dd → c_threads s !! i = Some (mkThread (CSince k from) (SinceIndex k' from')) → stepped s i.
Proof.
  intros Hinv Hi. pose proof (thread_in _ _ _ _ _ Hinv Hi) as [-> ->].
  destruct (RangeSince_listed (sv_index (c_sv s)) k from (ci_index _ _ Hinv)) as (revs & E & Hlst & _).
  apply (step_local s dd i _ (Ret (since_next from [] revs)) Hinv Hi); cbn [next_pc th_pc]; try done.
  - cbn [run_pc]. unfold gbind, read_tree. by rewrite E.
  - intros ths' _. by apply since_next_ok.
  - by destruct revs.
Qed.

Lemma run_SinceOpen s dd i k from from' got rev todo :
  cinv s dd → c_threads s !! i = Some (mkThread (CSince k from) (SinceOpen from' got rev todo)) →
  stepped s i.
Proof.
  intros Hinv Hi. pose proof (thread_in _ _ _ _ _ Hinv Hi) as (-> & Hgot & Hlst).
  pose proof (Forall_inv Hlst) as [Hix _]. pose proof (ci_described _ _ Hinv) as [Hst _].
  destruct (open_indexed s dd k rev Hinv Hix) as [(v & x & d & w' & Hv & Hx & E & Hr & He & Hd)|[Hdel E]].
  - apply (step_store s dd i _ (Ret (SinceRead from got rev todo d)) w' Hinv Hi); simpl; try done.
    + unfold gbind. by rewrite E.
    + intros ths' Hl. split_and!; [done|by eapply got_ok_later|done|eauto with rkv|by exists x].
  - apply (step_local s dd i _ (Fail "no stores in the revision") Hinv Hi); simpl; try done.
    + unfold gbind. by rewrite E.
    + intros ths' Hl. split; [done|]. intros [_ Hno]. eauto with rkv.
Qed.

Lemma read_got s dd k from got rev todo d v :
  cinv s dd → mkThread (CSince k from) (SinceRead from got rev todo d) ∈ c_threads s →
  (Database_Get d (Revision_String rev) (store (sv_gw (c_sv s)))).1 = Ret v →
  Forall (got_ok (sv_index (c_sv s)) (c_threads s) k from) (got ++ [(rev, v)]).
Proof.
  intros Hinv Hin Ev. destruct (ci_threads _ _ Hinv _ Hin) as (_ & Hgot & Hlst & [v0 Hv0] & x & Htgt & Hr).
  destruct (read_written s dd k v0 rev d x Hinv (completed_written _ _ _ _ Hv0) Htgt Hr) as [_ Hval].
  apply Forall_app. split; [done|]. apply Forall_singleton. split; [by apply Forall_inv in Hlst|].
  split; [by exists v0|]. by apply Hval.
Qed.

Lemma run_SinceRead s dd i k from from' got rev todo d :
  cinv s dd → c_threads s !! i = Some (mkThread (CSince k from) (SinceRead from' got rev todo d)) →
  stepped s i.
Proof.
  intros Hinv Hi. pose proof (thread_in _ _ _ _ _ Hinv Hi) as (-> & Hgot & Hlst & [v0 Hv0] & x & Htgt & Hr).
  pose proof (ci_described _ _ Hinv) as [Hst _]. apply Forall_cons in Hlst as [Hlst Htodo].
  destruct (st_get_no_panic _ d x (Revision_String rev) Hst Hr) as (Hnp & He & Hd).
  destruct (read_written s dd k v0 rev d x Hinv (completed_written _ _ _ _ Hv0) Htgt Hr) as [Hcalm _].
  pose proof (λ v, read_got s dd k from got rev todo d v Hinv (list_elem_of_lookup_2 _ _ _ Hi)) as Hnew.
  destruct (Database_Get d (Revision_String rev) (store (sv_gw (c_sv s)))) as [res w'] eqn:E.
  cbn [fst snd] in *.
  apply (step_store s dd i _ (match res with
     | Ret v => Ret (since_next from (got ++ [(rev, v)]) todo)
     | Fail e => Fail e | Panic w => Panic w end) w' Hinv Hi); try done.
  - simpl. unfold gbind, on_gw, on_store. rewrite E. by destruct res.
  - intros ths' Hl. destruct res as [v|e|w]; [..|done]; cbn [next_pc th_pc].
    + apply since_next_ok; [|done]. by eapply got_ok_later; [..|apply Hnew].
    + split; [done|]. intros Hc. assert (calm (c_threads s) k) as Hc' by eauto with rkv.
      by apply Hcalm in Hc'.
  - destruct res; [by destruct todo|done..].
Qed.

Lemma run_since s dd i k from p :
  cinv s dd → c_threads s !! i = Some (mkThread (CSince k from) p) → stepped s i.
Proof.
  intros Hinv Hi. pose proof (thread_in _ _ _ _ _ Hinv Hi) as Hok.
  destruct p; try done; eauto using run_SinceIndex, run_SinceOpen, run_SinceRead, run_replied.
Qed.

(** When the synchronous goroutines are done, the value is where reads look for it. *)
Lemma waited s dd ids x key v :
  cinv s dd → (all_done ids (c_sv s)).1 = Ret true → ¬ will_store dd ids x key v.
Proof.
  intros Hinv [= Hall] (id & ns & Hid & Hdd & Hx). rewrite forallb_forall in Hall.
  specialize (Hall id (proj1 (list_elem_of_In _ _) Hid)).
  pose proof (ci_described _ _ Hinv) as [_ HF].
  destruct (Forall2_lookup_r _ _ _ _ _ HF Hdd) as (g & Hg & Hw).
  rewrite Hg in Hall. destruct g; try done. cbn [snd] in Hw. inversion Hw; subst. by apply elem_of_nil in Hx.
Qed.

(** *** Writes, with an assumed revision or without *)

Section write.
Context (s : csys) (dd : list (op * list string)) (i : nat) (c : call) (k v : string).
Context (Hinv : cinv s dd) (Hw : writes c = Some (k, v)).

Lemma write_in p :
  c_threads s !! i = Some (mkThread c p) →
  write_ok (sv_index (c_sv s)) (sv_gw (c_sv s)) k v (assumes c) p.
Proof. intros Hi. apply (thread_ok_writes _ _ (c_threads s) c p k v Hw). by eapply thread_in. Qed.

Lemma run_PutAdd k' v' a :
  counter (sv_index (c_sv s)) < 2^63 - 2 →
  c_threads s !! i = Some (mkThread c (PutAdd k' v' a)) → stepped s i.
Proof.
  intros Hc Hi. pose proof (write_in _ Hi) as (-> & -> & ->).
  pose proof (ci_index _ _ Hinv) as (_ & Hc0 & _).
  apply (step_counter s dd i _ (Ret (PutDraw k v (assumes c))) Hinv Hi Hc); cbn [run_pc th_pc]; [..|done].
  - unfold gbind, add_counter. by rewrite uint64_id by word_lia.
  - intros ths' _. rewrite (thread_ok_writes _ _ _ _ _ _ _ Hw). split_and!; [done..|]. cbn [counter]. lia.
Qed.

Lemma run_PutDraw k' v' a :
  counter (sv_index (c_sv s)) < 2^63 - 2 →
  c_threads s !! i = Some (mkThread c (PutDraw k' v' a)) → stepped s i.
Proof.
  intros Hc Hi. pose proof (write_in _ Hi) as (-> & -> & -> & Hpos).
  apply (step_local s dd i _ (Ret (PutPlace k v (assumes c) (counter (sv_index (c_sv s))))) Hinv Hi);
    cbn [next_pc th_pc]; try done.
  - simpl. unfold gbind, read_counter. by rewrite int64_id by word_lia.
  - intros ths' _. by rewrite (thread_ok_writes _ _ _ _ _ _ _ Hw).
  - intros ???? _ Hp. by apply not_past_wait in Hp.
Qed.

Lemma run_PutPlace k' v' a n :
  c_threads s !! i = Some (mkThread c (PutPlace k' v' a n)) → stepped s i.
Proof.
  intros Hi. pose proof (write_in _ Hi) as (-> & -> & -> & Hn).
  assert (∃ b, getPrimaryRevBytesWithBucket (mkHandler hm conf (SyncAsyncPiping T)) (NewRevision n 0 []) = Ret b)
    as [b Eb].
  { unfold getPrimaryRevBytesWithBucket. cbn [Handler.conf]. rewrite (proj2 (Z.eqb_neq _ _) Hbucket). by eexists. }
  destruct (ci_place _ _ Hinv b) as (ns & Ens & Hns).
  set (rev := mkRevision n 0 ns). set (o := OpPut (Revision_String rev) v).
  destruct (start_op_spec (c_sv s) dd rev o (ci_described _ _ Hinv) Hns)
    as (gs & ids & new & E & Hd & Hnew & Hids).
  apply (step_start s dd i _ rev o (PutWait k v (assumes c) rev ids) ids gs new Hinv Hi); try done.
  - cbn [run_pc th_pc]. unfold gbind, glift, try. rewrite Eb, Ens.
    change (Revision_SetNodes (NewRevision n 0 []) ns) with rev. fold o. by rewrite E.
  - cbn [th_call]. by rewrite Hw.
  - intros ths' Hl Hin. rewrite (thread_ok_writes _ _ _ _ _ _ _ Hw). split; [|done].
    intros _. exists k, n. split; [|done]. by eexists.
  - cbn [th_call]. intros k0 v0 E0. rewrite Hw in E0. by simplify_eq.
Qed.

Lemma run_PutWait k' v' a rev ids :
  c_threads s !! i = Some (mkThread c (PutWait k' v' a rev ids)) → stepped s i.
Proof.
  intros Hi. pose proof (write_in _ Hi) as (-> & -> & -> & Hrev).
  destruct (all_done ids (c_sv s)) as [[[]| |] sv] eqn:E; inversion E; subst sv.
  - apply (step_local s dd i _ (Ret (PutIndex k v (assumes c) rev)) Hinv Hi); cbn [next_pc th_pc]; try done.
    + simpl. unfold gbind. by rewrite E.
    + intros ths' _. by rewrite (thread_ok_writes _ _ _ _ _ _ _ Hw).
    + cbn [th_call]. intros k0 v0 rev0 x E0 Hp%past_wait_tag Hcalm Hx. rewrite Hw in E0. simplify_eq/=.
      destruct (ci_waiting _ _ Hinv _ k0 v0 (assumes c) rev0 ids x (list_elem_of_lookup_2 _ _ _ Hi)) as [?|Hs]; try done.
      exfalso. eapply waited; [done| |exact Hs]. by rewrite E.
  - apply (step_local s dd i _ (Ret (PutWait k v (assumes c) rev ids)) Hinv Hi); cbn [next_pc th_pc]; try done.
    + simpl. unfold gbind. by rewrite E.
    + intros ths' _. by rewrite (thread_ok_writes _ _ _ _ _ _ _ Hw).
    + intros ???? _ Hp. by apply not_past_wait in Hp.
Qed.

(** The value is stored: it stays so at the points that follow. *)
Lemma stored_at p rev :
  c_threads s !! i = Some (mkThread c p) → past_wait p rev →
  ∀ k0 v0 p' r x, writes c = Some (k0, v0) → past_wait p' r → pc_tag p' = Some rev →
    calm (c_threads s) k0 → sa_target r x →
    st_data (store (sv_gw (c_sv s))) x !! Revision_String r = Some v0.
Proof.
  intros Hi Hp k0 v0 p' r x E0 Hp'%past_wait_tag Ht Hcalm Hx. rewrite Ht in Hp'. injection Hp' as <-.
  apply (ci_durable _ _ Hinv k0 v0 rev x Hcalm); [|done].
  eexists. split_and!; [by eapply list_elem_of_lookup_2|done|done].
Qed.

(** The comparison of an update: it goes on when the revision it assumes is the latest. *)
Lemma compare_ok a :
  match compare_latest k a (tree (sv_index (c_sv s))) with
  | Ret _ => compared (sv_index (c_sv s)) k (Some a)
  | Fail e => e = ErrRevisionNotFound ∨ e = ErrRevAssumed
  | Panic _ => False
  end.
Proof.
  pose proof (ci_index _ _ Hinv) as Hok. unfold compare_latest. rewrite tree_Get_map by done.
  destruct (bt_map (tree (sv_index (c_sv s))) !! k) as [ki|] eqn:Ek; [|by left].
  destruct (Z.eqb_spec (main (modified ki)) a) as [<-|]; [|by right]. simpl.
  intros n [= <-]. exists (modified ki). split; [|done]. exists ki. split; [done|].
  by eapply modified_indexed.
Qed.

Lemma run_PutIndex_assumed k' v' a rev :
  c_threads s !! i = Some (mkThread c (PutIndex k' v' (Some a) rev)) → stepped s i.
Proof.
  intros Hi. pose proof (write_in _ Hi) as (-> & -> & Ea & Hrev). pose proof (compare_ok a) as Hcmp.
  destruct (compare_latest k a (tree (sv_index (c_sv s)))) as [[]|e|why] eqn:E; [| |done].
  - apply (step_local s dd i _ (Ret (UpdWrite k v rev)) Hinv Hi); cbn [next_pc th_pc]; try done.
    + simpl. unfold gbind, read_tree. by rewrite E.
    + intros ths' _. rewrite (thread_ok_writes _ _ _ _ _ _ _ Hw), <- Ea. by split_and!.
    + intros k0 v0 r x E0 Hp. eapply (stored_at _ rev Hi); [left; by eexists _, _, _|done|exact Hp|done].
  - apply (step_local s dd i _ (Fail e) Hinv Hi); cbn [next_pc th_pc]; try done.
    + simpl. unfold gbind, read_tree. by rewrite E.
    + intros ths' _. rewrite (thread_ok_writes _ _ _ _ _ _ _ Hw), <- Ea. exists rev. by split_and!.
    + intros k0 v0 r x E0 Hp. eapply (stored_at _ rev Hi); [left; by eexists _, _, _|done|exact Hp|done].
Qed.

(** The revision goes into the index. *)
Lemma step_put p rev :
  let idx := sv_index (c_sv s) in
  let p' := Replied (Some rev) (Ret (stored_text k v (uint64 (main rev)) (Join "," (nodes rev)))) in
  counter idx < 2^63 - 2 → c_threads s !! i = Some (mkThread c p) → past_wait p rev →
  rev_ok idx (sv_gw (c_sv s)) rev → compared idx k (assumes c) →
  run_pc hm conf T p (c_sv s) = (Ret p', mkServer (treeIndex_Put k rev idx).2 (sv_gw (c_sv s))) → stepped s i.
Proof.
  intros idx p' Hc Hi Hp Hrev Hcmp E. pose proof (ci_index _ _ Hinv) as Hok.
  set (idx' := (treeIndex_Put k rev idx).2) in *.
  destruct (take_run s i _ (Ret p') (mkServer idx' (sv_gw (c_sv s))) Hi E) as [Ht Hl].
  pose proof (insert_later _ _ _ _ Hi Hl) as Hal. pose proof (ci_described _ _ Hinv) as [Hst _].
  apply (stepped_intro s i _ dd Hi). rewrite Ht, <- (app_nil_r dd). cbn [next_pc th_call] in *.
  assert (grows (c_sv s) (mkServer idx' (sv_gw (c_sv s)))) as Hg.
  { split_and!; [|intros k0 r Hr; apply indexed_put; auto|done]. apply put_counter_grows; [done|fold idx; lia]. }
  apply (cinv_run s dd i (mkThread c p)); cbn [sv_index sv_gw th_call]; try done.
  - apply treeIndex_Put_ok; [done|]. destruct Hrev as (? & ? & _). split_and!; [lia..|done|]. fold idx. lia.
  - rewrite app_nil_r. apply Hinv.
  - intros k0 r [[-> ->]|Hr]%indexed_put; [right|by left|done].
    split; [apply Hrev|]. left. eexists v, (mkThread c p'), _. split_and!; [|done|done].
    eapply list_elem_of_lookup_2, list_lookup_insert_eq. by eapply lookup_lt_Some.
  - intros k0 ki Hn Hki. eapply single_put; [done..|]. intros ki0. apply (ci_single _ _ Hinv). eauto with rkv.
  - rewrite (thread_ok_writes _ _ _ _ _ _ _ Hw). exists rev. split_and!; [done|by apply (rev_ok_grows (c_sv s) _ rev Hg)|apply indexed_put; auto|by apply (compared_grows (c_sv s) _ _ _ Hg)|done].
  - intros k0 v0 r x E0 Hp0 Hcalm Hx. by apply (stored_at p rev Hi Hp k0 v0 p' r x); eauto with rkv.
Qed.

Lemma put_run (k0 v0 : string) rev :
  (do! _ <- on_index (treeIndex_Put k0 rev);
   gret (Replied (Some rev) (Ret (stored_text k0 v0 (uint64 (main rev)) (Join "," (Revision_GetNodes rev)))))) (c_sv s) =
  (Ret (Replied (Some rev) (Ret (stored_text k0 v0 (uint64 (main rev)) (Join "," (nodes rev))))),
   mkServer (treeIndex_Put k0 rev (sv_index (c_sv s))).2 (sv_gw (c_sv s))).
Proof.
  clear Hinv Hw. unfold gbind, on_index. pose proof (treeIndex_Put_ret k0 rev (sv_index (c_sv s))) as Hr.
  destruct (treeIndex_Put k0 rev _) as [r x]. simpl in Hr. by subst r.
Qed.

Lemma run_PutIndex k' v' a rev :
  counter (sv_index (c_sv s)) < 2^63 - 2 →
  c_threads s !! i = Some (mkThread c (PutIndex k' v' a rev)) → stepped s i.
Proof.
  intros Hc Hi. destruct a as [a|]; [by eapply run_PutIndex_assumed|].
  pose proof (write_in _ Hi) as (-> & -> & Ea & Hrev).
  apply (step_put (PutIndex k v None rev) rev Hc Hi); [left; by eexists _, _, _|done| |apply put_run].
  rewrite <- Ea. by intros n ?.
Qed.

Lemma run_UpdWrite k' v' rev :
  counter (sv_index (c_sv s)) < 2^63 - 2 →
  c_threads s !! i = Some (mkThread c (UpdWrite k' v' rev)) → stepped s i.
Proof.
  intros Hc Hi. pose proof (write_in _ Hi) as (-> & -> & _ & Hrev & Hcmp).
  apply (step_put (UpdWrite k v rev) rev Hc Hi); [right; left; by eexists _, _|done|done|apply put_run].
Qed.

Lemma run_write p :
  counter (sv_index (c_sv s)) < 2^63 - 2 → c_threads s !! i = Some (mkThread c p) → stepped s i.
Proof.
  intros Hc Hi. pose proof (write_in _ Hi) as Hok.
  destruct p; try done;
    eauto using run_PutAdd, run_PutDraw, run_PutPlace, run_PutWait, run_PutIndex, run_UpdWrite, run_replied.
Qed.
End write.

(** *** Deletions *)

Lemma run_DelIndex s dd i k k' :
  cinv s dd → c_threads s !! i = Some (mkThread (CDelete k) (DelIndex k')) → stepped s i.
Proof.
  intros Hinv Hi. pose proof (thread_in _ _ _ _ _ Hinv Hi) as Hk. cbn in Hk. subst k'.
  destruct (Get_cases (sv_index (c_sv s)) k (ci_index _ _ Hinv)) as [(rev & cr & v & E & Hx)|E].
  - apply (step_local s dd i _ (Ret (DelStores k rev)) Hinv Hi); simpl; try done.
    unfold gbind, read_tree. by rewrite E.
  - apply (step_local s dd i _ (Fail ErrRevisionNotFound) Hinv Hi); simpl; try done.
    unfold gbind, read_tree. by rewrite E.
Qed.

Lemma run_DelStores s dd i k k' rev :
  cinv s dd → c_threads s !! i = Some (mkThread (CDelete k) (DelStores k' rev)) → stepped s i.
Proof.
  intros Hinv Hi. pose proof (thread_in _ _ _ _ _ Hinv Hi) as Hk. cbn in Hk. destruct Hk as [-> Hx].
  destruct (ci_found _ _ Hinv k rev Hx) as [Hsub [[v Hv]|[Hn _]]].
  - destruct (written_ok s dd k v rev Hinv (completed_written _ _ _ _ Hv)) as (_ & _ & Hns).
    destruct (start_op_spec (c_sv s) dd rev (OpDelete (Revision_String rev)) (ci_described _ _ Hinv) Hns)
      as (gs & ids & new & E & Hd & Hnew & Hids).
    apply (step_start s dd i _ rev (OpDelete (Revision_String rev)) (DelWait k rev ids) ids gs new Hinv Hi); try done.
    + cbn [run_pc th_pc]. unfold gbind, try. by rewrite E.
    + intros ths' Hl Hin. split; [|done]. intros _. exists k, v, (main rev). split_and!; [|by eauto using written_claims, completed_written with rkv|done].
      by exists (mkThread (CDelete k) (DelWait k rev ids)).
  - apply (step_local s dd i _ (Ret (DelAdd k rev (Some "no stores in the revision"))) Hinv Hi);
      cbn [next_pc th_pc]; try done.
    cbn [run_pc]. unfold gbind, try, start_op, glift, gbind, Revision_GetNodes. by rewrite Hn.
Qed.

Lemma run_DelWait s dd i k k' rev ids :
  cinv s dd → c_threads s !! i = Some (mkThread (CDelete k) (DelWait k' rev ids)) → stepped s i.
Proof.
  intros Hinv Hi. pose proof (thread_in _ _ _ _ _ Hinv Hi) as Hk. cbn in Hk. destruct Hk as [-> Hsub].
  destruct (all_done ids (c_sv s)) as [[b| |] sv] eqn:E; inversion E; subst sv.
  apply (step_local s dd i _ (Ret (if b then DelAdd k rev None else DelWait k rev ids)) Hinv Hi);
    destruct b; cbn [next_pc th_pc]; try done; simpl; unfold gbind; by rewrite E.
Qed.

Lemma run_DelAdd s dd i k k' rev err :
  cinv s dd → counter (sv_index (c_sv s)) < 2^63 - 2 →
  c_threads s !! i = Some (mkThread (CDelete k) (DelAdd k' rev err)) → stepped s i.
Proof.
  intros Hinv Hc Hi. pose proof (thread_in _ _ _ _ _ Hinv Hi) as Hk. cbn in Hk. destruct Hk as [-> Hsub].
  pose proof (ci_index _ _ Hinv) as (_ & Hc0 & _).
  apply (step_counter s dd i _ (Ret (DelDraw k rev err)) Hinv Hi Hc); cbn [run_pc th_pc]; [..|done].
  - unfold gbind, add_counter. by rewrite uint64_id by word_lia.
  - intros ths' _. split_and!; [done|done|]; cbn [counter]; lia.
Qed.

Lemma run_DelDraw s dd i k k' rev err :
  cinv s dd → counter (sv_index (c_sv s)) < 2^63 - 2 →
  c_threads s !! i = Some (mkThread (CDelete k) (DelDraw k' rev err)) → stepped s i.
Proof.
  intros Hinv Hc Hi. pose proof (thread_in _ _ _ _ _ Hinv Hi) as Hk. cbn in Hk.
  destruct Hk as (-> & Hsub & Hpos).
  apply (step_local s dd i _ (Ret (DelTomb k rev err (counter (sv_index (c_sv s))))) Hinv Hi);
    cbn [next_pc th_pc]; try done.
  simpl. unfold gbind, read_counter. by rewrite int64_id by word_lia.
Qed.

Lemma DelTomb_step k rev err n sv :
  ti_ok (sv_index sv) → sub rev = 0 →
  ∃ res, no_panic res ∧ run_pc hm conf T (DelTomb k rev err n) sv =
    (Ret (Replied None res),
     mkServer (treeIndex_Tombstone k (mkRevision n 0 []) (sv_index sv)).2 (sv_gw sv)).
Proof.
  intros Hok Hsub. cbn [run_pc]. unfold gbind, try, on_index, Revision_GetSub, NewRevision. rewrite Hsub.
  pose proof (treeIndex_Tombstone_no_panic (sv_index sv) k (mkRevision n 0 []) Hok) as Hnp.
  destruct (treeIndex_Tombstone _ _ _) as [[] x]; try done; eexists; (split; [|done]); by destruct err.
Qed.

Lemma run_DelTomb s dd i k k' rev err n :
  cinv s dd → counter (sv_index (c_sv s)) < 2^63 - 2 →
  c_threads s !! i = Some (mkThread (CDelete k) (DelTomb k' rev err n)) → stepped s i.
Proof.
  intros Hinv Hc Hi. pose proof (thread_in _ _ _ _ _ Hinv Hi) as Hk. cbn in Hk.
  destruct Hk as (-> & Hsub & Hn). pose proof (ci_index _ _ Hinv) as Hok.
  pose proof (tombstone_index _ k n Hok) as (Ec & Hkeep & Hnew & Hoth & _).
  destruct (DelTomb_step k rev err n (c_sv s) Hok Hsub) as (res & Hnp & E).
  destruct (take_run s i _ _ _ Hi E) as [Ht Hl].
  pose proof (insert_later _ _ _ _ Hi Hl) as Hal. pose proof (ci_described _ _ Hinv) as [Hst _].
  apply (stepped_intro s i _ dd Hi). rewrite Ht, <- (app_nil_r dd). cbn [next_pc th_call] in *.
  set (ths' := <[i := _]> (c_threads s)) in *.
  assert (deleting ths' k) as Hdel.
  { exists (mkThread (CDelete k) (Replied None res)). split; [|done].
    eapply list_elem_of_lookup_2, list_lookup_insert_eq. by eapply lookup_lt_Some. }
  apply (cinv_run s dd i (mkThread (CDelete k) (DelTomb k rev err n))); cbn [sv_index sv_gw th_call]; try done.
  - split_and!; [cbn [sv_index]; lia|done..].
  - apply treeIndex_Tombstone_ok; [done|]. split_and!; [cbn; lia..|done|]. lia.
  - rewrite app_nil_r. apply Hinv.
  - intros k0 r [Hr|[-> ->]]%Hnew; [by left|right]. split; [done|]. by right.
  - intros k0 ki Hnd Hki. apply (ci_single _ _ Hinv k0); [eauto with rkv|].
    rewrite <- Hoth; [done|]. by intros ->.
Qed.

Lemma run_delete s dd i k p :
  cinv s dd → counter (sv_index (c_sv s)) < 2^63 - 2 →
  c_threads s !! i = Some (mkThread (CDelete k) p) → stepped s i.
Proof.
  intros Hinv Hc Hi. pose proof (thread_in _ _ _ _ _ Hinv Hi) as Hok.
  destruct p; try done;
    eauto using run_DelIndex, run_DelStores, run_DelWait, run_DelAdd, run_DelDraw, run_DelTomb, run_replied.
Qed.

(** ** A goroutine goes on *)

(** Nothing in flight spoils a value of a key that is not deleted. *)
Lemma calm_agree s dd k v n x :
  cinv s dd → calm (c_threads s) k → claims (c_threads s) k v n → agree x (pretty n) (Some v) dd.
Proof.
  intros Hinv [Hd Hn] Hc. eapply Forall_impl; [exact (ci_ops _ _ Hinv)|].
  intros [[key v'|key] ns] Hop Hx Hk; cbn [fst snd op_key op_result] in *; subst key.
  - destruct Hop as (k' & n' & Hc' & E%(inj pretty)); [by destruct ns; [apply elem_of_nil in Hx|]|].
    subst n'. destruct (claims_unique _ _ _ _ _ _ Hd Hc Hc') as [_ ->]. done.
  - destruct Hop as (k' & v' & n' & Hdel & Hc' & E%(inj pretty)); [by destruct ns; [apply elem_of_nil in Hx|]|].
    subst n'. destruct (claims_unique _ _ _ _ _ _ Hd Hc Hc') as [-> _]. done.
Qed.

Lemma agree_step w w' dd i o ns ns' x key v :
  dd !! i = Some (o, ns) → agree x key (Some v) dd →
  ((ns' = ns ∧ ∀ m, st_data w' m = st_data w m) ∨ ∃ n, ns = n :: ns' ∧ writes_at w w' n o) →
  (st_data w x !! key = Some v → st_data w' x !! key = Some v) ∧
  ∀ ids, will_store dd ids x key v →
    st_data w' x !! key = Some v ∨ will_store (<[i := (o, ns')]> dd) ids x key v.
Proof.
  intros Hi Ha Hcase. split.
  - intros Hk. destruct Hcase as [[_ Hs]|(n & -> & Hs & Hs')]; [by rewrite Hs|].
    destruct (decide (x = n)) as [->|]; [|by rewrite Hs'].
    rewrite Hs, op_apply_lookup. case_decide; [|done].
    apply (agree_lookup n key (Some v) dd i (o, n :: ns')); [done..|by left|done].
  - intros ids (id & ms & Hid & Hdd & Hx). destruct (decide (id = i)) as [->|Hne].
    2: { right. exists id, ms. by rewrite list_lookup_insert_ne. }
    rewrite Hi in Hdd. simplify_eq. pose proof (lookup_lt_Some _ _ _ Hi) as Hlt.
    destruct Hcase as [[-> _]|(n & -> & Hs & _)].
    { right. exists i, ms. by rewrite list_lookup_insert_eq. }
    apply elem_of_cons in Hx as [->|Hx].
    + left. by rewrite Hs, op_apply_lookup, decide_True.
    + right. exists i, ns'. by rewrite list_lookup_insert_eq.
Qed.

Lemma op_known_less ths o ns n : op_known ths (o, n :: ns) → op_known ths (o, ns).
Proof. intros Hk _. by apply Hk. Qed.

Lemma go_turn s dd i : cinv s dd → ∃ dd', cinv (take_turn hm conf T s (Go i)) dd'.
Proof.
  intros Hinv. simpl. destruct (detached _ !! i) as [g|] eqn:Hg; [|by exists dd].
  destruct (go_step_described _ _ dd i g (ci_described _ _ Hinv) Hg)
    as (o & ns & g' & w' & ns' & Hd & -> & Hdesc & He & Hcase).
  exists (<[i := (o, ns')]> dd).
  pose proof (Forall_lookup_1 _ _ _ _ (ci_ops _ _ Hinv) Hd) as Hop.
  pose proof Hinv as [Hidx _ Hops Hpl Hdata Hfound Hsingle Hths Hdur Hwait Hcr].
  split; cbn [c_sv c_threads c_crash sv_index sv_gw store detached]; try done.
  - apply Forall_insert; [done|]. destruct Hcase as [[-> _]|(n & -> & _)]; [done|by eapply op_known_less].
  - intros b. destruct (Hpl b) as (ms & ? & ?). exists ms. split; [done|]. by eapply sa_nodes_evolves.
  - intros x z v Hz Hv. destruct Hcase as [[_ Hs]|(n & -> & Hs & Hs')]; [rewrite Hs in Hv; eauto|].
    destruct (decide (x = n)) as [->|]; [|rewrite Hs' in Hv by done; eauto].
    rewrite Hs, op_apply_lookup in Hv. case_decide as Hk; [|eauto].
    destruct o as [key v'|key]; simplify_eq/=.
    destruct Hop as (k & m & Hc & E%(inj pretty)); [done|]. subst m. by exists k.
  - intros th Hin. apply (thread_ok_grows (c_sv s) (mkServer (sv_index (c_sv s)) _) (c_threads s));
      [|done|by apply Hths]. by split_and!.
  - intros k v rev x Hc Hw Hx. pose proof (written_claims _ _ _ _ Hw) as Hcl.
    destruct (agree_step _ w' dd i o ns ns' x _ v Hd (calm_agree s dd k v _ x Hinv Hc Hcl) Hcase) as [Hk _].
    by apply Hk, (Hdur k v rev x).
  - intros th k v a rev ids x Hin Hcall Hp Hc Hx.
    assert (claims (c_threads s) k v (main rev)) as Hcl.
    { exists th. split_and!; [done..|]. unfold tagged. by rewrite Hp. }
    destruct (agree_step _ w' dd i o ns ns' x _ v Hd (calm_agree s dd k v _ x Hinv Hc Hcl) Hcase) as [Hk Hw].
    destruct (Hwait th k v a rev ids x) as [?|?]; try done; auto.
Qed.

(** ** A request arrives *)

Lemma arrive_later ths th : all_later ths (ths ++ [th]).
Proof. intros i x Hi. exists x. split; [by apply lookup_app_l_Some|done]. Qed.

Lemma arrive_turn s dd c : cinv s dd → cinv (take_turn hm conf T s (Arrive c)) dd.
Proof.
  intros Hinv. simpl. set (p := start_pc c). set (th := mkThread c p). pose proof (arrive_later (c_threads s) th) as Hl.
  assert (pc_tag p = None ∧ thread_ok (sv_index (c_sv s)) (sv_gw (c_sv s)) (c_threads s ++ [th]) th)
    as [Htag Hth] by by destruct c.
  assert (∀ th', th' ∈ c_threads s ++ [th] → th' ∈ c_threads s ∨ th' = th) as Hcases by set_solver.
  pose proof Hinv as [Hidx Hdesc Hops Hpl Hdata Hfound Hsingle Hths Hdur Hwait Hcr].
  split; cbn [c_sv c_threads c_crash]; try done.
  - eapply Forall_impl; [done|]. intros d. by apply op_known_later.
  - intros x z v Hz [k Hk]%Hdata; [|done]. eauto with rkv.
  - eauto with rkv.
  - intros k ki Hn. apply Hsingle. eauto with rkv.
  - intros th' [Hin| ->]%Hcases; [|done]. apply (thread_ok_grows (c_sv s) (c_sv s) (c_threads s)); auto.
    split_and!; [lia|done|]. by split_and!; [apply Hdesc|..].
  - intros k v rev x Hc (th' & [Hin| ->]%Hcases & Hcall & Hw) Hx.
    + apply (Hdur k v rev x); [by eapply calm_later|by exists th'|done].
    + apply past_wait_tag in Hw. simpl in Hw. congruence.
  - intros th' k v a rev ids x [Hin| ->]%Hcases Hcall Hw Hc Hx.
    + apply (Hwait th' k v a rev ids x); try done. by eapply calm_later.
    + simpl in Hw. rewrite Hw in Htag. done.
Qed.

(** ** Executions *)

Definition ctr (s : csys) : Z := counter (sv_index (c_sv s)).

(** The accesses of the index. *)
Lemma run_pc_index p sv :
  sv_index (run_pc hm conf T p sv).2 =
  match p with
  | PutAdd _ _ _ | DelAdd _ _ _ =>
      mkTreeIndex (tree (sv_index sv)) (uint64 (counter (sv_index sv) + 1))
  | PutIndex k _ None rev | UpdWrite k _ rev => (treeIndex_Put k rev (sv_index sv)).2
  | DelTomb k rev _ n => (treeIndex_Tombstone k (NewRevision n (Revision_GetSub rev) []) (sv_index sv)).2
  | _ => sv_index sv
  end.
Proof.
  clear Hbucket. destruct p; simpl; unfold open_target, gbind, glift, gret, gfail, read_tree, on_gw, on_index, all_done,
    add_counter, read_counter, try, start_op, start_all, gbind, glift; repeat case_match; simplify_eq/=; try done.
Qed.

(** The shared state moves on by a turn. *)
Definition moves (s s' : csys) : Prop :=
  (ctr s ≤ ctr s' ≤ ctr s + 1) ∧ all_later (c_threads s) (c_threads s') ∧
  ∀ k rev, indexed (sv_index (c_sv s)) k rev → indexed (sv_index (c_sv s')) k rev.

Lemma turn_moves s dd t :
  cinv s dd → ctr s < 2^63 - 2 → moves s (take_turn hm conf T s t).
Proof.
  intros Hinv Hc. unfold ctr in Hc. pose proof (ci_index _ _ Hinv) as Hok. pose proof Hok as (_ & Hc0 & _).
  assert (moves s s) as Hrefl by (split_and!; [lia..|done|done]).
  destruct t as [c|i|i]; cbn [take_turn].
  - split_and!; [apply Hrefl..|apply arrive_later|done].
  - destruct (c_threads s !! i) as [[c p]|] eqn:Hi; [|done]. destruct (locked_out _ _); [done|].
    unfold run_thread. cbn [th_pc th_call].
    pose proof (run_pc_index p (c_sv s)) as Hx. pose proof (run_pc_later p (c_sv s) c) as Hl.
    destruct (run_pc hm conf T p (c_sv s)) as [r sv'] eqn:E. cbn [fst snd] in Hx, Hl.
    unfold moves, ctr. cbn [c_sv c_threads]. rewrite Hx.
    pose proof (thread_in _ _ _ _ _ Hinv Hi) as Hth. pose proof (insert_later _ _ _ _ Hi Hl) as Hal.
    destruct p; try by (split_and!; [apply Hrefl..|done|done]).
    + rewrite uint64_id by word_lia. split_and!; cbn [counter]; [lia..|done|done].
    + destruct a; [by split_and!; [apply Hrefl..|done|done]|].
      split; [apply put_counter_grows; [done|lia]|]. split; [done|]. intros k' r0 Hr. apply indexed_put; auto.
    + split; [apply put_counter_grows; [done|lia]|]. split; [done|]. intros k' r0 Hr. apply indexed_put; auto.
    + rewrite uint64_id by word_lia. split_and!; cbn [counter]; [lia..|done|done].
    + destruct c; try done. destruct Hth as (_ & Hsub & _). unfold Revision_GetSub, NewRevision. rewrite Hsub.
      destruct (tombstone_index _ k n Hok) as (-> & Hk & _). split_and!; [lia..|done|done].
  - destruct (detached _ !! i) as [g|] eqn:Hg; [|done].
    destruct (go_step_described _ _ dd i g (ci_described _ _ Hinv) Hg) as (o & ns & g' & w' & ns' & _ & -> & _).
    done.
Qed.

Lemma cinv_turn s dd t :
  cinv s dd → ctr s < 2^63 - 2 → ∃ dd', cinv (take_turn hm conf T s t) dd'.
Proof.
  intros Hinv Hc. destruct t as [c|i|i]; [exists dd; by apply arrive_turn| |by eapply go_turn].
  destruct (c_threads s !! i) as [[c p]|] eqn:Hi; [|exists dd; simpl; by rewrite Hi].
  pose proof (thread_in _ _ _ _ _ Hinv Hi) as Hok. cbn [take_turn]. rewrite Hi.
  destruct (locked_out _ _); [by exists dd|].
  assert (stepped s i) as Hst; [|by apply Hst].
  destruct c as [k|k from|k v|k v a|k]; [by eapply run_get|by eapply run_since|..|by eapply run_delete];
    by eapply run_write; [done| |exact Hc|exact Hi].
Qed.

Definition consistent (s : csys) : Prop := ∃ dd, cinv s dd.

(** Room for the revisions that the turns can draw. *)
Definition room (s : csys) (turns : list turn) : Prop := ctr s + Z.of_nat (length turns) < 2^63 - 2.

Lemma execute_ind (P : csys → Prop) turns s :
  consistent s → room s turns → P s →
  (∀ s t, consistent s → ctr s < 2^63 - 2 → moves s (take_turn hm conf T s t) → consistent (take_turn hm conf T s t) →
     P s → P (take_turn hm conf T s t)) →
  consistent (execute hm conf T turns s) ∧ P (execute hm conf T turns s).
Proof.
  unfold room. revert s. induction turns as [|t turns IH]; intros s Hcon Hroom HP Hstep; [done|].
  cbn [length] in Hroom. destruct Hcon as [dd Hinv].
  destruct (cinv_turn s dd t Hinv) as [dd' Hinv']; [lia|].
  pose proof (turn_moves s dd t Hinv ltac:(lia)) as Hm. pose proof Hm as [Hc _].
  simpl. apply IH; [by exists dd'|lia| |done]. apply Hstep; [by exists dd|lia|done|by exists dd'|done].
Qed.
End invariant.
