(* ===== verification/Linearizable.v ===== *)
(** What holds of every execution of concurrent requests, from the start of the server.

    [concurrent_invariant] and [concurrent_integrity] are safety: no panic, a well-formed
    index, and every value read was written under the revision it is read at.
    [linearizable] is atomicity: for a key that is not deleted, and as long as no two
    writes drew the same revision, the finished operations on the key have an order that
    agrees with real time and in which each read returns the last write before it.

    All but [concurrent_integrity] are about stores that are not in memory, whose maps are
    unprotected, and about executions that are [exclusive]: from the comparison of an update
    to the end of its put, which the code makes under the lock for reading, no other request
    reads the index of the key.

    [concurrent_mixup] shows that the proviso on revisions is needed: the counter is read
    after it is added to, two writes can draw the same revision, and a read can then return
    the value of another key.  [update_race] is an execution that is not exclusive: two
    updates that assume the same revision both succeed.  Termination under a fair schedule
    is in [Progress], what updates guarantee in [Updates]. *)
From Stdlib Require Import Ascii.
From stdpp Require Import base gmap list strings pretty sorting.
From S2P Require Import Prelude GoStd Json Hashing HashingManager Latency Config Revision KeyIndex KeyHistory BTree TreeIndex Database ChainNode Runtime Chain Piping Handler VersionedMap Service Concurrent ConcurrentInv.

Open Scope Z_scope.

(** * An atomic register *)

(** The operations on one key, one at a time: a write, conditional or not, gets a revision
    above the last one, a read returns the last value and its revision. *)
Inductive reg_step : option (string * Z) → call * outcome string → option (string * Z) → Prop :=
  | reg_put reg c k v n places :
      writes c = Some (k, v) → (∀ v' m, reg = Some (v', m) → m < n) →
      reg_step reg (c, Ret (stored_text k v n places)) (Some (v, n))
  | reg_get k v n : reg_step (Some (v, n)) (CGet k, Ret (value_text v n)) (Some (v, n))
  | reg_get_none k : reg_step None (CGet k, Fail ErrRevisionNotFound) None.

Inductive reg_run : option (string * Z) → list (call * outcome string) → Prop :=
  | reg_nil reg : reg_run reg []
  | reg_cons reg e reg' h : reg_step reg e reg' → reg_run reg' h → reg_run reg (e :: h).

(** The answer of a request that is finished. *)
Definition reply {B : BTree} {R : Redigo} (s : csys) (i : nat) : option (call * outcome string) :=
  match c_threads s !! i with
  | Some (mkThread c (Replied _ res)) => Some (c, res)
  | _ => None
  end.

(** No operation on the register: an update that was refused, which has no effect, and a
    read of the history. *)
Definition aside (r : call * outcome string) : bool :=
  match r with (CUpdate _ _ _, Fail _) | (CSince _ _, _) => true | _ => false end.

(** The requests on [k] that are finished, those aside left out. *)
Definition finished_on {B : BTree} {R : Redigo} (k : string) (s : csys) : list nat :=
  filter (λ i, (λ r, (call_key r.1, aside r)) <$> reply s i = Some (k, false)) (seq 0 (length (c_threads s))).

(** * The start *)

Section from_start.
Context `{!GoSort} {B : BTree} {L : BTreeLaws B} `{!Hasher} {R : Redigo}.
Context (hm : HashingManager) (conf : KVConfiguration) {T : string} {SL : StoreLaws T}.

(** Stores that can be opened by the names the placement gives, and hold nothing under a
    revision. *)
Record ready (w : dbworld) : Prop := {
  rd_bucket : BucketSize conf ≠ 0;
  rd_ok : st_ok w;
  rd_place b : ∃ ns, GetNodes hm b = Ret ns ∧ sa_nodes (mkGWorld w []) ns;
  rd_empty x z : 0 < z → st_data w x !! pretty z = None;
}.

(** The state after the turns, from the start. *)
Definition after (turns : list turn) (w : dbworld) : csys :=
  execute hm conf T turns (quiet (start w)).

Definition few (turns : list turn) : Prop := Z.of_nat (length turns) < 2^63 - 2.

Lemma start_consistent w : ready w → consistent hm (quiet (start w)).
Proof.
  intros [_ Hok Hpl He]. exists []. split; simpl.
  - by apply NewTreeIndex_ok.
  - by split; [|constructor].
  - constructor.
  - done.
  - intros x z v Hz Hv. by rewrite He in Hv.
  - intros k rev (ki & Hk & _). simpl in Hk. by rewrite bt_New_map in Hk.
  - intros k ki _ Hk. simpl in Hk. by rewrite bt_New_map in Hk.
  - by intros th ?%elem_of_nil.
  - by intros k v rev x _ (th & ?%elem_of_nil & _).
  - by intros th k v a rev ids x ?%elem_of_nil.
  - done.
Qed.

Lemma after_consistent turns w : ready w → few turns → consistent hm (after turns w).
Proof.
  intros Hr Hf. apply (execute_ind hm conf (rd_bucket _ Hr) (λ _, True)); try done. by apply start_consistent.
Qed.

(** * Real time *)

(** A key with one generation: a read of the index finds the latest revision. *)
Lemma Get_latest idx k :
  ti_ok idx → counter idx < 2^63 →
  (∀ ki, bt_map (tree idx) !! k = Some ki → ∃ g, generations ki = [g]) →
  match treeIndex_Get (tree idx) k 0 with
  | Ret (rev, _, _) => ∀ r, indexed idx k r → main r ≤ main rev
  | _ => ∀ r, ¬ indexed idx k r
  end.
Proof.
  intros Hok Hc Hone. rewrite treeIndex_Get_ki by done. pose proof Hok as (_ & Hc0 & HF).
  destruct (bt_map (tree idx) !! k) as [ki|] eqn:E; cbn [Z.eqb].
  2: { intros r (ki & Hki & _). congruence. }
  destruct (Hone ki eq_refl) as [g Hg]. destruct (HF k ki E) as [Hr [Hcnt _]].
  assert (is_int64 (main (modified ki))) as Hmd.
  { destruct (reach_modified ki Hr) as [->|Hin]; [done|].
    rewrite Forall_forall in Hcnt. destruct (Hcnt _ Hin). word_lia. }
  apply ki_reach_ok in Hr. pose proof Hr as (gs & g' & Eg & _ & Hne & HG).
  rewrite Hg in Eg. destruct gs as [|? [|]]; simplify_eq/=.
  rewrite Forall_singleton in HG. destruct HG as [Hs Hle].
  rewrite int64_id by done. pose proof (keyIndex_get_answer ki (main (modified ki)) Hr) as Ha.
  rewrite (history_snoc ki [] g' Hg) in Ha. cbn [mbind list_bind app] in Ha. rewrite hist_get_open in Ha.
  rewrite filter_all in Ha.
  2: { eapply Forall_impl; [exact Hle|]. intros r Hr'. rev_lia. }
  destruct (last (revs g')) as [rev|] eqn:El; [|by apply last_None in El; destruct Hne].
  destruct Ha as (g0 & n & _ & _ & ->). intros r (ki0 & Hki & Hin). rewrite E in Hki. simplify_eq.
  rewrite Hg in Hin. simpl in Hin. rewrite app_nil_r in Hin.
  apply last_Some in El as [rs El]. rewrite El in Hs, Hin.
  apply elem_of_app in Hin as [Hin|Hin%list_elem_of_singleton]; [|by subst].
  apply StronglySorted_app in Hs as (Hs & _). specialize (Hs r rev Hin ltac:(by left)). rev_lia.
Qed.

(** How the revision of a request comes about. *)
Lemma run_tag p sv :
  main <$> pc_tag (next_pc p (run_pc hm conf T p sv).1) =
  match p with
  | PutDraw _ _ _ => Some (int64 (counter (sv_index sv)))
  | GetIndex k =>
      match treeIndex_Get (tree (sv_index sv)) k 0 with Ret (rev, _, _) => Some (main rev) | _ => None end
  | _ => main <$> pc_tag p
  end.
Proof.
  destruct p; simpl; unfold gbind, glift, gret, gfail, read_tree, on_gw, on_index, on_store, all_done,
    add_counter, read_counter, try, start_op, since_next; repeat case_match; by simplify_eq/=.
Qed.

(** Every revision of [k] in [old], from revision [from] on, is among [revs]. *)
Definition covers (old : csys) (k : string) (from : Z) (revs : list Revision) : Prop :=
  ∀ r, listed (sv_index (c_sv old)) k from r → ∃ r', r' ∈ revs ∧ main r' = main r.

(** A read of the history that came after [old]: the revisions in [old] are among those it
    has read and those it will read. *)
Definition catches_up (old s : csys) (k : string) (from : Z) (p : pc) : Prop :=
  match p with
  | SinceOpen _ got rev todo | SinceRead _ got rev todo _ => covers old k from (got.*1 ++ rev :: todo)
  | Replied _ (Ret t) => ∃ got, t = since_text got from ∧ covers old k from got.*1 ∧
      Forall (got_ok (sv_index (c_sv s)) (c_threads s) k from) got
  | _ => True
  end.

(** A request that came after [old]: it draws a revision above the counter of [old], it
    finds one that is not below those indexed in [old], or it finds all of them. *)
Definition newer (old s : csys) (th : thread) : Prop :=
  match th_call th with
  | CPut _ _ | CUpdate _ _ _ =>
      (∀ n, tagged (th_pc th) n → ctr old < n) ∧ (∀ k v a, th_pc th = PutDraw k v a → ctr old < ctr s)
  | CGet k =>
      ¬ deleting (c_threads s) k →
      (∀ n, tagged (th_pc th) n → ∀ r, indexed (sv_index (c_sv old)) k r → main r ≤ n) ∧
      (∀ res, th_pc th = Replied None res → ∀ r, ¬ indexed (sv_index (c_sv old)) k r)
  | CSince k from => catches_up old s k from (th_pc th)
  | _ => True
  end.

Definition comes_after (old s : csys) : Prop :=
  ctr old ≤ ctr s ∧ (∀ k r, indexed (sv_index (c_sv old)) k r → indexed (sv_index (c_sv s)) k r) ∧
  all_later (c_threads old) (c_threads s) ∧
  ∀ j th, (length (c_threads old) ≤ j)%nat → c_threads s !! j = Some th → newer old s th.

Lemma newer_moves old s s' th : moves s s' → newer old s th → newer old s' th.
Proof.
  intros (Hc & Hl & Hi). unfold newer. destruct (th_call th); [|..|done].
  - intros Hn Hd. apply Hn. eauto with rkv.
  - unfold catches_up. destruct (th_pc th) as [| | | | | | | | | | | | | | | | | |? [t|e|why]]; try done.
    intros (got & -> & ? & ?). exists got. split_and!; [done|done|]. by eapply got_ok_later.
  - intros [Ht Hd]. split; [done|]. intros k0 v0 a0 Hp. specialize (Hd k0 v0 a0 Hp). lia.
  - intros [Ht Hd]. split; [done|]. intros k0 v0 a0 Hp. specialize (Hd k0 v0 a0 Hp). lia.
Qed.

Lemma newer_start old s c : newer old s (mkThread c (start_pc c)).
Proof. by destruct c; unfold newer, tagged. Qed.

Lemma run_draws p sv k v a : next_pc p (run_pc hm conf T p sv).1 = PutDraw k v a → p = PutAdd k v a.
Proof.
  destruct p; simpl; unfold gbind, glift, gret, gfail, read_tree, on_gw, on_index, on_store, all_done,
    add_counter, read_counter, try, start_op, since_next; repeat case_match; by intros; simplify_eq/=.
Qed.

Lemma newer_writes old s c p k v :
  writes c = Some (k, v) →
  newer old s (mkThread c p) ↔
    (∀ n, tagged p n → ctr old < n) ∧ (∀ k v a, p = PutDraw k v a → ctr old < ctr s).
Proof. by destruct c; intros; simplify_eq/=. Qed.

Lemma newer_put old s s' c k v p :
  consistent hm s → ctr s < 2^63 - 2 → ctr old ≤ ctr s → mkThread c p ∈ c_threads s → writes c = Some (k, v) →
  sv_index (c_sv s') = sv_index (run_pc hm conf T p (c_sv s)).2 →
  newer old s (mkThread c p) →
  newer old s' (mkThread c (next_pc p (run_pc hm conf T p (c_sv s)).1)).
Proof.
  intros [dd Hinv] Hc Hold Hin Hw Hidx. rewrite !(newer_writes _ _ c _ k v Hw). intros [Htag Hdraw]. unfold ctr in Hc.
  pose proof (ci_index _ _ _ Hinv) as (_ & Hc0 & _).
  pose proof (ci_threads _ _ _ Hinv _ Hin) as Hok. rewrite (thread_ok_writes _ _ _ _ _ _ _ Hw) in Hok. split.
  - intros n. unfold tagged. rewrite run_tag.
    destruct p as [| | | | | | |k0 v0 a0| | | | | | | | | | |]; try done; try exact (Htag n).
    rewrite int64_id by word_lia. intros [= <-]. by apply (Hdraw k0 v0 a0).
  - intros k0 v0 a0 ->%run_draws. rewrite run_pc_index in Hidx. unfold ctr. rewrite Hidx. cbn [counter].
    rewrite uint64_id by word_lia. unfold ctr in Hold. lia.
Qed.

Lemma newer_get old s s' k p :
  consistent hm s → ctr s < 2^63 - 2 → comes_after old s → mkThread (CGet k) p ∈ c_threads s →
  moves s s' → newer old s (mkThread (CGet k) p) →
  newer old s' (mkThread (CGet k) (next_pc p (run_pc hm conf T p (c_sv s)).1)).
Proof.
  intros [dd Hinv] Hc (_ & Hmono & _) Hin (_ & Hl & _) Hnew Hd. cbn [th_call th_pc] in *.
  assert (¬ deleting (c_threads s) k) as Hnd by eauto with rkv.
  destruct (Hnew Hnd) as [Htag Hnone]. pose proof (ci_threads _ _ _ Hinv _ Hin) as Hok.
  pose proof (run_tag p (c_sv s)) as Hrun.
  unfold tagged in *. cbn [th_pc] in *.
  destruct p as [k'| | | | | | | | | | | | | | | | | |tag res]; try done;
    try (split; [intros n Hn; apply Htag; by rewrite <- Hrun|];
         intros res' E; by rewrite E in Hrun).
  - cbn in Hok. subst k'.
    pose proof (Get_latest (sv_index (c_sv s)) k (ci_index _ _ _ Hinv) ltac:(unfold ctr in Hc; lia)
      (λ ki, ci_single _ _ _ Hinv k ki Hnd)) as Hg.
    rewrite Hrun. split.
    + intros n Hn r Hr%Hmono. destruct (treeIndex_Get _ _ _) as [[[rev cr] v]| |]; simplify_eq. auto.
    + intros res E r Hr%Hmono. rewrite E in Hrun.
      by destruct (treeIndex_Get _ _ _) as [[[rev cr] v]| |]; [|apply (Hg r)..].
Qed.

Lemma covers_next old s' k from got todo :
  covers old k from (got.*1 ++ todo) → Forall (got_ok (sv_index (c_sv s')) (c_threads s') k from) got →
  catches_up old s' k from (since_next from got todo).
Proof.
  destruct todo as [|rev todo]; simpl; [|done]. rewrite app_nil_r. intros Hc HF. by exists got.
Qed.

Lemma newer_since old s s' k from p :
  consistent hm s → comes_after old s → mkThread (CSince k from) p ∈ c_threads s → moves s s' →
  newer old s (mkThread (CSince k from) p) →
  newer old s' (mkThread (CSince k from) (next_pc p (run_pc hm conf T p (c_sv s)).1)).
Proof.
  intros [dd Hinv] (_ & Hmono & _) Hin (_ & Hl & Hi) Hn. unfold newer in *. cbn [th_call th_pc] in *.
  pose proof (ci_threads _ _ _ Hinv _ Hin) as Hok.
  destruct p as [| | |k' from'|from' got rev todo|from' got rev todo d| | | | | | | | | | | | |tag res]; try done; cbn [run_pc].
  - destruct Hok as [-> ->].
    destruct (RangeSince_listed (sv_index (c_sv s)) k from (ci_index _ _ _ Hinv)) as (revs & E & _ & Hall).
    unfold gbind, read_tree. rewrite E. cbn [fst next_pc gret]. apply covers_next; [|constructor].
    intros r [Hr Hle]. apply Hall. split; [auto|done].
  - destruct Hok as (-> & _). unfold gbind, gret. by destruct (open_target T rev (c_sv s)) as [[]].
  - destruct Hok as (-> & Hgot & _). pose proof (λ v, read_got hm s dd k from got rev todo d v Hinv Hin) as Hnew.
    unfold gbind, on_gw, on_store. destruct (Database_Get d _ _) as [[v|e|why] w']; [|done..].
    cbn [fst next_pc gret]. apply covers_next; [|by eapply got_ok_later; [..|apply Hnew]].
    intros r Hr. destruct (Hn r Hr) as (r' & Hr' & ?). exists r'. split; [|done]. rewrite fmap_app. set_solver.
  - cbn [gret fst next_pc]. destruct res as [t|e|why]; [|done..]. destruct Hn as (got & -> & ? & ?).
    exists got. split_and!; [done|done|]. by eapply got_ok_later.
Qed.

Lemma comes_after_turn old s t :
  consistent hm s → ctr s < 2^63 - 2 → moves s (take_turn hm conf T s t) → comes_after old s →
  comes_after old (take_turn hm conf T s t).
Proof.
  intros Hcon Hc Hm Ha. pose proof Hm as (Hc' & Hl & Hidx). pose proof Ha as (Hold & Hmono & Hlater & Hnew).
  split_and!; [lia|auto|by etrans|]. intros j th Hj.
  destruct t as [c|i|i].
  - cbn [take_turn c_threads]. intros [Hth|[_ Hth]]%lookup_app_Some.
    + eapply newer_moves; [exact Hm|by eapply Hnew].
    + apply list_lookup_singleton_Some in Hth as [_ <-]. by apply newer_start.
  - destruct (c_threads s !! i) as [[c p]|] eqn:Hi; [|simpl; rewrite Hi; by apply Hnew].
    cbn [take_turn] in *. rewrite Hi in Hm |- *. destruct (locked_out _ _); [by apply Hnew|].
    destruct (run_pc hm conf T p (c_sv s)) as [r sv'] eqn:E.
    destruct (take_run hm conf s i _ r sv' Hi E) as [Et _]. rewrite Et in Hm |- *. cbn [c_threads th_call th_pc] in *.
    intros [(-> & <- & _)|[_ Hth]]%list_lookup_insert_Some.
    + pose proof (Hnew j _ Hj Hi) as Hn. pose proof (list_elem_of_lookup_2 _ _ _ Hi) as Hin.
      destruct (writes c) as [[k v]|] eqn:Hw; [|destruct c as [k|k from|k v|k v a|k]; [..|done|done|done]].
      2: { pose proof (newer_get old s _ k p Hcon Hc Ha Hin Hm Hn) as Hx. by rewrite E in Hx. }
      2: { pose proof (newer_since old s _ k from p Hcon Ha Hin Hm Hn) as Hx. by rewrite E in Hx. }
      pose proof (λ Ei, newer_put old s (mkSys sv' (<[j := mkThread c (next_pc p r)]> (c_threads s)) (c_crash s))
        c k v p Hcon Hc Hold Hin Hw Ei Hn) as Hx. rewrite E in Hx. by apply Hx.
    + eapply newer_moves; [exact Hm|]. by eapply Hnew.
  - intros Hth. eapply newer_moves; [exact Hm|]. apply (Hnew j); [done|].
    simpl in Hth. by repeat case_match.
Qed.

Lemma comes_after_refl s : comes_after s s.
Proof. split_and!; [lia|done|done|]. intros j th Hj ?%lookup_lt_Some. lia. Qed.

(** An execution goes on. *)
Lemma after_app turns1 turns2 w : after (turns1 ++ turns2) w = execute hm conf T turns2 (after turns1 w).
Proof. unfold after, execute. by rewrite foldl_app. Qed.

Lemma after_ctr turns w : ready w → few turns → ctr (after turns w) ≤ Z.of_nat (length turns).
Proof.
  intros Hr. induction turns as [|t turns IH] using rev_ind; [done|]. unfold few in *.
  rewrite length_app. cbn [length]. intros Hf. rewrite after_app.
  destruct (after_consistent turns w Hr) as [dd Hinv]; [unfold few; lia|].
  destruct (turn_moves hm conf _ _ t Hinv) as [Hc _]; [lia|].
  unfold execute. simpl. lia.
Qed.

Lemma after_since turns1 turns2 w :
  ready w → few (turns1 ++ turns2) → comes_after (after turns1 w) (after (turns1 ++ turns2) w).
Proof.
  intros Hr Hf. rewrite after_app. unfold few in Hf. rewrite length_app in Hf.
  assert (few turns1) as Hf1 by (unfold few; lia).
  pose proof (after_ctr turns1 w Hr Hf1) as Hc.
  apply (execute_ind hm conf (rd_bucket _ Hr) (comes_after (after turns1 w))).
  - by apply after_consistent.
  - unfold room. lia.
  - apply comes_after_refl.
  - intros s t ? ? ? _ ?. by apply comes_after_turn.
Qed.

(** * The order of the operations on a key *)

(** Request [i] is finished before request [j] arrives. *)
Definition precedes (turns : list turn) (w : dbworld) (i j : nat) : Prop :=
  ∃ turns1 turns2, turns = turns1 ++ turns2 ∧ is_Some (reply (after turns1 w) i) ∧
    (length (c_threads (after turns1 w)) ≤ j)%nat.

(** The place of a request: by its revision, a write before the reads of it, and then by
    its arrival. *)
Definition rank (s : csys) (i : nat) : Z :=
  match c_threads s !! i with
  | Some (mkThread c (Replied (Some rev) _)) => if writes c then 2 * main rev else 2 * main rev + 1
  | _ => -1
  end.
Definition ranked (s : csys) (i j : nat) : Prop :=
  rank s i < rank s j ∨ rank s i = rank s j ∧ (i ≤ j)%nat.

#[global] Instance ranked_dec s : RelDecision (ranked s).
Proof. intros i j. unfold ranked. apply _. Defined.
#[global] Instance ranked_total s : Total (ranked s).
Proof. intros i j. unfold ranked. lia. Qed.
#[global] Instance ranked_trans s : Transitive (ranked s).
Proof. intros i j l. unfold ranked. lia. Qed.

Definition is_put (s : csys) (k : string) (i : nat) (v : string) (n : Z) : Prop :=
  ∃ c rev places, c_threads s !! i =
    Some (mkThread c (Replied (Some rev) (Ret (stored_text k v n places)))) ∧
    writes c = Some (k, v) ∧ main rev = n ∧ 0 < n.

Lemma is_put_rank s k i v n : is_put s k i v n → rank s i = 2 * n.
Proof. intros (c & rev & places & E & Hw & <- & _). unfold rank. by rewrite E, Hw. Qed.

Lemma is_put_unique s k i j v v' n :
  distinct (c_threads s) → is_put s k i v n → is_put s k j v' n → i = j ∧ v = v'.
Proof.
  intros Hd (c & rev & p & E & Hw & Hn & _) (c' & rev' & p' & E' & Hw' & Hn' & _).
  assert (i = j) as ->; [|rewrite E in E'; by simplify_eq].
  eapply (Hd i j _ _ k v k v' n E E'); try done; unfold tagged; simpl; by rewrite ?Hn, ?Hn'.
Qed.

Lemma finished_on_spec k s i :
  i ∈ finished_on k s ↔
  ∃ c tag res, c_threads s !! i = Some (mkThread c (Replied tag res)) ∧ call_key c = k ∧ aside (c, res) = false.
Proof.
  unfold finished_on, reply. rewrite list_elem_of_filter, elem_of_seq. split.
  - intros [Hf _]. destruct (c_threads s !! i) as [[c []]|] eqn:E; simplify_eq/=. by eexists _, _, _.
  - intros (c & tag & res & E & Hk & Hr). rewrite E. split; [cbn -[aside]; by rewrite Hk, Hr|]. apply lookup_lt_Some in E. lia.
Qed.

Section at_rest.
Context (s : csys) (dd : list (op * list string)) (k : string).
Context (Hinv : cinv hm s dd) (Hctr : ctr s < 2^63) (Hcalm : calm (c_threads s) k).

Lemma finished_put i c v tag res :
  c_threads s !! i = Some (mkThread c (Replied tag res)) → writes c = Some (k, v) → aside (c, res) = false →
  ∃ n, is_put s k i v n ∧ ∃ places, res = Ret (stored_text k v n places).
Proof.
  intros E Hw Hr. pose proof (thread_in hm _ _ _ _ _ Hinv E) as Hok.
  apply (thread_ok_writes _ _ _ _ _ _ _ Hw) in Hok as (rev & -> & (Hm & _) & Hres).
  destruct res as [t|e|why]; [|by destruct c; destruct Hres as [[? ?] ?]|done]. destruct Hres as (_ & _ & ->).
  unfold ctr in Hctr. rewrite uint64_id in * by word_lia. exists (main rev).
  split; [|by eexists]. eexists c, rev, _. split_and!; [exact E|done|done|lia].
Qed.

Lemma finished_get i tag res :
  c_threads s !! i = Some (mkThread (CGet k) (Replied tag res)) →
  reply s i = Some (CGet k, res) ∧
  ((rank s i = -1 ∧ res = Fail ErrRevisionNotFound) ∨
   ∃ n v j, rank s i = 2 * n + 1 ∧ res = Ret (value_text v n) ∧ is_put s k j v n ∧ j ∈ finished_on k s).
Proof.
  intros E. pose proof (thread_in hm _ _ _ _ _ Hinv E) as Hok. split; [unfold reply; by rewrite E|].
  unfold rank. rewrite E. cbn in Hok.
  destruct res as [t|e|w], tag as [rev|]; try done; [right|by destruct Hok as [_ []]|left; split; [done|by f_equal]].
  destruct Hok as (_ & [v0 Hc0] & v & -> & [[k' Hcl]|[_ Hn]]); [|done].
  pose proof (written_claims _ _ _ _ (completed_written _ _ _ _ Hc0)) as Hcl0.
  destruct (claims_unique _ _ _ _ _ _ (proj1 Hcalm) Hcl0 Hcl) as [_ ->].
  destruct Hc0 as ([c p] & t & [j Hj]%list_elem_of_lookup & Hc & Hp). simpl in Hc, Hp. subst p.
  assert (aside (c, Ret t) = false) as Hr by by destruct c.
  destruct (finished_put j c v0 _ _ Hj Hc Hr) as (n & Hput & _). exists (main rev), v0, j.
  pose proof Hput as (c' & rev' & places & E' & _ & <- & _). rewrite Hj in E'. simplify_eq.
  split_and!; [done|done|done|]. apply finished_on_spec. eexists _, _, _. split_and!; [done| |done].
  by destruct c'; simplify_eq/=.
Qed.

(** The state of the register after the requests [l]: the last of their writes. *)
Definition reg_after (l : list nat) (reg : option (string * Z)) : Prop :=
  (∀ v n, reg = Some (v, n) → ∃ i, i ∈ l ∧ is_put s k i v n) ∧
  ∀ i v n, i ∈ l → is_put s k i v n → ∃ v' m, reg = Some (v', m) ∧ n ≤ m.

Lemma reg_put_next l reg i c v n res places :
  Forall (λ j, ranked s j i) l → i ∉ l → reg_after l reg → is_put s k i v n → writes c = Some (k, v) →
  res = Ret (stored_text k v n places) →
  reg_step reg (c, res) (Some (v, n)) ∧ reg_after (l ++ [i]) (Some (v, n)).
Proof.
  intros HF Hni [Hr Hl] Hp Hw ->. pose proof (is_put_rank _ _ _ _ _ Hp) as Ei. rewrite Forall_forall in HF.
  split; [constructor; [done|]|split].
  - intros v' m E. destruct (Hr v' m E) as (j & Hj & Hpj). pose proof (is_put_rank _ _ _ _ _ Hpj) as Ej.
    destruct (decide (m = n)) as [->|]; [|specialize (HF j Hj); unfold ranked in HF; lia].
    by destruct (is_put_unique s k i j v v' n (proj1 Hcalm) Hp Hpj) as [-> _].
  - intros v' m [= <- <-]. exists i. split; [set_solver|done].
  - intros j v' m [Hj| ->%list_elem_of_singleton]%elem_of_app Hpj.
    + exists v, n. split; [done|]. specialize (HF j Hj). apply is_put_rank in Hpj. unfold ranked in HF. lia.
    + exists v, n. split; [done|]. apply is_put_rank in Hpj. lia.
Qed.

Lemma reg_get_next l l2 reg i tag res :
  finished_on k s ≡ₚ l ++ i :: l2 → Forall (λ j, ranked s j i) l → Forall (ranked s i) l2 →
  reg_after l reg → c_threads s !! i = Some (mkThread (CGet k) (Replied tag res)) →
  reg_step reg (CGet k, res) reg ∧ reg_after (l ++ [i]) reg.
Proof.
  intros Hperm HF HF2 [Hr Hl] E. rewrite Forall_forall in HF. rewrite Forall_forall in HF2. split.
  - destruct (finished_get i tag res E) as [_ [[Ei ->]|(n & v & j & Ei & -> & Hpj & Hj)]].
    + destruct reg as [[v' m]|]; [|constructor]. destruct (Hr v' m eq_refl) as (j & Hj & Hpj).
      specialize (HF j Hj). pose proof Hpj as (? & ? & ? & _ & _ & _ & ?). apply is_put_rank in Hpj.
      unfold ranked in HF. lia.
    + pose proof (is_put_rank _ _ _ _ _ Hpj) as Ej. rewrite Hperm in Hj.
      apply elem_of_app in Hj as [Hj|[->|Hj]%elem_of_cons]; [|lia|specialize (HF2 j Hj); unfold ranked in HF2; lia].
      destruct (Hl j v n Hj Hpj) as (v' & m & -> & Hle). destruct (Hr v' m eq_refl) as (j' & Hj' & Hpj').
      specialize (HF j' Hj'). pose proof (is_put_rank _ _ _ _ _ Hpj') as Ej'. unfold ranked in HF.
      assert (m = n) as -> by lia.
      destruct (is_put_unique s k j j' v v' n (proj1 Hcalm) Hpj Hpj') as [_ ->]. constructor.
  - split; [intros v n Hreg; destruct (Hr v n Hreg) as (j & ? & ?); exists j; set_solver|].
    intros j v n [Hj| ->%list_elem_of_singleton]%elem_of_app Hpj; [eauto|].
    destruct Hpj as (? & ? & ? & E' & Hw & _). rewrite E in E'. by simplify_eq/=.
Qed.

(** In the order of [ranked], the answers are those of a register. *)
Lemma sorted_run l2 l reg :
  finished_on k s ≡ₚ l ++ l2 → StronglySorted (ranked s) (l ++ l2) → reg_after l reg →
  ∃ h, Some <$> h = reply s <$> l2 ∧ reg_run reg h.
Proof.
  revert l reg. induction l2 as [|i l2 IH]; intros l reg Hperm Hs Hreg; [exists []; split; [done|constructor]|].
  assert (NoDup (l ++ i :: l2)) as Hnd by (rewrite <- Hperm; apply NoDup_filter, NoDup_seq).
  assert (i ∈ finished_on k s) as Hi by (rewrite Hperm; set_solver).
  assert (i ∉ l) as Hni by (intros ?; apply NoDup_app in Hnd as (_ & Hx & _); by apply (Hx i); [|left]).
  pose proof Hs as (Hll & _ & [_ HF2]%StronglySorted_inv)%StronglySorted_app.
  assert (Forall (λ j, ranked s j i) l) as HF by (apply Forall_forall; intros j Hj; apply Hll; [done|by left]).
  apply finished_on_spec in Hi as (c & tag & res & E & Hk & Href).
  assert (∃ reg', reg_step reg (c, res) reg' ∧ reg_after (l ++ [i]) reg') as (reg' & Hstep & Hreg').
  { destruct (writes c) as [[k' v]|] eqn:Hw.
    { assert (k' = k) as -> by (by destruct c; simplify_eq/=).
      destruct (finished_put i c v tag res E Hw Href) as (n & Hp & places & ->). exists (Some (v, n)).
      by eapply reg_put_next. }
    destruct c as [k'|k' from|k' v|k' v a|k']; simpl in Hk; subst k'; [|done..|].
    - exists reg. by eapply reg_get_next.
    - destruct Hcalm as [_ []]. eexists. split; [by eapply list_elem_of_lookup_2|done]. }
  rewrite cons_middle, (assoc_L (++)) in Hperm, Hs. destruct (IH (l ++ [i]) reg' Hperm Hs Hreg') as (h & Eh & Hrun).
  exists ((c, res) :: h). split; [|by econstructor]. rewrite !fmap_cons, Eh. f_equal. unfold reply. by rewrite E.
Qed.
End at_rest.

(** The revision of a finished request is in the index, and was drawn. *)
Lemma replied_indexed s dd k th rev res :
  cinv hm s dd → ¬ deleting (c_threads s) k → th ∈ c_threads s → call_key (th_call th) = k →
  th_pc th = Replied (Some rev) res → aside (th_call th, res) = false →
  indexed (sv_index (c_sv s)) k rev ∧ 0 < main rev ≤ ctr s.
Proof.
  intros Hinv Hnd Hin Hk Hp Href.
  assert (indexed (sv_index (c_sv s)) k rev) as Hidx.
  { pose proof (ci_threads _ _ _ Hinv th Hin) as Hok. unfold thread_ok in Hok. rewrite Hp in Hok.
    destruct (th_call th) eqn:E; simpl in Hk; subst k.
    - by destruct res; [destruct Hok|destruct Hok|].
    - by destruct Hok.
    - destruct Hok as (? & [= <-] & _ & Hres). destruct res; [by destruct Hres|by destruct Hres as [[? ?] ?]|done].
    - destruct Hok as (? & [= <-] & _ & Hres). by destruct res; [destruct Hres| |].
    - destruct Hnd. by exists th. }
  split; [done|]. destruct (ci_found _ _ _ Hinv k rev Hidx) as [_ [[v Hc]|[_ ?]]]; [|done].
  by destruct (written_ok hm s dd k v rev Hinv (completed_written _ _ _ _ Hc)).
Qed.

Lemma rank_tag s i c rev res :
  c_threads s !! i = Some (mkThread c (Replied (Some rev) res)) →
  2 * main rev ≤ rank s i ≤ 2 * main rev + 1.
Proof. intros E. unfold rank. rewrite E. destruct c; simpl; lia. Qed.

(** Real time agrees with the order. *)
Lemma precedes_ranked turns w k i j :
  ready w → few turns → ¬ deleting (c_threads (after turns w)) k →
  i ∈ finished_on k (after turns w) → j ∈ finished_on k (after turns w) → precedes turns w i j →
  ¬ ranked (after turns w) j i.
Proof.
  intros Hr Hf Hnd Hi Hj (turns1 & turns2 & -> & [[c0 res0] Hrep] & Hlen).
  pose proof (after_since turns1 turns2 w Hr Hf) as (_ & _ & Hl & Hnew).
  assert (few turns1) as Hf1 by (unfold few in *; rewrite length_app in Hf; lia).
  destruct (after_consistent turns1 w Hr Hf1) as [dd1 Hinv1]. destruct (after_consistent _ w Hr Hf) as [dd Hinv].
  set (s1 := after turns1 w) in *. set (s := after (turns1 ++ turns2) w) in *.
  unfold reply in Hrep. destruct (c_threads s1 !! i) as [[c p]|] eqn:Ei; [|done].
  destruct p as [| | | | | | | | | | | | | | | | | |tag res]; try done. injection Hrep as <- <-.
  destruct (Hl i _ Ei) as ([c' p] & Ei' & Hc & _ & _ & Hp). specialize (Hp tag res eq_refl). simpl in Hc, Hp.
  subst c' p. pose proof (lookup_lt_Some _ _ _ Ei) as Hij.
  apply finished_on_spec in Hi as (c1 & tag1 & res1 & E & Hk & Href). rewrite Ei' in E. injection E as <- <- <-. subst k.
  apply finished_on_spec in Hj as (c' & tag' & res' & Ej & Hk' & Href').
  pose proof (Hnew j _ Hlen Ej) as Hn. pose proof (thread_in hm _ _ _ _ _ Hinv Ej) as Hokj.
  pose proof (thread_in hm _ _ _ _ _ Hinv Ei') as Hoki.
  assert (∀ rev, tag' = Some rev → 0 < main rev) as Hpos.
  { intros rev ->. by destruct (replied_indexed s dd (call_key c) _ rev res' Hinv Hnd (list_elem_of_lookup_2 _ _ _ Ej) Hk' eq_refl Href') as [_ [? _]]. }
  unfold ranked.
  destruct tag as [rev|].
  - assert (¬ deleting (c_threads s1) (call_key c)) as Hnd1 by eauto with rkv.
    destruct (replied_indexed s1 dd1 (call_key c) _ rev res Hinv1 Hnd1 (list_elem_of_lookup_2 _ _ _ Ei) eq_refl eq_refl Href)
      as [Hidx Hctr]. pose proof (rank_tag s i _ _ _ Ei') as Hri.
    destruct tag' as [rev'|].
    + pose proof (rank_tag s j _ _ _ Ej) as Hrj. destruct c' as [k'|k' from|k' v|k' v a|k'].
      * simpl in Hk'. subst k'. destruct (Hn Hnd) as [Ht _]. specialize (Ht (main rev') eq_refl rev Hidx).
        assert (rank s j = 2 * main rev' + 1) by (unfold rank; by rewrite Ej). lia.
      * done.
      * destruct Hn as [Ht _]. specialize (Ht (main rev') eq_refl). lia.
      * destruct Hn as [Ht _]. specialize (Ht (main rev') eq_refl). lia.
      * destruct Hnd. rewrite <- Hk'. eexists. split; [exact (list_elem_of_lookup_2 _ _ _ Ej)|done].
    + destruct c' as [k'|k' from|k' v|k' v a|k']; [|done|by destruct Hokj as (? & ? & _)..|].
      * simpl in Hk'. subst k'. destruct (Hn Hnd) as [_ Hno]. by destruct (Hno res' eq_refl rev).
      * destruct Hnd. rewrite <- Hk'. eexists. split; [exact (list_elem_of_lookup_2 _ _ _ Ej)|done].
  - assert (rank s i = -1) as Eri by (unfold rank; rewrite Ei'; by destruct c).
    destruct tag' as [rev'|].
    + pose proof (rank_tag s j _ _ _ Ej). specialize (Hpos rev' eq_refl). lia.
    + assert (rank s j = -1) as Erj by (unfold rank; rewrite Ej; by destruct c'). lia.
Qed.
End from_start.

(** * Properties *)

Lemma sorted_avoids {A} (P : A → Prop) (R1 R2 : A → A → Prop) l :
  Forall P l → (∀ x y, P x → P y → R1 x y → R2 x y) → StronglySorted R1 l → StronglySorted R2 l.
Proof.
  intros HF Himp Hs. induction Hs as [|x l Hs IH Hx]; constructor; apply Forall_cons in HF as [HPx HF]; [auto|].
  rewrite Forall_forall in *. auto.
Qed.

(** C4. The key-value store over redis is linearizable on every key that is not deleted, as
    long as no two writes drew the same revision and no update is disturbed: when no request
    reads the index of a key while an update of that key compares and puts.  Then, whatever
    the interleaving of the requests, of
    their goroutines and of the deletions of other keys, the finished reads and writes of
    the key -- conditional writes that were not refused among them -- can be put in an
    order that agrees with real time, a request that was answered before another arrived
    comes before it, and in which they get the answers of an atomic register with
    increasing revisions. *)
Theorem linearizable `{!GoSort} {B : BTree} {L : BTreeLaws B} `{!Hasher} {R : Redigo}
    (hm : HashingManager) (conf : KVConfiguration) {T : string} {SL : StoreLaws T} turns w k :
  T ≠ Memory → ready hm conf w → few turns → exclusive hm conf T turns (quiet (start w)) = true →
  calm (c_threads (after hm conf (T:=T) turns w)) k →
  ∃ order h, order ≡ₚ finished_on k (after hm conf (T:=T) turns w) ∧
    StronglySorted (λ i j, ¬ precedes hm conf (T:=T) turns w j i) order ∧
    Some <$> h = reply (after hm conf (T:=T) turns w) <$> order ∧ reg_run None h.
Proof.
  intros _ Hr Hf _ Hcalm. destruct (after_consistent hm conf turns w Hr Hf) as [dd Hinv].
  pose proof (after_ctr hm conf turns w Hr Hf) as Hc. unfold few in Hf.
  set (s := after hm conf turns w) in *. set (order := merge_sort (ranked s) (finished_on k s)).
  assert (order ≡ₚ finished_on k s) as Hperm by apply merge_sort_Permutation.
  assert (StronglySorted (ranked s) order) as Hs by (apply StronglySorted_merge_sort; apply _).
  destruct (sorted_run hm s dd k Hinv ltac:(lia) Hcalm order [] None) as (h & Eh & Hrun); [done|done| |].
  { split; [done|]. by intros i v n ?%elem_of_nil. }
  exists order, h. split_and!; [done| |done|done].
  apply (sorted_avoids (λ i, i ∈ finished_on k s) (ranked s)); [| |done].
  - apply Forall_forall. intros i. by rewrite Hperm.
  - intros i j Hi Hj Hij Hp. by apply (precedes_ranked hm conf turns w k j i Hr Hf (proj2 Hcalm)).
Qed.

(** C5. What every execution over redis keeps in which no update is disturbed, whatever the
    interleaving, also when revisions collide and keys are deleted: nothing crashes and no handler panics; the index is well-formed; a revision in it
    comes from a finished write of its key or, with no stores, from a deletion; a
    finished write is in the index; a write only fails when it assumed a revision, and is
    then refused; and a conditional write that is answered as saved assumed a revision of
    its key. *)
Theorem concurrent_invariant `{!GoSort} {B : BTree} {L : BTreeLaws B} `{!Hasher} {R : Redigo}
    (hm : HashingManager) (conf : KVConfiguration) {T : string} {SL : StoreLaws T} turns w :
  T ≠ Memory → ready hm conf w → few turns → exclusive hm conf T turns (quiet (start w)) = true →
  let s := after hm conf (T:=T) turns w in
  c_crash s = None ∧ (∀ i c e, reply s i ≠ Some (c, Panic e)) ∧ ti_ok (sv_index (c_sv s)) ∧
  (∀ k rev, indexed (sv_index (c_sv s)) k rev → found (c_threads s) k rev) ∧
  (∀ k v rev, completed (c_threads s) k v rev → indexed (sv_index (c_sv s)) k rev) ∧
  (∀ i c e, is_Some (writes c) → reply s i = Some (c, Fail e) →
     is_Some (assumes c) ∧ (e = ErrRevisionNotFound ∨ e = ErrRevAssumed)) ∧
  (∀ i k v a t, reply s i = Some (CUpdate k v a, Ret t) →
     ∃ r, indexed (sv_index (c_sv s)) k r ∧ main r = a).
Proof.
  intros _ Hr Hf _ s. destruct (after_consistent hm conf turns w Hr Hf) as [dd Hinv]. fold s in Hinv.
  assert (∀ i c res, reply s i = Some (c, res) → ∃ tag,
    thread_ok (sv_index (c_sv s)) (sv_gw (c_sv s)) (c_threads s) (mkThread c (Replied tag res))) as Hok.
  { intros i c res. unfold reply. destruct (c_threads s !! i) as [[c' []]|] eqn:E; try done. intros [= -> ->].
    eexists. exact (thread_in hm _ _ _ _ _ Hinv E). }
  split_and!; [apply Hinv| |apply Hinv|apply Hinv|..].
  - intros i c e Hrep. destruct (Hok _ _ _ Hrep) as [tag Hth]. by destruct c; [|destruct Hth|destruct Hth as (? & ? & ? & ?)..|].
  - intros k v rev ([c p] & t & Hin & Hw & Hp). simpl in Hw, Hp. subst p.
    pose proof (ci_threads _ _ _ Hinv _ Hin) as Hth.
    by apply (thread_ok_writes _ _ _ _ _ _ _ Hw) in Hth as (? & [= <-] & _ & ? & _).
  - intros i c e [[k v] Hw] Hrep. destruct (Hok _ _ _ Hrep) as [tag Hth].
    by apply (thread_ok_writes _ _ _ _ _ _ _ Hw) in Hth as (? & _ & _ & ?).
  - intros i k v a t Hrep. destruct (Hok _ _ _ Hrep) as [tag (? & _ & _ & _ & Hcmp & _)]. by apply Hcmp.
Qed.

(** C7. No read invents a value: a read that is answered with a value found a revision
    of a finished write of its key, and the value is that of a write that drew this
    revision -- of this key or, when revisions collide, of another -- or it is what the
    store type returns for an absent value, and then the key was deleted or revisions
    collided. *)
Theorem concurrent_integrity `{!GoSort} {B : BTree} {L : BTreeLaws B} `{!Hasher} {R : Redigo}
    (hm : HashingManager) (conf : KVConfiguration) {T : string} {SL : StoreLaws T} turns w i k t :
  ready hm conf w → few turns →
  let s := after hm conf (T:=T) turns w in
  reply s i = Some (CGet k, Ret t) →
  ∃ rev v, t = value_text v (main rev) ∧ (∃ v0, completed (c_threads s) k v0 rev) ∧
    ((∃ k', claims (c_threads s) k' v (main rev)) ∨ st_absent = Ret v ∧ ¬ calm (c_threads s) k).
Proof.
  intros Hr Hf s Hrep. destruct (after_consistent hm conf turns w Hr Hf) as [dd Hinv]. fold s in Hinv.
  unfold reply in Hrep. destruct (c_threads s !! i) as [[c p]|] eqn:E; [|done].
  destruct p as [| | | | | | | | | | | | | | | | | |tag res]; try done. injection Hrep as -> ->.
  pose proof (thread_in hm _ _ _ _ _ Hinv E) as Hok. cbn in Hok. destruct tag as [rev|]; [|done].
  destruct Hok as (_ & Hc & v & Ht & Hv). by exists rev, v.
Qed.

(** What a write that finished left behind, when revisions do not collide. *)
Lemma completed_unique ths k v rev k' v' rev' :
  distinct ths → completed ths k v rev → completed ths k' v' rev' → main rev' = main rev →
  k' = k ∧ v' = v ∧ rev' = rev.
Proof.
  intros Hd (th & t & [i Hi]%list_elem_of_lookup & Hw & Hp) (th' & t' & [j Hj]%list_elem_of_lookup & Hw' & Hp') E.
  assert (i = j) as ->.
  { eapply (Hd i j th th' k v k' v' (main rev)); try done; unfold tagged; rewrite ?Hp, ?Hp'; simpl; congruence. }
  simplify_eq. split_and!; congruence.
Qed.

(** C8. Reads of the history over redis, whatever the interleaving: on a key that is not
    deleted, and as long as no two writes drew the same revision and no update is disturbed,
    a read of the history does not fail;
    it returns every value that was acknowledged before it arrived, from its revision on,
    and nothing but values of finished writes of the key, each under its revision. *)
Theorem history_reads `{!GoSort} {B : BTree} {L : BTreeLaws B} `{!Hasher} {R : Redigo}
    (hm : HashingManager) (conf : KVConfiguration) {T : string} {SL : StoreLaws T}
    turns1 turns2 w k from i res :
  T ≠ Memory → ready hm conf w → few (turns1 ++ turns2) →
  exclusive hm conf T (turns1 ++ turns2) (quiet (start w)) = true →
  let s1 := after hm conf (T:=T) turns1 w in
  let s := after hm conf (T:=T) (turns1 ++ turns2) w in
  calm (c_threads s) k → (length (c_threads s1) ≤ i)%nat → reply s i = Some (CSince k from, res) →
  ∃ got, res = Ret (since_text got from) ∧
    (∀ v rev, completed (c_threads s1) k v rev → from ≤ main rev → (rev, v) ∈ got) ∧
    (∀ v rev, (rev, v) ∈ got → completed (c_threads s) k v rev ∧ from ≤ main rev).
Proof.
  intros _ Hr Hf _ s1 s Hcalm Hi Hrep.
  assert (few turns1) as Hf1 by (unfold few in *; rewrite length_app in Hf; lia).
  destruct (after_consistent hm conf turns1 w Hr Hf1) as [dd1 Hinv1].
  destruct (after_consistent hm conf _ w Hr Hf) as [dd Hinv]. fold s1 in Hinv1. fold s in Hinv.
  destruct (after_since hm conf turns1 turns2 w Hr Hf) as (_ & _ & Hl & Hnew). fold s1 s in Hl, Hnew.
  unfold reply in Hrep. destruct (c_threads s !! i) as [[c p]|] eqn:E; [|done].
  destruct p as [| | | | | | | | | | | | | | | | | |tag res']; try done. injection Hrep as -> ->.
  pose proof (Hnew i _ Hi E) as Hn. destruct (thread_in hm _ _ _ _ _ Hinv E) as [_ Hok].
  destruct res as [t|e|why]; [|done..]. destruct Hn as (got & -> & Hcov & Hgot).
  assert (∀ rev v, (rev, v) ∈ got → completed (c_threads s) k v rev ∧ from ≤ main rev) as Hsound.
  { intros rev v Hin. rewrite Forall_forall in Hgot. destruct (Hgot _ Hin) as ([_ Hle] & [v0 Hv0] & [[k' Hcl]|[_ []]]); [|done].
    pose proof (written_claims _ _ _ _ (completed_written _ _ _ _ Hv0)) as Hcl0.
    destruct (claims_unique _ _ _ _ _ _ (proj1 Hcalm) Hcl0 Hcl) as [_ E0]. simpl in E0. subst v0. by split. }
  exists got. split_and!; [done| |auto].
  intros v rev Hc Hle. assert (indexed (sv_index (c_sv s1)) k rev) as Hidx.
  { destruct Hc as ([c p] & t & Hin & Hw & Hp). simpl in Hw, Hp. subst p.
    pose proof (ci_threads _ _ _ Hinv1 _ Hin) as Hth.
    by apply (thread_ok_writes _ _ _ _ _ _ _ Hw) in Hth as (? & [= <-] & _ & ? & _). }
  destruct (Hcov rev) as (rev' & ([rev0 v'] & -> & Hin)%list_elem_of_fmap & Em); [by split|]. cbn [fst] in Em.
  destruct (Hsound rev0 v' Hin) as [Hc' _].
  destruct (completed_unique _ _ _ _ _ _ _ (proj1 Hcalm) (completed_later _ _ _ _ _ Hl Hc) Hc' Em) as (_ & -> & ->). done.
Qed.

(** * Concrete executions *)

#[local] Existing Instance suffix_Hasher.

Lemma conf_ready `{!GoSort} {B : BTree} {L : BTreeLaws B} `{!Hasher} {R : Redigo}
    {T : string} {SL : StoreLaws T} probe order c w ls rs h :
  GetReplications probe c = Ret (ls, rs) → conf_ok (T:=T) c w (order ls) rs → st_ok w →
  (∀ x z, 0 < z → st_data w x !! pretty z = None) →
  NewKeyValueHandler probe order c = Ret h → ready (T:=T) (Handler.hm h) c w.
Proof.
  intros Hrep [Ht Hm Hp Hb Hz Hrs Hl Hr Hst] Hok He. unfold NewKeyValueHandler.
  rewrite Hrep, !bool_decide_false by done. intros [= <-]. split; [done|done| |done].
  intros b. by apply placement.
Qed.

Definition demo_hm : HashingManager := Handler.hm (handler_of (demo_conf Memory)).

Lemma demo_ready : ready (T:=Memory) demo_hm (demo_conf Memory) (demo_world Memory).
Proof.
  eapply (conf_ready demo_probe demo_order);
    [apply demo_replications|apply demo_conf_ok|apply demo_world_mem_ok|done|].
  by vm_compute.
Qed.

Abbreviation demo_after turns := (after demo_hm (demo_conf Memory) (T:=Memory) turns (demo_world Memory)).

(** The same stores with redis. *)
Definition redis_ls : gmap string (list RkvNode) :=
  match GetReplications demo_probe (demo_conf Redis) with Ret (ls, _) => ls | _ => ∅ end.

Lemma redis_replications : GetReplications demo_probe (demo_conf Redis) = Ret (redis_ls, []).
Proof. vm_compute. reflexivity. Qed.

Lemma redis_conf_ok : conf_ok (T:=Redis) (demo_conf Redis) (demo_world Redis) (demo_order redis_ls) [].
Proof.
  split; [done|done|done|done| |constructor|split; [done|by vm_compute]|by vm_compute|].
  - split; [apply (bool_decide_unpack _); by vm_compute|].
    apply (bool_decide_unpack _). by vm_compute.
  - rewrite app_nil_r.
    apply (Forall_impl (λ n, Name n ≠ "" ∧ str_elem "," (Name n) = false ∧
      Name n ∈ store_url <$> Stores (demo_conf Redis))).
    + apply (bool_decide_unpack _). by vm_compute.
    + intros n (? & ? & ?). split_and!; [done|done|]. split; [done|]. by eexists.
Qed.

Definition redis_hm : HashingManager := Handler.hm (handler_of (demo_conf Redis)).

Lemma redis_ready : ready (T:=Redis) redis_hm (demo_conf Redis) (demo_world Redis).
Proof.
  eapply (conf_ready demo_probe demo_order);
    [apply redis_replications|apply redis_conf_ok|by eexists|done|].
  by vm_compute.
Qed.

Abbreviation redis_after turns := (after redis_hm (demo_conf Redis) (T:=Redis) turns (demo_world Redis)).

(** [calm] by evaluation. *)
Definition put_tag (th : thread) : option Z :=
  if writes (th_call th) then main <$> pc_tag (th_pc th) else None.

Lemma calm_check ths k :
  bool_decide (NoDup (omap put_tag ths)) = true →
  bool_decide (Forall (λ th, match th_call th with CDelete k' => bool_decide (k' = k) | _ => false end = false) ths) = true →
  calm ths k.
Proof.
  intros Hnd%bool_decide_eq_true Hdel%bool_decide_eq_true. split.
  - intros i j th th' k1 v1 k2 v2 n Hi Hj Hc Hc' Ht Ht'.
    assert (∀ a l m, (omap put_tag (take a ths)) ++ l = omap put_tag ths → m ∈ l → m ∈ omap put_tag (take a ths) → False) as Hno.
    { intros a l m El Hl Hta. rewrite <- El in Hnd. apply NoDup_app in Hnd as (_ & Hx & _). by apply (Hx m). }
    assert (∀ a b x y, ths !! a = Some x → ths !! b = Some y → (a < b)%nat → put_tag x = Some n → put_tag y = Some n → False) as Hlt.
    { intros a b x y Ha Hb Hab Hx Hy. apply (Hno b (omap put_tag (drop b ths)) n).
      - by rewrite <- omap_app, take_drop.
      - rewrite (drop_S _ y) by done. simpl. rewrite Hy. by left.
      - apply list_elem_of_omap. exists x. split; [|done]. apply list_elem_of_lookup. exists a.
        by rewrite lookup_take_lt. }
    assert (put_tag th = Some n ∧ put_tag th' = Some n) as [E E'] by (unfold put_tag; by rewrite Hc, Hc').
    destruct (Nat.lt_total i j) as [|[|]]; [|done|]; exfalso; eauto.
  - intros (th & Hin & Hc). rewrite Forall_forall in Hdel. specialize (Hdel th Hin). rewrite Hc in Hdel.
    by rewrite bool_decide_true in Hdel.
Qed.

(** Two writes of one key that overlap, and two reads. *)
Definition demo_gos : list turn := (Go <$> seq 0 8) ++ (Go <$> seq 0 8).
Definition demo_turns : list turn :=
  [Arrive (CPut "k" "1"); Arrive (CPut "k" "2"); Run 0; Run 0; Run 1; Run 1; Run 1; Run 0]%nat ++ demo_gos ++
  [Arrive (CGet "k"); Run 1; Run 1; Run 2; Arrive (CGet "k"); Run 0; Run 0; Run 2; Run 2; Run 3; Run 3; Run 3]%nat.

Lemma linearizable_witness :
  finished_on "k" (redis_after demo_turns) = [0; 1; 2; 3]%nat ∧
  ∃ order h, order ≡ₚ finished_on "k" (redis_after demo_turns) ∧
    StronglySorted (λ i j, ¬ precedes redis_hm (demo_conf Redis) (T:=Redis) demo_turns (demo_world Redis) j i) order ∧
    Some <$> h = reply (redis_after demo_turns) <$> order ∧ reg_run None h.
Proof.
  split; [by vm_compute|].
  apply (linearizable redis_hm (demo_conf Redis) (T:=Redis)); [done|apply redis_ready|done|by vm_compute|].
  apply calm_check; by vm_compute.
Defined.

Lemma concurrent_invariant_witness :
  c_crash (redis_after demo_turns) = None ∧
  (∀ i c e, reply (redis_after demo_turns) i ≠ Some (c, Panic e)) ∧
  ti_ok (sv_index (c_sv (redis_after demo_turns))) ∧
  (∀ k rev, indexed (sv_index (c_sv (redis_after demo_turns))) k rev → found (c_threads (redis_after demo_turns)) k rev) ∧
  (∀ k v rev, completed (c_threads (redis_after demo_turns)) k v rev →
     indexed (sv_index (c_sv (redis_after demo_turns))) k rev) ∧
  (∀ i c e, is_Some (writes c) → reply (redis_after demo_turns) i = Some (c, Fail e) →
     is_Some (assumes c) ∧ (e = ErrRevisionNotFound ∨ e = ErrRevAssumed)) ∧
  (∀ i k v a t, reply (redis_after demo_turns) i = Some (CUpdate k v a, Ret t) →
     ∃ r, indexed (sv_index (c_sv (redis_after demo_turns))) k r ∧ main r = a).
Proof. apply (concurrent_invariant redis_hm (demo_conf Redis) (T:=Redis)); [done|apply redis_ready|done|by vm_compute]. Defined.

Lemma concurrent_integrity_witness :
  ∃ rev v, value_text "2" 2 = value_text v (main rev) ∧
    (∃ v0, completed (c_threads (demo_after demo_turns)) "k" v0 rev) ∧
    ((∃ k', claims (c_threads (demo_after demo_turns)) k' v (main rev)) ∨
     st_absent (T:=Memory) = Ret v ∧ ¬ calm (c_threads (demo_after demo_turns)) "k").
Proof.
  apply (concurrent_integrity demo_hm (demo_conf Memory) (T:=Memory) demo_turns (demo_world Memory) 2);
    [apply demo_ready|done|by vm_compute].
Defined.

(** A write, then a read of the history while another write is in flight. *)
Definition write_turns : list turn :=
  [Arrive (CPut "k" "1"); Run 0; Run 0; Run 0]%nat ++ demo_gos ++ [Run 0; Run 0]%nat.
Definition history_turns : list turn :=
  [Arrive (CPut "k" "2"); Run 1; Run 1; Arrive (CSince "k" 1); Run 2; Run 1; Run 2; Run 2]%nat.

Lemma history_reads_witness :
  ∃ got, Ret (values_text [(1, "1"%string)] 1) = Ret (since_text got 1) ∧
    (∀ v rev, completed (c_threads (redis_after write_turns)) "k" v rev → 1 ≤ main rev → (rev, v) ∈ got) ∧
    (∀ v rev, (rev, v) ∈ got → completed (c_threads (redis_after (write_turns ++ history_turns))) "k" v rev ∧ 1 ≤ main rev).
Proof.
  apply (history_reads redis_hm (demo_conf Redis) (T:=Redis) write_turns history_turns (demo_world Redis) "k" 1 2);
    [done|apply redis_ready|done|by vm_compute| |vm_compute; lia|by vm_compute].
  apply calm_check; by vm_compute.
Defined.

(** Two writes of different keys that overlap in drawing their revisions. *)
Definition mixup_turns : list turn :=
  [Arrive (CPut "a" "1"); Arrive (CPut "b" "2"); Run 0; Run 1; Run 0; Run 1; Run 0; Run 1]%nat ++ demo_gos ++
  [Run 0; Run 0; Run 1; Run 1; Arrive (CGet "a"); Run 2; Run 2; Run 2]%nat.

(** Two overlapping writes can draw the same revision, since the counter is read
    after it is added to and not by the addition; they then use the same key of the
    stores, both are reported as saved, and a later read of the one key returns the value
    of the other. *)
Example concurrent_mixup :
  let s := after demo_hm (demo_conf Memory) (T:=Memory) mixup_turns (demo_world Memory) in
  reply s 0 = Some (CPut "a" "1", Ret (stored_text "a" "1" 2 "store-b,store-a,")) ∧
  reply s 1 = Some (CPut "b" "2", Ret (stored_text "b" "2" 2 "store-b,store-a,")) ∧
  reply s 2 = Some (CGet "a", Ret (value_text "2" 2)) ∧ ¬ distinct (c_threads s).
Proof.
  intros s. split_and!; [by vm_compute..|]. intros Hd.
  assert (0%nat = 1%nat); [|done].
  eapply (Hd 0%nat 1%nat _ _ "a" "1" "b" "2" 2)%string; unfold s; vm_compute; reflexivity.
Qed.

(** Two updates that both assume the revision of an earlier write, and compare before
    either of them puts. *)
Definition race_turns : list turn :=
  [Arrive (CPut "k" "0"); Run 0; Run 0; Run 0]%nat ++ demo_gos ++
  [Run 0; Run 0; Arrive (CUpdate "k" "1" 1); Arrive (CUpdate "k" "2" 1);
   Run 1; Run 1; Run 1; Run 2; Run 2; Run 2]%nat ++ demo_gos ++
  [Run 1; Run 2; Run 1; Run 2; Run 1; Run 2; Arrive (CGet "k"); Run 3; Run 3; Run 3]%nat.

(** Two overlapping updates that assume the same revision can both be answered as
    saved, although revisions do not collide and nothing is deleted: [treeIndex.Update]
    compares and writes under the read lock, so both compare before either writes.  The
    later one overwrites the other, which it did not assume.  The execution is not
    exclusive, and in this one the puts do not overlap. *)
Example update_race :
  let s := after demo_hm (demo_conf Memory) (T:=Memory) race_turns (demo_world Memory) in
  reply s 0 = Some (CPut "k" "0", Ret (stored_text "k" "0" 1 "store-b,store-a,")) ∧
  reply s 1 = Some (CUpdate "k" "1" 1, Ret (stored_text "k" "1" 3 "store-b,store-a,")) ∧
  reply s 2 = Some (CUpdate "k" "2" 1, Ret (stored_text "k" "2" 4 "store-b,store-a,")) ∧
  reply s 3 = Some (CGet "k", Ret (value_text "2" 4)) ∧ calm (c_threads s) "k" ∧
  exclusive demo_hm (demo_conf Memory) Memory race_turns (quiet (start (demo_world Memory))) = false.
Proof. intros s. split_and!; [by vm_compute..| |by vm_compute]. apply calm_check; by vm_compute. Qed.

(** A write that drew its revision before an update, and puts it after. *)
Definition overlook_turns : list turn :=
  [Arrive (CPut "k" "0"); Run 0; Run 0; Run 0]%nat ++ demo_gos ++
  [Run 0; Run 0; Arrive (CPut "k" "1"); Run 1; Run 1; Run 1;
   Arrive (CUpdate "k" "2" 1); Run 2; Run 2; Run 2]%nat ++ demo_gos ++
  [Run 2; Run 2; Run 2; Run 1; Run 1; Arrive (CGet "k"); Run 3; Run 3; Run 3]%nat.

(** An update can be answered as saved although a write it did not assume is before it in
    every order of the requests, even in an exclusive execution: the write drew revision 3, the update 4, and the revision of the write was put
    only after the update was answered.  The write is answered as saved too, and a later read
    returns the value of the update. *)
Example update_overlooks :
  let s := after demo_hm (demo_conf Memory) (T:=Memory) overlook_turns (demo_world Memory) in
  reply s 0 = Some (CPut "k" "0", Ret (stored_text "k" "0" 1 "store-b,store-a,")) ∧
  reply s 1 = Some (CPut "k" "1", Ret (stored_text "k" "1" 3 "store-b,store-a,")) ∧
  reply s 2 = Some (CUpdate "k" "2" 1, Ret (stored_text "k" "2" 4 "store-b,store-a,")) ∧
  reply s 3 = Some (CGet "k", Ret (value_text "2" 4)) ∧ calm (c_threads s) "k" ∧
  exclusive demo_hm (demo_conf Memory) Memory overlook_turns (quiet (start (demo_world Memory))) = true.
Proof. intros s. split_and!; [by vm_compute..| |by vm_compute]. apply calm_check; by vm_compute. Qed.
