(* ===== verification/Updates.v ===== *)
(** Conditional writes that run at the same time.

    [treeIndex.Update] of src/pkg/index/index.go compares the revision the client assumes
    with the latest one of the key, and puts the new revision, under the lock of the index
    for reading.  [updates_exclusive] is what that gives while no other request reads the
    index of the key meanwhile: of the updates that assume the same revision one is
    saved.

    [ustep] has an update of src/pkg/index/key_index.go in four steps: the comparison, the
    new slice of revisions, the store of the slice, and that of the latest revision, with the
    arrays that slices share.  The code has more places to be interrupted at; what these
    steps can do it can do.  [update_alone] is that these steps
    with nothing in between are [treeIndex.Update] as one step, and [update_lost] that two
    updates which overlap can both be saved with only one of them in the index. *)
From Stdlib Require Import Ascii.
From stdpp Require Import base gmap list strings pretty sorting.
From S2P Require Import Prelude GoStd Json Hashing HashingManager Latency Config Revision KeyIndex KeyHistory BTree TreeIndex Database ChainNode Runtime Chain Piping Handler VersionedMap Service Concurrent ConcurrentInv Linearizable.

Open Scope Z_scope.

(** * Undisturbed updates *)

Section undisturbed_updates.
Context `{!GoSort} {B : BTree} {L : BTreeLaws B} `{!Hasher} {R : Redigo}.
Context (hm : HashingManager) (conf : KVConfiguration) {T : string} {SL : StoreLaws T}.

(** The revision an update of [k] has to assume. *)
Definition latest_main (idx : treeIndex) (k : string) : Z := main (modified (ki_at idx k)).

Lemma indexed_latest idx k r : ti_ok idx → indexed idx k r → main r ≤ latest_main idx k.
Proof.
  intros (_ & _ & HF) (ki & E & Hin). unfold latest_main, ki_at. rewrite E. simpl.
  destruct (HF k ki E) as [(gs & g & Eg & _ & _ & HG)%ki_reach_ok _].
  apply list_elem_of_bind in Hin as (g0 & Hr & Hg0). rewrite Eg in Hg0.
  rewrite Forall_forall in HG. destruct (HG g0 Hg0) as [_ Hle]. rewrite Forall_forall in Hle.
  specialize (Hle r Hr). rev_lia.
Qed.

Lemma put_other idx k rev k' :
  ti_ok idx → k' ≠ k → latest_main (treeIndex_Put k rev idx).2 k' = latest_main idx k'.
Proof.
  intros Hok Hne. unfold latest_main. rewrite treeIndex_Put_eq by done. cbn [snd].
  by rewrite ki_at_store, keyIndex_put_key, ki_at_key, decide_False by done.
Qed.

(** An update of [k] that assumed [a], between its comparison and its put; one that was
    saved, with a revision it drew after [a]. *)
Definition in_put (k : string) (a : Z) (th : thread) : Prop :=
  ∃ v rev, th = mkThread (CUpdate k v a) (UpdWrite k v rev).
Definition saved (k : string) (a : Z) (th : thread) : Prop :=
  ∃ v rev t, th = mkThread (CUpdate k v a) (Replied (Some rev) (Ret t)) ∧ a < main rev.

Record updates_ok (s : csys) : Prop := {
  uo_latest k a th : th ∈ c_threads s → in_put k a th → latest_main (sv_index (c_sv s)) k = a;
  uo_alone k a a' i j th th' : c_threads s !! i = Some th → c_threads s !! j = Some th' →
    in_put k a th → in_put k a' th' → i = j;
  uo_once k a i j th th' : c_threads s !! i = Some th → c_threads s !! j = Some th' →
    saved k a th → saved k a th' → i = j;
}.

(** The latest revision of the key is above what an update that was saved assumed. *)
Lemma saved_below s dd k a th :
  cinv hm s dd → th ∈ c_threads s → saved k a th → a < latest_main (sv_index (c_sv s)) k.
Proof.
  intros Hinv Hin (v & rev & t & -> & Ha). destruct (ci_threads _ _ _ Hinv _ Hin) as (r & [= <-] & _ & Hidx & _).
  pose proof (indexed_latest _ _ _ (ci_index _ _ _ Hinv) Hidx). lia.
Qed.

(** How an update gets there. *)
Lemma into_put c p sv k a :
  in_put k a (mkThread c (next_pc p (run_pc hm conf T p sv).1)) →
  ∃ v rev a', p = PutIndex k v (Some a') rev ∧ compare_latest k a' (tree (sv_index sv)) = Ret tt ∧
    (run_pc hm conf T p sv).2 = sv.
Proof.
  intros (v & rev & E). injection E as -> E.
  destruct p; simpl in *; unfold gbind, glift, gret, gfail, read_tree, on_gw, on_index, on_store, all_done,
    add_counter, read_counter, try, start_op, since_next in *; repeat case_match; simplify_eq/=.
  eexists _, _, _. split_and!; [done| |done]. by repeat match goal with u : unit |- _ => destruct u end.
Qed.

Lemma into_saved s dd i c p k a :
  cinv hm s dd → c_threads s !! i = Some (mkThread c p) →
  saved k a (mkThread c (next_pc p (run_pc hm conf T p (c_sv s)).1)) →
  in_put k a (mkThread c p) ∨ saved k a (mkThread c p).
Proof.
  intros Hinv Hi (v & rev & t & E & Ha). injection E as -> E. pose proof (thread_in hm _ _ _ _ _ Hinv Hi) as Hok. cbn in Hok.
  pose proof (run_tag hm conf (T:=T) p (c_sv s)) as Htag. rewrite E in Htag.
  destruct p; try done; simpl in *; unfold gbind, glift, gret, gfail, read_tree, on_gw, on_index, on_store, all_done,
    add_counter, read_counter, try, start_op, since_next in *; repeat case_match; simplify_eq/=; try done.
  - by destruct Hok as (_ & _ & ? & _).
  - left. destruct Hok as (-> & -> & _). by eexists _, _.
  - right. by eexists _, _, _.
Qed.

Lemma not_updating k ths j th a : updating k ths = false → ths !! j = Some th → ¬ in_put k a th.
Proof.
  intros Hu Hj (v & rev & ->). apply not_true_iff_false in Hu. apply Hu. unfold updating.
  apply existsb_exists. eexists. split; [by apply list_elem_of_In, (list_elem_of_lookup_2 _ _ _ Hj)|].
  simpl. by apply bool_decide_eq_true.
Qed.

(** The lock keeps the others from the index of the key, and so does that there is no other
    update. *)
Lemma put_undisturbed s dd i j c p th k a :
  cinv hm s dd → updates_ok s → c_threads s !! i = Some (mkThread c p) → locked_out (c_threads s) p = false →
  c_threads s !! j = Some th → j ≠ i → in_put k a th →
  latest_main (sv_index (run_pc hm conf T p (c_sv s)).2) k = latest_main (sv_index (c_sv s)) k.
Proof.
  intros Hinv Hu Hi Hlock Hj Hne Hput. rewrite run_pc_index.
  assert (takes_write p = false) as Hw.
  { unfold locked_out in Hlock. apply andb_false_iff in Hlock as [|Hno]; [done|].
    apply not_true_iff_false in Hno as []. apply existsb_exists. exists th.
    split; [by apply list_elem_of_In, (list_elem_of_lookup_2 _ _ _ Hj)|]. by destruct Hput as (v & rev & ->). }
  destruct p as [| | | | | | | | | |k0 v0 [a0|] rev0|k0 v0 rev0| | | | | | |]; try done.
  apply put_other; [apply Hinv|]. intros ->. apply Hne.
  pose proof (thread_in hm _ _ _ _ _ Hinv Hi) as Hok.
  destruct c as [| | |k1 v1 a1|]; try done; [destruct Hok as (_ & _ & [] & _); done|].
  destruct Hok as (-> & -> & _). eapply (uo_alone _ Hu k1); [exact Hj|exact Hi|done|by eexists _, _].
Qed.

Lemma updates_run s dd i th :
  cinv hm s dd → c_threads s !! i = Some th → locked_out (c_threads s) (th_pc th) = false →
  undisturbed s (Run i) = true → updates_ok s → updates_ok (run_thread hm conf T s i th).
Proof.
  intros Hinv Hi Hlock Hund Hu. destruct th as [c p]. unfold run_thread. cbn [th_pc th_call] in *.
  pose proof (into_put c p (c_sv s)) as Hin. pose proof (into_saved s dd i c p) as Hsv.
  pose proof (λ j th k a, put_undisturbed s dd i j c p th k a Hinv Hu Hi Hlock) as Hkeep.
  pose proof (thread_in hm _ _ _ _ _ Hinv Hi) as Hok.
  destruct (run_pc hm conf T p (c_sv s)) as [r sv'] eqn:E. cbn [fst snd] in *.
  cbn [undisturbed] in Hund. rewrite Hi in Hund. cbn in Hund.
  assert (∀ k a, in_put k a (mkThread c (next_pc p r)) →
    latest_main (sv_index sv') k = a ∧ ∀ j th a', c_threads s !! j = Some th → ¬ in_put k a' th) as Hnew.
  { intros k a Hp. pose proof (Hin k a Hp) as (v & rev & a' & -> & Hcmp & ->). destruct Hp as (v' & rev' & [= -> _]).
    destruct Hok as (_ & _ & [= ->] & _). split.
    - unfold compare_latest in Hcmp. rewrite tree_Get_map in Hcmp by apply Hinv. unfold latest_main, ki_at.
      destruct (_ !! k) as [ki|]; [|done]. simpl. destruct (Z.eqb_spec (main (modified ki)) a); done.
    - intros j th a'. cbn in Hund. apply negb_true_iff in Hund. by apply not_updating. }
  split; cbn [c_threads c_sv].
  - intros k a th [j Hj]%list_elem_of_lookup Hp.
    apply list_lookup_insert_Some in Hj as [(-> & <- & _)|[Hne Hj]]; [by apply Hnew|].
    rewrite (Hkeep j th k a) by done. by apply (uo_latest _ Hu k a th); [eapply list_elem_of_lookup_2|].
  - intros k a a' j j' th th' [(-> & <- & _)|[Hne Hj]]%list_lookup_insert_Some
      [(-> & <- & _)|[Hne' Hj']]%list_lookup_insert_Some Hp Hp'; [done|..].
    + by destruct (Hnew k a Hp) as [_ []%(λ H, H j' th' a' Hj')].
    + by destruct (Hnew k a' Hp') as [_ []%(λ H, H j th a Hj)].
    + by eapply (uo_alone _ Hu k).
  - assert (∀ k a j th, c_threads s !! j = Some th → j ≠ i → saved k a th →
      saved k a (mkThread c (next_pc p r)) → False) as Hno.
    { intros k a j th Hj Hne Hs Hs'. pose proof (list_elem_of_lookup_2 _ _ _ Hj) as Hjin.
      pose proof (list_elem_of_lookup_2 _ _ _ Hi) as Hiin.
      destruct (Hsv k a Hinv Hi Hs') as [Hp|Hp]; [|by apply Hne, (uo_once _ Hu k a j i th _ Hj Hi)].
      pose proof (saved_below s dd k a th Hinv Hjin Hs). pose proof (uo_latest _ Hu k a _ Hiin Hp). lia. }
    intros k a j j' th th' [(-> & <- & _)|[Hne Hj]]%list_lookup_insert_Some
      [(-> & <- & _)|[Hne' Hj']]%list_lookup_insert_Some Hp Hp'; [done|..].
    + destruct (Hno k a j' th'); done.
    + destruct (Hno k a j th); done.
    + by eapply (uo_once _ Hu k a).
Qed.

Lemma updates_turn s dd t :
  cinv hm s dd → undisturbed s t = true → updates_ok s → updates_ok (take_turn hm conf T s t).
Proof.
  intros Hinv Hund Hu. destruct t as [c|i|i]; cbn [take_turn].
  - assert (∀ k a, ¬ in_put k a (mkThread c (start_pc c)) ∧ ¬ saved k a (mkThread c (start_pc c))) as Hc.
    { intros k a. split; [by intros (v & rev & [= -> ?])|by intros (v & rev & t & [= -> ?] & _)]. }
    assert (∀ j th (P : Prop), (c_threads s ++ [mkThread c (start_pc c)]) !! j = Some th →
      (c_threads s !! j = Some th → P) → (th = mkThread c (start_pc c) → P) → P) as Hcase.
    { intros j th P [Hj|[_ Hj]]%lookup_app_Some H1 H2; [auto|].
      apply list_lookup_singleton_Some in Hj as [_ <-]. auto. }
    split; cbn [c_threads c_sv].
    + intros k a th [j Hj]%list_elem_of_lookup Hp. eapply Hcase; [exact Hj| |by intros ->; destruct (Hc k a)].
      intros Hj'. by apply (uo_latest _ Hu k a th); [eapply list_elem_of_lookup_2|].
    + intros k a a' j j' th th' Hj Hj' Hp Hp'.
      eapply Hcase; [exact Hj| |by intros ->; destruct (Hc k a)]. intros Hj1.
      eapply Hcase; [exact Hj'| |by intros ->; destruct (Hc k a')]. intros Hj2. by eapply (uo_alone _ Hu k).
    + intros k a j j' th th' Hj Hj' Hp Hp'.
      eapply Hcase; [exact Hj| |by intros ->; destruct (Hc k a)]. intros Hj1.
      eapply Hcase; [exact Hj'| |by intros ->; destruct (Hc k a)]. intros Hj2. by eapply (uo_once _ Hu k a).
  - destruct (c_threads s !! i) as [th|] eqn:Hi; [|done]. destruct (locked_out _ _) eqn:Hl; [done|].
    by eapply updates_run.
  - destruct (detached _ !! i) as [g|]; [|done]. destruct (go_step g _) as [[g'|e|e] w']; by destruct Hu.
Qed.

Lemma updates_execute turns s :
  BucketSize conf ≠ 0 → consistent hm s → room s turns → exclusive hm conf T turns s = true → updates_ok s →
  updates_ok (execute hm conf T turns s).
Proof.
  intros Hb. unfold room. revert s. induction turns as [|t turns IH]; intros s [dd Hinv] Hr He Hu; [done|].
  cbn [length] in Hr. cbn [exclusive] in He. apply andb_true_iff in He as [Ht He].
  destruct (cinv_turn hm conf Hb s dd t Hinv) as [dd' Hinv']; [lia|].
  pose proof (turn_moves hm conf s dd t Hinv ltac:(lia)) as [Hc _].
  simpl. apply IH; [by exists dd'|lia|done|by eapply updates_turn].
Qed.
End undisturbed_updates.

(** C36. Conditional writes over redis, while no update is disturbed: of the updates of a key
    that assume the same revision, and drew theirs after it, at most one is saved, whatever
    the interleaving; every other one that finishes is refused, because its key was not
    there or its latest revision was another.  That holds for keys that are deleted
    meanwhile and when revisions collide, too. *)
Theorem updates_exclusive `{!GoSort} {B : BTree} {L : BTreeLaws B} `{!Hasher} {R : Redigo}
    (hm : HashingManager) (conf : KVConfiguration) {T : string} {SL : StoreLaws T}
    turns w k a i j th v rev res :
  T ≠ Memory → ready hm conf w → few turns → exclusive hm conf T turns (quiet (start w)) = true →
  let s := after hm conf (T:=T) turns w in
  c_threads s !! i = Some th → saved k a th →
  c_threads s !! j = Some (mkThread (CUpdate k v a) (Replied (Some rev) res)) → a < main rev → i ≠ j →
  res = Fail ErrRevisionNotFound ∨ res = Fail ErrRevAssumed.
Proof.
  intros _ Hr Hf He s Hi Hs Hj Ha Hne.
  assert (updates_ok s) as Hu.
  { apply (updates_execute hm conf (SL:=SL)); [apply Hr|by eapply start_consistent| |done|].
    - unfold room, few in *. change (ctr (quiet (start w))) with 0. lia.
    - split; [by intros k0 a0 th0 ?%elem_of_nil|done|done]. }
  destruct (after_consistent hm conf turns w Hr Hf) as [dd Hinv]. fold s in Hinv.
  destruct (thread_in hm _ _ _ _ _ Hinv Hj) as (r & [= <-] & _ & Hres).
  destruct res as [t'|e|why]; [|naive_solver|done]. destruct Hne.
  eapply (uo_once _ Hu k a); [exact Hi|exact Hj|done|by eexists _, _, _].
Qed.

#[local] Existing Instance suffix_Hasher.

(** Two updates that assume the revision of an earlier write; the second one looks at the
    key when the first one is done. *)
Definition update_turns : list turn :=
  [Arrive (CPut "k" "0"); Run 0; Run 0; Run 0]%nat ++ demo_gos ++
  [Run 0; Run 0; Arrive (CUpdate "k" "1" 1); Arrive (CUpdate "k" "2" 1);
   Run 1; Run 1; Run 2; Run 2; Run 1; Run 2]%nat ++ demo_gos ++
  [Run 2; Run 1; Run 1; Run 1; Run 2]%nat.

Definition demo_places : list string := ["10.0.0.2:6379,10.0.0.1:6379"; ""].

Lemma updates_exclusive_witness :
  c_threads (redis_after update_turns) !! 2%nat =
    Some (mkThread (CUpdate "k" "2" 1) (Replied (Some (mkRevision 4 0 demo_places)) (Fail ErrRevAssumed))) ∧
  ((Fail ErrRevAssumed : outcome string) = Fail ErrRevisionNotFound ∨ (Fail ErrRevAssumed : outcome string) = Fail ErrRevAssumed).
Proof.
  split; [by vm_compute|].
  apply (updates_exclusive redis_hm (demo_conf Redis) (T:=Redis) update_turns (demo_world Redis) "k" 1 1 2
    (mkThread (CUpdate "k" "1" 1) (Replied (Some (mkRevision 3 0 demo_places)) (Ret (stored_text "k" "1" 3 (Join "," demo_places)))))
    "2" (mkRevision 4 0 demo_places));
    [done|apply redis_ready|done|by vm_compute|by vm_compute| |by vm_compute|simpl; lia|done].
  eexists _, _, _. split; [done|simpl; lia].
Defined.

(** * The steps of an update *)

(** A slice: its array and its length; the arrays have the length of their capacity. *)
Record slice := mkSlice { s_arr : nat; s_len : nat }.
Definition elems (arrays : list (list Revision)) (s : slice) : list Revision :=
  take (s_len s) (default [] (arrays !! s_arr s)).

(** The key index while updates put into it: the generation they point to is the last one,
    [older] are those before. *)
Record ustate := mkUState {
  u_arrays : list (list Revision);
  u_key : string;
  u_modified : Revision;
  u_older : list generation;
  u_ver : Z;
  u_created : Revision;
  u_revs : slice;
  u_counter : Z;
}.

Definition u_view (u : ustate) : keyIndex :=
  mkKeyIndex (u_key u) (u_modified u)
    (u_older u ++ [mkGeneration (u_ver u) (u_created u) (elems (u_arrays u) (u_revs u))]).

(** The program points of an update: before the comparison, before the new slice is made,
    before it is stored, before the latest revision is, and at the end. *)
Inductive upc :=
  | UCompare (rev : Revision) (revAssumed : Z)
  | UMake (rev : Revision)
  | UFile (rev : Revision) (s : slice)
  | UCount (rev : Revision)
  | UDone (r : outcome unit).

Section update_steps.
(** What [append] allocates beyond what it needs. *)
Context (spare : nat → nat).

(** [append] of [items] to the first [off] elements: in place when they fit. *)
Definition append_to (arrays : list (list Revision)) (arr : nat) (off : nat) (items : list Revision)
    : list (list Revision) * slice :=
  let a := default [] (arrays !! arr) in
  let n := (off + length items)%nat in
  if (n <=? length a)%nat then (<[arr := take off a ++ items ++ drop n a]> arrays, mkSlice arr n)
  else (arrays ++ [take off a ++ items ++ replicate (spare n) Revision_zero], mkSlice (length arrays) n).

(** The slice with the new revision, from the test of line 76 to the right-hand sides of
    lines 86, 89 and 92. *)
Definition make_revs (u : ustate) (rev : Revision) : list (list Revision) * slice :=
  let s := u_revs u in
  let l := elems (u_arrays u) s in
  if negb (GreaterThan rev (u_modified u)) then
    match put_locate rev l (length l) with
    | None => append_to (u_arrays u ++ [[rev]]) (length (u_arrays u)) 1 l
    | Some i => append_to (u_arrays u) (s_arr s) (S i) (rev :: drop (S i) l)
    end
  else append_to (u_arrays u) (s_arr s) (s_len s) [rev].

Definition ustep (p : upc) (u : ustate) : upc * ustate :=
  match p with
  | UCompare rev a =>
      (if negb (main (u_modified u) =? a) then UDone (Fail ErrRevAssumed) else UMake rev, u)
  | UMake rev =>
      let '(created, counter) :=
        if is_nil (elems (u_arrays u) (u_revs u)) then
          let '(v, counter) := GetGlobalIncreasingRevision (u_counter u) in (mkRevision (int64 v) 0 [], counter)
        else (u_created u, u_counter u) in
      let '(arrays, s) := make_revs u rev in
      (UFile rev s, mkUState arrays (u_key u) (u_modified u) (u_older u) (u_ver u) created (u_revs u) counter)
  | UFile rev s =>
      (UCount rev, mkUState (u_arrays u) (u_key u) (u_modified u) (u_older u) (u_ver u) (u_created u) s (u_counter u))
  | UCount rev =>
      if GreaterThan rev (u_modified u)
      then (UDone (Ret tt), mkUState (u_arrays u) (u_key u) rev (u_older u) (int64 (u_ver u + 1)) (u_created u) (u_revs u) (u_counter u))
      else (UDone (Ret tt), u)
  | UDone r => (p, u)
  end.

(** Updates in flight; a schedule says which is next. *)
Definition uturn (st : list upc * ustate) (i : nat) : list upc * ustate :=
  match st.1 !! i with
  | None => st
  | Some p => let '(p', u) := ustep p st.2 in (<[i := p']> st.1, u)
  end.
Definition urun (sched : list nat) (st : list upc * ustate) : list upc * ustate := foldl uturn st sched.

(** The slice is within its array. *)
Definition within (arrays : list (list Revision)) (s : slice) : Prop :=
  ∃ a, arrays !! s_arr s = Some a ∧ (s_len s ≤ length a)%nat.
Definition u_ok (u : ustate) : Prop := within (u_arrays u) (u_revs u).

(** ** Appending *)

Lemma append_elems arrays arr a off items :
  arrays !! arr = Some a → (off ≤ length a)%nat →
  let r := append_to arrays arr off items in
  elems r.1 r.2 = take off a ++ items ∧ within r.1 r.2.
Proof.
  intros Ha Hoff. unfold append_to. rewrite Ha. cbv zeta. unfold default. cbn [from_option id].
  assert (∀ l, take (off + length items) (take off a ++ items ++ l) = take off a ++ items) as Ht.
  { intros l. rewrite (assoc_L (++)). apply take_app_length'. rewrite length_app, length_take. lia. }
  destruct (Nat.leb_spec (off + length items) (length a)) as [Hle|Hgt]; unfold elems, within; cbn [fst snd s_arr s_len].
  - rewrite list_lookup_insert_eq by (by eapply lookup_lt_Some). cbn [default from_option id]. split; [done|].
    eexists. split; [done|]. rewrite !length_app, length_take, length_drop. lia.
  - rewrite list_lookup_middle by done. cbn [default from_option id]. split; [done|].
    eexists. split; [done|]. rewrite !length_app, length_take. lia.
Qed.

(** What is before the place of the append stays, in this slice and in any other. *)
Lemma append_keeps arrays arr items s :
  within arrays s → elems (append_to arrays arr (s_len s) items).1 s = elems arrays s ∧
    within (append_to arrays arr (s_len s) items).1 s.
Proof.
  intros (a & Ha & Hle). unfold append_to, elems, within.
  destruct (Nat.leb_spec (s_len s + length items) (length (default [] (arrays !! arr)))) as [Hn|Hn]; cbn [fst].
  - destruct (decide (s_arr s = arr)) as [<-|Hne].
    + rewrite Ha in *. cbn [default from_option id] in *. rewrite list_lookup_insert_eq by (by eapply lookup_lt_Some). cbn [default from_option id]. split.
      * rewrite take_app_length' by (rewrite length_take; lia). done.
      * eexists. split; [done|]. rewrite !length_app, length_take, length_drop. lia.
    + rewrite list_lookup_insert_ne by done. eauto.
  - rewrite lookup_app_l by (by eapply lookup_lt_Some). eauto.
Qed.

Lemma make_revs_put u rev :
  u_ok u → let r := make_revs u rev in
  elems r.1 r.2 = put_revs (u_modified u) (elems (u_arrays u) (u_revs u)) rev ∧ within r.1 r.2.
Proof.
  intros (a & Ha & Hle). unfold make_revs, put_revs. destruct (GreaterThan rev (u_modified u)); cbn [negb].
  { destruct (append_elems (u_arrays u) (s_arr (u_revs u)) a (s_len (u_revs u)) [rev] Ha Hle) as [-> ?].
    unfold elems. by rewrite Ha. }
  set (l := elems (u_arrays u) (u_revs u)).
  assert (length l = s_len (u_revs u)) as Hl by (unfold l, elems; rewrite Ha; simpl; rewrite length_take; lia).
  destruct (put_locate rev l (length l)) as [i|] eqn:E.
  - assert (i < length l)%nat as Hi.
    { clear -E. revert E. generalize (length l) at 1. intros n. induction n as [|n IH]; simpl; [done|].
      destruct (l !! n) as [r|] eqn:Hn; [|done]. destruct (GreaterThan rev r); [|done].
      intros [= <-]. by eapply lookup_lt_Some. }
    destruct (append_elems (u_arrays u) (s_arr (u_revs u)) a (S i) (rev :: drop (S i) l) Ha) as [-> ?]; [lia|].
    split; [|done]. f_equal. unfold l, elems. rewrite Ha. cbn [default from_option id]. rewrite take_take. f_equal. lia.
  - destruct (append_elems (u_arrays u ++ [[rev]]) (length (u_arrays u)) [rev] 1 l) as [-> ?]; [|done|done].
    by apply list_lookup_middle.
Qed.
End update_steps.

(** ** Schedules *)

Section update_schedules.
Context (spare : nat → nat).

Lemma uturn_at pcs u i p :
  pcs !! i = Some p → uturn spare (pcs, u) i = (<[i := (ustep spare p u).1]> pcs, (ustep spare p u).2).
Proof. intros E. unfold uturn. cbn [fst snd]. rewrite E. by destruct (ustep spare p u). Qed.

Lemma uturn_again pcs u i p :
  (i < length pcs)%nat →
  uturn spare (<[i := p]> pcs, u) i = (<[i := (ustep spare p u).1]> pcs, (ustep spare p u).2).
Proof. intros Hi. rewrite (uturn_at _ _ _ p) by (by apply list_lookup_insert_eq). by rewrite list_insert_insert_eq. Qed.

(** The put, once the comparison is done. *)
Lemma put_steps u rev :
  u_ok u →
  let u1 := (ustep spare (UMake rev) u).2 in
  let s := (make_revs spare u rev).2 in
  let u2 := (ustep spare (UFile rev s) u1).2 in
  let u3 := (ustep spare (UCount rev) u2).2 in
  (ustep spare (UMake rev) u).1 = UFile rev s ∧ (ustep spare (UCount rev) u2).1 = UDone (Ret tt) ∧
  (u_view u3, u_counter u3) = keyIndex_put (u_view u) (main rev) (sub rev) (nodes rev) (u_counter u) ∧ u_ok u3.
Proof.
  intros Hok u1 s u2 u3. destruct (make_revs_put spare u rev Hok) as [Hel Hwi].
  rewrite (keyIndex_put_snoc _ _ _ _ _ (u_older u) (mkGeneration (u_ver u) (u_created u) (elems (u_arrays u) (u_revs u)))) by done.
  unfold put_gen, put_counter, put_modified. destruct rev as [m sb ns]. cbn [revs created ver modified key u_view main sub nodes].
  rewrite <- Hel. unfold u3, u2, u1, s, u_view, u_ok. cbn [ustep].
  destruct (make_revs spare u _) as [arrays s'] eqn:E. cbn [fst snd] in *.
  destruct (is_nil _), (GreaterThan (mkRevision m sb ns) (u_modified u)) eqn:G; cbn [GetGlobalIncreasingRevision fst snd ustep u_modified];
    rewrite ?G; by split_and!.
Qed.

Lemma umake u rev :
  ∃ cr c, ustep spare (UMake rev) u =
    (UFile rev (make_revs spare u rev).2,
     mkUState (make_revs spare u rev).1 (u_key u) (u_modified u) (u_older u) (u_ver u) cr (u_revs u) c).
Proof. cbn [ustep]. destruct (is_nil _), (make_revs spare u rev); cbn; by eexists _, _. Qed.

(** Both make their slice of the same revisions. *)
Lemma make_twice u rev rev' :
  u_ok u → GreaterThan rev (u_modified u) = true → GreaterThan rev' rev = true →
  ∃ u', urun spare [0; 1; 1; 0; 1; 0; 0; 1]%nat
      ([UCompare rev (main (u_modified u)); UCompare rev' (main (u_modified u))], u) =
      ([UDone (Ret tt); UDone (Ret tt)], u') ∧
    ∃ ver cr, u_view u' = mkKeyIndex (u_key u) rev'
      (u_older u ++ [mkGeneration ver cr (elems (u_arrays u) (u_revs u) ++ [rev])]).
Proof.
  intros Hok Hgt Hgt'. assert (GreaterThan rev' (u_modified u) = true) as Hgt2 by rev_lia.
  destruct (umake u rev') as (cr1 & c1 & E1). set (u1 := mkUState _ _ _ _ _ cr1 _ c1) in E1.
  destruct (umake u1 rev) as (cr2 & c2 & E2). set (u2 := mkUState _ _ _ _ _ cr2 _ c2) in E2.
  assert (elems (u_arrays u1) (u_revs u1) = elems (u_arrays u) (u_revs u) ∧ u_ok u1) as [Hl Hok1].
  { unfold u_ok. cbn [u1 u_arrays u_revs]. unfold make_revs. rewrite Hgt2. cbn [negb]. by apply append_keeps. }
  destruct (make_revs_put spare u1 rev Hok1) as [Hel _]. rewrite Hl in Hel.
  unfold put_revs in Hel. cbn [u_modified u1] in Hel. rewrite Hgt in Hel.
  assert (∀ p q v, uturn spare ([p; q], v) 0 = ([(ustep spare p v).1; q], (ustep spare p v).2)) as U0.
  { intros. by rewrite (uturn_at _ _ 0%nat p). }
  assert (∀ p q v, uturn spare ([p; q], v) 1 = ([p; (ustep spare q v).1], (ustep spare q v).2)) as U1.
  { intros. by rewrite (uturn_at _ _ 1%nat q). }
  unfold urun. cbn [foldl]. rewrite U0, U1. cbn [ustep fst snd]. rewrite Z.eqb_refl. cbn [negb].
  rewrite U1, U0, E1. cbn [fst snd]. rewrite E2. cbn [fst snd]. rewrite U1, U0. cbn [ustep fst snd u2 u_arrays u_key u_modified u_older u_ver u_created u_revs u_counter].
  rewrite U0. cbn [ustep u_modified]. cbn [u1 u_modified]. rewrite Hgt. cbn [fst snd]. rewrite U1. cbn [ustep u_modified].
  rewrite Hgt'. cbn [fst snd]. eexists. split; [done|]. unfold u_view. cbn [u_arrays u_key u_modified u_older u_ver u_created u_revs u1].
  eexists _, _. by rewrite Hel.
Qed.
End update_schedules.

(** The steps of an update with nothing in between are the update as one step, whatever
    the others are at: the answer, the key index and the counter after it are those of
    [keyIndex.update], for any capacity of the slice of revisions and any growth of
    [append]. *)
Theorem update_alone spare u pcs i rev a :
  u_ok u → pcs !! i = Some (UCompare rev a) →
  let r := urun spare [i; i; i; i] (pcs, u) in
  match keyIndex_update (u_view u) (main rev) (sub rev) (nodes rev) a (u_counter u) with
  | (Ret ki, c) => r.1 = <[i := UDone (Ret tt)]> pcs ∧ u_view r.2 = ki ∧ u_counter r.2 = c ∧ u_ok r.2
  | (Fail e, c) => r = (<[i := UDone (Fail e)]> pcs, u) ∧ c = u_counter u
  | (Panic _, _) => False
  end.
Proof.
  intros Hok Hi. pose proof (lookup_lt_Some _ _ _ Hi) as Hlt. unfold urun. cbn [foldl].
  rewrite (uturn_at _ _ _ _ _ Hi), !uturn_again by done. unfold keyIndex_update. cbn [u_view modified].
  cbn [ustep fst snd]. destruct (negb _); [by split|].
  destruct (put_steps spare u rev Hok) as (E1 & E2 & E3 & Hok'). rewrite E1.
  rewrite <- E3. change ((ustep spare (UFile rev _) _).1) with (UCount rev). rewrite E2. by split_and!.
Qed.

(** C37. An update that was answered as saved can be lost: when two updates of a key assume
    its latest revision and both make their slice before either stores it, both are
    answered as saved, but the history of the key has got the older one only.  The newer one
    is in no generation; yet it is the latest revision, the one a further update has to
    assume, while a read of the latest revision finds the older one.  That can happen for
    every key index and any two revisions above its latest one, whatever the capacity of
    the slice. *)
Theorem update_lost spare u rev rev' a :
  u_ok u → ki_ok (u_view u) → main (u_modified u) = a →
  GreaterThan rev (u_modified u) = true → GreaterThan rev' rev = true →
  ∃ sched u', urun spare sched ([UCompare rev a; UCompare rev' a], u) = ([UDone (Ret tt); UDone (Ret tt)], u') ∧
    history (u_view u') = history (u_view u) ++ [EvPut rev] ∧
    rev' ∉ generations (u_view u') ≫= revs ∧ modified (u_view u') = rev' ∧
    ∃ cr v, keyIndex_get (u_view u') (main rev') = Ret (rev, cr, v).
Proof.
  intros Hok Hki <- Hgt Hgt'. destruct (make_twice spare u rev rev' Hok Hgt Hgt') as (u' & E & ver & cr & Ev).
  exists [0; 1; 1; 0; 1; 0; 0; 1]%nat, u'. split; [done|]. rewrite Ev.
  set (l := elems (u_arrays u) (u_revs u)) in *. pose proof Hki as (gs & g & Eg & Hne & Hne1 & HG).
  cbn [u_view generations modified] in Eg, HG. fold l in Eg. apply app_inj_2 in Eg as [<- [= <-]]; [|done].
  apply Forall_app in HG as [HG [Hs Hle]%Forall_singleton]. cbn [revs] in Hs, Hle.
  assert (∀ r, rev_le r (u_modified u) → rev_lt r rev' ∧ rev_le r rev ∧ rev_le r rev') as Hlt by (intros r Hr; split_and!; rev_lia).
  assert (ki_ok (mkKeyIndex (u_key u) rev' (u_older u ++ [mkGeneration ver cr (l ++ [rev])]))) as Hki'.
  { eexists _, _. split_and!; [done|done|by destruct l|]. apply Forall_app. split.
    - eapply Forall_impl; [exact HG|]. intros g0 [? Hg]. split; [done|]. eapply Forall_impl; [exact Hg|]. naive_solver.
    - apply Forall_singleton. split; cbn [revs].
      + apply StronglySorted_app_2; [|done|by repeat constructor]. intros x y Hx ->%list_elem_of_singleton.
        rewrite Forall_forall in Hle. by apply Hlt, Hle.
      + apply Forall_app. split; [eapply Forall_impl; [exact Hle|]; naive_solver|]. apply Forall_singleton. rev_lia. }
  assert (history (mkKeyIndex (u_key u) rev' (u_older u ++ [mkGeneration ver cr (l ++ [rev])])) =
    history (u_view u) ++ [EvPut rev]) as Eh.
  { rewrite history_mk. unfold u_view. rewrite history_mk. unfold open_events. cbn [revs]. fold l.
    by rewrite fmap_app, (assoc_L (++)). }
  split_and!; [done| |done|].
  - cbn [generations]. rewrite bind_app. cbn [mbind list_bind revs]. rewrite app_nil_r.
    intros [(g0 & Hr & Hg0)%list_elem_of_bind|[Hr|Hr%list_elem_of_singleton]%elem_of_app]%elem_of_app.
    + rewrite Forall_forall in HG. destruct (HG g0 Hg0) as [_ Hg]. rewrite Forall_forall in Hg.
      destruct (Hlt _ (Hg _ Hr)) as [? _]. rev_lia.
    + rewrite Forall_forall in Hle. destruct (Hlt _ (Hle _ Hr)) as [? _]. rev_lia.
    + subst. rev_lia.
  - pose proof (keyIndex_get_answer _ (main rev') Hki') as Hans. rewrite Eh, hist_get_snoc in Hans by (simpl; rev_lia).
    destruct Hans as (g0 & n & _ & _ & ->). by eexists _, _.
Qed.

(** A key index with one revision, its slice full. *)
Definition demo_u : ustate :=
  mkUState [[mkRevision 1 0 ["n1"%string]]] "k" (mkRevision 1 0 ["n1"%string]) [] 1 (mkRevision 2 0 []) (mkSlice 0 1) 4.

Lemma demo_u_ok : u_ok demo_u.
Proof. eexists. split; [done|]. simpl. lia. Qed.

Lemma update_alone_witness :
  let r := urun id [1; 1; 1; 1]%nat ([UDone (Ret tt); UCompare (mkRevision 3 0 []) 1], demo_u) in
  r.1 = [UDone (Ret tt); UDone (Ret tt)] ∧
  u_view r.2 = (keyIndex_put (u_view demo_u) 3 0 [] 4).1 ∧
  u_counter r.2 = (keyIndex_put (u_view demo_u) 3 0 [] 4).2 ∧ u_ok r.2.
Proof.
  exact (update_alone id demo_u [UDone (Ret tt); UCompare (mkRevision 3 0 []) 1] 1 (mkRevision 3 0 []) 1 demo_u_ok eq_refl).
Defined.

Lemma update_lost_witness :
  ∃ sched u', urun id sched ([UCompare (mkRevision 3 0 []) 1; UCompare (mkRevision 4 0 []) 1], demo_u) =
      ([UDone (Ret tt); UDone (Ret tt)], u') ∧
    history (u_view u') = history (u_view demo_u) ++ [EvPut (mkRevision 3 0 [])] ∧
    mkRevision 4 0 [] ∉ generations (u_view u') ≫= revs ∧ modified (u_view u') = mkRevision 4 0 [] ∧
    ∃ cr v, keyIndex_get (u_view u') 4 = Ret (mkRevision 3 0 [], cr, v).
Proof.
  apply (update_lost id demo_u (mkRevision 3 0 []) (mkRevision 4 0 []) 1); [apply demo_u_ok| |done|done|done].
  eexists [], _. split_and!; [done|constructor|done|]. apply Forall_singleton. split; repeat constructor.
Defined.
