(* ===== verification/Progress.v ===== *)
(** Every request is answered.  [pc_rank] is what a request has left to do, in steps; a
    step of the request lowers it unless the request waits for goroutines, each of which
    is done after two steps of its own, or for the lock of the index, which an update in
    between its two steps on the index keeps from it.  [stage] is what an update has left
    to do until it gives the lock back: a round that does not bring a request on brings an
    update on.  A read of the history knows what it has left when it has looked the
    revisions of its key up, of which there are no more than finished writes and
    deletions ([counted]).  So under a schedule that keeps giving steps to everyone, in
    [round]s, a request is answered after at most six rounds -- a read of the history after
    one, and two for every write and deletion there is -- and two for every update there
    is, whatever else arrives and runs in between. *)
From Stdlib Require Import Ascii.
From stdpp Require Import base gmap list strings pretty.
From S2P Require Import Prelude GoStd Json Hashing HashingManager Latency Config Revision KeyIndex KeyHistory BTree TreeIndex Database ChainNode Runtime Chain Piping Handler VersionedMap Service Concurrent ConcurrentInv Linearizable.

Open Scope Z_scope.

Definition pc_rank (p : pc) : nat :=
  match p with
  | PutAdd _ _ _ | DelIndex _ => 6
  | PutDraw _ _ _ | DelStores _ _ => 5
  | PutPlace _ _ _ _ | DelWait _ _ _ => 4
  | GetIndex _ | PutWait _ _ _ _ _ | DelAdd _ _ _ => 3
  | GetOpen _ | PutIndex _ _ _ _ | DelDraw _ _ _ => 2
  | SinceOpen _ _ _ todo => 2 + 2 * length todo
  | SinceRead _ _ _ todo _ => 1 + 2 * length todo
  | GetRead _ _ | UpdWrite _ _ _ | DelTomb _ _ _ _ | SinceIndex _ _ => 1
  | Replied _ _ => 0
  end.

(** A read of the history does not know what it has left to do before it looked. *)
Definition phase (p : pc) : nat := match p with SinceIndex _ _ => 1 | _ => 0 end.
Definition closer (p' p : pc) : Prop :=
  (phase p' < phase p)%nat ∨ phase p' = phase p ∧ (pc_rank p' < pc_rank p)%nat.

(** The goroutines a request waits for. *)
Definition pc_waits (p : pc) : option (list nat) :=
  match p with PutWait _ _ _ _ ids | DelWait _ _ ids => Some ids | _ => None end.

(** An update before it takes the lock of the index, and with it. *)
Definition stage (p : pc) : nat :=
  match p with
  | PutAdd _ _ (Some _) | PutDraw _ _ (Some _) | PutPlace _ _ (Some _) _
  | PutWait _ _ (Some _) _ _ | PutIndex _ _ (Some _) _ => 2
  | UpdWrite _ _ _ => 1
  | _ => 0
  end.

(** Nothing, or a step forward. *)
Definition advanced (p p' : pc) : Prop := (p' = p ∨ closer p' p) ∧ (stage p' ≤ stage p)%nat.

#[global] Instance advanced_preorder : PreOrder advanced.
Proof.
  split; [by split; [left|]|]. intros p1 p2 p3 [[->|H12] S1] [[->|H23] S2]; (split; [|lia]); auto.
  right. unfold closer in *. lia.
Qed.

Lemma advanced_rank p p' :
  advanced p p' → phase p = 0%nat → phase p' = 0%nat ∧ (pc_rank p' ≤ pc_rank p)%nat.
Proof. intros [[->|Hc] _] Hp; [lia|]. unfold closer in Hc. lia. Qed.

(** A real step forward, or nothing left to do. *)
Definition forward (p' p : pc) : Prop := closer p' p ∨ pc_rank p' = 0%nat.

Lemma rank_phase p : pc_rank p = 0%nat → phase p = 0%nat.
Proof. by destruct p. Qed.

Lemma forward_advanced p p1 p2 : forward p1 p → advanced p1 p2 → forward p2 p.
Proof.
  intros Hf [[->|Hc] _]; [done|]. unfold forward, closer in *. destruct Hf as [?|Hz]; [left; lia|].
  pose proof (rank_phase p1 Hz). lia.
Qed.
Lemma advanced_forward p p1 p2 : advanced p p1 → forward p2 p1 → forward p2 p.
Proof. intros [[->|Hc] _] [Hf|?]; [by left|by right|left; unfold closer in *; lia|by right]. Qed.

Lemma rank_stage p : pc_rank p = 0%nat → stage p = 0%nat.
Proof. by destruct p. Qed.

(** What became of a request. *)
Definition went_on (th th' : thread) : Prop := th_call th' = th_call th ∧ advanced (th_pc th) (th_pc th').

#[global] Instance went_on_preorder : PreOrder went_on.
Proof. split; [by intros th|]. intros t1 t2 t3 [E1 A1] [E2 A2]. split; [congruence|by etrans]. Qed.

Lemma Forall2_insert_self {A} (P : A → A → Prop) `{!Reflexive P} l i x y :
  l !! i = Some x → P x y → Forall2 P l (<[i := y]> l).
Proof.
  intros Hi Hp. apply Forall2_same_length_lookup. split; [by rewrite length_insert|].
  intros j a b Ha [(-> & <- & _)|[_ Hb]]%list_lookup_insert_Some; by simplify_eq.
Qed.

(** The requests that arrive. *)
Definition arrivals (turns : list turn) : list thread :=
  turns ≫= λ t, match t with Arrive c => [mkThread c (start_pc c)] | _ => [] end.

(** What the updates have left to do. *)
Definition load (ths : list thread) : nat := sum_list_with (λ th, stage (th_pc th)) ths.

Lemma load_app l1 l2 : load (l1 ++ l2) = (load l1 + load l2)%nat.
Proof. apply sum_list_with_app. Qed.

Lemma load_mono l l' : Forall2 went_on l l' → (load l' ≤ load l)%nat.
Proof. induction 1 as [|x y l l' [_ [_ Hxy]] _ IH]; unfold load in *; simpl in *; lia. Qed.

Lemma load_lt l l' i x y :
  Forall2 went_on l l' → l !! i = Some x → l' !! i = Some y → (stage (th_pc y) < stage (th_pc x))%nat →
  (load l' < load l)%nat.
Proof.
  intros HF. revert i. induction HF as [|a b l l' [_ [_ Hab]] HF IH]; intros [|i] Hx Hy Hlt; simplify_eq/=.
  - pose proof (load_mono _ _ HF). unfold load in *. simpl. lia.
  - specialize (IH i Hx Hy Hlt). unfold load in *. simpl. lia.
Qed.

(** Finished writes and deletions, and all of them. *)
Definition ended_one (th : thread) : nat :=
  match th_call th, th_pc th with
  | CPut _ _, Replied _ _ | CUpdate _ _ _, Replied _ _ | CDelete _, Replied _ _ => 1
  | _, _ => 0
  end.
Definition change_one (th : thread) : nat :=
  match th_call th with CPut _ _ | CUpdate _ _ _ | CDelete _ => 1 | _ => 0 end.
Definition ended (ths : list thread) : nat := sum_list_with ended_one ths.
Definition changes_in (ths : list thread) : nat := sum_list_with change_one ths.

Lemma ended_changes ths : (ended ths ≤ changes_in ths)%nat.
Proof.
  induction ths as [|[c p] ths IH]; [done|]. unfold ended, changes_in in *. simpl.
  assert (ended_one (mkThread c p) ≤ change_one (mkThread c p))%nat by (destruct c, p; cbn; lia). lia.
Qed.

Lemma changes_went_on l l' : Forall2 went_on l l' → changes_in l' = changes_in l.
Proof.
  induction 1 as [|x y l l' [E _] _ IH]; [done|]. unfold changes_in in *. simpl. rewrite IH.
  unfold change_one. by rewrite E.
Qed.

Lemma sum_insert {A} (f : A → nat) l i x y :
  l !! i = Some x → (sum_list_with f (<[i := y]> l) + f x = sum_list_with f l + f y)%nat.
Proof.
  revert i. induction l as [|z l IH]; intros [|i] Hi; simplify_eq/=; [lia|]. specialize (IH i Hi). lia.
Qed.

Section progress.
Context `{!GoSort} {B : BTree} {L : BTreeLaws B} `{!Hasher} {R : Redigo}.
Context (hm : HashingManager) (conf : KVConfiguration) {T : string} {SL : StoreLaws T}.
Context (Hbucket : BucketSize conf ≠ 0).

(** * Requests *)

Definition blocked (p : pc) (sv : server) : Prop :=
  ∃ ids, pc_waits p = Some ids ∧ ∃ i, i ∈ ids ∧ is_done (detached (sv_gw sv) !! i) = false.

Lemma not_all_done (f : nat → bool) ids : forallb f ids = false → ∃ i, i ∈ ids ∧ f i = false.
Proof.
  induction ids as [|i ids IH]; [done|]. simpl. intros E.
  destruct (f i) eqn:Ei; [|exists i; split; [by left|done]].
  destruct (IH E) as (j & ? & ?). exists j. split; [by right|done].
Qed.

Lemma wait_rank p p1 ids sv :
  pc_waits p = Some ids → closer p1 p →
  let p' := if forallb (λ i, is_done (detached (sv_gw sv) !! i)) ids then p1 else p in
  closer p' p ∨ p' = p ∧ (pc_rank p = 0%nat ∨ blocked p sv).
Proof.
  intros Hw Hr p'. unfold p'. destruct (forallb _ ids) eqn:E; [by left|]. right. split; [done|right].
  exists ids. split; [done|]. by apply not_all_done.
Qed.

Lemma run_pc_rank p sv :
  let p' := next_pc p (run_pc hm conf T p sv).1 in
  closer p' p ∨ p' = p ∧ (pc_rank p = 0%nat ∨ blocked p sv).
Proof.
  clear Hbucket. destruct p as [| | | | | | | | |k v a rev ids|k v a rev| | | |k rev ids| | | |]; simpl.
  10: apply (wait_rank (PutWait k v a rev ids) (PutIndex k v a rev) ids); simpl; [done|right; simpl; lia].
  14: apply (wait_rank (DelWait k rev ids) (DelAdd k rev None) ids); simpl; [done|right; simpl; lia].
  all: unfold open_target, gbind, glift, gret, gfail, read_tree, on_gw, on_index, on_store,
    add_counter, read_counter, try, start_op, since_next; repeat case_match; simplify_eq/=;
    unfold closer; simpl; auto with lia.
Qed.

(** A step of a request adds goroutines to the others. *)
Lemma start_op_detached rev o sv :
  ∃ gs, detached (sv_gw (start_op T rev o sv).2) = detached (sv_gw sv) ++ gs ∧
    Forall (λ g, (go_size g ≤ 2)%nat) gs ∧
    ∀ ids, (start_op T rev o sv).1 = Ret ids → Forall (λ i, (i < length (detached (sv_gw sv) ++ gs))%nat) ids.
Proof.
  clear Hbucket. unfold start_op, gbind, glift.
  destruct (splitStores _) as [[sy asy]|e|e]; [|exists []; rewrite app_nil_r; split_and!; [done|constructor|done]..].
  exists (async_goroutines T asy o ++ sync_goroutines T sy o). unfold start_all. cbn. split_and!.
  - by rewrite (assoc_L (++)).
  - apply Forall_app. split; apply Forall_fmap, Forall_true; intros x; simpl; [lia|].
    destruct (_ <? _)%nat; simpl; lia.
  - intros ids [= <-]. apply Forall_forall. intros i [_ Hi]%elem_of_seq.
    rewrite !length_app in *. lia.
Qed.

Lemma run_pc_detached p sv :
  ∃ gs, detached (sv_gw (run_pc hm conf T p sv).2) = detached (sv_gw sv) ++ gs ∧
    Forall (λ g, (go_size g ≤ 2)%nat) gs ∧
    ∀ ids, pc_waits (next_pc p (run_pc hm conf T p sv).1) = Some ids →
      pc_waits p = Some ids ∨ Forall (λ i, (i < length (detached (sv_gw sv) ++ gs))%nat) ids.
Proof.
  clear Hbucket.
  destruct p as [| | | | | | | |k v a n| | | | |k rev| | | | |]; simpl;
    try (exists []; rewrite app_nil_r; unfold open_target, gbind, glift, gret, gfail, read_tree, on_gw, on_index, on_store,
      all_done, add_counter, read_counter, try, since_next; repeat case_match; simplify_eq/=;
      (split_and!; [done|constructor|by auto]); fail).
  - unfold gbind, glift, gret, gfail, try. destruct (getPrimaryRevBytesWithBucket _ _) as [b|e|e];
      [|exists []; rewrite app_nil_r; split_and!; [done|constructor|done]..].
    destruct (GetNodes hm b) as [ns|e|e]; [|exists []; rewrite app_nil_r; split_and!; [done|constructor|done]..].
    set (rev := Revision_SetNodes _ _). destruct (start_op_detached rev (OpPut (Revision_String rev) v) sv) as (gs & E & HF & Hids).
    destruct (start_op T rev _ sv) as [[ids|e|e] sv']; exists gs; split_and!; try done.
    intros ids' [= <-]. right. by apply Hids.
  - destruct (start_op_detached rev (OpDelete (Revision_String rev)) sv) as (gs & E & HF & Hids).
    unfold gbind, gret, try. destruct (start_op T rev _ sv) as [[ids|e|e] sv']; exists gs; split_and!; try done.
    intros ids' [= <-]. right. by apply Hids.
Qed.

Lemma execute_app t1 t2 s : execute hm conf T (t1 ++ t2) s = execute hm conf T t2 (execute hm conf T t1 s).
Proof. unfold execute. by rewrite foldl_app. Qed.

Lemma run_pc_stage p sv : (stage (next_pc p (run_pc hm conf T p sv).1) ≤ stage p)%nat.
Proof.
  clear Hbucket. destruct p as [| | | | | |k v a|k v a|k v a n|k v a rev ids|k v a rev| | | | | | | |]; simpl;
    unfold open_target, gbind, glift, gret, gfail, read_tree, on_gw, on_index, on_store, all_done,
      add_counter, read_counter, try, start_op, since_next; repeat case_match; simplify_eq/=; lia.
Qed.

Lemma run_went_on c p sv : went_on (mkThread c p) (mkThread c (next_pc p (run_pc hm conf T p sv).1)).
Proof.
  clear Hbucket. split; [done|]. split; [|apply run_pc_stage]. destruct (run_pc_rank p sv) as [?|[? _]]; [by right|by left].
Qed.

Lemma turn_threads s t : Forall2 went_on (c_threads s ++ arrivals [t]) (c_threads (take_turn hm conf T s t)).
Proof.
  clear Hbucket. destruct t as [c|i|i]; simpl; rewrite ?app_nil_r; [done|..].
  - destruct (c_threads s !! i) as [[c p]|] eqn:Hi; [|done]. destruct (locked_out _ _); [done|]. unfold run_thread.
    pose proof (run_went_on c p (c_sv s)) as Hg. cbn [th_pc th_call]. destruct (run_pc hm conf T p (c_sv s)) as [r sv'].
    by apply (Forall2_insert_self _ _ _ (mkThread c p)).
  - destruct (detached _ !! i); [|done]. by destruct (go_step _ _) as [[] ?].
Qed.

Lemma execute_threads turns s :
  Forall2 went_on (c_threads s ++ arrivals turns) (c_threads (execute hm conf T turns s)).
Proof.
  clear Hbucket. revert s. induction turns as [|t turns IH]; intros s; [simpl; by rewrite app_nil_r|].
  change (execute hm conf T (t :: turns) s) with (execute hm conf T turns (take_turn hm conf T s t)).
  etrans; [|apply IH]. change (t :: turns) with ([t] ++ turns). unfold arrivals. rewrite bind_app, (assoc_L (++)).
  apply Forall2_app; [apply turn_threads|done].
Qed.

Lemma execute_thread turns s i th :
  c_threads s !! i = Some th →
  ∃ th', c_threads (execute hm conf T turns s) !! i = Some th' ∧ advanced (th_pc th) (th_pc th').
Proof.
  intros Hi. destruct (Forall2_lookup_l _ _ _ i th (execute_threads turns s)) as (th' & ? & _ & ?); [|by exists th'].
  by apply lookup_app_l_Some.
Qed.

(** A request that waits for nothing gets on by its turn. *)
Lemma run_once s j th :
  c_threads s !! j = Some th → locked_out (c_threads s) (th_pc th) = false → ¬ blocked (th_pc th) (c_sv s) →
  ∃ th', c_threads (take_turn hm conf T s (Run j)) !! j = Some th' ∧ forward (th_pc th') (th_pc th).
Proof.
  clear Hbucket. intros Hj Hlk Hb. simpl. rewrite Hj, Hlk. unfold run_thread.
  pose proof (run_pc_rank (th_pc th) (c_sv s)) as Hr.
  destruct (run_pc hm conf T (th_pc th) (c_sv s)) as [r sv']. cbn [fst] in Hr. eexists. cbn [c_threads].
  rewrite list_lookup_insert_eq by (by eapply lookup_lt_Some). split; [done|]. cbn [th_pc].
  destruct Hr as [?|[-> [?|?]]]; [by left|by right|done].
Qed.

Lemma run_forward pre post s j th :
  c_threads s !! j = Some th →
  (∀ th1, c_threads (execute hm conf T pre s) !! j = Some th1 → th_pc th1 = th_pc th →
     locked_out (c_threads (execute hm conf T pre s)) (th_pc th) = false ∧
     ¬ blocked (th_pc th) (c_sv (execute hm conf T pre s))) →
  ∃ th', c_threads (execute hm conf T (pre ++ Run j :: post) s) !! j = Some th' ∧ forward (th_pc th') (th_pc th).
Proof.
  clear Hbucket. intros Hj Hfree. destruct (execute_thread pre s j th Hj) as (th1 & H1 & A1).
  rewrite execute_app. set (s1 := execute hm conf T pre s) in *.
  change (execute hm conf T (Run j :: post) s1) with (execute hm conf T post (take_turn hm conf T s1 (Run j))).
  assert (∃ th2, c_threads (take_turn hm conf T s1 (Run j)) !! j = Some th2 ∧ forward (th_pc th2) (th_pc th))
    as (th2 & H2 & F2).
  { pose proof A1 as [[E1|C1] _].
    - destruct (Hfree th1 H1 E1). rewrite <- E1 in *. by apply run_once.
    - destruct (execute_thread [Run j] s1 j th1 H1) as (th2 & H2 & A2). exists th2. split; [done|].
      eapply forward_advanced; [|exact A2]. by left. }
  destruct (execute_thread post _ j th2 H2) as (th3 & H3 & A3). exists th3. split; [done|].
  by eapply forward_advanced.
Qed.

(** An update that has the lock gives it back by its turn. *)
Lemma update_ends turns s u th :
  c_threads s !! u = Some th → holds_read (th_pc th) = true → Run u ∈ turns →
  ∃ th', c_threads (execute hm conf T turns s) !! u = Some th' ∧ stage (th_pc th') = 0%nat.
Proof.
  clear Hbucket. intros Hu Hh (t1 & t2 & ->)%list_elem_of_split.
  destruct (run_forward t1 t2 s u th Hu) as (th' & H' & F').
  { intros th1 _ _. destruct (th_pc th); try done. split; [done|]. by intros (? & ? & _). }
  exists th'. split; [done|]. apply rank_stage. destruct F' as [C|?]; [|done].
  destruct (th_pc th); try done. unfold closer in C. simpl in C. lia.
Qed.

(** * Goroutines *)

Lemma turn_go s dd t i g :
  cinv hm s dd → detached (sv_gw (c_sv s)) !! i = Some g →
  ∃ g', detached (sv_gw (c_sv (take_turn hm conf T s t))) !! i = Some g' ∧ (go_size g' ≤ go_size g)%nat ∧
    (t = Go i → (go_size g' ≤ pred (go_size g))%nat).
Proof.
  clear Hbucket. intros Hinv Hi. destruct t as [c|j|j]; simpl.
  - by exists g.
  - exists g. destruct (c_threads s !! j) as [th|] eqn:Hj; [|done]. destruct (locked_out _ _); [done|]. unfold run_thread.
    destruct (run_pc hm conf T (th_pc th) (c_sv s)) as [r sv'] eqn:E. cbn [c_sv]. split; [|done].
    destruct (run_pc_detached (th_pc th) (c_sv s)) as (gs & Egs & _). rewrite E in Egs. simpl in Egs. rewrite Egs.
    by apply lookup_app_l_Some.
  - destruct (detached (sv_gw (c_sv s)) !! j) as [g1|] eqn:Hj; [|exists g; split_and!; [done..|intros [= ->]; congruence]].
    destruct (go_step_described _ _ dd j g1 (ci_described _ _ _ Hinv) Hj) as (o & ns & g' & w' & ns' & _ & E & _).
    rewrite E. cbn [c_sv sv_gw detached]. pose proof (go_step_size _ _ _ _ E) as Hsz.
    destruct (decide (i = j)) as [->|Hne].
    + simplify_eq. exists g'. rewrite list_lookup_insert_eq by (by eapply lookup_lt_Some). split_and!; [done|lia|done].
    + exists g. rewrite list_lookup_insert_ne by done. split_and!; [done..|]. intros [= ?]. congruence.
Qed.

(** Goroutines have at most two steps left, and requests wait for goroutines that exist. *)
Definition bounded (s : csys) : Prop :=
  Forall (λ g, (go_size g ≤ 2)%nat) (detached (sv_gw (c_sv s))) ∧
  ∀ th ids, th ∈ c_threads s → pc_waits (th_pc th) = Some ids →
    Forall (λ i, (i < length (detached (sv_gw (c_sv s))))%nat) ids.

Lemma bounded_turn s t : consistent hm s → bounded s → bounded (take_turn hm conf T s t).
Proof.
  clear Hbucket. intros [dd Hinv] [HF Hw]. destruct t as [c|j|j]; simpl.
  - split; [done|]. cbn [c_threads c_sv].
    intros th ids [Hin|Hin%list_elem_of_singleton]%elem_of_app; [by apply Hw|]. subst th. by destruct c.
  - destruct (c_threads s !! j) as [th|] eqn:Hj; [|done]. destruct (locked_out _ _); [done|]. unfold run_thread.
    destruct (run_pc_detached (th_pc th) (c_sv s)) as (gs & Egs & Hgs & Hids).
    destruct (run_pc hm conf T (th_pc th) (c_sv s)) as [r sv'] eqn:E. cbn [fst snd] in Egs, Hids.
    unfold bounded. cbn [c_sv c_threads]. rewrite Egs. split; [by apply Forall_app|].
    assert (∀ th' ids, th' ∈ c_threads s → pc_waits (th_pc th') = Some ids →
      Forall (λ i, (i < length (detached (sv_gw (c_sv s)) ++ gs))%nat) ids) as Hold.
    { intros th' ids Hin Hp. eapply Forall_impl; [by eapply Hw|]. intros i Hi. simpl in *. rewrite length_app. lia. }
    intros th' ids [->|Hin]%elem_of_insert; [|by apply Hold]. intros [Hp|?]%Hids; [|done].
    eapply Hold; [by eapply list_elem_of_lookup_2|done].
  - destruct (detached (sv_gw (c_sv s)) !! j) as [g|] eqn:Hj; [|done].
    destruct (go_step_described _ _ dd j g (ci_described _ _ _ Hinv) Hj) as (o & ns & g' & w' & ns' & _ & E & _).
    rewrite E. split; cbn [c_sv sv_gw detached c_threads]; [|by rewrite length_insert].
    apply Forall_insert; [done|]. pose proof (go_step_size _ _ _ _ E).
    pose proof (Forall_lookup_1 _ _ _ _ HF Hj). simpl in *. lia.
Qed.

(** ** Counting the revisions *)

(** A key has no more revisions than there are finished writes and deletions, and a read
    of the history no more left to read. *)
Definition counted (s : csys) : Prop :=
  (∀ k, length (revs_at (sv_index (c_sv s)) k) ≤ ended (c_threads s))%nat ∧
  ∀ th k from, th ∈ c_threads s → th_call th = CSince k from → phase (th_pc th) = 0%nat →
    (pc_rank (th_pc th) ≤ 2 * ended (c_threads s))%nat.

Lemma since_next_rank from got todo : pc_rank (since_next from got todo) = (2 * length todo)%nat.
Proof. destruct todo; simpl; lia. Qed.

Lemma ended_one_run c p sv :
  (ended_one (mkThread c p) ≤ ended_one (mkThread c (next_pc p (run_pc hm conf T p sv).1)))%nat.
Proof.
  destruct (run_pc_later hm conf (T:=T) p sv c) as (_ & _ & _ & Hr). cbn [th_pc] in Hr.
  unfold ended_one. destruct c; cbn [th_call th_pc]; [lia|lia|..];
    (destruct p; [lia..|]; by rewrite (Hr tag res eq_refl)).
Qed.

(** A step that adds a revision to the index is the last of its request. *)
Lemma run_pc_revs s dd c p k :
  cinv hm s dd → mkThread c p ∈ c_threads s →
  let p' := next_pc p (run_pc hm conf T p (c_sv s)).1 in
  (length (revs_at (sv_index (run_pc hm conf T p (c_sv s)).2) k) + ended_one (mkThread c p)
    ≤ length (revs_at (sv_index (c_sv s)) k) + ended_one (mkThread c p'))%nat.
Proof.
  clear Hbucket. intros Hinv Hin p'. pose proof (ci_index _ _ _ Hinv) as Hok.
  pose proof (ci_threads _ _ _ Hinv _ Hin) as Hth.
  pose proof (ended_one_run c p (c_sv s)) as Hmono. fold p' in Hmono.
  assert (∀ rev k', sv_index (run_pc hm conf T p (c_sv s)).2 = (treeIndex_Put k' rev (sv_index (c_sv s))).2 →
    ended_one (mkThread c p) = 0%nat → ended_one (mkThread c p') = 1%nat →
    (length (revs_at (sv_index (run_pc hm conf T p (c_sv s)).2) k) + ended_one (mkThread c p)
      ≤ length (revs_at (sv_index (c_sv s)) k) + ended_one (mkThread c p'))%nat) as Hput.
  { intros rev k' -> -> ->. rewrite put_revs_at by done. case_decide as Hk; [subst; simpl; lia|lia]. }
  pose proof (run_pc_index hm conf (T:=T) p (c_sv s)) as Hx.
  assert (∀ k0 v0 rev, next_pc p ((do! _ <- on_index (treeIndex_Put k0 rev);
     gret (Replied (Some rev) (Ret (stored_text k0 v0 (uint64 (main rev)) (Join "," (Revision_GetNodes rev)))))) (c_sv s)).1
     = Replied (Some rev) (Ret (stored_text k0 v0 (uint64 (main rev)) (Join "," (nodes rev))))) as Hrep.
  { intros k0 v0 rev. by rewrite put_run. }
  destruct p; try (rewrite Hx; unfold revs_at in *; cbn [tree]; lia).
  - destruct a as [a|]; [rewrite Hx; lia|]. apply (Hput rev k0 Hx); [by destruct c|].
    unfold p'. cbn [run_pc]. rewrite Hrep. by destruct c.
  - apply (Hput rev k0 Hx); [by destruct c|]. unfold p'. cbn [run_pc]. rewrite Hrep. by destruct c.
  - destruct c; try done. destruct Hth as (-> & Hsub & _).
    destruct (DelTomb_step hm conf (T:=T) k1 rev err n (c_sv s) Hok Hsub) as (res & _ & E).
    unfold p'. rewrite E. cbn [fst snd next_pc sv_index].
    destruct (tombstone_index _ k1 n Hok) as (_ & _ & _ & _ & Hlen). specialize (Hlen k).
    cbn. lia.
Qed.

(** What a read of the history finds left to read when it looks. *)
Lemma since_left s dd c p k from :
  cinv hm s dd → mkThread c p ∈ c_threads s →
  (∀ k, length (revs_at (sv_index (c_sv s)) k) ≤ ended (c_threads s))%nat → c = CSince k from → phase p = 1%nat →
  (pc_rank (next_pc p (run_pc hm conf T p (c_sv s)).1) ≤ 2 * ended (c_threads s))%nat.
Proof.
  clear Hbucket. intros Hinv Hin Hk -> Hp. destruct p as [| | |k' from'| | | | | | | | | | | | | | |]; try done.
  cbn [run_pc]. unfold gbind, read_tree. rewrite RangeSince_key by apply Hinv. cbn [fst next_pc gret].
  rewrite since_next_rank. specialize (Hk k'). unfold revs_at in Hk.
  destruct (_ !! k') as [ki|]; cbn [from_option] in *; [|simpl; lia]. unfold since_spec.
  assert (collapse (filter (λ r, from' ≤ main r) (generations ki ≫= revs)) `sublist_of` generations ki ≫= revs)
    as Hsub%sublist_length by (etrans; [apply collapse_sublist|apply sublist_filter]). lia.
Qed.

Lemma counted_turn s t : consistent hm s → counted s → counted (take_turn hm conf T s t).
Proof.
  clear Hbucket. intros [dd Hinv] [Hk Hs]. destruct t as [c|j|j]; cbn [take_turn].
  - assert (ended (c_threads s ++ [mkThread c (start_pc c)]) = ended (c_threads s)) as E.
    { unfold ended. rewrite sum_list_with_app. destruct c; cbn; lia. }
    split; cbn [c_sv c_threads]; rewrite E; [done|].
    intros th k from [Hin|Hin%list_elem_of_singleton]%elem_of_app Hc Hp; [by eapply Hs|].
    subst th. cbn in Hc. by subst c.
  - destruct (c_threads s !! j) as [[c p]|] eqn:Hj; [|done]. destruct (locked_out _ _); [done|].
    unfold run_thread. cbn [th_pc th_call]. pose proof (list_elem_of_lookup_2 _ _ _ Hj) as Hin.
    pose proof (λ k, run_pc_revs s dd c p k Hinv Hin) as Hrevs. pose proof (run_went_on c p (c_sv s)) as [_ Ha].
    pose proof (ended_one_run c p (c_sv s)) as Hmono. pose proof (λ k from, since_left s dd c p k from Hinv Hin Hk) as Hleft.
    destruct (run_pc hm conf T p (c_sv s)) as [r sv']. cbn [fst snd th_pc] in *.
    pose proof (sum_insert ended_one _ _ _ (mkThread c (next_pc p r)) Hj) as Hsum.
    fold (ended (c_threads s)) in Hsum. unfold counted. cbn [c_sv c_threads].
    set (ths' := <[j := _]> (c_threads s)) in *. fold (ended ths') in Hsum.
    split; [intros k; specialize (Hrevs k); specialize (Hk k); lia|].
    intros th k from [->|Hth]%elem_of_insert Hc Hp; [|specialize (Hs th k from Hth Hc Hp); lia].
    cbn in Hc, Hp |- *. subst c. destruct (phase p) as [|[|]] eqn:Ep; [|specialize (Hleft k from eq_refl eq_refl); lia|by destruct p].
    specialize (Hs _ k from Hin eq_refl Ep). destruct (advanced_rank _ _ Ha Ep). cbn [th_pc] in Hs. lia.
  - destruct (detached _ !! j) as [g|]; [|done]. by destruct (go_step g _) as [[] ?].
Qed.

Definition fit (s : csys) (turns : list turn) : Prop :=
  consistent hm s ∧ bounded s ∧ counted s ∧ room s turns.

Lemma fit_app s turns1 turns2 : fit s (turns1 ++ turns2) → fit (execute hm conf T turns1 s) turns2.
Proof.
  revert s. induction turns1 as [|t turns1 IH]; intros s; [done|].
  intros (Hcon & Hb & Hcnt & Hroom).
  change (execute hm conf T (t :: turns1) s) with (execute hm conf T turns1 (take_turn hm conf T s t)).
  apply IH. unfold room in *. cbn [length app] in Hroom.
  pose proof Hcon as [dd Hinv]. destruct (turn_moves hm conf s dd t Hinv ltac:(lia)) as [Hc _].
  split; [by apply (cinv_turn hm conf Hbucket s dd t Hinv ltac:(lia))|]. 
  split_and!; [by apply bounded_turn..|by apply counted_turn|unfold room; lia].
Qed.

Lemma fit_prefix s turns1 turns2 : fit s (turns1 ++ turns2) → fit s turns1.
Proof.
  intros (? & ? & ? & Hroom). do 3 (split; [done|]). unfold room in *. rewrite length_app in Hroom. lia.
Qed.

Lemma execute_go turns s i g :
  fit s turns → detached (sv_gw (c_sv s)) !! i = Some g →
  ∃ g', detached (sv_gw (c_sv (execute hm conf T turns s))) !! i = Some g' ∧ (go_size g' ≤ go_size g)%nat ∧
    (Go i ∈ turns → (go_size g' ≤ pred (go_size g))%nat).
Proof.
  revert s g. induction turns as [|t turns IH]; intros s g Hfit Hi.
  { exists g. split_and!; [done..|]. by intros ?%elem_of_nil. }
  pose proof (fit_app s [t] turns Hfit) as Hfit1. destruct Hfit as ([dd Hinv] & _).
  destruct (turn_go s dd t i g Hinv Hi) as (g1 & H1 & Hle1 & Hgo1).
  destruct (IH _ g1 Hfit1 H1) as (g2 & H2 & Hle2 & Hgo2).
  exists g2. split_and!; [done|lia|]. intros [<-|Hin]%elem_of_cons.
  - specialize (Hgo1 eq_refl). lia.
  - specialize (Hgo2 Hin). lia.
Qed.

(** * Rounds *)

(** Everyone who is there gets a turn: first the goroutines, two each, then the
    requests; anything else may happen in between. *)
Definition round (s : csys) (turns : list turn) : Prop :=
  ∃ a b c, turns = a ++ b ++ c ∧
    (∀ i, (i < length (detached (sv_gw (c_sv s))))%nat → Go i ∈ a ∧ Go i ∈ b) ∧
    (∀ j, (j < length (c_threads s))%nat → Run j ∈ c).

Inductive rounds : nat → csys → list turn → Prop :=
  | rounds_0 s turns : rounds 0 s turns
  | rounds_S n s turns1 turns2 :
      round s turns1 → rounds n (execute hm conf T turns1 s) turns2 → rounds (S n) s (turns1 ++ turns2).

(** Two turns, and a goroutine is done for good. *)
Lemma goroutines_done s a b c i :
  fit s (a ++ b ++ c) → (i < length (detached (sv_gw (c_sv s))))%nat → Go i ∈ a → Go i ∈ b →
  is_done (detached (sv_gw (c_sv (execute hm conf T (a ++ b ++ c) s))) !! i) = true.
Proof.
  intros Hfit [g Hg]%lookup_lt_is_Some_2 Ha Hb. pose proof Hfit as (_ & [HF _] & _).
  pose proof (Forall_lookup_1 _ _ _ _ HF Hg) as Hsz. simpl in Hsz.
  pose proof (fit_app _ _ _ Hfit) as Hfit1. pose proof (fit_app _ _ _ Hfit1) as Hfit2.
  pose proof (fit_prefix _ _ _ Hfit) as Hfa. pose proof (fit_prefix _ _ _ Hfit1) as Hfb.
  destruct (execute_go a s i g Hfa Hg) as (g1 & H1 & _ & S1). specialize (S1 Ha).
  destruct (execute_go b _ i g1 Hfb H1) as (g2 & H2 & _ & S2). specialize (S2 Hb).
  destruct (execute_go c _ i g2 Hfit2 H2) as (g3 & H3 & S3 & _).
  rewrite !execute_app, H3, (go_size_zero g3); [done|lia].
Qed.

(** A request kept from the lock: an update got on in the round. *)
Lemma lock_held s pre turns u th1 :
  c_threads (execute hm conf T pre s) !! u = Some th1 → holds_read (th_pc th1) = true →
  ((u < length (c_threads s))%nat → Run u ∈ pre ++ turns) →
  (load (c_threads (execute hm conf T (pre ++ turns) s)) < load (c_threads s ++ arrivals (pre ++ turns)))%nat.
Proof.
  clear Hbucket. intros Hu Hh Hrun. pose proof (execute_threads pre s) as HF.
  destruct (Forall2_lookup_r _ _ _ _ _ HF Hu) as (th0 & Hth0 & _ & [_ S0]).
  destruct (execute_thread turns _ u th1 Hu) as (th2 & H2 & [_ S2]). rewrite <- execute_app in H2.
  assert (stage (th_pc th1) = 1%nat) as S1 by by destruct (th_pc th1).
  assert ((c_threads s ++ arrivals (pre ++ turns)) !! u = Some th0) as Hth0'.
  { unfold arrivals. rewrite bind_app, (assoc_L (++)). by apply lookup_app_l_Some. }
  destruct (decide (stage (th_pc th2) < stage (th_pc th0))%nat) as [|Hge];
    [eapply load_lt; [apply execute_threads|done..]|].
  assert (stage (th_pc th0) = 1%nat) as E0 by lia.
  assert (holds_read (th_pc th0) = true) as Hh0 by (destruct (th_pc th0); simpl in E0; by repeat case_match).
  apply lookup_app_Some in Hth0 as [Hth0|[_ Hth0]].
  - destruct (update_ends (pre ++ turns) s u th0 Hth0 Hh0) as (th3 & H3 & E3); [apply Hrun; by eapply lookup_lt_Some|].
    rewrite H2 in H3. simplify_eq. lia.
  - apply list_elem_of_lookup_2, list_elem_of_bind in Hth0 as (t & Ht & _).
    destruct t; [|by apply elem_of_nil in Ht..]. apply list_elem_of_singleton in Ht. subst th0. by destruct c.
Qed.

(** A round is a step forward for every request, or for an update. *)
Lemma round_rank s turns j th :
  fit s turns → round s turns → c_threads s !! j = Some th →
  ∃ th', c_threads (execute hm conf T turns s) !! j = Some th' ∧ advanced (th_pc th) (th_pc th') ∧
    (forward (th_pc th') (th_pc th) ∨
     (load (c_threads (execute hm conf T turns s)) < load (c_threads s ++ arrivals turns))%nat).
Proof.
  intros Hfit (a & b & c & -> & Hgo & Hrun) Hj. pose proof (lookup_lt_Some _ _ _ Hj) as Hlt.
  destruct (execute_thread (a ++ b ++ c) s j th Hj) as (th' & Hj' & Ha). exists th'. split; [done|]. split; [done|].
  destruct (list_elem_of_split _ _ (Hrun j Hlt)) as (c1 & c2 & ->).
  set (pre := a ++ b ++ c1).
  assert (a ++ b ++ c1 ++ Run j :: c2 = pre ++ Run j :: c2) as E by (unfold pre; by rewrite <- !(assoc_L (++))).
  assert (∀ u, (u < length (c_threads s))%nat → Run u ∈ pre ++ Run j :: c2) as Hruns.
  { intros u Hu. rewrite <- E. apply elem_of_app. right. apply elem_of_app. right. by apply Hrun. }
  rewrite E in *.
  destruct (locked_out (c_threads (execute hm conf T pre s)) (th_pc th)) eqn:Hlk.
  { right. apply andb_true_iff in Hlk as [_ (thu & Hin & Hh)%existsb_exists].
    apply list_elem_of_In, list_elem_of_lookup in Hin as [u Hu]. by eapply lock_held; [..|apply Hruns]. }
  left. destruct (run_forward pre c2 s j th Hj) as (th2 & H2 & F2); [|by rewrite H2 in Hj'; simplify_eq].
  intros th1 _ _. split; [done|]. intros (ids & Hw & i & Hi & Hd). pose proof Hfit as (_ & [_ Hb] & _).
  pose proof (Hb th ids (list_elem_of_lookup_2 _ _ _ Hj) Hw) as HFi. rewrite Forall_forall in HFi.
  destruct (Hgo i (HFi i Hi)) as [Ha' Hb'].
  pose proof (goroutines_done s a b c1 i) as Hdone. fold pre in Hdone.
  rewrite Hdone in Hd; [done|by eapply fit_prefix|by apply HFi|done|done].
Qed.

(** What a request has left to do, when no read of the history finds more than [N]
    revisions. *)
Definition weight (N : nat) (p : pc) : nat :=
  match p with SinceIndex _ _ => 1 + 2 * N | _ => pc_rank p end.

Lemma weight_rank N p : phase p = 0%nat → weight N p = pc_rank p.
Proof. by destruct p. Qed.

Lemma phase_call s dd th : cinv hm s dd → th ∈ c_threads s → phase (th_pc th) ≠ 0%nat → ∃ k from, th_call th = CSince k from.
Proof.
  clear Hbucket. intros Hinv Hin Hp. pose proof (ci_threads _ _ _ Hinv th Hin) as Hok. unfold thread_ok in Hok.
  destruct (th_call th) as [k|k from|k v|k v a|k]; [|by eexists _, _|..]; by destruct (th_pc th).
Qed.

Lemma weight_advanced N s th th' :
  counted s → th' ∈ c_threads s → (ended (c_threads s) ≤ N)%nat → went_on th th' →
  (phase (th_pc th) ≠ 0%nat → ∃ k from, th_call th = CSince k from) →
  (weight N (th_pc th') ≤ weight N (th_pc th))%nat ∧
  (forward (th_pc th') (th_pc th) → weight N (th_pc th') ≤ pred (weight N (th_pc th)))%nat.
Proof.
  clear Hbucket. intros [_ Hs] Hin HN [Hc Ha] Hph. destruct (decide (phase (th_pc th) = 0%nat)) as [Ep|Ep].
  - destruct (advanced_rank _ _ Ha Ep) as [Ep' Hr]. rewrite !weight_rank by done. split; [done|].
    intros [Hcl|Hz]; [unfold closer in Hcl; lia|lia].
  - destruct (Hph Ep) as (k & from & Ek). rewrite <- Hc in Ek.
    assert (weight N (th_pc th) = 1 + 2 * N)%nat as -> by by destruct (th_pc th).
    destruct (decide (phase (th_pc th') = 0%nat)) as [Ep'|Ep'].
    + rewrite weight_rank by done. specialize (Hs th' k from Hin Ek Ep'). lia.
    + destruct (th_pc th'); try done. destruct (th_pc th); try done. split; [done|].
      unfold forward, closer. simpl. lia.
Qed.

Lemma execute_weight turns s j th N :
  fit s turns → c_threads s !! j = Some th →
  (changes_in (c_threads (execute hm conf T turns s)) ≤ N)%nat →
  ∃ th', c_threads (execute hm conf T turns s) !! j = Some th' ∧
    (weight N (th_pc th') ≤ weight N (th_pc th))%nat ∧
    (forward (th_pc th') (th_pc th) → weight N (th_pc th') ≤ pred (weight N (th_pc th)))%nat.
Proof.
  intros Hfit Hj HN. destruct (Forall2_lookup_l _ _ _ j th (execute_threads turns s)) as (th' & Hj' & Hw).
  { by apply lookup_app_l_Some. }
  exists th'. split; [done|]. pose proof Hfit as ([dd Hinv] & _).
  rewrite <- (app_nil_r turns) in Hfit. apply fit_app in Hfit as (_ & _ & Hcnt & _).
  pose proof (ended_changes (c_threads (execute hm conf T turns s))) as He.
  apply (weight_advanced N (execute hm conf T turns s)); [done|by eapply list_elem_of_lookup_2|lia|done|].
  by eapply phase_call; [done|eapply list_elem_of_lookup_2].
Qed.

Lemma rounds_rank n s turns j th N :
  fit s turns → rounds n s turns → c_threads s !! j = Some th →
  (changes_in (c_threads (execute hm conf T turns s)) ≤ N)%nat →
  ∃ th', c_threads (execute hm conf T turns s) !! j = Some th' ∧
    (weight N (th_pc th') = 0%nat ∨
     (weight N (th_pc th') + n ≤ weight N (th_pc th) + load (c_threads s ++ arrivals turns))%nat).
Proof.
  intros Hfit Hr. revert th Hfit. induction Hr as [s turns|n s turns1 turns2 Hround Hr IH]; intros th Hfit Hj HN.
  - destruct (execute_weight turns s j th N Hfit Hj HN) as (th' & Hj' & Hw & _). exists th'. split; [done|]. right. lia.
  - pose proof (fit_app _ _ _ Hfit) as Hfit2. pose proof (fit_prefix _ _ _ Hfit) as Hfit1. rewrite execute_app in *.
    assert (changes_in (c_threads (execute hm conf T turns1 s)) ≤ N)%nat as HN1.
    { rewrite (changes_went_on _ _ (execute_threads turns2 _)) in HN. unfold changes_in in *.
      rewrite sum_list_with_app in HN. lia. }
    destruct (round_rank s turns1 j th Hfit1 Hround Hj) as (th1 & H1 & _ & R1).
    destruct (execute_weight turns1 s j th N Hfit1 Hj HN1) as (th1' & H1' & W1 & F1). simplify_eq.
    destruct (IH th1 Hfit2 H1 HN) as (th2 & H2 & R2). exists th2. split; [done|].
    destruct R2 as [?|R2]; [by left|]. destruct (decide (weight N (th_pc th1) = 0%nat)) as [Hz|Hnz].
    { left. destruct (execute_weight turns2 _ j th1 N Hfit2 H1 HN) as (th3 & H3 & W3 & _). simplify_eq. lia. }
    right. pose proof (load_mono _ _ (execute_threads turns1 s)) as Hm.
    unfold arrivals in *. rewrite bind_app, (assoc_L (++)), load_app. rewrite load_app in R2.
    destruct R1 as [R1|R1]; [specialize (F1 R1)|]; lia.
Qed.

(** ** Counting the updates *)

Definition updates (ths : list thread) : nat := length (filter (λ th, is_Some (assumes (th_call th))) ths).

Lemma load_updates ths :
  Forall (λ th, stage (th_pc th) = 0%nat ∨ is_Some (assumes (th_call th))) ths → (load ths ≤ 2 * updates ths)%nat.
Proof.
  induction 1 as [|th ths Hth _ IH]; [done|]. unfold load, updates in *. simpl. rewrite filter_cons.
  assert (stage (th_pc th) ≤ 2)%nat by (destruct (th_pc th); simpl; repeat case_match; lia).
  case_decide; [simpl; lia|]. destruct Hth; [lia|done].
Qed.

Lemma stage_updates s dd : cinv hm s dd → Forall (λ th, stage (th_pc th) = 0%nat ∨ is_Some (assumes (th_call th))) (c_threads s).
Proof.
  clear Hbucket. intros Hinv. apply Forall_forall. intros [c p] Hin. pose proof (ci_threads _ _ _ Hinv _ Hin) as Hok.
  destruct c as [k|k from|k v|k v a|k]; simpl in *; [left|left| |right; by eexists|left]; [by destruct p|by destruct p| |by destruct p].
  left. destruct p; simpl in *; try done; try (by destruct Hok as (_ & _ & -> & _)); try (by destruct Hok as (_ & _ & ->)).
  by destruct Hok as (_ & _ & [? ?] & _).
Qed.

Lemma updates_app l1 l2 : updates (l1 ++ l2) = (updates l1 + updates l2)%nat.
Proof. unfold updates. by rewrite filter_app, length_app. Qed.

Lemma updates_went_on l l' : Forall2 went_on l l' → updates l' = updates l.
Proof.
  induction 1 as [|x y l l' [E _] _ IH]; [done|]. unfold updates in *. rewrite !filter_cons, E. case_decide; simpl; lia.
Qed.

Lemma arrivals_updates turns : Forall (λ th, stage (th_pc th) = 0%nat ∨ is_Some (assumes (th_call th))) (arrivals turns).
Proof.
  apply Forall_forall. intros th ([c| |] & Ht & _)%list_elem_of_bind; [|by apply elem_of_nil in Ht..].
  apply list_elem_of_singleton in Ht. subst th. destruct c; simpl; eauto.
Qed.

Lemma start_bounded w : bounded (quiet (start w)).
Proof. split; [constructor|]. by intros th ids ?%elem_of_nil. Qed.

Lemma start_counted w : counted (quiet (start w)).
Proof.
  split; [|by intros th k from ?%elem_of_nil]. intros k. unfold revs_at. simpl. by rewrite bt_New_map.
Qed.

(** A round that can be run from any state. *)
Definition fair_round (s : csys) : list turn :=
  let gos := Go <$> seq 0 (length (detached (sv_gw (c_sv s)))) in
  gos ++ gos ++ (Run <$> seq 0 (length (c_threads s))).

Lemma fair_round_ok s : round s (fair_round s).
Proof.
  clear Hbucket. eexists _, _, _. split; [done|]. split.
  - intros i Hi. split; apply list_elem_of_fmap; exists i; (split; [done|]); apply elem_of_seq; lia.
  - intros j Hj. apply list_elem_of_fmap. exists j. split; [done|]. apply elem_of_seq. lia.
Qed.
End progress.

(** * Properties *)

(** The rounds a request needs: six or, for a read of the history, one and two for every
    write and deletion there is, and two more for every conditional write. *)
Definition rounds_needed (c : call) (ths : list thread) : nat :=
  match c with CSince _ _ => 1 + 2 * changes_in ths | _ => 6 end + 2 * updates ths.

Lemma weight_needed `{!GoSort} {B : BTree} {L : BTreeLaws B} `{!Hasher} {R : Redigo}
    (hm : HashingManager) {T : string} {SL : StoreLaws T} s dd th N :
  cinv hm (T:=T) s dd → counted s → th ∈ c_threads s → (changes_in (c_threads s) ≤ N)%nat →
  (weight N (th_pc th) ≤ match th_call th with CSince _ _ => 1 + 2 * N | _ => 6 end)%nat.
Proof.
  intros Hinv [_ Hs] Hin HN. pose proof (ended_changes (c_threads s)) as He.
  pose proof (ci_threads _ _ _ Hinv th Hin) as Hok. unfold thread_ok in Hok.
  destruct (th_call th) as [k|k from|k v|k v a|k] eqn:Ec; [by destruct (th_pc th); try done; simpl; lia| |
    by destruct (th_pc th); try done; simpl; lia..].
  destruct (decide (phase (th_pc th) = 0%nat)) as [Ep|Ep]; [|by destruct (th_pc th)].
  rewrite weight_rank by done. specialize (Hs th k from Hin Ec Ep). lia.
Qed.

(** C6. Every request is answered: after any execution, [rounds_needed] rounds in which
    everyone who is there gets a turn -- whatever else arrives and runs meanwhile -- are
    enough for a request that had arrived to be finished. *)
Theorem rounds_finish `{!GoSort} {B : BTree} {L : BTreeLaws B} `{!Hasher} {R : Redigo}
    (hm : HashingManager) (conf : KVConfiguration) {T : string} {SL : StoreLaws T} turns1 turns2 w j th :
  ready hm conf w → few (turns1 ++ turns2) →
  c_threads (after hm conf (T:=T) turns1 w) !! j = Some th →
  rounds hm conf (T:=T)
    (rounds_needed (th_call th) (c_threads (after hm conf (T:=T) (turns1 ++ turns2) w)))
    (after hm conf (T:=T) turns1 w) turns2 →
  is_Some (reply (after hm conf (T:=T) (turns1 ++ turns2) w) j).
Proof.
  intros Hr Hf Hj Hrounds.
  assert (fit hm (quiet (start w)) (turns1 ++ turns2)) as Hfit.
  { split; [by eapply start_consistent|]. split; [apply start_bounded|]. split; [apply start_counted|done]. }
  apply (fit_app hm conf (rd_bucket _ _ _ Hr)) in Hfit. rewrite after_app in *.
  set (s := after hm conf (T:=T) turns1 w) in *. set (N := changes_in (c_threads (execute hm conf T turns2 s))).
  destruct (rounds_rank hm conf (rd_bucket _ _ _ Hr) _ s turns2 j th N Hfit Hrounds Hj) as (th' & E & Hle); [done|].
  unfold reply. rewrite E. destruct th' as [c p]. cbn [th_pc] in Hle.
  assert (weight N p = 0)%nat as Hz; [|destruct p; simpl in Hz; lia || by eexists]. destruct Hle as [?|Hle]; [done|].
  pose proof Hfit as ([dd Hinv] & _ & Hcnt & _).
  assert (changes_in (c_threads s) ≤ N)%nat as HN.
  { unfold N. rewrite (changes_went_on _ _ (execute_threads hm conf turns2 _)). unfold changes_in.
    rewrite sum_list_with_app. lia. }
  pose proof (weight_needed hm s dd th N Hinv Hcnt (list_elem_of_lookup_2 _ _ _ Hj) HN) as Hw.
  pose proof (load_updates (c_threads s ++ arrivals turns2)) as Hload.
  specialize (Hload (proj2 (Forall_app _ _ _) (conj (stage_updates hm _ _ Hinv) (arrivals_updates turns2)))).
  unfold rounds_needed in Hle. rewrite (updates_went_on _ _ (execute_threads hm conf turns2 _)) in Hle. fold N in Hle. lia.
Qed.

(** * A concrete schedule *)

#[local] Existing Instance suffix_Hasher.

(** Requests arrive, a conditional write and a read of the history among them; [fair_rounds n] are [n] fair rounds from a state on. *)
Definition demo_arrive : list turn :=
  [Arrive (CPut "k" "1"); Arrive (CDelete "k"); Arrive (CUpdate "k" "2" 1); Arrive (CSince "k" 0)].
Fixpoint fair_rounds (n : nat) (s : csys) : list turn :=
  match n with
  | O => []
  | S n =>
      fair_round s ++ fair_rounds n (execute demo_hm (demo_conf Memory) Memory (fair_round s) s)
  end.

Lemma fair_rounds_ok n s : rounds demo_hm (demo_conf Memory) (T:=Memory) n s (fair_rounds n s).
Proof. revert s. induction n as [|n IH]; intros s; constructor; [apply fair_round_ok|apply IH]. Qed.

Definition demo_rounds : list turn :=
  fair_rounds 9 (after demo_hm (demo_conf Memory) (T:=Memory) demo_arrive (demo_world Memory)).

Lemma rounds_finish_witness :
  is_Some (reply (after demo_hm (demo_conf Memory) (T:=Memory) (demo_arrive ++ demo_rounds) (demo_world Memory)) 3).
Proof.
  eapply (rounds_finish demo_hm (demo_conf Memory) (T:=Memory));
    [apply demo_ready|by vm_compute|by vm_compute|].
  replace (rounds_needed _ _) with 9%nat by by vm_compute. apply fair_rounds_ok.
Defined.
