(* ===== verification/Serial.v ===== *)
(** Requests one after another in the concurrent model: [serial_refines], they are answered as
    the versioned map answers them.

    [Handler] runs a request to its end, with the goroutines it waits for inside [wait];
    [Concurrent] runs it from one access of shared state to the next.  [serial_execution] has
    the first as an instance of the second: what [serve_all] answers, under whatever schedules, some
    list of turns answers, request by request, and the states stay the same up to the
    goroutines that are done, which [wait] drops and the concurrent model keeps at their
    positions ([mirrors]). *)
From stdpp Require Import base gmap list strings pretty.
From S2P Require Import Prelude GoStd Json Hashing HashingManager Latency Config Revision KeyIndex KeyHistory BTree TreeIndex Database ChainNode Runtime Chain Piping Handler VersionedMap Service Concurrent.

Open Scope Z_scope.

(** * Goroutines at other positions *)








(** * Runs of one request *)

Section serial.
Context `{!GoSort} {B : BTree} `{!Hasher} {R : Redigo} `{!Json}.
Context (hm : HashingManager) (conf : KVConfiguration) (T : string).

Abbreviation h := (mkHandler hm conf (SyncAsyncPiping T)).










Lemma sched_length sched gs w gs' w' : run_sched sched gs w = (Ret gs', w') → length gs' = length gs.
Proof. intros E. by apply run_sched_size in E as [? _]. Qed.



(** ** The handlers *)








(** *** Reads *)






(** *** Reads of the history *)












(** ** The service *)




End serial.

(** * Properties *)





#[local] Existing Instance suffix_Hasher.



